(* ===== verification/_CoqProject ===== *)
-Q . S2P
Prelude.v
Protocol.v
Book.v
PriorityBook.v
PriorityFacts.v
PriorityTime.v
BookHeap.v
BookMatch.v
BookRest.v
BookRefine.v
BookProps.v
Float64.v
FloatReal.v
Counters.v
Hist.v
HistProps.v
HistAccuracy.v
Score.v
ScoreProps.v
Text.v
TextProps.v
Utf8.v
Wire.v
IO.v
Store.v
Consumer.v
Calls.v
Conformance.v
ConformanceProps.v
RefEngine.v
RefEngineProps.v
Bot.v
BotProps.v
Chaos.v
BotPace.v
BotTurn.v
HonestBots.v
Fleet.v
FleetProps.v
Replicas.v
Ingester.v
IngesterMetrics.v
IngesterProps.v
IngesterStream.v
Leaderboard.v
Snapshot.v
IngesterSteps.v
IngesterSched.v
Orchestrator.v
OrchestratorProps.v
Lifecycle.v
Gateway.v
Config.v
Schema.v
Feed.v
FeedRefine.v
GatewayProps.v
Interleave.v
Pipeline.v
FullMarks.v
Restart.v
