(* ===== verification/Prelude.v ===== *)
(** * Arena: a verification library for the trading-engine benchmark platform

    Arena measures trading engines. A contestant uploads an engine through the
    [gateway]; for each run the [orchestrator] builds and starts it in a
    sandbox, probes it for conformance and cuts the load into shards; the
    [botfleet] fires orders at it and ships telemetry; the [ingester]
    aggregates the telemetry, judges the run and keeps the leaderboard. The
    services talk through Redis streams: [runs.jobs], [load.jobs] and
    [telemetry.raw].

    ** The parts and their files

    - This file: Go's [int64] ([Int64]), the monad [M] of computations over a
      store that may panic or run out of fuel, loops, slices.
    - [Protocol]: the wire types of [src/internal/protocol/protocol.go];
      [Wire]: their JSON, and that of the example engine's own types.
    - [Book]: [src/internal/matching/book.go], [Submit], [Cancel], [rest] on a
      heap of levels and orders. [PriorityBook] is the specification, two lists
      in priority order; [PriorityFacts] and [PriorityTime] are its theory.
      [BookHeap], [BookMatch], [BookRest] and [BookRefine] prove that the heap
      implements it; [BookProps] states what follows for the book.
    - [Float64]: binary64, exactly; [FloatReal]: its operations as rounded
      operations on reals. [Counters], [Hist], [HistProps]: the histogram of
      [src/internal/telemetry/hist.go]; [HistAccuracy]: how close a quantile is.
      [Score], [ScoreProps]: [Composite] of [src/internal/score/score.go].
    - [Text]: what the services use of Go's strings, strconv, unicode/utf8 and
      path/filepath; [TextProps]: numbers survive their text; [Utf8]: strings
      that are no UTF-8, and what becomes of them. [IO]: calls to
      the outside, their replies, the trace, and the rules of [wp]. [Store]:
      what Redis promises of hashes, sorted sets and keys, with an instance.
      [Consumer]: the loop in which a service reads its stream. [Calls]: what
      every call of a program satisfies, by rules for its combinators.
    - [Conformance], [ConformanceProps]: [conformance] of
      [src/cmd/orchestrator/main.go]. [RefEngine], [RefEngineProps]: the
      example engine [src/examples/reference-engine/main.go]; [Chaos]: its
      chaos mode, seen by a bot.
    - [Bot], [BotProps], [BotPace], [BotTurn]: a bot of
      [src/cmd/botfleet/main.go], its checks, its pace, its turns.
      [HonestBots]: a bot in front of an engine it shares with others. [Fleet],
      [FleetProps]: the shard, its flusher and the main loop. [Replicas]: many
      replicas of such a loop on one stream, which may join late and crash;
      its lemmas are about any service that reads a stream in this way.
    - [Ingester]: [src/cmd/ingester/main.go]. [IngesterMetrics]: [compute].
      [IngesterProps]: [finalize]. [IngesterStream]: the main loop over the
      stream. [Leaderboard]: the board; [Snapshot]: its published rows.
      [IngesterSteps], [IngesterSched]: the reader beside the sweeper.
    - [Orchestrator]: the rest of [src/cmd/orchestrator/main.go].
      [OrchestratorProps]: sharding and pinning. [Lifecycle]: [handle].
    - [Gateway], [GatewayProps]: the handlers and routes of
      [src/cmd/gateway/main.go], and its hub as an object with atomic
      operations. [Feed]: the goroutines of the WebSocket feed, [pumpEvents],
      [run], [ws]; [FeedRefine]: they refine that object.
    - [Config]: the environment variables of the services. [Schema]: the types
      of the keys of the store. [Interleave], [Pipeline]: the services composed.
      [FullMarks]: an honest engine from its job to its verdict. [Restart]:
      orchestrators as replicas, and an ingester that is restarted.

    ** How the code is modelled

    A function of the code is a definition of its name; where a loop body or a
    branch has a life of its own it is a definition too. Pointers are
    addresses into a map, 0 being nil, so that aliasing is kept: the book's
    levels and orders, the ingester's aggregates. Slices are lists: no code
    modelled here depends on the capacity or on the sharing of a backing array
    after an append. An [int] or [int64] is a [Z] in range; additions,
    subtractions and multiplications that may overflow wrap around
    ([Int64.add] and so on). A [float64] is a double with every operation
    rounded, on amd64, without fused multiply-add. [math.Log], [Log10] and
    [Pow], whose results Go does not fix to the last bit, are a parameter
    ([Math]) with the laws a theorem uses ([Log10Laws], [MathAccuracy]); so are
    the two functions of strconv whose exact output the theorems do not need
    ([Strconv]).

    Ranging over a map visits it in an unspecified order: the order is a
    parameter ([RangeOrder], [FieldOrder]) of which only that it is a
    permutation is assumed, or any permutation in a step relation ([Hub],
    [Feed]). A value sent as JSON is the value itself, which [Wire] justifies:
    its strings are well-formed, having come out of JSON themselves or being
    made of such and of ASCII; the names on the board, which the upload may
    give any bytes, are those handed to the encoder; a body or a payload that
    may not decode is a sum with the error.

    Redis, docker, the file system, HTTP, the clock and the random numbers are
    an [Env]: a state and a reply to each call. Most theorems hold for every
    environment; the others name what they use: a clock that does not run
    backwards ([ClockLaws], [SleepLaws]), random numbers in range ([RandLaws]),
    a store that answers what was written ([StoreLaws], of which [BoardLaws] is
    the part of the sorted set), streams that carry what their producers write
    ([JobLaws], [ShardLaws], [TextLaws]) and that a consumer group hands out
    once ([GroupLaws], [JobGroup]), a store that keeps the last value of a
    field ([Recorded]), an engine that keeps price-time priority
    ([PriorityEngine], [SharedEngine], and [Sandbox] for one that docker
    starts). Each has an instance among the witnesses. A theorem about a service says what calls it adds to the trace,
    its [writes] being those that change something.

    Goroutines are interleavings: what the bots do between any two accesses of
    the flusher is a list of atomic operations ([bot_op]); the ingester's
    reader and sweeper are a step relation whose steps are the critical
    sections; the relay, the broadcaster and the connections of the gateway are
    one whose steps are single actions, with the channel and the mutex.

    ** Fuel

    A loop of unbounded length takes fuel and theorems show that it is enough:
    the book's loops take as many turns as the structure they walk has cells
    and cannot run out ([BookRefine]); a bot needs one turn per clock tick up
    to its deadline ([bot_runs_to_deadline]); [handle] needs [life_fuel], one
    turn per half second of at most 45 seconds of health checks, and one per
    two seconds of a run and two minutes, and 391 turns for every job the
    gateway lets through. The main loops, which never end, are followed for
    any number of turns.

    ** What is shown

    - Book: it refines the priority book; executions, remainders, conservation
      of quantity, cancellation, rejection, the invariant of reachable books,
      time priority.
    - Probe and engines: the probe is exact, every engine that keeps the
      specification passes it, the example engine is the matching book; its
      chaos mode is reported exactly when it breaks the contract.
    - Bots and telemetry: a bot reports nothing of an honest engine, whoever
      else uses it, and bad acks always; a turn sends one request and accounts
      for it once; a shard ships exactly what its bots did and is run at most
      once, by whichever replica, crashed or new; quantiles are ranked
      observations, to within 2.5 percent.
    - Ingester: the metrics, the verdict, the board; a run is judged once, when
      complete or silent, under any interleaving, and no verdict gets stuck;
      the published rows are the best verdicts; after a restart a verdict
      counts what came since, and a run that had begun to end waits for the
      sweeper.
    - Orchestrator and gateway: every run ends and is cleaned up, and the one
      panic, a division by the number of cores, is ruled out by [main]; the
      jobs are shared among orchestrators, each handled at most once; the load
      is partitioned; requests are capped and queued, and only they write; the
      events reach every WebSocket client in order, without a deadlock, each
      served independently of the others; no configuration breaks a service.
    - Together: the wire types survive JSON; every service keeps to one schema
      of the store; every queued job is finished; the verdict counts exactly
      what the bots of all shards did, and its correctness is 1 exactly when
      some request was acked and none of them saw a violation; an engine that
      keeps price-time priority passes the probe, is not accused by any bot,
      and is judged from exactly what they did with conformance 1 and, unless
      every reply was lost, correctness 1.

    ** What is not modelled

    Connection set-up, listening and logging of the [main] functions; the
    static file server; the text of the SQL that archives a run; the bytes of
    HTTP, of the WebSocket and of JSON. The web page, the deployment files and
    the example engine in Python are not Go. Between replicas the handling of
    a message is one step, and a crash in the middle of it leaves some calls
    that claim nothing; what half a story, or half of the batches of a shard,
    leaves behind is not followed further. The live figures an ingester writes
    between the verdicts have a type ([Schema]) but no other theorem. *)
From Stdlib Require Export ZArith Lia.
From stdpp Require Export prelude gmap strings sorting fin_maps.

#[export] Set Default Goal Selector "!".

(** ** Machine integers: Go's [int64] (and [int], which is 64 bits wide) *)

Module Int64.
Local Open Scope Z_scope.

Definition modulus : Z := 2 ^ 64.
Definition min_val : Z := - 2 ^ 63.
Definition max_val : Z := 2 ^ 63 - 1.

(** The two's complement value of the low 64 bits of [z]. *)
Definition wrap (z : Z) : Z := (z + 2 ^ 63) mod modulus - 2 ^ 63.

Definition add (x y : Z) : Z := wrap (x + y).
Definition sub (x y : Z) : Z := wrap (x - y).
Definition mul (x y : Z) : Z := wrap (x * y).

(** [x % y]: the sign is that of [x]; [None] is the panic when [y] is 0. *)
Definition rem (x y : Z) : option Z := if y =? 0 then None else Some (Z.rem x y).

Definition in_range (z : Z) : Prop := min_val <= z <= max_val.

#[export] Instance in_range_dec z : Decision (in_range z).
Proof. unfold in_range. apply _. Defined.

Lemma wrap_in_range z : in_range (wrap z).
Proof.
  unfold in_range, wrap, min_val, max_val, modulus.
  pose proof (Z.mod_pos_bound (z + 2 ^ 63) (2 ^ 64)). lia.
Qed.

Lemma wrap_id z : in_range z -> wrap z = z.
Proof.
  unfold in_range, wrap, min_val, max_val, modulus. intros H.
  rewrite Z.mod_small; lia.
Qed.

Lemma wrap_mod z : wrap z mod modulus = z mod modulus.
Proof.
  unfold wrap. rewrite Zminus_mod_idemp_l. f_equal. lia.
Qed.

Lemma wrap_congr x y : x mod modulus = y mod modulus -> wrap x = wrap y.
Proof.
  unfold wrap. intros H.
  rewrite <- (Zplus_mod_idemp_l x), H, Zplus_mod_idemp_l. done.
Qed.

Lemma wrap_wrap z : wrap (wrap z) = wrap z.
Proof. apply wrap_congr, wrap_mod. Qed.

Lemma add_wrap_l x y : add (wrap x) y = add x y.
Proof.
  apply wrap_congr. rewrite <- Zplus_mod_idemp_l, wrap_mod, Zplus_mod_idemp_l. done.
Qed.

Lemma add_wrap_r x y : add x (wrap y) = add x y.
Proof. unfold add. rewrite (Z.add_comm x), (Z.add_comm x). apply add_wrap_l. Qed.

Lemma add_comm x y : add x y = add y x.
Proof. unfold add. by rewrite Z.add_comm. Qed.

Lemma add_assoc x y z : add (add x y) z = add x (add y z).
Proof.
  unfold add at 2 4. rewrite add_wrap_l, add_wrap_r. unfold add. by rewrite Z.add_assoc.
Qed.

Lemma add_sub x y : in_range x -> add (sub x y) y = x.
Proof.
  intros H. unfold sub. rewrite add_wrap_l. unfold add.
  rewrite <- (wrap_id x) at 2 by done. f_equal. lia.
Qed.

Lemma add_0_l x : in_range x -> add 0 x = x.
Proof. apply wrap_id. Qed.

Lemma add_in_range x y : in_range (add x y).
Proof. apply wrap_in_range. Qed.

Lemma sub_small x y : 0 <= y <= x -> in_range x -> sub x y = x - y.
Proof. intros ??. apply wrap_id. unfold in_range, min_val, max_val in *. lia. Qed.

Lemma sub_diag_0 x : sub x x = 0.
Proof. unfold sub. rewrite Z.sub_diag. done. Qed.
End Int64.

Abbreviation in64 := Int64.in_range.

(** ** Go computations: state passing, with panics and fuel as outcomes *)

Inductive result (A : Type) : Type :=
| Ok (a : A)
| Panic
| OutOfFuel.
Arguments Ok {A} a.
Arguments Panic {A}.
Arguments OutOfFuel {A}.

(** A computation over the store [S] that returns an [A]. *)
Definition M (S A : Type) : Type := S -> result (A * S).

#[export] Instance M_ret {S} : MRet (M S) := fun A a s => Ok (a, s).
#[export] Instance M_bind {S} : MBind (M S) := fun A B f m s =>
  match m s with
  | Ok (a, s') => f a s'
  | Panic => Panic
  | OutOfFuel => OutOfFuel
  end.

Section monad.
Context {S : Type}.

Definition get : M S S := fun s => Ok (s, s).
Definition modify (f : S -> S) : M S () := fun s => Ok ((), f s).
Definition panic {A} : M S A := fun _ => Panic.

(** A dereference or an index that may be out of range. *)
Definition orPanic {A} (o : option A) : M S A :=
  match o with Some a => mret a | None => panic end.

(** A [for] loop: [inl i] goes round again with the loop state [i], [inr r]
    leaves the loop with [r]. *)
Fixpoint loop {I R} (fuel : nat) (body : I -> M S (I + R)) (i : I) : M S R :=
  match fuel with
  | O => fun _ => OutOfFuel
  | Datatypes.S fuel' =>
      x ← body i;
      match x with
      | inl i' => loop fuel' body i'
      | inr r => mret r
      end
  end.

Lemma bind_ok {A B} (m : M S A) (f : A -> M S B) s a s' :
  m s = Ok (a, s') -> (m ≫= f) s = f a s'.
Proof. unfold mbind, M_bind. by intros ->. Qed.

Lemma ret_ok {A} (a : A) (s : S) : (mret a : M S A) s = Ok (a, s).
Proof. done. Qed.

Lemma loop_S {I R} n (body : I -> M S (I + R)) i s :
  loop (Datatypes.S n) body i s =
  (x ← body i; match x with inl i' => loop n body i' | inr r => mret r end) s.
Proof. done. Qed.

Lemma loop_next {I R} n (body : I -> M S (I + R)) i s i' s' :
  body i s = Ok (inl i', s') -> loop (Datatypes.S n) body i s = loop n body i' s'.
Proof. intros H. rewrite loop_S. by rewrite (bind_ok _ _ _ _ _ H). Qed.

Lemma loop_exit {I R} n (body : I -> M S (I + R)) i s r s' :
  body i s = Ok (inr r, s') -> loop (Datatypes.S n) body i s = Ok (r, s').
Proof. intros H. rewrite loop_S. by rewrite (bind_ok _ _ _ _ _ H). Qed.
End monad.
Arguments loop : simpl never.

(** ** Go slices as lists

    A slice expression or an index out of range panics; [copy] overwrites a
    prefix of its destination and behaves like [memmove]. *)

Definition index {S A} (l : list A) (i : nat) : M S A := orPanic (l !! i).

(** [l\[n:\]] *)
Definition slice_from {S A} (l : list A) (n : nat) : M S (list A) :=
  if decide (n <= length l)%nat then mret (drop n l) else panic.

(** [l\[:n\]], for [n] up to the length *)
Definition slice_to {S A} (l : list A) (n : nat) : M S (list A) :=
  if decide (n <= length l)%nat then mret (take n l) else panic.

(** [copy(dst, src)]: the new contents of [dst]. *)
Definition copy_into {A} (dst src : list A) : list A :=
  take (length dst) src ++ drop (length src) dst.

Lemma index_ok {S A} (l : list A) i x (s : S) : l !! i = Some x -> index l i s = Ok (x, s).
Proof. unfold index. by intros ->. Qed.

Lemma slice_from_ok {S A} (l : list A) n (s : S) :
  (n <= length l)%nat -> slice_from l n s = Ok (drop n l, s).
Proof. unfold slice_from. intros. by rewrite decide_True. Qed.

Lemma slice_to_ok {S A} (l : list A) n (s : S) :
  (n <= length l)%nat -> slice_to l n s = Ok (take n l, s).
Proof. unfold slice_to. intros. by rewrite decide_True. Qed.

(** ** Tactics *)

(** Computations that succeed: each component adds its heap accesses. *)
Create HintDb heap.

(** Run the head of a bind by a lemma [H : m s = Ok _]. *)
Ltac run H := rewrite (bind_ok _ _ _ _ _ H).

(** Take [Forall] over a cons apart, in the hypotheses and then in the goal. *)
Ltac forall_cons :=
  repeat match goal with
  | H : Forall _ (_ :: _) |- _ => apply Forall_cons in H as [? ?]
  end;
  repeat (apply Forall_cons; split); simpl in *; try done.

(** A decidable closed goal, by evaluation. *)
Ltac decide_now := apply (bool_decide_unpack _); vm_compute; exact I.
