(* ===== verification/Protocol.v ===== *)
(** * The wire types of [src/internal/protocol/protocol.go]

    Orders, fills and acks are what an engine is asked and answers; run jobs,
    load shards and telemetry batches are what the services send each other.
    A Go [string] is a [string], an [int64] or [int] is a [Z]. *)
From S2P Require Import Prelude.
Local Open Scope Z_scope.

Abbreviation Side := string (only parsing).
Abbreviation OrdType := string (only parsing).

Definition Buy : Side := "buy".
Definition Sell : Side := "sell".
Definition Limit : OrdType := "limit".
Definition Market : OrdType := "market".

Record Order := mkOrder {
  o_id : string;
  o_side : Side;
  o_type : OrdType;
  o_price : Z;
  o_qty : Z
}.

Record Fill := mkFill {
  f_price : Z;
  f_qty : Z;
  f_maker : string
}.

Definition StatusResting : string := "resting".
Definition StatusPartial : string := "partial".
Definition StatusFilled : string := "filled".
Definition StatusRejected : string := "rejected".
Definition StatusCanceled : string := "canceled".
Definition StatusUnknown : string := "unknown".

Record Ack := mkAck {
  a_order : string;
  a_seq : Z;
  a_status : string;
  a_fills : list Fill;
  a_ts : Z
}.

(** The zero value of [Ack]. *)
Definition zeroAck : Ack := mkAck "" 0 "" [] 0.

Definition set_status (a : Ack) (s : string) : Ack :=
  mkAck (a_order a) (a_seq a) s (a_fills a) (a_ts a).
Definition add_fill (a : Ack) (f : Fill) : Ack :=
  mkAck (a_order a) (a_seq a) (a_status a) (a_fills a ++ [f]) (a_ts a).

#[export] Instance Fill_eq_dec : EqDecision Fill.
Proof. solve_decision. Defined.
#[export] Instance Order_eq_dec : EqDecision Order.
Proof. solve_decision. Defined.
#[export] Instance Ack_eq_dec : EqDecision Ack.
Proof. solve_decision. Defined.

(** gateway -> orchestrator *)
Record RunJob := mkRunJob {
  rj_run : string;
  rj_submission : string;
  rj_bots : Z;
  rj_duration : Z;
  rj_max_rps : Z
}.

(** orchestrator -> botfleet *)
Record LoadShard := mkLoadShard {
  ls_run : string;
  ls_target : string;
  ls_shard : Z;
  ls_total : Z;
  ls_bots : Z;
  ls_duration : Z;
  ls_max_rps : Z;
  ls_seed : Z
}.

(** botfleet -> ingester *)
Record TelemetryBatch := mkBatch {
  tb_run : string;
  tb_shard : Z;
  tb_total : Z;
  tb_final : bool;
  tb_sent : Z;
  tb_acked : Z;
  tb_errors : Z;
  tb_violations : Z;
  tb_hist : gmap Z Z;
  tb_sec_acks : gmap Z Z;
  tb_sec_errs : gmap Z Z;
  tb_samples : list string
}.

#[export] Instance batch_eq_dec : EqDecision TelemetryBatch.
Proof. solve_decision. Defined.
