(* ===== verification/Book.v ===== *)
(** * The reference limit order book, as written: [src/internal/matching/book.go]

    The book is a graph of heap objects: [bids] and [asks] are slices of
    pointers to levels, a level's queue is a slice of pointers to resting
    orders, and [byID] maps an order id to the same resting object its queue
    points at. The model keeps that sharing: a [Store] holds the levels and the
    resting orders under their addresses, every read through a pointer is a
    lookup that panics on a nil or dangling address, and a partial fill changes
    the one object both [byID] and the queue refer to.

    No backing array is shared by two live slices of the program, so a slice
    itself is a list. *)
From S2P Require Import Prelude Protocol.
Local Open Scope Z_scope.

(** An address; 0 is [nil] and is never allocated. *)
Abbreviation ptr := N.
Definition nil_ptr : ptr := 0%N.

Record resting := mkResting {
  r_id : string;
  r_side : Side;
  r_price : Z;
  r_qty : Z
}.

#[export] Instance resting_eq_dec : EqDecision resting.
Proof. solve_decision. Defined.

Record level := mkLevel {
  lv_price : Z;
  lv_queue : list ptr
}.

Record Book := mkBook {
  bids : list ptr;
  asks : list ptr;
  byID : gmap string ptr;
  seq : Z
}.

(** The book with the heap its pointers lead into. *)
Record Store := mkStore {
  book : Book;
  restings : gmap ptr resting;
  levels : gmap ptr level;
  next_ptr : ptr
}.

Definition New : Store := mkStore (mkBook [] [] ∅ 0) ∅ ∅ 1%N.

(** ** Field and heap accesses *)

(** [&b.bids] or [&b.asks]: the address of a field of the book. *)
Inductive side_field := Bids | Asks.

#[export] Instance side_field_eq_dec : EqDecision side_field.
Proof. solve_decision. Defined.

Definition field (f : side_field) (b : Book) : list ptr :=
  match f with Bids => bids b | Asks => asks b end.

Definition set_field (f : side_field) (l : list ptr) (b : Book) : Book :=
  match f with
  | Bids => mkBook l (asks b) (byID b) (seq b)
  | Asks => mkBook (bids b) l (byID b) (seq b)
  end.

Definition set_byID (m : gmap string ptr) (b : Book) : Book :=
  mkBook (bids b) (asks b) m (seq b).

Definition with_book (f : Book -> Book) (s : Store) : Store :=
  mkStore (f (book s)) (restings s) (levels s) (next_ptr s).

Definition get_book : M Store Book := s ← get; mret (book s).
Definition get_field (f : side_field) : M Store (list ptr) :=
  b ← get_book; mret (field f b).
Definition put_field (f : side_field) (l : list ptr) : M Store () :=
  modify (with_book (set_field f l)).
Definition byID_delete (id : string) : M Store () :=
  modify (with_book (fun b => set_byID (delete id (byID b)) b)).
Definition byID_insert (id : string) (p : ptr) : M Store () :=
  modify (with_book (fun b => set_byID (<[id := p]> (byID b)) b)).

Definition load_level (p : ptr) : M Store level :=
  s ← get; orPanic (levels s !! p).
Definition store_level (p : ptr) (lv : level) : M Store () :=
  modify (fun s => mkStore (book s) (restings s) (<[p := lv]> (levels s)) (next_ptr s)).
Definition load_resting (p : ptr) : M Store resting :=
  s ← get; orPanic (restings s !! p).
Definition store_resting (p : ptr) (r : resting) : M Store () :=
  modify (fun s => mkStore (book s) (<[p := r]> (restings s)) (levels s) (next_ptr s)).

(** [&resting{...}] and [&level{...}] *)
Definition alloc_resting (r : resting) : M Store ptr := fun s =>
  Ok (next_ptr s, mkStore (book s) (<[next_ptr s := r]> (restings s)) (levels s)
                          (N.succ (next_ptr s))).
Definition alloc_level (lv : level) : M Store ptr := fun s =>
  Ok (next_ptr s, mkStore (book s) (restings s) (<[next_ptr s := lv]> (levels s))
                          (N.succ (next_ptr s))).

Definition set_qty (r : resting) (q : Z) : resting :=
  mkResting (r_id r) (r_side r) (r_price r) q.
Definition set_queue (lv : level) (q : list ptr) : level := mkLevel (lv_price lv) q.

(** ** [Submit] *)

(** [b.next()] *)
Definition next : M Store Z :=
  modify (with_book (fun b => mkBook (bids b) (asks b) (byID b) (Int64.add (seq b) 1)));;
  b ← get_book; mret (seq b).

(** The condition under which [Submit] rejects an order before looking at the book. *)
Definition invalid (o : Order) : bool :=
  (o_qty o <=? 0)
  || (negb (String.eqb (o_side o) Buy) && negb (String.eqb (o_side o) Sell))
  || (negb (String.eqb (o_type o) Limit) && negb (String.eqb (o_type o) Market))
  || (String.eqb (o_type o) Limit && (o_price o <=? 0)).

(** The two [break]s: the best level is past the taker's limit. *)
Definition past_limit (o : Order) (best_price : Z) : bool :=
  String.eqb (o_type o) Limit
  && ((String.eqb (o_side o) Buy && (o_price o <? best_price))
      || (String.eqb (o_side o) Sell && (best_price <? o_price o))).

(** One turn of the inner loop, over the queue of the best level. *)
Definition fill_step (best : ptr) (st : Z * Ack) : M Store ((Z * Ack) + (Z * Ack)) :=
  let '(remaining, ack) := st in
  lv ← load_level best;
  if (0 <? remaining) && negb (bool_decide (lv_queue lv = [])) then
    maker ← index (lv_queue lv) 0;
    m ← load_resting maker;
    let q := Z.min remaining (r_qty m) in
    let ack := add_fill ack (mkFill (r_price m) q (r_id m)) in
    let remaining := Int64.sub remaining q in
    store_resting maker (set_qty m (Int64.sub (r_qty m) q));;
    m ← load_resting maker;
    if r_qty m =? 0 then
      lv ← load_level best;
      queue ← slice_from (lv_queue lv) 1;
      store_level best (set_queue lv queue);;
      byID_delete (r_id m);;
      mret (inl (remaining, ack))
    else mret (inl (remaining, ack))
  else mret (inr (remaining, ack)).

(** One turn of the outer loop, over the levels of the opposite side. *)
Definition match_step (o : Order) (opp : side_field) (st : Z * Ack)
    : M Store ((Z * Ack) + (Z * Ack)) :=
  let '(remaining, ack) := st in
  ps ← get_field opp;
  if (0 <? remaining) && negb (bool_decide (ps = [])) then
    best ← index ps 0;
    lv ← load_level best;
    if past_limit o (lv_price lv) then mret (inr (remaining, ack))
    else
      '(remaining, ack) ←
        loop (2 + length (lv_queue lv)) (fill_step best) (remaining, ack);
      lv ← load_level best;
      if bool_decide (lv_queue lv = []) then
        ps ← get_field opp;
        ps ← slice_from ps 1;
        put_field opp ps;;
        mret (inl (remaining, ack))
      else mret (inl (remaining, ack))
  else mret (inr (remaining, ack)).

Definition match_loop (o : Order) (opp : side_field) (st : Z * Ack) : M Store (Z * Ack) :=
  ps ← get_field opp;
  loop (2 + length ps) (match_step o opp) st.

(** The position [rest] inserts at: [inl] when it finds the order's level. *)
Definition scan_step (f : side_field) (r : resting) (i : nat)
    : M Store (nat + (ptr + nat)) :=
  ps ← get_field f;
  if decide (i < length ps)%nat then
    p ← index ps i;
    lv ← load_level p;
    if lv_price lv =? r_price r then mret (inr (inl p))
    else if String.eqb (r_side r) Buy && (lv_price lv <? r_price r) then mret (inr (inr i))
    else if String.eqb (r_side r) Sell && (r_price r <? lv_price lv) then mret (inr (inr i))
    else mret (inl (S i))
  else mret (inr (inr i)).

(** The [copy] of the tail from [i] over the tail from [i+1]: the two overlap,
    and the source is read as it was before the copy. *)
Definition shift_right (ps : list ptr) (i : nat) : M Store (list ptr) :=
  dst ← slice_from ps (i + 1);
  src ← slice_from ps i;
  mret (take (i + 1) ps ++ copy_into dst src).

(** [rest(r)], [rp] the address of the order [r]. *)
Definition rest (rp : ptr) : M Store () :=
  r ← load_resting rp;
  byID_insert (r_id r) rp;;
  let side := if String.eqb (r_side r) Buy then Bids else Asks in
  ps ← get_field side;
  found ← loop (1 + length ps) (scan_step side r) 0%nat;
  match found with
  | inl p =>
      lv ← load_level p;
      store_level p (set_queue lv (lv_queue lv ++ [rp]))
  | inr i =>
      lp ← alloc_level (mkLevel (r_price r) [rp]);
      ps ← get_field side;
      put_field side (ps ++ [nil_ptr]);;
      ps ← get_field side;
      ps ← shift_right ps i;
      put_field side (<[i := lp]> ps)
  end.

Definition Submit (o : Order) : M Store Ack :=
  n ← next;
  let ack := mkAck (o_id o) n "" [] 0 in
  if invalid o then mret (set_status ack StatusRejected)
  else
    b ← get_book;
    if bool_decide (is_Some (byID b !! o_id o)) then mret (set_status ack StatusRejected)
    else
      let opp := if String.eqb (o_side o) Sell then Bids else Asks in
      '(remaining, ack) ← match_loop o opp (o_qty o, ack);
      if remaining =? 0 then mret (set_status ack StatusFilled)
      else if String.eqb (o_type o) Market then
        mret (set_status ack (if remaining <? o_qty o then StatusPartial else StatusCanceled))
      else
        rp ← alloc_resting (mkResting (o_id o) (o_side o) (o_price o) remaining);
        rest rp;;
        mret (set_status ack (if remaining <? o_qty o then StatusPartial else StatusResting)).

(** ** [Cancel] *)

(** The inner [range]: drop the first entry whose order has the id. *)
Fixpoint cancel_queue (id : string) (lp : ptr) (queue : list ptr) (qi : nat) : M Store () :=
  match queue with
  | [] => mret ()
  | q :: queue' =>
      r ← load_resting q;
      if String.eqb (r_id r) id then
        lv ← load_level lp;
        front ← slice_to (lv_queue lv) qi;
        back ← slice_from (lv_queue lv) (qi + 1);
        store_level lp (set_queue lv (front ++ back))
      else cancel_queue id lp queue' (S qi)
  end.

(** The outer [range], over the levels of the order's side. *)
Fixpoint cancel_levels (id : string) (price : Z) (side : side_field) (ps : list ptr) (li : nat)
    : M Store () :=
  match ps with
  | [] => mret ()
  | lp :: ps' =>
      lv ← load_level lp;
      if negb (lv_price lv =? price) then cancel_levels id price side ps' (S li)
      else
        cancel_queue id lp (lv_queue lv) 0;;
        lv ← load_level lp;
        if bool_decide (lv_queue lv = []) then
          cur ← get_field side;
          front ← slice_to cur li;
          back ← slice_from cur (li + 1);
          put_field side (front ++ back)
        else mret ()
  end.

Definition Cancel (id : string) : M Store Ack :=
  n ← next;
  let ack := mkAck id n "" [] 0 in
  b ← get_book;
  match byID b !! id with
  | None => mret (set_status ack StatusUnknown)
  | Some rp =>
      byID_delete id;;
      r ← load_resting rp;
      let side := if String.eqb (r_side r) Buy then Bids else Asks in
      ps ← get_field side;
      cancel_levels id (r_price r) side ps 0;;
      mret (set_status ack StatusCanceled)
  end.
