(* ===== verification/PriorityBook.v ===== *)
(** * What a price-time priority book promises

    The abstract book keeps each side as one list of resting orders, the order
    with the highest priority first. A taker consumes the willing prefix of the
    opposite list; what is left of a limit order is placed behind every order
    that is at least as good. Nothing here mentions levels, pointers or the id
    index; [BookRefine] shows that the pointer book implements it. *)
From S2P Require Import Prelude Protocol Book.
Local Open Scope Z_scope.

(** ** Priority *)

(** [better f p q]: on side [f], price [p] comes before price [q]. *)
Definition better (f : side_field) (p q : Z) : bool :=
  match f with Bids => q <? p | Asks => p <? q end.

(** The side a resting order of this [Side] is on. *)
Definition own_side (sd : Side) : side_field := if String.eqb sd Buy then Bids else Asks.
Definition flip (f : side_field) : side_field := match f with Bids => Asks | Asks => Bids end.

Definition side_name (f : side_field) : Side := match f with Bids => Buy | Asks => Sell end.

Definition prio_le (f : side_field) (x y : resting) : Prop :=
  better f (r_price y) (r_price x) = false.

Definition qty_ok (r : resting) : Prop := 0 < r_qty r <= Int64.max_val.

(** An order the engine accepts. *)
Definition valid (o : Order) : Prop :=
  0 < o_qty o
  /\ (o_side o = Buy \/ o_side o = Sell)
  /\ (o_type o = Market \/ o_type o = Limit /\ 0 < o_price o).

#[export] Instance valid_dec o : Decision (valid o).
Proof. unfold valid. apply _. Defined.

(** A taker is willing to trade at [p]: any price for a market order, at most
    its limit for a buyer, at least its limit for a seller. *)
Definition willing (o : Order) (p : Z) : Prop :=
  o_type o = Limit ->
  (o_side o = Buy -> p <= o_price o) /\ (o_side o = Sell -> o_price o <= p).

#[export] Instance willing_dec o p : Decision (willing o p).
Proof. unfold willing. apply _. Defined.

(** ** Operations *)

Record PBook := mkPBook {
  pb_bids : list resting;
  pb_asks : list resting;
  pb_seq : Z
}.

Definition pb_side (f : side_field) (pb : PBook) : list resting :=
  match f with Bids => pb_bids pb | Asks => pb_asks pb end.
Definition pb_set (f : side_field) (rs : list resting) (pb : PBook) : PBook :=
  match f with
  | Bids => mkPBook rs (pb_asks pb) (pb_seq pb)
  | Asks => mkPBook (pb_bids pb) rs (pb_seq pb)
  end.
Definition pb_orders (pb : PBook) : list resting := pb_bids pb ++ pb_asks pb.
Definition pb_tick (pb : PBook) : PBook :=
  mkPBook (pb_bids pb) (pb_asks pb) (Int64.add (pb_seq pb) 1).

(** Trade [remaining] against the orders of [rs], first to last. *)
Fixpoint consume (remaining : Z) (rs : list resting) : list Fill * Z * list resting :=
  match rs with
  | [] => ([], remaining, [])
  | r :: rs' =>
      if decide (remaining <= 0) then ([], remaining, rs)
      else if decide (r_qty r <= remaining) then
        let '(fs, unfilled, rs'') := consume (remaining - r_qty r) rs' in
        (mkFill (r_price r) (r_qty r) (r_id r) :: fs, unfilled, rs'')
      else ([mkFill (r_price r) remaining (r_id r)], 0,
            set_qty r (r_qty r - remaining) :: rs')
  end.

(** The longest prefix on which [P] holds, and the rest. *)
Fixpoint span {A} (P : A -> Prop) `{!forall x, Decision (P x)} (l : list A) : list A * list A :=
  match l with
  | [] => ([], [])
  | x :: l' =>
      if decide (P x) then let '(a, b) := span P l' in (x :: a, b) else ([], l)
  end.

(** Trade against the willing prefix. *)
Definition take_orders (o : Order) (rs : list resting) : list Fill * Z * list resting :=
  let '(xs, ys) := span (fun r => willing o (r_price r)) rs in
  let '(fs, unfilled, xs') := consume (o_qty o) xs in
  (fs, unfilled, xs' ++ ys).

(** Place [r] behind every order it is not better than. *)
Fixpoint place (f : side_field) (r : resting) (rs : list resting) : list resting :=
  match rs with
  | [] => [r]
  | x :: rs' => if better f (r_price r) (r_price x) then r :: rs else x :: place f r rs'
  end.

(** The status of an accepted order with [unfilled] of it not filled. *)
Definition outcome (o : Order) (unfilled : Z) : string :=
  if decide (unfilled = 0) then StatusFilled
  else if decide (unfilled < o_qty o) then StatusPartial
  else if decide (o_type o = Market) then StatusCanceled
  else StatusResting.

Definition pb_submit (o : Order) (pb0 : PBook) : Ack * PBook :=
  let pb := pb_tick pb0 in
  if decide (valid o /\ o_id o ∉ map r_id (pb_orders pb)) then
    let mine := own_side (o_side o) in
    let '(fs, unfilled, opp) := take_orders o (pb_side (flip mine) pb) in
    let pb := pb_set (flip mine) opp pb in
    let pb := if decide (unfilled = 0 \/ o_type o = Market) then pb
              else pb_set mine (place mine (mkResting (o_id o) (o_side o) (o_price o) unfilled)
                                      (pb_side mine pb)) pb in
    (mkAck (o_id o) (pb_seq pb) (outcome o unfilled) fs 0, pb)
  else (mkAck (o_id o) (pb_seq pb) StatusRejected [] 0, pb).

Definition pb_cancel (id : string) (pb0 : PBook) : Ack * PBook :=
  let pb := pb_tick pb0 in
  if decide (id ∈ map r_id (pb_orders pb)) then
    let keep := filter (fun r => r_id r <> id) in
    (mkAck id (pb_seq pb) StatusCanceled [] 0,
     mkPBook (keep (pb_bids pb)) (keep (pb_asks pb)) (pb_seq pb))
  else (mkAck id (pb_seq pb) StatusUnknown [] 0, pb).
