(* ===== verification/PriorityFacts.v ===== *)
(** * Facts about the abstract book

    How an order is executed against the opposite list, and that each
    operation keeps the book sorted, uncrossed and free of duplicate ids. *)
From S2P Require Import Prelude Protocol Book PriorityBook.
Local Open Scope Z_scope.

Definition whole (r : resting) : Fill := mkFill (r_price r) (r_qty r) (r_id r).
Definition sum_qty (rs : list resting) : Z := foldr (fun r n => r_qty r + n) 0 rs.
Definition sum_fills (fs : list Fill) : Z := foldr (fun f n => f_qty f + n) 0 fs.

Lemma sum_qty_app xs ys : sum_qty (xs ++ ys) = sum_qty xs + sum_qty ys.
Proof. induction xs; simpl; lia. Qed.

Lemma sum_fills_app xs ys : sum_fills (xs ++ ys) = sum_fills xs + sum_fills ys.
Proof. induction xs; simpl; lia. Qed.

Lemma sum_fills_whole rs : sum_fills (map whole rs) = sum_qty rs.
Proof. induction rs; simpl; lia. Qed.

Lemma sum_fills_nonneg fs : (forall f, f ∈ fs -> 0 < f_qty f) -> 0 <= sum_fills fs.
Proof.
  induction fs as [|f fs IH]; intros Hpos; simpl; [lia|].
  pose proof (Hpos f ltac:(by left)). pose proof (IH (fun g Hg => Hpos g ltac:(by right))). lia.
Qed.

Lemma sum_qty_nonneg rs : Forall qty_ok rs -> 0 <= sum_qty rs.
Proof. induction 1 as [|r rs Hr _ IH]; simpl; [lia|]. unfold qty_ok in Hr. lia. Qed.

(** ** Execution in priority order

    [executed o opp fs u opp']: [o] met the orders of [opp] first to last. It
    filled a prefix of willing orders whole, then either ran out, stopped
    before an order it is not willing to trade with, or filled a part of the
    next one; [u] of it is unfilled and [opp'] is left. *)
Definition executed (o : Order) (opp : list resting) (fs : list Fill) (u : Z)
    (opp' : list resting) : Prop :=
  exists full tail, opp = full ++ tail /\ Forall (fun r => willing o (r_price r)) full /\
  ((fs = map whole full /\ opp' = tail /\ o_qty o = sum_qty full + u /\ 0 <= u
    /\ (u = 0 \/ forall r, head tail = Some r -> ~ willing o (r_price r)))
   \/ exists r tail' n, tail = r :: tail' /\ willing o (r_price r) /\ 0 < n < r_qty r
      /\ fs = map whole full ++ [mkFill (r_price r) n (r_id r)]
      /\ opp' = set_qty r (r_qty r - n) :: tail' /\ u = 0 /\ o_qty o = sum_qty full + n).

Lemma consume_executed n xs fs u xs' :
  0 <= n -> Forall qty_ok xs -> consume n xs = (fs, u, xs') ->
  exists full tail, xs = full ++ tail /\
  ((fs = map whole full /\ xs' = tail /\ n = sum_qty full + u /\ 0 <= u /\ (u = 0 \/ tail = []))
   \/ exists r tail' m, tail = r :: tail' /\ 0 < m < r_qty r
      /\ fs = map whole full ++ [mkFill (r_price r) m (r_id r)]
      /\ xs' = set_qty r (r_qty r - m) :: tail' /\ u = 0 /\ n = sum_qty full + m).
Proof.
  intros Hn Hxs. revert n fs u xs' Hn. induction Hxs as [|x xs Hx Hxs IH]; simpl;
    intros n fs u xs' Hn Hc.
  { simplify_eq. exists [], []. split; [done|]. left. simpl. split_and!; auto; lia. }
  unfold qty_ok in Hx. case_decide; [|case_decide].
  - simplify_eq. exists [], (x :: xs). split; [done|]. left. simpl. split_and!; auto; lia.
  - destruct (consume (n - r_qty x) xs) as [[fs0 u0] xs0] eqn:Hc0. simplify_eq.
    destruct (IH (n - r_qty x) fs0 u xs' ltac:(lia) Hc0) as (full & tail & -> & Hcase).
    exists (x :: full), tail. split; [done|].
    destruct Hcase as [(-> & -> & Hs & Hu & He)|(r & t & m & -> & Hm & -> & -> & -> & Hs)].
    + left. simpl. split_and!; [done|done|lia|done|done].
    + right. exists r, t, m. simpl. split_and!; try done; lia.
  - simplify_eq. exists [], (x :: xs). split; [done|]. right. exists x, xs, n. simpl.
    split_and!; try done; lia.
Qed.

Lemma span_cases {A} (P : A -> Prop) `{!forall x, Decision (P x)} l a b :
  span P l = (a, b) -> l = a ++ b /\ Forall P a /\ forall y, head b = Some y -> ~ P y.
Proof.
  revert a b. induction l as [|x l IH]; simpl; intros a b Heq; [by simplify_eq|].
  case_decide.
  2:{ simplify_eq. split_and!; [done|done|]. intros y Hy. by injection Hy as <-. }
  destruct (span P l) as [a0 b0]. simplify_eq. destruct (IH _ _ eq_refl) as (-> & ? & ?).
  split_and!; [done|by constructor|done].
Qed.

Lemma take_orders_executed o rs fs u rs' :
  0 <= o_qty o -> Forall qty_ok rs -> take_orders o rs = (fs, u, rs') ->
  executed o rs fs u rs'.
Proof.
  unfold take_orders. intros Hq Hrs.
  destruct (span _ rs) as [xs ys] eqn:Hsp. apply span_cases in Hsp as (-> & Hw & Hh).
  apply Forall_app in Hrs as [Hxs _].
  destruct (consume (o_qty o) xs) as [[fs0 u0] xs'] eqn:Hc. intros Heq. simplify_eq.
  destruct (consume_executed _ _ _ _ _ Hq Hxs Hc) as (full & tail & -> & Hcase).
  apply Forall_app in Hw as [Hwf Hwt].
  exists full, (tail ++ ys). rewrite <- app_assoc. split; [done|]. split; [done|].
  destruct Hcase as [(-> & -> & Hs & Hu & He)|(r & t & m & -> & Hm & -> & -> & -> & Hs)].
  - left. split_and!; try done. destruct He as [->| ->]; [by left|]. by right.
  - right. apply Forall_cons in Hwt as [Hwr _]. exists r, (t ++ ys), m. split_and!; (done || lia).
Qed.

(** Nothing is created or lost. *)
Lemma executed_sums o opp fs u opp' :
  executed o opp fs u opp' ->
  sum_fills fs + u = o_qty o /\ sum_qty opp' + sum_fills fs = sum_qty opp.
Proof.
  intros (full & tail & -> & _ & [(-> & -> & Hs & _)|(r & t & n & -> & _ & Hn & -> & -> & -> & Hs)]);
    rewrite sum_qty_app, ?sum_fills_app, ?sum_fills_whole; simpl; lia.
Qed.

Lemma executed_unfilled o opp fs u opp' : executed o opp fs u opp' -> 0 <= u.
Proof. intros (full & tail & _ & _ & [(_ & _ & _ & ? & _)|(? & ? & ? & _ & _ & _ & _ & _ & -> & _)]); lia. Qed.

(** Every fill is positive, at the maker's price, which the taker accepts. *)
Lemma executed_fills o opp fs u opp' f :
  Forall qty_ok opp -> executed o opp fs u opp' -> f ∈ fs ->
  0 < f_qty f /\ willing o (f_price f)
  /\ exists r, r ∈ opp /\ f_maker f = r_id r /\ f_price f = r_price r /\ f_qty f <= r_qty r.
Proof.
  intros Hok (full & tail & -> & Hw & Hcase) Hf. rewrite Forall_forall in Hw.
  rewrite Forall_forall in Hok.
  assert (forall r, r ∈ full -> f = whole r -> 0 < f_qty f /\ willing o (f_price f)
    /\ exists r, r ∈ full ++ tail /\ f_maker f = r_id r /\ f_price f = r_price r
       /\ f_qty f <= r_qty r) as Hfull.
  { intros r Hr ->. assert (r ∈ full ++ tail) as Hr' by (apply elem_of_app; by left).
    destruct (Hok r Hr'). simpl. split_and!; [lia|by apply Hw|]. exists r. split_and!; done || lia. }
  destruct Hcase as [(-> & _)|(r & t & n & -> & Hwr & Hn & -> & _)].
  - apply list_elem_of_fmap in Hf as (r & -> & Hr). by apply (Hfull r).
  - apply elem_of_app in Hf as [Hf|Hf].
    + apply list_elem_of_fmap in Hf as (r' & -> & Hr). by apply (Hfull r').
    + apply list_elem_of_singleton in Hf as ->. simpl. split_and!; [lia|done|].
      exists r. split_and!; [|done|done|lia]. apply elem_of_app. right. by left.
Qed.

(** What is left of the opposite side was there before. *)
Lemma executed_Forall (P : resting -> Prop) o opp fs u opp' :
  (forall r n, 0 < n <= r_qty r -> P r -> P (set_qty r n)) ->
  Forall P opp -> executed o opp fs u opp' -> Forall P opp'.
Proof.
  intros HP Hall (full & tail & -> & _ & Hcase). apply Forall_app in Hall as [_ Ht].
  destruct Hcase as [(_ & -> & _)|(r & t & n & -> & _ & Hn & _ & -> & _)]; [done|].
  apply Forall_cons in Ht as [Hr Ht]. constructor; [|done]. apply HP; [lia|done].
Qed.

(** A buyer or seller stops at the first order past its limit. *)
Lemma executed_stop o opp fs u opp' r :
  executed o opp fs u opp' -> 0 < u -> head opp' = Some r -> ~ willing o (r_price r).
Proof.
  intros (full & tail & -> & _ & [(_ & -> & _ & _ & [->|Hs])|(? & ? & ? & _ & _ & _ & _ & _ & -> & _)]);
    [lia|auto|lia].
Qed.

(** ** Placing an order *)

Lemma place_perm f r rs : place f r rs ≡ₚ r :: rs.
Proof.
  induction rs as [|x rs IH]; simpl; [done|]. destruct (better f _ _); [done|].
  rewrite IH. apply Permutation_swap.
Qed.

Lemma prio_le_better f x y z :
  better f (r_price x) (r_price y) = true -> prio_le f y z -> prio_le f x z.
Proof. unfold prio_le, better. destruct f; rewrite Z.ltb_lt, !Z.ltb_ge; lia. Qed.

#[export] Instance prio_le_trans f : Transitive (prio_le f).
Proof. intros x y z. unfold prio_le, better. destruct f; rewrite !Z.ltb_ge; lia. Qed.

Lemma place_sorted f r rs : StronglySorted (prio_le f) rs -> StronglySorted (prio_le f) (place f r rs).
Proof.
  induction 1 as [|x rs Hs IH Hx]; simpl; [by repeat constructor|].
  destruct (better f (r_price r) (r_price x)) eqn:Hb.
  - constructor; [by constructor|]. constructor.
    + unfold prio_le, better in *. destruct f; rewrite Z.ltb_lt in Hb; apply Z.ltb_ge; lia.
    + eapply Forall_impl; [exact Hx|]. intros z. by apply prio_le_better.
  - constructor; [done|]. rewrite place_perm. by constructor.
Qed.

(** ** Well-formed books *)

Record pb_wf (pb : PBook) : Prop := mkWf {
  wf_sorted f : StronglySorted (prio_le f) (pb_side f pb);
  wf_orders f : Forall (fun r => r_side r = side_name f /\ qty_ok r /\ 0 < r_price r) (pb_side f pb);
  wf_ids : NoDup (map r_id (pb_orders pb));
  wf_uncrossed b a : b ∈ pb_bids pb -> a ∈ pb_asks pb -> r_price b < r_price a
}.

(** An execution leaves a suffix of the opposite side, up to the quantity of
    its first order. *)
Definition key (r : resting) : string * Side * Z := (r_id r, r_side r, r_price r).

Lemma executed_keys o opp fs u opp' :
  executed o opp fs u opp' -> exists k, map key opp' = drop k (map key opp).
Proof.
  intros (full & tail & -> & _ & Hcase). exists (length full).
  rewrite map_app, <- (length_map key full), drop_app_length.
  by destruct Hcase as [(_ & -> & _)|(r & t & n & -> & _ & _ & _ & -> & _)].
Qed.

Lemma map_key_id rs : map r_id rs = map (fun k => k.1.1) (map key rs).
Proof. by rewrite map_map. Qed.

Lemma map_key_price rs : map r_price rs = map snd (map key rs).
Proof. by rewrite map_map. Qed.

Lemma executed_ids o opp fs u opp' :
  executed o opp fs u opp' -> exists k, map r_id opp' = drop k (map r_id opp).
Proof.
  intros H. destruct (executed_keys _ _ _ _ _ H) as [k Hk]. exists k.
  rewrite !map_key_id, Hk. symmetry. apply skipn_map.
Qed.

Lemma executed_elem o opp fs u opp' r :
  executed o opp fs u opp' -> r ∈ opp' -> exists r0, r0 ∈ opp /\ key r = key r0.
Proof.
  intros H Hr. destruct (executed_keys _ _ _ _ _ H) as [k Hk].
  assert (key r ∈ map key opp) as Hin.
  { rewrite <- (take_drop k (map key opp)), <- Hk. apply elem_of_app. right.
    apply list_elem_of_fmap. by exists r. }
  apply list_elem_of_fmap in Hin as (r0 & Heq & Hr0). by exists r0.
Qed.

Lemma StronglySorted_drop {A} (R : relation A) k l : StronglySorted R l -> StronglySorted R (drop k l).
Proof.
  rewrite <- (take_drop k l) at 1. intros H. by apply StronglySorted_app in H as (_ & _ & ?).
Qed.

Lemma executed_sorted f o opp fs u opp' :
  executed o opp fs u opp' -> StronglySorted (prio_le f) opp -> StronglySorted (prio_le f) opp'.
Proof.
  intros (full & tail & -> & _ & Hcase) Hs. apply StronglySorted_app in Hs as (_ & _ & Ht).
  destruct Hcase as [(_ & -> & _)|(r & t & n & -> & _ & _ & _ & -> & _)]; [done|].
  apply StronglySorted_cons in Ht as [??]. by apply StronglySorted_cons.
Qed.

(** No order the execution leaves is one the taker still wants to trade with. *)
Lemma executed_none_willing f o opp fs u opp' r :
  f = flip (own_side (o_side o)) -> valid o -> o_type o = Limit ->
  executed o opp fs u opp' -> StronglySorted (prio_le f) opp' -> 0 < u -> r ∈ opp' ->
  better f (o_price o) (r_price r) = true.
Proof.
  intros Hf (_ & Hside & _) Ht Hex Hs Hu Hr.
  destruct opp' as [|x opp']; [by apply elem_of_nil in Hr|].
  pose proof (executed_stop _ _ _ _ _ x Hex Hu eq_refl) as Hx.
  assert (r_price r = r_price x \/ prio_le f x r) as Hxr.
  { apply elem_of_cons in Hr as [->|Hr]; [by left|]. right.
    apply StronglySorted_cons in Hs as [Hs _]. by apply (proj1 (Forall_forall _ _) Hs). }
  unfold willing, prio_le, better in *.
  destruct Hside as [Hsd|Hsd]; rewrite Hsd in Hf, Hx; simpl in Hf; subst f; simpl in *;
    rewrite Z.ltb_ge in Hxr; apply Z.ltb_lt.
  - assert (o_price o < r_price x); [|lia]. apply Z.nle_gt. intros ?. apply Hx. intros _.
    by split.
  - assert (r_price x < o_price o); [|lia]. apply Z.nle_gt. intros ?. apply Hx. intros _.
    by split.
Qed.

(** ** [pb_submit] by cases *)

Definition rested (o : Order) (u : Z) : resting := mkResting (o_id o) (o_side o) (o_price o) u.

Record accepted (o : Order) (pb : PBook) (a : Ack) (pb' : PBook) (u : Z) : Prop := mkAccepted {
  acc_valid : valid o;
  acc_fresh : o_id o ∉ map r_id (pb_orders pb);
  acc_executed : let mine := own_side (o_side o) in
    executed o (pb_side (flip mine) pb) (a_fills a) u (pb_side (flip mine) pb');
  acc_mine : let mine := own_side (o_side o) in
    pb_side mine pb' = if decide (u = 0 \/ o_type o = Market) then pb_side mine pb
                       else place mine (rested o u) (pb_side mine pb);
  acc_status : a_status a = outcome o u
}.

Lemma pb_submit_cases o pb a pb' :
  (forall f, Forall qty_ok (pb_side f pb)) -> pb_submit o pb = (a, pb') ->
  a_order a = o_id o /\ a_seq a = Int64.add (pb_seq pb) 1 /\ pb_seq pb' = a_seq a /\
  ((~ (valid o /\ o_id o ∉ map r_id (pb_orders pb)) /\ a_status a = StatusRejected
    /\ a_fills a = [] /\ pb' = pb_tick pb)
   \/ exists u, accepted o pb a pb' u).
Proof.
  intros Hok. unfold pb_submit. case_decide as Hc.
  2:{ intros Heq. simplify_eq. simpl. split_and!; try done. left. done. }
  change (pb_orders (pb_tick pb)) with (pb_orders pb) in Hc. destruct Hc as [Hv Hf].
  set (mine := own_side (o_side o)).
  assert (pb_side (flip mine) (pb_tick pb) = pb_side (flip mine) pb) as -> by (by destruct mine).
  destruct (take_orders o (pb_side (flip mine) pb)) as [[fs u] opp] eqn:Ht.
  apply take_orders_executed in Ht; [|destruct Hv; lia|apply Hok].
  intros Heq. simplify_eq. simpl.
  split_and!; [done|by case_decide; destruct mine|by case_decide; destruct mine|].
  right. exists u. split; simpl; try done; fold mine.
  - replace (pb_side (flip mine) (if decide (u = 0 \/ o_type o = Market) then _ else _)) with opp;
      [done|]. case_decide; by destruct mine.
  - unfold rested. case_decide; by destruct mine.
Qed.

Lemma outcome_not_rejected o u : outcome o u <> StatusRejected.
Proof. unfold outcome. repeat case_decide; done. Qed.

Lemma wf_qty pb f : pb_wf pb -> Forall qty_ok (pb_side f pb).
Proof. intros H. eapply Forall_impl; [apply (wf_orders _ H f)|]. simpl. tauto. Qed.

Lemma pb_orders_perm f pb : pb_orders pb ≡ₚ pb_side f pb ++ pb_side (flip f) pb.
Proof. unfold pb_orders. destruct f; simpl; [done|apply Permutation_app_comm]. Qed.

(** The uncrossed condition, seen from one side. *)
Lemma uncrossed_side f pb :
  (forall b a, b ∈ pb_bids pb -> a ∈ pb_asks pb -> r_price b < r_price a) <->
  (forall x y, x ∈ pb_side f pb -> y ∈ pb_side (flip f) pb -> better (flip f) (r_price x) (r_price y) = true).
Proof.
  unfold better. destruct f; simpl; split; intros H x y Hx Hy.
  - apply Z.ltb_lt. auto.
  - apply Z.ltb_lt. auto.
  - apply Z.ltb_lt. auto.
  - apply Z.ltb_lt. auto.
Qed.

Lemma NoDup_drop_app {A} (xs ys zs : list A) k :
  NoDup (xs ++ ys) -> zs = drop k ys -> NoDup (xs ++ zs).
Proof.
  intros Hn ->. rewrite <- (take_drop k ys) in Hn.
  apply NoDup_app in Hn as (Hx & Hxy & Hy). apply NoDup_app in Hy as (_ & _ & Hy).
  apply NoDup_app. split_and!; [done| |done]. intros z Hz Hz'. apply (Hxy z Hz).
  apply elem_of_app. by right.
Qed.

Lemma pb_submit_wf o pb a pb' :
  pb_wf pb -> in64 (o_qty o) -> pb_submit o pb = (a, pb') -> pb_wf pb'.
Proof.
  intros Hwf Hin Hsub.
  destruct (pb_submit_cases o pb a pb' (fun f => wf_qty _ f Hwf) Hsub)
    as (_ & _ & _ & [(_ & _ & _ & ->)|(u & [Hv Hf Hex Hm _])]).
  { destruct Hwf as [H1 H2 H3 H4]. split; [intros []; [apply (H1 Bids)|apply (H1 Asks)]|
      intros []; [apply (H2 Bids)|apply (H2 Asks)]|done|done]. }
  cbv zeta in Hex, Hm. set (mine := own_side (o_side o)) in *.
  pose proof (executed_unfilled _ _ _ _ _ Hex) as Hu0.
  destruct (executed_sums _ _ _ _ _ Hex) as [Hsum _].
  assert (0 <= sum_fills (a_fills a)) as Hfs.
  { apply sum_fills_nonneg. intros f Hfin. by apply (executed_fills _ _ _ _ _ _ (wf_qty _ _ Hwf) Hex Hfin). }
  assert (StronglySorted (prio_le (flip mine)) (pb_side (flip mine) pb')) as Hso.
  { eapply executed_sorted; [exact Hex|]. apply Hwf. }
  assert (o_side o = side_name mine) as Hsd.
  { destruct Hv as (_ & [Hsd|Hsd] & _); unfold mine; by rewrite Hsd. }
  assert (u = 0 \/ o_type o = Market \/ 0 < u /\ o_type o = Limit /\ 0 < o_price o) as Hcase.
  { destruct Hv as (_ & _ & [?|[? ?]]); [by auto|]. destruct (decide (u = 0)); [by auto|]. right. right.
    split_and!; done || lia. }
  split.
  - intros g. destruct (decide (g = mine)) as [->|Hg].
    + rewrite Hm. case_decide; [apply Hwf|]. apply place_sorted, Hwf.
    + by assert (g = flip mine) as -> by (by destruct g, mine).
  - intros g. destruct (decide (g = mine)) as [->|Hg].
    + rewrite Hm. case_decide; [apply Hwf|]. rewrite place_perm. constructor; [|apply Hwf].
      unfold qty_ok. simpl. split; [done|]. unfold Int64.in_range in Hin.
      destruct Hcase as [?|[?|(? & ? & ?)]]; [tauto|tauto|lia].
    + assert (g = flip mine) as -> by (by destruct g, mine).
      eapply executed_Forall; [|apply (wf_orders _ Hwf)|exact Hex].
      intros r n Hn (H1 & H2 & H3). unfold qty_ok in *. simpl. split_and!; done || lia.
  - destruct (executed_ids _ _ _ _ _ Hex) as [k Hk].
    pose proof (wf_ids _ Hwf) as Hids. rewrite (pb_orders_perm mine), map_app in Hids.
    rewrite (pb_orders_perm mine), map_app, Hm. case_decide.
    + by eapply NoDup_drop_app.
    + rewrite place_perm. simpl. apply NoDup_cons. split; [|by eapply NoDup_drop_app].
      rewrite (pb_orders_perm mine), map_app in Hf. rewrite elem_of_app in Hf |- *.
      intros [Hin'|Hin']; [tauto|]. apply Hf. right. rewrite Hk in Hin'.
      rewrite <- (take_drop k). apply elem_of_app. by right.
  - apply (uncrossed_side mine). intros x y Hx Hy.
    destruct (executed_elem _ _ _ _ _ _ Hex Hy) as (y0 & Hy0 & Hkey).
    pose proof (proj1 (uncrossed_side mine pb) (wf_uncrossed _ Hwf)) as Hun.
    unfold key in Hkey. injection Hkey as _ _ Hpr. rewrite Hm in Hx. case_decide as Hc.
    + rewrite Hpr. by apply Hun.
    + rewrite place_perm in Hx. apply elem_of_cons in Hx as [->|Hx]; [|rewrite Hpr; by apply Hun].
      simpl. destruct Hcase as [?|[?|(? & ? & ?)]]; [tauto|tauto|].
      by eapply (executed_none_willing (flip mine)).
Qed.

(** ** [pb_cancel] *)

Lemma StronglySorted_filter {A} (R : relation A) (P : A -> Prop) `{!forall x, Decision (P x)} l :
  StronglySorted R l -> StronglySorted R (filter P l).
Proof.
  induction 1 as [|x l Hs IH Hx]; [constructor|]. rewrite filter_cons. case_decide; [|done].
  constructor; [done|]. rewrite Forall_forall in Hx |- *. intros y Hy.
  apply list_elem_of_filter in Hy as [_ Hy]. by apply Hx.
Qed.

Lemma pb_cancel_side id pb f :
  id ∈ map r_id (pb_orders pb) ->
  pb_side f (pb_cancel id pb).2 = filter (fun r => r_id r <> id) (pb_side f pb).
Proof.
  intros Hin. unfold pb_cancel. rewrite decide_True by done. by destruct f.
Qed.

Lemma pb_cancel_unknown id pb :
  id ∉ map r_id (pb_orders pb) ->
  pb_cancel id pb = (mkAck id (Int64.add (pb_seq pb) 1) StatusUnknown [] 0, pb_tick pb).
Proof. intros Hin. unfold pb_cancel. by rewrite decide_False. Qed.

Lemma pb_tick_wf pb : pb_wf pb -> pb_wf (pb_tick pb).
Proof.
  intros [H1 H2 H3 H4]. split; [intros []; [apply (H1 Bids)|apply (H1 Asks)]|
    intros []; [apply (H2 Bids)|apply (H2 Asks)]|done|done].
Qed.

Lemma pb_cancel_wf id pb : pb_wf pb -> pb_wf (pb_cancel id pb).2.
Proof.
  intros Hwf. destruct (decide (id ∈ map r_id (pb_orders pb))) as [Hin|Hin].
  2:{ rewrite pb_cancel_unknown by done. by apply pb_tick_wf. }
  pose proof (fun f => pb_cancel_side id pb f Hin) as Hs. split.
  - intros f. rewrite Hs. apply StronglySorted_filter, Hwf.
  - intros f. rewrite Hs. apply Forall_forall. intros r Hr.
    apply list_elem_of_filter in Hr as [_ Hr].
    by apply (proj1 (Forall_forall _ _) (wf_orders _ Hwf f)).
  - rewrite (pb_orders_perm Bids), !Hs, <- filter_app, <- (pb_orders_perm Bids).
    pose proof (wf_ids _ Hwf) as Hnd. clear -Hnd. induction (pb_orders pb) as [|r rs IH]; [done|].
    simpl in Hnd. apply NoDup_cons in Hnd as [Hn Hnd]. rewrite filter_cons. case_decide; [|auto].
    simpl. apply NoDup_cons. split; [|auto]. rewrite list_elem_of_fmap.
    intros (x & Hx & Hin). apply list_elem_of_filter in Hin as [_ Hin]. apply Hn.
    rewrite Hx. apply list_elem_of_fmap. by exists x.
  - intros b a Hb Ha. change (pb_bids ?x) with (pb_side Bids x) in Hb.
    change (pb_asks ?x) with (pb_side Asks x) in Ha. rewrite Hs in Hb, Ha.
    apply list_elem_of_filter in Hb as [_ Hb]. apply list_elem_of_filter in Ha as [_ Ha].
    by apply (wf_uncrossed _ Hwf).
Qed.

(** ** Requests *)

Inductive request := ReqSubmit (o : Order) | ReqCancel (id : string).

(** The quantity of a decoded order is an [int64]. *)
Definition req_ok (q : request) : Prop :=
  match q with ReqSubmit o => in64 (o_qty o) | ReqCancel _ => True end.

#[export] Instance req_ok_dec q : Decision (req_ok q).
Proof. destruct q; apply _. Defined.

Definition pb_handle (q : request) (pb : PBook) : Ack * PBook :=
  match q with ReqSubmit o => pb_submit o pb | ReqCancel id => pb_cancel id pb end.

Fixpoint pb_run (qs : list request) (pb : PBook) : list Ack * PBook :=
  match qs with
  | [] => ([], pb)
  | q :: qs' =>
      let '(a, pb1) := pb_handle q pb in
      let '(l, pb2) := pb_run qs' pb1 in (a :: l, pb2)
  end.

Definition pb_empty : PBook := mkPBook [] [] 0.

Lemma pb_empty_wf : pb_wf pb_empty.
Proof. split; [intros []; constructor|intros []; constructor|constructor|intros ?? Hb; by apply elem_of_nil in Hb]. Qed.

Lemma pb_handle_wf q pb : pb_wf pb -> req_ok q -> pb_wf (pb_handle q pb).2.
Proof.
  intros Hwf Hq. destruct q as [o|id]; simpl; [|by apply pb_cancel_wf].
  destruct (pb_submit o pb) as [a pb'] eqn:Hs. by eapply pb_submit_wf.
Qed.

Lemma pb_run_wf qs pb : pb_wf pb -> Forall req_ok qs -> pb_wf (pb_run qs pb).2.
Proof.
  intros Hwf Hqs. revert pb Hwf. induction Hqs as [|q qs Hq _ IH]; intros pb Hwf; simpl; [done|].
  pose proof (pb_handle_wf q pb Hwf Hq) as H1. destruct (pb_handle q pb) as [a pb1].
  specialize (IH pb1 H1). by destruct (pb_run qs pb1).
Qed.

(** Every request takes the next sequence number. *)
Lemma pb_handle_seq q pb :
  a_seq (pb_handle q pb).1 = Int64.add (pb_seq pb) 1
  /\ pb_seq (pb_handle q pb).2 = Int64.add (pb_seq pb) 1.
Proof.
  destruct q as [o|id]; simpl.
  - unfold pb_submit. case_decide; [|done].
    destruct (take_orders _ _) as [[fs u] opp]. simpl.
    case_decide; destruct (own_side (o_side o)); done.
  - unfold pb_cancel. by case_decide.
Qed.
