(* ===== verification/PriorityTime.v ===== *)
(** * Time priority

    The lists of the abstract book carry no times. Here every accepted order is
    stamped with the sequence number of its ack, and each side is shown to stay
    sorted by price and, at one price, by stamp: the order of the lists is the
    price-time order. *)
From S2P Require Import Prelude Protocol Book PriorityBook PriorityFacts.
Local Open Scope Z_scope.

Definition stamp (st : gmap string Z) (id : string) : Z := default 0 (st !! id).

(** The stamps after a request and its ack. *)
Definition stamp_step (st : gmap string Z) (q : request) (a : Ack) : gmap string Z :=
  match q with
  | ReqSubmit o => if decide (a_status a = StatusRejected) then st else <[o_id o := a_seq a]> st
  | ReqCancel _ => st
  end.

Fixpoint stamps (qs : list request) (acks : list Ack) (st : gmap string Z) : gmap string Z :=
  match qs, acks with
  | q :: qs', a :: acks' => stamps qs' acks' (stamp_step st q a)
  | _, _ => st
  end.

(** Price-time order: a better price, or the same price and an earlier stamp. *)
Definition before (f : side_field) (st : gmap string Z) (x y : resting) : Prop :=
  better f (r_price x) (r_price y) = true
  \/ r_price x = r_price y /\ stamp st (r_id x) < stamp st (r_id y).

Record timed (pb : PBook) (st : gmap string Z) : Prop := mkTimed {
  tm_sorted f : StronglySorted (before f st) (pb_side f pb);
  tm_bound r : r ∈ pb_orders pb -> stamp st (r_id r) <= pb_seq pb
}.

Lemma StronglySorted_impl_in {A} (R R' : relation A) l :
  (forall x y, x ∈ l -> y ∈ l -> R x y -> R' x y) -> StronglySorted R l -> StronglySorted R' l.
Proof.
  intros HR Hs. induction Hs as [|x l Hs IH Hx]; constructor.
  - apply IH. intros y z Hy Hz. apply HR; by right.
  - rewrite Forall_forall in Hx |- *. intros y Hy. apply HR; [by left|by right|by apply Hx].
Qed.

Lemma before_executed f st o opp fs u opp' :
  executed o opp fs u opp' -> StronglySorted (before f st) opp -> StronglySorted (before f st) opp'.
Proof.
  intros (full & tail & -> & _ & Hcase) Hs. apply StronglySorted_app in Hs as (_ & _ & Ht).
  destruct Hcase as [(_ & -> & _)|(r & t & n & -> & _ & _ & _ & -> & _)]; [done|].
  apply StronglySorted_cons in Ht as [??]. by apply StronglySorted_cons.
Qed.

Lemma better_before f st x y z :
  better f (r_price x) (r_price y) = true -> before f st y z -> better f (r_price x) (r_price z) = true.
Proof.
  unfold before, better. destruct f; rewrite !Z.ltb_lt; lia.
Qed.

Lemma place_before f st r rs :
  StronglySorted (before f st) rs ->
  (forall x, x ∈ rs -> stamp st (r_id x) < stamp st (r_id r)) ->
  StronglySorted (before f st) (place f r rs).
Proof.
  induction 1 as [|x rs Hs IH Hx]; simpl; intros Hst; [by repeat constructor|].
  destruct (better f (r_price r) (r_price x)) eqn:Hb.
  - constructor; [by constructor|]. constructor; [by left|].
    eapply Forall_impl; [exact Hx|]. intros z Hz. left. by eapply better_before.
  - constructor; [apply IH; intros y Hy; apply Hst; by right|].
    rewrite place_perm. constructor; [|done]. unfold before, better in *.
    specialize (Hst x ltac:(by left)). destruct f; rewrite Z.ltb_ge in Hb; rewrite Z.ltb_lt; lia.
Qed.

Lemma stamp_insert_ne st id n id' : id <> id' -> stamp (<[id := n]> st) id' = stamp st id'.
Proof. intros H. unfold stamp. by rewrite lookup_insert_ne. Qed.

Lemma stamp_insert st id n : stamp (<[id := n]> st) id = n.
Proof. unfold stamp. by rewrite lookup_insert_eq. Qed.

(** Stamping a fresh id changes no order between resting orders. *)
Lemma before_fresh f st id n rs :
  id ∉ map r_id rs -> StronglySorted (before f st) rs ->
  StronglySorted (before f (<[id := n]> st)) rs.
Proof.
  intros Hid. apply StronglySorted_impl_in. intros x y Hx Hy.
  assert (forall z, z ∈ rs -> id <> r_id z) as Hne.
  { intros z Hz ->. apply Hid. apply list_elem_of_fmap. by exists z. }
  unfold before. by rewrite !stamp_insert_ne by (by apply Hne).
Qed.

Lemma timed_submit o pb st a pb' :
  pb_wf pb -> pb_seq pb < Int64.max_val -> 0 <= pb_seq pb -> timed pb st ->
  pb_submit o pb = (a, pb') -> timed pb' (stamp_step st (ReqSubmit o) a).
Proof.
  intros Hwf Hmax Hpos [Hs Hb] Hsub.
  destruct (pb_submit_cases o pb a pb' (fun f => wf_qty _ f Hwf) Hsub)
    as (_ & Hseq & Hseq' & Hcase).
  assert (Int64.add (pb_seq pb) 1 = pb_seq pb + 1) as Hadd.
  { apply Int64.wrap_id. unfold Int64.in_range, Int64.min_val, Int64.max_val in *. lia. }
  rewrite Hadd in Hseq. unfold stamp_step.
  destruct Hcase as [(_ & Hst & _ & ->)|(u & [Hv Hf Hex Hm Hst])].
  { rewrite decide_True by done. split.
    - intros []; [apply (Hs Bids)|apply (Hs Asks)].
    - intros r Hr. simpl. rewrite Hadd. specialize (Hb r Hr). lia. }
  rewrite decide_False by (rewrite Hst; apply outcome_not_rejected).
  cbv zeta in Hex, Hm. set (mine := own_side (o_side o)) in *. rewrite Hseq in Hseq' |- *.
  pose proof Hf as Hf0. rewrite (pb_orders_perm mine), map_app, elem_of_app in Hf0.
  assert (forall r, r ∈ pb_orders pb -> stamp (<[o_id o := pb_seq pb + 1]> st) (r_id r) <= pb_seq pb) as Hold.
  { intros r Hr. rewrite stamp_insert_ne; [by apply Hb|]. intros Heq. apply Hf. rewrite Heq.
    apply list_elem_of_fmap. by exists r. }
  assert (StronglySorted (before mine (<[o_id o := pb_seq pb + 1]> st)) (pb_side mine pb)) as Hsm.
  { apply before_fresh; [tauto|apply Hs]. }
  split.
  - intros g. destruct (decide (g = mine)) as [->|Hg].
    + rewrite Hm. case_decide; [done|]. apply place_before; [done|]. intros x Hx. simpl.
      rewrite stamp_insert. assert (x ∈ pb_orders pb) as Hx'.
      { rewrite (pb_orders_perm mine). apply elem_of_app. by left. }
      specialize (Hold x Hx'). lia.
    + assert (g = flip mine) as -> by (by destruct g, mine).
      eapply before_executed; [exact Hex|]. apply before_fresh; [tauto|apply Hs].
  - intros r. rewrite (pb_orders_perm mine), elem_of_app, Hm, Hseq'. intros [Hr|Hr].
    + assert (r = rested o u \/ r ∈ pb_orders pb) as [->|Hr'].
      { rewrite (pb_orders_perm mine), elem_of_app. case_decide; [tauto|].
        rewrite place_perm, elem_of_cons in Hr. tauto. }
      * simpl. rewrite stamp_insert. lia.
      * specialize (Hold r Hr'). lia.
    + destruct (executed_elem _ _ _ _ _ _ Hex Hr) as (r0 & Hr0 & Hk). injection Hk as -> _ _.
      assert (r0 ∈ pb_orders pb) as Hr'.
      { rewrite (pb_orders_perm mine). apply elem_of_app. by right. }
      specialize (Hold r0 Hr'). lia.
Qed.

Lemma timed_cancel id pb st :
  pb_seq pb < Int64.max_val -> 0 <= pb_seq pb -> timed pb st -> timed (pb_cancel id pb).2 st.
Proof.
  intros Hmax Hpos [Hs Hb].
  assert (Int64.add (pb_seq pb) 1 = pb_seq pb + 1) as Hadd.
  { apply Int64.wrap_id. unfold Int64.in_range, Int64.min_val, Int64.max_val in *. lia. }
  destruct (pb_handle_seq (ReqCancel id) pb) as [_ Hseq]. simpl in Hseq. rewrite Hadd in Hseq.
  destruct (decide (id ∈ map r_id (pb_orders pb))) as [Hin|Hin].
  - pose proof (fun f => pb_cancel_side id pb f Hin) as Hf. split.
    + intros f. rewrite Hf. apply StronglySorted_filter, Hs.
    + intros r. rewrite Hseq, (pb_orders_perm Bids), !Hf, <- filter_app, <- (pb_orders_perm Bids).
      intros [_ Hr]%list_elem_of_filter. specialize (Hb r Hr). lia.
  - rewrite pb_cancel_unknown in Hseq |- * by done. simpl in *. split.
    + intros []; [apply (Hs Bids)|apply (Hs Asks)].
    + intros r Hr. simpl. rewrite Hadd. specialize (Hb r Hr). lia.
Qed.

Lemma timed_run qs pb st :
  pb_wf pb -> Forall req_ok qs -> timed pb st -> 0 <= pb_seq pb ->
  pb_seq pb + Z.of_nat (length qs) <= Int64.max_val ->
  timed (pb_run qs pb).2 (stamps qs (pb_run qs pb).1 st)
  /\ pb_seq (pb_run qs pb).2 = pb_seq pb + Z.of_nat (length qs).
Proof.
  intros Hwf Hqs. revert pb st Hwf. induction Hqs as [|q qs Hq _ IH]; intros pb st Hwf Ht Hpos Hlen;
    simpl; [split; [done|lia]|].
  simpl in Hlen. pose proof (pb_handle_wf q pb Hwf Hq) as Hwf1.
  destruct (pb_handle_seq q pb) as [_ Hseq].
  assert (Int64.add (pb_seq pb) 1 = pb_seq pb + 1) as Hadd.
  { apply Int64.wrap_id. unfold Int64.in_range, Int64.min_val, Int64.max_val in *. lia. }
  assert (timed (pb_handle q pb).2 (stamp_step st q (pb_handle q pb).1)) as Ht1.
  { destruct q as [o|id]; simpl.
    - destruct (pb_submit o pb) as [a pb'] eqn:Hs. by apply (timed_submit o pb st a pb' Hwf ltac:(lia) Hpos Ht).
    - by apply (timed_cancel id pb st ltac:(lia) Hpos Ht). }
  destruct (pb_handle q pb) as [a pb1]. simpl in *. rewrite Hadd in Hseq.
  destruct (IH pb1 _ Hwf1 Ht1) as [H1 H2]; [lia|lia|].
  destruct (pb_run qs pb1) as [l pb2]. simpl in *. split; [done|]. rewrite H2, Hseq. lia.
Qed.
