(* ===== verification/BookHeap.v ===== *)
(** * The shape of the book's heap

    [rep s L] says that the store [s] holds the ladder [L]: for each side a
    list of levels, each with its address, its price and the orders of its
    queue with their addresses. The heap part [heap_ok] is invariant under
    permutation of the levels, so each update is proved once, with the touched
    level in front. *)
From S2P Require Import Prelude Protocol Book PriorityBook.
Local Open Scope Z_scope.

Arguments fill_step : simpl never.
Arguments match_step : simpl never.
Arguments scan_step : simpl never.

(** A level as the heap holds it: its address, price and queue. *)
Record lvl := mkLvl { lp : ptr; lprice : Z; lq : list (ptr * resting) }.

Definition with_q (v : lvl) (q : list (ptr * resting)) : lvl := mkLvl (lp v) (lprice v) q.
Definition entries (V : list lvl) : list (ptr * resting) := V ≫= lq.
Definition level_of (v : lvl) : level := mkLevel (lprice v) (map fst (lq v)).

Record ladder := mkLadder { lad_bids : list lvl; lad_asks : list lvl }.
Definition lside (f : side_field) (L : ladder) : list lvl :=
  match f with Bids => lad_bids L | Asks => lad_asks L end.
Definition upd (f : side_field) (l : list lvl) (L : ladder) : ladder :=
  match f with Bids => mkLadder l (lad_asks L) | Asks => mkLadder (lad_bids L) l end.
Definition all (L : ladder) : list lvl := lad_bids L ++ lad_asks L.

Arguments upd : simpl never.
Arguments lside : simpl never.
Arguments entries : simpl never.

Lemma entries_app V W : entries (V ++ W) = entries V ++ entries W.
Proof. apply bind_app. Qed.

Lemma entries_cons v V : entries (v :: V) = lq v ++ entries V.
Proof. done. Qed.

#[export] Instance entries_proper : Proper ((≡ₚ) ==> (≡ₚ)) entries.
Proof. intros V W H. unfold entries. by rewrite H. Qed.

Lemma all_perm f L : all L ≡ₚ lside f L ++ lside (flip f) L.
Proof. destruct f; unfold all; simpl; [done|apply Permutation_app_comm]. Qed.

Lemma lside_upd f l L : lside f (upd f l L) = l.
Proof. by destruct f. Qed.

Lemma lside_upd_flip f l L : lside (flip f) (upd f l L) = lside (flip f) L.
Proof. by destruct f. Qed.

Lemma upd_upd f l l' L : upd f l (upd f l' L) = upd f l L.
Proof. by destruct f. Qed.

Lemma upd_id f L : upd f (lside f L) L = L.
Proof. by destruct f, L. Qed.

Lemma all_upd f l L : all (upd f l L) ≡ₚ l ++ lside (flip f) L.
Proof. by rewrite (all_perm f), lside_upd, lside_upd_flip. Qed.

Lemma flip_flip f : flip (flip f) = f.
Proof. by destruct f. Qed.

(** ** The heap part *)

Record heap_ok (ls : gmap ptr level) (rs : gmap ptr resting) (ix : gmap string ptr)
    (nx : ptr) (V : list lvl) : Prop := mkHeapOk {
  ok_levels : Forall (fun v => ls !! lp v = Some (level_of v)) V;
  ok_entries : Forall (fun e => rs !! e.1 = Some e.2) (entries V);
  ok_lnodup : NoDup (map lp V);
  ok_enodup : NoDup (map fst (entries V));
  ok_index : forall id p, ix !! id = Some p <-> exists r, (p, r) ∈ entries V /\ r_id r = id;
  ok_lfresh : Forall (fun v => (lp v < nx)%N) V;
  ok_efresh : Forall (fun e => (e.1 < nx)%N) (entries V)
}.

#[export] Instance heap_ok_proper ls rs ix nx : Proper ((≡ₚ) ==> iff) (heap_ok ls rs ix nx).
Proof.
  assert (forall V W, V ≡ₚ W -> heap_ok ls rs ix nx V -> heap_ok ls rs ix nx W) as Himp.
  { intros V W HP []. split.
    - by rewrite <- HP.
    - by rewrite <- HP.
    - by rewrite <- HP.
    - by rewrite <- HP.
    - intros id p. rewrite ok_index0. by setoid_rewrite HP.
    - by rewrite <- HP.
    - by rewrite <- HP. }
  intros V W HP. split; apply Himp; [done|by symmetry].
Qed.

Section heap_ok.
Context {ls : gmap ptr level} {rs : gmap ptr resting} {ix : gmap string ptr} {nx : ptr}.
Implicit Types (v : lvl) (V : list lvl) (p : ptr) (r : resting).

(** An id names at most one resting order. *)
Lemma heap_ok_ids V : heap_ok ls rs ix nx V -> NoDup (map (fun e => r_id e.2) (entries V)).
Proof.
  intros H. destruct H as [_ _ _ Hnd Hix _ _].
  assert (forall e, e ∈ entries V -> ix !! r_id e.2 = Some e.1) as Hin.
  { intros [p r] He. apply Hix. eauto. }
  clear Hix. induction (entries V) as [|[p r] E IH]; simpl; [constructor|].
  simpl in Hnd. apply NoDup_cons in Hnd as [Hp Hnd]. apply NoDup_cons. split.
  - rewrite list_elem_of_fmap. intros ([p' r'] & Hid & He). simpl in Hid.
    pose proof (Hin (p, r) ltac:(left)) as H1.
    pose proof (Hin (p', r') ltac:(by right)) as H2. simpl in *.
    rewrite Hid in H1. simplify_eq. apply Hp. rewrite list_elem_of_fmap. by exists (p, r').
  - apply IH; [done|]. intros e He. apply Hin. by right.
Qed.

(** Change the order at the head of a queue, keeping its id. *)
Lemma heap_ok_store_resting v V p r q r' :
  lq v = (p, r) :: q -> r_id r' = r_id r ->
  heap_ok ls rs ix nx (v :: V) ->
  heap_ok ls (<[p := r']> rs) ix nx (with_q v ((p, r') :: q) :: V).
Proof.
  intros Hq Hid [Hl He Hln Hen Hix Hlf Hef].
  rewrite entries_cons, Hq in *. simpl in *.
  apply Forall_cons in Hl as [Hv Hl]. apply Forall_cons in He as [Hp He].
  apply NoDup_cons in Hen as [Hpn Hen].
  split; simpl.
  - apply Forall_cons. split; [|done]. simpl. rewrite Hv. unfold level_of. by rewrite Hq.
  - apply Forall_cons. split; [by rewrite lookup_insert_eq|].
    apply Forall_forall. intros [p' r0] Hin. rewrite lookup_insert_ne.
    + by apply (proj1 (Forall_forall _ _) He _ Hin).
    + intros ->. apply Hpn. apply list_elem_of_fmap. by exists (p', r0).
  - done.
  - by apply NoDup_cons.
  - intros id p'. rewrite Hix. set_unfold.
    split; intros (r0 & [Heq|Hin] & Hr0); simplify_eq; eauto.
  - forall_cons.
  - forall_cons.
Qed.

(** Take an order out of a queue and of the index. *)
Lemma heap_ok_remove v V q1 p r q2 :
  lq v = q1 ++ (p, r) :: q2 ->
  heap_ok ls rs ix nx (v :: V) ->
  heap_ok (<[lp v := mkLevel (lprice v) (map fst (q1 ++ q2))]> ls) rs (delete (r_id r) ix) nx
    (with_q v (q1 ++ q2) :: V).
Proof.
  intros Hq H. pose proof (heap_ok_ids _ H) as Hids.
  destruct H as [Hl He Hln Hen Hix Hlf Hef].
  rewrite entries_cons, Hq in *. simpl in *.
  apply Forall_cons in Hl as [Hv Hl]. apply NoDup_cons in Hln as [Hlv Hln].
  rewrite <- app_assoc in He, Hen, Hef, Hids. simpl in *.
  rewrite <- Permutation_middle in He, Hen, Hef, Hids. simpl in *.
  apply Forall_cons in He as [Hp He]. apply Forall_cons in Hef as [Hpf Hef].
  apply NoDup_cons in Hen as [Hpn Hen]. apply NoDup_cons in Hids as [Hidn _].
  split; simpl; rewrite ?entries_cons; simpl; rewrite <- ?app_assoc.
  - apply Forall_cons. split; [by rewrite lookup_insert_eq|].
    apply Forall_forall. intros w Hw. rewrite lookup_insert_ne.
    + by apply (proj1 (Forall_forall _ _) Hl _ Hw).
    + intros Heq. apply Hlv. apply list_elem_of_fmap. by exists w.
  - done.
  - by apply NoDup_cons.
  - done.
  - intros id p'. rewrite lookup_delete_Some, Hix.
    assert (forall r0, (p', r0) ∈ (q1 ++ (p, r) :: q2) ++ entries V
              <-> (p', r0) = (p, r) \/ (p', r0) ∈ q1 ++ q2 ++ entries V) as Hin.
    { intros r0. rewrite <- app_assoc. simpl. by rewrite <- Permutation_middle, elem_of_cons. }
    setoid_rewrite Hin. split.
    + intros (Hne & r0 & [Heq|Hr] & Hr0); simplify_eq; eauto.
    + intros (r0 & Hr & Hr0). split; [|eauto].
      intros Heq. apply Hidn, list_elem_of_fmap. exists (p', r0). simpl. by rewrite Hr0.
  - forall_cons.
  - done.
Qed.

(** Drop a level whose queue is empty. *)
Lemma heap_ok_drop_level v V :
  lq v = [] -> heap_ok ls rs ix nx (v :: V) -> heap_ok ls rs ix nx V.
Proof.
  intros Hq [Hl He Hln Hen Hix Hlf Hef]. rewrite entries_cons, Hq in *. simpl in *.
  split; try done.
  - by apply Forall_cons in Hl as [??].
  - by apply NoDup_cons in Hln as [??].
  - by apply Forall_cons in Hlf as [??].
Qed.

(** Allocate a resting order; nothing refers to it yet. *)
Lemma heap_ok_alloc_resting V r :
  heap_ok ls rs ix nx V -> heap_ok ls (<[nx := r]> rs) ix (N.succ nx) V.
Proof.
  intros [Hl He Hln Hen Hix Hlf Hef]. split; try done.
  - rewrite Forall_forall in He, Hef |- *. intros e Hin.
    rewrite lookup_insert_ne; [by apply He|]. pose proof (Hef _ Hin). lia.
  - eapply Forall_impl; [done|]. simpl. lia.
  - eapply Forall_impl; [done|]. simpl. lia.
Qed.

(** A fresh order joins the index and one queue. *)
Lemma heap_ok_enqueue v V p r :
  rs !! p = Some r -> (p < nx)%N -> p ∉ map fst (entries (v :: V)) -> ix !! r_id r = None ->
  heap_ok ls rs ix nx (v :: V) ->
  heap_ok (<[lp v := mkLevel (lprice v) (map fst (lq v) ++ [p])]> ls) rs (<[r_id r := p]> ix) nx
    (with_q v (lq v ++ [(p, r)]) :: V).
Proof.
  intros Hp Hpf Hpn Hid [Hl He Hln Hen Hix Hlf Hef].
  rewrite !entries_cons in *. simpl in *.
  apply Forall_cons in Hl as [Hv Hl]. apply NoDup_cons in Hln as [Hlv Hln].
  assert ((lq v ++ [(p, r)]) ++ entries V ≡ₚ (p, r) :: lq v ++ entries V) as HP.
  { rewrite <- app_assoc. simpl. by rewrite <- Permutation_middle. }
  split; simpl; rewrite ?entries_cons; simpl.
  - apply Forall_cons. split.
    + rewrite lookup_insert_eq. unfold level_of. simpl. by rewrite map_app.
    + apply Forall_forall. intros w Hw. rewrite lookup_insert_ne.
      * by apply (proj1 (Forall_forall _ _) Hl _ Hw).
      * intros Heq. apply Hlv. apply list_elem_of_fmap. by exists w.
  - rewrite HP. by apply Forall_cons.
  - by apply NoDup_cons.
  - rewrite HP. simpl. by apply NoDup_cons.
  - intros id p'. setoid_rewrite HP. rewrite lookup_insert_Some, Hix.
    setoid_rewrite elem_of_cons. split.
    + intros [[<- <-]|(Hne & r0 & Hin & Hr0)]; eauto.
    + intros (r0 & [Heq|Hin] & Hr0); simplify_eq; [by left|]. right. split; [|eauto].
      intros Heq. rewrite Heq in Hid.
      assert (ix !! r_id r0 = Some p') as Hs by (apply Hix; eauto). congruence.
  - forall_cons.
  - rewrite HP. forall_cons.
Qed.

(** A fresh order joins the index in a level of its own. *)
Lemma heap_ok_new_level V p r price :
  rs !! p = Some r -> (p < nx)%N -> p ∉ map fst (entries V) -> ix !! r_id r = None ->
  heap_ok ls rs ix nx V ->
  heap_ok (<[nx := mkLevel price [p]]> ls) rs (<[r_id r := p]> ix) (N.succ nx)
    (mkLvl nx price [(p, r)] :: V).
Proof.
  intros Hp Hpf Hpn Hid [Hl He Hln Hen Hix Hlf Hef].
  split; rewrite ?entries_cons; simpl.
  - apply Forall_cons. split; [by rewrite lookup_insert_eq|].
    rewrite Forall_forall in Hl, Hlf |- *. intros w Hw. rewrite lookup_insert_ne; [by apply Hl|].
    pose proof (Hlf _ Hw). lia.
  - by apply Forall_cons.
  - apply NoDup_cons. split; [|done]. rewrite list_elem_of_fmap. intros (w & Heq & Hw).
    pose proof (proj1 (Forall_forall _ _) Hlf _ Hw). simpl in *. lia.
  - by apply NoDup_cons.
  - intros id p'. rewrite lookup_insert_Some, Hix.
    setoid_rewrite elem_of_cons. split.
    + intros [[<- <-]|(Hne & r0 & Hin & Hr0)]; eauto.
    + intros (r0 & [Heq|Hin] & Hr0); simplify_eq; [by left|]. right. split; [|eauto].
      intros Heq. rewrite Heq in Hid.
      assert (ix !! r_id r0 = Some p') as Hs by (apply Hix; eauto). congruence.
  - apply Forall_cons. split; [simpl; lia|]. eapply Forall_impl; [done|]. simpl. lia.
  - apply Forall_cons. split; [simpl; lia|]. eapply Forall_impl; [done|]. simpl. lia.
Qed.
End heap_ok.

(** ** Representation *)

Record rep (s : Store) (L : ladder) : Prop := mkRep {
  rep_field : forall f, field f (book s) = map lp (lside f L);
  rep_heap : heap_ok (levels s) (restings s) (byID (book s)) (next_ptr s) (all L)
}.

Lemma rep_level s L f v : rep s L -> v ∈ lside f L -> levels s !! lp v = Some (level_of v).
Proof.
  intros [_ H] Hv. rewrite (all_perm f) in H. destruct H as [H _ _ _ _ _ _].
  rewrite Forall_forall in H. apply H. set_solver.
Qed.

Lemma rep_entry s L f v e :
  rep s L -> v ∈ lside f L -> e ∈ lq v -> restings s !! e.1 = Some e.2.
Proof.
  intros [_ H] Hv He. rewrite (all_perm f) in H. destruct H as [_ H _ _ _ _ _].
  rewrite Forall_forall in H. apply H. unfold entries. apply list_elem_of_bind.
  exists v. set_solver.
Qed.

(** The orders a side holds, best level first and in queue order. *)
Definition orders (f : side_field) (L : ladder) : list resting := map snd (entries (lside f L)).

(** ** Heap accesses that succeed *)

Lemma load_level_ok p lv s : levels s !! p = Some lv -> load_level p s = Ok (lv, s).
Proof. intros H. unfold load_level, mbind, M_bind, get, orPanic. by rewrite H. Qed.

Lemma load_resting_ok p r s : restings s !! p = Some r -> load_resting p s = Ok (r, s).
Proof. intros H. unfold load_resting, mbind, M_bind, get, orPanic. by rewrite H. Qed.

Lemma get_field_ok f s : get_field f s = Ok (field f (book s), s).
Proof. done. Qed.

#[export] Hint Resolve load_level_ok load_resting_ok get_field_ok index_ok : heap.

(** Run the first computation of a sequence whose result the [heap] hints know. *)
Ltac mstep := etrans; [eapply bind_ok; solve [eauto with heap]|]; cbn beta iota.
