(* ===== verification/BookMatch.v ===== *)
(** * The matching loops of [Submit]

    The inner loop consumes the queue of the best level, the outer loop the
    willing prefix of the ladder; both always leave within the fuel the model
    gives them. *)
From S2P Require Import Prelude Protocol Book PriorityBook BookHeap.
Local Open Scope Z_scope.

Definition add_fills (a : Ack) (fs : list Fill) : Ack :=
  mkAck (a_order a) (a_seq a) (a_status a) (a_fills a ++ fs) (a_ts a).

Lemma add_fills_nil a : add_fills a [] = a.
Proof. destruct a. unfold add_fills. simpl. by rewrite app_nil_r. Qed.

Lemma add_fills_cons a f fs : add_fills (add_fill a f) fs = add_fills a (f :: fs).
Proof. unfold add_fills, add_fill. simpl. by rewrite <- app_assoc. Qed.

Lemma add_fills_app a fs gs : add_fills (add_fills a fs) gs = add_fills a (fs ++ gs).
Proof. unfold add_fills. simpl. by rewrite app_assoc. Qed.

(** ** [consume] on a queue with its addresses *)

Fixpoint consume_e (remaining : Z) (q : list (ptr * resting))
    : list Fill * Z * list (ptr * resting) :=
  match q with
  | [] => ([], remaining, [])
  | (p, r) :: q' =>
      if decide (remaining <= 0) then ([], remaining, q)
      else if decide (r_qty r <= remaining) then
        let '(fs, unfilled, q'') := consume_e (remaining - r_qty r) q' in
        (mkFill (r_price r) (r_qty r) (r_id r) :: fs, unfilled, q'')
      else ([mkFill (r_price r) remaining (r_id r)], 0,
            (p, set_qty r (r_qty r - remaining)) :: q')
  end.

Lemma consume_e_consume remaining q :
  consume remaining (map snd q) =
  let '(fs, unfilled, q') := consume_e remaining q in (fs, unfilled, map snd q').
Proof.
  revert remaining. induction q as [|[p r] q IH]; intros remaining; simpl; [done|].
  case_decide; [done|]. case_decide; [|done]. rewrite IH.
  by destruct (consume_e _ q) as [[fs u] q'].
Qed.

(** What consuming a queue leaves: nothing while the taker wants more, and
    orders as well formed as before. *)
Lemma consume_e_rest remaining q fs u q' :
  0 <= remaining -> Forall (fun e => qty_ok e.2) q ->
  consume_e remaining q = (fs, u, q') ->
  0 <= u <= remaining /\ (0 < u -> q' = []) /\ Forall (fun e => qty_ok e.2) q'.
Proof.
  revert remaining fs u. induction q as [|[p r] q IH]; simpl; intros remaining fs u Hrem Hq Heq.
  { simplify_eq. split_and!; done || lia. }
  apply Forall_cons in Hq as [Hr Hq]. unfold qty_ok in Hr. simpl in Hr.
  case_decide; [simplify_eq|case_decide].
  - split_and!; [lia|lia|lia|by constructor].
  - destruct (consume_e (remaining - r_qty r) q) as [[fs0 u0] q0] eqn:Hc. simplify_eq.
    apply IH in Hc as (Hu & Hn & Hok); [|lia|done]. split_and!; [lia|lia|done|done].
  - simplify_eq. split_and!; [lia|lia|lia|].
    constructor; [|done]. unfold qty_ok. simpl. lia.
Qed.

Lemma consume_e_Forall (P : ptr * resting -> Prop) remaining q fs u q' :
  (forall p r n, P (p, r) -> P (p, set_qty r n)) ->
  Forall P q -> consume_e remaining q = (fs, u, q') -> Forall P q'.
Proof.
  intros HP. revert remaining fs u. induction q as [|[p r] q IH]; simpl; intros remaining fs u Hq Heq.
  { by simplify_eq. }
  case_decide; [by simplify_eq|]. apply Forall_cons in Hq as [Hr Hq]. case_decide.
  - destruct (consume_e (remaining - r_qty r) q) as [[fs0 u0] q0] eqn:Hc. simplify_eq. eauto.
  - simplify_eq. constructor; auto.
Qed.

(** ** The inner loop *)

Lemma max64 n : 0 <= n <= Int64.max_val -> in64 n.
Proof. unfold Int64.in_range, Int64.min_val. lia. Qed.

Lemma fill_step_exit f v V L s remaining ack :
  rep s (upd f (v :: V) L) -> remaining <= 0 \/ lq v = [] ->
  fill_step (lp v) (remaining, ack) s = Ok (inr (remaining, ack), s).
Proof.
  intros Hrep Hend. unfold fill_step.
  pose proof (rep_level _ _ f v Hrep) as Hv. rewrite lside_upd in Hv.
  specialize (Hv ltac:(by left)). mstep. simpl.
  assert ((0 <? remaining) && negb (bool_decide (map fst (lq v) = [])) = false) as ->; [|done].
  destruct Hend as [Hend|Hend].
  - by rewrite (proj2 (Z.ltb_ge _ _)).
  - rewrite Hend. simpl. by rewrite andb_false_r.
Qed.

(** The store after [maker.qty -= q] and, when it is filled, after its removal. *)
Definition set_resting (p : ptr) (r : resting) (s : Store) : Store :=
  mkStore (book s) (<[p := r]> (restings s)) (levels s) (next_ptr s).
Definition pop_filled (v : lvl) (q : list (ptr * resting)) (id : string) (s : Store) : Store :=
  mkStore (set_byID (delete id (byID (book s))) (book s)) (restings s)
    (<[lp v := mkLevel (lprice v) (map fst q)]> (levels s)) (next_ptr s).

Lemma rep_set_resting f v V L s p r q r' :
  lq v = (p, r) :: q -> r_id r' = r_id r ->
  rep s (upd f (v :: V) L) ->
  rep (set_resting p r' s) (upd f (with_q v ((p, r') :: q) :: V) L).
Proof.
  intros Hq Hid [Hf Hh]. split; simpl.
  - intros g. rewrite Hf. by destruct f, g.
  - rewrite all_upd in Hh |- *. simpl in *. by eapply heap_ok_store_resting.
Qed.

Lemma rep_pop_filled f v V L s q1 p r q2 :
  lq v = q1 ++ (p, r) :: q2 -> rep s (upd f (v :: V) L) ->
  rep (pop_filled v (q1 ++ q2) (r_id r) s) (upd f (with_q v (q1 ++ q2) :: V) L).
Proof.
  intros Hq [Hf Hh]. split; simpl.
  - intros g. transitivity (field g (book s)); [by destruct g|]. rewrite Hf. by destruct f, g.
  - rewrite all_upd in Hh |- *. simpl in *. by eapply heap_ok_remove.
Qed.

Lemma fill_step_next f v V L s remaining ack p r q :
  rep s (upd f (v :: V) L) -> lq v = (p, r) :: q ->
  0 < remaining <= Int64.max_val -> qty_ok r ->
  let n := Z.min remaining (r_qty r) in
  let r' := set_qty r (r_qty r - n) in
  fill_step (lp v) (remaining, ack) s =
  Ok (inl (remaining - n, add_fill ack (mkFill (r_price r) n (r_id r))),
      if decide (r_qty r <= remaining)
      then pop_filled v q (r_id r) (set_resting p r' s)
      else set_resting p r' s).
Proof.
  intros Hrep Hq Hrem Hr n r'. unfold fill_step, qty_ok in *.
  assert (levels s !! lp v = Some (level_of v)) as Hv.
  { apply (rep_level _ _ f v Hrep). rewrite lside_upd. by left. }
  assert (restings s !! p = Some r) as Hp.
  { apply (rep_entry _ _ f v (p, r) Hrep); [rewrite lside_upd; by left|]. rewrite Hq. by left. }
  assert (0 <= n <= remaining /\ n <= r_qty r) as Hn by (unfold n; lia).
  mstep. unfold level_of at 1 2. simpl. rewrite Hq. simpl.
  rewrite (proj2 (Z.ltb_lt 0 remaining)) by lia. simpl.
  etrans; [by eapply bind_ok|]. cbn beta. mstep. fold n.
  rewrite !Int64.sub_small by (lia || apply max64; lia).
  etrans; [by eapply bind_ok|]. cbn beta.
  fold (set_resting p r' s).
  assert (restings (set_resting p r' s) !! p = Some r') as Hp' by apply lookup_insert_eq.
  mstep. simpl. case_decide as Hc.
  - rewrite (proj2 (Z.eqb_eq (r_qty r - n) 0)) by lia.
    assert (levels (set_resting p r' s) !! lp v = Some (level_of v)) as Hv' by done.
    mstep. rewrite (bind_ok _ _ _ (map fst q) (set_resting p r' s)); [done|].
    unfold level_of. rewrite Hq. simpl. apply slice_from_ok. simpl. lia.
  - by rewrite (proj2 (Z.eqb_neq (r_qty r - n) 0)) by lia.
Qed.

(** What the loops leave alone. *)
Definition same_seq (s s' : Store) : Prop := seq (book s') = seq (book s).

Lemma fill_loop f v V L s remaining ack k :
  rep s (upd f (v :: V) L) -> Forall (fun e => qty_ok e.2) (lq v) ->
  0 <= remaining <= Int64.max_val -> (2 + length (lq v) <= k)%nat ->
  let '(fs, u, q') := consume_e remaining (lq v) in
  exists s', loop k (fill_step (lp v)) (remaining, ack) s = Ok ((u, add_fills ack fs), s')
    /\ rep s' (upd f (with_q v q' :: V) L) /\ same_seq s s'.
Proof.
  revert v s remaining ack. induction k as [|k IH]; intros v s remaining ack Hrep Hq Hrem Hk; [lia|].
  destruct v as [vp vpr [|[p r] q]]; simpl in *.
  { exists s. rewrite add_fills_nil. split_and!; [|done|done].
    apply (loop_exit _ _ _ _ _ _ (fill_step_exit _ _ _ _ _ _ ack Hrep (or_intror eq_refl))). }
  apply Forall_cons in Hq as [Hr Hq]. simpl in Hr.
  case_decide as H0.
  { exists s. rewrite add_fills_nil. split_and!; [|done|done].
    apply (loop_exit _ _ _ _ _ _ (fill_step_exit _ _ _ _ _ _ ack Hrep (or_introl H0))). }
  assert (0 < remaining <= Int64.max_val) as Hrem' by lia.
  pose proof (fill_step_next f _ V L s remaining ack p r q Hrep eq_refl Hrem' Hr) as Hstep.
  pose proof (rep_set_resting f (mkLvl vp vpr ((p, r) :: q)) V L s p r q (set_qty r (r_qty r - Z.min remaining (r_qty r)))
    eq_refl eq_refl Hrep) as Hrep1.
  simpl in *. unfold qty_ok in Hr. case_decide as Hc.
  - pose proof (rep_pop_filled f (with_q (mkLvl vp vpr ((p, r) :: q))
      ((p, set_qty r (r_qty r - Z.min remaining (r_qty r))) :: q))
      V L _ [] _ _ _ eq_refl Hrep1) as Hrep2. simpl in Hrep2.
    rewrite Z.min_r in Hstep, Hrep2 by lia.
    specialize (IH (mkLvl vp vpr q)
      (pop_filled (mkLvl vp vpr ((p, r) :: q)) q (r_id r) (set_resting p (set_qty r (r_qty r - r_qty r)) s))
      (remaining - r_qty r)
      (add_fill ack (mkFill (r_price r) (r_qty r) (r_id r)))). simpl in IH.
    destruct (consume_e (remaining - r_qty r) q) as [[fs u] q'] eqn:Hce.
    destruct IH as (s' & Hl & Hrep' & Hseq); [done|done|lia|lia|].
    exists s'. rewrite (loop_next _ _ _ _ _ _ Hstep), <- add_fills_cons. done.
  - rewrite Z.min_l in Hstep, Hrep1 by lia.
    set (v' := with_q _ _) in Hrep1.
    exists (set_resting p (set_qty r (r_qty r - remaining)) s).
    split_and!; [|exact Hrep1|done].
    rewrite (loop_next _ _ _ _ _ _ Hstep). destruct k as [|k]; [lia|]. rewrite Z.sub_diag.
    change vp with (lp v').
    erewrite loop_exit; [|eapply fill_step_exit; [exact Hrep1|lia]].
    by rewrite <- add_fills_cons, add_fills_nil.
Qed.

(** ** The outer loop *)

Definition lvl_ok (v : lvl) : Prop :=
  lq v <> [] /\ Forall (fun e => qty_ok e.2) (lq v)
  /\ Forall (fun e => r_price e.2 = lprice v) (lq v).

Lemma past_limit_spec o p :
  past_limit o p = true <->
  o_type o = Limit /\ (o_side o = Buy /\ o_price o < p \/ o_side o = Sell /\ p < o_price o).
Proof.
  unfold past_limit.
  by rewrite andb_true_iff, orb_true_iff, !andb_true_iff, !String.eqb_eq, !Z.ltb_lt.
Qed.

Lemma past_limit_willing o p : past_limit o p = negb (bool_decide (willing o p)).
Proof.
  apply eq_true_iff_eq. rewrite past_limit_spec, negb_true_iff, bool_decide_eq_false.
  unfold willing. split.
  { intros (Ht & Hc) Hw. destruct (Hw Ht) as [Hwb Hws].
    destruct Hc as [[Hs Hp]|[Hs Hp]]; [specialize (Hwb Hs)|specialize (Hws Hs)]; lia. }
  intros Hw. destruct (decide (o_type o = Limit)) as [Ht|]; [|tauto]. split; [done|].
  destruct (decide (o_side o = Buy /\ o_price o < p)) as [|Hb]; [by left|].
  right. destruct (decide (o_side o = Sell /\ p < o_price o)) as [|Hs]; [done|].
  exfalso. apply Hw. intros _. split; intros ?; destruct (Z.lt_ge_cases (o_price o) p);
    destruct (Z.lt_ge_cases p (o_price o)); tauto || lia.
Qed.

(** Trade against the ladder, level by level. *)
Fixpoint match_e (o : Order) (remaining : Z) (V : list lvl) : list Fill * Z * list lvl :=
  match V with
  | [] => ([], remaining, [])
  | v :: V' =>
      if decide (0 < remaining /\ willing o (lprice v)) then
        let '(fs, u, q') := consume_e remaining (lq v) in
        if decide (q' = []) then
          let '(gs, u', V'') := match_e o u V' in (fs ++ gs, u', V'')
        else (fs, u, with_q v q' :: V')
      else ([], remaining, V)
  end.

Lemma match_step_exit o f L s remaining ack :
  rep s L ->
  remaining <= 0 \/ lside f L = [] \/ (exists v V, lside f L = v :: V /\ ~ willing o (lprice v)) ->
  match_step o f (remaining, ack) s = Ok (inr (remaining, ack), s).
Proof.
  intros Hrep Hend. unfold match_step. mstep.
  rewrite (rep_field _ _ Hrep). destruct (Z.ltb_spec 0 remaining); [|done]. simpl.
  destruct (lside f L) as [|v V] eqn:HV; [done|]. simpl.
  destruct Hend as [Hend|[Hend|(v' & V' & Heq & Hend)]]; [lia|done|]. simplify_eq.
  etrans; [by eapply bind_ok|]. cbn beta.
  pose proof (rep_level _ _ f v' Hrep) as Hv. rewrite HV in Hv. specialize (Hv ltac:(by left)).
  mstep. unfold level_of. simpl. by rewrite past_limit_willing, bool_decide_eq_false_2.
Qed.

Lemma rep_drop_level f v V L s :
  lq v = [] -> rep s (upd f (v :: V) L) ->
  rep (with_book (set_field f (map lp V)) s) (upd f V L).
Proof.
  intros Hq [Hf Hh]. split; simpl.
  - intros g. specialize (Hf g). destruct f, g; done.
  - assert (byID (set_field f (map lp V) (book s)) = byID (book s)) as -> by (by destruct f).
    rewrite all_upd in Hh |- *. by eapply heap_ok_drop_level.
Qed.

Lemma match_step_next o f v V L s remaining ack :
  rep s (upd f (v :: V) L) -> lvl_ok v -> willing o (lprice v) ->
  0 < remaining <= Int64.max_val ->
  let '(fs, u, q') := consume_e remaining (lq v) in
  exists s', match_step o f (remaining, ack) s = Ok (inl (u, add_fills ack fs), s')
    /\ rep s' (upd f (if decide (q' = []) then V else with_q v q' :: V) L) /\ same_seq s s'.
Proof.
  intros Hrep (_ & Hq & _) Hw Hrem.
  pose proof (fill_loop f v V L s remaining ack (2 + length (lq v)) Hrep Hq ltac:(lia) ltac:(lia))
    as Hl.
  destruct (consume_e remaining (lq v)) as [[fs u] q']. destruct Hl as (s' & Hl & Hrep' & Hseq).
  assert (levels s !! lp v = Some (level_of v)) as Hv.
  { apply (rep_level _ _ f v Hrep). rewrite lside_upd. by left. }
  assert (levels s' !! lp v = Some (level_of (with_q v q'))) as Hv'.
  { apply (rep_level _ _ f (with_q v q') Hrep'). rewrite lside_upd. by left. }
  assert (match_step o f (remaining, ack) s =
    (if decide (q' = []) then
       (ps ← get_field f; ps ← slice_from ps 1; put_field f ps;;
        mret (inl (u, add_fills ack fs))) s'
     else Ok (inl (u, add_fills ack fs), s'))) as ->.
  { unfold match_step. mstep. rewrite (rep_field _ _ Hrep), lside_upd.
    rewrite (proj2 (Z.ltb_lt 0 remaining)) by lia. simpl.
    etrans; [by eapply bind_ok|]. cbn beta. mstep.
    unfold level_of at 1. simpl. rewrite past_limit_willing, bool_decide_eq_true_2 by done. simpl.
    rewrite length_map. etrans; [by eapply bind_ok|]. cbn beta. mstep.
    unfold level_of. simpl. destruct q'; [by rewrite decide_True|by rewrite decide_False]. }
  case_decide as Hq'; [|by exists s'].
  exists (with_book (set_field f (map lp V)) s'). split_and!.
  - mstep. rewrite (rep_field _ _ Hrep'), lside_upd. simpl.
    rewrite (bind_ok _ _ _ (map lp V) s'); [done|]. apply slice_from_ok. simpl. lia.
  - eapply rep_drop_level; [|done]. done.
  - unfold same_seq. rewrite <- Hseq. by destruct f.
Qed.

Lemma match_loop_e o f V L s remaining ack k :
  rep s (upd f V L) -> Forall lvl_ok V -> 0 <= remaining <= Int64.max_val ->
  (2 + length V <= k)%nat ->
  let '(fs, u, V') := match_e o remaining V in
  exists s', loop k (match_step o f) (remaining, ack) s = Ok ((u, add_fills ack fs), s')
    /\ rep s' (upd f V' L) /\ same_seq s s'.
Proof.
  revert V s remaining ack. induction k as [|k IH]; intros V s remaining ack Hrep HV Hrem Hk; [lia|].
  assert (forall V' ack, rep s (upd f V' L) ->
    remaining <= 0 \/ V' = [] \/ (exists v V0, V' = v :: V0 /\ ~ willing o (lprice v)) ->
    exists s', loop (S k) (match_step o f) (remaining, ack) s = Ok ((remaining, add_fills ack []), s')
    /\ rep s' (upd f V' L) /\ same_seq s s') as Hexit.
  { intros V' ack' Hrep' Hend. exists s. rewrite add_fills_nil. split_and!; [|done|done].
    erewrite loop_exit; [done|]. eapply match_step_exit; [done|]. by rewrite lside_upd. }
  destruct V as [|v V]; simpl; [apply Hexit; auto|].
  case_decide as Hc; [|apply Hexit; [done|]].
  2:{ destruct (decide (remaining <= 0)); [by left|]. right; right.
      exists v, V. split; [done|]. intros ?. apply Hc. split; [lia|done]. }
  apply Forall_cons in HV as [Hv HV].
  pose proof (match_step_next o f v V L s remaining ack Hrep Hv (proj2 Hc) ltac:(lia)) as Hs.
  destruct (consume_e remaining (lq v)) as [[fs u] q'] eqn:Hce.
  destruct (consume_e_rest remaining _ _ _ _ ltac:(lia) (proj1 (proj2 Hv)) Hce) as (Hu & Hu0 & Hok).
  destruct Hs as (s1 & Hstep & Hrep1 & Hseq1). simpl in Hk.
  case_decide as Hq.
  - specialize (IH V s1 u (add_fills ack fs) Hrep1 HV ltac:(lia) ltac:(lia)).
    destruct (match_e o u V) as [[gs u'] V'']. destruct IH as (s' & Hl & Hrep' & Hseq').
    exists s'. rewrite (loop_next _ _ _ _ _ _ Hstep), Hl, add_fills_app.
    split_and!; [done|done|]. unfold same_seq in *. congruence.
  - exists s1. split_and!; [|done|done].
    rewrite (loop_next _ _ _ _ _ _ Hstep). destruct k as [|k]; [lia|].
    erewrite loop_exit; [done|]. eapply match_step_exit; [done|]. left.
    destruct (decide (u <= 0)) as [|Hn]; [done|]. exfalso. apply Hq, Hu0. lia.
Qed.
