(* ===== verification/BookRest.v ===== *)
(** * Resting and cancelling an order

    [rest] scans for the order's level and either joins its queue or inserts a
    new level; [Cancel] takes one order out of its level, and the level with
    it when that was its last order. *)
From S2P Require Import Prelude Protocol Book PriorityBook BookHeap BookMatch.
Local Open Scope Z_scope.

(** ** Well-formed ladders *)

Definition better_lvl (f : side_field) (v w : lvl) : Prop := better f (lprice v) (lprice w) = true.

#[export] Instance better_lvl_trans f : Transitive (better_lvl f).
Proof.
  intros [] [] []; unfold better_lvl, better; simpl; destruct f; rewrite !Z.ltb_lt; lia.
Qed.

Record side_ok (f : side_field) (V : list lvl) : Prop := mkSideOk {
  side_lvls : Forall lvl_ok V;
  side_sorted : StronglySorted (better_lvl f) V;
  side_sides : Forall (fun e => r_side e.2 = side_name f) (entries V)
}.

Definition ladder_ok (L : ladder) : Prop := forall f, side_ok f (lside f L).

Lemma own_side_name f : own_side (side_name f) = f.
Proof. by destruct f. Qed.

Lemma side_ok_elem f V v e :
  side_ok f V -> v ∈ V -> e ∈ lq v ->
  r_side e.2 = side_name f /\ r_price e.2 = lprice v /\ qty_ok e.2.
Proof.
  intros [Hl _ Hs] Hv He. rewrite Forall_forall in Hl. rewrite Forall_forall in Hs.
  destruct (Hl v Hv) as (_ & Hq & Hp). rewrite Forall_forall in Hq. rewrite Forall_forall in Hp.
  split_and!; [|by apply Hp|by apply Hq]. apply Hs. apply list_elem_of_bind. by exists v.
Qed.

Lemma side_ok_app f V W :
  side_ok f (V ++ W) <->
  side_ok f V /\ side_ok f W /\ forall v w, v ∈ V -> w ∈ W -> better_lvl f v w.
Proof.
  split.
  - intros [Hl Hs Ht]. apply Forall_app in Hl as [??]. rewrite entries_app in Ht.
    apply Forall_app in Ht as [??]. apply StronglySorted_app in Hs as (Hb & ? & ?).
    split_and!; [by split|by split|done].
  - intros ([Hl Hs Ht] & [Hl' Hs' Ht'] & Hb). split.
    + by apply Forall_app.
    + by apply StronglySorted_app.
    + rewrite entries_app. by apply Forall_app.
Qed.

Lemma side_ok_cons f v W :
  side_ok f (v :: W) <->
  lvl_ok v /\ Forall (fun e => r_side e.2 = side_name f) (lq v)
  /\ side_ok f W /\ forall w, w ∈ W -> better_lvl f v w.
Proof.
  split.
  - intros [Hl Hs Ht]. apply Forall_cons in Hl as [??]. rewrite entries_cons in Ht.
    apply Forall_app in Ht as [??]. apply StronglySorted_cons in Hs as [Hb ?].
    rewrite Forall_forall in Hb. by split_and!.
  - intros (Hl & Ht & [Hl' Hs' Ht'] & Hb). split.
    + by apply Forall_cons.
    + apply StronglySorted_cons. rewrite Forall_forall. done.
    + rewrite entries_cons. by apply Forall_app.
Qed.

(** Replacing a level by one of the same price keeps the order of the side. *)
Lemma side_ok_replace f V v q W :
  side_ok f (V ++ v :: W) -> lvl_ok (with_q v q) ->
  Forall (fun e => r_side e.2 = side_name f) q -> side_ok f (V ++ with_q v q :: W).
Proof.
  rewrite !side_ok_app, !side_ok_cons. intros (HV & (_ & _ & HW & Hb) & Hc) Hq Hs.
  split_and!; try done. intros x w Hx. setoid_rewrite elem_of_cons. intros [->|Hw].
  - apply (Hc x v Hx). by left.
  - apply Hc; [done|]. by right.
Qed.

Lemma side_ok_remove f V v W : side_ok f (V ++ v :: W) -> side_ok f (V ++ W).
Proof.
  rewrite !side_ok_app, side_ok_cons. intros (HV & (_ & _ & HW & _) & Hc).
  split_and!; try done. intros x w Hx Hw. apply Hc; [done|]. by right.
Qed.

(** ** The scan *)

Lemma scan_loop f r s V1 V2 k :
  field f (book s) = map lp (V1 ++ V2) ->
  (forall v, v ∈ V1 ++ V2 -> levels s !! lp v = Some (level_of v)) ->
  r_side r = side_name f ->
  Forall (fun v => better f (lprice v) (r_price r) = true) V1 ->
  (1 + length V2 <= k)%nat ->
  exists W1 W2 res, V1 ++ V2 = W1 ++ W2
  /\ Forall (fun v => better f (lprice v) (r_price r) = true) W1
  /\ loop k (scan_step f r) (length V1) s = Ok (res, s)
  /\ match res with
     | inl p => exists v W, W2 = v :: W /\ lprice v = r_price r /\ p = lp v
     | inr i => i = length W1
        /\ (W2 = [] \/ exists v W, W2 = v :: W /\ better f (r_price r) (lprice v) = true)
     end.
Proof.
  intros HV Hlv Hside. revert k V1 HV Hlv. induction V2 as [|v V2 IH]; intros k V1 HV Hlv Hb Hk;
    (destruct k as [|k]; [simpl in Hk; lia|]).
  - exists V1, [], (inr (length V1)). split_and!; [done|done| |done|by left].
    eapply loop_exit. unfold scan_step. mstep. rewrite HV.
    rewrite decide_False; [done|]. rewrite length_map, app_nil_r. lia.
  - assert (levels s !! lp v = Some (level_of v)) as Hv.
    { apply Hlv. apply elem_of_app. right. by left. }
    assert (scan_step f r (length V1) s =
      Ok (if lprice v =? r_price r then inr (inl (lp v))
          else if better f (r_price r) (lprice v) then inr (inr (length V1))
          else inl (S (length V1)), s)) as Hstep.
    {
      unfold scan_step. mstep. rewrite HV.
      rewrite decide_True by (rewrite length_map, length_app; simpl; lia).
      etrans; [eapply bind_ok, (index_ok _ _ (lp v))|].
      { rewrite map_app, lookup_app_r; rewrite length_map; [|lia]. by rewrite Nat.sub_diag. }
      cbn beta. mstep. unfold level_of. simpl. rewrite Hside.
      destruct (lprice v =? r_price r); [done|]. destruct f; simpl;
        [destruct (lprice v <? r_price r)|destruct (r_price r <? lprice v)]; done. }
    destruct (Z.eqb_spec (lprice v) (r_price r)) as [Heq|Hne].
    { exists V1, (v :: V2), (inl (lp v)). split_and!; [done|done| |eauto].
      by eapply loop_exit. }
    destruct (better f (r_price r) (lprice v)) eqn:Hbet.
    { exists V1, (v :: V2), (inr (length V1)). split_and!; [done|done| |done|eauto].
      by eapply loop_exit. }
    destruct (IH k (V1 ++ [v])) as (W1 & W2 & res & HW & HbW & Hl & Hres).
    { by rewrite <- app_assoc. }
    { rewrite <- app_assoc. done. }
    { apply Forall_app. split; [done|]. constructor; [|done].
      unfold better in *. destruct f; rewrite Z.ltb_ge in Hbet; apply Z.ltb_lt; lia. }
    { simpl in Hk. lia. }
    exists W1, W2, res. rewrite <- app_assoc in HW. split_and!; [done|done| |done].
    erewrite loop_next; [|done]. rewrite length_app in Hl. simpl in Hl.
    by rewrite Nat.add_1_r in Hl.
Qed.

(** ** [rest] *)

Lemma place_middle f r xs ys :
  Forall (fun x => better f (r_price r) (r_price x) = false) xs ->
  Forall (fun y => better f (r_price r) (r_price y) = true) ys ->
  place f r (xs ++ ys) = xs ++ r :: ys.
Proof.
  intros Hx Hy. induction Hx as [|x xs Hx Hxs IH]; simpl.
  - destruct Hy as [|y ys Hy _]; simpl; [done|]. by rewrite Hy.
  - by rewrite Hx, IH.
Qed.

Lemma shift_right_ok ps i s :
  (i <= length ps)%nat ->
  shift_right (ps ++ [nil_ptr]) i s =
  Ok (take (i + 1) (ps ++ [nil_ptr]) ++ drop i ps, s).
Proof.
  intros Hi. unfold shift_right.
  erewrite bind_ok; [|apply slice_from_ok; rewrite length_app; simpl; lia].
  erewrite bind_ok; [|apply slice_from_ok; rewrite length_app; simpl; lia].
  rewrite ret_ok. do 3 f_equal. unfold copy_into.
  rewrite (drop_ge (drop (i + 1) _)).
  2:{ rewrite !length_drop, length_app. simpl. lia. }
  rewrite app_nil_r, length_drop, length_app. simpl.
  rewrite drop_app_le by done. rewrite take_app_length'; [done|]. rewrite length_drop. lia.
Qed.

Lemma insert_at_shifted ps i p :
  (i <= length ps)%nat ->
  <[i := p]> (take (i + 1) (ps ++ [nil_ptr]) ++ drop i ps) = take i ps ++ p :: drop i ps.
Proof.
  intros Hi.
  assert (exists x, take (i + 1) (ps ++ [nil_ptr]) = take i ps ++ [x]) as [x ->].
  { destruct ((ps ++ [nil_ptr]) !! i) as [x|] eqn:Hx.
    - exists x. rewrite Nat.add_1_r, (take_S_r _ _ _ Hx). by rewrite take_app_le.
    - apply lookup_ge_None in Hx. rewrite length_app in Hx. simpl in Hx. lia. }
  rewrite <- app_assoc. simpl.
  rewrite insert_app_r_alt; rewrite length_take_le by done; [|done]. by rewrite Nat.sub_diag.
Qed.

(** The entries of levels of given prices, as orders compared to a newcomer. *)
Lemma orders_of_levels f V (P : Z -> Prop) :
  side_ok f V -> Forall (fun v => P (lprice v)) V ->
  Forall (fun r => P (r_price r)) (map snd (entries V)).
Proof.
  intros Hok HP. apply Forall_forall. intros r Hr. apply list_elem_of_fmap in Hr as (e & -> & He).
  unfold entries in He. apply list_elem_of_bind in He as (v & He & Hv).
  destruct (side_ok_elem _ _ _ _ Hok Hv He) as (_ & -> & _).
  by apply (proj1 (Forall_forall _ _) HP).
Qed.

Lemma better_antisym f p q : better f p q = true -> better f q p = false.
Proof. unfold better. destruct f; rewrite Z.ltb_lt, Z.ltb_ge; lia. Qed.

Lemma better_irrefl f p : better f p p = false.
Proof. unfold better. destruct f; apply Z.ltb_irrefl. Qed.

Definition bind_id (r : resting) (rp : ptr) (s : Store) : Store :=
  with_book (fun b => set_byID (<[r_id r := rp]> (byID b)) b) s.

(** Joining the queue of an existing level. *)
Lemma rest_join f rp r s L W1 v W :
  rep s L -> ladder_ok L -> lside f L = W1 ++ v :: W -> lprice v = r_price r ->
  restings s !! rp = Some r -> (rp < next_ptr s)%N -> rp ∉ map fst (entries (all L)) ->
  byID (book s) !! r_id r = None -> r_side r = side_name f -> qty_ok r ->
  let L' := upd f (W1 ++ with_q v (lq v ++ [(rp, r)]) :: W) L in
  exists s', (lv ← load_level (lp v); store_level (lp v) (set_queue lv (lv_queue lv ++ [rp])))
               (bind_id r rp s) = Ok ((), s')
  /\ rep s' L' /\ ladder_ok L' /\ same_seq s s'.
Proof.
  intros Hrep Hok HL Hpr Hrp Hfr Hn Hid Hsd Hqty L'.
  assert (levels s !! lp v = Some (level_of v)) as Hv.
  { apply (rep_level _ _ f v Hrep). rewrite HL. apply elem_of_app. right. by left. }
  eexists. split_and!.
  - etrans; [eapply bind_ok, load_level_ok, Hv|]. cbn beta. done.
  - split.
    + intros g. transitivity (field g (book s)); [by destruct g|]. rewrite (rep_field _ _ Hrep).
      destruct (decide (g = f)) as [->|Hg].
      * unfold L'. by rewrite lside_upd, HL, !map_app.
      * assert (g = flip f) as -> by (by destruct f, g). unfold L'. by rewrite lside_upd_flip.
    + destruct Hrep as [_ Hh]. rewrite (all_perm f), HL in Hh, Hn. unfold L'. rewrite all_upd.
      rewrite <- app_assoc in Hh, Hn |- *. simpl in Hh, Hn |- *.
      rewrite <- (Permutation_middle W1) in Hh, Hn |- *. unfold level_of. simpl.
      by apply heap_ok_enqueue.
  - intros g. destruct (decide (g = f)) as [->|Hg].
    + unfold L'. rewrite lside_upd. specialize (Hok f). rewrite HL in Hok.
      pose proof Hok as Hv0. apply side_ok_app in Hv0 as (_ & Hv0 & _).
      apply side_ok_cons in Hv0 as ((Hne & Hq & Hp) & Hs & _).
      apply (side_ok_replace _ _ _ _ _ Hok).
      * split_and!; simpl; [by destruct (lq v)| |]; apply Forall_app; split; try done;
          by constructor.
      * apply Forall_app. split; [done|]. by constructor.
    + assert (g = flip f) as -> by (by destruct f, g). unfold L'. rewrite lside_upd_flip. apply Hok.
  - done.
Qed.

(** Inserting a level of its own. *)
Lemma rest_insert f rp r s L W1 W2 :
  rep s L -> ladder_ok L -> lside f L = W1 ++ W2 ->
  (forall v, v ∈ W1 -> better f (lprice v) (r_price r) = true) ->
  (forall v, v ∈ W2 -> better f (r_price r) (lprice v) = true) ->
  restings s !! rp = Some r -> (rp < next_ptr s)%N -> rp ∉ map fst (entries (all L)) ->
  byID (book s) !! r_id r = None -> r_side r = side_name f -> qty_ok r ->
  let L' := upd f (W1 ++ mkLvl (next_ptr s) (r_price r) [(rp, r)] :: W2) L in
  exists s', (lp ← alloc_level (mkLevel (r_price r) [rp]);
      ps ← get_field f;
      put_field f (ps ++ [nil_ptr]);;
      ps ← get_field f;
      ps ← shift_right ps (length W1);
      put_field f (<[length W1 := lp]> ps)) (bind_id r rp s) = Ok ((), s')
  /\ rep s' L' /\ ladder_ok L' /\ same_seq s s'.
Proof.
  intros Hrep Hok HL Hb1 Hb2 Hrp Hfr Hn Hid Hsd Hqty L'.
  assert (forall b m l, field f (set_field f l (set_byID m b)) = l) as Hfs by (by destruct f).
  eexists. split_and!.
  - etrans; [by eapply bind_ok|]. cbn beta.
    etrans; [eapply bind_ok, get_field_ok|]. cbn beta.
    etrans; [by eapply bind_ok|]. cbn beta.
    etrans; [eapply bind_ok, get_field_ok|]. cbn beta.
    assert (field f (book (bind_id r rp s)) = map lp (W1 ++ W2)) as Hps.
    { rewrite <- HL, <- (rep_field _ _ Hrep). by destruct f. }
    simpl. rewrite Hfs. unfold bind_id in Hps. simpl in Hps. rewrite Hps.
    assert (length W1 <= length (map lp (W1 ++ W2)))%nat as Hle
      by (rewrite length_map, length_app; lia).
    etrans; [eapply bind_ok, shift_right_ok, Hle|]. cbn beta.
    rewrite insert_at_shifted by done. done.
  - split.
    + intros g. simpl. destruct (decide (g = f)) as [->|Hg].
      * unfold L'. rewrite lside_upd, !map_app, map_cons. simpl.
        rewrite <- (length_map lp W1), take_app_length, drop_app_length. by destruct f.
      * assert (g = flip f) as -> by (by destruct f, g). unfold L'. rewrite lside_upd_flip.
        rewrite <- (rep_field _ _ Hrep). by destruct f.
    + destruct Hrep as [_ Hh]. rewrite (all_perm f), HL in Hh, Hn. unfold L'. rewrite all_upd.
      rewrite <- app_assoc in Hh, Hn |- *. simpl. rewrite <- (Permutation_middle W1).
      match goal with |- heap_ok _ _ ?ix _ _ =>
        replace ix with (<[r_id r := rp]> (byID (book s))) by (by destruct f) end.
      by apply heap_ok_new_level.
  - intros g. destruct (decide (g = f)) as [->|Hg].
    + unfold L'. rewrite lside_upd. specialize (Hok f). rewrite HL in Hok.
      apply side_ok_app in Hok as (H1 & H2 & H12). apply side_ok_app. split_and!; [done| |].
      * apply side_ok_cons. split_and!; [|by constructor|done|done].
        split_and!; simpl; [done|by constructor|by constructor].
      * intros v w Hv. rewrite elem_of_cons. intros [->|Hw]; [by apply Hb1|by apply H12].
    + assert (g = flip f) as -> by (by destruct f, g). unfold L'. rewrite lside_upd_flip. apply Hok.
  - unfold same_seq. by destruct f.
Qed.

Lemma better_trans f p q r : better f p q = true -> better f q r = true -> better f p r = true.
Proof. unfold better. destruct f; rewrite !Z.ltb_lt; lia. Qed.

Lemma orders_upd f V L : orders f (upd f V L) = map snd (entries V).
Proof. unfold orders. by rewrite lside_upd. Qed.

Lemma orders_upd_flip f V L : orders (flip f) (upd f V L) = orders (flip f) L.
Proof. unfold orders. by rewrite lside_upd_flip. Qed.

(** [rest] places the order behind every order it is not better than. *)
Lemma rest_ok f rp r s L :
  rep s L -> ladder_ok L ->
  restings s !! rp = Some r -> (rp < next_ptr s)%N -> rp ∉ map fst (entries (all L)) ->
  byID (book s) !! r_id r = None -> r_side r = side_name f -> qty_ok r ->
  exists s' L', rest rp s = Ok ((), s') /\ rep s' L' /\ ladder_ok L' /\ same_seq s s'
  /\ orders f L' = place f r (orders f L) /\ orders (flip f) L' = orders (flip f) L.
Proof.
  intros Hrep Hok Hrp Hfr Hn Hid Hsd Hqty.
  assert (field f (book (bind_id r rp s)) = map lp (lside f L)) as Hfield.
  { rewrite <- (rep_field _ _ Hrep). by destruct f. }
  destruct (scan_loop f r (bind_id r rp s) [] (lside f L) (1 + length (map lp (lside f L))))
    as (W1 & W2 & res & HW & Hb1 & Hloop & Hres); [done| |done|done|by rewrite length_map|].
  { intros v Hv. by apply (rep_level _ _ f v Hrep). }
  simpl in HW. pose proof (Hok f) as Hokf. rewrite HW in Hokf.
  apply side_ok_app in Hokf as (Hok1 & Hok2 & Hok12).
  assert (rest rp s = (match res with
    | inl p => lv ← load_level p; store_level p (set_queue lv (lv_queue lv ++ [rp]))
    | inr i => lp ← alloc_level (mkLevel (r_price r) [rp]); ps ← get_field f;
        put_field f (ps ++ [nil_ptr]);; ps ← get_field f; ps ← shift_right ps i;
        put_field f (<[i := lp]> ps)
    end) (bind_id r rp s)) as ->.
  { unfold rest. etrans; [eapply bind_ok, load_resting_ok, Hrp|]. cbn beta zeta.
    etrans; [by eapply bind_ok|]. cbn beta. fold (bind_id r rp s).
    rewrite Hsd. replace (if String.eqb (side_name f) Buy then Bids else Asks) with f by (by destruct f).
    etrans; [eapply bind_ok, get_field_ok|]. cbn beta. rewrite Hfield.
    etrans; [eapply bind_ok, Hloop|]. by destruct res. }
  assert (Forall (fun x => better f (r_price r) (r_price x) = false) (map snd (entries W1))) as Ho1.
  { apply (orders_of_levels f _ (fun p => better f (r_price r) p = false) Hok1).
    eapply Forall_impl; [exact Hb1|]. simpl. intros v. apply better_antisym. }
  destruct res as [p|i].
  - destruct Hres as (v & W & -> & Hpr & ->).
    destruct (rest_join f rp r s L W1 v W Hrep Hok HW Hpr Hrp Hfr Hn Hid Hsd Hqty)
      as (s' & Hrun & Hrep' & Hok' & Hseq).
    eexists s', _. split_and!; [exact Hrun|done|done|done| |apply orders_upd_flip].
    rewrite orders_upd. unfold orders. rewrite HW, !entries_app, !entries_cons. simpl.
    rewrite !map_app. simpl.
    apply side_ok_cons in Hok2 as ((_ & _ & Hpv) & _ & HokW & HbW).
    rewrite (app_assoc _ (map snd (lq v)) (map snd (entries W))), place_middle;
      [by rewrite <- !app_assoc| |].
    + apply Forall_app. split; [done|]. rewrite Forall_map. eapply Forall_impl; [exact Hpv|].
      simpl. intros e ->. rewrite Hpr. apply better_irrefl.
    + apply (orders_of_levels f _ (fun p => better f (r_price r) p = true) HokW).
      apply Forall_forall. intros w Hw. rewrite <- Hpr. by apply HbW.
  - destruct Hres as (-> & HW2).
    assert (forall v, v ∈ W2 -> better f (r_price r) (lprice v) = true) as Hb2.
    { destruct HW2 as [->|(v & W & -> & Hv)]; [intros ?; by rewrite elem_of_nil|].
      intros w. rewrite elem_of_cons. intros [->|Hw]; [done|].
      apply side_ok_cons in Hok2 as (_ & _ & _ & Hb). eapply better_trans; [exact Hv|by apply Hb]. }
    destruct (rest_insert f rp r s L W1 W2 Hrep Hok HW
      (proj1 (Forall_forall _ _) Hb1) Hb2 Hrp Hfr Hn Hid Hsd Hqty) as (s' & Hrun & Hrep' & Hok' & Hseq).
    eexists s', _. split_and!; [exact Hrun|done|done|done| |apply orders_upd_flip].
    rewrite orders_upd. unfold orders. rewrite HW, !entries_app, !entries_cons, !map_app. simpl.
    symmetry. apply place_middle; [done|].
    apply (orders_of_levels f _ (fun p => better f (r_price r) p = true) Hok2).
    by apply Forall_forall.
Qed.

(** ** [Cancel] *)

Lemma cancel_queue_ok s v id q0 q1 p r q2 :
  levels s !! lp v = Some (level_of v) -> lq v = q0 ++ q1 ++ (p, r) :: q2 ->
  Forall (fun e => restings s !! e.1 = Some e.2) (lq v) ->
  Forall (fun e => r_id e.2 <> id) q1 -> r_id r = id ->
  cancel_queue id (lp v) (map fst (q1 ++ (p, r) :: q2)) (length q0) s =
  Ok ((), mkStore (book s) (restings s)
            (<[lp v := mkLevel (lprice v) (map fst (q0 ++ q1 ++ q2))]> (levels s)) (next_ptr s)).
Proof.
  intros Hv Hq He. revert q0 Hq. induction q1 as [|[p1 r1] q1 IH]; intros q0 Hq Hne Hid; simpl.
  - assert (restings s !! p = Some r) as Hp.
    { rewrite Hq in He. apply Forall_app in He as [_ He]. by apply Forall_cons in He as [? _]. }
    mstep. rewrite Hid, String.eqb_refl. mstep. unfold level_of. simpl. rewrite Hq. simpl.
    etrans; [eapply bind_ok, slice_to_ok; rewrite length_map, length_app; lia|]. cbn beta.
    etrans; [eapply bind_ok, slice_from_ok; rewrite length_map, length_app; simpl; lia|]. cbn beta.
    unfold store_level, modify, set_queue. simpl. rewrite !map_app. simpl.
    rewrite <- (length_map fst q0), take_app_length, Nat.add_1_r.
    by rewrite drop_app_ge, Nat.sub_succ_l, Nat.sub_diag by lia.
  - apply Forall_cons in Hne as [Hne1 Hne]. simpl in Hne1.
    assert (restings s !! p1 = Some r1) as Hp.
    { rewrite Hq in He. apply Forall_app in He as [_ He]. by apply Forall_cons in He as [? _]. }
    mstep. rewrite (proj2 (String.eqb_neq _ _) Hne1).
    specialize (IH (q0 ++ [(p1, r1)])). rewrite length_app, Nat.add_1_r in IH. simpl in IH.
    rewrite IH; [|by rewrite <- app_assoc|done|done]. by rewrite <- app_assoc.
Qed.

Definition drop_level (f : side_field) (ps : list ptr) (s : Store) : Store :=
  with_book (set_field f ps) s.

Lemma cancel_levels_ok f s W0 W1 v W2 q1 p r q2 :
  field f (book s) = map lp (W0 ++ W1 ++ v :: W2) ->
  (forall w, w ∈ W1 ++ [v] -> levels s !! lp w = Some (level_of w)) ->
  Forall (fun e => restings s !! e.1 = Some e.2) (lq v) ->
  (forall w, w ∈ W1 -> lprice w <> lprice v) ->
  lq v = q1 ++ (p, r) :: q2 -> Forall (fun e => r_id e.2 <> r_id r) q1 ->
  let s' := mkStore (book s) (restings s)
    (<[lp v := mkLevel (lprice v) (map fst (q1 ++ q2))]> (levels s)) (next_ptr s) in
  cancel_levels (r_id r) (lprice v) f (map lp (W1 ++ v :: W2)) (length W0) s =
  Ok ((), if decide (q1 ++ q2 = []) then drop_level f (map lp (W0 ++ W1 ++ W2)) s' else s').
Proof.
  intros Hf Hl He. revert W0 Hf. induction W1 as [|w W1 IH]; intros W0 Hf Hne Hq Hn s'; simpl.
  - assert (levels s !! lp v = Some (level_of v)) as Hv by (apply Hl; by left).
    mstep. unfold level_of at 1. simpl. rewrite Z.eqb_refl. simpl.
    pose proof (cancel_queue_ok s v (r_id r) [] q1 p r q2 Hv Hq He Hn eq_refl) as Hcq. simpl in Hcq.
    rewrite <- Hq in Hcq. etrans; [eapply bind_ok, Hcq|]. cbn beta. fold s'.
    etrans; [eapply bind_ok, load_level_ok, lookup_insert_eq|]. cbn beta. simpl.
    destruct (q1 ++ q2) eqn:Hqq; simpl; [|done].
    mstep. change (field f (book s')) with (field f (book s)). rewrite Hf. simpl.
    rewrite map_app. simpl.
    etrans; [eapply bind_ok, slice_to_ok; rewrite length_app, length_map; lia|]. cbn beta.
    etrans; [eapply bind_ok, slice_from_ok; rewrite length_app, length_map; simpl; lia|]. cbn beta.
    rewrite <- (length_map lp W0), take_app_length, Nat.add_1_r.
    rewrite drop_app_ge, Nat.sub_succ_l, Nat.sub_diag by lia. simpl.
    by rewrite map_app.
  - assert (levels s !! lp w = Some (level_of w)) as Hw by (apply Hl; by left).
    mstep. unfold level_of. simpl.
    rewrite (proj2 (Z.eqb_neq (lprice w) (lprice v))) by (apply Hne; by left). simpl.
    specialize (IH ltac:(intros; apply Hl; by right) (W0 ++ [w])).
    rewrite length_app, Nat.add_1_r in IH. simpl in IH.
    rewrite IH; [by rewrite <- app_assoc| | |done|done].
    + by rewrite <- app_assoc.
    + intros x Hx. apply Hne. by right.
Qed.

(** Taking an order, and its level if that becomes empty, out of the ladder. *)
Lemma rep_remove f W1 v W2 L s q1 p r q2 :
  rep s L -> lside f L = W1 ++ v :: W2 -> lq v = q1 ++ (p, r) :: q2 ->
  let s' := pop_filled v (q1 ++ q2) (r_id r) s in
  rep (if decide (q1 ++ q2 = []) then drop_level f (map lp (W1 ++ W2)) s' else s')
      (upd f (if decide (q1 ++ q2 = []) then W1 ++ W2 else W1 ++ with_q v (q1 ++ q2) :: W2) L).
Proof.
  intros [Hf Hh] HL Hq s'.
  assert (rep s' (upd f (W1 ++ with_q v (q1 ++ q2) :: W2) L)) as [Hf' Hh'].
  { split.
    - intros g. transitivity (field g (book s)); [by destruct g|]. rewrite Hf.
      destruct (decide (g = f)) as [->|Hg]; [by rewrite lside_upd, HL, !map_app|].
      assert (g = flip f) as -> by (by destruct f, g). by rewrite lside_upd_flip.
    - rewrite (all_perm f), HL in Hh. rewrite all_upd. rewrite <- app_assoc in Hh |- *. simpl in *.
      rewrite <- (Permutation_middle W1) in Hh |- *. by eapply heap_ok_remove. }
  case_decide as Hqq; [|by split]. split.
  - intros g. destruct (decide (g = f)) as [->|Hg]; [rewrite lside_upd; by destruct f|].
    assert (g = flip f) as -> by (by destruct f, g). specialize (Hf' (flip f)).
    rewrite lside_upd_flip in Hf' |- *. rewrite <- Hf'. by destruct f.
  - simpl. replace (byID (set_field f _ _)) with (byID (book s')) by (by destruct f).
    rewrite all_upd in Hh' |- *. rewrite <- app_assoc in Hh' |- *. simpl in *.
    rewrite <- (Permutation_middle W1) in Hh'. eapply heap_ok_drop_level; [|exact Hh']. done.
Qed.

Lemma ladder_ok_remove f W1 v W2 L q1 e q2 :
  ladder_ok L -> lside f L = W1 ++ v :: W2 -> lq v = q1 ++ e :: q2 ->
  ladder_ok (upd f (if decide (q1 ++ q2 = []) then W1 ++ W2 else W1 ++ with_q v (q1 ++ q2) :: W2) L).
Proof.
  intros Hok HL Hq g. destruct (decide (g = f)) as [->|Hg].
  2:{ assert (g = flip f) as -> by (by destruct f, g). rewrite lside_upd_flip. apply Hok. }
  rewrite lside_upd. specialize (Hok f). rewrite HL in Hok.
  case_decide as Hqq; [by eapply side_ok_remove|].
  pose proof Hok as Hv. apply side_ok_app in Hv as (_ & Hv & _).
  apply side_ok_cons in Hv as ((_ & Hq1 & Hq2) & Hs & _). rewrite Hq in Hq1, Hq2, Hs.
  rewrite <- Permutation_middle, Forall_cons in Hq1, Hq2, Hs.
  destruct Hq1, Hq2, Hs. by apply side_ok_replace.
Qed.
