(* ===== verification/BookRefine.v ===== *)
(** * The pointer book refines the abstract book

    [view] reads the two priority lists off the heap. On a store that
    satisfies the invariant, [Submit] and [Cancel] neither panic nor run out of
    fuel, answer what [pb_submit] and [pb_cancel] answer on the view, leave the
    view they leave, and keep the invariant. *)
From S2P Require Import Prelude Protocol Book PriorityBook BookHeap BookMatch BookRest.
Local Open Scope Z_scope.

(** ** The abstract book a store stands for *)

Definition level_orders (s : Store) (p : ptr) : list resting :=
  match levels s !! p with
  | Some lv => omap (fun q => restings s !! q) (lv_queue lv)
  | None => []
  end.

Definition view (s : Store) : PBook :=
  mkPBook (bids (book s) ≫= level_orders s) (asks (book s) ≫= level_orders s) (seq (book s)).

Definition Inv (s : Store) : Prop := exists L, rep s L /\ ladder_ok L.

Lemma level_orders_ok s L f v :
  rep s L -> v ∈ lside f L -> level_orders s (lp v) = map snd (lq v).
Proof.
  intros Hrep Hv. unfold level_orders. rewrite (rep_level _ _ f v Hrep Hv). simpl.
  pose proof (fun e => rep_entry s L f v e Hrep Hv) as He. clear Hv.
  induction (lq v) as [|[p r] q IH]; simpl; [done|].
  pose proof (He (p, r) ltac:(by left)) as Hp. simpl in Hp. rewrite Hp.
  f_equal. apply IH. intros e Hin. apply He. by right.
Qed.

Lemma view_side s L f :
  rep s L -> field f (book s) ≫= level_orders s = orders f L.
Proof.
  intros Hrep. rewrite (rep_field _ _ Hrep). unfold orders, entries.
  assert (forall v, v ∈ lside f L -> level_orders s (lp v) = map snd (lq v)) as H.
  { intros v Hv. by eapply level_orders_ok. }
  induction (lside f L) as [|v V IH]; simpl; [done|].
  rewrite map_app, (H v) by (by left). f_equal. apply IH. intros w Hw. apply H. by right.
Qed.

Lemma view_rep s L :
  rep s L -> view s = mkPBook (orders Bids L) (orders Asks L) (seq (book s)).
Proof. intros H. unfold view. by rewrite <- !(view_side _ _ _ H). Qed.

Lemma pb_side_view s L f : rep s L -> pb_side f (view s) = orders f L.
Proof. intros H. rewrite (view_rep _ _ H). by destruct f. Qed.

Lemma pb_orders_view s L : rep s L -> pb_orders (view s) ≡ₚ map snd (entries (all L)).
Proof.
  intros H. rewrite (view_rep _ _ H). unfold pb_orders, orders, all. simpl.
  by rewrite entries_app, map_app.
Qed.

Lemma index_view s L id :
  rep s L -> is_Some (byID (book s) !! id) <-> id ∈ map r_id (pb_orders (view s)).
Proof.
  intros H. rewrite (pb_orders_view _ _ H). destruct H as [_ [_ _ _ _ Hix _ _]].
  rewrite list_elem_of_fmap. split.
  - intros [p Hp]. apply Hix in Hp as (r & Hin & <-). exists r. split; [done|].
    apply list_elem_of_fmap. by exists (p, r).
  - intros (r & -> & Hr). apply list_elem_of_fmap in Hr as ([p r'] & -> & Hin). exists p.
    apply Hix. eauto.
Qed.

(** ** Trading against the flat list *)

Definition take_from (o : Order) (remaining : Z) (rs : list resting)
    : list Fill * Z * list resting :=
  let '(xs, ys) := span (fun r => willing o (r_price r)) rs in
  let '(fs, u, xs') := consume remaining xs in (fs, u, xs' ++ ys).

Lemma consume_nonpos remaining rs : remaining <= 0 -> consume remaining rs = ([], remaining, rs).
Proof. intros H. destruct rs; simpl; [done|]. by rewrite decide_True. Qed.

Lemma consume_app remaining xs ys :
  consume remaining (xs ++ ys) =
  let '(fs, u, xs') := consume remaining xs in
  if decide (xs' = []) then
    let '(gs, u', ys') := consume u ys in (fs ++ gs, u', ys')
  else (fs, u, xs' ++ ys).
Proof.
  revert remaining. induction xs as [|x xs IH]; intros remaining; simpl.
  { by destruct (consume remaining ys) as [[??]?]. }
  case_decide; [by rewrite decide_False|]. case_decide; [|by rewrite decide_False].
  rewrite IH. destruct (consume (remaining - r_qty x) xs) as [[fs u] xs'].
  case_decide; [|done]. by destruct (consume u ys) as [[??]?].
Qed.

Section span.
Context {A : Type} (P : A -> Prop) `{!forall x, Decision (P x)}.

Lemma span_concat l : (span P l).1 ++ (span P l).2 = l.
Proof.
  induction l as [|x l IH]; simpl; [done|]. case_decide; [|done].
  destruct (span P l). simpl in *. by rewrite IH.
Qed.

Lemma span_app_all xs ys :
  Forall P xs -> span P (xs ++ ys) = let '(a, b) := span P ys in (xs ++ a, b).
Proof.
  induction 1 as [|x xs Hx Hxs IH]; simpl; [by destruct (span P ys)|].
  rewrite decide_True by done. rewrite IH. by destruct (span P ys).
Qed.

Lemma span_Forall l : Forall P (span P l).1.
Proof.
  induction l as [|x l IH]; simpl; [done|]. case_decide; [|done].
  destruct (span P l). simpl in *. by constructor.
Qed.

Lemma span_head l y ys : (span P l).2 = y :: ys -> ~ P y.
Proof.
  induction l as [|x l IH]; simpl; [done|]. case_decide; [|by intros; simplify_eq/=].
  destruct (span P l). simpl in *. done.
Qed.
End span.

Lemma take_from_e o remaining V :
  Forall lvl_ok V ->
  take_from o remaining (map snd (entries V)) =
  let '(fs, u, V') := match_e o remaining V in (fs, u, map snd (entries V')).
Proof.
  intros HV. revert remaining. induction HV as [|v V Hv HV IH]; intros remaining; simpl; [done|].
  destruct Hv as (Hne & _ & Hp). rewrite entries_cons, map_app.
  case_decide as Hc.
  - destruct Hc as [Hrem Hw]. unfold take_from in *. rewrite span_app_all.
    2:{ rewrite Forall_map. eapply Forall_impl; [exact Hp|]. simpl. by intros e ->. }
    pose proof (span_concat (fun r => willing o (r_price r)) (map snd (entries V))) as Hcat.
    destruct (span _ _) as [a b]. simpl in Hcat. rewrite consume_app, consume_e_consume.
    destruct (consume_e remaining (lq v)) as [[fs u] q'].
    destruct q' as [|e q']; simpl.
    + specialize (IH u). destruct (consume u a) as [[gs u'] a'].
      destruct (match_e o u V) as [[gs' u''] V'']. by injection IH as -> -> ->.
    + by rewrite <- app_assoc, Hcat, map_app.
  - unfold take_from. destruct (decide (0 < remaining)) as [Hrem|Hrem].
    + destruct (lq v) as [|[p r] q] eqn:Hq; [done|]. simpl.
      apply Forall_cons in Hp as [Hpr _]. simpl in Hpr.
      rewrite decide_False; [|rewrite Hpr; tauto]. simpl. by rewrite entries_cons, Hq, map_app.
    + pose proof (span_concat (fun r => willing o (r_price r))
        (map snd (lq v) ++ map snd (entries V))) as Hcat.
      destruct (span _ _) as [a b]. simpl in Hcat.
      rewrite consume_nonpos by lia. by rewrite Hcat, entries_cons, map_app.
Qed.

Lemma match_e_Forall (P : ptr * resting -> Prop) o remaining V fs u V' :
  (forall p r n, P (p, r) -> P (p, set_qty r n)) ->
  Forall P (entries V) -> match_e o remaining V = (fs, u, V') -> Forall P (entries V').
Proof.
  intros HP. revert remaining fs u V'. induction V as [|v V IH]; simpl; intros remaining fs u V' HV Heq.
  { by simplify_eq. }
  case_decide; [|by simplify_eq]. rewrite entries_cons in HV. apply Forall_app in HV as [Hv HV].
  destruct (consume_e remaining (lq v)) as [[fs0 u0] q'] eqn:Hc.
  pose proof (consume_e_Forall P _ _ _ _ _ HP Hv Hc) as Hq'. case_decide.
  - destruct (match_e o u0 V) as [[gs u'] V''] eqn:Hm. simplify_eq. eauto.
  - simplify_eq. rewrite entries_cons. by apply Forall_app.
Qed.

Lemma match_e_ok f o remaining V fs u V' :
  side_ok f V -> 0 <= remaining -> match_e o remaining V = (fs, u, V') ->
  side_ok f V' /\ 0 <= u <= remaining.
Proof.
  revert remaining fs u V'. induction V as [|v V IH]; simpl; intros remaining fs u V' HV Hrem Heq.
  { simplify_eq. split; [done|lia]. }
  case_decide; [|simplify_eq; split; [done|lia]].
  pose proof (proj1 (side_ok_cons _ _ _) HV) as ((Hne & Hq & Hp) & Hs & HV' & _).
  destruct (consume_e remaining (lq v)) as [[fs0 u0] q'] eqn:Hc.
  destruct (consume_e_rest remaining _ _ _ _ Hrem Hq Hc) as (Hu & _ & Hq'). case_decide.
  - destruct (match_e o u0 V) as [[gs u'] V''] eqn:Hm. simplify_eq.
    apply IH in Hm; [|done|lia]. split; [tauto|lia].
  - simplify_eq. split; [|lia]. apply (side_ok_replace f [] v q' V HV).
    + split_and!; simpl; [done|done|].
      by apply (consume_e_Forall (fun e => r_price e.2 = lprice v) _ _ _ _ _ (fun _ _ _ H => H) Hp Hc).
    + by apply (consume_e_Forall (fun e => r_side e.2 = side_name f) _ _ _ _ _ (fun _ _ _ H => H) Hs Hc).
Qed.

(** ** The sequence counter *)

Definition tick (s : Store) : Store :=
  with_book (fun b => mkBook (bids b) (asks b) (byID b) (Int64.add (seq b) 1)) s.

Lemma next_ok s : next s = Ok (Int64.add (seq (book s)) 1, tick s).
Proof. done. Qed.

Lemma rep_tick s L : rep s L -> rep (tick s) L.
Proof. intros [Hf Hh]. split; [|done]. intros f. rewrite <- Hf. by destruct f. Qed.

Lemma view_tick s : view (tick s) = pb_tick (view s).
Proof. done. Qed.

Lemma view_eq s L pb :
  rep s L -> (forall f, orders f L = pb_side f pb) -> seq (book s) = pb_seq pb -> view s = pb.
Proof.
  intros Hrep Ho Hs. rewrite (view_rep _ _ Hrep), !Ho, Hs. by destruct pb.
Qed.

Lemma pb_side_set f rs pb : pb_side f (pb_set f rs pb) = rs.
Proof. by destruct f. Qed.

Lemma pb_side_set_flip f rs pb : pb_side (flip f) (pb_set f rs pb) = pb_side (flip f) pb.
Proof. by destruct f. Qed.

Lemma pb_seq_set f rs pb : pb_seq (pb_set f rs pb) = pb_seq pb.
Proof. by destruct f. Qed.

Lemma side_cases (P : side_field -> Prop) f : P f -> P (flip f) -> forall g, P g.
Proof. by destruct f; intros ?? []. Qed.

(** ** [New] *)

Lemma Inv_New : Inv New.
Proof.
  exists (mkLadder [] []). split.
  - split; [by intros []|]. split; try by constructor. intros id p. simpl.
    rewrite lookup_empty. split; [done|]. intros (r & Hin & _). unfold entries in Hin. simpl in Hin.
    by apply elem_of_nil in Hin.
  - intros []; split; constructor.
Qed.

Lemma view_New : view New = mkPBook [] [] 0.
Proof. done. Qed.

(** ** [Submit] *)

Lemma invalid_valid o : invalid o = negb (bool_decide (valid o)).
Proof.
  apply eq_true_iff_eq. rewrite negb_true_iff, bool_decide_eq_false. unfold invalid, valid.
  rewrite !orb_true_iff, !andb_true_iff, !negb_true_iff, !String.eqb_neq, String.eqb_eq, !Z.leb_le.
  assert (Limit <> Market) by done.
  destruct (decide (o_side o = Buy)), (decide (o_side o = Sell)),
    (decide (o_type o = Limit)), (decide (o_type o = Market)),
    (Z.le_gt_cases (o_qty o) 0), (Z.le_gt_cases (o_price o) 0); intuition (congruence || lia).
Qed.

(** The matching phase of an accepted order. *)
Lemma match_phase o opp s L ack :
  rep s L -> ladder_ok L -> valid o -> in64 (o_qty o) ->
  let '(fs, u, rs) := take_orders o (orders opp L) in
  exists s' L', match_loop o opp (o_qty o, ack) s = Ok ((u, add_fills ack fs), s')
  /\ rep s' L' /\ ladder_ok L' /\ same_seq s s'
  /\ orders opp L' = rs /\ orders (flip opp) L' = orders (flip opp) L
  /\ 0 <= u <= o_qty o
  /\ (forall id, byID (book s) !! id = None -> byID (book s') !! id = None).
Proof.
  intros Hrep Hok (Hq & _) Hin.
  assert (0 <= o_qty o <= Int64.max_val) as Hqr by (unfold Int64.in_range in Hin; lia).
  pose proof (match_loop_e o opp (lside opp L) L s (o_qty o) ack (2 + length (lside opp L))) as Hl.
  rewrite upd_id in Hl.
  specialize (Hl Hrep (side_lvls _ _ (Hok opp)) Hqr (Nat.le_refl _)).
  pose proof (take_from_e o (o_qty o) (lside opp L) (side_lvls _ _ (Hok opp))) as Ht.
  unfold take_orders. fold (take_from o (o_qty o) (orders opp L)). unfold orders at 1. rewrite Ht.
  destruct (match_e o (o_qty o) (lside opp L)) as [[fs u] V'] eqn:Hm.
  destruct Hl as (s' & Hrun & Hrep' & Hseq). exists s', (upd opp V' L).
  destruct (match_e_ok opp _ _ _ _ _ _ (Hok opp) (proj1 Hqr) Hm) as [HV' Hu].
  split_and!; try done; try lia.
  - unfold match_loop. mstep. by rewrite (rep_field _ _ Hrep), length_map.
  - intros g. revert g. apply (side_cases _ opp);
      [by rewrite lside_upd|rewrite lside_upd_flip; apply Hok].
  - by rewrite orders_upd.
  - by rewrite orders_upd_flip.
  - intros id Hid. destruct (byID (book s') !! id) as [p|] eqn:Hp; [|done]. exfalso.
    destruct Hrep' as [_ [_ _ _ _ Hix' _ _]]. destruct Hrep as [_ [_ _ _ _ Hix _ _]].
    apply Hix' in Hp as (r & Hr & <-).
    set (P := fun e : ptr * resting => byID (book s) !! r_id e.2 <> None).
    assert (Forall P (entries (all L))) as HP.
    { apply Forall_forall. intros [p' r'] He Hn. simpl in Hn.
      assert (byID (book s) !! r_id r' = Some p') by (apply Hix; eauto). congruence. }
    rewrite (all_perm opp), entries_app in HP. apply Forall_app in HP as [HP1 HP2].
    assert (Forall P (entries (all (upd opp V' L)))) as Hall.
    { rewrite all_upd, entries_app. apply Forall_app. split; [|done].
      by apply (match_e_Forall P _ _ _ _ _ _ (fun _ _ _ H => H) HP1 Hm). }
    rewrite Forall_forall in Hall. by apply (Hall (p, r) Hr).
Qed.

(** What [Submit] does after matching. *)
Definition settle (o : Order) (u : Z) (ack : Ack) : M Store Ack :=
  if u =? 0 then mret (set_status ack StatusFilled)
  else if String.eqb (o_type o) Market then
    mret (set_status ack (if u <? o_qty o then StatusPartial else StatusCanceled))
  else
    rp ← alloc_resting (mkResting (o_id o) (o_side o) (o_price o) u);
    rest rp;;
    mret (set_status ack (if u <? o_qty o then StatusPartial else StatusResting)).

Lemma own_side_valid o : valid o -> o_side o = side_name (own_side (o_side o)).
Proof. intros (_ & [->| ->] & _); done. Qed.

Lemma opp_side o : valid o ->
  (if String.eqb (o_side o) Sell then Bids else Asks) = flip (own_side (o_side o)).
Proof. intros (_ & [->| ->] & _); done. Qed.

Lemma settle_ok o u ack s L :
  rep s L -> ladder_ok L -> valid o -> in64 (o_qty o) -> 0 <= u <= o_qty o ->
  byID (book s) !! o_id o = None ->
  let mine := own_side (o_side o) in
  exists s' L', settle o u ack s = Ok (set_status ack (outcome o u), s')
  /\ rep s' L' /\ ladder_ok L' /\ same_seq s s'
  /\ orders (flip mine) L' = orders (flip mine) L
  /\ orders mine L' =
     if decide (u = 0 \/ o_type o = Market) then orders mine L
     else place mine (mkResting (o_id o) (o_side o) (o_price o) u) (orders mine L).
Proof.
  intros Hrep Hok Hv Hin Hu Hid mine. unfold settle, outcome.
  destruct (Z.eqb_spec u 0) as [->|Hu0].
  { exists s, L. rewrite (decide_True (P := 0 = 0 \/ _)) by auto. done. }
  destruct (String.eqb_spec (o_type o) Market) as [Hm|Hm].
  { exists s, L. rewrite (decide_False (P := u = 0)) by done.
    rewrite (decide_True (P := u = 0 \/ _)) by auto. rewrite (decide_True (P := o_type o = Market)) by done.
    destruct (Z.ltb_spec u (o_qty o)); [by rewrite decide_True|by rewrite decide_False by lia]. }
  set (r := mkResting (o_id o) (o_side o) (o_price o) u).
  set (s1 := mkStore (book s) (<[next_ptr s := r]> (restings s)) (levels s) (N.succ (next_ptr s))).
  destruct (rest_ok mine (next_ptr s) r s1 L) as (s' & L' & Hrun & Hrep' & Hok' & Hseq & Ho & Hof);
    try done.
  - destruct Hrep as [Hf Hh]. split; [done|]. by apply heap_ok_alloc_resting.
  - apply lookup_insert_eq.
  - simpl. lia.
  - destruct Hrep as [_ [_ _ _ _ _ _ Hfr]]. rewrite list_elem_of_fmap. intros (e & He & Hin').
    pose proof (proj1 (Forall_forall _ _) Hfr _ Hin'). simpl in *. lia.
  - by apply own_side_valid.
  - unfold qty_ok. simpl. unfold Int64.in_range in Hin. lia.
  - exists s', L'. split_and!; try done.
    + etrans; [by eapply bind_ok|]. cbn beta. fold r s1. etrans; [eapply bind_ok, Hrun|]. cbn beta.
      rewrite (decide_False (P := u = 0)) by done.
      rewrite (decide_False (P := o_type o = Market)) by done.
      destruct (Z.ltb_spec u (o_qty o)); [by rewrite decide_True|by rewrite decide_False by lia].
    + rewrite (decide_False (P := u = 0 \/ _)) by tauto. done.
Qed.

Lemma submit_refines o s :
  Inv s -> in64 (o_qty o) ->
  exists s', Submit o s = Ok ((pb_submit o (view s)).1, s')
  /\ view s' = (pb_submit o (view s)).2 /\ Inv s'.
Proof.
  intros (L & Hrep & Hok) Hin. unfold Submit, pb_submit.
  apply rep_tick in Hrep. rewrite <- view_tick.
  change (pb_seq (view (tick s))) with (Int64.add (seq (book s)) 1).
  set (n := Int64.add (seq (book s)) 1).
  assert (forall m (a : Ack), m = Ok (a, tick s) ->
    exists s', m = Ok (a, s') /\ view s' = view (tick s) /\ Inv s') as Hrej.
  { intros m a ->. exists (tick s). split_and!; [done|done|by exists L]. }
  destruct (decide (valid o)) as [Hv|Hv].
  2:{ rewrite (decide_False (P := _ /\ _)) by tauto. apply Hrej.
      etrans; [eapply bind_ok, next_ok|]. cbn beta. by rewrite invalid_valid, bool_decide_eq_false_2. }
  pose proof (index_view _ _ (o_id o) Hrep) as Hix.
  destruct (decide (is_Some (byID (book (tick s)) !! o_id o))) as [Hd|Hd].
  { rewrite (decide_False (P := _ /\ _)) by tauto. apply Hrej.
    etrans; [eapply bind_ok, next_ok|]. cbn beta. rewrite invalid_valid, bool_decide_eq_true_2 by done.
    simpl. etrans; [by eapply bind_ok|]. cbn beta. by rewrite bool_decide_eq_true_2. }
  rewrite decide_True by tauto. set (mine := own_side (o_side o)).
  pose proof (match_phase o (flip mine) (tick s) L (mkAck (o_id o) n "" [] 0) Hrep Hok Hv Hin) as Hmp.
  rewrite (pb_side_view _ _ (flip mine) Hrep).
  destruct (take_orders o (orders (flip mine) L)) as [[fs u] rs].
  destruct Hmp as (s1 & L1 & Hrun & Hrep1 & Hok1 & Hseq1 & Ho1 & Ho1' & Hu & Hid1).
  destruct (settle_ok o u (add_fills (mkAck (o_id o) n "" [] 0) fs) s1 L1) as
    (s2 & L2 & Hrun2 & Hrep2 & Hok2 & Hseq2 & Ho2 & Ho2'); try done.
  { apply Hid1. by apply eq_None_not_Some. }
  fold mine in Ho2, Ho2'. rewrite flip_flip in Ho1'. rewrite Ho1' in Ho2'. rewrite Ho1 in Ho2.
  exists s2. split_and!; [| |by exists L2].
  - etrans; [eapply bind_ok, next_ok|]. cbn beta. rewrite invalid_valid, bool_decide_eq_true_2 by done.
    simpl. etrans; [by eapply bind_ok|]. cbn beta. rewrite bool_decide_eq_false_2 by done.
    rewrite opp_side by done. fold mine. etrans; [eapply bind_ok, Hrun|]. cbn beta iota.
    fold (settle o u (add_fills (mkAck (o_id o) n "" [] 0) fs)).
    etrans; [exact Hrun2|]. simpl. unfold set_status, add_fills. simpl.
    case_decide; rewrite ?pb_seq_set; done.
  - eapply view_eq; [done| |].
    + rewrite (view_rep _ _ Hrep). clearbody mine. intros g.
      case_decide; destruct mine, g; simpl in *; congruence.
    + unfold same_seq in *. rewrite Hseq2, Hseq1. simpl. case_decide; by rewrite ?pb_seq_set.
Qed.

(** ** [Cancel] *)

Lemma filter_absent id rs : id ∉ map r_id rs -> filter (fun r => r_id r <> id) rs = rs.
Proof.
  induction rs as [|r rs IH]; intros Hid; [done|]. simpl in Hid. apply not_elem_of_cons in Hid as [? ?].
  rewrite filter_cons_True by done. by rewrite IH.
Qed.

Lemma filter_remove xs r ys :
  NoDup (map r_id (xs ++ r :: ys)) ->
  filter (fun x => r_id x <> r_id r) (xs ++ r :: ys) = xs ++ ys.
Proof.
  rewrite map_app, NoDup_app. simpl. rewrite NoDup_cons. intros (_ & Hx & Hr & _).
  rewrite filter_app, filter_cons_False by tauto. rewrite !filter_absent; [done|done|].
  intros Hin. apply (Hx _ Hin). by left.
Qed.

Lemma view_ids_NoDup s L : rep s L -> NoDup (map r_id (pb_orders (view s))).
Proof.
  intros Hrep. rewrite (pb_orders_view _ _ Hrep). destruct Hrep as [_ Hh].
  apply heap_ok_ids in Hh. by rewrite map_map.
Qed.

(** Where a live id is found. *)
Lemma locate s L id p :
  rep s L -> byID (book s) !! id = Some p ->
  exists f W1 v W2 q1 r q2, lside f L = W1 ++ v :: W2 /\ lq v = q1 ++ (p, r) :: q2 /\ r_id r = id.
Proof.
  intros [_ [_ _ _ _ Hix _ _]] Hp. apply Hix in Hp as (r & Hin & Hid).
  assert (exists f, (p, r) ∈ entries (lside f L)) as [f Hf].
  { unfold all in Hin. rewrite entries_app, elem_of_app in Hin.
    destruct Hin as [Hin|Hin]; [by exists Bids|by exists Asks]. }
  apply list_elem_of_bind in Hf as (v & Hv & HV). apply list_elem_of_split in HV as (W1 & W2 & HW).
  apply list_elem_of_split in Hv as (q1 & q2 & Hq). by exists f, W1, v, W2, q1, r, q2.
Qed.

Lemma cancel_found s L f W1 v W2 q1 p r q2 :
  rep s L -> ladder_ok L -> lside f L = W1 ++ v :: W2 -> lq v = q1 ++ (p, r) :: q2 ->
  exists s', (forall (k : M Store Ack),
      (byID_delete (r_id r);; r0 ← load_resting p;
       ps ← get_field (if String.eqb (r_side r0) Buy then Bids else Asks);
       cancel_levels (r_id r) (r_price r0) (if String.eqb (r_side r0) Buy then Bids else Asks) ps 0;;
       k) s = k s')
  /\ rep s' (upd f (if decide (q1 ++ q2 = []) then W1 ++ W2 else W1 ++ with_q v (q1 ++ q2) :: W2) L)
  /\ same_seq s s'.
Proof.
  intros Hrep Hok HL Hq.
  assert (v ∈ lside f L) as Hv by (rewrite HL; apply elem_of_app; right; by left).
  assert ((p, r) ∈ lq v) as Hpr by (rewrite Hq; apply elem_of_app; right; by left).
  destruct (side_ok_elem _ _ _ _ (Hok f) Hv Hpr) as (Hsd & Hprice & _). simpl in Hsd, Hprice.
  pose proof (rep_entry _ _ _ _ _ Hrep Hv Hpr) as Hrp. simpl in Hrp.
  set (s1 := with_book (fun b => set_byID (delete (r_id r) (byID b)) b) s).
  pose proof (cancel_levels_ok f s1 [] W1 v W2 q1 p r q2) as Hc. simpl in Hc.
  eexists. split_and!; [|by apply (rep_remove f W1 v W2 L s q1 p r q2 Hrep HL Hq)|].
  2:{ unfold same_seq. case_decide; by destruct f. }
  intros k. etrans; [by eapply bind_ok|]. cbn beta. fold s1.
  etrans; [eapply bind_ok, load_resting_ok, Hrp|]. cbn beta. rewrite Hsd. replace (if String.eqb (side_name f) Buy then Bids else Asks) with f by (by destruct f).
  assert (field f (book s1) = map lp (W1 ++ v :: W2)) as Hf.
  { rewrite <- HL, <- (rep_field _ _ Hrep). by destruct f. }
  etrans; [eapply bind_ok, get_field_ok|]. cbn beta. rewrite Hf, Hprice.
  specialize (Hok f). rewrite HL in Hok. apply side_ok_app in Hok as (_ & _ & Hb).
  etrans; [eapply bind_ok, Hc|]; try done.
  - intros w Hw. apply (rep_level _ _ f w Hrep). rewrite HL. rewrite elem_of_app in Hw |- *.
    rewrite list_elem_of_singleton in Hw. rewrite elem_of_cons. tauto.
  - apply Forall_forall. intros e He. by apply (rep_entry _ _ f v e Hrep).
  - intros w Hw Heq. specialize (Hb w v Hw ltac:(by left)). unfold better_lvl in Hb.
    rewrite Heq, better_irrefl in Hb. done.
  - destruct Hrep as [_ Hh]. apply heap_ok_ids in Hh. rewrite (all_perm f), HL in Hh.
    rewrite entries_app, entries_app, entries_cons, Hq, !map_app in Hh. simpl in Hh.
    apply NoDup_app in Hh as (Hh & _ & _). apply NoDup_app in Hh as (_ & _ & Hh).
    apply NoDup_app in Hh as (Hh & _ & _).
    apply NoDup_app in Hh as (_ & Hh & _). apply Forall_forall. intros e He Heq.
    apply (Hh (r_id e.2)); [apply list_elem_of_fmap; by exists e|]. rewrite Heq. simpl. by left.
Qed.

Lemma cancel_refines id s :
  Inv s ->
  exists s', Cancel id s = Ok ((pb_cancel id (view s)).1, s')
  /\ view s' = (pb_cancel id (view s)).2 /\ Inv s'.
Proof.
  intros (L & Hrep & Hok). unfold Cancel, pb_cancel.
  apply rep_tick in Hrep. rewrite <- view_tick.
  change (pb_seq (view (tick s))) with (Int64.add (seq (book s)) 1).
  set (n := Int64.add (seq (book s)) 1).
  pose proof (index_view _ _ id Hrep) as Hix.
  pose proof (view_ids_NoDup _ _ Hrep) as Hnd.
  destruct (byID (book (tick s)) !! id) as [p|] eqn:Hp.
  2:{ rewrite decide_False. 2:{ rewrite <- Hix. by intros []. }
      exists (tick s). split_and!; [|done|by exists L].
      etrans; [eapply bind_ok, next_ok|]. cbn beta. etrans; [by eapply bind_ok|]. cbn beta.
      by rewrite Hp. }
  rewrite decide_True by (apply Hix; eauto).
  destruct (locate _ _ _ _ Hrep Hp) as (f & W1 & v & W2 & q1 & r & q2 & HL & Hq & <-).
  destruct (cancel_found _ _ f W1 v W2 q1 p r q2 Hrep Hok HL Hq) as (s' & Hrun & Hrep' & Hseq).
  assert (exists xs ys, orders f L = xs ++ r :: ys /\
    map snd (entries (if decide (q1 ++ q2 = []) then W1 ++ W2 else W1 ++ with_q v (q1 ++ q2) :: W2))
    = xs ++ ys) as (xs & ys & Ho & Ho').
  { exists (map snd (entries W1) ++ map snd q1), (map snd q2 ++ map snd (entries W2)). split.
    - unfold orders. rewrite HL, entries_app, entries_cons, Hq, !map_app. simpl.
      by rewrite <- !app_assoc.
    - case_decide as Hqq.
      + apply app_eq_nil in Hqq as [-> ->]. rewrite entries_app, map_app. simpl. by rewrite app_nil_r.
      + rewrite entries_app, entries_cons. simpl. by rewrite !map_app, <- !app_assoc. }
  set (L' := upd f _ L) in Hrep'.
  exists s'. split_and!.
  - etrans; [eapply bind_ok, next_ok|]. cbn beta. etrans; [by eapply bind_ok|]. cbn beta.
    rewrite Hp. etrans; [apply Hrun|]. done.
  - rewrite (view_rep _ _ Hrep) in Hnd |- *. unfold pb_orders in Hnd. simpl in *.
    assert (NoDup (map r_id (orders f L)) /\ r_id r ∉ map r_id (orders (flip f) L)) as [Hn1 Hn2].
    { rewrite map_app in Hnd. apply NoDup_app in Hnd as (Hn1 & Hn12 & Hn2).
      assert (r_id r ∈ map r_id (orders f L)) as Hin.
      { rewrite Ho. apply list_elem_of_fmap. exists r. split; [done|].
        apply elem_of_app. right. by left. }
      destruct f; simpl; (split; [done|]); [by apply Hn12|]. intros Hin'. by apply (Hn12 (r_id r)). }
    rewrite Ho in Hn1. pose proof (filter_remove _ _ _ Hn1) as Hf1. rewrite <- Ho, <- Ho' in Hf1.
    pose proof (filter_absent _ _ Hn2) as Hf2.
    eapply view_eq; [exact Hrep'| |exact Hseq].
    apply (side_cases _ f).
    + unfold L'. rewrite orders_upd, <- Hf1. by destruct f.
    + unfold L'. rewrite orders_upd_flip. rewrite <- Hf2 at 1. by destruct f.
  - exists L'. split; [done|]. by eapply ladder_ok_remove.
Qed.
