(* ===== verification/BookProps.v ===== *)
(** * The matching book: theorems

    The properties of [Submit] and [Cancel] on every store a sequence of
    requests can reach from [New]. *)
From S2P Require Import Prelude Protocol Book PriorityBook PriorityFacts PriorityTime.
From S2P Require Import BookHeap BookMatch BookRest BookRefine.
Local Open Scope Z_scope.

(** ** Runs of the book *)

Definition handle (q : request) : M Store Ack :=
  match q with ReqSubmit o => Submit o | ReqCancel id => Cancel id end.

Fixpoint run_book (qs : list request) : M Store (list Ack) :=
  match qs with
  | [] => mret []
  | q :: qs' => a ← handle q; l ← run_book qs'; mret (a :: l)
  end.

(** The stores reachable from [New] by requests with [int64] quantities. *)
Definition reachable (s : Store) : Prop :=
  exists qs acks, Forall req_ok qs /\ run_book qs New = Ok (acks, s).

Lemma handle_refines q s :
  Inv s -> req_ok q ->
  exists s', handle q s = Ok ((pb_handle q (view s)).1, s')
  /\ view s' = (pb_handle q (view s)).2 /\ Inv s'.
Proof.
  destruct q; simpl; intros Hinv Hq; [by apply submit_refines|by apply cancel_refines].
Qed.

Lemma run_refines qs s :
  Inv s -> Forall req_ok qs ->
  exists s', run_book qs s = Ok ((pb_run qs (view s)).1, s')
  /\ view s' = (pb_run qs (view s)).2 /\ Inv s'.
Proof.
  intros Hinv Hqs. revert s Hinv. induction Hqs as [|q qs Hq _ IH]; intros s Hinv; [by exists s|].
  destruct (handle_refines q s Hinv Hq) as (s1 & Hrun & Hview & Hinv1).
  destruct (IH s1 Hinv1) as (s2 & Hrun2 & Hview2 & Hinv2). rewrite Hview in Hrun2, Hview2.
  exists s2. simpl. destruct (pb_handle q (view s)) as [a pb1]. simpl in *.
  destruct (pb_run qs pb1) as [l pb2]. simpl in *. split_and!; [|done|done].
  etrans; [eapply bind_ok, Hrun|]. etrans; [eapply bind_ok, Hrun2|]. done.
Qed.

Lemma reachable_view s :
  reachable s -> Inv s /\ exists qs, Forall req_ok qs /\ view s = (pb_run qs pb_empty).2.
Proof.
  intros (qs & acks & Hqs & Hrun). destruct (run_refines qs New Inv_New Hqs) as (s' & Hrun' & Hv & Hi).
  assert (s' = s) as -> by congruence. split; [done|]. by exists qs.
Qed.

Lemma reachable_inv s : reachable s -> Inv s.
Proof. intros H. by destruct (reachable_view s H). Qed.

Lemma reachable_wf s : reachable s -> pb_wf (view s).
Proof.
  intros H. destruct (reachable_view s H) as (_ & qs & Hqs & ->).
  apply pb_run_wf; [apply pb_empty_wf|done].
Qed.

Lemma reachable_index s id :
  reachable s -> is_Some (byID (book s) !! id) <-> id ∈ map r_id (pb_orders (view s)).
Proof. intros H. destruct (reachable_inv s H) as (L & Hrep & _). by apply (index_view s L). Qed.

(** [Submit] on a reachable store, by the abstract cases. *)
Lemma submit_cases o s :
  reachable s -> in64 (o_qty o) ->
  exists a s', Submit o s = Ok (a, s') /\ reachable s'
  /\ a_order a = o_id o /\ a_seq a = Int64.add (seq (book s)) 1
  /\ ((~ (valid o /\ byID (book s) !! o_id o = None) /\ a_status a = StatusRejected
       /\ a_fills a = [] /\ view s' = pb_tick (view s))
      \/ exists u, accepted o (view s) a (view s') u).
Proof.
  intros Hr Hin. pose proof (reachable_wf s Hr) as Hwf.
  destruct (submit_refines o s (reachable_inv s Hr) Hin) as (s' & Hrun & Hv & _).
  exists (pb_submit o (view s)).1, s'. split; [done|].
  destruct (pb_submit_cases o (view s) (pb_submit o (view s)).1 (view s')) as (H1 & H2 & _ & H3).
  { intros f. by apply wf_qty. }
  { rewrite Hv. by destruct (pb_submit o (view s)). }
  split_and!; [|done|done|].
  - destruct Hr as (qs & acks & Hqs & Hq). exists (qs ++ [ReqSubmit o]), (acks ++ [(pb_submit o (view s)).1]).
    split; [apply Forall_app; split; [done|by constructor]|].
    revert Hq. generalize New. revert acks. clear -Hrun. induction qs as [|q qs IH]; intros acks s0 Hq; simpl in *.
    + unfold mret, M_ret in Hq. simplify_eq. etrans; [eapply bind_ok, Hrun|]. done.
    + unfold mbind, M_bind in Hq |- *. destruct (handle q s0) as [[a s1]| |]; [|done|done].
      destruct (run_book qs s1) as [[l s2]| |] eqn:Hl; [|done|done].
      unfold mret, M_ret in Hq. simplify_eq. by rewrite (IH _ _ Hl).
  - destruct H3 as [(Hn & H4)|H3]; [left|by right]. split; [|done].
    intros [Hva Hno]. apply Hn. split; [done|]. rewrite <- reachable_index by done.
    rewrite Hno. by intros [].
Qed.

(** ** A store for the witnesses *)

Definition limit (id : string) (sd : Side) (price qty : Z) : Order := mkOrder id sd Limit price qty.
Definition market (id : string) (sd : Side) (qty : Z) : Order := mkOrder id sd Market 0 qty.

(** Two bids at 10000, one at 9900, two asks. *)
Definition demo_requests : list request :=
  [ReqSubmit (limit "A" Buy 10000 10); ReqSubmit (limit "B" Buy 10000 5);
   ReqSubmit (limit "C" Buy 9900 7); ReqSubmit (limit "D" Sell 10100 10);
   ReqSubmit (limit "E" Sell 10200 4)].

Definition demo_store : Store :=
  match run_book demo_requests New with Ok (_, s) => s | _ => New end.

Lemma demo_reachable : reachable demo_store.
Proof.
  exists demo_requests, (pb_run demo_requests pb_empty).1.
  split; [decide_now|vm_compute; reflexivity].
Qed.

(** ** Refinement *)

(** C1. The pointer book implements the abstract price-time priority book: on
    every sequence of submits and cancels it neither panics nor runs out of
    loop fuel, answers exactly the abstract acks, and holds exactly the
    abstract orders in the abstract order. *)
Theorem book_refines_priority_book (qs : list request) :
  Forall req_ok qs ->
  exists s, run_book qs New = Ok ((pb_run qs pb_empty).1, s)
  /\ view s = (pb_run qs pb_empty).2.
Proof.
  intros Hqs. destruct (run_refines qs New Inv_New Hqs) as (s & Hrun & Hv & _). by exists s.
Qed.

Lemma book_refines_priority_book_witness :
  exists s, run_book demo_requests New = Ok ((pb_run demo_requests pb_empty).1, s)
  /\ view s = (pb_run demo_requests pb_empty).2.
Proof. apply book_refines_priority_book. decide_now. Defined.

(** ** Invariant *)

(** C10. In every reachable book each side is sorted by price, every resting
    order is on its own side with a positive quantity and price, no id rests
    twice, the book is never crossed, and [byID] indexes exactly the resting
    orders. *)
Theorem reachable_book_invariant (s : Store) :
  reachable s ->
  pb_wf (view s)
  /\ forall id, is_Some (byID (book s) !! id) <-> id ∈ map r_id (pb_orders (view s)).
Proof. intros H. split; [by apply reachable_wf|]. intros id. by apply reachable_index. Qed.

Lemma reachable_book_invariant_witness :
  pb_wf (view demo_store)
  /\ forall id, is_Some (byID (book demo_store) !! id) <-> id ∈ map r_id (pb_orders (view demo_store)).
Proof. apply (reachable_book_invariant demo_store). apply demo_reachable. Defined.

(** ** Matching *)

(** C2. Price-time priority. A valid order with a fresh id is executed against
    the opposite side strictly in its priority order: a prefix of willing
    orders is filled whole, then the order is exhausted, or meets an order
    past its limit, or fills one part of the next; the status tells which, and
    only the remainder of a limit order comes to rest, behind every order on
    its side that is at least as good. *)
Theorem submit_executes_in_priority_order (s : Store) (o : Order) :
  reachable s -> valid o -> byID (book s) !! o_id o = None -> in64 (o_qty o) ->
  let mine := own_side (o_side o) in
  exists a s' u, Submit o s = Ok (a, s')
  /\ executed o (pb_side (flip mine) (view s)) (a_fills a) u (pb_side (flip mine) (view s'))
  /\ a_status a = outcome o u
  /\ pb_side mine (view s') =
     if decide (u = 0 \/ o_type o = Market) then pb_side mine (view s)
     else place mine (rested o u) (pb_side mine (view s)).
Proof.
  intros Hr Hv Hn Hin mine. destruct (submit_cases o s Hr Hin)
    as (a & s' & Hrun & _ & _ & _ & [(Hno & _)|(u & [_ _ Hex Hm Hst])]); [tauto|].
  by exists a, s', u.
Qed.

Lemma submit_executes_in_priority_order_witness :
  let o := limit "F" Sell 9900 12 in
  exists a s' u, Submit o demo_store = Ok (a, s')
  /\ executed o (pb_bids (view demo_store)) (a_fills a) u (pb_bids (view s'))
  /\ a_status a = outcome o u
  /\ pb_asks (view s') =
     if decide (u = 0 \/ o_type o = Market) then pb_asks (view demo_store)
     else place Asks (rested o u) (pb_asks (view demo_store)).
Proof.
  intros o. apply (submit_executes_in_priority_order demo_store o);
    [apply demo_reachable|decide_now|vm_compute; reflexivity|decide_now].
Defined.

(** C22. Time priority. Stamp every accepted order with the sequence number of
    its ack; then after any run (shorter than the range of [int64]) each side
    is strictly sorted by price and, at one price, by stamp. Together with the
    previous theorem, orders trade in price-time order. *)
Theorem sides_sorted_by_price_and_time (qs : list request) :
  Forall req_ok qs -> Z.of_nat (length qs) <= Int64.max_val ->
  exists acks s, run_book qs New = Ok (acks, s)
  /\ forall f, StronglySorted (before f (stamps qs acks ∅)) (pb_side f (view s)).
Proof.
  intros Hqs Hlen. destruct (run_refines qs New Inv_New Hqs) as (s & Hrun & Hv & _).
  exists (pb_run qs pb_empty).1, s. split; [done|]. intros f. rewrite Hv.
  destruct (timed_run qs pb_empty ∅) as [[Hs _] _]; try done.
  - apply pb_empty_wf.
  - split; [intros []; constructor|]. intros r Hr. by apply elem_of_nil in Hr.
Qed.

Lemma sides_sorted_by_price_and_time_witness :
  exists acks s, run_book demo_requests New = Ok (acks, s)
  /\ forall f, StronglySorted (before f (stamps demo_requests acks ∅)) (pb_side f (view s)).
Proof. apply sides_sorted_by_price_and_time; [decide_now|vm_compute; discriminate]. Defined.

(** Rejection. An order with a non-positive quantity, a bad side or type, a
    limit without positive price, or an id that rests already is answered
    [rejected] without fills, and nothing of the book changes but the sequence
    number. *)
Theorem submit_rejects (s : Store) (o : Order) :
  reachable s -> in64 (o_qty o) -> ~ (valid o /\ byID (book s) !! o_id o = None) ->
  exists s', Submit o s =
    Ok (mkAck (o_id o) (Int64.add (seq (book s)) 1) StatusRejected [] 0, s')
  /\ view s' = pb_tick (view s).
Proof.
  intros Hr Hin Hno. destruct (submit_refines o s (reachable_inv s Hr) Hin) as (s' & Hrun & Hv & _).
  exists s'. rewrite Hrun, Hv. unfold pb_submit. rewrite decide_False; [done|].
  intros [Hva Hf]. apply Hno. split; [done|]. apply eq_None_not_Some.
  by rewrite reachable_index.
Qed.

Lemma submit_rejects_witness :
  exists s', Submit (limit "A" Buy 9000 3) demo_store =
    Ok (mkAck "A" (Int64.add (seq (book demo_store)) 1) StatusRejected [] 0, s')
  /\ view s' = pb_tick (view demo_store).
Proof.
  apply (submit_rejects demo_store (limit "A" Buy 9000 3)); [apply demo_reachable|decide_now|].
  intros [_ H]. vm_compute in H. discriminate H.
Defined.

(** C30. Conservation. The fills of an accepted order and what is left of it add
    up to its quantity, the opposite side loses exactly the quantity filled,
    and every fill is positive and at a price the order accepts. *)
Theorem submit_conserves_quantity (s : Store) (o : Order) :
  reachable s -> valid o -> byID (book s) !! o_id o = None -> in64 (o_qty o) ->
  let mine := own_side (o_side o) in
  exists a s' u, Submit o s = Ok (a, s')
  /\ 0 <= u /\ sum_fills (a_fills a) + u = o_qty o
  /\ sum_qty (pb_side (flip mine) (view s')) + sum_fills (a_fills a)
     = sum_qty (pb_side (flip mine) (view s))
  /\ sum_qty (pb_side mine (view s')) =
     sum_qty (pb_side mine (view s)) + (if decide (o_type o = Market) then 0 else u)
  /\ forall f, f ∈ a_fills a -> 0 < f_qty f /\ willing o (f_price f).
Proof.
  intros Hr Hv Hn Hin mine. destruct (submit_cases o s Hr Hin)
    as (a & s' & Hrun & _ & _ & _ & [(Hno & _)|(u & [_ _ Hex Hm Hst])]); [tauto|].
  exists a, s', u. destruct (executed_sums _ _ _ _ _ Hex) as [H1 H2].
  split_and!; [done|by eapply executed_unfilled|done|done| |].
  - cbv zeta in Hm. fold mine in Hm. rewrite Hm. case_decide as Hc.
    + destruct Hc as [->| ->]; case_decide; lia || done.
    + rewrite decide_False by tauto. generalize (pb_side mine (view s)). intros rs.
      induction rs as [|x rs IH]; simpl; [lia|]. destruct (better _ _ _); simpl in *; lia.
  - intros f Hf. destruct (executed_fills _ _ _ _ _ f (wf_qty _ _ (reachable_wf s Hr)) Hex Hf)
      as (? & ? & _). done.
Qed.

Lemma submit_conserves_quantity_witness :
  let o := market "F" Sell 100 in
  exists a s' u, Submit o demo_store = Ok (a, s')
  /\ 0 <= u /\ sum_fills (a_fills a) + u = o_qty o
  /\ sum_qty (pb_bids (view s')) + sum_fills (a_fills a) = sum_qty (pb_bids (view demo_store))
  /\ sum_qty (pb_asks (view s')) =
     sum_qty (pb_asks (view demo_store)) + (if decide (o_type o = Market) then 0 else u)
  /\ forall f, f ∈ a_fills a -> 0 < f_qty f /\ willing o (f_price f).
Proof.
  intros o. apply (submit_conserves_quantity demo_store o);
    [apply demo_reachable|decide_now|vm_compute; reflexivity|decide_now].
Defined.

(** Market orders are IOC: whatever a market order does not fill is
    dropped. Its own side is untouched, every order left was there before, and
    it answers [filled], [partial] or, exactly when nothing filled,
    [canceled]. *)
Theorem market_never_rests (s : Store) (o : Order) :
  reachable s -> valid o -> byID (book s) !! o_id o = None -> in64 (o_qty o) ->
  o_type o = Market ->
  let mine := own_side (o_side o) in
  exists a s', Submit o s = Ok (a, s')
  /\ pb_side mine (view s') = pb_side mine (view s)
  /\ (forall r, r ∈ pb_orders (view s') -> r_id r ∈ map r_id (pb_orders (view s)))
  /\ byID (book s') !! o_id o = None
  /\ (a_status a = StatusFilled \/ a_status a = StatusPartial \/ a_status a = StatusCanceled)
  /\ (a_status a = StatusCanceled <-> a_fills a = []).
Proof.
  intros Hr Hv Hn Hin Hmk mine. destruct (submit_cases o s Hr Hin)
    as (a & s' & Hrun & Hr' & _ & _ & [(Hno & _)|(u & [_ Hf Hex Hm Hst])]); [tauto|].
  exists a, s'. cbv zeta in Hm, Hex. fold mine in Hm, Hex. rewrite decide_True in Hm by auto.
  assert (forall r, r ∈ pb_orders (view s') -> r_id r ∈ map r_id (pb_orders (view s))) as Hsub.
  { intros r. rewrite (pb_orders_perm mine (view s')), (pb_orders_perm mine (view s)), Hm, map_app.
    rewrite !elem_of_app. intros [Hin'|Hin']; [left; apply list_elem_of_fmap; by exists r|].
    destruct (executed_elem _ _ _ _ _ _ Hex Hin') as (r0 & Hr0 & Hk). injection Hk as -> _ _.
    right. apply list_elem_of_fmap. by exists r0. }
  split_and!; [done|done|done| | |].
  - apply eq_None_not_Some. rewrite reachable_index by done. intros Hid. apply Hf.
    apply list_elem_of_fmap in Hid as (r & -> & Hid). by apply Hsub.
  - rewrite Hst. unfold outcome. repeat case_decide; tauto.
  - destruct (executed_sums _ _ _ _ _ Hex) as [Hsum _].
    pose proof (fun f => executed_fills _ _ _ _ _ f (wf_qty _ (flip mine) (reachable_wf s Hr)) Hex) as Hpos.
    rewrite Hst. unfold outcome. destruct (a_fills a) as [|f fs]; simpl in Hsum.
    + rewrite !decide_False by (destruct Hv; lia). by rewrite decide_True.
    + assert (0 < sum_fills (f :: fs)) as Hfs.
      { destruct (Hpos f ltac:(by left)) as [Hf0 _]. simpl.
        assert (0 <= sum_fills fs); [|lia]. apply sum_fills_nonneg. intros g ?. apply Hpos. by right. }
      simpl in Hfs. case_decide; [done|]. by rewrite decide_True by lia.
Qed.

Lemma market_never_rests_witness :
  let o := market "F" Sell 100 in
  exists a s', Submit o demo_store = Ok (a, s')
  /\ pb_asks (view s') = pb_asks (view demo_store)
  /\ (forall r, r ∈ pb_orders (view s') -> r_id r ∈ map r_id (pb_orders (view demo_store)))
  /\ byID (book s') !! o_id o = None
  /\ (a_status a = StatusFilled \/ a_status a = StatusPartial \/ a_status a = StatusCanceled)
  /\ (a_status a = StatusCanceled <-> a_fills a = []).
Proof.
  intros o. apply (market_never_rests demo_store o);
    [apply demo_reachable|decide_now|vm_compute; reflexivity|decide_now|reflexivity].
Defined.

(** ** Cancel *)

(** [Cancel] answers [canceled] exactly for the ids that rest. It removes
    that order and leaves every other order where it is; for any other id it
    answers [unknown] and only the sequence number changes. *)
Theorem cancel_removes_exactly (s : Store) (id : string) :
  reachable s ->
  exists a s', Cancel id s = Ok (a, s')
  /\ a_order a = id /\ a_fills a = []
  /\ (forall f, pb_side f (view s') = filter (fun r => r_id r <> id) (pb_side f (view s)))
  /\ byID (book s') !! id = None
  /\ match byID (book s) !! id with
     | Some _ => a_status a = StatusCanceled
     | None => a_status a = StatusUnknown /\ view s' = pb_tick (view s)
     end.
Proof.
  intros Hr. pose proof (reachable_index s id Hr) as Hix.
  destruct (cancel_refines id s (reachable_inv s Hr)) as (s' & Hrun & Hv & L' & Hrep' & _).
  exists (pb_cancel id (view s)).1, s'. rewrite Hv. split; [done|].
  assert (forall f, pb_side f (pb_cancel id (view s)).2
    = filter (fun r => r_id r <> id) (pb_side f (view s))) as Hside.
  { intros f. destruct (decide (id ∈ map r_id (pb_orders (view s)))) as [Hin|Hin].
    - by apply pb_cancel_side.
    - rewrite pb_cancel_unknown by done. simpl. rewrite filter_absent; [by destruct f|].
      intros Hf. apply Hin. rewrite (pb_orders_perm f), map_app. apply elem_of_app. by left. }
  assert (byID (book s') !! id = None) as Hgone.
  { apply eq_None_not_Some. rewrite (index_view s' L' id Hrep'), Hv.
    rewrite (pb_orders_perm Bids), !Hside, map_app, elem_of_app, !list_elem_of_fmap.
    by intros [(r & Hid & [? _]%list_elem_of_filter)|(r & Hid & [? _]%list_elem_of_filter)]. }
  unfold pb_cancel in *. destruct (byID (book s) !! id) as [p|].
  - rewrite decide_True in Hside |- * by (apply Hix; eauto). by split_and!.
  - rewrite decide_False in Hside |- * by (rewrite <- Hix; by intros []). by split_and!.
Qed.

Lemma cancel_removes_exactly_witness :
  exists a s', Cancel "B" demo_store = Ok (a, s')
  /\ a_order a = "B" /\ a_fills a = []
  /\ (forall f, pb_side f (view s') = filter (fun r => r_id r <> "B") (pb_side f (view demo_store)))
  /\ byID (book s') !! "B" = None
  /\ match byID (book demo_store) !! "B" with
     | Some _ => a_status a = StatusCanceled
     | None => a_status a = StatusUnknown /\ view s' = pb_tick (view demo_store)
     end.
Proof. apply (cancel_removes_exactly demo_store "B"). apply demo_reachable. Defined.

Lemma filter_place f r rs :
  r_id r ∉ map r_id rs -> filter (fun x => r_id x <> r_id r) (place f r rs) = rs.
Proof.
  induction rs as [|x rs IH]; simpl; intros Hn.
  - by rewrite filter_cons_False by tauto.
  - apply not_elem_of_cons in Hn as [Hx Hn]. destruct (better _ _ _).
    + rewrite filter_cons_False by tauto. rewrite filter_absent; [done|].
      by apply not_elem_of_cons.
    + rewrite filter_cons_True by done. by rewrite IH.
Qed.

(** Submitting an order that comes to rest whole and cancelling it is a
    round trip: both sides are back where they were. *)
Theorem rest_then_cancel (s : Store) (o : Order) (a : Ack) (s1 : Store) :
  reachable s -> in64 (o_qty o) -> Submit o s = Ok (a, s1) -> a_status a = StatusResting ->
  exists a' s2, Cancel (o_id o) s1 = Ok (a', s2) /\ a_status a' = StatusCanceled
  /\ forall f, pb_side f (view s2) = pb_side f (view s).
Proof.
  intros Hr Hin Hsub Hst. destruct (submit_cases o s Hr Hin)
    as (a0 & s0 & Hrun & Hr1 & _ & _ & Hcase). rewrite Hsub in Hrun. simplify_eq.
  destruct Hcase as [(_ & Hst' & _)|(u & [Hv Hf Hex Hm Hst'])]; [by rewrite Hst in Hst'|].
  cbv zeta in Hm, Hex. set (mine := own_side (o_side o)) in *.
  rewrite Hst in Hst'. symmetry in Hst'. unfold outcome in Hst'.
  destruct (decide (u = 0)) as [|Hu0]; [done|].
  destruct (decide (u < o_qty o)) as [|Hu]; [done|].
  destruct (decide (o_type o = Market)) as [|Ht]; [done|].
  rewrite decide_False in Hm by tauto.
  destruct (executed_sums _ _ _ _ _ Hex) as [Hsum _].
  assert (pb_side (flip mine) (view s0) = pb_side (flip mine) (view s)) as Hopp.
  { pose proof (fun f => executed_fills _ _ _ _ _ f (wf_qty _ (flip mine) (reachable_wf s Hr)) Hex) as Hpos.
    destruct Hex as (full & tail & Hfull & _ & Hcase).
    assert (Forall qty_ok (full ++ tail)) as Hok by (rewrite <- Hfull; by apply wf_qty, reachable_wf).
    apply Forall_app in Hok as [Hok _]. pose proof (sum_qty_nonneg full Hok) as Hnn.
    destruct Hcase as [(_ & Ho & Hs & _)|(r & t & n & _ & _ & _ & _ & _ & Hu' & _)]; [|lia].
    rewrite Ho, Hfull. destruct full as [|x full]; [done|]. exfalso.
    apply Forall_cons in Hok as [Hx Hok]. pose proof (sum_qty_nonneg full Hok).
    unfold qty_ok in Hx. simpl in Hs. lia. }
  assert (is_Some (byID (book s0) !! o_id o)) as Hlive.
  { apply reachable_index; [done|]. rewrite (pb_orders_perm mine), Hm, place_perm. by left. }
  destruct (cancel_refines (o_id o) s0 (reachable_inv _ Hr1)) as (s2 & Hc & Hv2 & _).
  apply reachable_index in Hlive; [|done].
  exists (pb_cancel (o_id o) (view s0)).1, s2. split_and!; [done| |].
  - unfold pb_cancel. by rewrite decide_True.
  - intros f. rewrite Hv2, pb_cancel_side by done.
    rewrite (pb_orders_perm mine), map_app, elem_of_app in Hf.
    destruct (decide (f = mine)) as [->|Hg].
    + rewrite Hm. change (o_id o) with (r_id (rested o u)) in Hf |- *. apply filter_place. tauto.
    + assert (f = flip mine) as -> by (by destruct f, mine). rewrite Hopp. apply filter_absent. tauto.
Qed.

Lemma rest_then_cancel_witness :
  let o := limit "F" Buy 10000 3 in
  match Submit o demo_store with
  | Ok (a, s1) => exists a' s2, Cancel "F" s1 = Ok (a', s2) /\ a_status a' = StatusCanceled
      /\ forall f, pb_side f (view s2) = pb_side f (view demo_store)
  | _ => False
  end.
Proof.
  intros o. destruct (Submit o demo_store) as [[a s1]| |] eqn:H;
    [|vm_compute in H; discriminate H|vm_compute in H; discriminate H].
  apply (rest_then_cancel demo_store o a s1); [apply demo_reachable|decide_now|exact H|].
  vm_compute in H. injection H as <- _. reflexivity.
Defined.

(** ** Sequence numbers *)

Lemma pb_run_seqs qs pb :
  0 <= pb_seq pb -> pb_seq pb + Z.of_nat (length qs) <= Int64.max_val ->
  map a_seq (pb_run qs pb).1 = seqZ (pb_seq pb + 1) (Z.of_nat (length qs)).
Proof.
  revert pb. induction qs as [|q qs IH]; intros pb Hpos Hlen; [done|].
  destruct (pb_handle_seq q pb) as [H1 H2]. simpl.
  assert (Int64.add (pb_seq pb) 1 = pb_seq pb + 1) as Hadd.
  { apply Int64.wrap_id. unfold Int64.in_range, Int64.min_val, Int64.max_val in *. simpl in Hlen. lia. }
  destruct (pb_handle q pb) as [a pb1]. simpl in H1, H2, Hlen.
  specialize (IH pb1). destruct (pb_run qs pb1) as [l pb2]. simpl in IH |- *.
  rewrite seqZ_cons by lia. rewrite H1, Hadd, IH by lia. do 2 f_equal; lia.
Qed.

(** The acks of a run of [n] requests carry the sequence numbers 1 to [n],
    so each is larger than the one before. *)
Theorem acks_numbered_in_order (qs : list request) :
  Forall req_ok qs -> Z.of_nat (length qs) <= Int64.max_val ->
  exists acks s, run_book qs New = Ok (acks, s)
  /\ map a_seq acks = seqZ 1 (Z.of_nat (length qs)).
Proof.
  intros Hqs Hlen. destruct (run_refines qs New Inv_New Hqs) as (s & Hrun & _).
  exists (pb_run qs pb_empty).1, s. split; [done|]. by apply (pb_run_seqs qs pb_empty).
Qed.

Lemma acks_numbered_in_order_witness :
  exists acks s, run_book demo_requests New = Ok (acks, s)
  /\ map a_seq acks = seqZ 1 (Z.of_nat (length demo_requests)).
Proof. apply acks_numbered_in_order; [decide_now|vm_compute; discriminate]. Defined.
