(* ===== verification/Float64.v ===== *)
(** * Go's [float64]: IEEE 754 binary64, exactly

    A finite double is an integer number of units of 2^-1074, the smallest
    positive double; an operation computes the exact rational result and rounds
    it once, to nearest with ties to even. The definitions run. The theorems
    are the ones rounding is used for: it never crosses a representable number.
    The [amd64] behaviour is modelled: no fused multiply-add, and a conversion
    to an integer that does not fit gives the smallest [int64]. *)
From S2P Require Import Prelude.
Local Open Scope Z_scope.

Module F64.

(** [Fin s u] is [u] units, negated when [s] holds. *)
Inductive t := NaN | Inf (s : bool) | Fin (s : bool) (u : Z).

#[global] Instance t_eq_dec : EqDecision t.
Proof. solve_decision. Defined.

(** Units in 1. *)
Definition one_u : Z := 2 ^ 1074.
(** The first magnitude, in units, that overflows: 2^1024. *)
Definition inf_u : Z := 2 ^ 2098.

(** ** Rounding *)

(** The exponent, in units, of the last bit kept of a quotient [q]. *)
Definition last_bit (q : Z) : Z := Z.max 0 (Z.log2 q - 52).

(** [m] or [m + 1], whichever [m + r / D] is nearest to. *)
Definition pick (m r D : Z) : Z :=
  match 2 * r ?= D with
  | Lt => m
  | Gt => m + 1
  | Eq => if Z.even m then m else m + 1
  end.

(** [n / d] rounded to nearest, ties to even, to 53 significant bits. *)
Definition rne (n d : Z) : Z :=
  let q := n / d in
  let s := last_bit q in
  let m := Z.shiftr q s in
  let D := Z.shiftl d s in
  Z.shiftl (pick m (n - m * D) D) s.

Definition round (s : bool) (n d : Z) : t :=
  let u := rne n d in if u <? inf_u then Fin s u else Inf s.

(** ** Constants and conversions *)

Definition zero : t := Fin false 0.
Definition of_Z (z : Z) : t := round (z <? 0) (Z.abs z * one_u) 1.
(** The decimal constant [n / 10^k], [n] not negative. *)
Definition dec (n : Z) (k : Z) : t := round false (n * one_u) (10 ^ k).

(** The value in units. *)
Definition units (s : bool) (u : Z) : Z := if s then - u else u.

(** [int64(x)] *)
Definition to_int64 (x : t) : Z :=
  match x with
  | Fin s u =>
      let z := units s (u / one_u) in if decide (in64 z) then z else Int64.min_val
  | _ => Int64.min_val
  end.

(** ** Arithmetic *)

Definition opp (x : t) : t :=
  match x with NaN => NaN | Inf s => Inf (negb s) | Fin s u => Fin (negb s) u end.

Definition add (x y : t) : t :=
  match x, y with
  | NaN, _ | _, NaN => NaN
  | Inf s, Inf s' => if Bool.eqb s s' then Inf s else NaN
  | Inf s, Fin _ _ | Fin _ _, Inf s => Inf s
  | Fin s u, Fin s' u' =>
      let z := units s u + units s' u' in
      if z =? 0 then Fin (s && s') 0 else round (z <? 0) (Z.abs z) 1
  end.

Definition sub (x y : t) : t := add x (opp y).

Definition mul (x y : t) : t :=
  match x, y with
  | NaN, _ | _, NaN => NaN
  | Inf s, Inf s' => Inf (xorb s s')
  | Inf s, Fin s' u | Fin s u, Inf s' => if u =? 0 then NaN else Inf (xorb s s')
  | Fin s u, Fin s' u' => round (xorb s s') (u * u') one_u
  end.

Definition div (x y : t) : t :=
  match x, y with
  | NaN, _ | _, NaN | Inf _, Inf _ => NaN
  | Inf s, Fin s' _ => Inf (xorb s s')
  | Fin s _, Inf s' => Fin (xorb s s') 0
  | Fin s u, Fin s' u' =>
      if u' =? 0 then (if u =? 0 then NaN else Inf (xorb s s'))
      else round (xorb s s') (u * one_u) u'
  end.

(** [math.Ceil] *)
Definition ceil (x : t) : t :=
  match x with
  | Fin false u => Fin false ((u + one_u - 1) / one_u * one_u)
  | Fin true u => Fin true (u / one_u * one_u)
  | _ => x
  end.

(** ** Comparisons: false as soon as one side is a NaN *)

(** The order of the extended line, NaN aside. *)
Definition cmp (x y : t) : option comparison :=
  match x, y with
  | NaN, _ | _, NaN => None
  | Inf s, Inf s' =>
      Some (if Bool.eqb s s' then Eq else if s then Lt else Gt)
  | Inf s, Fin _ _ => Some (if s then Lt else Gt)
  | Fin _ _, Inf s => Some (if s then Gt else Lt)
  | Fin s u, Fin s' u' => Some (units s u ?= units s' u')
  end.

Definition ltb (x y : t) : bool := bool_decide (cmp x y = Some Lt).
Definition leb (x y : t) : bool :=
  match cmp x y with Some Lt | Some Eq => true | _ => false end.
Definition eqb (x y : t) : bool := bool_decide (cmp x y = Some Eq).

Definition is_neg (x : t) : bool :=
  match x with NaN => false | Inf s => s | Fin s _ => s end.

(** [math.Max] and [math.Min]: infinities first, then NaN, then signed zeros. *)
Definition max (x y : t) : t :=
  if bool_decide (x = Inf false \/ y = Inf false) then Inf false
  else match x, y with
  | NaN, _ | _, NaN => NaN
  | _, _ =>
      if eqb x zero && eqb y zero then (if is_neg x then y else x)
      else if ltb y x then x else y
  end.

Definition min (x y : t) : t :=
  if bool_decide (x = Inf true \/ y = Inf true) then Inf true
  else match x, y with
  | NaN, _ | _, NaN => NaN
  | _, _ =>
      if eqb x zero && eqb y zero then (if is_neg x then x else y)
      else if ltb x y then x else y
  end.

(** ** Rounding stays on its side of every representable number *)

(** A magnitude of at most 53 significant bits. *)
Definition repr (g : Z) : Prop := exists m k, 0 <= m <= 2 ^ 53 /\ 0 <= k /\ g = m * 2 ^ k.

Lemma repr_0 : repr 0.
Proof. exists 0, 0. lia. Qed.

Lemma repr_nonneg g : repr g -> 0 <= g.
Proof. intros (m & k & ? & ? & ->). apply Z.mul_nonneg_nonneg; [lia|]. apply Z.pow_nonneg. lia. Qed.

Definition shift (n d : Z) : Z := last_bit (n / d).

(** What rounding keeps: all of a small quotient, 53 bits of a large one. *)
Lemma shift_spec n d :
  0 <= n -> 0 < d ->
  let k := shift n d in
  0 <= k /\ n / (d * 2 ^ k) < 2 ^ 53 /\ (k = 0 \/ 2 ^ (52 + k) <= n / d).
Proof.
  intros Hn Hd k. assert (0 <= k) as Hk by (unfold k, shift, last_bit; lia).
  split; [done|]. rewrite <- Z.div_div by (lia || apply Z.pow_pos_nonneg; lia).
  assert (0 <= n / d) as Hq by (apply Z.div_pos; lia). set (q := n / d) in *.
  destruct (decide (q < 2 ^ 53)) as [Hs|Hs].
  - assert (k = 0) as ->.
    { unfold k, shift, last_bit. fold q. destruct (decide (q = 0)) as [->|]; [done|].
      assert (Z.log2 q < 53) by (apply Z.log2_lt_pow2; lia). lia. }
    rewrite Z.pow_0_r, Z.div_1_r. auto.
  - assert (53 <= Z.log2 q) as Hl by (apply Z.log2_le_pow2; lia).
    assert (k = Z.log2 q - 52) as Hk' by (unfold k, shift, last_bit; fold q; lia).
    destruct (Z.log2_spec q ltac:(lia)) as [H1 H2]. split.
    + apply Z.div_lt_upper_bound; [apply Z.pow_pos_nonneg; lia|].
      rewrite <- Z.pow_add_r by lia. replace (k + 53) with (Z.succ (Z.log2 q)) by lia. done.
    + right. by replace (52 + k) with (Z.log2 q) by lia.
Qed.

Lemma rne_eq n d :
  0 <= n -> 0 < d ->
  let k := 2 ^ shift n d in
  rne n d = pick (n / (d * k)) (n mod (d * k)) (d * k) * k.
Proof.
  intros Hn Hd k. assert (0 <= shift n d) as Hs by (unfold shift, last_bit; lia).
  assert (0 < k) by (apply Z.pow_pos_nonneg; lia).
  unfold rne. fold (shift n d). rewrite !Z.shiftl_mul_pow2, Z.shiftr_div_pow2 by done.
  rewrite Z.div_div by (done || lia). fold k.
  pose proof (Z.div_mod n (d * k) ltac:(lia)). do 2 f_equal. lia.
Qed.

Lemma pick_mono m r r' D : r <= r' -> pick m r D <= pick m r' D.
Proof.
  intros H. unfold pick.
  destruct (Z.compare_spec (2 * r) D), (Z.compare_spec (2 * r') D); repeat case_match; lia.
Qed.

(** [rne] is the quotient in units of the last kept bit, or the next one when
    the quotient is not exact. *)
Lemma rne_cases n d :
  0 <= n -> 0 < d ->
  let k := 2 ^ shift n d in
  let m := n / (d * k) in
  0 < k /\ m * (d * k) <= n < (m + 1) * (d * k)
  /\ (rne n d = m * k \/ rne n d = (m + 1) * k /\ m * (d * k) < n).
Proof.
  intros Hn Hd k m. destruct (shift_spec n d Hn Hd) as (Hs & _ & _).
  assert (0 < k) as Hk by (apply Z.pow_pos_nonneg; lia).
  assert (0 < d * k) as HD by (apply Z.mul_pos_pos; lia).
  pose proof (Z.div_mod n (d * k) ltac:(lia)) as Hdm.
  pose proof (Z.mod_pos_bound n (d * k) HD) as Hmod. fold m in Hdm.
  split_and!; [done|nia|nia|].
  rewrite rne_eq by done. fold k. fold m. unfold pick.
  set (r := n mod (d * k)) in *.
  destruct (Z.compare_spec (2 * r) (d * k)); [destruct (Z.even m)|..]; auto; right; split; auto; nia.
Qed.

Lemma rne_nonneg n d : 0 <= n -> 0 < d -> 0 <= rne n d.
Proof.
  intros Hn Hd. destruct (rne_cases n d Hn Hd) as (Hk & Hb & Hr).
  assert (0 < d * 2 ^ shift n d) by (apply Z.mul_pos_pos; lia).
  assert (0 <= n / (d * 2 ^ shift n d)) by (apply Z.div_pos; lia).
  destruct Hr as [-> | [-> _]]; apply Z.mul_nonneg_nonneg; lia.
Qed.

Lemma rne_repr n d : 0 <= n -> 0 < d -> repr (rne n d).
Proof.
  intros Hn Hd. destruct (rne_cases n d Hn Hd) as (Hk & Hb & Hr).
  destruct (shift_spec n d Hn Hd) as (Hs & Hm & _).
  assert (0 <= n / (d * 2 ^ shift n d)) by (apply Z.div_pos; [lia|apply Z.mul_pos_pos; lia]).
  destruct Hr as [-> | [-> _]]; eexists _, _; (split; [|split; [|reflexivity]]); lia.
Qed.

(** A representable number is a multiple of the last kept bit of any smaller one. *)
Lemma repr_multiple g n d :
  0 <= n -> 0 < d -> repr g -> 2 ^ (52 + shift n d) <= g ->
  exists c, g = c * 2 ^ shift n d.
Proof.
  intros Hn Hd (m & j & Hm & Hj & ->) Hle. destruct (shift_spec n d Hn Hd) as (Hs & _ & _).
  set (k := shift n d) in *. destruct (decide (k <= j)).
  - exists (m * 2 ^ (j - k)). rewrite <- Z.mul_assoc, <- Z.pow_add_r by lia. do 2 f_equal. lia.
  - assert (m * 2 ^ j <= 2 ^ 53 * 2 ^ (k - 1)) as Hub.
    { assert (0 < 2 ^ j) by (apply Z.pow_pos_nonneg; lia).
      assert (2 ^ j <= 2 ^ (k - 1)) by (apply Z.pow_le_mono_r; lia).
      apply Z.mul_le_mono_nonneg; lia. }
    rewrite <- Z.pow_add_r in Hub by lia. replace (53 + (k - 1)) with (52 + k) in Hub by lia.
    exists (2 ^ 52). rewrite <- Z.pow_add_r by lia. lia.
Qed.

Lemma rne_le n d g : 0 <= n -> 0 < d -> repr g -> n <= g * d -> rne n d <= g.
Proof.
  intros Hn Hd Hg Hle. destruct (rne_cases n d Hn Hd) as (Hk & Hb & Hr).
  destruct (shift_spec n d Hn Hd) as (Hs & _ & Hbig).
  assert (exists c, g = c * 2 ^ shift n d) as [c Hc].
  { destruct Hbig as [->|Hbig]; [exists g; lia|]. apply repr_multiple; [done..|].
    pose proof (Z.div_le_upper_bound n d g Hd). lia. }
  set (k := 2 ^ shift n d) in *. set (m := n / (d * k)) in *. subst g.
  assert (0 < d * k) by (apply Z.mul_pos_pos; lia).
  destruct Hr as [-> | [-> Hlt]].
  - apply Z.mul_le_mono_nonneg_r; [lia|]. assert (m * (d * k) <= c * (d * k)) by lia. nia.
  - apply Z.mul_le_mono_nonneg_r; [lia|]. assert (m * (d * k) < c * (d * k)) by lia. nia.
Qed.

Lemma rne_ge n d g : 0 <= n -> 0 < d -> repr g -> g * d <= n -> g <= rne n d.
Proof.
  intros Hn Hd Hg Hle. destruct (rne_cases n d Hn Hd) as (Hk & Hb & Hr).
  destruct (shift_spec n d Hn Hd) as (Hs & _ & Hbig).
  set (k := 2 ^ shift n d) in *. set (m := n / (d * k)) in *.
  assert (0 < d * k) by (apply Z.mul_pos_pos; lia).
  assert (m * k <= rne n d) as Hmk by (destruct Hr as [-> | [-> _]]; lia).
  destruct (decide (g <= m * k)) as [|Hgt]; [lia|exfalso].
  assert (exists c, g = c * k) as [c ->].
  { destruct Hbig as [Hz|Hbig]; [exists g; unfold k; rewrite Hz; lia|].
    apply repr_multiple; [done..|].
    assert (2 ^ 52 <= m) as Hm.
    { unfold m, k. apply Z.div_le_lower_bound; [done|].
      assert (d * 2 ^ (52 + shift n d) <= n) as Hx.
      { pose proof (Z.mul_div_le n d Hd). nia. }
      rewrite Z.pow_add_r in Hx by lia. lia. }
    rewrite Z.pow_add_r by lia. fold k. nia. }
  assert (m + 1 <= c) by nia. nia.
Qed.

(** A representable number is its own rounding. *)
Lemma rne_exact g d : 0 < d -> repr g -> rne (g * d) d = g.
Proof.
  intros Hd Hg. pose proof (repr_nonneg g Hg).
  assert (0 <= g * d) by (apply Z.mul_nonneg_nonneg; lia).
  apply Z.le_antisymm; [apply rne_le|apply rne_ge]; done || lia.
Qed.
Lemma rne_mono n n' d : 0 <= n -> n <= n' -> 0 < d -> rne n d <= rne n' d.
Proof.
  intros Hn Hle Hd. destruct (rne_cases n d Hn Hd) as (Hk & Hb & Hr).
  destruct (rne_cases n' d ltac:(lia) Hd) as (Hk' & Hb' & Hr').
  destruct (shift_spec n d Hn Hd) as (Hs & Hm & _).
  destruct (shift_spec n' d ltac:(lia) Hd) as (Hs' & Hm' & Hbig').
  assert (n / d <= n' / d) as Hq by (apply Z.div_le_mono; lia).
  assert (shift n d <= shift n' d) as Hsh.
  { unfold shift, last_bit. pose proof (Z.log2_le_mono _ _ Hq). lia. }
  destruct (decide (shift n d = shift n' d)) as [He|Hne].
  - rewrite !rne_eq by lia. rewrite <- He in *. set (k := 2 ^ shift n d) in *.
    assert (0 < d * k) as HD by (apply Z.mul_pos_pos; lia).
    apply Z.mul_le_mono_nonneg_r; [lia|].
    pose proof (Z.div_le_mono n n' (d * k) HD Hle) as Hmm.
    destruct (decide (n / (d * k) = n' / (d * k))) as [Heq|Hne].
    + rewrite <- Heq. apply pick_mono.
      pose proof (Z.div_mod n (d * k) ltac:(lia)). pose proof (Z.div_mod n' (d * k) ltac:(lia)).
      rewrite <- Heq in *. lia.
    + transitivity (n / (d * k) + 1); [unfold pick; repeat case_match; lia|].
      transitivity (n' / (d * k)); [lia|]. unfold pick; repeat case_match; lia.
  - transitivity (2 ^ (52 + shift n' d)).
    + transitivity (2 ^ 53 * 2 ^ shift n d).
      * destruct Hr as [-> | [-> _]]; apply Z.mul_le_mono_nonneg_r; lia.
      * rewrite <- Z.pow_add_r by lia. apply Z.pow_le_mono_r; lia.
    + destruct Hbig' as [|Hbig']; [lia|]. apply rne_ge; [lia|lia| |].
      * exists 1, (52 + shift n' d). lia.
      * pose proof (Z.mul_div_le n' d Hd). nia.
Qed.

(** Only the ratio counts. *)
Lemma pick_scale k m r D : 0 < k -> pick m (k * r) (k * D) = pick m r D.
Proof.
  intros Hk. unfold pick. replace (2 * (k * r)) with (k * (2 * r)) by lia.
  rewrite (Z.compare_sub (k * (2 * r))), (Z.compare_sub (2 * r)), <- Z.mul_sub_distr_l. destruct (Z.compare_spec (2 * r - D) 0), (Z.compare_spec (k * (2 * r - D)) 0); done || nia.
Qed.

Lemma rne_scale k n d : 0 < k -> 0 < d -> rne (k * n) (k * d) = rne n d.
Proof.
  intros Hk Hd. unfold rne. rewrite Z.div_mul_cancel_l by lia.
  set (s := last_bit _). set (m := Z.shiftr _ _).
  assert (0 <= s) by (unfold s, last_bit; lia).
  rewrite !Z.shiftl_mul_pow2 by done. f_equal.
  replace (k * n - m * (k * d * 2 ^ s)) with (k * (n - m * (d * 2 ^ s))) by ring.
  rewrite <- (Z.mul_assoc k). by apply pick_scale.
Qed.

(** ** Intervals *)

Lemma one_u_pos : 0 < one_u.
Proof. done. Qed.

Lemma repr_units z : 0 <= z <= 2 ^ 53 -> repr (z * one_u).
Proof. intros. exists z, 1074. done. Qed.

Lemma units_lt_inf z : 0 <= z <= 2 ^ 53 -> z * one_u < inf_u.
Proof.
  intros. apply Z.le_lt_trans with (2 ^ 53 * one_u); [|done].
  apply Z.mul_le_mono_nonneg_r; [done|lia].
Qed.

Lemma round_between lo hi n d :
  repr lo -> repr hi -> hi < inf_u -> 0 < d -> lo * d <= n <= hi * d ->
  exists u, round false n d = Fin false u /\ lo <= u <= hi /\ repr u.
Proof.
  intros Hlo Hhi Hinf Hd [Hl Hh]. pose proof (repr_nonneg lo Hlo).
  assert (0 <= n) as Hn by (transitivity (lo * d); [apply Z.mul_nonneg_nonneg|]; lia).
  assert (rne n d <= hi) as H1 by (by apply rne_le).
  assert (lo <= rne n d) as H2 by (by apply rne_ge).
  exists (rne n d). unfold round. rewrite (proj2 (Z.ltb_lt _ _)) by lia.
  split_and!; [done..|]. by apply rne_repr.
Qed.

Lemma of_Z_exact z : 0 <= z <= 2 ^ 53 -> of_Z z = Fin false (z * one_u).
Proof.
  intros Hz. unfold of_Z, round. rewrite (proj2 (Z.ltb_ge z 0)), Z.abs_eq by lia.
  pose proof (rne_exact (z * one_u) 1 ltac:(lia) (repr_units z Hz)) as Hr.
  rewrite Z.mul_1_r in Hr. rewrite Hr. by rewrite (proj2 (Z.ltb_lt _ _) (units_lt_inf z Hz)).
Qed.

Lemma dec_int z : 0 <= z -> dec z 0 = of_Z z.
Proof. intros Hz. unfold dec, of_Z. rewrite Z.abs_eq by done. by rewrite (proj2 (Z.ltb_ge z 0)). Qed.

Lemma mul_between lo hi u v :
  repr lo -> repr hi -> hi < inf_u -> lo * one_u <= u * v <= hi * one_u ->
  exists w, mul (Fin false u) (Fin false v) = Fin false w /\ lo <= w <= hi /\ repr w.
Proof. intros. apply round_between; done. Qed.

Lemma div_between lo hi u v :
  repr lo -> repr hi -> hi < inf_u -> 0 < v -> lo * v <= u * one_u <= hi * v ->
  exists w, div (Fin false u) (Fin false v) = Fin false w /\ lo <= w <= hi /\ repr w.
Proof.
  intros. simpl. rewrite (proj2 (Z.eqb_neq v 0)) by lia. apply round_between; done.
Qed.

(** ** Signed values

    [num x z]: the double [x] is the number of [z] units. An operation on
    numbers is the rounding of the exact result, and rounding is monotone. *)

Definition num (x : t) (z : Z) : Prop := exists s u, x = Fin s u /\ 0 <= u /\ units s u = z.

Definition srne (n d : Z) : Z := if n <? 0 then - rne (- n) d else rne n d.

Lemma srne_rne n d : 0 <= n -> srne n d = rne n d.
Proof. intros. unfold srne. by rewrite (proj2 (Z.ltb_ge n 0)). Qed.

(** Far below overflow. *)
Definition big_u : Z := 2 ^ 2000.

Lemma repr_pow k : 0 <= k -> repr (2 ^ k).
Proof. intros. exists 1, k. lia. Qed.

Lemma srne_mono n n' d : n <= n' -> 0 < d -> srne n d <= srne n' d.
Proof.
  intros Hle Hd. unfold srne. destruct (Z.ltb_spec n 0), (Z.ltb_spec n' 0).
  - pose proof (rne_mono (- n') (- n) d). lia.
  - pose proof (rne_nonneg (- n) d). pose proof (rne_nonneg n' d). lia.
  - lia.
  - apply rne_mono; lia.
Qed.

Lemma srne_scale k n d : 0 < k -> 0 < d -> srne (k * n) (k * d) = srne n d.
Proof.
  intros Hk Hd. unfold srne. rewrite <- Z.mul_opp_r, !rne_scale by done.
  destruct (Z.ltb_spec n 0), (Z.ltb_spec (k * n) 0); nia || done.
Qed.

Lemma srne_nonneg n d : 0 <= n -> 0 < d -> 0 <= srne n d.
Proof. intros. unfold srne. rewrite (proj2 (Z.ltb_ge n 0)) by lia. by apply rne_nonneg. Qed.

Lemma srne_le n d g : 0 < d -> repr g -> n <= g * d -> srne n d <= g.
Proof.
  intros Hd Hg Hle. unfold srne. pose proof (repr_nonneg g Hg). destruct (Z.ltb_spec n 0).
  - pose proof (rne_nonneg (- n) d). lia.
  - by apply rne_le.
Qed.

Lemma srne_exact g d : 0 < d -> repr g -> srne (g * d) d = g.
Proof.
  intros Hd Hg. pose proof (repr_nonneg g Hg). unfold srne.
  rewrite (proj2 (Z.ltb_ge (g * d) 0)) by (apply Z.mul_nonneg_nonneg; lia). by apply rne_exact.
Qed.

Lemma srne_abs_le n d g : 0 < d -> repr g -> Z.abs n <= g * d -> Z.abs (srne n d) <= g.
Proof.
  intros Hd Hg Hle. unfold srne. destruct (Z.ltb_spec n 0).
  - pose proof (rne_nonneg (- n) d). pose proof (rne_le (- n) d g ltac:(lia) Hd Hg ltac:(lia)). lia.
  - pose proof (rne_nonneg n d). pose proof (rne_le n d g ltac:(lia) Hd Hg ltac:(lia)). lia.
Qed.

Lemma round_num s n d :
  0 <= n -> 0 < d -> n <= big_u * d ->
  num (round s n d) (if s then - rne n d else rne n d).
Proof.
  intros Hn Hd Hb. pose proof (rne_nonneg n d Hn Hd).
  assert (rne n d <= big_u) as Hle by (apply rne_le; try done; by apply repr_pow).
  assert (big_u < inf_u) by done.
  exists s, (rne n d). unfold round. rewrite (proj2 (Z.ltb_lt _ _)) by lia. split_and!; done.
Qed.

Lemma round_signed_num z d :
  0 < d -> Z.abs z <= big_u * d -> num (round (z <? 0) (Z.abs z) d) (srne z d).
Proof.
  intros Hd Hb. unfold srne. pose proof (round_num (z <? 0) (Z.abs z) d) as H.
  destruct (Z.ltb_spec z 0).
  - rewrite Z.abs_neq in * by lia. apply H; lia.
  - rewrite Z.abs_eq in * by lia. apply H; lia.
Qed.

Lemma num_Fin u : 0 <= u -> num (Fin false u) u.
Proof. by exists false, u. Qed.

Lemma num_inj x a b : num x a -> num x b -> a = b.
Proof. intros (s & u & -> & ? & <-) (s' & u' & ? & ? & <-). by simplify_eq. Qed.

Lemma of_Z_num z : Z.abs z <= 2 ^ 64 -> num (of_Z z) (srne (z * one_u) 1).
Proof.
  intros Hz. unfold of_Z. pose proof one_u_pos as H1.
  replace (Z.abs z * one_u) with (Z.abs (z * one_u)) by (rewrite Z.abs_mul, (Z.abs_eq one_u); lia).
  replace (z <? 0) with (z * one_u <? 0).
  - apply round_signed_num; [done|]. rewrite Z.abs_mul, (Z.abs_eq one_u), Z.mul_1_r by lia.
    transitivity (2 ^ 64 * one_u); [apply Z.mul_le_mono_nonneg_r; lia|done].
  - destruct (Z.ltb_spec z 0).
    + apply Z.ltb_lt. nia.
    + apply Z.ltb_ge. nia.
Qed.

Lemma of_Z_num_exact z : 0 <= z <= 2 ^ 53 -> num (of_Z z) (z * one_u).
Proof.
  intros. rewrite of_Z_exact by done. apply num_Fin.
  apply Z.mul_nonneg_nonneg; [lia|]. pose proof one_u_pos. lia.
Qed.

Lemma dec_num n k :
  0 <= n -> 0 <= k -> n * one_u <= big_u * 10 ^ k -> num (dec n k) (rne (n * one_u) (10 ^ k)).
Proof.
  intros Hn Hk Hb. apply (round_num false); [|apply Z.pow_pos_nonneg; lia|done].
  pose proof one_u_pos. apply Z.mul_nonneg_nonneg; lia.
Qed.

Lemma opp_num x a : num x a -> num (opp x) (- a).
Proof. intros (s & u & -> & ? & <-). exists (negb s), u. split_and!; [done..|]. destruct s; simpl; lia. Qed.

Lemma add_num x y a b :
  num x a -> num y b -> Z.abs (a + b) <= big_u -> num (add x y) (srne (a + b) 1).
Proof.
  intros (s & u & -> & ? & Ha) (s' & v & -> & ? & Hb) Hle. simpl. rewrite Ha, Hb.
  destruct (Z.eqb_spec (a + b) 0) as [->|].
  - exists (s && s'), 0. split_and!; [done..|]. by destruct (s && s').
  - apply round_signed_num; lia.
Qed.

Lemma sub_num x y a b :
  num x a -> num y b -> Z.abs (a - b) <= big_u -> num (sub x y) (srne (a - b) 1).
Proof.
  intros Ha Hb Hle. unfold sub. replace (a - b) with (a + - b) in * by lia.
  apply add_num; [done|by apply opp_num|done].
Qed.

(** A difference that is not negative has no sign. *)
Lemma sub_positive u y c : num (sub (Fin false u) y) c -> 0 <= c -> sub (Fin false u) y = Fin false c.
Proof.
  unfold sub, add. intros (s & v & Heq & Hv & Hu) Hc.
  destruct y as [|s'|s' u']; cbn -[round units] in Heq |- *; [done|by destruct s'|].
  set (z := units false u + units (negb s') u') in *. revert Heq. destruct (Z.eqb_spec z 0) as [Hz|Hz]; intros Heq.
  - injection Heq as <- <-. simpl in Hu. by subst c.
  - rewrite Heq. unfold round in Heq. destruct (_ <? inf_u); [|done]. injection Heq as <- Hr. subst v.
    destruct (Z.ltb_spec z 0) as [Hneg|Hpos]; simpl in Hu; [|by subst c].
    pose proof (rne_ge (Z.abs z) 1 1 ltac:(lia) ltac:(lia) ltac:(exists 1, 0; lia) ltac:(lia)). lia.
Qed.

Lemma srne_sign s s' n d :
  0 <= n -> 0 < d -> (if xorb s s' then - rne n d else rne n d) = srne (units s (units s' n)) d.
Proof.
  intros Hn Hd. assert (rne 0 d = 0) as H0.
  { pose proof (rne_exact 0 d Hd repr_0) as H0. by rewrite Z.mul_0_l in H0. }
  assert (units s (units s' n) = if xorb s s' then - n else n) as -> by (destruct s, s'; simpl; lia).
  unfold srne. destruct (xorb s s').
  - destruct (Z.ltb_spec (- n) 0); [by rewrite Z.opp_involutive|].
    replace n with 0 in * by lia. by rewrite H0.
  - by rewrite (proj2 (Z.ltb_ge n 0)) by lia.
Qed.

Lemma units_mul s s' u v : units s u * units s' v = units s (units s' (u * v)).
Proof. destruct s, s'; simpl; lia. Qed.

Lemma units_mul_r s u c : units s u * c = units s (u * c).
Proof. destruct s; simpl; lia. Qed.

Lemma units_abs s u : Z.abs (units s u) = Z.abs u.
Proof. destruct s; simpl; lia. Qed.

Lemma mul_num x y a b :
  num x a -> num y b -> Z.abs (a * b) <= big_u * one_u -> num (mul x y) (srne (a * b) one_u).
Proof.
  intros (s & u & -> & ? & <-) (s' & v & -> & ? & <-). rewrite units_mul, !units_abs. intros Hle.
  pose proof one_u_pos. assert (0 <= u * v) by (apply Z.mul_nonneg_nonneg; lia).
  rewrite <- srne_sign by lia. apply round_num; lia.
Qed.

(** Dividing by a positive number. *)
Lemma div_num x y a b :
  num x a -> num y b -> 0 < b -> Z.abs (a * one_u) <= big_u * b ->
  num (div x y) (srne (a * one_u) b).
Proof.
  intros (s & u & -> & ? & <-) (s' & v & -> & ? & <-) Hb. pose proof one_u_pos.
  assert (s' = false) as -> by (destruct s'; simpl in Hb; [lia|done]). simpl in Hb |- *.
  rewrite units_mul_r, units_abs. intros Hle. rewrite (proj2 (Z.eqb_neq v 0)) by lia.
  assert (0 <= u * one_u) by (apply Z.mul_nonneg_nonneg; lia).
  change (units s (u * one_u)) with (units s (units false (u * one_u))).
  rewrite <- srne_sign by lia. apply round_num; lia.
Qed.

Lemma cmp_num x y a b : num x a -> num y b -> cmp x y = Some (a ?= b).
Proof. by intros (s & u & -> & ? & <-) (s' & v & -> & ? & <-). Qed.

Lemma ltb_num x y a b : num x a -> num y b -> ltb x y = (a <? b).
Proof.
  intros Ha Hb. unfold ltb. rewrite (cmp_num x y a b Ha Hb). unfold Z.ltb.
  destruct (a ?= b); by case_bool_decide.
Qed.

Lemma leb_num x y a b : num x a -> num y b -> leb x y = (a <=? b).
Proof. intros Ha Hb. unfold leb. rewrite (cmp_num x y a b Ha Hb). unfold Z.leb. by destruct (a ?= b). Qed.

Lemma eqb_num x y a b : num x a -> num y b -> eqb x y = (a =? b).
Proof.
  intros Ha Hb. unfold eqb. rewrite (cmp_num x y a b Ha Hb). rewrite Z.eqb_compare.
  destruct (a ?= b); by case_bool_decide.
Qed.

Lemma zero_num : num zero 0.
Proof. by apply num_Fin. Qed.

(** [math.Max] and [math.Min] of two numbers, whichever zero they return. *)
Lemma max_num x y a b : num x a -> num y b -> num (max x y) (Z.max a b).
Proof.
  intros Ha Hb.
  assert (max x y = if eqb x zero && eqb y zero then (if is_neg x then y else x)
                    else if ltb y x then x else y) as ->.
  { destruct Ha as (?&?&->&_), Hb as (?&?&->&_). unfold max. by rewrite bool_decide_false by (by intros []). }
  rewrite (eqb_num x zero a 0), (eqb_num y zero b 0), (ltb_num y x b a) by (done || apply zero_num).
  assert (num (if b <? a then x else y) (Z.max a b)).
  { destruct (Z.ltb_spec b a); [by rewrite Z.max_l by lia|by rewrite Z.max_r by lia]. }
  destruct (Z.eqb_spec a 0) as [->|], (Z.eqb_spec b 0) as [->|]; try done. by destruct (is_neg x).
Qed.

Lemma min_num x y a b : num x a -> num y b -> num (min x y) (Z.min a b).
Proof.
  intros Ha Hb.
  assert (min x y = if eqb x zero && eqb y zero then (if is_neg x then x else y)
                    else if ltb x y then x else y) as ->.
  { destruct Ha as (?&?&->&_), Hb as (?&?&->&_). unfold min. by rewrite bool_decide_false by (by intros []). }
  rewrite (eqb_num x zero a 0), (eqb_num y zero b 0), (ltb_num x y a b) by (done || apply zero_num).
  assert (num (if a <? b then x else y) (Z.min a b)).
  { destruct (Z.ltb_spec a b); [by rewrite Z.min_l by lia|by rewrite Z.min_r by lia]. }
  destruct (Z.eqb_spec a 0) as [->|], (Z.eqb_spec b 0) as [->|]; try done. by destruct (is_neg x).
Qed.

(** ** Integer parts *)

Lemma to_int64_Fin u : 0 <= u -> u / one_u <= Int64.max_val -> to_int64 (Fin false u) = u / one_u.
Proof.
  intros Hu Hle. unfold to_int64, units. rewrite decide_True; [done|].
  pose proof (Z.div_pos u one_u Hu ltac:(done)). unfold Int64.in_range, Int64.min_val. lia.
Qed.

(** A double above [z] and at most [z + 1] is rounded up to [z + 1]. *)
Lemma ceil_int u z :
  z * one_u < u <= (z + 1) * one_u -> ceil (Fin false u) = Fin false ((z + 1) * one_u).
Proof.
  pose proof one_u_pos as H1. intros [Hl Hh]. simpl. do 2 f_equal.
  symmetry. apply (Z.div_unique _ _ (z + 1) (u - z * one_u - 1)); lia.
Qed.

Lemma to_int64_units z : 0 <= z <= Int64.max_val -> to_int64 (Fin false (z * one_u)) = z.
Proof.
  intros Hz. pose proof one_u_pos. rewrite to_int64_Fin; rewrite ?Z.div_mul by lia; try lia.
Qed.
End F64.

(** Large numbers: never to be unfolded by unification. *)
#[global] Opaque F64.one_u F64.inf_u F64.big_u F64.rne F64.srne F64.dec F64.of_Z F64.round
  F64.add F64.sub F64.mul F64.div F64.max F64.min.

(** ** The functions of Go's [math] package the program calls

    Their results are specified only up to an unstated accuracy, so they are
    parameters. *)
Class Math := {
  Log : F64.t -> F64.t;
  Log10 : F64.t -> F64.t;
  Pow : F64.t -> F64.t -> F64.t
}.
