(* ===== verification/FloatReal.v ===== *)
(** * Doubles as real numbers

    The real number a double stands for, and the standard model of rounding:
    one operation is off by at most one part in 2^53 of its result, or half of
    the smallest double. *)
From Stdlib Require Import Reals Lra.
From S2P Require Import Prelude Float64.
Local Open Scope R_scope.

(** The double 1 in units, as a real number. *)
Definition unit_R : R := IZR F64.one_u.

Lemma unit_R_large : 1000000000000000000000000000000 <= unit_R.
Proof. unfold unit_R. apply IZR_le. vm_compute. discriminate. Qed.

Lemma Rabs_bounds x a : Rabs x <= a -> - a <= x <= a.
Proof. unfold Rabs. destruct (Rcase_abs x); lra. Qed.

(** Half a unit. *)
Definition tiny : R := / 1000000000000000000000000000000.

Lemma tiny_pos : 0 < tiny.
Proof. unfold tiny. lra. Qed.

(** [x] is a number of value [X]. *)
Definition is_real (x : F64.t) (X : R) : Prop := exists z, F64.num x z /\ X = IZR z / unit_R.

Lemma unit_R_pos : 0 < unit_R.
Proof. pose proof unit_R_large. lra. Qed.

Lemma is_real_nonneg X z : X = IZR z / unit_R -> 0 <= X -> (0 <= z)%Z.
Proof.
  intros -> Hx. apply le_IZR. pose proof unit_R_pos. apply (Rmult_le_reg_r (/ unit_R)); [by apply Rinv_0_lt_compat|]. lra.
Qed.

(** Rounding a quotient. *)
Lemma rne_near n d : (0 <= n)%Z -> (0 < d)%Z ->
  (2 ^ 53 * Z.abs (F64.rne n d * d - n) <= n + 2 ^ 52 * d)%Z.
Proof.
  intros Hn Hd. rewrite F64.rne_eq by done. destruct (F64.shift_spec n d Hn Hd) as (Hs & _ & Hcase).
  set (k := (2 ^ F64.shift n d)%Z) in *. assert (0 < k)%Z as Hk by (apply Z.pow_pos_nonneg; lia).
  assert (0 < d * k)%Z as HD by (apply Z.mul_pos_pos; lia).
  assert (2 * Z.abs (F64.pick (n / (d * k)) (n mod (d * k)) (d * k) * (d * k) - n) <= d * k)%Z as Hp.
  { pose proof (Z.div_mod n (d * k) ltac:(lia)) as Hdm. pose proof (Z.mod_pos_bound n (d * k) HD) as Hm.
    unfold F64.pick. destruct (Z.compare_spec (2 * (n mod (d * k))) (d * k)); [destruct (Z.even _)|..]; nia. }
  replace (F64.pick (n / (d * k)) (n mod (d * k)) (d * k) * k * d)%Z
    with (F64.pick (n / (d * k)) (n mod (d * k)) (d * k) * (d * k))%Z by lia.
  destruct Hcase as [Hz|Hbig]; [unfold k in *; rewrite Hz in *; lia|].
  assert (2 ^ 52 * k * d <= n)%Z as Hn'; [|lia].
  rewrite Z.pow_add_r in Hbig by lia. fold k in Hbig. pose proof (Z.mul_div_le n d Hd). nia.
Qed.

Lemma rne_near_R n d : (0 <= n)%Z -> (0 < d)%Z ->
  Rabs (IZR (F64.rne n d) - IZR n / IZR d) <= IZR n / IZR d / 9007199254740992 + 1 / 2.
Proof.
  intros Hn Hd. pose proof (rne_near n d Hn Hd) as Hz. apply IZR_le in Hz.
  rewrite mult_IZR, abs_IZR, minus_IZR, mult_IZR, plus_IZR, mult_IZR in Hz.
  change (IZR (2 ^ 53)) with 9007199254740992 in Hz. change (IZR (2 ^ 52)) with 4503599627370496 in Hz.
  apply IZR_lt in Hd. apply (Rmult_le_reg_r (IZR d)); [done|].
  rewrite <- (Rabs_pos_eq (IZR d)) at 2 by lra. rewrite <- Rabs_mult.
  replace ((IZR (F64.rne n d) - IZR n / IZR d) * IZR d) with (IZR (F64.rne n d) * IZR d - IZR n) by (field; lra).
  replace ((IZR n / IZR d / 9007199254740992 + 1 / 2) * IZR d) with (IZR n / 9007199254740992 + IZR d / 2) by (field; lra).
  lra.
Qed.

(** The rounded quotient as a number: [n / d] are units over [unit_R]. *)
Lemma rne_real x n d X : F64.num x (F64.srne n d) -> (0 <= n)%Z -> (0 < d)%Z -> X = IZR n / IZR d / unit_R ->
  exists Y, is_real x Y /\ 0 <= Y /\ Rabs (Y - X) <= X / 9007199254740992 + tiny /\ (1 <= X -> 1 <= Y).
Proof.
  intros Hx Hn Hd ->. rewrite F64.srne_rne in Hx by done. exists (IZR (F64.rne n d) / unit_R). pose proof unit_R_large as Hl.
  assert (0 < / unit_R) as Hinv by (apply Rinv_0_lt_compat; lra).
  split; [by eexists|]. split; [|split; [|intros HX]].
  - apply Rmult_le_pos; [apply IZR_le, F64.rne_nonneg; done|lra].
  - apply (Rmult_le_reg_r unit_R); [lra|]. rewrite <- (Rabs_pos_eq unit_R) at 3 by lra. rewrite <- Rabs_mult.
    pose proof (rne_near_R n d Hn Hd) as Hr. set (q := IZR n / IZR d) in *.
    replace ((IZR (F64.rne n d) / unit_R - q / unit_R) * unit_R) with (IZR (F64.rne n d) - q) by (field; lra).
    replace ((q / unit_R / 9007199254740992 + tiny) * unit_R) with (q / 9007199254740992 + tiny * unit_R) by (field; lra).
    assert (1 / 2 <= tiny * unit_R) by (unfold tiny; lra). lra.
  - apply (Rmult_le_reg_r unit_R); [lra|]. replace (IZR (F64.rne n d) / unit_R * unit_R) with (IZR (F64.rne n d)) by (field; lra).
    rewrite Rmult_1_l. apply IZR_le, F64.rne_ge; [done|done|rewrite <- (Z.mul_1_l F64.one_u); apply F64.repr_units; lia|].
    apply le_IZR. rewrite mult_IZR. fold unit_R. apply IZR_lt in Hd.
    apply (Rmult_le_compat_r (unit_R * IZR d)) in HX; [|apply Rlt_le, Rmult_lt_0_compat; lra].
    replace (IZR n / IZR d / unit_R * (unit_R * IZR d)) with (IZR n) in HX by (field; lra). lra.
Qed.

(** ** The operations *)

Lemma real_of_Z z : (0 <= z <= 2 ^ 53)%Z -> is_real (F64.of_Z z) (IZR z).
Proof.
  intros Hz. exists (z * F64.one_u)%Z. split; [by apply F64.of_Z_num_exact|]. rewrite mult_IZR. fold unit_R.
  pose proof unit_R_pos. field. lra.
Qed.

Lemma big_enough : (2 ^ 200 * F64.one_u <= F64.big_u)%Z.
Proof. vm_compute. discriminate. Qed.

(** Bounds between real values are bounds between units. *)
Lemma units_le a b : IZR a / unit_R <= IZR b / unit_R -> (a <= b)%Z.
Proof.
  intros Hab. apply le_IZR. pose proof unit_R_pos. apply (Rmult_le_reg_r (/ unit_R)); [by apply Rinv_0_lt_compat|]. exact Hab.
Qed.

Lemma real_div x y X Y : is_real x X -> is_real y Y -> 0 <= X <= 1000000000000000000 -> 1 / 1000000 <= Y ->
  exists Q, is_real (F64.div x y) Q /\ 0 <= Q /\ Rabs (Q - X / Y) <= X / Y / 9007199254740992 + tiny
  /\ (1 <= X / Y -> 1 <= Q).
Proof.
  intros (a & Ha & EX) (b & Hb & EY) HX HY. pose proof unit_R_pos as Hu. pose proof F64.one_u_pos as Ho.
  assert (0 <= a)%Z as Hpa by (eapply is_real_nonneg; [exact EX|lra]).
  assert (a <= 1000000000000000000 * F64.one_u)%Z as Hla.
  { apply units_le. rewrite mult_IZR. fold unit_R. replace (1000000000000000000 * unit_R / unit_R) with 1000000000000000000 by (field; lra). lra. }
  assert (F64.one_u <= 1000000 * b)%Z as Hlb.
  { apply units_le. rewrite mult_IZR. fold unit_R. replace (1000000 * IZR b / unit_R) with (1000000 * Y) by (rewrite EY; field; lra).
    replace (unit_R / unit_R) with 1 by (field; lra). lra. }
  apply (rne_real _ (a * F64.one_u) b).
  - apply F64.div_num; [done|done|lia|]. pose proof big_enough. rewrite Z.abs_eq by nia.
    assert (a * F64.one_u <= 1000000000000000000 * F64.one_u * (1000000 * b))%Z by nia. nia.
  - nia.
  - lia.
  - rewrite EX, EY, mult_IZR. fold unit_R. assert (0 < IZR b) by (apply IZR_lt; lia). field. lra.
Qed.

Lemma real_mul x y X Y : is_real x X -> is_real y Y -> 0 <= X <= 1000000000000000000 -> 0 <= Y <= 1000000000000000000 ->
  exists P, is_real (F64.mul x y) P /\ 0 <= P /\ Rabs (P - X * Y) <= X * Y / 9007199254740992 + tiny
  /\ (1 <= X * Y -> 1 <= P).
Proof.
  intros (a & Ha & EX) (b & Hb & EY) HX HY. pose proof unit_R_pos as Hu. pose proof F64.one_u_pos as Ho.
  assert (forall c C, C = IZR c / unit_R -> 0 <= C <= 1000000000000000000 -> (0 <= c <= 1000000000000000000 * F64.one_u)%Z) as Hc.
  { intros c C EC HC. split; [eapply is_real_nonneg; [exact EC|lra]|]. apply units_le. rewrite mult_IZR. fold unit_R.
    replace (1000000000000000000 * unit_R / unit_R) with 1000000000000000000 by (field; lra). lra. }
  pose proof (Hc a X EX HX) as Hpa. pose proof (Hc b Y EY HY) as Hpb.
  apply (rne_real _ (a * b) F64.one_u).
  - apply F64.mul_num; [done|done|]. pose proof big_enough. rewrite Z.abs_eq by nia.
    assert (a * b <= 1000000000000000000 * F64.one_u * (1000000000000000000 * F64.one_u))%Z by (apply Z.mul_le_mono_nonneg; lia). nia.
  - nia.
  - done.
  - rewrite EX, EY, mult_IZR. fold unit_R. field. lra.
Qed.

(** [int64(x)] is the integer part. *)
Lemma real_to_int64 x X : is_real x X -> 0 <= X < 4611686018427387904 ->
  IZR (F64.to_int64 x) <= X < IZR (F64.to_int64 x) + 1.
Proof.
  intros (z & (s & u & -> & Hu & Hz) & EX) HX. pose proof unit_R_pos as HU. pose proof F64.one_u_pos as Ho.
  assert (0 <= z)%Z as Hpz by (eapply is_real_nonneg; [exact EX|lra]).
  assert (F64.to_int64 (F64.Fin s u) = z / F64.one_u)%Z as ->.
  { destruct s; simpl in Hz.
    - assert (u = 0)%Z as -> by lia. subst z. done.
    - subst u. apply F64.to_int64_Fin; [done|]. apply Z.div_le_upper_bound; [done|].
      apply units_le. rewrite mult_IZR. fold unit_R. replace (unit_R * IZR Int64.max_val / unit_R) with (IZR Int64.max_val) by (field; lra).
      change (IZR Int64.max_val) with 9223372036854775807. lra. }
  pose proof (Z.div_mod z F64.one_u ltac:(lia)) as Hdm. pose proof (Z.mod_pos_bound z F64.one_u Ho) as Hm.
  set (q := (z / F64.one_u)%Z) in *. set (r := (z mod F64.one_u)%Z) in *.
  assert (X = IZR q + IZR r / unit_R) as ->.
  { rewrite EX, Hdm, plus_IZR, mult_IZR. fold unit_R. field. lra. }
  assert (0 <= IZR r / unit_R < 1); [|lra]. destruct Hm as [H0 H1]. apply IZR_le in H0. apply IZR_lt in H1. fold unit_R in H1. split.
  - apply Rmult_le_pos; [done|]. by apply Rlt_le, Rinv_0_lt_compat.
  - apply (Rmult_lt_reg_r unit_R); [done|]. replace (IZR r / unit_R * unit_R) with (IZR r) by (field; lra). lra.
Qed.

Lemma real_sub x y X Y : is_real x X -> is_real y Y -> 0 <= Y <= X -> X <= 1000000000000000000 ->
  exists D, is_real (F64.sub x y) D /\ 0 <= D /\ Rabs (D - (X - Y)) <= (X - Y) / 9007199254740992 + tiny
  /\ (1 <= X - Y -> 1 <= D).
Proof.
  intros (a & Ha & EX) (b & Hb & EY) HY HX. pose proof unit_R_pos as Hu. pose proof F64.one_u_pos as Ho.
  assert (0 <= b <= a)%Z as Hab.
  { split; [eapply is_real_nonneg; [exact EY|lra]|apply units_le; lra]. }
  assert (a <= 1000000000000000000 * F64.one_u)%Z as Hla.
  { apply units_le. rewrite mult_IZR. fold unit_R. replace (1000000000000000000 * unit_R / unit_R) with 1000000000000000000 by (field; lra). lra. }
  apply (rne_real _ (a - b) 1).
  - apply F64.sub_num; [done|done|]. pose proof big_enough. lia.
  - lia.
  - done.
  - rewrite EX, EY, minus_IZR. field. lra.
Qed.

(** A decimal constant. *)
Lemma real_dec n k : (0 <= n <= 1000)%Z -> (0 <= k <= 3)%Z ->
  exists D, is_real (F64.dec n k) D /\ 0 <= D
  /\ Rabs (D - IZR n / IZR (10 ^ k)) <= IZR n / IZR (10 ^ k) / 9007199254740992 + tiny
  /\ (1 <= IZR n / IZR (10 ^ k) -> 1 <= D).
Proof.
  intros Hn Hk. pose proof unit_R_pos as Hu. pose proof F64.one_u_pos as Ho. pose proof big_enough as Hb.
  assert (0 < 10 ^ k)%Z as Hp by (apply Z.pow_pos_nonneg; lia).
  apply (rne_real _ (n * F64.one_u) (10 ^ k)).
  - rewrite F64.srne_rne by nia. apply F64.dec_num; [lia|lia|nia].
  - nia.
  - done.
  - rewrite mult_IZR. fold unit_R. apply IZR_lt in Hp. field. lra.
Qed.
