(* ===== verification/Counters.v ===== *)
(** * Counter maps

    The telemetry of the arena is made of Go maps from an integer to an [int64]
    count: latency histograms (a bucket to its observations) and per-second
    tallies. They are only ever bumped and folded into each other, with [m\[k\]
    += v], which reads an absent key as 0 and wraps around. Ranging over a Go
    map visits its entries in an unspecified order, so a fold takes the order
    as an argument: a list of the entries. *)
From S2P Require Import Prelude.
Local Open Scope Z_scope.

(** [m\[k\]] *)
Definition at_key (m : gmap Z Z) (k : Z) : Z := default 0 (m !! k).

(** [m\[k\] += v] *)
Definition bump (m : gmap Z Z) (k v : Z) : gmap Z Z := <[k := Int64.add (at_key m k) v]> m.

(** [for k, v := range src { dst\[k\] += v }], the entries of [src] in the order [kvs]. *)
Definition fold_into (dst : gmap Z Z) (kvs : list (Z * Z)) : gmap Z Z :=
  foldl (fun m kv => bump m kv.1 kv.2) dst kvs.

(** [kvs] is an order in which ranging over [m] may visit it. *)
Definition ranges (m : gmap Z Z) (kvs : list (Z * Z)) : Prop := kvs ≡ₚ map_to_list m.

(** Every count fits. *)
Definition counts_ok (m : gmap Z Z) : Prop := forall k, in64 (at_key m k).

Lemma at_key_insert m k v : at_key (<[k := v]> m) k = v.
Proof. unfold at_key. by rewrite lookup_insert_eq. Qed.

Lemma at_key_insert_ne m k k' v : k <> k' -> at_key (<[k := v]> m) k' = at_key m k'.
Proof. intros. unfold at_key. by rewrite lookup_insert_ne. Qed.

Lemma at_key_empty k : at_key ∅ k = 0.
Proof. done. Qed.

Lemma at_key_bump m k v k' :
  at_key (bump m k v) k' = if decide (k' = k) then Int64.add (at_key m k) v else at_key m k'.
Proof.
  unfold bump. case_decide; subst; [by rewrite at_key_insert|by rewrite at_key_insert_ne].
Qed.

Lemma bump_comm m k v k' v' : bump (bump m k v) k' v' = bump (bump m k' v') k v.
Proof.
  unfold bump. destruct (decide (k = k')) as [->|Hne].
  - rewrite !at_key_insert, !insert_insert_eq, !Int64.add_assoc. do 2 f_equal. apply Int64.add_comm.
  - rewrite !at_key_insert_ne by congruence. by apply insert_insert_ne.
Qed.

Lemma fold_into_app dst l1 l2 : fold_into dst (l1 ++ l2) = fold_into (fold_into dst l1) l2.
Proof. apply foldl_app. Qed.

Lemma fold_into_bump dst l k v : fold_into (bump dst k v) l = bump (fold_into dst l) k v.
Proof.
  revert dst. induction l as [|[k' v'] l IH]; intros dst; [done|].
  simpl. rewrite bump_comm. apply IH.
Qed.

(** The order of a fold does not matter. *)
Lemma fold_into_perm dst l l' : l ≡ₚ l' -> fold_into dst l = fold_into dst l'.
Proof.
  intros Hp. revert dst. induction Hp as [|[k v] l l' _ IH|[k v] [k' v'] l|l l' l'' _ IH1 _ IH2];
    intros dst; simpl.
  - done.
  - apply IH.
  - by rewrite bump_comm.
  - by rewrite IH1.
Qed.

Lemma fold_into_comm dst l l' : fold_into (fold_into dst l) l' = fold_into (fold_into dst l') l.
Proof. rewrite <- !fold_into_app. apply fold_into_perm, Permutation_app_comm. Qed.

(** ** Values of a fold *)

(** What the entries of [kvs] add to [k]. *)
Definition added (kvs : list (Z * Z)) (k : Z) : Z :=
  foldr (fun kv n => (if decide (kv.1 = k) then kv.2 else 0) + n) 0 kvs.

Lemma fold_into_at dst kvs k :
  in64 (at_key dst k) -> at_key (fold_into dst kvs) k = Int64.wrap (at_key dst k + added kvs k).
Proof.
  revert dst. induction kvs as [|[k' v] kvs IH]; intros dst Hin.
  - simpl. rewrite Z.add_0_r. by rewrite Int64.wrap_id.
  - change (fold_into dst ((k', v) :: kvs)) with (fold_into (bump dst k' v) kvs).
    assert (at_key (bump dst k' v) k
            = Int64.add (at_key dst k) (if decide (k' = k) then v else 0)) as Hb.
    { rewrite at_key_bump. destruct (decide (k = k')) as [->|]; [by rewrite decide_True|].
      rewrite decide_False by congruence. unfold Int64.add. rewrite Z.add_0_r. by rewrite Int64.wrap_id. }
    rewrite IH by (rewrite Hb; apply Int64.add_in_range). rewrite Hb. simpl.
    fold (Int64.add (Int64.add (at_key dst k) (if decide (k' = k) then v else 0)) (added kvs k)).
    unfold Int64.add at 2. rewrite Int64.add_wrap_l. unfold Int64.add. f_equal. lia.
Qed.

Lemma added_keys kvs k : k ∉ kvs.*1 -> added kvs k = 0.
Proof.
  induction kvs as [|[k' v] kvs IH]; [done|]. rewrite fmap_cons, not_elem_of_cons. intros [Hne Hk].
  simpl in *. rewrite decide_False by congruence. by rewrite IH.
Qed.

Lemma added_perm l l' k : l ≡ₚ l' -> added l k = added l' k.
Proof. induction 1; simpl; lia. Qed.

Lemma added_ranges m kvs k : ranges m kvs -> added kvs k = at_key m k.
Proof.
  intros Hr. rewrite (added_perm _ _ k Hr). clear kvs Hr. unfold at_key.
  induction m as [|k' v m Hfresh IH] using map_ind; [by rewrite map_to_list_empty|].
  rewrite (added_perm _ _ k (map_to_list_insert m k' v Hfresh)). simpl.
  rewrite IH. case_decide as Hk; subst.
  - rewrite lookup_insert_eq, Hfresh. simpl. lia.
  - by rewrite lookup_insert_ne by done.
Qed.

(** Folding a map in adds its counts. *)
Lemma fold_into_ranges dst src kvs k :
  counts_ok dst -> ranges src kvs ->
  at_key (fold_into dst kvs) k = Int64.add (at_key dst k) (at_key src k).
Proof. intros Hd Hr. rewrite fold_into_at by apply Hd. by rewrite (added_ranges src). Qed.

Lemma bump_ok m k v : counts_ok m -> counts_ok (bump m k v).
Proof.
  intros H k'. rewrite at_key_bump. case_decide; [apply Int64.add_in_range|apply H].
Qed.

Lemma fold_into_ok dst kvs : counts_ok dst -> counts_ok (fold_into dst kvs).
Proof.
  revert dst. induction kvs as [|[k v] kvs IH]; intros dst H; [done|]. apply (IH (bump dst k v)).
  by apply bump_ok.
Qed.

Lemma empty_ok : counts_ok ∅.
Proof. intros k. rewrite at_key_empty. decide_now. Qed.

(** ** Keys *)

Lemma bump_keys m k v k' : is_Some (bump m k v !! k') <-> k' = k \/ is_Some (m !! k').
Proof. unfold bump. rewrite lookup_insert_is_Some. destruct (decide (k = k')); naive_solver. Qed.

Lemma fold_into_keys dst kvs k :
  is_Some (fold_into dst kvs !! k) <-> is_Some (dst !! k) \/ k ∈ kvs.*1.
Proof.
  revert dst. induction kvs as [|[k' v] kvs IH]; intros dst.
  - rewrite fmap_nil, elem_of_nil. naive_solver.
  - change (fold_into dst ((k', v) :: kvs)) with (fold_into (bump dst k' v) kvs).
    rewrite IH, bump_keys, fmap_cons, elem_of_cons. naive_solver.
Qed.

Lemma ranges_keys m kvs k : ranges m kvs -> k ∈ kvs.*1 <-> is_Some (m !! k).
Proof.
  intros Hr. rewrite Hr, list_elem_of_fmap. split.
  - intros ([k' v] & -> & Hin). apply elem_of_map_to_list in Hin. by eexists.
  - intros [v Hv]. exists (k, v). split; [done|]. by apply elem_of_map_to_list.
Qed.

Create HintDb counters.
#[export] Hint Resolve empty_ok bump_ok fold_into_ok : counters.
