(* ===== verification/Hist.v ===== *)
(** * The latency histogram: [src/internal/telemetry/hist.go]

    Recording, shipping and merging of bucket counts, and the quantile of a
    merged histogram. A [Hist] is its map of counts; every method holds the
    mutex for its whole effect, so a method is one atomic step on it. *)
From S2P Require Import Prelude Float64 Counters.
Local Open Scope Z_scope.

Section hist.
Context `{!Math}.

Definition minNs : Z := 1000.
Definition logGrowth : F64.t := Log (F64.dec 105 2).

Definition bucketOf (ns : Z) : Z :=
  if ns <? minNs then 0
  else Int64.add
         (F64.to_int64 (F64.div (Log (F64.div (F64.of_Z ns) (F64.of_Z minNs))) logGrowth)) 1.

Definition bucketValue (b : Z) : Z :=
  if b <=? 0 then minNs
  else F64.to_int64 (F64.mul (F64.of_Z minNs)
                             (Pow (F64.dec 105 2) (F64.sub (F64.of_Z b) (F64.dec 5 1)))).

Definition Hist : Type := gmap Z Z.
Definition NewHist : Hist := ∅.

Definition Record_ns (ns : Z) : M Hist () := modify (fun c => bump c (bucketOf ns) 1).

Definition TakeDelta : M Hist (gmap Z Z) :=
  d ← get; modify (fun _ => ∅);; mret d.

(** [Merge(dst, src)], ranging over [src] in the order [kvs]: the new [dst]. *)
Definition Merge (dst : gmap Z Z) (kvs : list (Z * Z)) : gmap Z Z := fold_into dst kvs.

(** The loop over the sorted keys: the first at which the running count
    reaches the rank. *)
Fixpoint scan_rank (c : gmap Z Z) (rank cum : Z) (keys : list Z) : option Z :=
  match keys with
  | [] => None
  | k :: keys' =>
      let cum := Int64.add cum (at_key c k) in
      if rank <=? cum then Some k else scan_rank c rank cum keys'
  end.

Definition rank_of (q : F64.t) (total : Z) : Z :=
  F64.to_int64 (F64.ceil (F64.mul q (F64.of_Z total))).

(** [Quantile(c, q)], ranging over [c] in the order [kvs]; [None] is a panic. *)
Definition Quantile (c : gmap Z Z) (kvs : list (Z * Z)) (q : F64.t) : option Z :=
  let total := foldl (fun t kv => Int64.add t kv.2) 0 kvs in
  if total =? 0 then Some 0
  else
    let keys := merge_sort Z.le kvs.*1 in
    match scan_rank c (rank_of q total) 0 keys with
    | Some k => Some (bucketValue k)
    | None => bucketValue <$> last keys
    end.
End hist.

(** ** Histograms of observations *)

(** How many of [bs] satisfy [P]. *)
Definition tally (P : Z -> Prop) `{!forall x, Decision (P x)} (bs : list Z) : Z :=
  Z.of_nat (length (filter P bs)).

(** [c] counts the buckets [bs]. *)
Definition hist_of (bs : list Z) (c : gmap Z Z) : Prop :=
  forall k, at_key c k = tally (k =.) bs /\ (is_Some (c !! k) <-> k ∈ bs).

Section tally.
Context (P : Z -> Prop) `{!forall x, Decision (P x)}.

Lemma tally_nil : tally P [] = 0.
Proof. done. Qed.

Lemma tally_cons b bs : tally P (b :: bs) = (if decide (P b) then 1 else 0) + tally P bs.
Proof.
  unfold tally. destruct (decide (P b)).
  - rewrite filter_cons_True by done. simpl. lia.
  - rewrite filter_cons_False by done. lia.
Qed.

Lemma tally_app bs bs' : tally P (bs ++ bs') = tally P bs + tally P bs'.
Proof. unfold tally. rewrite filter_app, length_app. lia. Qed.

Lemma tally_perm bs bs' : bs ≡ₚ bs' -> tally P bs = tally P bs'.
Proof. intros Hp. unfold tally. by rewrite Hp. Qed.

Lemma tally_bounds bs : 0 <= tally P bs <= Z.of_nat (length bs).
Proof. unfold tally. pose proof (length_filter P bs). lia. Qed.

Lemma tally_mono (Q : Z -> Prop) `{!forall x, Decision (Q x)} bs :
  (forall b, b ∈ bs -> P b -> Q b) -> tally P bs <= tally Q bs.
Proof.
  induction bs as [|b bs IH]; intros Hsub; [done|].
  rewrite tally_cons. unfold tally in *. destruct (decide (Q b)).
  - rewrite filter_cons_True by done. simpl.
    assert (Z.of_nat (length (filter P bs)) <= Z.of_nat (length (filter Q bs)))
      by (apply IH; set_solver). case_decide; lia.
  - rewrite filter_cons_False by done. rewrite decide_False by set_solver.
    apply IH. set_solver.
Qed.

Lemma tally_all bs : (forall b, b ∈ bs -> P b) -> tally P bs = Z.of_nat (length bs).
Proof.
  induction bs as [|b bs IH]; intros Hsub; [done|]. rewrite tally_cons, decide_True by set_solver.
  rewrite IH by set_solver. simpl. lia.
Qed.

Lemma tally_none bs : (forall b, b ∈ bs -> ~ P b) -> tally P bs = 0.
Proof.
  induction bs as [|b bs IH]; intros Hsub; [done|]. rewrite tally_cons, decide_False by set_solver.
  rewrite IH by set_solver. done.
Qed.
End tally.

Lemma tally_pos k bs : 0 < tally (k =.) bs <-> k ∈ bs.
Proof.
  induction bs as [|b bs IH]; [rewrite tally_nil, elem_of_nil; lia|].
  rewrite tally_cons, elem_of_cons. pose proof (tally_bounds (k =.) bs).
  case_decide; [naive_solver lia|]. rewrite Z.add_0_l, IH. naive_solver.
Qed.

(** Counting by distinct values. *)
Definition keyed (keys bs : list Z) : Z := foldr (fun k n => tally (k =.) bs + n) 0 keys.

Lemma keyed_cons k keys bs : keyed (k :: keys) bs = tally (k =.) bs + keyed keys bs.
Proof. done. Qed.

Lemma keyed_app keys keys' bs : keyed (keys ++ keys') bs = keyed keys bs + keyed keys' bs.
Proof.
  induction keys as [|k keys IH]; [done|]. rewrite <- app_comm_cons, !keyed_cons, IH. lia.
Qed.

Lemma keyed_nonneg keys bs : 0 <= keyed keys bs.
Proof.
  induction keys as [|k keys IH]; [done|]. rewrite keyed_cons. pose proof (tally_bounds (k =.) bs). lia.
Qed.

Lemma tally_by_key keys bs : NoDup keys -> keyed keys bs = tally (.∈ keys) bs.
Proof.
  intros Hnd. induction Hnd as [|k keys Hk _ IH].
  - symmetry. apply tally_none. set_solver.
  - rewrite keyed_cons, IH. clear IH. induction bs as [|b bs IHb]; [done|].
    rewrite !tally_cons. repeat case_decide; set_solver by lia || lia.
Qed.

(** The [i]-th element of a sorted list, by what it bounds. *)
Lemma sorted_lookup_tally L i b :
  StronglySorted Z.le L -> L !! i = Some b ->
  Z.of_nat i < tally (fun x => x <= b) L /\ tally (fun x => x < b) L <= Z.of_nat i.
Proof.
  intros Hs Hi. pose proof (lookup_lt_Some _ _ _ Hi) as Hlt.
  rewrite <- (take_drop_middle L i b Hi) in Hs |- *.
  apply StronglySorted_app in Hs as (Hxy & _ & Hs). apply StronglySorted_inv in Hs as [_ Hall].
  rewrite !tally_app, !tally_cons. rewrite decide_True by lia. rewrite decide_False by lia. split.
  - rewrite (tally_all _ (take i L)) by (intros x Hx; apply Hxy; [done|left]).
    rewrite length_take. pose proof (tally_bounds (fun x => x <= b) (drop (S i) L)). lia.
  - rewrite (tally_none _ (drop (S i) L)).
    + pose proof (tally_bounds (fun x => x < b) (take i L)) as Hb. rewrite length_take in Hb. lia.
    + intros x Hx. rewrite Forall_forall in Hall. specialize (Hall x Hx). lia.
Qed.
