(* ===== verification/HistProps.v ===== *)
(** * The latency histogram: theorems

    A histogram stands for the multiset of buckets it has counted. Recording
    and merging act on that multiset, and a quantile is the value of the bucket
    of the observation of that rank. *)
From S2P Require Import Prelude Float64 Counters Hist.
Local Open Scope Z_scope.

(** A number of observations that fits an [int64] and a double exactly. *)
Definition few (bs : list Z) : Prop := Z.of_nat (length bs) <= 2 ^ 53.

Lemma hist_of_empty : hist_of [] ∅.
Proof. intros k. split; [done|]. rewrite lookup_empty, elem_of_nil. split; [by intros []|done]. Qed.

Lemma hist_of_perm bs bs' c : bs ≡ₚ bs' -> hist_of bs c -> hist_of bs' c.
Proof. intros Hp H k. destruct (H k) as [H1 H2]. split; [by rewrite <- (tally_perm _ bs)|by rewrite <- Hp]. Qed.

Lemma hist_of_ok bs c : few bs -> hist_of bs c -> counts_ok c.
Proof.
  intros Hf H k. rewrite (proj1 (H k)). pose proof (tally_bounds (k =.) bs).
  unfold few, Int64.in_range, Int64.min_val, Int64.max_val in *. lia.
Qed.

Lemma hist_of_bump bs c b :
  few (b :: bs) -> hist_of bs c -> hist_of (b :: bs) (bump c b 1).
Proof.
  intros Hf H k. destruct (H k) as [H1 H2]. split.
  - rewrite at_key_bump, tally_cons. destruct (decide (k = b)) as [->|]; [|by rewrite H1, Z.add_0_l].
    rewrite H1. pose proof (tally_bounds (b =.) bs). unfold Int64.add. rewrite Int64.wrap_id; [lia|].
    unfold few, Int64.in_range, Int64.min_val, Int64.max_val in *. simpl in Hf. lia.
  - rewrite bump_keys, elem_of_cons, H2. done.
Qed.

Lemma hist_of_merge bs bs' c c' kvs :
  few (bs ++ bs') -> hist_of bs c -> hist_of bs' c' -> ranges c' kvs ->
  hist_of (bs ++ bs') (fold_into c kvs).
Proof.
  unfold few. rewrite length_app. intros Hf H H' Hr k. destruct (H k) as [H1 H2], (H' k) as [H1' H2'].
  split.
  - rewrite (fold_into_ranges _ c') by (done || (eapply hist_of_ok; [|done]; unfold few; lia)).
    rewrite tally_app, H1, H1'. pose proof (tally_bounds (k =.) bs). pose proof (tally_bounds (k =.) bs').
    apply Int64.wrap_id. unfold Int64.in_range, Int64.min_val, Int64.max_val. lia.
  - rewrite fold_into_keys, elem_of_app, (ranges_keys _ _ _ Hr), H2, H2'. done.
Qed.

(** The multiset determines the map. *)
Lemma hist_of_unique bs c c' : hist_of bs c -> hist_of bs c' -> c = c'.
Proof.
  intros H H'. apply map_eq. intros k. destruct (H k) as [H1 H2], (H' k) as [H1' H2'].
  unfold at_key in *. destruct (c !! k) as [v|], (c' !! k) as [v'|]; simpl in *; try naive_solver congruence.
  - assert (k ∈ bs) by naive_solver. by destruct (proj2 H2').
  - assert (k ∈ bs) by naive_solver. by destruct (proj2 H2).
Qed.

Section quantile.
Context (bs : list Z) (c : gmap Z Z) (kvs : list (Z * Z)).
Context (Hfew : few bs) (Hc : hist_of bs c) (Hr : ranges c kvs).

Lemma kvs_NoDup : NoDup kvs.*1.
Proof. unfold ranges in Hr. rewrite Hr. apply NoDup_fst_map_to_list. Qed.

Lemma kvs_keys k : k ∈ kvs.*1 <-> k ∈ bs.
Proof. rewrite (ranges_keys c kvs k Hr). apply Hc. Qed.

Lemma kvs_value k v : (k, v) ∈ kvs -> v = tally (k =.) bs.
Proof.
  unfold ranges in Hr. rewrite Hr. intros Hin%elem_of_map_to_list. rewrite <- (proj1 (Hc k)).
  unfold at_key. by rewrite Hin.
Qed.

(** The loop's partial sums do not wrap: they count observations. *)
Lemma foldl_total l t :
  (forall kv, kv ∈ l -> kv.2 = tally (kv.1 =.) bs) -> 0 <= t -> t + keyed l.*1 bs <= 2 ^ 53 ->
  foldl (fun t kv => Int64.add t kv.2) t l = t + keyed l.*1 bs.
Proof.
  revert t. induction l as [|[k v] l IH]; intros t Hv Ht; [intros _; simpl; lia|].
  rewrite fmap_cons, keyed_cons. intros Hb. simpl in Hb |- *.
  pose proof (Hv (k, v) ltac:(left)) as Hkv. simpl in Hkv.
  pose proof (tally_bounds (k =.) bs). pose proof (keyed_nonneg l.*1 bs).
  replace (Int64.add t v) with (t + v).
  - subst v. rewrite IH; [lia|set_solver|lia|lia].
  - symmetry. apply Int64.wrap_id. unfold Int64.in_range, Int64.min_val, Int64.max_val. lia.
Qed.

Lemma total_ok :
  foldl (fun t kv => Int64.add t kv.2) 0 kvs = Z.of_nat (length bs).
Proof.
  assert (tally (.∈ kvs.*1) bs = Z.of_nat (length bs)) as Hall.
  { apply tally_all. intros b Hb. by apply kvs_keys. }
  pose proof (tally_by_key kvs.*1 bs kvs_NoDup) as Hsum. unfold few in Hfew.
  rewrite foldl_total; [lia| |done|lia]. intros [k v] Hin. by apply kvs_value.
Qed.

(** The scan stops at the first key that the rank does not exceed. *)
Lemma scan_rank_ok rank pre keys :
  NoDup (pre ++ keys) -> (forall k, k ∈ pre ++ keys <-> k ∈ bs) ->
  StronglySorted Z.le (pre ++ keys) ->
  tally (.∈ pre) bs < rank <= Z.of_nat (length bs) ->
  exists k, scan_rank c rank (tally (.∈ pre) bs) keys = Some k
  /\ k ∈ keys /\ tally (fun b => b < k) bs < rank <= tally (fun b => b <= k) bs.
Proof.
  revert pre. induction keys as [|k keys IH]; intros pre Hnd Hk Hs Hrank.
  - rewrite app_nil_r in Hk. rewrite tally_all in Hrank by (intros; by apply Hk). lia.
  - simpl. rewrite (proj1 (Hc k)).
    assert (tally (.∈ pre) bs + tally (k =.) bs = tally (.∈ pre ++ [k]) bs) as Hstep.
    { rewrite <- !tally_by_key.
      - rewrite keyed_app, keyed_cons. unfold keyed at 3. simpl. lia.
      - rewrite cons_middle, app_assoc in Hnd. by apply NoDup_app in Hnd as (? & _).
      - by apply NoDup_app in Hnd as (? & _). }
    assert (Int64.add (tally (.∈ pre) bs) (tally (k =.) bs) = tally (.∈ pre ++ [k]) bs) as ->.
    { unfold Int64.add. rewrite Hstep. apply Int64.wrap_id.
      pose proof (tally_bounds (.∈ pre ++ [k]) bs). unfold few in Hfew.
      unfold Int64.in_range, Int64.min_val, Int64.max_val. lia. }
    destruct (Z.leb_spec rank (tally (.∈ pre ++ [k]) bs)) as [Hle|Hgt].
    + exists k. split_and!; [done|left| |].
      * eapply Z.le_lt_trans; [|apply Hrank]. apply tally_mono. intros b Hb Hlt.
        apply Hk, elem_of_app in Hb as [Hb|Hb]; [done|exfalso].
        apply StronglySorted_app in Hs as (_ & _ & Hs). apply StronglySorted_inv in Hs as [_ Hall].
        rewrite Forall_forall in Hall. apply elem_of_cons in Hb as [->|Hb]; [lia|].
        specialize (Hall b Hb). lia.
      * etrans; [exact Hle|]. apply tally_mono. intros b Hb Hin.
        apply elem_of_app in Hin as [Hin|Hin]; [|set_solver by lia].
        apply StronglySorted_app in Hs as (Hxy & _ & _). apply (Hxy b k); [done|left].
    + rewrite cons_middle, app_assoc in Hnd, Hs. setoid_rewrite cons_middle in Hk.
      setoid_rewrite app_assoc in Hk.
      destruct (IH (pre ++ [k]) Hnd Hk Hs ltac:(lia)) as (k' & ? & ? & ?).
      exists k'. split_and!; [done|by right|lia|lia].
Qed.
End quantile.

(** The rank of a quantile is the position of an observation. *)
Lemma rank_of_bounds u n :
  0 < u <= F64.one_u -> F64.repr u -> 0 < n <= 2 ^ 53 -> 1 <= rank_of (F64.Fin false u) n <= n.
Proof.
  intros Hu Hrep Hn. unfold rank_of. rewrite F64.of_Z_exact by lia. pose proof F64.one_u_pos.
  assert (0 < n * F64.one_u) by (apply Z.mul_pos_pos; lia).
  destruct (F64.mul_between u (n * F64.one_u) u (n * F64.one_u)) as (w & -> & Hw & _).
  - done.
  - apply F64.repr_units. lia.
  - apply F64.units_lt_inf. lia.
  - split; [apply Z.mul_le_mono_nonneg_l; nia|rewrite Z.mul_comm; apply Z.mul_le_mono_nonneg_l; lia].
  - simpl F64.ceil. set (z := (w + F64.one_u - 1) / F64.one_u).
    assert (1 <= z <= n) as Hz.
    { split; [apply Z.div_le_lower_bound; lia|].
      assert (z < n + 1); [|lia]. apply Z.div_lt_upper_bound; lia. }
    rewrite F64.to_int64_units; [done|]. unfold Int64.max_val. lia.
Qed.

Section props.
Context `{!Math}.

Lemma quantile_scan bs c kvs u :
  few bs -> bs <> [] -> hist_of bs c -> ranges c kvs -> 0 < u <= F64.one_u -> F64.repr u ->
  exists b, Quantile c kvs (F64.Fin false u) = Some (bucketValue b)
  /\ b ∈ bs
  /\ tally (fun x => x < b) bs < rank_of (F64.Fin false u) (Z.of_nat (length bs))
     <= tally (fun x => x <= b) bs.
Proof.
  intros Hf Hne Hc Hr Hu Hrep. unfold Quantile.
  rewrite (total_ok bs c kvs Hf Hc Hr). unfold few in Hf.
  assert (0 < Z.of_nat (length bs)) as Hlen by (destruct bs; [done|simpl; lia]).
  rewrite (proj2 (Z.eqb_neq _ _)) by lia.
  pose proof (rank_of_bounds u (Z.of_nat (length bs)) Hu Hrep ltac:(lia)) as Hrank.
  pose proof (merge_sort_Permutation Z.le kvs.*1) as Hperm.
  destruct (scan_rank_ok bs c kvs Hf Hc Hr (rank_of (F64.Fin false u) (Z.of_nat (length bs)))
              [] (merge_sort Z.le kvs.*1)) as (b & Hscan & Hin & Hb); simpl.
  - rewrite Hperm. by apply (kvs_NoDup c).
  - intros k. rewrite Hperm. by apply (kvs_keys bs c).
  - apply StronglySorted_merge_sort; apply _.
  - rewrite tally_none by (intros; apply not_elem_of_nil). lia.
  - rewrite (tally_none (.∈ [])) in Hscan by (intros; apply not_elem_of_nil).
    exists b. rewrite Hscan. split_and!; [done| |lia|lia].
    apply (kvs_keys bs c kvs Hc Hr). by rewrite <- Hperm.
Qed.

(** ** Recording and shipping

    The bots record while the flusher takes deltas; the mutex makes each call a
    step, and any interleaving of them a list of steps. *)

Inductive hist_op := HRecord (ns : Z) | HTake.

(** The deltas a sequence of calls takes. *)
Fixpoint run_hist (ops : list hist_op) : M Hist (list (gmap Z Z)) :=
  match ops with
  | [] => mret []
  | HRecord ns :: ops' => Record_ns ns;; run_hist ops'
  | HTake :: ops' => d ← TakeDelta; ds ← run_hist ops'; mret (d :: ds)
  end.

Definition recorded (ops : list hist_op) : list Z :=
  omap (fun op => match op with HRecord ns => Some (bucketOf ns) | HTake => None end) ops.

(** What was in the histogram and what is recorded afterwards is split between
    the deltas and what is left. *)
Lemma run_hist_ok ops bs h :
  few (bs ++ recorded ops) -> hist_of bs h ->
  exists ds h', run_hist ops h = Ok (ds, h')
  /\ exists parts rest, Forall2 hist_of parts ds /\ hist_of rest h'
     /\ concat parts ++ rest ≡ₚ bs ++ recorded ops.
Proof.
  revert bs h. induction ops as [|[ns|] ops IH]; intros bs h Hf Hh.
  - exists [], h. split; [done|]. exists [], bs. split; [constructor|]. by rewrite app_nil_r.
  - simpl in Hf. destruct (IH (bucketOf ns :: bs) (bump h (bucketOf ns) 1)) as (ds & h' & Hrun & HH).
    + unfold few in *. rewrite length_app in *. simpl in *. lia.
    + apply hist_of_bump; [|done]. unfold few in *. rewrite length_app in *. simpl in *. lia.
    + exists ds, h'. split; [done|]. destruct HH as (parts & rest & H1 & H2 & H3).
      exists parts, rest. split_and!; [done|done|]. rewrite H3. simpl. by rewrite Permutation_middle.
  - simpl in Hf. destruct (IH [] ∅) as (ds & h' & Hrun & parts & rest & H1 & H2 & H3).
    + unfold few in *. rewrite length_app in *. simpl. lia.
    + apply hist_of_empty.
    + exists (h :: ds), h'. split.
      { simpl. etrans; [eapply bind_ok; reflexivity|]. etrans; [eapply bind_ok, Hrun|]. done. }
      exists (bs :: parts), rest. split_and!; [by constructor|done|]. simpl.
      by rewrite <- app_assoc, H3.
Qed.

(** The Go statement [for _, d := range ...: Merge(agg, d)]. *)
Definition merge_all (dst : gmap Z Z) (ds : list (list (Z * Z))) : gmap Z Z := foldl Merge dst ds.

Lemma merge_all_ok parts ds orders bs c :
  Forall2 hist_of parts ds -> Forall2 ranges ds orders ->
  few (bs ++ concat parts) -> hist_of bs c ->
  hist_of (bs ++ concat parts) (merge_all c orders).
Proof.
  intros Hp. revert orders bs c. induction Hp as [|p d parts ds Hd _ IH]; intros orders bs c Ho Hf Hc.
  - apply Forall2_nil_inv_l in Ho as ->. simpl. by rewrite app_nil_r.
  - apply Forall2_cons_inv_l in Ho as (kvs & orders' & Hr & Ho & ->). simpl.
    simpl in Hf. rewrite app_assoc in Hf |- *. apply IH; [done|done|].
    eapply hist_of_merge; [|done|done|done]. unfold few in *. rewrite !length_app in *. lia.
Qed.

Lemma merge_all_perm c l l' : l ≡ₚ l' -> merge_all c l = merge_all c l'.
Proof.
  intros Hp. revert c. induction Hp as [|x l l' _ IH|x y l|l l' l'' _ IH1 _ IH2]; intros c; simpl.
  - done.
  - apply IH.
  - f_equal. apply fold_into_comm.
  - by rewrite IH1.
Qed.

(** ** Claims *)

(** C31. The quantile of a histogram is the value of a recorded observation's
    bucket: of the [ceil(q * n)]-th smallest of the [n] buckets it counts. The
    rank is between 1 and [n], the order in which the map is ranged over does
    not matter, and nothing panics. *)
Theorem quantile_is_ranked_observation (bs : list Z) (c : gmap Z Z) (kvs : list (Z * Z)) (u : Z) :
  few bs -> bs <> [] -> hist_of bs c -> ranges c kvs ->
  0 < u <= F64.one_u -> F64.repr u ->
  let r := rank_of (F64.Fin false u) (Z.of_nat (length bs)) in
  1 <= r <= Z.of_nat (length bs)
  /\ exists b, merge_sort Z.le bs !! Z.to_nat (r - 1) = Some b
     /\ Quantile c kvs (F64.Fin false u) = Some (bucketValue b).
Proof.
  intros Hf Hne Hc Hr Hu Hrep r.
  assert (0 < Z.of_nat (length bs)) as Hlen by (destruct bs; [done|simpl; lia]).
  assert (1 <= r <= Z.of_nat (length bs)) as Hrank by (apply rank_of_bounds; unfold few in Hf; done || lia).
  split; [done|]. destruct (quantile_scan bs c kvs u) as (b & Hq & Hin & Hb1 & Hb2); [done..|].
  fold r in Hb1, Hb2. pose proof (merge_sort_Permutation Z.le bs) as Hperm.
  destruct (lookup_lt_is_Some_2 (merge_sort Z.le bs) (Z.to_nat (r - 1))) as [b' Hb'].
  { rewrite (Permutation_length Hperm). lia. }
  destruct (sorted_lookup_tally (merge_sort Z.le bs) (Z.to_nat (r - 1)) b') as [H1 H2];
    [apply StronglySorted_merge_sort; apply _|done|].
  rewrite (tally_perm _ _ _ Hperm) in H1. rewrite (tally_perm _ _ _ Hperm) in H2.
  exists b. split; [|done]. rewrite Hb'. f_equal. rewrite Z2Nat.id in H1, H2 by lia.
  destruct (Z.lt_trichotomy b b') as [Hlt|[Heq|Hgt]]; [exfalso|done|exfalso].
  - assert (tally (fun x => x <= b) bs <= tally (fun x => x < b') bs) by (apply tally_mono; lia). lia.
  - assert (tally (fun x => x <= b') bs <= tally (fun x => x < b) bs) by (apply tally_mono; lia). lia.
Qed.

(** Nothing recorded is lost or counted twice: whatever the interleaving
    of [Record] and [TakeDelta] calls on a fresh histogram, merging the deltas
    and what is left, in any order of arrival and any order of ranging over
    each, gives the histogram of exactly the recorded observations. *)
Theorem deltas_count_every_record (ops : list hist_op) (ds : list (gmap Z Z)) (h : Hist)
    (orders arrival : list (list (Z * Z))) :
  few (recorded ops) ->
  run_hist ops NewHist = Ok (ds, h) ->
  Forall2 ranges (ds ++ [h]) orders -> arrival ≡ₚ orders ->
  hist_of (recorded ops) (merge_all ∅ arrival).
Proof.
  intros Hf Hrun Ho Ha. rewrite (merge_all_perm _ _ _ Ha).
  destruct (run_hist_ok ops [] NewHist) as (ds' & h' & Hrun' & parts & rest & H1 & H2 & H3);
    [done|apply hist_of_empty|].
  rewrite Hrun in Hrun'. injection Hrun' as <- <-.
  assert (few ([] ++ concat (parts ++ [rest]))) as Hf'.
  { unfold few in *. rewrite concat_app. simpl. rewrite app_nil_r, H3. done. }
  pose proof (merge_all_ok (parts ++ [rest]) (ds ++ [h]) orders [] ∅) as Hm.
  eapply hist_of_perm; [|apply Hm; [|done|done|apply hist_of_empty]].
  - simpl. rewrite concat_app. simpl. by rewrite app_nil_r, H3.
  - apply Forall2_app; [done|]. by constructor.
Qed.
End props.

(** A [Math] whose results the witnesses can evaluate. *)
Definition toy_math : Math := {| Log := fun x => x; Log10 := fun x => x; Pow := fun _ y => y |}.

Definition demo_buckets : list Z := [3; 1; 7; 3; 3; 9; 1; 40; 7; 3].
Definition demo_hist : gmap Z Z := foldr (fun b c => bump c b 1) ∅ demo_buckets.

Lemma demo_hist_of : hist_of demo_buckets demo_hist.
Proof.
  unfold demo_hist, demo_buckets.
  repeat (apply hist_of_bump; [unfold few; simpl; lia|]). apply hist_of_empty.
Qed.

Lemma quantile_is_ranked_observation_witness :
  exists b, merge_sort Z.le demo_buckets !! 4%nat = Some b
  /\ Quantile (H := toy_math) demo_hist (map_to_list demo_hist) (F64.dec 5 1)
     = Some (bucketValue (H := toy_math) b).
Proof.
  destruct (quantile_is_ranked_observation (H := toy_math) demo_buckets demo_hist
              (map_to_list demo_hist) (2 ^ 1073)) as [_ Hq].
  - unfold few. simpl. lia.
  - done.
  - apply demo_hist_of.
  - unfold ranges. done.
  - done.
  - exists 1, 1073. done.
  - exact Hq.
Defined.

Definition demo_ops : list hist_op := [HRecord 500; HRecord 900000; HTake; HRecord 20; HTake; HRecord 7].

Definition demo_run : list (gmap Z Z) * Hist :=
  match run_hist (H := toy_math) demo_ops NewHist with Ok r => r | _ => ([], ∅) end.

Lemma deltas_count_every_record_witness :
  hist_of (recorded (H := toy_math) demo_ops)
          (merge_all ∅ (reverse (map_to_list <$> (demo_run.1 ++ [demo_run.2])))).
Proof.
  apply (deltas_count_every_record (H := toy_math) demo_ops demo_run.1 demo_run.2
           (map_to_list <$> (demo_run.1 ++ [demo_run.2]))).
  - unfold few. simpl. lia.
  - vm_compute. reflexivity.
  - apply Forall2_fmap_r, Forall_Forall2_diag, Forall_true. intros m. change (map_to_list m ≡ₚ map_to_list m). done.
  - apply reverse_Permutation.
Defined.
