(* ===== verification/HistAccuracy.v ===== *)
(** * How far a quantile can be from the observation it stands for

    The buckets of [src/internal/telemetry/hist.go] grow by 5 percent, and a
    quantile answers the geometric middle of a bucket. With a logarithm and a
    power that are accurate to about one part in 10^12, all roundings and
    truncations of the code included, a quantile is within 2.5 percent of the
    ranked latency. *)
From Stdlib Require Import Reals Lra.
From S2P Require Import Prelude Float64 FloatReal Counters Hist HistProps.
Local Open Scope R_scope.

Definition tol : R := / 1000000000000.

(** What is asked of [math.Log] and [math.Pow]. *)
Class MathAccuracy `{!Math} : Prop := {
  log_near x X : is_real x X -> 1 <= X <= 10000000000000 ->
    exists L, is_real (Log x) L /\ 0 <= L /\ Rabs (L - ln X) <= tol * ln X + / 1000000000000000;
  pow_near x y X Y : is_real x X -> is_real y Y -> 1 <= X <= 2 -> 0 <= Y <= 1000 ->
    exists P, is_real (Pow x y) P /\ Rabs (P - Rpower X Y) <= tol * Rpower X Y
}.

(** ** Logarithms and exponentials *)

(** The logarithm of the growth of a bucket. *)
Definition lambda : R := ln (105 / 100).

Lemma ln_upper x : 0 < x -> ln x <= x - 1.
Proof. intros Hx. pose proof (exp_ineq1_le (ln x)) as He. rewrite exp_ln in He by done. lra. Qed.

Lemma ln_lower x : 0 < x -> 1 - / x <= ln x.
Proof.
  intros Hx. pose proof (ln_upper (/ x) (Rinv_0_lt_compat _ Hx)) as Hu. rewrite ln_Rinv in Hu by done. lra.
Qed.

Lemma lambda_bounds : 47 / 1000 <= lambda <= 50 / 1000.
Proof.
  unfold lambda. pose proof (ln_upper (105 / 100) ltac:(lra)). pose proof (ln_lower (105 / 100) ltac:(lra)). lra.
Qed.

Lemma exp_lambda : exp lambda = 105 / 100.
Proof. unfold lambda. apply exp_ln. lra. Qed.

(** The square root of the growth. *)
Lemma half_growth : 10246 / 10000 <= exp (lambda / 2) <= 10247 / 10000.
Proof.
  pose proof (exp_pos (lambda / 2)) as Hp. assert (exp (lambda / 2) * exp (lambda / 2) = 105 / 100) as Hsq.
  { rewrite <- exp_plus. replace (lambda / 2 + lambda / 2) with lambda by lra. apply exp_lambda. }
  split; nra.
Qed.

Lemma exp_near t : Rabs t <= 1 / 1000 -> Rabs (exp t - 1) <= 2 * Rabs t.
Proof.
  intros Ht. pose proof (exp_ineq1_le t) as H1. pose proof (exp_ineq1_le (- t)) as H2.
  rewrite exp_Ropp in H2. pose proof (exp_pos t) as Hp. set (e := exp t) in *.
  assert (e * (1 - t) <= 1) as He.
  { apply (Rmult_le_compat_r e) in H2; [|lra]. rewrite Rinv_l in H2 by lra. lra. }
  revert Ht. unfold Rabs. destruct (Rcase_abs t), (Rcase_abs (e - 1)); intros Ht; nra.
Qed.

Lemma ln_near X V d : 0 < V -> 0 <= d <= 1 / 2 -> Rabs (X - V) <= d * V -> Rabs (ln X - ln V) <= 2 * d.
Proof.
  intros HV Hd Hx. apply Rabs_bounds in Hx.
  assert (0 < X) as HX by nra. assert (ln X - ln V = ln (X / V)) as ->.
  { unfold Rdiv. rewrite ln_mult, ln_Rinv; [lra|done|done|by apply Rinv_0_lt_compat]. }
  assert (1 - d <= X / V <= 1 + d) as Hr.
  { split; (apply (Rmult_le_reg_r V); [done|]); replace (X / V * V) with X by (field; lra); nra. }
  pose proof (ln_upper (X / V) ltac:(lra)). pose proof (ln_lower (X / V) ltac:(lra)) as Hl.
  assert (/ (X / V) <= 1 + 2 * d) as Hi.
  { apply (Rmult_le_reg_r (X / V)); [lra|]. rewrite Rinv_l by lra. nra. }
  apply Rabs_le. lra.
Qed.

Lemma exp_44 : 10000000000000 <= exp 44.
Proof.
  pose proof (exp_ineq1_le 1) as H1. replace (1 + 1) with 2 in H1 by lra.
  assert (forall x y c, 0 <= c -> c <= exp x -> y = x + x -> c * c <= exp y) as Hd.
  { intros x y c Hc Hx ->. rewrite exp_plus. apply Rmult_le_compat; lra. }
  pose proof (Hd 1 2 2 ltac:(lra) H1 ltac:(lra)) as H2. replace (2 * 2) with 4 in H2 by lra.
  pose proof (Hd 2 4 4 ltac:(lra) H2 ltac:(lra)) as H4. replace (4 * 4) with 16 in H4 by lra.
  pose proof (Hd 4 8 16 ltac:(lra) H4 ltac:(lra)) as H8. replace (16 * 16) with 256 in H8 by lra.
  pose proof (Hd 8 16 256 ltac:(lra) H8 ltac:(lra)) as H16. replace (256 * 256) with 65536 in H16 by lra.
  pose proof (Hd 16 32 65536 ltac:(lra) H16 ltac:(lra)) as H32. replace (65536 * 65536) with 4294967296 in H32 by lra.
  replace 44 with (32 + (8 + 4)) by lra. rewrite !exp_plus.
  assert (4096 <= exp 8 * exp 4) by nra. nra.
Qed.

Lemma ln_44 X : 1 <= X <= 10000000000000 -> 0 <= ln X <= 44.
Proof.
  intros HX. split.
  - rewrite <- ln_1. destruct (Rle_lt_or_eq_dec 1 X (proj1 HX)) as [Hlt| <-]; [|lra]. apply Rlt_le, ln_increasing; lra.
  - rewrite <- (ln_exp 44). pose proof exp_44. destruct (Rle_lt_or_eq_dec X (exp 44)) as [Hlt| <-]; [lra| |lra].
    apply Rlt_le, ln_increasing; lra.
Qed.

(** ** Buckets *)

Section buckets.
Context `{!Math, !MathAccuracy}.

(** The base of the buckets, as a double. *)
Lemma growth_real : exists G, is_real (F64.dec 105 2) G /\ 1 <= G <= 2 /\ Rabs (ln G - lambda) <= / 1000000000000000.
Proof.
  destruct (real_dec 105 2 ltac:(lia) ltac:(lia)) as (G & HG & _ & HE & H1). change (IZR (10 ^ 2)) with 100 in *. exists G.
  split; [done|]. assert (tiny <= / 10000000000000000) as Ht by (unfold tiny; lra).
  pose proof (Rabs_bounds _ _ HE). split; [split; [apply H1; lra|lra]|]. unfold lambda.
  etransitivity; [apply (ln_near G (105 / 100) (/ 4000000000000000)); [lra|lra|]|lra].
  etransitivity; [exact HE|]. lra.
Qed.

Lemma logGrowth_real : exists g, is_real logGrowth g /\ Rabs (g - lambda) <= / 10000000000000.
Proof.
  destruct growth_real as (G & HG & HB & HE). destruct (log_near _ G HG ltac:(lra)) as (g & Hg & _ & Herr).
  exists g. split; [done|]. pose proof lambda_bounds. pose proof (Rabs_bounds _ _ HE). pose proof (Rabs_bounds _ _ Herr).
  unfold tol in *. apply Rabs_le. lra.
Qed.

Lemma log_scaled v : (1000 <= v <= 2 ^ 53)%Z ->
  exists L, is_real (Log (F64.div (F64.of_Z v) (F64.of_Z minNs))) L /\ 0 <= L <= 45
  /\ Rabs (L - ln (IZR v / 1000)) <= / 10000000000.
Proof.
  intros Hv. set (V := IZR v / 1000). unfold minNs.
  assert (1 <= V <= 9007199254741) as HV.
  { destruct Hv as [H1 H2]. apply IZR_le in H1, H2. change (IZR (2 ^ 53)) with 9007199254740992 in H2. unfold V. lra. }
  destruct (real_div _ _ (IZR v) 1000 (real_of_Z v ltac:(lia)) (real_of_Z 1000 ltac:(lia))) as (X & HX & _ & HE & H1).
  { split; unfold V in HV; lra. }
  { lra. }
  fold V in HE, H1. specialize (H1 (proj1 HV)). pose proof (Rabs_bounds _ _ HE) as HB.
  assert (tiny <= / 10000000000000000) as Ht by (unfold tiny; lra).
  destruct (log_near _ X HX ltac:(lra)) as (L & HL & HL0 & Herr). exists L. split; [done|].
  pose proof (ln_44 X ltac:(lra)) as Hln. unfold tol in Herr. pose proof (Rabs_bounds _ _ Herr).
  split; [lra|].
  assert (Rabs (ln X - ln V) <= 2 * / 4000000000000000) as Hn.
  { apply ln_near; [lra|lra|]. etransitivity; [exact HE|]. lra. }
  pose proof (Rabs_bounds _ _ Hn). apply Rabs_le. lra.
Qed.

(** The slack of a bucket, in logarithms. *)
Definition sigma : R := / 1000000000.

(** What the bucket of a latency says of its logarithm. *)
Definition in_bucket (b : Z) (V : R) : Prop := (IZR b - 1) * lambda - sigma <= ln V <= IZR b * lambda + sigma.

Lemma bucketOf_large v : (1000 <= v <= 2 ^ 53)%Z -> (1 <= bucketOf v <= 1000)%Z /\ in_bucket (bucketOf v) (IZR v / 1000).
Proof.
  intros Hv. destruct (log_scaled v Hv) as (L & HL & HLb & HLe). destruct logGrowth_real as (g & Hg & Hge).
  pose proof lambda_bounds as Hlam. pose proof (Rabs_bounds _ _ HLe) as HL'. pose proof (Rabs_bounds _ _ Hge) as Hg'.
  destruct (real_div _ _ L g HL Hg) as (Q & HQ & HQ0 & HQe & _); [lra|lra|]. pose proof (Rabs_bounds _ _ HQe) as HQ'.
  assert (tiny <= / 10000000000000000) as Ht by (unfold tiny; lra). pose proof tiny_pos.
  set (q := L / g) in *. assert (q * g = L) as Hq by (unfold q; field; lra).
  assert (0 <= q <= 980) as Hqb by (split; nra).
  pose proof (real_to_int64 _ Q HQ ltac:(lra)) as Hfl. unfold bucketOf. rewrite (proj2 (Z.ltb_ge v minNs)) by (unfold minNs; lia).
  set (k := F64.to_int64 _) in *.
  assert (0 <= k <= 981)%Z as Hk.
  { split; [|apply le_IZR; lra]. assert (-1 < k)%Z; [|lia]. apply lt_IZR. lra. }
  assert (Int64.add k 1 = k + 1)%Z as -> by (apply Int64.wrap_id; unfold Int64.in_range, Int64.min_val, Int64.max_val; lia).
  split; [lia|]. unfold in_bucket, sigma. rewrite plus_IZR.
  assert (- / 2000000000 <= Q * lambda - ln (IZR v / 1000) <= / 2000000000) as Hy.
  { assert (- / 4000000000 <= q * lambda - L <= / 4000000000) by (rewrite <- Hq; nra).
    assert (- / 10000000000 <= (Q - q) * lambda <= / 10000000000) by nra. lra. }
  split; nra.
Qed.

Lemma bucketOf_small v : (v < 1000)%Z -> bucketOf v = 0%Z.
Proof. intros Hv. unfold bucketOf. by rewrite (proj2 (Z.ltb_lt v minNs)) by (unfold minNs; lia). Qed.

(** The middle of a bucket, in microseconds. *)
Definition middle (b : Z) : R := exp ((IZR b - 1 / 2) * lambda).

Lemma pow_middle b : (1 <= b <= 1000)%Z ->
  exists P, is_real (Pow (F64.dec 105 2) (F64.sub (F64.of_Z b) (F64.dec 5 1))) P
  /\ Rabs (P - middle b) <= middle b / 100000000000.
Proof.
  intros Hb. destruct growth_real as (G & HG & HGb & HGe). pose proof (Rabs_bounds _ _ HGe) as HG'.
  destruct (real_dec 5 1 ltac:(lia) ltac:(lia)) as (h & Hh & _ & Hhe & _). change (IZR (10 ^ 1)) with 10 in Hhe.
  pose proof (Rabs_bounds _ _ Hhe) as Hh'. assert (tiny <= / 10000000000000000) as Ht by (unfold tiny; lra).
  assert (1 <= IZR b <= 1000) as Hbr by (destruct Hb as [H1 H2]; apply IZR_le in H1, H2; lra).
  destruct (real_sub _ _ (IZR b) h (real_of_Z b ltac:(lia)) Hh) as (s & Hs & Hs0 & Hse & _); [lra|lra|].
  pose proof (Rabs_bounds _ _ Hse) as Hs'.
  destruct (pow_near _ _ G s HG Hs HGb ltac:(lra)) as (P & HP & HPe). exists P. split; [done|].
  unfold middle. set (m := (IZR b - 1 / 2) * lambda). pose proof lambda_bounds.
  assert (Rpower G s = exp m * exp (s * ln G - m)) as HR by (rewrite <- exp_plus; unfold Rpower; f_equal; lra).
  assert (Rabs (s * ln G - m) <= / 800000000000) as Hexp.
  { apply Rabs_le. unfold m. assert (- / 5000000000000 <= s - (IZR b - 1 / 2) <= / 5000000000000) by lra.
    replace (s * ln G - (IZR b - 1 / 2) * lambda) with (s * (ln G - lambda) + (s - (IZR b - 1 / 2)) * lambda) by lra.
    assert (- / 999000000000 <= s * (ln G - lambda) <= / 999000000000) by nra. nra. }
  pose proof (exp_near (s * ln G - m) ltac:(lra)) as Hen. pose proof (Rabs_bounds _ _ Hen) as Hen'.
  pose proof (Rabs_bounds _ _ HPe) as HPb. rewrite HR in HPb. unfold tol in HPb.
  pose proof (exp_pos m) as Hm. set (e := exp (s * ln G - m)) in *. set (M := exp m) in *.
  assert (- / 300000000000 <= e - 1 <= / 300000000000) as He by lra. clear HR Hen HPe Hexp Hen'.
  assert (- (M / 300000000000) <= M * e - M <= M / 300000000000) by nra. apply Rabs_le. nra.
Qed.

Lemma bucketValue_near b : (1 <= b <= 1000)%Z -> middle b <= 100000000000000 ->
  1000 * middle b * (1 - / 10000000000) - 1 < IZR (bucketValue b) <= 1000 * middle b * (1 + / 10000000000).
Proof.
  intros Hb HM. destruct (pow_middle b Hb) as (P & HP & HPe). pose proof (Rabs_bounds _ _ HPe) as HP'.
  pose proof (exp_pos ((IZR b - 1 / 2) * lambda)) as Hm. fold (middle b) in Hm.
  destruct (real_mul _ _ 1000 P (real_of_Z 1000 ltac:(lia)) HP) as (Q & HQ & HQ0 & HQe & _); [lra|lra|].
  pose proof (Rabs_bounds _ _ HQe) as HQ'. assert (tiny <= / 100000000000000000) as Ht by (unfold tiny; lra).
  pose proof (real_to_int64 _ Q HQ ltac:(lra)) as Hfl. unfold bucketValue. rewrite (proj2 (Z.leb_gt b 0)) by lia.
  unfold minNs. assert (1 / 1000 <= middle b); [|lra].
  unfold middle. pose proof (exp_ineq1_le ((IZR b - 1 / 2) * lambda)). pose proof lambda_bounds.
  destruct Hb as [Hb1 _]. apply IZR_le in Hb1. nra.
Qed.

Lemma bucketValue_first : bucketValue 0 = 1000%Z.
Proof. done. Qed.

(** ** A bucket stands for the latencies in it *)

(** The middle of the bucket against a latency whose logarithm is in it. *)
Lemma middle_near b V : 0 < V -> in_bucket b V ->
  middle b <= V * (10247001 / 10000000) /\ V <= middle b * (10247001 / 10000000).
Proof.
  intros HV [Hlo Hhi]. pose proof half_growth as Hhalf. pose proof (exp_pos (lambda / 2)).
  pose proof (exp_near sigma) as Hs. rewrite Rabs_pos_eq in Hs by (unfold sigma; lra).
  specialize (Hs ltac:(unfold sigma; lra)). apply Rabs_bounds in Hs. pose proof (exp_pos sigma) as Hsp.
  assert (forall x y, x <= y + lambda / 2 + sigma -> exp x <= exp y * (10247001 / 10000000)) as Hmono.
  { intros x y Hxy. transitivity (exp (y + lambda / 2 + sigma)).
    - destruct (Rle_lt_or_eq_dec _ _ Hxy) as [Hlt| ->]; [apply Rlt_le, exp_increasing, Hlt|lra].
    - rewrite !exp_plus, Rmult_assoc. apply Rmult_le_compat_l; [apply Rlt_le, exp_pos|]. unfold sigma in *. nra. }
  rewrite <- (exp_ln V) by done. unfold middle. split; apply Hmono; lra.
Qed.

Lemma exp_3 x : exp (3 * lambda - sigma) <= exp x -> 1157624 / 1000000 <= exp x.
Proof.
  intros Hx. etransitivity; [|exact Hx]. replace (3 * lambda - sigma) with (lambda + (lambda + (lambda + - sigma))) by lra.
  rewrite !exp_plus, exp_lambda, exp_Ropp. pose proof (exp_near sigma) as Hs. rewrite Rabs_pos_eq in Hs by (unfold sigma; lra).
  specialize (Hs ltac:(unfold sigma; lra)). apply Rabs_bounds in Hs. pose proof (exp_pos sigma) as Hp. unfold sigma in *.
  set (e := exp (/ 1000000000)) in *. assert (1 - / 100000000 <= / e); [|nra].
  apply (Rmult_le_reg_r e); [done|]. rewrite Rinv_l by lra. nra.
Qed.

(** The first three buckets, where dropping the nanoseconds counts. *)
Lemma small_buckets b v : (1 <= b <= 3)%Z -> (1000 <= v)%Z -> in_bucket b (IZR v / 1000) -> (975 * v <= 1000 * bucketValue b)%Z.
Proof.
  intros Hb Hv [_ Hhi]. pose proof half_growth as Hhalf. apply IZR_le in Hv. pose proof lambda_bounds as Hlam.
  pose proof (exp_near sigma) as Hs. rewrite Rabs_pos_eq in Hs by (unfold sigma; lra).
  specialize (Hs ltac:(unfold sigma; lra)). apply Rabs_bounds in Hs. unfold sigma in *.
  assert (IZR v / 1000 <= exp (IZR b * lambda + / 1000000000)) as HV.
  { rewrite <- (exp_ln (IZR v / 1000)) by lra. destruct (Rle_lt_or_eq_dec _ _ Hhi) as [Hlt| ->]; [apply Rlt_le, exp_increasing, Hlt|lra]. }
  assert (forall c t e, IZR b * lambda = c -> exp c = t -> middle b = t / (105 / 100) * exp (lambda / 2) -> 1 <= t <= 2 ->
    (1000 * (t / (105 / 100) * (10246 / 10000)) * (1 - / 10000000000) - 1 >= IZR e) -> 1000 * (t * (1 + / 100000000)) < IZR (e + 1) * (1000 / 975) ->
    (975 * v <= 1000 * bucketValue b)%Z) as Hcase.
  { intros c t e Hc Ht Hm Htb Hlow Hup. rewrite exp_plus, Hc, Ht in HV.
    assert (middle b <= 100000000000000) as Hmb by (rewrite Hm; nra).
    pose proof (bucketValue_near b ltac:(lia) Hmb) as [Hx _].
    assert (t / (105 / 100) * (10246 / 10000) <= middle b) by (rewrite Hm; apply Rmult_le_compat_l; lra).
    assert (e < bucketValue b)%Z as Hxz by (apply lt_IZR; nra).
    assert (IZR v * 975 < IZR ((e + 1) * 1000)) as Hvz by (rewrite mult_IZR; nra).
    rewrite <- mult_IZR in Hvz. apply lt_IZR in Hvz. lia. }
  assert (exp (2 * lambda) = 11025 / 10000) as E2.
  { replace (2 * lambda) with (lambda + lambda) by lra. rewrite exp_plus, exp_lambda. lra. }
  assert (exp (3 * lambda) = 1157625 / 1000000) as E3.
  { replace (3 * lambda) with (2 * lambda + lambda) by lra. rewrite exp_plus, E2, exp_lambda. lra. }
  assert (b = 1 \/ b = 2 \/ b = 3)%Z as [->|[->| ->]] by lia.
  - apply (Hcase lambda (105 / 100) 1023%Z); [lra|apply exp_lambda| |lra|lra|rewrite plus_IZR; lra].
    unfold middle. replace ((1 - 1 / 2) * lambda) with (lambda / 2) by lra. lra.
  - apply (Hcase (2 * lambda) (11025 / 10000) 1074%Z); [lra|exact E2| |lra|lra|rewrite plus_IZR; lra].
    unfold middle. replace ((2 - 1 / 2) * lambda) with (lambda + lambda / 2) by lra. rewrite exp_plus, exp_lambda. lra.
  - apply (Hcase (3 * lambda) (1157625 / 1000000) 1128%Z); [lra|exact E3| |lra|lra|rewrite plus_IZR; lra].
    unfold middle. replace ((3 - 1 / 2) * lambda) with (2 * lambda + lambda / 2) by lra. rewrite exp_plus, E2. lra.
Qed.

(** The value of a bucket is within 2.5 percent of every latency that is in it. *)
Lemma bucket_within b v : (1 <= b <= 1000)%Z -> (1000 <= v <= 2 ^ 53)%Z -> in_bucket b (IZR v / 1000) ->
  (1000 * Z.abs (bucketValue b - v) <= 25 * v)%Z.
Proof.
  intros Hb Hv Hin. assert (1000 <= IZR v <= 9007199254740992) as Hvr.
  { destruct Hv as [H1 H2]. apply IZR_le in H1, H2. change (IZR (2 ^ 53)) with 9007199254740992 in H2. lra. }
  destruct (middle_near b (IZR v / 1000) ltac:(lra) Hin) as [Hup Hlow].
  destruct (bucketValue_near b Hb ltac:(lra)) as [Hx1 Hx2].
  assert (1000 * bucketValue b <= 1025 * v)%Z as Hu by (apply le_IZR; rewrite !mult_IZR; nra).
  assert (975 * v <= 1000 * bucketValue b)%Z as Hl; [|lia].
  destruct (decide (b <= 3)%Z) as [Hs|Hs]; [apply small_buckets; [lia|lia|done]|].
  assert (1157624 / 1000000 <= IZR v / 1000) as Hv3.
  { rewrite <- (exp_ln (IZR v / 1000)) by lra. apply exp_3. pose proof lambda_bounds as Hlam.
    assert (4 <= b)%Z as Hb4 by lia. apply IZR_le in Hb4. destruct Hin as [Hin _].
    assert (3 * lambda - sigma <= ln (IZR v / 1000)) as Hle by nra.
    destruct (Rle_lt_or_eq_dec _ _ Hle) as [Hlt| ->]; [apply Rlt_le, exp_increasing, Hlt|lra]. }
  apply le_IZR. rewrite !mult_IZR. nra.
Qed.

(** ** Ranks *)

Lemma tally_map (P : Z -> Prop) `{!forall x, Decision (P x)} vs :
  tally P (map bucketOf vs) = tally (fun v => P (bucketOf v)) vs.
Proof.
  induction vs as [|v vs IH]; [done|]. simpl. rewrite !tally_cons, IH. done.
Qed.

(** The ranked latency lies between one that is not below the bucket of that
    rank and one that is not above it. *)
Lemma ranked_between vs i v b :
  merge_sort Z.le vs !! i = Some v ->
  (tally (fun x => x < b)%Z (map bucketOf vs) <= Z.of_nat i < tally (fun x => x <= b)%Z (map bucketOf vs))%Z ->
  (exists w, w ∈ vs /\ v <= w /\ bucketOf w <= b)%Z /\ (exists w, w ∈ vs /\ w <= v /\ b <= bucketOf w)%Z.
Proof.
  intros Hv Hb. rewrite !tally_map in Hb. pose proof (merge_sort_Permutation Z.le vs) as Hperm.
  destruct (sorted_lookup_tally (merge_sort Z.le vs) i v) as [Hle Hlt]; [apply StronglySorted_merge_sort; apply _|done|].
  rewrite (tally_perm _ _ _ Hperm) in Hle. rewrite (tally_perm _ _ _ Hperm) in Hlt. split.
  - destruct (decide (Exists (fun w => v <= w /\ bucketOf w <= b)%Z vs)) as [He|Hn]; [apply Exists_exists in He as (w & Hw & ? & ?); by exists w|exfalso].
    apply Forall_Exists_neg in Hn. rewrite Forall_forall in Hn.
    assert (tally (fun w => bucketOf w <= b)%Z vs <= tally (fun w => w < v)%Z vs)%Z; [|lia].
    apply tally_mono. intros w Hw Hbw. specialize (Hn w Hw). lia.
  - destruct (decide (Exists (fun w => w <= v /\ b <= bucketOf w)%Z vs)) as [He|Hn]; [apply Exists_exists in He as (w & Hw & ? & ?); by exists w|exfalso].
    apply Forall_Exists_neg in Hn. rewrite Forall_forall in Hn.
    assert (tally (fun w => w <= v)%Z vs <= tally (fun w => bucketOf w < b)%Z vs)%Z; [|lia].
    apply tally_mono. intros w Hw Hbw. specialize (Hn w Hw). lia.
Qed.

Lemma ln_mono v w : (1000 <= v <= w)%Z -> ln (IZR v / 1000) <= ln (IZR w / 1000).
Proof.
  intros [H1 H2]. apply IZR_le in H1. apply IZR_le in H2. destruct (Rle_lt_or_eq_dec _ _ H2) as [Hlt| ->]; [|lra].
  apply Rlt_le, ln_increasing; lra.
Qed.

(** Every bucket is that of a latency below or above a microsecond. *)
Lemma bucketOf_cases w : (w <= 2 ^ 53)%Z ->
  (w < 1000 /\ bucketOf w = 0)%Z \/ (1000 <= w /\ 1 <= bucketOf w <= 1000)%Z /\ in_bucket (bucketOf w) (IZR w / 1000).
Proof.
  intros Hw. destruct (decide (w < 1000)%Z) as [Hs|Hs]; [left; split; [done|by apply bucketOf_small]|].
  right. destruct (bucketOf_large w ltac:(lia)). split; [split; lia|done].
Qed.

Lemma ranked_value vs i v b :
  Forall (fun w => w <= 2 ^ 53)%Z vs -> merge_sort Z.le vs !! i = Some v -> b ∈ map bucketOf vs ->
  (tally (fun x => x < b)%Z (map bucketOf vs) <= Z.of_nat i < tally (fun x => x <= b)%Z (map bucketOf vs))%Z ->
  (v < 1000 /\ bucketValue b = 1000 \/ 1000 <= v /\ 1000 * Z.abs (bucketValue b - v) <= 25 * v)%Z.
Proof.
  intros Hvs Hv Hb Htally. rewrite Forall_forall in Hvs.
  destruct (ranked_between vs i v b Hv Htally) as ((w1 & Hw1 & Hle1 & Hb1) & (w2 & Hw2 & Hle2 & Hb2)).
  apply list_elem_of_fmap in Hb as (w & -> & Hw).
  assert (v ∈ vs) as Hin by (rewrite <- (merge_sort_Permutation Z.le vs); by eapply list_elem_of_lookup_2).
  destruct (bucketOf_cases w1 (Hvs w1 Hw1)) as [[Hs1 E1]|[[Hl1 B1] I1]].
  - left. split; [lia|]. destruct (bucketOf_cases w2 (Hvs w2 Hw2)) as [[Hs2 E2]|[[Hl2 B2] I2]]; [|lia].
    destruct (bucketOf_cases w (Hvs w Hw)) as [[Hs E]|[[Hl B] I]]; [by rewrite E|lia].
  - destruct (bucketOf_cases w2 (Hvs w2 Hw2)) as [[Hs2 E2]|[[Hl2 B2] I2]].
    { destruct (bucketOf_cases w (Hvs w Hw)) as [[Hs E]|[[Hl B] I]]; lia. }
    right. split; [lia|]. destruct (bucketOf_cases w (Hvs w Hw)) as [[Hs E]|[[Hl B] I]]; [lia|].
    apply bucket_within; [done|split; [lia|by apply Hvs]|].
    pose proof (ln_mono v w1 ltac:(lia)). pose proof (ln_mono w2 v ltac:(lia)). pose proof lambda_bounds.
    apply IZR_le in Hb1, Hb2. destruct I1 as [_ I1], I2 as [I2 _]. unfold in_bucket. split; nra.
Qed.

(** C12. The accuracy of a quantile. With a logarithm and a power that are
    accurate to about one part in 10^12, and with all roundings to doubles and to
    nanoseconds: of any latencies up to 2^53 ns, the quantile the histogram
    answers is within 2.5 percent of the latency of that rank, as long as this
    is a microsecond or more; below, the answer is one microsecond. *)
Theorem quantile_within_2_5_percent (vs : list Z) (c : gmap Z Z) (kvs : list (Z * Z)) (u : Z) :
  few vs -> vs <> [] -> Forall (fun v => v <= 2 ^ 53)%Z vs ->
  hist_of (map bucketOf vs) c -> ranges c kvs -> (0 < u <= F64.one_u)%Z -> F64.repr u ->
  exists v x, merge_sort Z.le vs !! Z.to_nat (rank_of (F64.Fin false u) (Z.of_nat (length vs)) - 1) = Some v
  /\ Quantile c kvs (F64.Fin false u) = Some x
  /\ (v < 1000 /\ x = 1000 \/ 1000 <= v /\ 1000 * Z.abs (x - v) <= 25 * v)%Z.
Proof.
  intros Hf Hne Hvs Hc Hr Hu Hrep. assert (length (map bucketOf vs) = length vs) as Hlen by apply length_map.
  assert (0 < Z.of_nat (length vs) <= 2 ^ 53)%Z as Hn by (unfold few in Hf; destruct vs; [done|simpl in *; lia]).
  pose proof (rank_of_bounds u (Z.of_nat (length vs)) Hu Hrep Hn) as Hrank.
  destruct (quantile_scan (map bucketOf vs) c kvs u) as (b & Hq & Hb & Htally); try done.
  { unfold few in *. by rewrite Hlen. }
  { by destruct vs. }
  rewrite Hlen in Htally. set (r := rank_of _ _) in *.
  destruct (lookup_lt_is_Some_2 (merge_sort Z.le vs) (Z.to_nat (r - 1))) as [v Hv].
  { rewrite merge_sort_Permutation. lia. }
  exists v, (bucketValue b). split_and!; [done|done|]. apply (ranked_value vs (Z.to_nat (r - 1)) v b Hvs Hv Hb). lia.
Qed.
End buckets.

(** ** Witness: the exact functions, cut to a unit *)

Definition of_R (r : R) : F64.t := F64.Fin false (Int_part (r * unit_R)).
Definition value_R (x : F64.t) : R := match x with F64.Fin s u => IZR (F64.units s u) / unit_R | _ => 0 end.

Lemma is_real_value x X : is_real x X -> value_R x = X.
Proof. by intros (z & (s & u & -> & _ & <-) & ->). Qed.

Lemma of_R_near r : 0 <= r -> exists X, is_real (of_R r) X /\ 0 <= X /\ Rabs (X - r) <= / 1000000000000000000000000000000.
Proof.
  intros Hr. pose proof unit_R_large as Hu. exists (IZR (Int_part (r * unit_R)) / unit_R).
  destruct (base_Int_part (r * unit_R)) as [H1 H2]. set (z := Int_part (r * unit_R)) in *.
  assert (0 <= r * unit_R) by (apply Rmult_le_pos; lra).
  assert (0 <= z)%Z as Hz by (assert (-1 < z)%Z; [apply lt_IZR; lra|lia]).
  assert (0 < / unit_R) by (apply Rinv_0_lt_compat; lra). split; [|split].
  - exists z. split; [by apply F64.num_Fin|done].
  - apply IZR_le in Hz. apply Rmult_le_pos; lra.
  - apply (Rmult_le_reg_r unit_R); [lra|]. rewrite <- (Rabs_pos_eq unit_R) at 2 by lra. rewrite <- Rabs_mult.
    replace ((IZR z / unit_R - r) * unit_R) with (IZR z - r * unit_R) by (field; lra).
    transitivity 1; [apply Rabs_le; lra|lra].
Qed.

Definition exact_math : Math := {|
  Log := fun x => of_R (Rmax 0 (ln (value_R x)));
  Log10 := fun x => F64.zero;
  Pow := fun x y => of_R (Rpower (value_R x) (value_R y))
|}.

Lemma exact_accuracy : MathAccuracy (H := exact_math).
Proof.
  split.
  - intros x X Hx HX. simpl. rewrite (is_real_value x X Hx). destruct (ln_44 X HX) as [Hln _].
    rewrite Rmax_right by done. destruct (of_R_near (ln X) Hln) as (L & HL & H0 & He). exists L. split_and!; [done|done|].
    unfold tol. lra.
  - intros x y X Y Hx Hy HX HY. simpl. rewrite (is_real_value x X Hx), (is_real_value y Y Hy).
    assert (1 <= Rpower X Y) as HP.
    { unfold Rpower. pose proof (exp_ineq1_le (Y * ln X)) as He. destruct (ln_44 X ltac:(lra)) as [Hln _]. nra. }
    destruct (of_R_near (Rpower X Y) ltac:(lra)) as (P & Hr & _ & He). exists P. split; [done|]. unfold tol. lra.
Qed.

Definition demo_latencies : list Z := [1500; 90000; 700]%Z.
Definition demo_counts : gmap Z Z := foldr (fun v c => bump c (bucketOf (H := exact_math) v) 1) ∅ demo_latencies.

Lemma quantile_within_2_5_percent_witness :
  exists v x, merge_sort Z.le demo_latencies !! Z.to_nat (rank_of (F64.Fin false (2 ^ 1073)) 3 - 1) = Some v
  /\ Quantile (H := exact_math) demo_counts (map_to_list demo_counts) (F64.Fin false (2 ^ 1073)) = Some x
  /\ (v < 1000 /\ x = 1000 \/ 1000 <= v /\ 1000 * Z.abs (x - v) <= 25 * v)%Z.
Proof.
  apply (quantile_within_2_5_percent (H := exact_math) (H0 := exact_accuracy) demo_latencies).
  - unfold few. simpl. lia.
  - discriminate.
  - unfold demo_latencies. repeat constructor; lia.
  - unfold demo_counts, demo_latencies. repeat (apply hist_of_bump; [unfold few; simpl; lia|]). apply hist_of_empty.
  - unfold ranges. done.
  - done.
  - exists 1%Z, 1073%Z. done.
Defined.
