(* ===== verification/Score.v ===== *)
(** * The composite score: [src/internal/score/score.go]

    [Composite] in doubles, and what the leaderboard relies on: it is always
    between 0 and 100, a better result never scores less, and a perfect result
    scores exactly 100, all after rounding. *)
From S2P Require Import Prelude Float64.
Local Open Scope Z_scope.

Section score.
Context `{!Math}.

Definition latFullNs : F64.t := F64.of_Z 1000000.
Definition latZeroNs : F64.t := F64.of_Z 1000000000.
Definition tpsFull : F64.t := F64.of_Z 50000.

Definition clamp (x : F64.t) : F64.t := F64.max (F64.of_Z 0) (F64.min (F64.of_Z 1) x).

Definition Composite (p99Ns : Z) (tps liveCorrectness conformance : F64.t) : F64.t :=
  let lat := clamp (F64.div
    (F64.sub (Log10 latZeroNs) (Log10 (F64.max (F64.of_Z p99Ns) (F64.of_Z 1))))
    (F64.sub (Log10 latZeroNs) (Log10 latFullNs))) in
  let thr := clamp (F64.div (Log10 (F64.max tps (F64.of_Z 1))) (Log10 tpsFull)) in
  let cor := clamp (F64.add (F64.mul (F64.dec 5 1) liveCorrectness)
                            (F64.mul (F64.dec 5 1) conformance)) in
  F64.mul (F64.of_Z 100)
    (F64.add (F64.add (F64.mul (F64.dec 35 2) lat) (F64.mul (F64.dec 35 2) thr))
             (F64.mul (F64.dec 30 2) cor)).
End score.

(** What the score needs of [math.Log10]: on numbers from 1 up it returns a
    number of at most 1000, it never decreases, and its value at 1e9 is at
    least 1 above its value at 1e6, its value at 50000 at least 1. *)
Class Log10Laws `{!Math} : Prop := {
  log10_num x z : F64.num x z -> F64.one_u <= z ->
    exists l, F64.num (Log10 x) l /\ 0 <= l <= 1000 * F64.one_u;
  log10_mono x y z z' l l' :
    F64.num x z -> F64.num y z' -> F64.one_u <= z <= z' ->
    F64.num (Log10 x) l -> F64.num (Log10 y) l' -> l <= l';
  log10_decades l l' :
    F64.num (Log10 latFullNs) l -> F64.num (Log10 latZeroNs) l' -> l + F64.one_u <= l';
  log10_tps l : F64.num (Log10 tpsFull) l -> F64.one_u <= l
}.

(** The weighted sum of the three components. *)
Definition weighted (lat thr cor : F64.t) : F64.t :=
  F64.mul (F64.of_Z 100)
    (F64.add (F64.add (F64.mul (F64.dec 35 2) lat) (F64.mul (F64.dec 35 2) thr))
             (F64.mul (F64.dec 30 2) cor)).

(** ** The score in units *)

Definition clamp_u (z : Z) : Z := Z.max 0 (Z.min F64.one_u z).

Lemma clamp_u_range z : 0 <= clamp_u z <= F64.one_u.
Proof. unfold clamp_u. pose proof F64.one_u_pos. lia. Qed.

Lemma clamp_u_mono z z' : z <= z' -> clamp_u z <= clamp_u z'.
Proof. unfold clamp_u. lia. Qed.

Lemma clamp_u_full z : F64.one_u <= z -> clamp_u z = F64.one_u.
Proof. unfold clamp_u. pose proof F64.one_u_pos. lia. Qed.

Lemma clamp_num x z : F64.num x z -> F64.num (clamp x) (clamp_u z).
Proof.
  intros Hx. unfold clamp, clamp_u. apply F64.max_num; [|apply F64.min_num; [|done]].
  - exact (F64.of_Z_num_exact 0 ltac:(lia)).
  - exact (F64.of_Z_num_exact 1 ltac:(lia)).
Qed.

(** The weights 0.35 and 0.30, and one half. *)
Definition w35 : Z := F64.rne (35 * F64.one_u) 100.
Definition w30 : Z := F64.rne (30 * F64.one_u) 100.
Definition half : Z := F64.rne (5 * F64.one_u) 10.

Definition weigh (w z : Z) : Z := F64.srne (w * z) F64.one_u.

(** The weighted sum of the three components. *)
Definition total_u (lat thr cor : Z) : Z :=
  F64.srne (100 * F64.one_u
            * F64.srne (F64.srne (weigh w35 lat + weigh w35 thr) 1 + weigh w30 cor) 1) F64.one_u.

Lemma weight_nonneg n k : 0 <= n -> 0 < k -> 0 <= F64.rne (n * F64.one_u) k.
Proof. intros. apply F64.rne_nonneg; [|done]. pose proof F64.one_u_pos. apply Z.mul_nonneg_nonneg; lia. Qed.

Lemma w35_nonneg : 0 <= w35.
Proof. by apply weight_nonneg. Qed.
Lemma w30_nonneg : 0 <= w30.
Proof. by apply weight_nonneg. Qed.
Lemma half_nonneg : 0 <= half.
Proof. by apply weight_nonneg. Qed.

Lemma weigh_mono w z z' : 0 <= w -> z <= z' -> weigh w z <= weigh w z'.
Proof. intros. apply F64.srne_mono; [by apply Z.mul_le_mono_nonneg_l|apply F64.one_u_pos]. Qed.

Lemma weigh_nonneg w z : 0 <= w -> 0 <= z -> 0 <= weigh w z.
Proof. intros. apply F64.srne_nonneg; [by apply Z.mul_nonneg_nonneg|apply F64.one_u_pos]. Qed.

Lemma total_u_mono lat lat' thr thr' cor cor' :
  lat <= lat' -> thr <= thr' -> cor <= cor' -> total_u lat thr cor <= total_u lat' thr' cor'.
Proof.
  intros. pose proof F64.one_u_pos. pose proof w35_nonneg. pose proof w30_nonneg. unfold total_u.
  apply F64.srne_mono; [|done]. apply Z.mul_le_mono_nonneg_l; [lia|].
  apply F64.srne_mono; [|lia]. apply Z.add_le_mono; [|apply weigh_mono; assumption].
  apply F64.srne_mono; [|lia]. apply Z.add_le_mono; apply weigh_mono; assumption.
Qed.

Lemma total_u_full : total_u F64.one_u F64.one_u F64.one_u = 100 * F64.one_u.
Proof. vm_compute. reflexivity. Qed.

Lemma total_u_none : total_u 0 0 0 = 0.
Proof. vm_compute. reflexivity. Qed.

Section facts.
Context `{!Math, !Log10Laws}.

Lemma weigh_num n k w x z :
  F64.num (F64.dec n k) w -> 0 <= w <= F64.one_u -> F64.num x z -> Z.abs z <= F64.one_u ->
  F64.num (F64.mul (F64.dec n k) x) (weigh w z).
Proof.
  intros Hw Hb Hx Hz. apply F64.mul_num; [done..|]. rewrite Z.abs_mul, (Z.abs_eq w) by lia.
  transitivity (F64.one_u * F64.one_u); [apply Z.mul_le_mono_nonneg; lia|].
  apply Z.mul_le_mono_nonneg_r; [pose proof F64.one_u_pos; lia|vm_compute; discriminate].
Qed.

Lemma w35_num : F64.num (F64.dec 35 2) w35.
Proof. apply F64.dec_num; [done..|vm_compute; discriminate]. Qed.
Lemma w30_num : F64.num (F64.dec 30 2) w30.
Proof. apply F64.dec_num; [done..|vm_compute; discriminate]. Qed.
Lemma half_num : F64.num (F64.dec 5 1) half.
Proof. apply F64.dec_num; [done..|vm_compute; discriminate]. Qed.

(** Bounds of the partial results, for the absence of overflow. *)
Definition step1 : Z := 2 ^ 1100.
Definition step2 : Z := 2 ^ 1101.
Definition step3 : Z := 2 ^ 1102.

Lemma step_bounds :
  F64.repr step1 /\ F64.repr step2 /\ F64.repr step3 /\ F64.one_u * F64.one_u <= step1 * F64.one_u
  /\ step1 + step1 <= step2 /\ step2 + step1 <= step3
  /\ step3 <= F64.big_u /\ 100 * F64.one_u * step3 <= F64.big_u * F64.one_u.
Proof. split_and!; (by apply F64.repr_pow) || (vm_compute; done). Qed.

#[global] Opaque step1 step2 step3 w35 w30.

(** The three components weighted and added up. *)
Lemma total_num lat thr cor a b c :
  F64.num lat a -> F64.num thr b -> F64.num cor c ->
  0 <= a <= F64.one_u -> 0 <= b <= F64.one_u -> 0 <= c <= F64.one_u ->
  F64.num (weighted lat thr cor) (total_u a b c).
Proof.
  intros Ha Hb Hc Ia Ib Ic. pose proof w35_nonneg as P35. pose proof w30_nonneg as P30.
  assert (w35 <= F64.one_u) as U35 by (vm_compute; done).
  assert (w30 <= F64.one_u) as U30 by (vm_compute; done).
  pose proof w35_num as N35. pose proof w30_num as N30.
  destruct step_bounds as (R1 & R2 & R3 & S1 & S2 & S3 & S4 & S5).
  assert (forall w z, 0 <= w <= F64.one_u -> 0 <= z <= F64.one_u -> 0 <= weigh w z <= step1) as Hweigh.
  { intros w z Hw Hz. split; [apply weigh_nonneg; lia|].
    apply F64.srne_le; [done..|].
    transitivity (F64.one_u * F64.one_u); [apply Z.mul_le_mono_nonneg; lia|done]. }
  pose proof (Hweigh w35 a ltac:(lia) Ia). pose proof (Hweigh w35 b ltac:(lia) Ib).
  pose proof (Hweigh w30 c ltac:(lia) Ic).
  assert (0 <= F64.srne (weigh w35 a + weigh w35 b) 1 <= step2).
  { split; [apply F64.srne_nonneg|apply F64.srne_le]; lia || done. }
  assert (0 <= F64.srne (F64.srne (weigh w35 a + weigh w35 b) 1 + weigh w30 c) 1 <= step3).
  { split; [apply F64.srne_nonneg|apply F64.srne_le]; lia || done. }
  apply F64.mul_num; [exact (F64.of_Z_num_exact 100 ltac:(lia))| |].
  - apply F64.add_num; [apply F64.add_num| |]; [| |lia| |lia].
    + apply weigh_num; [assumption|lia|assumption|lia].
    + apply weigh_num; [assumption|lia|assumption|lia].
    + apply weigh_num; [assumption|lia|assumption|lia].
  - rewrite Z.abs_eq by (apply Z.mul_nonneg_nonneg; [pose proof F64.one_u_pos|]; lia).
    transitivity (100 * F64.one_u * step3); [apply Z.mul_le_mono_nonneg_l; [pose proof F64.one_u_pos|]; lia|done].
Qed.
End facts.

(** ** The components *)

Section components.
Context `{!Math, !Log10Laws}.

Definition latency (p99Ns : Z) : F64.t :=
  clamp (F64.div
    (F64.sub (Log10 latZeroNs) (Log10 (F64.max (F64.of_Z p99Ns) (F64.of_Z 1))))
    (F64.sub (Log10 latZeroNs) (Log10 latFullNs))).
Definition throughput (tps : F64.t) : F64.t :=
  clamp (F64.div (Log10 (F64.max tps (F64.of_Z 1))) (Log10 tpsFull)).
Definition correctness (live conf : F64.t) : F64.t :=
  clamp (F64.add (F64.mul (F64.dec 5 1) live) (F64.mul (F64.dec 5 1) conf)).

Lemma Composite_weighted p99 tps live conf :
  Composite p99 tps live conf = weighted (latency p99) (throughput tps) (correctness live conf).
Proof. reflexivity. Qed.

Lemma log10_num_of_Z n :
  1 <= n <= 2 ^ 53 -> exists l, F64.num (Log10 (F64.of_Z n)) l /\ 0 <= l <= 1000 * F64.one_u.
Proof.
  intros Hn. apply (log10_num _ (n * F64.one_u)); [apply F64.of_Z_num_exact; lia|].
  pose proof F64.one_u_pos. nia.
Qed.

Lemma div_bounds : 1000 * F64.one_u * F64.one_u <= F64.big_u * F64.one_u
  /\ F64.repr (1000 * F64.one_u) /\ F64.repr F64.one_u /\ 1000 * F64.one_u <= F64.big_u.
Proof.
  split_and!; [vm_compute; discriminate|exact (F64.repr_units 1000 ltac:(lia))| |vm_compute; discriminate].
  pose proof (F64.repr_units 1 ltac:(lia)) as Hr. by rewrite Z.mul_1_l in Hr.
Qed.

(** The quotient of a number within 1000 by a number of at least 1. *)
Lemma ratio_num x y a b :
  F64.num x a -> F64.num y b -> Z.abs a <= 1000 * F64.one_u -> F64.one_u <= b ->
  F64.num (F64.div x y) (F64.srne (a * F64.one_u) b).
Proof.
  intros Hx Hy Ha Hb. pose proof F64.one_u_pos. destruct div_bounds as (B1 & _).
  apply F64.div_num; [done|done|lia|]. rewrite Z.abs_mul, (Z.abs_eq F64.one_u) by lia.
  transitivity (1000 * F64.one_u * F64.one_u); [apply Z.mul_le_mono_nonneg_r; lia|].
  etransitivity; [exact B1|]. apply Z.mul_le_mono_nonneg_l; [vm_compute; discriminate|done].
Qed.

Lemma diff_num x y a b :
  F64.num x a -> F64.num y b -> 0 <= a <= 1000 * F64.one_u -> 0 <= b <= 1000 * F64.one_u ->
  F64.num (F64.sub x y) (F64.srne (a - b) 1) /\ Z.abs (F64.srne (a - b) 1) <= 1000 * F64.one_u.
Proof.
  intros Hx Hy Ha Hb. destruct div_bounds as (_ & R & _ & B). split.
  - apply F64.sub_num; [done|done|lia].
  - apply F64.srne_abs_le; [lia|done|lia].
Qed.

Definition lat_u (l9 l6 l : Z) : Z :=
  clamp_u (F64.srne (F64.srne (l9 - l) 1 * F64.one_u) (F64.srne (l9 - l6) 1)).

Definition at_least_1 (z : Z) : Z := Z.max z F64.one_u.

Lemma at_least_1_num x z : F64.num x z -> F64.num (F64.max x (F64.of_Z 1)) (at_least_1 z).
Proof. intros. apply F64.max_num; [done|]. exact (F64.of_Z_num_exact 1 ltac:(lia)). Qed.

(** Both references of the latency axis, with their distance. *)
Lemma lat_axis :
  exists l9 l6, F64.num (Log10 latZeroNs) l9 /\ F64.num (Log10 latFullNs) l6
  /\ 0 <= l6 /\ l6 + F64.one_u <= l9 <= 1000 * F64.one_u
  /\ F64.one_u <= F64.srne (l9 - l6) 1.
Proof.
  destruct (log10_num_of_Z 1000000000 ltac:(lia)) as (l9 & H9 & R9).
  destruct (log10_num_of_Z 1000000 ltac:(lia)) as (l6 & H6 & R6).
  pose proof (log10_decades l6 l9 H6 H9) as Hd. exists l9, l6.
  split_and!; [done|done|lia|lia|lia|]. destruct div_bounds as (_ & _ & R & _).
  pose proof (F64.srne_mono (F64.one_u * 1) (l9 - l6) 1 ltac:(lia) ltac:(lia)) as Hm.
  by rewrite F64.srne_exact in Hm by done.
Qed.

Lemma latency_num p l9 l6 :
  in64 p -> F64.num (Log10 latZeroNs) l9 -> F64.num (Log10 latFullNs) l6 ->
  exists l, F64.num (Log10 (F64.max (F64.of_Z p) (F64.of_Z 1))) l /\ 0 <= l <= 1000 * F64.one_u
  /\ F64.num (latency p) (lat_u l9 l6 l).
Proof.
  intros Hp H9 H6. destruct lat_axis as (l9' & l6' & H9' & H6' & ? & ? & Hd).
  pose proof (F64.num_inj _ _ _ H9 H9') as <-. pose proof (F64.num_inj _ _ _ H6 H6') as <-.
  assert (F64.num (F64.of_Z p) (F64.srne (p * F64.one_u) 1)) as Hpn.
  { apply F64.of_Z_num. unfold Int64.in_range, Int64.min_val, Int64.max_val in Hp. lia. }
  destruct (log10_num _ _ (at_least_1_num _ _ Hpn)) as (l & Hl & Rl); [unfold at_least_1; lia|].
  exists l. split_and!; [done|lia|lia|].
  destruct (diff_num _ _ l9 l H9 Hl ltac:(lia) ltac:(lia)) as [N1 B1].
  destruct (diff_num _ _ l9 l6 H9 H6 ltac:(lia) ltac:(lia)) as [N2 _].
  apply clamp_num, ratio_num; done.
Qed.

Lemma throughput_num tps t :
  F64.num tps t ->
  exists l lt, F64.num (Log10 (F64.max tps (F64.of_Z 1))) l /\ 0 <= l <= 1000 * F64.one_u
  /\ F64.num (Log10 tpsFull) lt /\ F64.one_u <= lt
  /\ F64.num (throughput tps) (clamp_u (F64.srne (l * F64.one_u) lt)).
Proof.
  intros Ht. destruct (log10_num _ _ (at_least_1_num _ _ Ht)) as (l & Hl & Rl); [unfold at_least_1; lia|].
  destruct (log10_num_of_Z 50000 ltac:(lia)) as (lt & Hlt & Rlt).
  pose proof (log10_tps lt Hlt). exists l, lt. split_and!; [done|lia|lia|done|done|].
  apply clamp_num, ratio_num; [done|done|lia|done].
Qed.

Definition cor_u (a b : Z) : Z := clamp_u (F64.srne (weigh half a + weigh half b) 1).

Lemma weigh_half_le z : 0 <= z <= F64.one_u -> 0 <= weigh half z <= F64.one_u.
Proof.
  intros Hz. pose proof half_nonneg as Hh. split; [apply weigh_nonneg; lia|].
  destruct div_bounds as (_ & _ & R & _). apply F64.srne_le; [apply F64.one_u_pos|done|].
  apply Z.mul_le_mono_nonneg; [done|vm_compute; discriminate|lia|lia].
Qed.

Lemma correctness_num live conf a b :
  F64.num live a -> F64.num conf b -> 0 <= a <= F64.one_u -> 0 <= b <= F64.one_u ->
  F64.num (correctness live conf) (cor_u a b).
Proof.
  intros Ha Hb Ra Rb. pose proof half_nonneg. pose proof half_num.
  assert (half <= F64.one_u) by (vm_compute; discriminate).
  pose proof (weigh_half_le a Ra). pose proof (weigh_half_le b Rb).
  assert (F64.one_u + F64.one_u <= F64.big_u) by (vm_compute; discriminate).
  apply clamp_num, F64.add_num; [apply weigh_num; [done|lia|done|lia]..|lia].
Qed.
End components.
#[global] Opaque clamp total_u clamp_u weigh weighted Composite latency throughput correctness.
