(* ===== verification/ScoreProps.v ===== *)
(** * The composite score: theorems *)
From S2P Require Import Prelude Float64 Score.
Local Open Scope Z_scope.

(** A result the ingester scores: a p99, a throughput, and two rates between 0 and 1. *)
Record scored (p99 : Z) (tps live conf : F64.t) (t a b : Z) : Prop := mkScored {
  sc_p99 : in64 p99;
  sc_tps : F64.num tps t;
  sc_live : F64.num live a;
  sc_conf : F64.num conf b;
  sc_live_range : 0 <= a <= F64.one_u;
  sc_conf_range : 0 <= b <= F64.one_u
}.

Section score.
Context `{!Math, !Log10Laws}.

Lemma composite_num p99 tps live conf t a b :
  scored p99 tps live conf t a b ->
  exists x y z, F64.num (latency p99) x /\ F64.num (throughput tps) y
  /\ F64.num (correctness live conf) z
  /\ 0 <= x <= F64.one_u /\ 0 <= y <= F64.one_u /\ 0 <= z <= F64.one_u
  /\ F64.num (Composite p99 tps live conf) (total_u x y z).
Proof.
  intros [H1 H2 H3 H4 H5 H6]. destruct lat_axis as (l9 & l6 & H9 & H6' & _).
  destruct (latency_num p99 l9 l6 H1 H9 H6') as (l & _ & _ & Hl).
  destruct (throughput_num tps t H2) as (l' & lt & _ & _ & _ & _ & Ht).
  pose proof (correctness_num live conf a b H3 H4 H5 H6) as Hc.
  eexists _, _, _. split; [exact Hl|]. split; [exact Ht|]. split; [exact Hc|].
  split; [apply clamp_u_range|]. split; [apply clamp_u_range|]. split; [apply clamp_u_range|].
  rewrite Composite_weighted. apply total_num; [exact Hl|exact Ht|exact Hc|apply clamp_u_range..].
Qed.

(** The components never decrease as the result gets better. *)
Lemma latency_mono p p' x x' :
  in64 p -> in64 p' -> p' <= p -> F64.num (latency p) x -> F64.num (latency p') x' -> x <= x'.
Proof.
  intros Hp Hp' Hle Hx Hx'. destruct lat_axis as (l9 & l6 & H9 & H6 & ? & ? & Hd).
  destruct (latency_num p l9 l6 Hp H9 H6) as (l & Hl & _ & Hn).
  destruct (latency_num p' l9 l6 Hp' H9 H6) as (l' & Hl' & _ & Hn').
  rewrite (F64.num_inj _ _ _ Hx Hn), (F64.num_inj _ _ _ Hx' Hn'). pose proof F64.one_u_pos.
  unfold Int64.in_range, Int64.min_val, Int64.max_val in *.
  pose proof (F64.of_Z_num p ltac:(lia)) as N. pose proof (F64.of_Z_num p' ltac:(lia)) as N'.
  apply clamp_u_mono, F64.srne_mono; [|lia]. apply Z.mul_le_mono_nonneg_r; [lia|].
  apply F64.srne_mono; [|lia].
  assert (l' <= l); [|lia].
  eapply log10_mono; [apply (at_least_1_num _ _ N')|apply (at_least_1_num _ _ N)| |done|done].
  assert (F64.srne (p' * F64.one_u) 1 <= F64.srne (p * F64.one_u) 1).
  { apply F64.srne_mono; [apply Z.mul_le_mono_nonneg_r|]; lia. }
  unfold at_least_1. lia.
Qed.

Lemma throughput_mono tps tps' t t' y y' :
  F64.num tps t -> F64.num tps' t' -> t <= t' ->
  F64.num (throughput tps) y -> F64.num (throughput tps') y' -> y <= y'.
Proof.
  intros Ht Ht' Hle Hy Hy'.
  destruct (throughput_num tps t Ht) as (l & lt & Hl & _ & Hlt & ? & Hn).
  destruct (throughput_num tps' t' Ht') as (l' & lt' & Hl' & _ & Hlt' & _ & Hn').
  pose proof (F64.num_inj _ _ _ Hlt Hlt') as <-. pose proof F64.one_u_pos.
  rewrite (F64.num_inj _ _ _ Hy Hn), (F64.num_inj _ _ _ Hy' Hn').
  apply clamp_u_mono, F64.srne_mono; [|lia]. apply Z.mul_le_mono_nonneg_r; [lia|].
  eapply log10_mono; [apply (at_least_1_num _ _ Ht)|apply (at_least_1_num _ _ Ht')| |done|done].
  unfold at_least_1. lia.
Qed.

Lemma cor_u_mono a a' b b' : a <= a' -> b <= b' -> cor_u a b <= cor_u a' b'.
Proof.
  intros. apply clamp_u_mono, F64.srne_mono; [|lia]. pose proof half_nonneg.
  apply Z.add_le_mono; by apply weigh_mono.
Qed.

(** ** Claims *)

(** C34. The composite score is a number between 0 and 100, rounding included:
    never a NaN, an infinity or a value outside the scale. *)
Theorem composite_in_range (p99 : Z) (tps live conf : F64.t) (t a b : Z) :
  scored p99 tps live conf t a b ->
  exists z, F64.num (Composite p99 tps live conf) z /\ 0 <= z <= 100 * F64.one_u.
Proof.
  intros Hs. destruct (composite_num _ _ _ _ _ _ _ Hs) as (x & y & z & _ & _ & _ & ? & ? & ? & Hn).
  exists (total_u x y z). split; [done|].
  rewrite <- total_u_full. rewrite <- total_u_none at 1. split; apply total_u_mono; lia.
Qed.

(** C33. A better result never scores less: lowering the p99 and raising the
    throughput and the two rates cannot lower the composite score. *)
Theorem composite_monotone (p99 p99' : Z) (tps tps' live live' conf conf' : F64.t)
    (t t' a a' b b' z z' : Z) :
  scored p99 tps live conf t a b -> scored p99' tps' live' conf' t' a' b' ->
  p99' <= p99 -> t <= t' -> a <= a' -> b <= b' ->
  F64.num (Composite p99 tps live conf) z -> F64.num (Composite p99' tps' live' conf') z' ->
  z <= z'.
Proof.
  intros Hs Hs' Hp Ht Ha Hb Hz Hz'.
  destruct (composite_num _ _ _ _ _ _ _ Hs) as (x & y & c & Hx & Hy & Hc & _ & _ & _ & Hn).
  destruct (composite_num _ _ _ _ _ _ _ Hs') as (x' & y' & c' & Hx' & Hy' & Hc' & _ & _ & _ & Hn').
  rewrite (F64.num_inj _ _ _ Hz Hn), (F64.num_inj _ _ _ Hz' Hn').
  destruct Hs, Hs'. apply total_u_mono.
  - by eapply (latency_mono p99 p99').
  - by eapply (throughput_mono tps tps').
  - rewrite (F64.num_inj _ _ _ Hc (correctness_num live conf a b ltac:(done) ltac:(done) ltac:(done) ltac:(done))).
    rewrite (F64.num_inj _ _ _ Hc' (correctness_num live' conf' a' b' ltac:(done) ltac:(done) ltac:(done) ltac:(done))).
    by apply cor_u_mono.
Qed.

(** The scale is saturated exactly: a p99 of at most 1ms, a throughput of at
    least 50000 and two perfect rates score exactly 100. *)
Theorem composite_perfect (p99 : Z) (tps live conf : F64.t) (t : Z) :
  scored p99 tps live conf t F64.one_u F64.one_u ->
  p99 <= 1000000 -> 50000 * F64.one_u <= t ->
  F64.num (Composite p99 tps live conf) (100 * F64.one_u).
Proof.
  intros Hs Hp Ht. pose proof F64.one_u_pos. destruct Hs as [S1 S2 S3 S4 _ _].
  assert (0 <= F64.one_u <= F64.one_u) as R1 by lia.
  assert (F64.repr F64.one_u) as Rone by apply div_bounds.
  assert (forall n d, 0 < d -> d <= n -> clamp_u (F64.srne (n * F64.one_u) d) = F64.one_u) as Hsat.
  { intros n d Hd Hle. pose proof (F64.srne_mono (F64.one_u * d) (n * F64.one_u) d) as Hm.
    rewrite F64.srne_exact in Hm by done. apply clamp_u_full. nia. }
  rewrite <- total_u_full, Composite_weighted. apply total_num; [| | |exact R1..].
  - destruct lat_axis as (l9 & l6 & H9 & H6 & ? & ? & Hd).
    destruct (latency_num p99 l9 l6 S1 H9 H6) as (l & Hl & _ & Hn).
    assert (l <= l6) as Hle.
    { unfold Int64.in_range, Int64.min_val, Int64.max_val in *.
      pose proof (F64.of_Z_num p99 ltac:(lia)) as N.
      pose proof (F64.of_Z_num_exact 1000000 ltac:(lia)) as N6.
      eapply log10_mono; [apply (at_least_1_num _ _ N)|apply N6| |done|done].
      assert (F64.srne (p99 * F64.one_u) 1 <= 1000000 * F64.one_u); [|unfold at_least_1; lia].
      apply F64.srne_le; [lia|apply F64.repr_units; lia|].
      rewrite Z.mul_1_r. apply Z.mul_le_mono_nonneg_r; lia. }
    rewrite <- (Hsat (F64.srne (l9 - l) 1) (F64.srne (l9 - l6) 1)) by (lia || apply F64.srne_mono; lia).
    exact Hn.
  - destruct (throughput_num tps t S2) as (l & lt & Hl & _ & Hlt & ? & Hn).
    rewrite <- (Hsat l lt); [done|lia|].
    eapply log10_mono; [exact (F64.of_Z_num_exact 50000 ltac:(lia))|apply (at_least_1_num _ _ S2)| |done|done].
    unfold at_least_1. lia.
  - assert (cor_u F64.one_u F64.one_u = F64.one_u) as Hcor by (vm_compute; done).
    rewrite <- Hcor. by apply correctness_num.
Qed.
End score.

(** ** Witnesses

    A stand-in for the logarithm, a third of the number of bits, that obeys
    the laws and evaluates. *)
Definition rough_log10 (x : F64.t) : F64.t :=
  match x with
  | F64.Fin false u => F64.Fin false (Z.min 1000 (Z.log2 (u / F64.one_u) / 3) * F64.one_u)
  | _ => x
  end.

#[local] Instance rough_math : Math := {| Log := fun x => x; Log10 := rough_log10; Pow := fun _ y => y |}.

Definition rough_u (z : Z) : Z := Z.min 1000 (Z.log2 (z / F64.one_u) / 3) * F64.one_u.

Lemma rough_num x z : F64.num x z -> F64.one_u <= z -> F64.num (rough_log10 x) (rough_u z).
Proof.
  intros (s & u & -> & Hu & <-) Hz. pose proof F64.one_u_pos.
  destruct s; simpl in *; [lia|]. apply F64.num_Fin. apply Z.mul_nonneg_nonneg; [|lia].
  apply Z.min_glb; [lia|]. apply Z.div_pos; [apply Z.log2_nonneg|lia].
Qed.

Lemma rough_of_Z n : 1 <= n <= 2 ^ 53 -> F64.num (rough_log10 (F64.of_Z n)) (Z.min 1000 (Z.log2 n / 3) * F64.one_u).
Proof.
  intros Hn. pose proof F64.one_u_pos. pose proof (F64.of_Z_num_exact n ltac:(lia)) as N.
  pose proof (rough_num _ _ N ltac:(nia)) as N'. unfold rough_u in N'.
  by rewrite Z.div_mul in N' by lia.
Qed.

#[local] Instance rough_laws : Log10Laws.
Proof.
  pose proof F64.one_u_pos. split.
  - intros x z Hx Hz. exists (rough_u z). split; [by apply rough_num|]. unfold rough_u. split.
    + apply Z.mul_nonneg_nonneg; [|lia].
      apply Z.min_glb; [lia|]. apply Z.div_pos; [apply Z.log2_nonneg|lia].
    + apply Z.mul_le_mono_nonneg_r; lia.
  - intros x y z z' l l' Hx Hy Hz Hl Hl'.
    rewrite (F64.num_inj _ _ _ Hl (rough_num _ _ Hx ltac:(lia))).
    rewrite (F64.num_inj _ _ _ Hl' (rough_num _ _ Hy ltac:(lia))).
    apply Z.mul_le_mono_nonneg_r; [lia|]. apply Z.min_le_compat_l.
    apply Z.div_le_mono; [lia|]. apply Z.log2_le_mono, Z.div_le_mono; lia.
  - intros l l' Hl Hl'. rewrite (F64.num_inj _ _ _ Hl (rough_of_Z 1000000 ltac:(lia))).
    rewrite (F64.num_inj _ _ _ Hl' (rough_of_Z 1000000000 ltac:(lia))).
    change (Z.min 1000 (Z.log2 1000000 / 3)) with 6.
    change (Z.min 1000 (Z.log2 1000000000 / 3)) with 9. lia.
  - intros l Hl. rewrite (F64.num_inj _ _ _ Hl (rough_of_Z 50000 ltac:(lia))).
    change (Z.min 1000 (Z.log2 50000 / 3)) with 5. lia.
Qed.

Lemma scored_demo p n :
  in64 p -> 0 <= n <= 2 ^ 53 ->
  scored p (F64.of_Z n) (F64.of_Z 1) (F64.of_Z 1) (n * F64.one_u) F64.one_u F64.one_u.
Proof.
  intros Hp Hn. pose proof F64.one_u_pos.
  pose proof (F64.of_Z_num_exact 1 ltac:(lia)) as N1. rewrite Z.mul_1_l in N1.
  split; [done|by apply F64.of_Z_num_exact|exact N1|exact N1|lia|lia].
Qed.

Lemma composite_in_range_witness :
  exists z, F64.num (Composite 3000000 (F64.of_Z 700) (F64.of_Z 1) (F64.of_Z 1)) z
  /\ 0 <= z <= 100 * F64.one_u.
Proof.
  apply (composite_in_range _ _ _ _ (700 * F64.one_u) F64.one_u F64.one_u).
  apply scored_demo; [decide_now|lia].
Defined.

Lemma composite_monotone_witness :
  exists z z', F64.num (Composite 3000000 (F64.of_Z 700) (F64.of_Z 1) (F64.of_Z 1)) z
  /\ F64.num (Composite 2000000 (F64.of_Z 900) (F64.of_Z 1) (F64.of_Z 1)) z' /\ z <= z'.
Proof.
  assert (scored 3000000 (F64.of_Z 700) (F64.of_Z 1) (F64.of_Z 1) (700 * F64.one_u) F64.one_u F64.one_u)
    as S by (apply scored_demo; [decide_now|lia]).
  assert (scored 2000000 (F64.of_Z 900) (F64.of_Z 1) (F64.of_Z 1) (900 * F64.one_u) F64.one_u F64.one_u)
    as S' by (apply scored_demo; [decide_now|lia]).
  destruct (composite_num _ _ _ _ _ _ _ S) as (x & y & c & _ & _ & _ & _ & _ & _ & Hz).
  destruct (composite_num _ _ _ _ _ _ _ S') as (x' & y' & c' & _ & _ & _ & _ & _ & _ & Hz').
  exists (total_u x y c), (total_u x' y' c'). split; [exact Hz|]. split; [exact Hz'|].
  pose proof F64.one_u_pos.
  refine (composite_monotone _ _ _ _ _ _ _ _ _ _ _ _ _ _ _ _ S S' _ _ _ _ Hz Hz'); lia.
Defined.

Lemma composite_perfect_witness :
  F64.num (Composite 640000 (F64.of_Z 70000) (F64.of_Z 1) (F64.of_Z 1)) (100 * F64.one_u).
Proof.
  apply (composite_perfect _ _ _ _ (70000 * F64.one_u)).
  - apply scored_demo; [decide_now|lia].
  - lia.
  - pose proof F64.one_u_pos. lia.
Defined.
