(* ===== verification/Text.v ===== *)
(** * Text: what the services use of [fmt], [strconv] and [strings] *)
From Stdlib Require Import Ascii.
From stdpp Require Import pretty.
From S2P Require Import Prelude Float64.
Local Open Scope Z_scope.

(** ** Numbers *)

(** [strconv.Itoa], [%d] *)
Definition itoa (z : Z) : string := pretty z.

Fixpoint zeros (n : nat) (s : string) : string :=
  match n with O => s | S n' => String "0"%char (zeros n' s) end.

(** [s] with zeros in front, at least [k] characters long. *)
Definition pad (k : nat) (s : string) : string := zeros (k - String.length s) s.

(** [%.kf] of a number: the exact value rounded to [k] decimals, ties to even. *)
Definition fixed (k : nat) (x : F64.t) : string :=
  match x with
  | F64.NaN => "NaN"
  | F64.Inf s => if s then "-Inf" else "+Inf"
  | F64.Fin s u =>
      let n := u * 10 ^ Z.of_nat k in
      let m := F64.pick (n / F64.one_u) (n mod F64.one_u) F64.one_u in
      let q := itoa (m / 10 ^ Z.of_nat k) in
      let f := if decide (k = O) then "" else "." +:+ pad k (itoa (m mod 10 ^ Z.of_nat k)) in
      (if s then "-" else "") +:+ q +:+ f
  end%string.

Definition digit (c : Ascii.ascii) : option Z :=
  let n := Z.of_nat (Ascii.nat_of_ascii c) in
  if decide (48 <= n <= 57) then Some (n - 48) else None.

(** Digits with at most one point: the number they spell, and how many follow
    the point. *)
Fixpoint decimal (s : string) (point any : bool) (n k : Z) : option (Z * Z) :=
  match s with
  | EmptyString => if any then Some (n, k) else None
  | String c s' =>
      match digit c with
      | Some d => decimal s' point true (10 * n + d) (if point then k + 1 else k)
      | None => if decide (c = "."%char /\ point = false) then decimal s' true any n k else None
      end
  end.

(** What [ParseFloat] does with anything but an unsigned plain decimal (signs,
    exponents, hexadecimal, infinities, bad syntax), and [%q], are parameters. *)
Class Strconv := { other_float : string -> F64.t; quote : string -> string }.

(** The value [strconv.ParseFloat(s, 64)] returns, whether or not it also
    returns an error. *)
Definition parseFloat `{!Strconv} (s : string) : F64.t :=
  match decimal s false false 0 0 with
  | Some (n, k) => F64.dec n k
  | None => other_float s
  end.

Fixpoint digits (s : string) (n : Z) : option Z :=
  match s with
  | EmptyString => Some n
  | String c s' => match digit c with Some d => digits s' (10 * n + d) | None => None end
  end.

(** A sign in front. *)
Definition signed (s : string) : bool * string :=
  match s with
  | String "-" t => (true, t)
  | String "+" t => (false, t)
  | _ => (false, s)
  end.

(** The value [strconv.ParseInt(s, 10, 64)] returns, whether or not it also
    returns an error: 0 on bad syntax, the nearest bound when out of range. *)
Definition parseInt (s : string) : Z :=
  let '(neg, t) := signed s in
  match t, digits t 0 with
  | EmptyString, _ | _, None => 0
  | _, Some n => Z.max Int64.min_val (Z.min Int64.max_val (if neg : bool then - n else n))
  end.

(** The same, [None] when it returns an error. *)
Definition parseInt_ok (s : string) : option Z :=
  let '(neg, t) := signed s in
  match t, digits t 0 with
  | EmptyString, _ | _, None => None
  | _, Some n => let v := if neg : bool then - n else n in if decide (Int64.in_range v) then Some v else None
  end.

(** ** Strings *)

(** [strings.Join] *)
Definition join (sep : string) (l : list string) : string :=
  match l with
  | [] => ""
  | s :: l' => foldl (fun a b => a +:+ sep +:+ b)%string s l'
  end.

(** [strings.HasPrefix] and the rest of the string after the prefix. *)
Fixpoint strip_prefix (p s : string) : option string :=
  match p, s with
  | EmptyString, _ => Some s
  | String a p', String b s' => if Ascii.eqb a b then strip_prefix p' s' else None
  | String _ _, EmptyString => None
  end.

Lemma string_app_assoc (a b c : string) : a +:+ (b +:+ c) = (a +:+ b) +:+ c.
Proof. induction a as [|x a IH]; [done|].
  change (String x (a +:+ (b +:+ c)) = String x ((a +:+ b) +:+ c)). by rewrite IH.
Qed.

Lemma strip_prefix_app p s : strip_prefix p (p +:+ s) = Some s.
Proof.
  induction p as [|c p IH]; [done|].
  change (strip_prefix (String c p) (String c (p +:+ s)) = Some s). simpl. by rewrite Ascii.eqb_refl.
Qed.

Definition reverse_string (s : string) : string :=
  String.string_of_list_ascii (rev (String.list_ascii_of_string s)).

Definition hasSuffix (s suffix : string) : bool :=
  match strip_prefix (reverse_string suffix) (reverse_string s) with Some _ => true | None => false end.

(** The UTF-8 encodings of the Unicode white space characters. *)
Definition white_space : list string :=
  let b (l : list nat) := String.string_of_list_ascii (map ascii_of_nat l) in
  map b [[9]; [10]; [11]; [12]; [13]; [32]; [194; 133]; [194; 160]; [225; 154; 128];
         [226; 128; 128]; [226; 128; 129]; [226; 128; 130]; [226; 128; 131]; [226; 128; 132];
         [226; 128; 133]; [226; 128; 134]; [226; 128; 135]; [226; 128; 136]; [226; 128; 137];
         [226; 128; 138]; [226; 128; 168]; [226; 128; 169]; [226; 128; 175]; [226; 129; 159];
         [227; 128; 128]]%nat.

Fixpoint first_stripped (ws : list string) (s : string) : option string :=
  match ws with
  | [] => None
  | w :: ws' => match strip_prefix w s with Some t => Some t | None => first_stripped ws' s end
  end.

Fixpoint strip_all (fuel : nat) (ws : list string) (s : string) : string :=
  match fuel with
  | O => s
  | S fuel' => match first_stripped ws s with Some t => strip_all fuel' ws t | None => s end
  end.

(** [strings.TrimSpace] *)
Definition trimSpace (s : string) : string :=
  let s := strip_all (String.length s) white_space s in
  let r := reverse_string s in
  reverse_string (strip_all (String.length r) (map reverse_string white_space) r).

(** [strings.Split(s, sep)] for a one-byte separator. *)
Fixpoint split (sep : ascii) (s : string) : list string :=
  match s with
  | EmptyString => [""%string]
  | String c s' =>
      if Ascii.eqb c sep then ""%string :: split sep s'
      else match split sep s' with
           | l :: ls => String c l :: ls
           | [] => [String c ""]
           end
  end.

(** The code points of a string, as a [range] over it or [DecodeRuneInString]
    yields them: UTF-8, with 0xFFFD for each byte that starts no valid
    encoding. Each comes with the bytes it was read from. *)
Definition bytes (s : string) : list Z :=
  map (fun c => Z.of_nat (Ascii.nat_of_ascii c)) (String.list_ascii_of_string s).

Definition of_bytes (l : list Z) : string :=
  String.string_of_list_ascii (map (fun b => Ascii.ascii_of_nat (Z.to_nat b)) l).

Definition between (lo hi b : Z) : bool := (lo <=? b) && (b <=? hi).

(** The bounds of the second byte of a three- or four-byte encoding. *)
Definition second_byte (b0 b1 : Z) : bool :=
  if b0 =? 224 then between 160 191 b1
  else if b0 =? 237 then between 128 159 b1
  else if b0 =? 240 then between 144 191 b1
  else if b0 =? 244 then between 128 143 b1
  else between 128 191 b1.

Definition runeError : Z := 65533.

(** The encodings of two, three and four bytes. *)
Definition two_bytes (b0 b1 : Z) : bool := between 194 223 b0 && between 128 191 b1.
Definition three_bytes (b0 b1 b2 : Z) : bool := between 224 239 b0 && second_byte b0 b1 && between 128 191 b2.
Definition four_bytes (b0 b1 b2 b3 : Z) : bool :=
  between 240 244 b0 && second_byte b0 b1 && between 128 191 b2 && between 128 191 b3.

Fixpoint decode_utf8 (l : list Z) : list (Z * list Z) :=
  match l with
  | [] => []
  | b0 :: l1 =>
      if b0 <? 128 then (b0, [b0]) :: decode_utf8 l1
      else match l1 with
           | b1 :: l2 =>
               if two_bytes b0 b1
               then ((b0 - 192) * 64 + (b1 - 128), [b0; b1]) :: decode_utf8 l2
               else match l2 with
                    | b2 :: l3 =>
                        if three_bytes b0 b1 b2
                        then (((b0 - 224) * 64 + (b1 - 128)) * 64 + (b2 - 128), [b0; b1; b2]) :: decode_utf8 l3
                        else match l3 with
                             | b3 :: l4 =>
                                 if four_bytes b0 b1 b2 b3
                                 then ((((b0 - 240) * 64 + (b1 - 128)) * 64 + (b2 - 128)) * 64 + (b3 - 128), [b0; b1; b2; b3])
                                      :: decode_utf8 l4
                                 else (runeError, [b0]) :: decode_utf8 l1
                             | [] => (runeError, [b0]) :: decode_utf8 l1
                             end
                    | [] => (runeError, [b0]) :: decode_utf8 l1
                    end
           | [] => (runeError, [b0]) :: decode_utf8 l1
           end
  end.

Definition runes (s : string) : list Z := map fst (decode_utf8 (bytes s)).

(** [c == utf8.RuneError && size == 1]: a byte that is no part of an encoding. *)
Definition ill_formed (c : Z * list Z) : bool := (c.1 =? runeError) && (length c.2 =? 1)%nat.

(** [utf8.ValidString] *)
Definition validString (s : string) : bool := forallb (fun c => negb (ill_formed c)) (decode_utf8 (bytes s)).

(** A string with U+FFFD, which is EF BF BD, for each such byte: what
    [encoding/json] makes of the strings it writes and reads. *)
Definition coerced (c : Z * list Z) : list Z := if ill_formed c then [239; 191; 189] else c.2.
Definition toValid (s : string) : string := of_bytes (concat (map coerced (decode_utf8 (bytes s)))).

(** ** Paths: [filepath.Join] of two elements on Unix *)

(** [filepath.Clean]: [stack] is what is kept so far, innermost first. *)
Fixpoint clean_elements (rooted : bool) (elements stack : list string) : list string :=
  match elements with
  | [] => rev stack
  | e :: es =>
      if String.eqb e "" || String.eqb e "." then clean_elements rooted es stack
      else if String.eqb e ".." then
        match stack with
        | top :: stack' =>
            if String.eqb top ".." then clean_elements rooted es (e :: stack)
            else clean_elements rooted es stack'
        | [] => clean_elements rooted es (if rooted then [] else [e])
        end
      else clean_elements rooted es (e :: stack)
  end.

Definition clean_path (p : string) : string :=
  let rooted := match p with String "/" _ => true | _ => false end in
  let q := join "/" (clean_elements rooted (split "/"%char p) []) in
  if rooted then ("/" +:+ q)%string else if String.eqb q "" then "."%string else q.

Definition join_path (a b : string) : string :=
  if String.eqb a "" then (if String.eqb b "" then ""%string else clean_path b)
  else if String.eqb b "" then clean_path a
  else clean_path (a +:+ "/" +:+ b)%string.
