(* ===== verification/TextProps.v ===== *)
(** * Numbers survive their text

    Reading back what [Text] prints: a decimal integer gives the integer, and
    [%.kf] of a double gives the decimal that is nearest to it. *)
From Stdlib Require Import Ascii.
From stdpp Require Import pretty.
From S2P Require Import Prelude Float64 Text.
Local Open Scope Z_scope.

(** ** Digits *)

Lemma digit_char x : (x < 10)%N -> digit (pretty_N_char x) = Some (Z.of_N x).
Proof.
  intros Hx. assert (x = 0 \/ x = 1 \/ x = 2 \/ x = 3 \/ x = 4 \/ x = 5 \/ x = 6 \/ x = 7 \/ x = 8 \/ x = 9)%N as Hd by lia.
  repeat (destruct Hd as [->|Hd]; [reflexivity|]). by subst.
Qed.

(** Induction on the digits of a number, the last one first. *)
Lemma digits_ind (P : N -> Prop) :
  P 0%N -> (forall x, (0 < x)%N -> P (x / 10)%N -> P x) -> forall x, P x.
Proof.
  intros H0 Hstep x. induction (N.lt_wf_0 x) as [x _ IH].
  destruct (decide (x = 0%N)) as [->|Hx]; [done|]. apply Hstep; [lia|]. apply IH, N.div_lt; lia.
Qed.

(** Putting back the last digit. *)
Lemma last_digit x : (0 < x)%N -> digit (pretty_N_char (x mod 10)) = Some (Z.of_N (x mod 10)) /\ 10 * Z.of_N (x / 10) + Z.of_N (x mod 10) = Z.of_N x.
Proof. intros Hx. split; [by apply digit_char, N.mod_lt|]. pose proof (N.div_mod x 10). lia. Qed.

Lemma digits_go x s : digits (pretty_N_go x s) 0 = digits s (Z.of_N x).
Proof.
  revert s. induction x as [|x Hx IH] using digits_ind; intros s; [by rewrite pretty_N_go_0|].
  destruct (last_digit x Hx) as [Hd Hv]. rewrite pretty_N_go_step by done. rewrite IH. simpl. by rewrite Hd, Hv.
Qed.

Lemma decimal_go x s any :
  (0 < x)%N -> decimal (pretty_N_go x s) false any 0 0 = decimal s false true (Z.of_N x) 0.
Proof.
  revert s any. induction x as [|x Hx IH] using digits_ind; intros s any Hpos; [done|].
  destruct (last_digit x Hx) as [Hd Hv]. rewrite pretty_N_go_step by done.
  destruct (decide (x / 10 = 0)%N) as [Hz|Hz].
  - rewrite Hz, pretty_N_go_0 in *. simpl. rewrite Hd. by rewrite <- Hv.
  - rewrite IH by (by apply N.neq_0_lt_0). simpl. by rewrite Hd, Hv.
Qed.

Lemma itoa_N x : 0 <= x -> itoa x = pretty (Z.to_N x).
Proof. by destruct x. Qed.

Lemma itoa_digits x : 0 <= x -> digits (itoa x) 0 = Some x.
Proof.
  intros Hx. rewrite itoa_N by done. unfold pretty, pretty_N. destruct (decide (Z.to_N x = 0%N)) as [Hz|Hz].
  - by replace x with 0 by lia.
  - rewrite digits_go. simpl. f_equal. lia.
Qed.

Lemma itoa_decimal x s : 0 <= x -> decimal (itoa x +:+ s) false false 0 0 = decimal s false true x 0.
Proof.
  intros Hx. rewrite itoa_N by done. unfold pretty, pretty_N. destruct (decide (Z.to_N x = 0%N)) as [Hz|Hz].
  - by replace x with 0 by lia.
  - assert (forall y t, pretty_N_go y "" +:+ t = pretty_N_go y t) as Happ.
    { intros y t. cut (forall u, pretty_N_go y u +:+ t = pretty_N_go y (u +:+ t)); [intros H; apply H|].
      induction y as [|y Hy IH] using digits_ind; intros u; [done|]. by rewrite !(pretty_N_go_step y), IH. }
    rewrite Happ, decimal_go by lia. f_equal. lia.
Qed.

(** ** Integers *)

Lemma digits_head x : (0 < x)%N -> forall s, exists c t, pretty_N_go x s = String c t /\ is_Some (digit c).
Proof.
  induction x as [|x Hx IH] using digits_ind; intros Hpos s; [done|]. rewrite pretty_N_go_step by done.
  destruct (decide (x / 10 = 0)%N) as [->|Hz]; [|by apply IH, N.neq_0_lt_0]. rewrite pretty_N_go_0.
  destruct (last_digit x Hx) as [Hd _]. by eexists _, _.
Qed.

Lemma itoa_head x : 0 <= x -> exists c t, itoa x = String c t /\ is_Some (digit c).
Proof.
  intros Hx. rewrite itoa_N by done. unfold pretty, pretty_N. destruct (decide (Z.to_N x = 0%N)); [|apply digits_head; lia].
  by eexists _, _.
Qed.

Lemma signed_digit c t : is_Some (digit c) -> signed (String c t) = (false, String c t).
Proof. intros Hc. destruct c as [[][][][][][][][]]; try done; by destruct Hc. Qed.

(** A decimal integer, taken apart: its sign and the digits of its magnitude. *)
Lemma signed_itoa z : exists c t, signed (itoa z) = (z <? 0, String c t) /\ digits (String c t) 0 = Some (Z.abs z).
Proof.
  destruct (Z.ltb_spec z 0) as [Hneg|Hpos].
  - assert (itoa z = "-" +:+ itoa (- z))%string as -> by (destruct z; [lia|lia|done]).
    pose proof (itoa_digits (- z) ltac:(lia)) as Hd. destruct (itoa_head (- z) ltac:(lia)) as (c & t & Hs & _).
    exists c, t. rewrite Hs in *. split; [done|]. by rewrite Hd, Z.abs_neq by lia.
  - pose proof (itoa_digits z Hpos) as Hd. destruct (itoa_head z Hpos) as (c & t & Hs & Hc).
    exists c, t. rewrite Hs in *. split; [by apply signed_digit|]. by rewrite Hd, Z.abs_eq by lia.
Qed.

(** [ParseInt] of a decimal integer. *)
Lemma parseInt_itoa z : Int64.in_range z -> parseInt (itoa z) = z.
Proof.
  intros Hz. destruct (signed_itoa z) as (c & t & Hs & Hd). unfold parseInt. rewrite Hs, Hd. unfold Int64.in_range in Hz.
  destruct (Z.ltb_spec z 0); lia.
Qed.

Lemma parseInt_ok_itoa z : Int64.in_range z -> parseInt_ok (itoa z) = Some z.
Proof.
  intros Hz. destruct (signed_itoa z) as (c & t & Hs & Hd). unfold parseInt_ok. rewrite Hs, Hd. cbv zeta.
  assert ((if z <? 0 then - Z.abs z else Z.abs z) = z) as -> by (destruct (Z.ltb_spec z 0); lia). by rewrite decide_True.
Qed.

(** ** White space *)

(** The printable characters of ASCII other than the space. *)
Definition visible (c : Ascii.ascii) : bool := (33 <=? Ascii.nat_of_ascii c)%nat && (Ascii.nat_of_ascii c <=? 126)%nat.

Fixpoint plain (s : string) : bool :=
  match s with EmptyString => true | String c s' => visible c && plain s' end.

Lemma plain_app a b : plain (a +:+ b) = plain a && plain b.
Proof. induction a as [|c a IH]; [done|]. change (visible c && plain (a +:+ b) = visible c && plain a && plain b). by rewrite IH, andb_assoc. Qed.

Lemma plain_go x s : plain s = true -> plain (pretty_N_go x s) = true.
Proof.
  revert s. induction x as [|x Hx IH] using digits_ind; intros s Hs; [by rewrite pretty_N_go_0|].
  rewrite pretty_N_go_step by done. apply IH. cbn [plain]. rewrite Hs, andb_true_r.
  unfold pretty_N_char. by repeat case_match.
Qed.

Lemma plain_itoa z : plain (itoa z) = true.
Proof.
  assert (forall x : N, plain (pretty x) = true) as HN.
  { intros x. unfold pretty, pretty_N. case_decide; [done|]. by apply plain_go. }
  destruct z as [|p|p]; [done|exact (HN (Npos p))|]. change (plain ("-" +:+ pretty (Npos p)) = true)%string.
  by rewrite plain_app, HN.
Qed.

(** A string that starts with a visible character starts with no white space. *)
Definition starts_invisible (w : string) : bool := match w with String c _ => negb (visible c) | EmptyString => false end.

Lemma first_stripped_plain ws s : forallb starts_invisible ws = true -> plain s = true -> first_stripped ws s = None.
Proof.
  intros Hws Hs. induction ws as [|w ws IH]; [done|]. simpl in *. apply andb_prop in Hws as [Hw Hws].
  destruct w as [|a w]; [done|]. simpl. destruct s as [|c s]; [by apply IH|]. destruct (Ascii.eqb_spec a c) as [->|_]; [|by apply IH].
  simpl in *. by destruct (visible c).
Qed.

Lemma strip_all_plain fuel ws s : forallb starts_invisible ws = true -> plain s = true -> strip_all fuel ws s = s.
Proof. intros Hws Hs. destruct fuel; [done|]. simpl. by rewrite first_stripped_plain. Qed.

Lemma plain_list s : plain s = forallb visible (String.list_ascii_of_string s).
Proof. induction s as [|c s IH]; [done|]. simpl. by rewrite IH. Qed.

Lemma reverse_involutive s : reverse_string (reverse_string s) = s.
Proof.
  unfold reverse_string. by rewrite String.list_ascii_of_string_of_list_ascii, rev_involutive, String.string_of_list_ascii_of_string.
Qed.

Lemma plain_reverse s : plain s = true -> plain (reverse_string s) = true.
Proof.
  rewrite !plain_list. unfold reverse_string. rewrite String.list_ascii_of_string_of_list_ascii, !forallb_forall.
  intros Hs c Hc. apply Hs. by apply in_rev.
Qed.

(** [TrimSpace] leaves a string without white space as it is. *)
Lemma trimSpace_plain s : plain s = true -> trimSpace s = s.
Proof.
  intros Hs. unfold trimSpace. rewrite (strip_all_plain _ white_space s) by done.
  rewrite strip_all_plain by (done || by apply plain_reverse). apply reverse_involutive.
Qed.

(** ** Decimals *)

(** After the point the digits count. *)
Lemma digits_decimal s n k v :
  digits s n = Some v -> decimal s true true n k = Some (v, k + Z.of_nat (String.length s)).
Proof.
  revert n k. induction s as [|c s IH]; intros n k; simpl; [intros [= ->]; by rewrite Z.add_0_r|].
  destruct (digit c) as [d|]; [|done]. intros Hs. rewrite (IH _ (k + 1)) by done. do 2 f_equal. lia.
Qed.

Lemma digits_shift s n a v :
  digits s a = Some v -> digits s (a + n) = Some (n * 10 ^ Z.of_nat (String.length s) + v).
Proof.
  revert n a. induction s as [|c s IH]; intros n a; [intros [= ->]; simpl; f_equal; lia|].
  cbn [digits String.length]. destruct (digit c) as [d|]; [|done]. intros Hs.
  replace (10 * (a + n) + d) with (10 * a + d + 10 * n) by lia. rewrite (IH (10 * n) _ Hs).
  rewrite Nat2Z.inj_succ, Z.pow_succ_r by lia. f_equal. lia.
Qed.

Lemma zeros_digits j s : digits (zeros j s) 0 = digits s 0.
Proof. induction j as [|j IH]; [done|]. exact IH. Qed.

Lemma zeros_length j s : String.length (zeros j s) = (j + String.length s)%nat.
Proof. induction j as [|j IH]; [done|]. simpl. by rewrite IH. Qed.

Lemma go_length k x s : (x < 10 ^ N.of_nat k)%N -> (String.length (pretty_N_go x s) <= k + String.length s)%nat.
Proof.
  revert k s. induction x as [|x Hx IH] using digits_ind; intros k s Hk; [rewrite pretty_N_go_0; lia|].
  rewrite pretty_N_go_step by done. destruct k as [|k]; [simpl in Hk; lia|].
  rewrite Nat2N.inj_succ, N.pow_succ_r' in Hk. etrans; [apply (IH k); apply N.Div0.div_lt_upper_bound; lia|]. simpl. lia.
Qed.

Lemma itoa_length k x : 0 <= x < 10 ^ Z.of_nat (S k) -> (String.length (itoa x) <= S k)%nat.
Proof.
  intros Hx. rewrite itoa_N by lia. unfold pretty, pretty_N. destruct (decide (Z.to_N x = 0%N)); [simpl; lia|].
  etrans; [apply (go_length (S k))|simpl; lia]. apply N2Z.inj_lt. rewrite N2Z.inj_pow, Z2N.id, nat_N_Z by lia. simpl Z.of_N. lia.
Qed.

(** The number printed with [k] decimals. *)
Definition decimals (k : nat) (u : Z) : Z :=
  let n := u * 10 ^ Z.of_nat k in F64.pick (n / F64.one_u) (n mod F64.one_u) F64.one_u.

Lemma pick_nearest n D : 0 < D -> 2 * Z.abs (F64.pick (n / D) (n mod D) D * D - n) <= D.
Proof.
  intros HD. pose proof (Z.div_mod n D ltac:(lia)) as Hdm. pose proof (Z.mod_pos_bound n D HD) as Hm.
  unfold F64.pick. destruct (Z.compare_spec (2 * (n mod D)) D); [destruct (Z.even _)|..]; nia.
Qed.

(** It is as near as can be. *)
Lemma decimals_nearest k u : 2 * Z.abs (decimals k u * F64.one_u - u * 10 ^ Z.of_nat k) <= F64.one_u.
Proof. apply pick_nearest, F64.one_u_pos. Qed.

Lemma decimals_nonneg k u : 0 <= u -> 0 <= decimals k u.
Proof.
  intros Hu. unfold decimals, F64.pick. pose proof F64.one_u_pos.
  assert (0 <= u * 10 ^ Z.of_nat k) as Hn by (apply Z.mul_nonneg_nonneg; lia).
  pose proof (Z.div_pos _ F64.one_u Hn ltac:(lia)). repeat case_match; lia.
Qed.

(** A whole number is printed as it is. *)
Lemma decimals_int n : 0 <= n -> decimals 0 (n * F64.one_u) = n.
Proof.
  intros Hn. unfold decimals. pose proof F64.one_u_pos. rewrite Z.pow_0_r, Z.mul_1_r, Z.div_mul, Z.mod_mul by lia.
  unfold F64.pick. destruct (Z.compare_spec (2 * 0) F64.one_u); [lia|done|lia].
Qed.

Lemma fraction_reads j k f : 0 <= f < 10 ^ Z.of_nat (S k) -> forall n,
  decimal (pad (S k) (itoa f)) true true n j = Some (n * 10 ^ Z.of_nat (S k) + f, j + Z.of_nat (S k)).
Proof.
  intros Hf n. pose proof (itoa_length k f Hf) as Hlen. unfold pad.
  assert (String.length (zeros (S k - String.length (itoa f)) (itoa f)) = S k) as Hz by (rewrite zeros_length; lia).
  rewrite (digits_decimal _ n j (n * 10 ^ Z.of_nat (S k) + f)); rewrite ?Hz; [done|].
  rewrite <- (Z.add_0_l n) at 1. rewrite (digits_shift _ n 0 f), Hz; [done|].
  rewrite zeros_digits. apply itoa_digits. lia.
Qed.

(** [ParseFloat] of [%.kf]: the decimal nearest to the number. *)
Lemma parseFloat_fixed `{!Strconv} k u :
  0 <= u -> parseFloat (fixed k (F64.Fin false u)) = F64.dec (decimals k u) (Z.of_nat k).
Proof.
  intros Hu. unfold parseFloat, fixed. fold (decimals k u). pose proof (decimals_nonneg k u Hu) as Hm.
  set (m := decimals k u) in *. change ("" +:+ (?x +:+ ?y)) with (x +:+ y).
  assert (0 < 10 ^ Z.of_nat k) as Hb by (apply Z.pow_pos_nonneg; lia). cbn [String.append].
  rewrite itoa_decimal by (apply Z.div_pos; lia). destruct k as [|k].
  - simpl. by rewrite Z.div_1_r.
  - rewrite decide_False by done. set (t := pad (S k) _). change (decimal ("." +:+ t) false true ?q 0) with (decimal t true true q 0).
    unfold t. rewrite fraction_reads by (apply Z.mod_pos_bound; lia). f_equal.
    pose proof (Z.div_mod m (10 ^ Z.of_nat (S k)) ltac:(lia)). lia.
Qed.
