(* ===== verification/Utf8.v ===== *)
(** * Well-formed strings

    How a string falls into code points, and what [encoding/json] makes of the
    bytes that are no UTF-8: [decode_utf8] cuts off one encoding after the
    other, whatever follows it, so that [toValid] changes exactly the strings
    that are not well-formed, keeps their code points, and is done after one
    application. *)
From Stdlib Require Import Ascii.
From S2P Require Import Prelude Text TextProps.
Local Open Scope Z_scope.

(** ** Bytes *)

Definition is_byte (b : Z) : Prop := 0 <= b <= 255.

Lemma bytes_ok s : Forall is_byte (bytes s).
Proof.
  unfold bytes. apply Forall_fmap, Forall_true. intros c. unfold is_byte. simpl.
  pose proof (nat_ascii_bounded c). lia.
Qed.

Lemma of_bytes_bytes s : of_bytes (bytes s) = s.
Proof.
  unfold of_bytes, bytes. rewrite map_map. etransitivity; [|apply String.string_of_list_ascii_of_string]. f_equal.
  rewrite <- (map_id (String.list_ascii_of_string s)) at 2. apply map_ext. intros c.
  by rewrite Nat2Z.id, ascii_nat_embedding.
Qed.

Lemma bytes_of_bytes l : Forall is_byte l -> bytes (of_bytes l) = l.
Proof.
  intros Hl. unfold of_bytes, bytes. rewrite String.list_ascii_of_string_of_list_ascii, map_map.
  rewrite <- (map_id l) at 2. apply map_ext_in. intros b Hb. apply list_elem_of_In in Hb.
  rewrite Forall_forall in Hl. specialize (Hl b Hb). unfold is_byte in Hl. rewrite nat_ascii_embedding; lia.
Qed.

(** ** One encoding after the other *)

Lemma between_true lo hi b : between lo hi b = true <-> lo <= b <= hi.
Proof. unfold between. rewrite andb_true_iff, !Z.leb_le. done. Qed.

Lemma second_byte_true b0 b1 : second_byte b0 b1 = true -> 128 <= b1 <= 191.
Proof. unfold second_byte. repeat case_match; rewrite between_true; lia. Qed.

Lemma two_bytes_true b0 b1 : two_bytes b0 b1 = true -> 194 <= b0 <= 223 /\ 128 <= b1 <= 191.
Proof. unfold two_bytes. rewrite andb_true_iff, !between_true. done. Qed.

Lemma three_bytes_true b0 b1 b2 : three_bytes b0 b1 b2 = true -> 224 <= b0 <= 239 /\ 128 <= b1 <= 191 /\ 128 <= b2 <= 191.
Proof. unfold three_bytes. rewrite !andb_true_iff, !between_true. intros [[H0 H1%second_byte_true] H2]. done. Qed.

Lemma four_bytes_true b0 b1 b2 b3 :
  four_bytes b0 b1 b2 b3 = true -> 240 <= b0 <= 244 /\ 128 <= b1 <= 191 /\ 128 <= b2 <= 191 /\ 128 <= b3 <= 191.
Proof. unfold four_bytes. rewrite !andb_true_iff, !between_true. intros [[[H0 H1%second_byte_true] H2] H3]. done. Qed.

(** A code point and its encoding. *)
Inductive encoding : Z * list Z -> Prop :=
| encoding_1 b0 : b0 < 128 -> encoding (b0, [b0])
| encoding_2 b0 b1 : two_bytes b0 b1 = true -> encoding ((b0 - 192) * 64 + (b1 - 128), [b0; b1])
| encoding_3 b0 b1 b2 :
    three_bytes b0 b1 b2 = true -> encoding (((b0 - 224) * 64 + (b1 - 128)) * 64 + (b2 - 128), [b0; b1; b2])
| encoding_4 b0 b1 b2 b3 :
    four_bytes b0 b1 b2 b3 = true ->
    encoding ((((b0 - 240) * 64 + (b1 - 128)) * 64 + (b2 - 128)) * 64 + (b3 - 128), [b0; b1; b2; b3]).

(** A byte that starts none. *)
Inductive stray : Z * list Z -> Prop :=
| stray_byte b0 : 128 <= b0 -> stray (runeError, [b0]).

(** An encoding is read as itself, whatever follows it. *)
Lemma decode_encoding c rest : encoding c -> decode_utf8 (c.2 ++ rest) = c :: decode_utf8 rest.
Proof.
  intros [b0 Hb|b0 b1 Hb|b0 b1 b2 Hb|b0 b1 b2 b3 Hb]; simpl.
  - by rewrite (proj2 (Z.ltb_lt _ _) Hb).
  - pose proof (two_bytes_true _ _ Hb). rewrite (proj2 (Z.ltb_ge b0 128)) by lia. by rewrite Hb.
  - pose proof (three_bytes_true _ _ _ Hb). rewrite (proj2 (Z.ltb_ge b0 128)) by lia.
    destruct (two_bytes b0 b1) eqn:H2; [apply two_bytes_true in H2; lia|]. by rewrite Hb.
  - pose proof (four_bytes_true _ _ _ _ Hb). rewrite (proj2 (Z.ltb_ge b0 128)) by lia.
    destruct (two_bytes b0 b1) eqn:H2; [apply two_bytes_true in H2; lia|].
    destruct (three_bytes b0 b1 b2) eqn:H3; [apply three_bytes_true in H3; lia|]. by rewrite Hb.
Qed.

Lemma decode_first b0 l1 :
  exists c rest, b0 :: l1 = c.2 ++ rest /\ decode_utf8 (b0 :: l1) = c :: decode_utf8 rest /\ (encoding c \/ stray c).
Proof.
  assert (forall c rest, encoding c -> b0 :: l1 = c.2 ++ rest ->
    exists c rest, b0 :: l1 = c.2 ++ rest /\ decode_utf8 (b0 :: l1) = c :: decode_utf8 rest /\ (encoding c \/ stray c)) as Henc.
  { intros c rest Hc Heq. exists c, rest. rewrite Heq. split; [done|]. split; [by apply decode_encoding|by left]. }
  destruct (Z.ltb_spec b0 128) as [Hb|Hb]; [by apply (Henc (b0, [b0]) l1); [constructor|]|].
  assert (decode_utf8 (b0 :: l1) = (runeError, [b0]) :: decode_utf8 l1 ->
    exists c rest, b0 :: l1 = c.2 ++ rest /\ decode_utf8 (b0 :: l1) = c :: decode_utf8 rest /\ (encoding c \/ stray c)) as Hstray.
  { intros Heq. exists (runeError, [b0]), l1. split; [done|]. split; [done|]. right. by constructor. }
  pose proof (proj2 (Z.ltb_ge b0 128) Hb) as Hlt.
  destruct l1 as [|b1 l2]; [apply Hstray; simpl; by rewrite Hlt|].
  destruct (two_bytes b0 b1) eqn:H2; [by eapply Henc; [by apply encoding_2|]|].
  destruct l2 as [|b2 l3]; [apply Hstray; simpl; by rewrite Hlt, H2|].
  destruct (three_bytes b0 b1 b2) eqn:H3; [by eapply Henc; [by apply encoding_3|]|].
  destruct l3 as [|b3 l4]; [apply Hstray; simpl; by rewrite Hlt, H2, H3|].
  destruct (four_bytes b0 b1 b2 b3) eqn:H4; [by eapply Henc; [by apply encoding_4|]|].
  apply Hstray. simpl. by rewrite Hlt, H2, H3, H4.
Qed.

(** Induction on the encodings and stray bytes of a string. *)
Lemma utf8_ind (P : list Z -> Prop) :
  P [] ->
  (forall c rest, encoding c \/ stray c -> decode_utf8 (c.2 ++ rest) = c :: decode_utf8 rest -> P rest -> P (c.2 ++ rest)) ->
  forall l, P l.
Proof.
  intros Hnil Hcons l. remember (length l) as n eqn:Hn. revert l Hn. induction (Nat.lt_wf_0 n) as [n _ IH].
  intros [|b0 l1] ->; [done|]. destruct (decode_first b0 l1) as (c & rest & Heq & Hd & Hc). rewrite Heq in Hd |- *.
  apply Hcons; [done|done|]. apply (IH (length rest)); [|done]. rewrite Heq, length_app.
  assert (0 < length c.2)%nat; [|lia]. destruct Hc as [[]|[]]; simpl; lia.
Qed.

Lemma encoding_well_formed c : encoding c -> ill_formed c = false.
Proof.
  unfold ill_formed, runeError. intros [b0 Hb|b0 b1 _|b0 b1 b2 _|b0 b1 b2 b3 _]; simpl; rewrite ?andb_false_r; [|done..].
  by rewrite (proj2 (Z.eqb_neq _ _)) by lia.
Qed.

Lemma stray_ill_formed c : stray c -> ill_formed c = true.
Proof. by intros []. Qed.

(** U+FFFD *)
Definition replacement : Z * list Z := (runeError, [239; 191; 189]).

Definition mended (c : Z * list Z) : Z * list Z := if ill_formed c then replacement else c.

Lemma replacement_encoding : encoding replacement.
Proof. by apply (encoding_3 239 191 189). Qed.

Lemma coerced_mended c : coerced c = (mended c).2.
Proof. unfold coerced, mended. by destruct (ill_formed c). Qed.

Lemma mended_encoding c : encoding c \/ stray c -> encoding (mended c).
Proof.
  unfold mended. intros [Hc|Hc]; [by rewrite encoding_well_formed|].
  rewrite stray_ill_formed by done. apply replacement_encoding.
Qed.

Lemma mended_rune c : (mended c).1 = c.1.
Proof.
  destruct c as [r c]. unfold mended, ill_formed. cbn [fst snd]. destruct (Z.eqb_spec r runeError) as [->|]; [|done].
  by destruct (length c =? 1)%nat.
Qed.

(** The pieces are the string. *)
Lemma decode_pieces l : concat (map snd (decode_utf8 l)) = l.
Proof. induction l as [|c rest _ Hd IH] using utf8_ind; [done|]. rewrite Hd. simpl. by rewrite IH. Qed.

(** A mended string is read as its mended pieces. *)
Lemma decode_mended l : decode_utf8 (concat (map coerced (decode_utf8 l))) = map mended (decode_utf8 l).
Proof.
  induction l as [|c rest Hc Hd IH] using utf8_ind; [done|]. rewrite Hd. simpl.
  pose proof (mended_encoding c Hc) as Hm. by rewrite coerced_mended, (decode_encoding _ _ Hm), IH.
Qed.

Lemma coerced_bytes l : Forall is_byte l -> Forall is_byte (concat (map coerced (decode_utf8 l))).
Proof.
  induction l as [|c rest _ Hd IH] using utf8_ind; [done|]. rewrite Hd. simpl. rewrite !Forall_app.
  intros [Hc Hrest]. split; [|by apply IH]. unfold coerced. destruct (ill_formed c); [|done]. unfold is_byte. repeat constructor; lia.
Qed.

Lemma decode_toValid s : decode_utf8 (bytes (toValid s)) = map mended (decode_utf8 (bytes s)).
Proof. unfold toValid. rewrite bytes_of_bytes by apply coerced_bytes, bytes_ok. apply decode_mended. Qed.

(** ** What [encoding/json] does to a string *)

Lemma toValid_id s : validString s = true -> toValid s = s.
Proof.
  unfold validString. rewrite forallb_forall. intros Hs. etransitivity; [|apply of_bytes_bytes].
  rewrite <- (decode_pieces (bytes s)) at 1. unfold toValid. f_equal. rewrite decode_pieces.
  rewrite <- (decode_pieces (bytes s)) at 2. f_equal. apply map_ext_in. intros c Hc.
  unfold coerced. specialize (Hs c Hc). apply negb_true_iff in Hs. by rewrite Hs.
Qed.

Lemma mended_well_formed c : ill_formed (mended c) = false.
Proof. unfold mended. destruct (ill_formed c) eqn:Hc; [reflexivity|exact Hc]. Qed.

Lemma toValid_valid s : validString (toValid s) = true.
Proof.
  unfold validString. rewrite decode_toValid, forallb_forall. intros c Hc. apply in_map_iff in Hc as (c' & <- & _).
  by rewrite mended_well_formed.
Qed.

(** It changes exactly the strings that are not well-formed, *)
Lemma toValid_iff s : toValid s = s <-> validString s = true.
Proof. split; [intros <-; apply toValid_valid|apply toValid_id]. Qed.

(** and never what a [range] over them yields. *)
Lemma toValid_runes s : runes (toValid s) = runes s.
Proof. unfold runes. rewrite decode_toValid, map_map. apply map_ext, mended_rune. Qed.

Lemma ascii_valid s : Forall (fun b => b < 128) (bytes s) -> validString s = true.
Proof.
  unfold validString. induction (bytes s) as [|b0 l IH]; [done|]. intros [Hb Hl]%Forall_cons. simpl.
  rewrite (proj2 (Z.ltb_lt b0 128) Hb). simpl. rewrite encoding_well_formed by (by constructor). by apply IH.
Qed.

Lemma plain_valid s : plain s = true -> validString s = true.
Proof.
  rewrite plain_list, forallb_forall. intros Hs. apply ascii_valid. unfold bytes. apply Forall_fmap, Forall_forall.
  intros c Hc%list_elem_of_In. specialize (Hs c Hc). unfold visible in Hs. apply andb_true_iff in Hs as [_ Hc'%Nat.leb_le]. simpl. lia.
Qed.

(** The text of a number is left alone. *)
Lemma toValid_itoa z : toValid (itoa z) = itoa z.
Proof. apply toValid_id, plain_valid, plain_itoa. Qed.

Example stray_bytes_are_replaced :
  toValid (of_bytes [97; 255; 226; 130; 172; 237; 160; 128]) = of_bytes [97; 239; 191; 189; 226; 130; 172; 239; 191; 189; 239; 191; 189; 239; 191; 189].
Proof. vm_compute. reflexivity. Qed.
