(* ===== verification/Wire.v ===== *)
(** * The wire types as JSON: [src/internal/protocol/protocol.go],
    and those of the example engine

    What [encoding/json] makes of the field tags: how each type is written as
    a JSON value and read back. The text of a JSON value is not modelled: its
    strings are the bytes between the quotes, the escapes resolved. Bytes that
    are no UTF-8 become U+FFFD, both when a string is written and when one, be
    it a value or the name of a member, is read. *)
From stdpp Require Import pretty.
From S2P Require Import Prelude Protocol Text TextProps Utf8.
Local Open Scope Z_scope.

(** A number is its literal. *)
Inductive json :=
| JNull
| JBool (b : bool)
| JNum (literal : string)
| JStr (s : string)
| JArr (elements : list json)
| JObj (members : list (string * json)).

(** The folding under which a member name matches a field that is not named
    exactly so. *)
Class FoldName := foldName : string -> string.

(** A type with its encoding, and the decoding of a value over an old one:
    [null] leaves it, [None] is an error. *)
Class Wire (A : Type) := {
  zero_value : A;
  encode : A -> json;
  decode_over : json -> A -> option A
}.

Definition decode {A} `{!Wire A} (j : json) : option A := decode_over j zero_value.

(** ** Basic types *)

#[export] Instance wire_int : Wire Z := {|
  zero_value := 0;
  encode z := JNum (itoa z);
  decode_over j old := match j with JNull => Some old | JNum s => parseInt_ok s | _ => None end
|}.

#[export] Instance wire_string : Wire string := {|
  zero_value := ""%string;
  encode s := JStr (toValid s);
  decode_over j old := match j with JNull => Some old | JStr s => Some (toValid s) | _ => None end
|}.

#[export] Instance wire_bool : Wire bool := {|
  zero_value := false;
  encode := JBool;
  decode_over j old := match j with JNull => Some old | JBool b => Some b | _ => None end
|}.

(** A slice is decoded anew; a [null] makes it nil. *)
#[export] Instance wire_slice {A} `{!Wire A} : Wire (list A) := {|
  zero_value := [];
  encode l := JArr (map encode l);
  decode_over j old := match j with JNull => Some [] | JArr js => mapM decode js | _ => None end
|}.

Definition by_name (x y : string * json) : Prop := String.le x.1 y.1.
#[export] Instance by_name_dec x y : Decision (by_name x y).
Proof. unfold by_name. apply _. Defined.

(** The keys of a map of integers are decimal strings, in the order of strings. *)
Definition count_members (m : gmap Z Z) : list (string * json) :=
  merge_sort by_name (map (fun kv => (itoa kv.1, encode kv.2)) (map_to_list m)).

(** Members are added to the map there is. *)
Definition decode_count (m : option (gmap Z Z)) (kv : string * json) : option (gmap Z Z) :=
  m ← m; k ← parseInt_ok (toValid kv.1); v ← decode kv.2; Some (<[k := v]> m).

#[export] Instance wire_counts : Wire (gmap Z Z) := {|
  zero_value := ∅;
  encode m := JObj (count_members m);
  decode_over j old := match j with JNull => Some ∅ | JObj ms => foldl decode_count (Some old) ms | _ => None end
|}.

(** ** Structs *)

Section structs.
Context `{!FoldName}.

(** The field a member is for: the one of that name, or the first whose name
    folds to the same; other members are ignored. *)
Definition match_field (fields : list string) (name : string) : option string :=
  let name := toValid name in
  if existsb (String.eqb name) fields then Some name
  else List.find (fun f => String.eqb (foldName f) (foldName name)) fields.

(** The value of a field after all members: each that is for it is decoded
    over the value so far. ([encoding/json] reuses the old elements of a slice
    that is named twice; here it is decoded anew.) *)
Definition decode_field {A} `{!Wire A} (fields : list string) (members : list (string * json)) (f : string) (old : A) : option A :=
  foldl (fun acc m =>
    a ← acc;
    match match_field fields m.1 with
    | Some f' => if String.eqb f' f then decode_over m.2 a else Some a
    | None => Some a
    end) (Some old) members.

(** The members of an object; a [null] has none. *)
Definition members_of (j : json) : option (list (string * json)) :=
  match j with JNull => Some [] | JObj ms => Some ms | _ => None end.

(** A member that is left out when [empty]. *)
Definition omitempty (empty : bool) (name : string) (j : json) : list (string * json) :=
  if empty then [] else [(name, j)].

Definition is_nil {A} (l : list A) : bool := match l with [] => true | _ => false end.

Definition Order_fields : list string := ["id"; "side"; "type"; "price"; "qty"].
#[export] Instance wire_Order : Wire Order := {|
  zero_value := mkOrder "" "" "" 0 0;
  encode o := JObj ([("id", encode (o_id o)); ("side", encode (o_side o)); ("type", encode (o_type o))]
    ++ omitempty (o_price o =? 0) "price" (encode (o_price o)) ++ [("qty", encode (o_qty o))]);
  decode_over j o :=
    ms ← members_of j;
    let field {A} `{!Wire A} := decode_field (A := A) Order_fields ms in
    id ← field "id" (o_id o); side ← field "side" (o_side o); type ← field "type" (o_type o);
    price ← field "price" (o_price o); qty ← field "qty" (o_qty o);
    Some (mkOrder id side type price qty)
|}.

Definition Fill_fields : list string := ["price"; "qty"; "maker_id"].
#[export] Instance wire_Fill : Wire Fill := {|
  zero_value := mkFill 0 0 "";
  encode f := JObj [("price", encode (f_price f)); ("qty", encode (f_qty f)); ("maker_id", encode (f_maker f))];
  decode_over j f :=
    ms ← members_of j;
    let field {A} `{!Wire A} := decode_field (A := A) Fill_fields ms in
    price ← field "price" (f_price f); qty ← field "qty" (f_qty f); maker ← field "maker_id" (f_maker f);
    Some (mkFill price qty maker)
|}.

Definition Ack_fields : list string := ["order_id"; "seq"; "status"; "fills"; "ts"].
#[export] Instance wire_Ack : Wire Ack := {|
  zero_value := zeroAck;
  encode a := JObj ([("order_id", encode (a_order a)); ("seq", encode (a_seq a)); ("status", encode (a_status a))]
    ++ omitempty (is_nil (a_fills a)) "fills" (encode (a_fills a)) ++ [("ts", encode (a_ts a))]);
  decode_over j a :=
    ms ← members_of j;
    let field {A} `{!Wire A} := decode_field (A := A) Ack_fields ms in
    order ← field "order_id" (a_order a); seq ← field "seq" (a_seq a); status ← field "status" (a_status a);
    fills ← field "fills" (a_fills a); ts ← field "ts" (a_ts a);
    Some (mkAck order seq status fills ts)
|}.

Definition RunJob_fields : list string := ["run_id"; "submission_id"; "bots"; "duration_s"; "max_rps"].
#[export] Instance wire_RunJob : Wire RunJob := {|
  zero_value := mkRunJob "" "" 0 0 0;
  encode j := JObj [("run_id", encode (rj_run j)); ("submission_id", encode (rj_submission j)); ("bots", encode (rj_bots j));
    ("duration_s", encode (rj_duration j)); ("max_rps", encode (rj_max_rps j))];
  decode_over js j :=
    ms ← members_of js;
    let field {A} `{!Wire A} := decode_field (A := A) RunJob_fields ms in
    run ← field "run_id" (rj_run j); sub ← field "submission_id" (rj_submission j); bots ← field "bots" (rj_bots j);
    duration ← field "duration_s" (rj_duration j); rps ← field "max_rps" (rj_max_rps j);
    Some (mkRunJob run sub bots duration rps)
|}.

Definition LoadShard_fields : list string :=
  ["run_id"; "target"; "shard"; "total_shards"; "bots"; "duration_s"; "max_rps"; "seed"].
#[export] Instance wire_LoadShard : Wire LoadShard := {|
  zero_value := mkLoadShard "" "" 0 0 0 0 0 0;
  encode s := JObj [("run_id", encode (ls_run s)); ("target", encode (ls_target s)); ("shard", encode (ls_shard s));
    ("total_shards", encode (ls_total s)); ("bots", encode (ls_bots s)); ("duration_s", encode (ls_duration s));
    ("max_rps", encode (ls_max_rps s)); ("seed", encode (ls_seed s))];
  decode_over j s :=
    ms ← members_of j;
    let field {A} `{!Wire A} := decode_field (A := A) LoadShard_fields ms in
    run ← field "run_id" (ls_run s); target ← field "target" (ls_target s); shard ← field "shard" (ls_shard s);
    total ← field "total_shards" (ls_total s); bots ← field "bots" (ls_bots s); duration ← field "duration_s" (ls_duration s);
    rps ← field "max_rps" (ls_max_rps s); seed ← field "seed" (ls_seed s);
    Some (mkLoadShard run target shard total bots duration rps seed)
|}.

Definition TelemetryBatch_fields : list string :=
  ["run_id"; "shard"; "total_shards"; "final"; "sent"; "acked"; "errors"; "violations"; "hist"; "sec_acks"; "sec_errs"; "samples"].
#[export] Instance wire_TelemetryBatch : Wire TelemetryBatch := {|
  zero_value := mkBatch "" 0 0 false 0 0 0 0 ∅ ∅ ∅ [];
  encode b := JObj ([("run_id", encode (tb_run b)); ("shard", encode (tb_shard b)); ("total_shards", encode (tb_total b));
    ("final", encode (tb_final b)); ("sent", encode (tb_sent b)); ("acked", encode (tb_acked b)); ("errors", encode (tb_errors b));
    ("violations", encode (tb_violations b)); ("hist", encode (tb_hist b)); ("sec_acks", encode (tb_sec_acks b));
    ("sec_errs", encode (tb_sec_errs b))] ++ omitempty (is_nil (tb_samples b)) "samples" (encode (tb_samples b)));
  decode_over j b :=
    ms ← members_of j;
    let field {A} `{!Wire A} := decode_field (A := A) TelemetryBatch_fields ms in
    run ← field "run_id" (tb_run b); shard ← field "shard" (tb_shard b); total ← field "total_shards" (tb_total b);
    final ← field "final" (tb_final b); sent ← field "sent" (tb_sent b); acked ← field "acked" (tb_acked b);
    errors ← field "errors" (tb_errors b); violations ← field "violations" (tb_violations b);
    hist ← field "hist" (tb_hist b); sec_acks ← field "sec_acks" (tb_sec_acks b); sec_errs ← field "sec_errs" (tb_sec_errs b);
    samples ← field "samples" (tb_samples b);
    Some (mkBatch run shard total final sent acked errors violations hist sec_acks sec_errs samples)
|}.

(** ** Reading back *)

Lemma decode_field_nil {A} `{!Wire A} fields f (old : A) : decode_field fields [] f old = Some old.
Proof. done. Qed.

Lemma decode_field_skip {A} `{!Wire A} fields n j ms f (old : A) :
  match_field fields n = Some n -> String.eqb n f = false -> decode_field fields ((n, j) :: ms) f old = decode_field fields ms f old.
Proof. intros Hm Hne. unfold decode_field. simpl. by rewrite Hm, Hne. Qed.

Lemma decode_field_hit {A} `{!Wire A} fields f j ms (old a : A) :
  match_field fields f = Some f -> decode_over j old = Some a -> decode_field fields ((f, j) :: ms) f old = decode_field fields ms f a.
Proof. intros Hm Hd. unfold decode_field. simpl. by rewrite Hm, String.eqb_refl, Hd. Qed.
End structs.

(** ** The types of the example engine

    [src/examples/reference-engine/main.go] declares its own order, fill and
    ack; the model of its book uses those of the protocol. *)

Module Engine.
Record order := mkOrder { id : string; side : string; type : string; price : Z; qty : Z }.
Record fill := mkFill { fill_price : Z; fill_qty : Z; maker_id : string }.
Record ack := mkAck { order_id : string; seq : Z; status : string; fills : list fill; ts : Z }.

Definition order_fields : list string := ["id"; "side"; "type"; "price"; "qty"].
Definition fill_fields : list string := ["price"; "qty"; "maker_id"].
Definition ack_fields : list string := ["order_id"; "seq"; "status"; "fills"; "ts"].

#[global] Instance wire_order `{!FoldName} : Wire order := {|
  zero_value := mkOrder "" "" "" 0 0;
  encode o := JObj ([("id", encode (id o)); ("side", encode (side o)); ("type", encode (type o))]
    ++ omitempty (price o =? 0) "price" (encode (price o)) ++ [("qty", encode (qty o))]);
  decode_over j o :=
    ms ← members_of j;
    let field {A} `{!Wire A} := decode_field (A := A) order_fields ms in
    id ← field "id" (id o); side ← field "side" (side o); type ← field "type" (type o);
    price ← field "price" (price o); qty ← field "qty" (qty o);
    Some (mkOrder id side type price qty)
|}.

#[global] Instance wire_fill `{!FoldName} : Wire fill := {|
  zero_value := mkFill 0 0 "";
  encode f := JObj [("price", encode (fill_price f)); ("qty", encode (fill_qty f)); ("maker_id", encode (maker_id f))];
  decode_over j f :=
    ms ← members_of j;
    let field {A} `{!Wire A} := decode_field (A := A) fill_fields ms in
    price ← field "price" (fill_price f); qty ← field "qty" (fill_qty f); maker ← field "maker_id" (maker_id f);
    Some (mkFill price qty maker)
|}.

#[global] Instance wire_ack `{!FoldName} : Wire ack := {|
  zero_value := mkAck "" 0 "" [] 0;
  encode a := JObj ([("order_id", encode (order_id a)); ("seq", encode (seq a)); ("status", encode (status a))]
    ++ omitempty (is_nil (fills a)) "fills" (encode (fills a)) ++ [("ts", encode (ts a))]);
  decode_over j a :=
    ms ← members_of j;
    let field {A} `{!Wire A} := decode_field (A := A) ack_fields ms in
    order ← field "order_id" (order_id a); seq ← field "seq" (seq a); status ← field "status" (status a);
    fills ← field "fills" (fills a); ts ← field "ts" (ts a);
    Some (mkAck order seq status fills ts)
|}.

(** The same order, and the same ack, on the other side of the wire. *)
Definition received (o : Order) : order := mkOrder (o_id o) (o_side o) (o_type o) (o_price o) (o_qty o).
Definition answered_fill (f : fill) : Fill := Protocol.mkFill (fill_price f) (fill_qty f) (maker_id f).
Definition answered (a : ack) : Ack := Protocol.mkAck (order_id a) (seq a) (status a) (map answered_fill (fills a)) (ts a).

Lemma encode_received `{!FoldName} o : encode (received o) = encode o.
Proof. reflexivity. Qed.

Lemma encode_answered `{!FoldName} a : encode (answered a) = encode a.
Proof.
  destruct a as [order seq status fills ts]. unfold answered. simpl.
  assert (map (fun f : Fill => encode f) (map answered_fill fills) = map (fun f : fill => encode f) fills) as Hf.
  { rewrite map_map. reflexivity. }
  simpl in Hf. rewrite Hf. by destruct fills.
Qed.
End Engine.

(** ** What survives the wire

    The strings in a value, and the value with each of them made well-formed. *)
Class Texts (A : Type) := { texts : A -> list string; mend : A -> A }.

#[export] Instance texts_int : Texts Z := {| texts _ := []; mend z := z |}.
#[export] Instance texts_bool : Texts bool := {| texts _ := []; mend b := b |}.
#[export] Instance texts_counts : Texts (gmap Z Z) := {| texts _ := []; mend m := m |}.
#[export] Instance texts_string : Texts string := {| texts s := [s]; mend := toValid |}.
#[export] Instance texts_slice {A} `{!Texts A} : Texts (list A) := {| texts l := concat (map texts l); mend := map mend |}.
#[export] Instance texts_Order : Texts Order := {|
  texts o := [o_id o; o_side o; o_type o];
  mend o := mkOrder (mend (o_id o)) (mend (o_side o)) (mend (o_type o)) (mend (o_price o)) (mend (o_qty o)) |}.
#[export] Instance texts_Fill : Texts Fill := {|
  texts f := [f_maker f]; mend f := mkFill (mend (f_price f)) (mend (f_qty f)) (mend (f_maker f)) |}.
#[export] Instance texts_Ack : Texts Ack := {|
  texts a := a_order a :: a_status a :: texts (a_fills a);
  mend a := mkAck (mend (a_order a)) (mend (a_seq a)) (mend (a_status a)) (mend (a_fills a)) (mend (a_ts a)) |}.
#[export] Instance texts_RunJob : Texts RunJob := {|
  texts j := [rj_run j; rj_submission j];
  mend j := mkRunJob (mend (rj_run j)) (mend (rj_submission j)) (mend (rj_bots j)) (mend (rj_duration j)) (mend (rj_max_rps j)) |}.
#[export] Instance texts_LoadShard : Texts LoadShard := {|
  texts s := [ls_run s; ls_target s];
  mend s := mkLoadShard (mend (ls_run s)) (mend (ls_target s)) (mend (ls_shard s)) (mend (ls_total s)) (mend (ls_bots s))
    (mend (ls_duration s)) (mend (ls_max_rps s)) (mend (ls_seed s)) |}.
#[export] Instance texts_TelemetryBatch : Texts TelemetryBatch := {|
  texts b := tb_run b :: texts (tb_samples b);
  mend b := mkBatch (mend (tb_run b)) (mend (tb_shard b)) (mend (tb_total b)) (mend (tb_final b)) (mend (tb_sent b))
    (mend (tb_acked b)) (mend (tb_errors b)) (mend (tb_violations b)) (mend (tb_hist b)) (mend (tb_sec_acks b))
    (mend (tb_sec_errs b)) (mend (tb_samples b)) |}.

(** Well-formed strings, which [mend] leaves alone and leaves behind. *)
Definition valid_texts {A} `{!Texts A} (a : A) : Prop := Forall (fun s => validString s = true) (texts a).

Class Mends (A : Type) `{!Texts A} : Prop := {
  mend_id a : valid_texts a -> mend a = a;
  mend_valid a : valid_texts (mend a)
}.

#[export] Instance mends_string : Mends string.
Proof.
  split; unfold valid_texts; simpl; intros s; rewrite Forall_singleton; [apply toValid_id|apply toValid_valid].
Qed.

#[export] Instance mends_slice {A} `{!Texts A, !Mends A} : Mends (list A).
Proof.
  split; unfold valid_texts; simpl; intros l; rewrite Forall_concat, Forall_map.
  - intros Hl. rewrite <- (map_id l) at 2. apply map_ext_Forall. eapply Forall_impl; [exact Hl|]. intros a. apply mend_id.
  - rewrite Forall_map. apply Forall_true, mend_valid.
Qed.

Lemma valid_cons (s : string) l :
  Forall (fun s => validString s = true) (s :: l) <-> validString s = true /\ Forall (fun s => validString s = true) l.
Proof. by rewrite Forall_cons. Qed.

(** A struct is mended field by field. *)
Ltac mends :=
  split;
  [ intros []; unfold valid_texts; cbn [texts]; cbn; rewrite ?valid_cons; intros Hv; destruct_and? Hv; f_equal;
    first [by apply toValid_id|done|match goal with Hl : Forall _ (concat _) |- map _ ?l = _ => exact (mend_id l Hl) end]
  | intros []; unfold valid_texts; cbn; rewrite ?valid_cons; split_and?;
    first [apply toValid_valid|by constructor|match goal with |- Forall _ (concat (map _ (map _ ?l))) => exact (mend_valid l) end] ].

#[export] Instance mends_Order : Mends Order.
Proof. mends. Qed.
#[export] Instance mends_Fill : Mends Fill.
Proof. mends. Qed.
#[export] Instance mends_Ack : Mends Ack.
Proof. mends. Qed.
#[export] Instance mends_RunJob : Mends RunJob.
Proof. mends. Qed.
#[export] Instance mends_LoadShard : Mends LoadShard.
Proof. mends. Qed.
#[export] Instance mends_TelemetryBatch : Mends TelemetryBatch.
Proof. mends. Qed.

(** What [encode] writes of an [ok] value is decoded to it, mended, over a zero value. *)
Class RoundTrip (A : Type) `{!Wire A, !Texts A} (ok : A -> Prop) : Prop :=
  round_trip a : ok a -> decode_over (encode a) zero_value = Some (mend a).

Lemma int_trip (z old : Z) : Int64.in_range z -> decode_over (encode z) old = Some (mend z).
Proof. apply parseInt_ok_itoa. Qed.

Lemma string_trip (s old : string) : decode_over (encode s) old = Some (mend s).
Proof. simpl. f_equal. apply toValid_id, toValid_valid. Qed.

Lemma bool_trip (b old : bool) : decode_over (encode b) old = Some (mend b).
Proof. done. Qed.

Lemma decode_encode {A} `{!Wire A, !Texts A} (ok : A -> Prop) `{!RoundTrip A ok} a : ok a -> decode (encode a) = Some (mend a).
Proof. apply round_trip. Qed.

Lemma slice_trip {A} `{!Wire A, !Texts A} (ok : A -> Prop) `{!RoundTrip A ok} (l old : list A) :
  Forall ok l -> decode_over (encode l) old = Some (mend l).
Proof.
  intros Hl. simpl. induction Hl as [|a l Ha _ IH]; [done|]. simpl. rewrite (decode_encode ok a Ha). simpl. by rewrite IH.
Qed.

(** Keys and counts that fit. *)
Definition counts_fit (m : gmap Z Z) : Prop := forall k v, m !! k = Some v -> Int64.in_range k /\ Int64.in_range v.

Lemma decode_counts kvs m :
  Forall (fun kv => Int64.in_range kv.1 /\ Int64.in_range kv.2) kvs ->
  foldl decode_count (Some m) (map (fun kv => (itoa kv.1, encode kv.2)) kvs) = Some (foldl (fun m kv => <[kv.1 := kv.2]> m) m kvs).
Proof.
  intros Hk. revert m. induction Hk as [|[k v] kvs [Hk Hv] _ IH]; intros m; [done|]. cbn [map foldl fst snd].
  assert (decode_count (Some m) (itoa k, encode v) = Some (<[k := v]> m)) as ->; [|apply IH].
  unfold decode_count. cbn [fst snd mbind option_bind]. rewrite toValid_itoa, parseInt_ok_itoa by done. cbn [mbind option_bind].
  unfold decode. by rewrite int_trip.
Qed.

Lemma insert_all kvs (m : gmap Z Z) :
  NoDup kvs.*1 -> foldl (fun m kv => <[kv.1 := kv.2]> m) m kvs = list_to_map kvs ∪ m.
Proof.
  revert m. induction kvs as [|[k v] kvs IH]; intros m Hnd; simpl; [by rewrite (left_id_L ∅ (∪))|].
  simpl in Hnd. apply NoDup_cons in Hnd as [Hk Hnd]. rewrite IH by done.
  rewrite <- insert_union_l, insert_union_r; [done|]. by apply not_elem_of_list_to_map.
Qed.

Lemma counts_trip (m : gmap Z Z) : counts_fit m -> decode_over (encode m) ∅ = Some (mend m).
Proof.
  intros Hm. change (foldl decode_count (Some ∅) (count_members m) = Some m).
  destruct (Permutation_map_inv (fun kv : Z * Z => (itoa kv.1, encode kv.2)) (map_to_list m)
              (merge_sort_Permutation by_name _)) as (kvs & Hk & Hp).
  fold (count_members m) in Hk. rewrite Hk, decode_counts, insert_all, (right_id_L ∅ (∪)).
  - f_equal. rewrite <- (list_to_map_to_list m). symmetry. apply list_to_map_proper; [apply NoDup_fst_map_to_list|done].
  - rewrite <- Hp. apply NoDup_fst_map_to_list.
  - rewrite <- Hp. apply Forall_forall. intros [k v] Hin%elem_of_map_to_list. by apply Hm.
Qed.

Create HintDb wire.
#[local] Hint Resolve int_trip string_trip bool_trip counts_trip : wire.

(** Reads the fields of an encoded struct, one member at a time. *)
Ltac read_fields :=
  repeat (first
    [ rewrite decode_field_nil
    | rewrite decode_field_skip by reflexivity
    | lazymatch goal with
      |- context [decode_field ?fs ((?f, encode ?x) :: ?ms) ?f ?old] =>
          rewrite (decode_field_hit fs f (encode x) ms old (mend x)) by (reflexivity || eauto with wire)
      end ]; cbn [mbind option_bind]).

(** ** The types of the protocol *)

Section types.
Context `{!FoldName}.
Abbreviation int := Int64.in_range (only parsing).

Definition Order_ok (o : Order) : Prop := int (o_price o) /\ int (o_qty o).
Definition Fill_ok (f : Fill) : Prop := int (f_price f) /\ int (f_qty f).
Definition Ack_ok (a : Ack) : Prop := int (a_seq a) /\ int (a_ts a) /\ Forall Fill_ok (a_fills a).
Definition RunJob_ok (j : RunJob) : Prop := int (rj_bots j) /\ int (rj_duration j) /\ int (rj_max_rps j).
Definition LoadShard_ok (s : LoadShard) : Prop :=
  int (ls_shard s) /\ int (ls_total s) /\ int (ls_bots s) /\ int (ls_duration s) /\ int (ls_max_rps s) /\ int (ls_seed s).
Definition TelemetryBatch_ok (b : TelemetryBatch) : Prop :=
  int (tb_shard b) /\ int (tb_total b) /\ int (tb_sent b) /\ int (tb_acked b) /\ int (tb_errors b) /\ int (tb_violations b)
  /\ counts_fit (tb_hist b) /\ counts_fit (tb_sec_acks b) /\ counts_fit (tb_sec_errs b).

Lemma Order_trip : RoundTrip Order Order_ok.
Proof.
  intros [id side type price qty] [H1 H2].
  cbn [encode decode_over zero_value wire_Order members_of mbind option_bind o_id o_side o_type o_price o_qty] in *.
  unfold Order_fields, omitempty. destruct (Z.eqb_spec price 0) as [->|]; cbn [app]; by read_fields.
Qed.

#[export] Instance Fill_trip : RoundTrip Fill Fill_ok.
Proof.
  intros [price qty maker] [H1 H2].
  cbn [encode decode_over zero_value wire_Fill members_of mbind option_bind f_price f_qty f_maker] in *.
  unfold Fill_fields. by read_fields.
Qed.

Lemma fills_trip (l old : list Fill) : Forall Fill_ok l -> decode_over (encode l) old = Some (mend l).
Proof. apply (slice_trip Fill_ok). Qed.

#[export] Instance string_round : RoundTrip string (fun _ => True).
Proof. intros s _. apply string_trip. Qed.

Lemma strings_trip (l old : list string) : decode_over (encode l) old = Some (mend l).
Proof. apply (slice_trip (fun _ => True)); by apply Forall_true. Qed.

#[local] Hint Resolve fills_trip strings_trip : wire.

Lemma Ack_trip : RoundTrip Ack Ack_ok.
Proof.
  intros [order seq status fills ts] (H1 & H2 & H3).
  cbn [encode decode_over zero_value zeroAck wire_Ack members_of mbind option_bind a_order a_seq a_status a_fills a_ts] in *.
  unfold Ack_fields, omitempty. destruct fills as [|f fills]; cbn [is_nil app]; by read_fields.
Qed.

Lemma RunJob_trip : RoundTrip RunJob RunJob_ok.
Proof.
  intros [run sub bots duration rps] (H1 & H2 & H3).
  cbn [encode decode_over zero_value wire_RunJob members_of mbind option_bind rj_run rj_submission rj_bots rj_duration rj_max_rps] in *.
  unfold RunJob_fields. by read_fields.
Qed.

Lemma LoadShard_trip : RoundTrip LoadShard LoadShard_ok.
Proof.
  intros [run target shard total bots duration rps seed] (H1 & H2 & H3 & H4 & H5 & H6).
  cbn [encode decode_over zero_value wire_LoadShard members_of mbind option_bind
       ls_run ls_target ls_shard ls_total ls_bots ls_duration ls_max_rps ls_seed] in *.
  unfold LoadShard_fields. by read_fields.
Qed.

Lemma TelemetryBatch_trip : RoundTrip TelemetryBatch TelemetryBatch_ok.
Proof.
  intros [run shard total final sent acked errors violations hist acks errs samples] (H1 & H2 & H3 & H4 & H5 & H6 & H7 & H8 & H9).
  cbn [encode decode_over zero_value wire_TelemetryBatch members_of mbind option_bind tb_run tb_shard tb_total tb_final
       tb_sent tb_acked tb_errors tb_violations tb_hist tb_sec_acks tb_sec_errs tb_samples] in *.
  unfold TelemetryBatch_fields, omitempty. destruct samples as [|m samples]; cbn [is_nil app]; by read_fields.
Qed.

(** An engine's order, encoded as a protocol order is. *)
Lemma engine_order_trip o : Order_ok o -> decode (encode (Engine.received o)) = Some (Engine.received (mend o)).
Proof.
  destruct o as [id side type price qty]. unfold decode, Engine.received. intros [H1 H2].
  cbn [encode decode_over zero_value Engine.wire_order members_of mbind option_bind
    Engine.id Engine.side Engine.type Engine.price Engine.qty o_id o_side o_type o_price o_qty] in *.
  unfold Engine.order_fields, omitempty. destruct (Z.eqb_spec price 0) as [->|]; cbn [app]; by read_fields.
Qed.

(** A member no field is for changes nothing. *)
Lemma decode_field_other {A} `{!Wire A} fields n j ms ms' f (old : A) :
  match_field fields n = None -> decode_field fields (ms ++ (n, j) :: ms') f old = decode_field fields (ms ++ ms') f old.
Proof.
  intros Hn. unfold decode_field. rewrite !foldl_app. simpl. destruct (foldl _ (Some old) ms); simpl; by rewrite ?Hn.
Qed.

(** Whatever fits is decoded with its strings made well-formed, so to itself
    when they are. *)
Definition survives {A} `{!Wire A, !Texts A} (ok : A -> Prop) : Prop :=
  forall a, ok a -> decode (encode a) = Some (mend a) /\ valid_texts (mend a) /\ (valid_texts a -> decode (encode a) = Some a).

Lemma trip_survives {A} `{!Wire A, !Texts A, !Mends A} (ok : A -> Prop) : RoundTrip A ok -> survives ok.
Proof.
  intros Ht a Ha. pose proof (Ht a Ha : decode (encode a) = Some (mend a)) as Hd.
  split; [exact Hd|]. split; [apply mend_valid|]. intros Hv. by rewrite Hd, mend_id.
Qed.

(** C21. The wire types survive JSON. Every order, fill, ack, job, shard and
    batch whose integers are [int64] and whose strings are well-formed UTF-8 is
    decoded from what it is encoded to, with the members that are left out
    when empty, the maps whose keys become strings, and whatever the folding
    of names. With other strings it is decoded with U+FFFD for each byte that
    is no UTF-8 and nothing else changed, and its strings are then well-formed;
    a string is changed exactly when it is not well-formed, and its code points
    never are. The example engine, which has types of its own, reads the order
    that was sent, and its ack is read as the ack it is, up to the same. An
    engine may add members to an ack that no field is for. *)
Theorem wire_types_survive_json :
  survives Order_ok /\ survives Fill_ok /\ survives Ack_ok
  /\ survives RunJob_ok /\ survives LoadShard_ok /\ survives TelemetryBatch_ok
  /\ (forall s, decode (encode s) = Some (toValid s) /\ (toValid s = s <-> validString s = true) /\ runes (toValid s) = runes s)
  /\ (forall o, Order_ok o -> decode (encode o) = Some (Engine.received (mend o)))
  /\ (forall a, Ack_ok (Engine.answered a) -> decode (encode a) = Some (mend (Engine.answered a)))
  /\ (forall n j ms ms', match_field Ack_fields n = None ->
       decode (A := Ack) (JObj (ms ++ (n, j) :: ms')) = decode (A := Ack) (JObj (ms ++ ms'))).
Proof.
  split_and!; [apply trip_survives, Order_trip|apply trip_survives, Fill_trip|apply trip_survives, Ack_trip
    |apply trip_survives, RunJob_trip|apply trip_survives, LoadShard_trip|apply trip_survives, TelemetryBatch_trip| | | |].
  { intros s. split; [apply string_trip|]. split; [apply toValid_iff|apply toValid_runes]. }
  { intros o Ho. rewrite <- Engine.encode_received. by apply engine_order_trip. }
  { intros a Ha. rewrite <- Engine.encode_answered. by apply Ack_trip. }
  intros n j ms ms' Hn. unfold decode. cbn [decode_over wire_Ack members_of mbind option_bind]. by rewrite !decode_field_other.
Qed.
End types.

(** ** Witness *)

#[local] Instance same_name : FoldName := fun s => s.

Definition demo_batch : TelemetryBatch :=
  mkBatch "run1" 1 2 true 12 11 1 0 {[-3 := 4; 17 := 7]} {[1700000000 := 11]} {[1700000000 := 1]} [].

Definition stray_fill : Fill := mkFill 10 1 (of_bytes [97; 255]).

Lemma wire_types_survive_json_witness :
  decode (encode demo_batch) = Some demo_batch
  /\ decode (encode stray_fill) = Some (mkFill 10 1 (of_bytes [97; 239; 191; 189]))
  /\ decode (A := Ack) (JObj [("order_id", JStr "a"); ("note", JArr [JNull]); ("seq", JNum "3")]) = Some (mkAck "a" 3 "" [] 0).
Proof.
  destruct wire_types_survive_json as (_ & Hfill & _ & _ & _ & Hbatch & _ & _ & _ & Hack). split; [|split].
  - apply Hbatch; [|repeat constructor]. unfold TelemetryBatch_ok, counts_fit, demo_batch. simpl.
    split_and!; try decide_now; intros k v;
      rewrite ?lookup_insert_Some, ?lookup_singleton_Some; intros Hk;
      (assert ((k = -3 \/ k = 17 \/ k = 1700000000) /\ (v = 4 \/ v = 7 \/ v = 11 \/ v = 1)) as [Hk' Hv'] by naive_solver);
      split; unfold Int64.in_range, Int64.min_val, Int64.max_val; lia.
  - apply Hfill. split; decide_now.
  - etransitivity; [apply (Hack "note" (JArr [JNull]) [("order_id", JStr "a")] [("seq", JNum "3")]); reflexivity|reflexivity].
Defined.
