(* ===== verification/IO.v ===== *)
(** * The world of the services

    What the services call and cannot compute: the clock, Redis, docker, the
    file system, HTTP to an engine, random numbers. A call and its reply are
    data; an [Env] decides the reply, and a theorem quantifies over it or
    states the laws it uses. A service runs in the monad of the prelude over a
    [World]: the environment, the service's own variables, and the trace of
    the calls made so far with the replies they got.

    A value that a service sends through JSON (a job, a shard, a batch, an
    order, an ack) is the decoded value; [Wire] shows that nothing of it is
    lost in the encoding, its strings being well-formed UTF-8. *)
From S2P Require Import Prelude Protocol Float64 Text.
Local Open Scope Z_scope.

(** What a Redis field, key or message is set to. *)
Inductive value :=
| VStr (s : string)
| VInt (z : Z)
| VFloat (x : F64.t).

Inductive message :=
| MJob (j : RunJob)
| MShard (s : LoadShard)
| MBatch (b : TelemetryBatch).

(** A leaderboard row, as published. *)
Record boardRow := mkRow {
  br_rank : Z;
  br_submission : string;
  br_team : string;
  br_name : string;
  br_run : string;
  br_score : F64.t;
  br_p50 : Z;
  br_p99 : Z;
  br_tps : F64.t;
  br_correctness : F64.t
}.

(** The outcome of a request to an engine: a transport error, or a status code
    with the ack its body decodes to. *)
Inductive http_reply :=
| HttpErr (msg : string)
| HttpResp (code : Z) (body : Ack + string).

(** What a read of a consumer group returns: nothing in time, an error, or
    messages with their ids. The payload of a message is what it decodes to as
    an [A], or the decoding error; [None] when it has no text payload. *)
Definition delivery (A : Type) : Type := string * option (A + string).
Inductive fetched (A : Type) :=
| FetchNil
| FetchErr (msg : string)
| Fetched (msgs : list (delivery A)).
Arguments FetchNil {A}.
Arguments FetchErr {A} _.
Arguments Fetched {A} _.

Inductive call :=
| Now
| Sleep (ns : Z)
| HSet (key : string) (fields : list (string * value))
| HGet (key field : string)
| HGetAll (key : string)
| Exists (key : string)
| LPush (key v : string)
| LTrim (key : string) (start stop : Z)
| LRange (key : string) (start stop : Z)
| XAdd (stream : string) (m : message)
| XGroupCreateMkStream (stream group start : string)
| ReadJobs (stream group : string) (count : Z)
| ReadShards (stream group : string) (count : Z)
| ReadBatches (stream group : string) (count : Z)
| XAck (stream group id : string)
| GetKey (key : string)
| SetKey (key v : string)
| ZScore (key member : string)
| ZAdd (key : string) (score : F64.t) (member : string)
| ZRevRange (key : string) (start stop : Z)
| SetBoard (key : string) (rows : list boardRow)
| Publish (channel : string) (rows : list boardRow)
| Archive (fields : list (string * value))
| OpenFile (path : string)
| CreateFile (path : string)
| WriteFile (path : string)
| Docker (stdin : option string) (args : list string)
| HttpGet (url : string)
| PostOrder (url : string) (o : Order)
| DeleteOrder (url : string)
| RandomId
| Intn (n : Z)
| Float64.

(** The reply a caller sees; [None] where the Go call returns an error, the
    zero value where the caller drops the error. *)
Definition reply (c : call) : Type :=
  match c with
  | Now => Z
  | HGet _ _ | GetKey _ => option string
  | HGetAll _ => gmap string string
  | Exists _ => Z
  | LRange _ _ _ => list string
  | ReadJobs _ _ _ => fetched RunJob
  | ReadShards _ _ _ => fetched LoadShard
  | ReadBatches _ _ _ => fetched TelemetryBatch
  | XAdd _ _ | OpenFile _ | CreateFile _ => option string (* the error *)
  | ZScore _ _ => option F64.t
  | ZRevRange _ _ _ => option (list (string * F64.t))
  | Docker _ _ => string * bool (* the output; whether there was an error *)
  | WriteFile _ => Z * option string (* the bytes written, and the error *)
  | HttpGet _ => option Z (* the status code *)
  | PostOrder _ _ | DeleteOrder _ => http_reply
  | RandomId => string
  | Intn _ => Z
  | Float64 => F64.t
  | _ => unit
  end.

(** Zero values and failures. *)
Definition default_reply (c : call) : reply c :=
  match c with
  | Now | Exists _ | Intn _ => 0
  | Float64 => F64.zero
  | RandomId => ""%string
  | HGet _ _ | GetKey _ | XAdd _ _ | OpenFile _ | CreateFile _ => None
  | HGetAll _ => ∅
  | LRange _ _ _ => []
  | ReadJobs _ _ _ | ReadShards _ _ _ | ReadBatches _ _ _ => FetchNil
  | ZScore _ _ => None
  | ZRevRange _ _ _ => None
  | Docker _ _ => (""%string, true)
  | WriteFile _ => (0, None)
  | HttpGet _ => None
  | PostOrder _ _ | DeleteOrder _ => HttpErr "no route"
  | Sleep _ | HSet _ _ | LPush _ _ | LTrim _ _ _ | XAck _ _ _ | SetKey _ _ | ZAdd _ _ _
  | SetBoard _ _ | Publish _ _ | Archive _ | XGroupCreateMkStream _ _ _ => tt
  end.

(** An environment of state [W] answers every call. *)
Class Env (W : Type) := env_step : forall c : call, W -> reply c * W.

Definition event : Type := { c : call & reply c }.
Definition ev (c : call) (r : reply c) : event := existT c r.

(** The call of an event. *)
Definition called (e : event) : call := projT1 e.

Record World (W L : Type) := mkWorld {
  env : W;
  local : L;
  trace : list event
}.
Arguments mkWorld {W L} _ _ _.
Arguments env {W L} _.
Arguments local {W L} _.
Arguments trace {W L} _.

Section io.
Context {W L : Type} `{!Env W}.

Definition perform (c : call) : M (World W L) (reply c) := fun w =>
  let '(r, e) := env_step c (env w) in
  Ok (r, mkWorld e (local w) (trace w ++ [ev c r])).

Definition get_local : M (World W L) L := w ← get; mret (local w).
Definition put_local (l : L) : M (World W L) () :=
  modify (fun w => mkWorld (env w) l (trace w)).
Definition modify_local (f : L -> L) : M (World W L) () :=
  modify (fun w => mkWorld (env w) (f (local w)) (trace w)).

Fixpoint for_each {A} (l : list A) (f : A -> M (World W L) ()) : M (World W L) () :=
  match l with
  | [] => mret ()
  | x :: l' => f x;; for_each l' f
  end.

(** ** Reasoning: [wp m Q w], running [m] in [w] succeeds and satisfies [Q] *)

Definition wp {A} (m : M (World W L) A) (Q : A -> World W L -> Prop) (w : World W L) : Prop :=
  exists a w', m w = Ok (a, w') /\ Q a w'.

(** The world a run ends in. *)
Definition final_world {A} (m : M (World W L) A) (w : World W L) : World W L := match m w with Ok (_, w') => w' | _ => w end.

Lemma final_world_ok {A} (m : M (World W L) A) w a w' : m w = Ok (a, w') -> w' = final_world m w.
Proof. unfold final_world. by intros ->. Qed.

Lemma wp_ret {A} (a : A) Q w : Q a w -> wp (mret a) Q w.
Proof. by exists a, w. Qed.

Lemma wp_bind {A B} (m : M (World W L) A) (k : A -> M (World W L) B) Q w :
  wp m (fun a => wp (k a) Q) w -> wp (m ≫= k) Q w.
Proof.
  intros (a & w1 & Hm & b & w2 & Hk & HQ). exists b, w2. split; [|done].
  etrans; [eapply bind_ok, Hm|]. done.
Qed.

Lemma wp_mono {A} (m : M (World W L) A) (Q Q' : A -> World W L -> Prop) w :
  wp m Q w -> (forall a w', Q a w' -> Q' a w') -> wp m Q' w.
Proof. intros (a & w' & Hm & HQ) H. exists a, w'. auto. Qed.

(** [m] returns with [Q], or panics, which it does only under [P]; it never
    runs out of fuel. *)
Definition wp_or_panic {A} (m : M (World W L) A) (P : Prop) (Q : A -> World W L -> Prop) (w : World W L) : Prop :=
  match m w with Ok (a, w') => Q a w' | Panic => P | OutOfFuel => False end.

Lemma wp_no_panic {A} (m : M (World W L) A) P Q w : wp m Q w -> wp_or_panic m P Q w.
Proof. unfold wp_or_panic. by intros (a & w' & -> & HQ). Qed.

Lemma no_panic_wp {A} (m : M (World W L) A) (P : Prop) Q w : ~ P -> wp_or_panic m P Q w -> wp m Q w.
Proof. unfold wp_or_panic. intros HP. destruct (m w) as [[a w']| |] eqn:Hm; [|done..]. by exists a, w'. Qed.

Lemma wp_or_panic_bind {A B} (m : M (World W L) A) (k : A -> M (World W L) B) P Q w :
  wp m (fun a => wp_or_panic (k a) P Q) w -> wp_or_panic (m ≫= k) P Q w.
Proof. intros (a & w1 & Hm & Hk). unfold wp_or_panic, mbind, M_bind. by rewrite Hm. Qed.

Lemma wp_or_panic_mono {A} (m : M (World W L) A) P (Q Q' : A -> World W L -> Prop) w :
  wp_or_panic m P Q w -> (forall a w', Q a w' -> Q' a w') -> wp_or_panic m P Q' w.
Proof. unfold wp_or_panic. destruct (m w) as [[a w']| |]; auto. Qed.

(** A call may get any reply; the trace grows by it. *)
Lemma wp_perform c Q w :
  (forall r e, env_step c (env w) = (r, e) ->
     Q r (mkWorld e (local w) (trace w ++ [ev c r]))) ->
  wp (perform c) Q w.
Proof.
  intros H. unfold wp, perform. destruct (env_step c (env w)) as [r e] eqn:He.
  eexists _, _. split; [done|]. by apply H.
Qed.

Lemma wp_get_local Q w : Q (local w) w -> wp get_local Q w.
Proof. intros H. by exists (local w), w. Qed.

Lemma wp_put_local l Q w : Q () (mkWorld (env w) l (trace w)) -> wp (put_local l) Q w.
Proof. intros H. by eexists _, _. Qed.

Lemma wp_modify_local f Q w :
  Q () (mkWorld (env w) (f (local w)) (trace w)) -> wp (modify_local f) Q w.
Proof. intros H. by eexists _, _. Qed.

(** The environment goes from [e] to [e'] by answering the calls of [tr]. *)
Inductive runs : W -> list event -> W -> Prop :=
| runs_nil e : runs e [] e
| runs_cons e c r e1 tr e2 : env_step c e = (r, e1) -> runs e1 tr e2 -> runs e (ev c r :: tr) e2.

Lemma runs_app e tr e1 tr' e2 : runs e tr e1 -> runs e1 tr' e2 -> runs e (tr ++ tr') e2.
Proof. induction 1; [done|]. intros. econstructor; eauto. Qed.

Lemma runs_one c e r e1 : env_step c e = (r, e1) -> runs e [ev c r] e1.
Proof. intros. econstructor; [done|constructor]. Qed.

Lemma runs_inv e x tr e' : runs e (x :: tr) e' -> exists e1, env_step (called x) e = (projT2 x, e1) /\ runs e1 tr e'.
Proof.
  intros Hr. remember (x :: tr) as l eqn:Hl. destruct Hr as [|e c r e1 l' e2 He Hr]; [done|].
  pose proof (f_equal (@List.tl event) Hl) as Htl. pose proof (f_equal (List.hd x) Hl) as Hhd. simpl in Htl, Hhd.
  rewrite <- Hhd, <- Htl. by exists e1.
Qed.

Lemma runs_split tr1 tr2 e e' : runs e (tr1 ++ tr2) e' -> exists e1, runs e tr1 e1 /\ runs e1 tr2 e'.
Proof.
  revert e. induction tr1 as [|[c r] tr1 IH]; intros e Hr; [exists e; split; [constructor|done]|].
  apply runs_inv in Hr as (e1 & He & Hr). destruct (IH e1 Hr) as (e2 & H1 & H2). exists e2.
  split; [by econstructor|done].
Qed.

(** A loop over a list keeps an invariant on the part already visited. *)
Lemma wp_for_each {A} (l : list A) f (I : list A -> World W L -> Prop) w :
  I [] w ->
  (forall done x rest w, l = done ++ x :: rest -> I done w -> wp (f x) (fun _ => I (done ++ [x])) w) ->
  wp (for_each l f) (fun _ => I l) w.
Proof.
  intros H0 Hstep.
  cut (forall rest pre w, l = pre ++ rest -> I pre w -> wp (for_each rest f) (fun _ => I l) w).
  { intros H. by apply (H l []). }
  induction rest as [|x rest IH]; intros pre w' Hl Hpre; simpl.
  - rewrite app_nil_r in Hl. subst. by apply wp_ret.
  - apply wp_bind. eapply wp_mono; [by eapply Hstep|]. intros [] w1 H1. simpl.
    apply (IH (pre ++ [x])); [|done]. by rewrite <- app_assoc.
Qed.

(** ** What a stretch of a run did *)

(** From [w] to [w'] the calls [tr] were made and the state is [i]. *)
Definition acted (w w' : World W L) (i : L) (tr : list event) : Prop :=
  local w' = i /\ trace w' = trace w ++ tr /\ runs (env w) tr (env w').

Lemma acted_refl w : acted w w (local w) [].
Proof. split_and!; [done|by rewrite app_nil_r|constructor]. Qed.

Lemma acted_trans w w1 w2 i j tr tr' : acted w w1 i tr -> acted w1 w2 j tr' -> acted w w2 j (tr ++ tr').
Proof.
  intros (_ & T1 & R1) (L2 & T2 & R2). split_and!; [done|by rewrite T2, T1, app_assoc|by eapply runs_app].
Qed.

Lemma acted_call w i tr c Q w1 :
  acted w w1 i tr -> (forall r w2, acted w w2 i (tr ++ [ev c r]) -> Q r w2) -> wp (perform c) Q w1.
Proof.
  intros (D1 & D2 & D3) HQ. apply wp_perform. intros r e He. apply HQ.
  split_and!; simpl; [done|by rewrite D2, app_assoc|]. by eapply runs_app, runs_one.
Qed.

(** The same for a call whose replies obey a law. *)
Lemma acted_call_law w i tr c (P : reply c -> Prop) Q w1 :
  (forall e r e', env_step c e = (r, e') -> P r) -> acted w w1 i tr ->
  (forall r w2, P r -> acted w w2 i (tr ++ [ev c r]) -> Q r w2) -> wp (perform c) Q w1.
Proof.
  intros HP (D1 & D2 & D3) HQ. apply wp_perform. intros r e He. apply HQ; [by eapply HP|].
  split_and!; simpl; [done|by rewrite D2, app_assoc|]. by eapply runs_app, runs_one.
Qed.

Lemma acted_modify w i tr f Q w1 :
  acted w w1 i tr -> (forall w2, acted w w2 (f i) tr -> Q () w2) -> wp (modify_local f) Q w1.
Proof. intros (D1 & D2 & D3) HQ. apply wp_modify_local, HQ. split_and!; simpl; [by rewrite D1|done|done]. Qed.

Lemma acted_put w i tr i' Q w1 :
  acted w w1 i tr -> (forall w2, acted w w2 i' tr -> Q () w2) -> wp (put_local i') Q w1.
Proof. intros (D1 & D2 & D3) HQ. apply wp_put_local, HQ. by split_and!. Qed.

Lemma acted_get w i tr Q w1 :
  acted w w1 i tr -> Q i w1 -> wp get_local Q w1.
Proof. intros (D1 & D2 & D3) HQ. apply wp_get_local. by rewrite D1. Qed.

End io.

Arguments World W L : clear implicits.
Arguments perform : simpl never.

Create HintDb wp.
Create HintDb runs.
#[export] Hint Resolve wp_ret : wp.
#[export] Hint Resolve runs_one runs_nil runs_app : runs.

(** One step of symbolic execution. *)
Ltac wp_step :=
  match goal with
  | |- wp (mbind _ (perform ?c)) _ _ => apply wp_bind, (wp_perform c); intros ?r ?e ?Henv
  | |- wp (perform ?c) _ _ => apply (wp_perform c); intros ?r ?e ?Henv
  | |- wp (mbind _ get_local) _ _ => apply wp_bind, wp_get_local
  | |- wp (mbind _ (put_local _)) _ _ => apply wp_bind, wp_put_local
  | |- wp (mbind _ (modify_local _)) _ _ => apply wp_bind, wp_modify_local
  | |- wp (modify_local _) _ _ => apply wp_modify_local
  | |- wp (put_local _) _ _ => apply wp_put_local
  | |- wp (mbind _ (mret _)) _ _ => apply wp_bind, wp_ret
  | |- wp (mret _) _ _ => apply wp_ret
  | |- wp (mbind _ (mbind _ _)) _ _ => apply wp_bind
  end; cbn beta.

(** A call extends what was done: [D] says what was done before it. *)
Ltac do_call D := lazymatch goal with |- wp (perform ?c) _ _ => eapply (acted_call _ _ _ c); [exact D|] end.

(** The calls that change something outside; a consumer group remembers what
    it delivered. *)
Definition is_write (c : call) : bool :=
  match c with
  | HSet _ _ | LPush _ _ | LTrim _ _ _ | XAdd _ _ | XGroupCreateMkStream _ _ _ | ReadJobs _ _ _ | ReadShards _ _ _ | ReadBatches _ _ _ | XAck _ _ _
  | SetKey _ _ | ZAdd _ _ _ | SetBoard _ _ | Publish _ _ | Archive _ | CreateFile _ | WriteFile _ | Docker _ _ | PostOrder _ _ | DeleteOrder _ => true
  | _ => false
  end.
Definition writes (tr : list event) : list call := List.filter is_write (map called tr).

Lemma writes_app tr tr' : writes (tr ++ tr') = writes tr ++ writes tr'.
Proof. unfold writes. by rewrite map_app, List.filter_app. Qed.

