(* ===== verification/Store.v ===== *)
(** * The store the services share

    What the services rely on of Redis, as an abstract machine: its state,
    what each command does to it, and what each query may answer. An
    environment obeys it when every call is answered so and has that effect.
    Commands the machine says nothing of (lists, streams) leave it as it is,
    and their answers are free. An executable store is the last section. *)
From S2P Require Import Prelude Protocol Float64 Text IO.
Local Open Scope Z_scope.

(** Hashes, plain keys, keys that hold a published board, sorted sets. *)
Record store := mkStore {
  st_hash : gmap string (gmap string string);
  st_str : gmap string string;
  st_snap : gmap string (list boardRow);
  st_zset : gmap string (gmap string F64.t)
}.

Definition hash (s : store) (key : string) : gmap string string := default ∅ (st_hash s !! key).
Definition zset (s : store) (key : string) : gmap string F64.t := default ∅ (st_zset s !! key).

(** The text a field is stored as. How a float is printed is a parameter: no
    service stores one in a hash. *)
Class FloatText := float_text : F64.t -> string.
Definition text_of `{!FloatText} (v : value) : string :=
  match v with VStr s => s | VInt z => itoa z | VFloat x => float_text x end.

Definition set_fields `{!FloatText} (fields : list (string * value)) (h : gmap string string) : gmap string string :=
  foldl (fun h kv => <[kv.1 := text_of kv.2]> h) h fields.

Definition effect `{!FloatText} (c : call) (s : store) : store :=
  match c with
  | HSet key fields => mkStore (<[key := set_fields fields (hash s key)]> (st_hash s)) (st_str s) (st_snap s) (st_zset s)
  | SetKey key v => mkStore (st_hash s) (<[key := v]> (st_str s)) (delete key (st_snap s)) (st_zset s)
  | SetBoard key rows => mkStore (st_hash s) (delete key (st_str s)) (<[key := rows]> (st_snap s)) (st_zset s)
  | ZAdd key sc m => mkStore (st_hash s) (st_str s) (st_snap s) (<[key := <[m := sc]> (zset s key)]> (st_zset s))
  | _ => s
  end.

(** The first [n] members of a sorted set, the highest scores first. *)
Definition highest (n : nat) (z : gmap string F64.t) (l : list (string * F64.t)) : Prop :=
  exists rest, l ++ rest ≡ₚ map_to_list z /\ length l = Nat.min n (size z)
  /\ StronglySorted (fun x y => F64.leb y.2 x.2 = true) l
  /\ Forall (fun x => Forall (fun y => F64.leb y.2 x.2 = true) rest) l.

Definition numeric (z : gmap string F64.t) : Prop := forall m sc, z !! m = Some sc -> exists a, F64.num sc a.

Definition answers (c : call) (s : store) : reply c -> Prop :=
  match c return reply c -> Prop with
  | HGet key field => fun r => r = hash s key !! field
  | HGetAll key => fun r => r = hash s key
  | GetKey key => fun r => st_snap s !! key = None -> r = st_str s !! key
  | ZScore key m => fun r => r = zset s key !! m
  | ZRevRange key start stop => fun r =>
      start = 0 -> 0 <= stop -> numeric (zset s key) ->
      exists l, r = Some l /\ highest (Z.to_nat (stop + 1)) (zset s key) l
  | _ => fun _ => True
  end.

Class StoreLaws {W} `{!Env W, !FloatText} (view : W -> store) : Prop :=
  store_law c (e : W) r e' : env_step c e = (r, e') -> answers c (view e) r /\ view e' = effect c (view e).

Lemma wp_store {W L} `{!Env W, !FloatText} (view : W -> store) `{!StoreLaws view} c Q (w : World W L) :
  (forall r e, answers c (view (env w)) r -> view e = effect c (view (env w)) ->
     Q r (mkWorld e (local w) (trace w ++ [ev c r]))) ->
  wp (perform c) Q w.
Proof. intros HQ. apply wp_perform. intros r e He. destruct (store_law c _ _ _ He). by apply HQ. Qed.

Lemma hash_hset `{!FloatText} key fields s k :
  hash (effect (HSet key fields) s) k = if decide (k = key) then set_fields fields (hash s key) else hash s k.
Proof.
  unfold hash. simpl. destruct (decide (k = key)) as [->|Hne]; [by rewrite lookup_insert_eq|by rewrite lookup_insert_ne].
Qed.

Lemma set_fields_other `{!FloatText} fields h k : ~ (k ∈ fields.*1) -> set_fields fields h !! k = h !! k.
Proof.
  unfold set_fields. revert h. induction fields as [|[k' v'] fields IH]; intros h Hk; [done|].
  simpl in *. apply not_elem_of_cons in Hk as [Hne Hk]. rewrite IH by done. by rewrite lookup_insert_ne.
Qed.

Lemma set_fields_lookup `{!FloatText} fields h k v :
  NoDup fields.*1 -> (k, v) ∈ fields -> set_fields fields h !! k = Some (text_of v).
Proof.
  revert h. induction fields as [|[k' v'] fields IH]; intros h Hnd Hin; [by apply elem_of_nil in Hin|].
  apply NoDup_cons in Hnd as [Hk Hnd]. apply elem_of_cons in Hin as [[= -> ->]|Hin]; [|by apply IH].
  change (set_fields fields (<[k' := text_of v']> h) !! k' = Some (text_of v')).
  by rewrite set_fields_other, lookup_insert_eq.
Qed.

(** ** A field that is written once *)

(** The call sets the field of some hash. *)
Definition sets (f : string) (c : call) : bool :=
  match c with HSet _ fields => existsb (fun kv => String.eqb kv.1 f) fields | _ => false end.

(** What a reader relies on of a field another service has written: [says v e]
    is that the field [f] of [key] is recorded as [v] in the state [e], and then
    it is read so, as long as nobody sets such a field. *)
Class Recorded {W} `{!Env W} (key f : string) (says : string -> W -> Prop) : Prop := {
  recorded_read v (e : W) r e' : says v e -> env_step (HGet key f) e = (r, e') -> r = Some v;
  recorded_kept v c (e : W) r e' : says v e -> sets f c = false -> env_step c e = (r, e') -> says v e'
}.

(** What was read of a field. *)
Definition field_read (e : event) : option (option string) := match e with existT (HGet _ _) r => Some r | _ => None end.

Lemma recorded_runs {W} `{!Env W} key f says `{!Recorded key f says} v e tr e' :
  runs e tr e' -> says v e -> forallb (fun c => negb (sets f c)) (map called tr) = true ->
  forall r, ev (HGet key f) r ∈ tr -> r = Some v.
Proof.
  induction 1 as [e|e c r e1 tr e2 He _ IH]; intros Hs Hq x Hx; [by apply elem_of_nil in Hx|].
  simpl in Hq. apply andb_true_iff in Hq as [Hc%negb_true_iff Hq]. apply elem_of_cons in Hx as [Hx|Hx].
  - pose proof (f_equal called Hx) as Heq. unfold called, ev in Heq. simpl in Heq. subst c.
    apply (f_equal field_read) in Hx. simpl in Hx. injection Hx as ->.
    by eapply recorded_read.
  - eapply IH; [by eapply recorded_kept|done|done].
Qed.

(** A store that obeys the laws records its fields. *)
Lemma store_records {W} `{!Env W, !FloatText} (view : W -> store) `{!StoreLaws view} key f :
  Recorded key f (fun v e => hash (view e) key !! f = Some v).
Proof.
  split.
  - intros v e r e' Hv He. destruct (store_law _ _ _ _ He) as [Ha _]. simpl in Ha. by rewrite Ha.
  - intros v c e r e' Hv Hc He. destruct (store_law _ _ _ _ He) as [_ ->]. destruct c; try exact Hv.
    rewrite hash_hset. destruct (decide _) as [<-|]; [|exact Hv]. rewrite set_fields_other; [exact Hv|].
    intros (kv & -> & Hin)%list_elem_of_fmap. simpl in Hc. rewrite <- not_true_iff_false in Hc. apply Hc.
    apply existsb_exists. exists kv. split; [by apply list_elem_of_In|apply String.eqb_refl].
Qed.

(** ** A store that runs *)

Definition score_key (sc : F64.t) : Z := match sc with F64.Fin s u => F64.units s u | _ => 0 end.
Definition higher (x y : string * F64.t) : Prop := score_key y.2 <= score_key x.2.
#[local] Instance higher_dec x y : Decision (higher x y).
Proof. unfold higher. apply _. Defined.
#[local] Instance higher_total : Total higher.
Proof. intros x y. unfold higher. lia. Qed.
#[local] Instance higher_trans : Transitive higher.
Proof. intros x y z. unfold higher. lia. Qed.

Definition redis `{!FloatText} : Env store := fun c s =>
  let r : reply c := match c return reply c with
    | HGet key field => hash s key !! field
    | HGetAll key => hash s key
    | GetKey key => st_str s !! key
    | ZScore key m => zset s key !! m
    | ZRevRange key start stop => Some (take (Z.to_nat (stop + 1)) (merge_sort higher (map_to_list (zset s key))))
    | c => default_reply c
    end in (r, effect c s).

Lemma num_key sc a : F64.num sc a -> score_key sc = a.
Proof. intros (s & u & -> & _ & Hu). exact Hu. Qed.

Lemma redis_highest n z : numeric z -> highest n z (take n (merge_sort higher (map_to_list z))).
Proof.
  intros Hnum. set (l := merge_sort higher (map_to_list z)).
  assert (l ≡ₚ map_to_list z) as Hp by apply merge_sort_Permutation.
  assert (StronglySorted higher l) as Hs by (apply StronglySorted_merge_sort; apply _).
  assert (forall x y, x ∈ l -> y ∈ l -> higher x y -> F64.leb y.2 x.2 = true) as Hle.
  { intros [k1 x] [k2 y]. rewrite Hp, !elem_of_map_to_list. intros [a Ha]%Hnum [b Hb]%Hnum. unfold higher. simpl.
    rewrite (num_key _ _ Ha), (num_key _ _ Hb). intros Hab. rewrite (F64.leb_num y x b a) by done. lia. }
  exists (drop n l). rewrite take_drop. split_and!; [done| | |].
  - rewrite length_take, Hp. f_equal. apply length_map_to_list.
  - clearbody l. clear Hp. revert n Hle. induction Hs as [|x l Hs IH Hall]; intros n Hle; [by destruct n; constructor|].
    destruct n as [|n]; simpl; constructor; [apply IH; set_solver|]. rewrite Forall_forall in Hall |- *.
    intros y Hy. assert (y ∈ l) as Hin by (by eapply subseteq_take). apply Hle; [left|by right|auto].
  - rewrite <- (take_drop n l) in Hs. apply StronglySorted_app in Hs as (Hxy & _ & _). rewrite !Forall_forall.
    intros x Hx. rewrite Forall_forall. intros y Hy. apply Hle; [by eapply subseteq_take|by eapply subseteq_drop|by apply Hxy].
Qed.

#[export] Instance redis_laws `{!FloatText} : StoreLaws (Env0 := redis) (fun s => s).
Proof.
  intros c s r s' [= <- <-]. split; [|done]. destruct c; try done. simpl. intros -> Hstop Hnum. eexists. split; [done|].
  by apply redis_highest.
Qed.
