(* ===== verification/Consumer.v ===== *)
(** * Reading a stream: the loop of every [main]

    The orchestrator, the fleet and the ingester read their stream through a
    consumer group in the same loop; they differ in what they do with a
    message. The loop is stated once, with the rule to reason about it. *)
From S2P Require Import Prelude Protocol Float64 Text IO.
Local Open Scope Z_scope.

Section consumer.
Context {W L A : Type} `{!Env W}.

(** One turn: nothing came in time, or an error is waited out, or the messages
    are taken one after the other. *)
Definition consume (read : M (World W L) (fetched A)) (take : delivery A -> M (World W L) ())
    : M (World W L) () :=
  res ← read;
  match res with
  | FetchNil => mret ()
  | FetchErr _ => perform (Sleep (2 * 1000000000))
  | Fetched msgs => for_each msgs take
  end.

(** The first [n] turns of the loop, which never ends. *)
Fixpoint turns (n : nat) (turn : M (World W L) ()) : M (World W L) () :=
  match n with
  | O => mret ()
  | S n' => turn;; turns n' turn
  end.

(** ** What the loop does *)

Section spec.
Context (read : M (World W L) (fetched A)) (take : delivery A -> M (World W L) ()).

(** [rd res] is the event of a read; [did m tr] says what taking [m] does. *)
Context (rd : fetched A -> event) (did : delivery A -> list event -> Prop).

Inductive each_did : list (delivery A) -> list event -> Prop :=
| each_nil : each_did [] []
| each_cons m msgs tr tr' : did m tr -> each_did msgs tr' -> each_did (m :: msgs) (tr ++ tr').

Definition wait : event := ev (Sleep (2 * 1000000000)) tt.

(** [n] turns delivered [msgs], in order, and did [tr]. *)
Inductive session : nat -> list (delivery A) -> list event -> Prop :=
| session_end : session 0 [] []
| session_idle n msgs tr : session n msgs tr -> session (S n) msgs (rd FetchNil :: tr)
| session_retry n msgs tr err : session n msgs tr -> session (S n) msgs (rd (FetchErr err) :: wait :: tr)
| session_work n new msgs tr tr' :
    each_did new tr -> session n msgs tr' -> session (S n) (new ++ msgs) (rd (Fetched new) :: tr ++ tr').

(** The messages that come obey [ok]. *)
Context (ok : delivery A -> Prop).
Definition good (res : fetched A) : Prop := match res with Fetched msgs => Forall ok msgs | _ => True end.

Context (Hread : forall (w : World W L) i tr Q w1, acted w w1 i tr ->
  (forall res w2, good res -> acted w w2 i (tr ++ [rd res]) -> Q res w2) -> wp read Q w1).

(** An invariant of the messages taken, the state and the trace: reading and
    waiting keep it, and so does taking a message. *)
Context (P : list (delivery A) -> L -> list event -> Prop).
Context (Hquiet : forall pre i tr e, P pre i tr -> e = wait \/ (exists res, e = rd res) -> P pre i (tr ++ [e])).
Context (Htake : forall pre i tr m (w w1 : World W L), ok m -> P pre i tr -> acted w w1 i tr ->
  wp (take m) (fun _ w2 => exists i' tr', acted w w2 i' (tr ++ tr') /\ did m tr' /\ P (pre ++ [m]) i' (tr ++ tr')) w1).

Lemma take_all msgs pre i tr (w w1 : World W L) :
  Forall ok msgs -> P pre i tr -> acted w w1 i tr ->
  wp (for_each msgs take) (fun _ w2 => exists i' tr',
    acted w w2 i' (tr ++ tr') /\ each_did msgs tr' /\ P (pre ++ msgs) i' (tr ++ tr')) w1.
Proof.
  intros Hok. revert pre i tr w1. induction Hok as [|m msgs Hm _ IH]; intros pre i tr w1 Hp D; cbn [for_each].
  - apply wp_ret. exists i, []. rewrite !app_nil_r. split; [done|]. split; [constructor|done].
  - apply wp_bind. eapply wp_mono; [by eapply Htake|]. intros [] w2 (i2 & tr2 & D2 & Hd & Hp2).
    eapply wp_mono; [by eapply IH|]. intros [] w3 (i3 & tr3 & D3 & Hd3 & Hp3).
    rewrite <- !app_assoc in D3. rewrite <- !app_assoc in Hp3. exists i3, (tr2 ++ tr3).
    split; [exact D3|]. split; [by constructor|exact Hp3].
Qed.

Lemma turns_session n pre i tr (w w1 : World W L) :
  P pre i tr -> acted w w1 i tr ->
  wp (turns n (consume read take)) (fun _ w2 => exists i' msgs tr',
    acted w w2 i' (tr ++ tr') /\ session n msgs tr' /\ P (pre ++ msgs) i' (tr ++ tr')) w1.
Proof.
  revert pre i tr w1. induction n as [|n IH]; intros pre i tr w1 Hp D; cbn [turns].
  { apply wp_ret. exists i, [], []. rewrite !app_nil_r. split; [done|]. split; [constructor|done]. }
  apply wp_bind. unfold consume. apply wp_bind. eapply Hread; [exact D|]. intros res w2 Hres D2.
  pose proof (Hquiet _ _ _ (rd res) Hp (or_intror (ex_intro _ res eq_refl))) as Hp2.
  destruct res as [|err|new].
  - apply wp_ret. eapply wp_mono; [by eapply IH|]. intros [] w3 (i3 & msgs & tr3 & D3 & Hs & Hp3).
    rewrite <- !app_assoc in D3. rewrite <- !app_assoc in Hp3. exists i3, msgs. eexists.
    split; [exact D3|]. split; [by apply session_idle|exact Hp3].
  - do_call D2. intros [] w3 D3. pose proof (Hquiet _ _ _ wait Hp2 (or_introl eq_refl)) as Hp3.
    eapply wp_mono; [by eapply IH|]. intros [] w4 (i4 & msgs & tr4 & D4 & Hs & Hp4).
    rewrite <- !app_assoc in D4. rewrite <- !app_assoc in Hp4. exists i4, msgs. eexists.
    split; [exact D4|]. split; [by apply session_retry|exact Hp4].
  - eapply wp_mono; [by eapply take_all|]. intros [] w3 (i3 & tr3 & D3 & Hd & Hp3).
    eapply wp_mono; [by eapply IH|]. intros [] w4 (i4 & msgs & tr4 & D4 & Hs & Hp4).
    rewrite <- !app_assoc in D4. rewrite <- !app_assoc in Hp4. exists i4, (new ++ msgs). eexists.
    split; [exact D4|]. split; [by apply (session_work n new msgs tr3 tr4)|exact Hp4].
Qed.
End spec.
End consumer.
