(* ===== verification/Calls.v ===== *)
(** * What calls a program makes

    A program makes only calls that pass a test, whatever they are answered:
    the rules follow the program, and a tactic applies them. *)
From S2P Require Import Prelude Protocol Float64 Text IO Consumer.
Local Open Scope Z_scope.

Section makes.
Context (ok : call -> bool) {W L : Type} `{!Env W}.

(** Every call the program makes passes the test. *)
Definition makes {A} (m : M (World W L) A) : Prop :=
  forall w a w', m w = Ok (a, w') -> exists tr,
    trace w' = trace w ++ tr /\ runs (env w) tr (env w') /\ forallb ok (map called tr) = true.

Lemma makes_silent {A} (m : M (World W L) A) :
  (forall w a w', m w = Ok (a, w') -> trace w' = trace w /\ env w' = env w) -> makes m.
Proof.
  intros Hm w a w' Ha. destruct (Hm w a w' Ha) as [Ht He]. exists []. rewrite app_nil_r, He.
  split_and!; [done|constructor|done].
Qed.

Lemma makes_ret {A} (a : A) : makes (mret a).
Proof. apply makes_silent. by intros w b w' [= <- <-]. Qed.

Lemma makes_panic {A} : makes (panic (A := A)).
Proof. by intros w a w'. Qed.

Lemma makes_fuel {A} : makes (fun _ => OutOfFuel (A := A * World W L)).
Proof. by intros w a w'. Qed.

Lemma makes_bind {A B} (m : M (World W L) A) (k : A -> M (World W L) B) :
  makes m -> (forall a, makes (k a)) -> makes (m ≫= k).
Proof.
  intros Hm Hk w b w'. unfold mbind, M_bind. destruct (m w) as [[a w1]| |] eqn:Ha; [|done..]. intros Hb.
  destruct (Hm w a w1 Ha) as (tr & Ht & Hr & Hw). destruct (Hk a w1 b w' Hb) as (tr' & Ht' & Hr' & Hw').
  exists (tr ++ tr'). rewrite Ht', Ht, app_assoc, map_app, forallb_app, Hw, Hw'.
  split_and!; [done|by eapply runs_app|done].
Qed.

Lemma makes_perform c : ok c = true -> makes (perform c).
Proof.
  intros Hc w r w'. unfold perform. destruct (env_step c (env w)) as [r' e] eqn:He. intros [= <- <-].
  exists [ev c r']. split_and!; [done|by apply runs_one|]. simpl. by rewrite Hc.
Qed.

Lemma makes_get : makes get_local.
Proof. apply makes_silent. by intros w a w' [= <- <-]. Qed.

Lemma makes_put l : makes (put_local l).
Proof. apply makes_silent. by intros w a w' [= <- <-]. Qed.

Lemma makes_modify f : makes (modify_local f).
Proof. apply makes_silent. by intros w a w' [= <- <-]. Qed.

Lemma makes_orPanic {A} (o : option A) : makes (orPanic o).
Proof. destruct o; [apply makes_ret|apply makes_panic]. Qed.

Lemma makes_loop {I R} fuel (body : I -> M (World W L) (I + R)) i : (forall i, makes (body i)) -> makes (loop fuel body i).
Proof.
  intros Hb. revert i. induction fuel as [|fuel IH]; intros i; [by intros w a w'|]. simpl.
  apply makes_bind; [done|]. intros [i'|r]; [apply IH|apply makes_ret].
Qed.

Lemma makes_for_each {A} (l : list A) (f : A -> M (World W L) ()) : (forall x, makes (f x)) -> makes (for_each l f).
Proof. intros Hf. induction l as [|x l IH]; simpl; [apply makes_ret|]. apply makes_bind; [done|]. by intros []. Qed.

Lemma makes_turns {A} n (read : M (World W L) (fetched A)) take :
  ok (Sleep (2 * 1000000000)) = true -> makes read -> (forall m, makes (take m)) -> makes (turns n (consume read take)).
Proof.
  intros Hs Hr Ht. induction n as [|n IH]; simpl; [apply makes_ret|]. apply makes_bind; [|by intros []].
  apply makes_bind; [done|]. intros [|err|msgs]; [apply makes_ret|by apply (makes_perform (Sleep _))|by apply makes_for_each].
Qed.
End makes.

Create HintDb makes.
#[export] Hint Resolve makes_ret makes_panic makes_fuel makes_get makes_put makes_modify makes_orPanic : makes.

(** Follows a program: every call is tested by evaluation, every branch taken. *)
Ltac makes_step :=
  match goal with
  | |- makes _ (mbind _ _) => apply makes_bind; [|intros ?]
  | |- makes _ (perform ?c) => apply (makes_perform _ c); reflexivity
  | |- makes _ (loop _ _ _) => apply makes_loop; intros ?
  | |- makes _ (for_each _ _) => apply makes_for_each; intros ?
  | |- makes _ (match ?x with _ => _ end) => destruct x
  | |- makes _ _ => solve [auto with makes]
  end.
Ltac makes := repeat (makes_step; cbv beta zeta).
