(* ===== verification/Conformance.v ===== *)
(** * The conformance probe of [src/cmd/orchestrator/main.go]

    A fixed scenario is replayed against the reference book and the engine
    under test, and every ack is compared three ways. *)
From S2P Require Import Prelude Protocol Float64 Text IO Book.
Local Open Scope Z_scope.

(** [cancel] is the order id to cancel; empty, the step submits [order]. *)
Record step := mkStep { cancel : string; order : Order }.

Definition zeroOrder : Order := mkOrder "" "" "" 0 0.

Definition scenario : list step :=
  let o id side typ price qty := mkStep "" (mkOrder id side typ price qty) in
  [o "conf-A" Buy Limit 10000 10;
   o "conf-B" Buy Limit 10000 5;
   o "conf-C" Sell Limit 9900 12;
   o "conf-D" Sell Limit 10100 10;
   o "conf-E" Buy Market 0 4;
   mkStep "conf-D" zeroOrder;
   o "conf-F" Buy Limit 10100 3;
   o "conf-G" Sell Market 0 100;
   o "conf-H" Sell Limit 0 5;
   mkStep "conf-D" zeroOrder].

Fixpoint sumFills_from (s : Z) (fs : list Fill) : Z :=
  match fs with [] => s | f :: fs' => sumFills_from (Int64.add s (f_qty f)) fs' end.
Definition sumFills (fs : list Fill) : Z := sumFills_from 0 fs.

(** The loop of [fillsEqual] over [a], indexing [b] beside it. *)
Fixpoint fills_match (a b : list Fill) : bool :=
  match a, b with
  | x :: a', y :: b' =>
      if negb (f_price x =? f_price y) || negb (f_qty x =? f_qty y)
         || negb (String.eqb (f_maker x) (f_maker y)) then false
      else fills_match a' b'
  | _, _ => true
  end.
Definition fillsEqual (a b : list Fill) : bool :=
  if negb (length a =? length b)%nat then false else fills_match a b.

(** The ack and the error. Of the two, a caller uses the ack only when there is
    no error. The operands of the last [return] are evaluated as the Go
    compiler does: the call of [Decode] before the load of [ack]. *)
Definition decodeAck (resp : http_reply) : Ack * option string :=
  match resp with
  | HttpErr err => (zeroAck, Some err)
  | HttpResp code body =>
      if negb (code =? 200) then (zeroAck, Some ("http " +:+ itoa code)%string)
      else match body with
           | inl ack => (ack, None)
           | inr err => (zeroAck, Some err)
           end
  end.

Section conformance.
Context {W L : Type} `{!Env W, !Strconv}.

Definition doOrder (target : string) (o : Order) : M (World W L) (Ack * option string) :=
  resp ← perform (PostOrder (target +:+ "/orders") o);
  mret (decodeAck resp).

Definition doCancel (target id : string) : M (World W L) (Ack * option string) :=
  resp ← perform (DeleteOrder (target +:+ "/orders/" +:+ id));
  mret (decodeAck resp).

(** A call on the probe's own reference book. *)
Definition on_ref {A} (m : M Store A) (ref : Store) : M (World W L) (A * Store) := fun w =>
  match m ref with
  | Ok (a, ref') => Ok ((a, ref'), w)
  | Panic => Panic
  | OutOfFuel => OutOfFuel
  end.

(** The variables of the loop. *)
Record probe := mkProbe { p_ref : Store; p_passed : Z; p_checks : Z; p_notes : list string }.

Definition note (p : probe) (i : Z) (msg : string) : probe :=
  mkProbe (p_ref p) (p_passed p) (p_checks p) (p_notes p ++ ["step " +:+ itoa i +:+ ": " +:+ msg]).
Definition pass (p : probe) : probe :=
  mkProbe (p_ref p) (p_passed p + 1) (p_checks p) (p_notes p).

(** The three comparisons of one step. *)
Definition compare_acks (i : Z) (want got : Ack) (p : probe) : probe :=
  let p := if String.eqb (a_status got) (a_status want) then pass p
           else note p i ("status " +:+ quote (a_status got) +:+ " want " +:+ quote (a_status want)) in
  let p := if sumFills (a_fills got) =? sumFills (a_fills want) then pass p
           else note p i ("filled " +:+ itoa (sumFills (a_fills got))
                          +:+ " want " +:+ itoa (sumFills (a_fills want))) in
  if fillsEqual (a_fills got) (a_fills want) then pass p
  else note p i "fill sequence mismatch (price-time priority?)".

Definition conf_step (target : string) (i : Z) (st : step) (p : probe) : M (World W L) probe :=
  '(want, ref, (got, err)) ←
    (if negb (String.eqb (cancel st) "") then
       '(want, ref) ← on_ref (Cancel (cancel st)) (p_ref p);
       got ← doCancel target (cancel st);
       mret (want, ref, got)
     else
       '(want, ref) ← on_ref (Submit (order st)) (p_ref p);
       got ← doOrder target (order st);
       mret (want, ref, got));
  let p := mkProbe ref (p_passed p) (p_checks p + 3) (p_notes p) in
  match err with
  | Some msg => mret (note p i msg)
  | None => mret (compare_acks i want got p)
  end.

Fixpoint conf_loop (target : string) (i : Z) (steps : list step) (p : probe) : M (World W L) probe :=
  match steps with
  | [] => mret p
  | st :: steps' => p ← conf_step target i st p; conf_loop target (i + 1) steps' p
  end.

(** The score and the detail line. *)
Definition conformance (target : string) : M (World W L) (F64.t * string) :=
  p ← conf_loop target 0 scenario (mkProbe New 0 0 []);
  let detail :=
    match p_notes p with
    | [] => "all checks passed"%string
    | notes => join "; " (take 5 notes)
    end in
  mret (F64.div (F64.of_Z (p_passed p)) (F64.of_Z (p_checks p)), detail).
End conformance.
