(* ===== verification/ConformanceProps.v ===== *)
(** * The conformance probe: theorems

    The probe gives full marks exactly to the engines that answer the scenario
    as the priority book does. *)
From S2P Require Import Prelude Protocol Float64 Text IO Book PriorityBook PriorityFacts BookRefine BookProps.
From S2P Require Import Conformance.
Local Open Scope Z_scope.

(** ** Comparing acks *)

Lemma fillsEqual_eq a b : fillsEqual a b = true <-> a = b.
Proof.
  unfold fillsEqual. split.
  - destruct (Nat.eqb_spec (length a) (length b)) as [Hl|]; [|done]. simpl.
    revert b Hl. induction a as [|x a IH]; intros [|y b] Hl; try done; simpl in *.
    destruct (Z.eqb_spec (f_price x) (f_price y)), (Z.eqb_spec (f_qty x) (f_qty y)),
      (String.eqb_spec (f_maker x) (f_maker y)); try done.
    simpl. intros Hm. rewrite (IH b) by (done || lia). f_equal. destruct x, y; simpl in *; congruence.
  - intros <-. rewrite Nat.eqb_refl. simpl. induction a as [|x a IH]; [done|].
    simpl. by rewrite !Z.eqb_refl, String.eqb_refl.
Qed.

(** The answer of an engine is the reference's, sequence number and time aside. *)
Definition agrees (want : Ack) (resp : http_reply) : Prop :=
  exists got, resp = HttpResp 200 (inl got)
  /\ a_status got = a_status want /\ a_fills got = a_fills want.

(** The checks an answer passes. *)
Definition marks (want : Ack) (resp : http_reply) : Z :=
  match decodeAck resp with
  | (_, Some _) => 0
  | (got, None) =>
      (if String.eqb (a_status got) (a_status want) then 1 else 0)
      + (if sumFills (a_fills got) =? sumFills (a_fills want) then 1 else 0)
      + (if fillsEqual (a_fills got) (a_fills want) then 1 else 0)
  end.

Lemma marks_range want resp : 0 <= marks want resp <= 3.
Proof.
  unfold marks. destruct (decodeAck resp) as [got []]; [lia|]. repeat case_match; lia.
Qed.

Lemma marks_full want resp : marks want resp = 3 <-> agrees want resp.
Proof.
  unfold marks, agrees. split.
  - destruct resp as [|code [got|]]; simpl; [done| |]; destruct (Z.eqb_spec code 200); simpl; try done.
    destruct (String.eqb_spec (a_status got) (a_status want));
      destruct (fillsEqual (a_fills got) (a_fills want)) eqn:Hf; case_match; try done; intros _.
    subst. apply fillsEqual_eq in Hf. by exists got.
  - intros (got & -> & Hs & Hf). simpl. rewrite Hs, Hf, String.eqb_refl, Z.eqb_refl.
    by rewrite (proj2 (fillsEqual_eq _ _) eq_refl).
Qed.

Section props.
Context {W L : Type} `{!Env W, !Strconv}.

(** The request of a step, its event, and the environment's answer to it. *)
Definition to_request (st : step) : request :=
  if negb (String.eqb (cancel st) "") then ReqCancel (cancel st) else ReqSubmit (order st).

Definition probe_event (target : string) (st : step) (resp : http_reply) : event :=
  if negb (String.eqb (cancel st) "") then ev (DeleteOrder (target +:+ "/orders/" +:+ cancel st)) resp
  else ev (PostOrder (target +:+ "/orders") (order st)) resp.

Definition answers (target : string) (q : request) (e : W) (resp : http_reply) (e' : W) : Prop :=
  match q with
  | ReqCancel id => env_step (DeleteOrder (target +:+ "/orders/" +:+ id)) e = (resp, e')
  | ReqSubmit o => env_step (PostOrder (target +:+ "/orders") o) e = (resp, e')
  end.

(** The notes and marks after one comparison. *)
Lemma compare_acks_ok i want got p :
  let p' := compare_acks i want got p in
  p_ref p' = p_ref p /\ p_checks p' = p_checks p
  /\ p_passed p' = p_passed p + marks want (HttpResp 200 (inl got))
  /\ (marks want (HttpResp 200 (inl got)) = 3 -> p_notes p' = p_notes p)
  /\ exists ms, p_notes p' = p_notes p ++ ms
     /\ (marks want (HttpResp 200 (inl got)) < 3 -> ms <> [])
     /\ Forall (fun m => exists t, m = "step " +:+ t) ms.
Proof.
  assert (forall t, exists u, "step " +:+ t = "step " +:+ u) as Hs by eauto.
  unfold marks, compare_acks, pass, note. simpl.
  repeat case_match; simpl; split_and!; try done; try lia;
    rewrite <- ?app_assoc;
    first [ exists []; rewrite app_nil_r; split_and!; [done|lia|by constructor]
          | eexists; split_and!; [reflexivity|done|repeat constructor; apply Hs] ].
Qed.

Definition after_step (target : string) (st : step) (p : probe) (w : World W L)
    (p' : probe) (w' : World W L) : Prop :=
  let want := (pb_handle (to_request st) (view (p_ref p))).1 in
  exists resp,
    answers target (to_request st) (env w) resp (env w')
    /\ trace w' = trace w ++ [probe_event target st resp]
    /\ Inv (p_ref p') /\ view (p_ref p') = (pb_handle (to_request st) (view (p_ref p))).2
    /\ p_checks p' = p_checks p + 3
    /\ p_passed p' = p_passed p + marks want resp
    /\ exists ms, p_notes p' = p_notes p ++ ms
       /\ (marks want resp = 3 -> ms = []) /\ (marks want resp < 3 -> ms <> [])
       /\ Forall (fun m => exists t, m = "step " +:+ t) ms.

Lemma wp_on_ref {A} (m : M Store A) ref a ref' (Q : A * Store -> World W L -> Prop) w :
  m ref = Ok (a, ref') -> Q (a, ref') w -> wp (on_ref m ref) Q w.
Proof. intros Hm HQ. exists (a, ref'), w. unfold on_ref. by rewrite Hm. Qed.

(** What follows the two calls. *)
Lemma judge_ok target st i p resp want ref w w' :
  want = (pb_handle (to_request st) (view (p_ref p))).1 ->
  Inv ref -> view ref = (pb_handle (to_request st) (view (p_ref p))).2 ->
  answers target (to_request st) (env w) resp (env w') ->
  trace w' = trace w ++ [probe_event target st resp] ->
  after_step target st p w
    (let p1 := mkProbe ref (p_passed p) (p_checks p + 3) (p_notes p) in
     match (decodeAck resp).2 with
     | Some msg => note p1 i msg
     | None => compare_acks i want (decodeAck resp).1 p1
     end) w'.
Proof.
  intros Hw Hinv Hv Ha Ht. exists resp. rewrite <- Hw. split; [done|]. split; [done|].
  destruct (decodeAck resp) as [got [msg|]] eqn:Hd; simpl.
  - assert (marks want resp = 0) as -> by (unfold marks; by rewrite Hd).
    split_and!; [done|done|done|lia|]. eexists. split; [reflexivity|].
    split_and!; [done|done|]. repeat constructor. by eexists.
  - assert (resp = HttpResp 200 (inl got)) as ->.
    { destruct resp as [|code [a|]]; simpl in Hd; try done;
        destruct (Z.eqb_spec code 200); simpl in Hd; try done. by simplify_eq. }
    destruct (compare_acks_ok i want got (mkProbe ref (p_passed p) (p_checks p + 3) (p_notes p)))
      as (-> & -> & -> & H3 & ms & Hms & H4 & H5).
    split_and!; try done. exists ms. split_and!; try done.
    intros Hm. specialize (H3 Hm). rewrite Hms in H3. simpl in H3.
    apply (f_equal length) in H3. rewrite length_app in H3. destruct ms; [done|simpl in H3; lia].
Qed.

Lemma conf_step_ok target st i p (w : World W L) :
  Inv (p_ref p) -> req_ok (to_request st) ->
  wp (conf_step target i st p) (fun p' => after_step target st p w p') w.
Proof.
  intros Hinv Hok. pose proof (judge_ok target st i p) as Hj.
  unfold conf_step, to_request, probe_event, answers in *.
  destruct (handle_refines _ (p_ref p) Hinv Hok) as (ref & Hrun & Hv & Hinv').
  destruct (negb (String.eqb (cancel st) "")) eqn:Hc; simpl in Hrun, Hv.
  all: apply wp_bind, wp_bind; eapply wp_on_ref; [exact Hrun|]; cbn beta iota.
  all: apply wp_bind; unfold doCancel, doOrder; do 2 wp_step; wp_step.
  all: specialize (Hj r _ ref w (mkWorld e (local w) (trace w ++ [ev _ r])) eq_refl Hinv' Hv).
  all: simpl in Hj; specialize (Hj Henv eq_refl); destruct (decodeAck r) as [got []]; simpl in Hj.
  all: by apply wp_ret.
Qed.

(** ** The loop *)

(** The steps in order, each with its answer. *)
Fixpoint answered (target : string) (steps : list step) (rs : list http_reply) (e e' : W) : Prop :=
  match steps, rs with
  | [], [] => e' = e
  | st :: steps', r :: rs' => exists e1, answers target (to_request st) e r e1
                                         /\ answered target steps' rs' e1 e'
  | _, _ => False
  end.

Fixpoint total_marks (wants : list Ack) (rs : list http_reply) : Z :=
  match wants, rs with
  | want :: wants', r :: rs' => marks want r + total_marks wants' rs'
  | _, _ => 0
  end.

Lemma conf_loop_ok target steps i p (w : World W L) :
  Inv (p_ref p) -> Forall (fun st => req_ok (to_request st)) steps ->
  wp (conf_loop target i steps p) (fun p' w' =>
    let wants := (pb_run (map to_request steps) (view (p_ref p))).1 in
    exists rs, answered target steps rs (env w) (env w')
    /\ trace w' = trace w ++ zip_with (probe_event target) steps rs
    /\ p_checks p' = p_checks p + 3 * Z.of_nat (length steps)
    /\ p_passed p' = p_passed p + total_marks wants rs
    /\ exists ms, p_notes p' = p_notes p ++ ms
       /\ (Forall2 agrees wants rs <-> ms = [])
       /\ Forall (fun m => exists t, m = "step " +:+ t) ms) w.
Proof.
  intros Hinv Hall. revert i p w Hinv. induction Hall as [|st steps Hok _ IH]; intros i p w Hinv; simpl.
  - apply wp_ret. exists []. rewrite app_nil_r. split_and!; [done|done|lia|lia|].
    exists []. rewrite app_nil_r. split_and!; [done|split; constructor|constructor].
  - apply wp_bind. eapply wp_mono; [by apply conf_step_ok|]. intros p1 w1 H1. simpl.
    destruct H1 as (r & Ha & Ht & Hinv1 & Hv1 & Hc1 & Hp1 & ms1 & Hn1 & Hm3 & Hlt & Hs1).
    eapply wp_mono; [by apply IH|]. intros p2 w2 (rs & Ha2 & Ht2 & Hc2 & Hp2 & ms2 & Hn2 & Hiff & Hs2).
    rewrite Hv1 in Hp2, Hiff. destruct (pb_handle (to_request st) (view (p_ref p))) as [want pb1].
    simpl in *. destruct (pb_run (map to_request steps) pb1) as [wants pb2]. simpl in *.
    exists (r :: rs). split_and!.
    + by exists (env w1).
    + by rewrite Ht2, Ht, <- app_assoc.
    + lia.
    + simpl. lia.
    + exists (ms1 ++ ms2). rewrite Hn2, Hn1, <- app_assoc. split_and!; [done| |by apply Forall_app].
      rewrite Forall2_cons, Hiff, <- marks_full. pose proof (marks_range want r). split.
      * intros [H3 ->]. by rewrite Hm3.
      * intros [H1 ->]%app_nil. split; [|done]. destruct (decide (marks want r = 3)); [done|].
        exfalso. apply Hlt; [lia|done].
Qed.

(** The answers the scenario should get. *)
Definition expected : list Ack := (pb_run (map to_request scenario) pb_empty).1.

Lemma total_marks_range wants rs : 0 <= total_marks wants rs <= 3 * Z.of_nat (length wants).
Proof.
  revert rs. induction wants as [|want wants IH]; intros [|r rs]; simpl; try lia.
  pose proof (marks_range want r). pose proof (IH rs). lia.
Qed.

Lemma total_marks_full wants rs :
  length rs = length wants ->
  total_marks wants rs = 3 * Z.of_nat (length wants) <-> Forall2 agrees wants rs.
Proof.
  revert rs. induction wants as [|want wants IH]; intros [|r rs] Hl; try done; simpl in Hl.
  rewrite Forall2_cons, <- IH, <- marks_full by lia. simpl.
  pose proof (marks_range want r). pose proof (total_marks_range wants rs). lia.
Qed.

(** A quotient of 30 is 1 only in full. *)
Lemma score_one p : 0 <= p <= 30 -> F64.div (F64.of_Z p) (F64.of_Z 30) = F64.of_Z 1 <-> p = 30.
Proof.
  intros Hp. pose proof F64.one_u_pos. split.
  - intros Heq. assert (F64.num (F64.div (F64.of_Z p) (F64.of_Z 30)) F64.one_u) as N.
    { rewrite Heq. pose proof (F64.of_Z_num_exact 1 ltac:(lia)) as N. by rewrite Z.mul_1_l in N. }
    destruct (decide (p = 30)) as [|Hne]; [done|exfalso].
    assert (F64.ltb (F64.div (F64.of_Z 29) (F64.of_Z 30)) (F64.of_Z 1) = true) as Hlt
      by (vm_compute; done).
    assert (forall q, 0 <= q <= 30 -> F64.num (F64.div (F64.of_Z q) (F64.of_Z 30))
              (F64.srne (q * F64.one_u * F64.one_u) (30 * F64.one_u))) as Hq.
    { intros q Hq. apply F64.div_num; [apply F64.of_Z_num_exact; lia..|lia|].
      rewrite Z.abs_eq by (apply Z.mul_nonneg_nonneg; [apply Z.mul_nonneg_nonneg|]; lia).
      transitivity (30 * F64.one_u * F64.one_u).
      - apply Z.mul_le_mono_nonneg_r; [lia|]. apply Z.mul_le_mono_nonneg_r; lia.
      - vm_compute. discriminate. }
    rewrite (F64.ltb_num _ _ _ (1 * F64.one_u) (Hq 29 ltac:(lia)) (F64.of_Z_num_exact 1 ltac:(lia))) in Hlt.
    apply Z.ltb_lt in Hlt. rewrite (F64.num_inj _ _ _ N (Hq p Hp)) in Hlt.
    assert (F64.srne (p * F64.one_u * F64.one_u) (30 * F64.one_u)
            <= F64.srne (29 * F64.one_u * F64.one_u) (30 * F64.one_u)).
    { apply F64.srne_mono; [|lia]. do 2 (apply Z.mul_le_mono_nonneg_r; [lia|]). lia. }
    rewrite <- (F64.num_inj _ _ _ N (Hq p Hp)) in *. lia.
  - intros ->. vm_compute. done.
Qed.

(** ** The detail line *)

Lemma join_prefix sep a l t : exists u, join sep ((a +:+ t) :: l) = a +:+ u.
Proof.
  simpl. revert t. induction l as [|x l IH]; intros t; simpl; [by eexists|].
  destruct (IH (t +:+ sep +:+ x)) as [u Hu]. exists u. rewrite <- Hu. f_equal.
  by rewrite !string_app_assoc.
Qed.

Lemma detail_notes ms :
  Forall (fun m => exists t, m = "step " +:+ t) ms ->
  match ms with [] => "all checks passed" | _ => join "; " (take 5 ms) end = "all checks passed"
  <-> ms = [].
Proof.
  intros Hms. destruct ms as [|m ms]; [by split|]. split; [|done].
  apply Forall_inv in Hms as [t ->]. simpl take.
  pose proof (join_prefix "; " "step " (take 4 ms) t) as [u Hu].
  intros Hd. rewrite Hu in Hd. simpl in Hd. discriminate Hd.
Qed.

Lemma scenario_ok : Forall (fun st => req_ok (to_request st)) scenario.
Proof. decide_now. Qed.

Lemma answered_length target steps rs e e' : answered target steps rs e e' -> length rs = length steps.
Proof.
  revert rs e. induction steps as [|st steps IH]; intros [|r rs] e; try done.
  intros (e1 & _ & H1). simpl. f_equal. by eapply IH.
Qed.

(** What the probe asked, was answered and concluded. *)
Lemma conformance_judges (target : string) (w : World W L) :
  wp (conformance target) (fun '(score, detail) w' =>
    exists rs, answered target scenario rs (env w) (env w')
    /\ trace w' = trace w ++ zip_with (probe_event target) scenario rs
    /\ score = F64.div (F64.of_Z (total_marks expected rs)) (F64.of_Z 30)
    /\ (score = F64.of_Z 1 <-> Forall2 agrees expected rs)
    /\ (detail = "all checks passed" <-> Forall2 agrees expected rs)) w.
Proof.
  unfold conformance. apply wp_bind. eapply wp_mono.
  { apply conf_loop_ok; [apply Inv_New|apply scenario_ok]. }
  intros p w' (rs & Ha & Ht & Hc & Hp & ms & Hn & Hiff & Hs). apply wp_ret. simpl in Hc, Hn.
  change (pb_run (map to_request scenario) (view (p_ref _))).1 with expected in *.
  assert (length expected = 10%nat) as Hlen by (vm_compute; done).
  pose proof (total_marks_range expected rs) as Hr. rewrite Hlen in Hr. simpl p_passed in Hp.
  exists rs. split; [done|]. split; [done|]. rewrite Hc, Hp. change (0 + 3 * 10) with 30.
  split; [done|]. split.
  - rewrite score_one, <- total_marks_full, Hlen by (rewrite ?(answered_length _ _ _ _ _ Ha), ?Hlen; done || lia).
    done.
  - rewrite Hiff, Hn. pose proof (detail_notes ms Hs) as Hd. by destruct ms.
Qed.

(** ** Claims *)

(** C3. The probe is exact: against any engine it terminates, asks the ten
    requests of the scenario in order, scores the fraction of the thirty
    checks passed, and gives the score 1 and the line "all checks passed"
    exactly when every answer has the status and the fills, price, quantity
    and maker one by one, that the priority book gives at that point. *)
Theorem conformance_exact (target : string) (w : World W L) :
  wp (conformance target) (fun '(score, detail) w' =>
    exists rs, answered target scenario rs (env w) (env w')
    /\ trace w' = trace w ++ zip_with (probe_event target) scenario rs
    /\ score = F64.div (F64.of_Z (total_marks expected rs)) (F64.of_Z 30)
    /\ (score = F64.of_Z 1 <-> Forall2 agrees expected rs)
    /\ (detail = "all checks passed" <-> Forall2 agrees expected rs)) w.
Proof. apply conformance_judges. Qed.

(** Ids that a path segment carries unchanged. *)
Definition plain_request (q : request) : Prop :=
  match q with ReqSubmit _ => True | ReqCancel id => trimSpace id = id end.

#[export] Instance plain_request_dec q : Decision (plain_request q).
Proof. destruct q; apply _. Defined.

(** What an engine promises the probe: it answers submits and cancels as the
    priority book does, [sim pb e] saying that in the state [e] of the world
    its book is [pb]. *)
Class PriorityEngine (target : string) (sim : PBook -> W -> Prop) : Prop :=
  engine_answers q pb e : sim pb e -> req_ok q -> plain_request q ->
    exists got e', answers target q e (HttpResp 200 (inl got)) e'
    /\ a_status got = a_status (pb_handle q pb).1 /\ a_fills got = a_fills (pb_handle q pb).1
    /\ sim (pb_handle q pb).2 e'.

Lemma answers_fun target q e r1 e1 r2 e2 :
  answers target q e r1 e1 -> answers target q e r2 e2 -> r1 = r2 /\ e1 = e2.
Proof.
  destruct q; simpl; intros H1 H2; pose proof (eq_trans (eq_sym H1) H2) as H3; by injection H3.
Qed.

Lemma engine_agrees target sim `{!PriorityEngine target sim} steps rs pb e e' :
  sim pb e -> Forall (fun st => req_ok (to_request st) /\ plain_request (to_request st)) steps ->
  answered target steps rs e e' ->
  Forall2 agrees (pb_run (map to_request steps) pb).1 rs.
Proof.
  intros Hsim Hall. revert rs pb e Hsim.
  induction Hall as [|st steps [Hok Hplain] _ IH]; intros [|r rs] pb e Hsim; try done; simpl.
  intros (e1 & Ha & Hrest). destruct (engine_answers (to_request st) pb e Hsim Hok Hplain) as (got & e2 & Ha2 & Hs & Hf & Hsim').
  destruct (answers_fun _ _ _ _ _ _ _ Ha Ha2) as [-> ->].
  destruct (pb_handle (to_request st) pb) as [want pb1]. simpl in *.
  pose proof (IH rs pb1 e2 Hsim' Hrest) as H2. destruct (pb_run (map to_request steps) pb1) as [wants pb2].
  simpl in *. constructor; [|done]. by exists got.
Qed.

Lemma engine_passes (target : string) (sim : PBook -> W -> Prop) (w : World W L) :
  PriorityEngine target sim -> sim pb_empty (env w) ->
  wp (conformance target) (fun r _ => r = (F64.of_Z 1, "all checks passed")) w.
Proof.
  intros Heng Hsim. unfold conformance. apply wp_bind. eapply wp_mono.
  { apply conf_loop_ok; [apply Inv_New|apply scenario_ok]. }
  intros p w' (rs & Ha & Ht & Hc & Hp & ms & Hn & Hiff & Hs). apply wp_ret. simpl in Hc, Hn, Hp.
  assert (Forall2 agrees expected rs) as Hall.
  { eapply engine_agrees; [exact Heng|exact Hsim|decide_now|exact Ha]. }
  rewrite (proj1 Hiff Hall) in Hn. rewrite Hn, Hc, Hp. f_equal.
  change (0 + 3 * 10) with 30. apply score_one.
  { exact (total_marks_range expected rs). }
  apply total_marks_full in Hall; [exact Hall|]. by rewrite (answered_length _ _ _ _ _ Ha).
Qed.

(** Every engine that keeps price-time priority, starting from an empty
    book, passes the whole probe, whatever its sequence numbers and times. *)
Theorem priority_engine_passes (target : string) (sim : PBook -> W -> Prop) (w : World W L) :
  PriorityEngine target sim -> sim pb_empty (env w) ->
  wp (conformance target) (fun r _ => r = (F64.of_Z 1, "all checks passed")) w.
Proof. apply engine_passes. Qed.
End props.
