(* ===== verification/RefEngine.v ===== *)
(** * The example contestant engine: [src/examples/reference-engine/main.go]

    A self-contained limit order book behind HTTP handlers. Its types repeat
    those of the protocol and of the matching book field by field, so the
    model shares them with [Protocol] and [Book]; its operations are
    translated on their own. *)
From S2P Require Import Prelude Protocol Float64 Text IO Book.
Local Open Scope Z_scope.

Module RefEngine.

(** ** The book *)

Definition newBook : Store := New.

Definition bad_order (o : Order) : bool :=
  (o_qty o <=? 0)
  || (negb (String.eqb (o_side o) "buy") && negb (String.eqb (o_side o) "sell"))
  || (negb (String.eqb (o_type o) "limit") && negb (String.eqb (o_type o) "market"))
  || (String.eqb (o_type o) "limit" && (o_price o <=? 0)).

(** The [break]s of the outer loop. *)
Definition stop_at (o : Order) (price : Z) : bool :=
  String.eqb (o_type o) "limit"
  && ((String.eqb (o_side o) "buy" && (o_price o <? price))
      || (String.eqb (o_side o) "sell" && (price <? o_price o))).

(** One turn of the inner loop. *)
Definition trade_step (best : ptr) (st : Z * Ack) : M Store ((Z * Ack) + (Z * Ack)) :=
  let '(remaining, a) := st in
  lv ← load_level best;
  if (0 <? remaining) && negb (bool_decide (lv_queue lv = [])) then
    maker ← index (lv_queue lv) 0;
    m ← load_resting maker;
    let q := Z.min remaining (r_qty m) in
    let a := add_fill a (mkFill (r_price m) q (r_id m)) in
    let remaining := Int64.sub remaining q in
    store_resting maker (set_qty m (Int64.sub (r_qty m) q));;
    m ← load_resting maker;
    if r_qty m =? 0 then
      lv ← load_level best;
      queue ← slice_from (lv_queue lv) 1;
      store_level best (set_queue lv queue);;
      byID_delete (r_id m);;
      mret (inl (remaining, a))
    else mret (inl (remaining, a))
  else mret (inr (remaining, a)).

(** One turn of the outer loop. *)
Definition sweep_step (o : Order) (opp : side_field) (st : Z * Ack)
    : M Store ((Z * Ack) + (Z * Ack)) :=
  let '(remaining, a) := st in
  ps ← get_field opp;
  if (0 <? remaining) && negb (bool_decide (ps = [])) then
    best ← index ps 0;
    lv ← load_level best;
    if stop_at o (lv_price lv) then mret (inr (remaining, a))
    else
      '(remaining, a) ← loop (2 + length (lv_queue lv)) (trade_step best) (remaining, a);
      lv ← load_level best;
      if bool_decide (lv_queue lv = []) then
        ps ← get_field opp;
        ps ← slice_from ps 1;
        put_field opp ps;;
        mret (inl (remaining, a))
      else mret (inl (remaining, a))
  else mret (inr (remaining, a)).

Definition sweep_loop (o : Order) (opp : side_field) (st : Z * Ack) : M Store (Z * Ack) :=
  ps ← get_field opp;
  loop (2 + length ps) (sweep_step o opp) st.

(** The scan of [rest]. *)
Definition place_step (f : side_field) (r : resting) (i : nat) : M Store (nat + (ptr + nat)) :=
  ps ← get_field f;
  if decide (i < length ps)%nat then
    p ← index ps i;
    lv ← load_level p;
    if lv_price lv =? r_price r then mret (inr (inl p))
    else if String.eqb (r_side r) "buy" && (lv_price lv <? r_price r) then mret (inr (inr i))
    else if String.eqb (r_side r) "sell" && (r_price r <? lv_price lv) then mret (inr (inr i))
    else mret (inl (S i))
  else mret (inr (inr i)).

Definition rest (rp : ptr) : M Store () :=
  r ← load_resting rp;
  byID_insert (r_id r) rp;;
  let sd := if String.eqb (r_side r) "buy" then Bids else Asks in
  ps ← get_field sd;
  found ← loop (1 + length ps) (place_step sd r) 0%nat;
  match found with
  | inl p =>
      lv ← load_level p;
      store_level p (set_queue lv (lv_queue lv ++ [rp]))
  | inr i =>
      lp ← alloc_level (mkLevel (r_price r) [rp]);
      ps ← get_field sd;
      put_field sd (ps ++ [nil_ptr]);;
      ps ← get_field sd;
      ps ← shift_right ps i;
      put_field sd (<[i := lp]> ps)
  end.

(** [b.seq++], and the sequence number. *)
Definition tick : M Store Z :=
  modify (with_book (fun b => mkBook (bids b) (asks b) (byID b) (Int64.add (seq b) 1)));;
  b ← get_book; mret (seq b).

(** [ts] is the reading of the clock. *)
Definition submit (ts : Z) (o : Order) : M Store Ack :=
  n ← tick;
  let a := mkAck (o_id o) n "" [] ts in
  if bad_order o then mret (set_status a "rejected")
  else
    b ← get_book;
    if bool_decide (is_Some (byID b !! o_id o)) then mret (set_status a "rejected")
    else
      let opp := if String.eqb (o_side o) "sell" then Bids else Asks in
      '(remaining, a) ← sweep_loop o opp (o_qty o, a);
      if remaining =? 0 then mret (set_status a "filled")
      else if String.eqb (o_type o) "market" then
        if remaining <? o_qty o then mret (set_status a "partial") else mret (set_status a "canceled")
      else
        rp ← alloc_resting (mkResting (o_id o) (o_side o) (o_price o) remaining);
        rest rp;;
        if remaining <? o_qty o then mret (set_status a "partial") else mret (set_status a "resting").

Fixpoint drop_order (id : string) (lp : ptr) (queue : list ptr) (qi : nat) : M Store () :=
  match queue with
  | [] => mret ()
  | q :: queue' =>
      r ← load_resting q;
      if String.eqb (r_id r) id then
        lv ← load_level lp;
        front ← slice_to (lv_queue lv) qi;
        back ← slice_from (lv_queue lv) (qi + 1);
        store_level lp (set_queue lv (front ++ back))
      else drop_order id lp queue' (S qi)
  end.

Fixpoint drop_from (id : string) (price : Z) (sd : side_field) (ps : list ptr) (li : nat)
    : M Store () :=
  match ps with
  | [] => mret ()
  | lp :: ps' =>
      lv ← load_level lp;
      if negb (lv_price lv =? price) then drop_from id price sd ps' (S li)
      else
        drop_order id lp (lv_queue lv) 0;;
        lv ← load_level lp;
        if bool_decide (lv_queue lv = []) then
          cur ← get_field sd;
          front ← slice_to cur li;
          back ← slice_from cur (li + 1);
          put_field sd (front ++ back)
        else mret ()
  end.

Definition cancel (ts : Z) (id : string) : M Store Ack :=
  n ← tick;
  let a := mkAck id n "" [] ts in
  b ← get_book;
  match byID b !! id with
  | None => mret (set_status a "unknown")
  | Some rp =>
      byID_delete id;;
      r ← load_resting rp;
      let sd := if String.eqb (r_side r) "buy" then Bids else Asks in
      ps ← get_field sd;
      drop_from id (r_price r) sd ps 0;;
      mret (set_status a "canceled")
  end.

(** The quantity of a queue. *)
Fixpoint queue_qty (queue : list ptr) (q : Z) : M Store Z :=
  match queue with
  | [] => mret q
  | p :: queue' => r ← load_resting p; queue_qty queue' (Int64.add q (r_qty r))
  end.

(** The entry of one side in [top]: its price and quantity, or [nil]. *)
Definition top_side (f : side_field) : M Store (option (Z * Z)) :=
  ps ← get_field f;
  if bool_decide (ps = []) then mret None
  else
    p ← index ps 0;
    lv ← load_level p;
    q ← queue_qty (lv_queue lv) 0;
    mret (Some (lv_price lv, q)).

Definition top : M Store (option (Z * Z) * option (Z * Z)) :=
  bid ← top_side Bids;
  ask ← top_side Asks;
  mret (bid, ask).

(** ** The server *)

(** What the handlers share: the book, and the chaos generator with its state. *)
Record Server (G : Type) := mkServer { sv_book : Store; sv_rng : G; sv_clock : Z }.
Arguments mkServer {G} _ _ _.
Arguments sv_book {G} _.
Arguments sv_rng {G} _.
Arguments sv_clock {G} _.

Section server.
(** [chaosRng.Float64()] on the generator's state, the passing of time, and
    the environment variables [DELAY_MS] and [CHAOS]. *)
Context {G : Type} (rand_float : G -> F64.t * G) (tick_clock : Z -> Z) (delayMs : Z) (chaos : bool).

Definition on_book {A} (m : Z -> M Store A) : M (Server G) A := fun s =>
  match m (sv_clock s) (sv_book s) with
  | Ok (a, st) => Ok (a, mkServer st (sv_rng s) (tick_clock (sv_clock s)))
  | Panic => Panic
  | OutOfFuel => OutOfFuel
  end.

Definition rand : M (Server G) F64.t := fun s =>
  let '(x, g) := rand_float (sv_rng s) in Ok (x, mkServer (sv_book s) g (sv_clock s)).

Definition bump_price (fs : list Fill) : list Fill :=
  match fs with
  | [] => []
  | f :: fs' => mkFill (Int64.add (f_price f) 3) (f_qty f) (f_maker f) :: fs'
  end.

Definition mangle (a : Ack) : M (Server G) Ack :=
  if negb chaos then mret a
  else
    a ← (if bool_decide (a_fills a = []) then mret a
         else x ← rand;
              mret (if F64.ltb x (F64.dec 5 2)
                    then mkAck (a_order a) (a_seq a) (a_status a) (bump_price (a_fills a)) (a_ts a)
                    else a));
    x ← rand;
    mret (if F64.ltb x (F64.dec 2 2)
          then mkAck (a_order a) (Int64.sub (a_seq a) 5) (a_status a) (a_fills a) (a_ts a)
          else a).

(** [time.Sleep]: at once for a duration that is not positive. *)
Definition sleep (ns : Z) : M (Server G) () :=
  modify (fun s => mkServer (sv_book s) (sv_rng s) (sv_clock s + Z.max 0 ns)).

Definition reply_ack (a : Ack) : M (Server G) http_reply :=
  (if 0 <? delayMs then sleep (Int64.mul delayMs 1000000) else mret ());;
  a ← mangle a;
  mret (HttpResp 200 (inl a)).

(** [POST /orders]: the order its body decodes to, or the decoding error. *)
Definition post_orders (body : Order + string) : M (Server G) http_reply :=
  match body with
  | inr err => mret (HttpResp 400 (inr err))
  | inl o => a ← on_book (fun ts => submit ts o); reply_ack a
  end.

(** [DELETE /orders/{id}] *)
Definition delete_order (path_id : string) : M (Server G) http_reply :=
  a ← on_book (fun ts => cancel ts (trimSpace path_id)); reply_ack a.

(** [GET /health] *)
Definition get_health : M (Server G) Z := mret 200.

(** [GET /book] *)
Definition get_book_top : M (Server G) (option (Z * Z) * option (Z * Z)) := on_book (fun _ => top).
End server.
End RefEngine.

(** ** The server as an environment

    What a client sees of it: the requests the mux routes to a handler, for
    ids that a URL spells as they are; a panic drops the connection. *)

Section serve.
Context {G : Type} (rand_float : G -> F64.t * G) (tick_clock : Z -> Z) (delayMs : Z) (chaos : bool).
Context (target : string).

Definition respond (m : M (RefEngine.Server G) http_reply) (s : RefEngine.Server G)
    : http_reply * RefEngine.Server G :=
  match m s with
  | Ok (r, s') => (r, s')
  | _ => (HttpErr "EOF", s)
  end.

Definition serve : Env (RefEngine.Server G) := fun c s =>
  match c return reply c * RefEngine.Server G with
  | PostOrder url o =>
      if String.eqb url (target +:+ "/orders")
      then respond (RefEngine.post_orders rand_float tick_clock delayMs chaos (inl o)) s
      else (HttpResp 404 (inr "not found"), s)
  | DeleteOrder url =>
      match strip_prefix (target +:+ "/orders/") url with
      | Some id => respond (RefEngine.delete_order rand_float tick_clock delayMs chaos id) s
      | None => (HttpResp 404 (inr "not found"), s)
      end
  | HttpGet url => (if String.eqb url (target +:+ "/health") then Some 200 else Some 404, s)
  | c => (default_reply c, s)
  end%string.
End serve.
