(* ===== verification/RefEngineProps.v ===== *)
(** * The example engine: theorems

    Its book is the matching book with a clock; served over HTTP without chaos
    it passes the conformance probe. *)
From S2P Require Import Prelude Protocol Float64 Text IO Book PriorityBook PriorityFacts.
From S2P Require Import BookHeap BookMatch BookRest BookRefine BookProps.
From S2P Require Import Conformance ConformanceProps RefEngine.
Import RefEngine.
Local Open Scope Z_scope.

(** ** The same book *)

Definition with_ts (ts : Z) (a : Ack) : Ack :=
  mkAck (a_order a) (a_seq a) (a_status a) (a_fills a) ts.

Definition map_result {A B S} (h : A -> B) (r : result (A * S)) : result (B * S) :=
  match r with
  | Ok (a, s) => Ok (h a, s)
  | Panic => Panic
  | OutOfFuel => OutOfFuel
  end.

Lemma map_bind {A A' B B' S} (g : A -> A') (h : B -> B') (m : M S A) (m' : M S A')
    (k : A -> M S B) (k' : A' -> M S B') s :
  m' s = map_result g (m s) ->
  (forall a s1, k' (g a) s1 = map_result h (k a s1)) ->
  (m' ≫= k') s = map_result h ((m ≫= k) s).
Proof.
  intros Hm Hk. unfold mbind, M_bind. rewrite Hm. destruct (m s) as [[a s1]| |]; simpl; auto.
Qed.

Lemma map_bind_same {A B B' S} (h : B -> B') (m : M S A) (k : A -> M S B) (k' : A -> M S B') s :
  (forall a s1, k' a s1 = map_result h (k a s1)) ->
  (m ≫= k') s = map_result h ((m ≫= k) s).
Proof.
  intros Hk. apply (map_bind id); [|done]. destruct (m s) as [[a s1]| |]; done.
Qed.

Lemma map_loop {I I' R R' S} (g : I -> I') (h : R -> R') n
    (body : I -> M S (I + R)) (body' : I' -> M S (I' + R')) i s :
  (forall i s, body' (g i) s = map_result (sum_map g h) (body i s)) ->
  loop n body' (g i) s = map_result h (loop n body i s).
Proof.
  intros Hb. revert i s. induction n as [|n IH]; intros i s; [done|].
  rewrite !loop_S. apply (map_bind (sum_map g h)); [apply Hb|].
  intros [i1|r] s1; simpl; [apply IH|done].
Qed.

(** The loop states: only the time stamp of the ack differs. *)
Definition stamp_st (ts : Z) (st : Z * Ack) : Z * Ack := (st.1, with_ts ts st.2).

Ltac map_steps :=
  repeat first
    [ reflexivity
    | apply map_bind_same; intros ? ?
    | progress simpl
    | match goal with |- (if ?b then _ else _) _ = map_result _ ((if ?b then _ else _) _) => destruct b end
    | match goal with |- (match ?x with _ => _ end) _ = map_result _ ((match ?x with _ => _ end) _) => destruct x end ].

Lemma trade_step_eq ts best st s :
  trade_step best (stamp_st ts st) s
  = map_result (sum_map (stamp_st ts) (stamp_st ts)) (fill_step best st s).
Proof. destruct st as [remaining a]. unfold trade_step, fill_step, stamp_st. simpl. map_steps. Qed.

Lemma sweep_step_eq ts o opp st s :
  sweep_step o opp (stamp_st ts st) s
  = map_result (sum_map (stamp_st ts) (stamp_st ts)) (match_step o opp st s).
Proof.
  destruct st as [remaining a]. unfold sweep_step, match_step, stamp_st. simpl.
  apply map_bind_same; intros ps s1. case_match; [|done].
  do 2 (apply map_bind_same; intros ? ?).
  change (stop_at o) with (past_limit o). case_match; [done|].
  apply (map_bind (stamp_st ts)).
  { exact (map_loop (stamp_st ts) (stamp_st ts) _ _ _ (remaining, a) _ (trade_step_eq ts _)). }
  intros [u b] s4. map_steps.
Qed.

Lemma sweep_loop_eq ts o opp st s :
  sweep_loop o opp (stamp_st ts st) s = map_result (stamp_st ts) (match_loop o opp st s).
Proof.
  apply map_bind_same; intros ps s1.
  exact (map_loop (stamp_st ts) (stamp_st ts) _ _ _ st _ (sweep_step_eq ts o opp)).
Qed.

Lemma submit_eq ts o s : submit ts o s = map_result (with_ts ts) (Submit o s).
Proof.
  apply map_bind_same; intros n s1. change bad_order with invalid. case_match; [done|].
  apply map_bind_same; intros b s2. case_match; [done|].
  apply (map_bind (stamp_st ts)); [exact (sweep_loop_eq ts o _ (o_qty o, mkAck (o_id o) n "" [] 0) s2)|].
  intros [u a] s3. change RefEngine.rest with Book.rest. map_steps.
  change (String.eqb (o_type o) "market") with (String.eqb (o_type o) Market). case_match.
  - by case_match.
  - do 2 (apply map_bind_same; intros ? ?). by case_match.
Qed.

Lemma cancel_eq ts id s : cancel ts id s = map_result (with_ts ts) (Cancel id s).
Proof.
  apply map_bind_same; intros n s1. apply map_bind_same; intros b s2. map_steps.
Qed.

(** ** Top of book *)

(** The best price of a side, with the quantity resting at it. *)
Definition best_quote (rs : list resting) : option (Z * Z) :=
  match rs with
  | [] => None
  | r :: _ => Some (r_price r, Int64.wrap (sum_qty (filter (fun x => r_price x = r_price r) rs)))
  end.

Lemma queue_qty_ok s L f v q0 q qs :
  rep s L -> v ∈ lside f L -> lq v = q0 ++ qs -> in64 q ->
  queue_qty (map fst qs) q s = Ok (Int64.wrap (q + sum_qty (map snd qs)), s).
Proof.
  intros Hrep Hv. revert q0 q. induction qs as [|[p r] qs IH]; intros q0 q Hq Hin; simpl.
  - rewrite Z.add_0_r. by rewrite Int64.wrap_id.
  - etrans.
    { eapply bind_ok, load_resting_ok, (rep_entry s L f v (p, r) Hrep Hv). rewrite Hq. set_solver. }
    rewrite (IH (q0 ++ [(p, r)])); [|by rewrite <- app_assoc|apply Int64.add_in_range].
    do 2 f_equal.
    transitivity (Int64.add (Int64.wrap (q + r_qty r)) (sum_qty (map snd qs))); [reflexivity|].
    rewrite Int64.add_wrap_l. unfold Int64.add. f_equal. lia.
Qed.

Lemma filter_all {A} (P : A -> Prop) `{!forall x, Decision (P x)} l : Forall P l -> filter P l = l.
Proof. induction 1; [done|]. rewrite filter_cons_True by done. by f_equal. Qed.

Lemma filter_none {A} (P : A -> Prop) `{!forall x, Decision (P x)} l :
  Forall (fun x => ~ P x) l -> filter P l = [].
Proof. induction 1; [done|]. by rewrite filter_cons_False. Qed.

Lemma top_side_ok f s : Inv s -> top_side f s = Ok (best_quote (pb_side f (view s)), s).
Proof.
  intros (L & Hrep & Hlad). rewrite (pb_side_view _ _ _ Hrep). unfold top_side, orders.
  etrans; [eapply bind_ok; unfold get_field, get_book; reflexivity|]. cbn beta.
  rewrite (rep_field _ _ Hrep). pose proof (Hlad f) as Hok.
  destruct (lside f L) as [|v V] eqn:HV; [done|].
  assert (v ∈ lside f L) as Hv by (rewrite HV; left).
  rewrite bool_decide_false by done. simpl.
  etrans; [eapply bind_ok; reflexivity|]. cbn beta.
  etrans.
  { eapply bind_ok, load_level_ok, (rep_level s L f v Hrep Hv). }
  cbn beta. simpl.
  etrans; [eapply bind_ok, (queue_qty_ok s L f v [] 0 (lq v)); done|]. cbn beta.
  rewrite entries_cons, map_app. change (0 + sum_qty (map snd (lq v))) with (sum_qty (map snd (lq v))).
  assert (Forall (fun r => r_price r = lprice v) (map snd (lq v))) as Hsame.
  { apply Forall_fmap, Forall_forall. intros e He.
    by apply (side_ok_elem f (v :: V) v e Hok ltac:(left) He). }
  assert (Forall (fun r => r_price r <> lprice v) (map snd (entries V))) as Hother.
  { apply Forall_fmap, Forall_forall. intros e He. simpl.
    apply list_elem_of_bind in He as (w & He & Hw).
    destruct (side_ok_elem f (v :: V) w e Hok ltac:(by right) He) as (_ & -> & _).
    destruct Hok as [_ Hs _]. apply StronglySorted_inv in Hs as [_ Hs]. rewrite Forall_forall in Hs.
    specialize (Hs w Hw). unfold better_lvl, better in Hs. destruct f; apply Z.ltb_lt in Hs; lia. }
  assert (lq v <> []) as Hne.
  { destruct Hok as [Hl _ _]. apply Forall_inv in Hl. by destruct Hl. }
  destruct (map snd (lq v)) as [|r rs] eqn:Hq; [by destruct (lq v)|]. simpl.
  assert (r_price r = lprice v) as Hr by by apply Forall_inv in Hsame.
  change (r :: rs ++ map snd (entries V)) with ((r :: rs) ++ map snd (entries V)).
  rewrite Hr, filter_app, filter_all, filter_none, app_nil_r by done. done.
Qed.

(** ** Claims *)

(** The example engine is the matching book: for every clock reading, its
    [submit] and [cancel] return the acks of [Submit] and [Cancel] with only
    the time stamp added, and leave the same heap, panics included. *)
Theorem engine_equals_matching_book (ts : Z) (o : Order) (id : string) (s : Store) :
  submit ts o s = map_result (with_ts ts) (Submit o s)
  /\ cancel ts id s = map_result (with_ts ts) (Cancel id s).
Proof. split; [apply submit_eq|apply cancel_eq]. Qed.

(** [GET /book] on every reachable book reports for each side the best
    price and the whole quantity resting at that price, or nothing for an
    empty side, and changes nothing. *)
Theorem top_reports_best_quotes (s : Store) :
  reachable s -> top s = Ok ((best_quote (pb_bids (view s)), best_quote (pb_asks (view s))), s).
Proof.
  intros Hr. apply reachable_inv in Hr. unfold top.
  etrans; [eapply bind_ok, (top_side_ok Bids s Hr)|].
  etrans; [eapply bind_ok, (top_side_ok Asks s Hr)|]. done.
Qed.

Lemma top_reports_best_quotes_witness :
  top demo_store = Ok ((best_quote (pb_bids (view demo_store)), best_quote (pb_asks (view demo_store))), demo_store).
Proof. apply top_reports_best_quotes. apply demo_reachable. Defined.

(** ** The engine in front of the probe *)

Section probe.
Context {G : Type} (rand_float : G -> F64.t * G) (tick_clock : Z -> Z) (delayMs : Z) (target : string).

(** The server's book stands for [pb]. *)
Definition serves (pb : PBook) (s : Server G) : Prop := Inv (sv_book s) /\ view (sv_book s) = pb.

(** The server after the delay of a reply. *)
Definition paused (s : Server G) : Server G :=
  if 0 <? delayMs then mkServer (sv_book s) (sv_rng s) (sv_clock s + Z.max 0 (Int64.mul delayMs 1000000)) else s.

Lemma reply_plain a (s : Server G) : reply_ack rand_float delayMs false a s = Ok (HttpResp 200 (inl a), paused s).
Proof. unfold reply_ack, paused. by destruct (0 <? delayMs). Qed.

Lemma serves_paused pb (s : Server G) : serves pb s -> serves pb (paused s).
Proof. unfold paused. by destruct (0 <? delayMs). Qed.

Lemma serve_answers q pb (s : Server G) :
  serves pb s -> req_ok q -> plain_request q ->
  exists s', answers (Env0 := serve rand_float tick_clock delayMs false target) target q s
      (HttpResp 200 (inl (with_ts (sv_clock s) (pb_handle q pb).1))) s'
  /\ serves (pb_handle q pb).2 s'.
Proof.
  intros [Hinv <-] Hok Hplain. destruct (handle_refines q (sv_book s) Hinv Hok) as (st & Hrun & Hv & Hinv').
  destruct q as [o|id]; simpl in *.
  - eexists (paused (mkServer st (sv_rng s) (tick_clock (sv_clock s)))). split; [|by apply serves_paused].
    unfold env_step, serve. rewrite String.eqb_refl. unfold respond, post_orders.
    erewrite bind_ok by (unfold on_book; by rewrite submit_eq, Hrun). by rewrite reply_plain.
  - eexists (paused (mkServer st (sv_rng s) (tick_clock (sv_clock s)))). split; [|by apply serves_paused].
    unfold env_step, serve. rewrite string_app_assoc, strip_prefix_app. unfold respond, delete_order.
    erewrite bind_ok by (unfold on_book; by rewrite Hplain, cancel_eq, Hrun). by rewrite reply_plain.
Qed.

#[local] Instance served : Env (Server G) := serve rand_float tick_clock delayMs false target.

#[local] Instance serve_engine : PriorityEngine target serves.
Proof.
  intros q pb s Hs Hok Hplain. destruct (serve_answers q pb s Hs Hok Hplain) as (s' & Ha & Hs'). by eexists _, s'.
Qed.

(** The example engine, served without chaos from an empty book, passes
    every check of the conformance probe, however long it delays its replies. *)
Theorem example_engine_passes `{!Strconv} {L} (w : World (Server G) L) :
  sv_book (env w) = newBook ->
  wp (conformance (Env0 := serve rand_float tick_clock delayMs false target) target)
     (fun r _ => r = (F64.of_Z 1, "all checks passed")) w.
Proof.
  intros Hnew. apply (engine_passes target serves); [apply _|]. unfold serves. rewrite Hnew.
  split; [apply Inv_New|done].
Qed.
End probe.

#[local] Instance plain_text : Strconv := {| other_float := fun _ => F64.zero; quote := fun s => s |}.

Definition demo_world : World (Server unit) unit := mkWorld (mkServer newBook tt 0) tt [].

Lemma example_engine_passes_witness :
  wp (conformance (Env0 := serve (fun g => (F64.zero, g)) Z.succ 20 false "http://sub:8080") "http://sub:8080")
     (fun r _ => r = (F64.of_Z 1, "all checks passed")) demo_world.
Proof. apply (example_engine_passes (fun g => (F64.zero, g)) Z.succ 20 "http://sub:8080" demo_world). reflexivity. Defined.

Lemma priority_engine_passes_witness :
  wp (conformance (Env0 := serve (fun g => (F64.zero, g)) Z.succ 20 false "http://sub:8080") "http://sub:8080")
     (fun r _ => r = (F64.of_Z 1, "all checks passed")) demo_world.
Proof.
  apply (priority_engine_passes (Env0 := serve (fun g => (F64.zero, g)) Z.succ 20 false "http://sub:8080")
           "http://sub:8080" serves demo_world).
  - exact (serve_engine _ _ _ _).
  - split; [exact Inv_New|reflexivity].
Defined.
