(* ===== verification/Bot.v ===== *)
(** * The load generator: [src/cmd/botfleet/main.go]

    A shard's bots share one [shardState]. They touch it only through atomic
    counters and short critical sections: the [bot_op]s below are those atomic
    steps, and the code of a bot is written with them, so that an interleaving
    of bots and flusher is a sequence of steps. *)
From S2P Require Import Prelude Protocol Float64 Text IO Counters Hist.
Local Open Scope Z_scope.

Section fleet.
Context `{!Math}.

(** ** The shared state of a shard *)

Record shardState := mkShard {
  st_sent : Z;
  st_acked : Z;
  st_errors : Z;
  st_violations : Z;
  st_hist : Hist;
  st_secAcks : gmap Z Z;
  st_secErrs : gmap Z Z;
  st_samples : list string
}.

Definition newShard : shardState := mkShard 0 0 0 0 NewHist ∅ ∅ [].

Inductive bot_op :=
| AddSent | AddAcked | AddErrors | AddViolations
| TickAck (sec : Z)
| TickErr (sec : Z)
| RecordLat (ns : Z)
| AddSample (msg : string).

Definition exec_op (op : bot_op) (st : shardState) : shardState :=
  let '(mkShard sent acked errors violations hist secAcks secErrs samples) := st in
  match op with
  | AddSent => mkShard (Int64.add sent 1) acked errors violations hist secAcks secErrs samples
  | AddAcked => mkShard sent (Int64.add acked 1) errors violations hist secAcks secErrs samples
  | AddErrors => mkShard sent acked (Int64.add errors 1) violations hist secAcks secErrs samples
  | AddViolations => mkShard sent acked errors (Int64.add violations 1) hist secAcks secErrs samples
  | TickAck sec => mkShard sent acked errors violations hist (bump secAcks sec 1) secErrs samples
  | TickErr sec => mkShard sent acked errors violations hist secAcks (bump secErrs sec 1) samples
  | RecordLat ns => mkShard sent acked errors violations (bump hist (bucketOf ns) 1) secAcks secErrs samples
  | AddSample msg =>
      mkShard sent acked errors violations hist secAcks secErrs
        (if (length samples <? 10)%nat then samples ++ [msg] else samples)
  end.

Definition exec_ops (ops : list bot_op) (st : shardState) : shardState :=
  foldl (fun st op => exec_op op st) st ops.

(** ** Checking an ack *)

(** The violations of one fill. *)
Definition fill_verdicts (o : Order) (f : Fill) : list string :=
  if String.eqb (o_type o) Limit then
    (if String.eqb (o_side o) Buy && (o_price o <? f_price f)
     then [(o_id o +:+ ": buy fill @" +:+ itoa (f_price f) +:+ " above limit " +:+ itoa (o_price o))%string]
     else [])
    ++ (if String.eqb (o_side o) Sell && (f_price f <? o_price o)
        then [(o_id o +:+ ": sell fill @" +:+ itoa (f_price f) +:+ " below limit " +:+ itoa (o_price o))%string]
        else [])
  else [].

(** The loop over the fills: the quantity and the violations so far. *)
Fixpoint check_fills (o : Order) (fs : list Fill) (filled : Z) (v : list string) : Z * list string :=
  match fs with
  | [] => (filled, v)
  | f :: fs' => check_fills o fs' (Int64.add filled (f_qty f)) (v ++ fill_verdicts o f)
  end.

Definition validate (o : Order) (ack : Ack) : list string :=
  let '(filled, v) := check_fills o (a_fills ack) 0 [] in
  let v := if o_qty o <? filled
           then v ++ [(o_id o +:+ ": overfill " +:+ itoa filled +:+ " > qty " +:+ itoa (o_qty o))%string]
           else v in
  if String.eqb (a_status ack) StatusFilled && negb (filled =? o_qty o)
  then v ++ [(o_id o +:+ ": status filled but " +:+ itoa filled +:+ "/" +:+ itoa (o_qty o))%string]
  else v.

(** The new [*last] and the violations. *)
Definition checkSeq (last : Z) (ack : Ack) : Z * list string :=
  if a_seq ack <=? last
  then (a_seq ack, [("seq regression " +:+ itoa (a_seq ack) +:+ " after " +:+ itoa last)%string])
  else (a_seq ack, []).

(** ** One request *)

Section bot.
Context {W : Type} `{!Env W, !Strconv}.

(** [http.NewRequest] rejects a malformed URL. *)
Context (bad_url : string -> option string).

Definition Bot (A : Type) : Type := M (World W shardState) A.

Definition atomic (op : bot_op) : Bot () := modify_local (exec_op op).

Definition violate (msg : string) : Bot () := atomic AddViolations;; atomic (AddSample msg).

(** [time.Time.Unix] *)
Definition unix (ns : Z) : Z := ns / 1000000000.

Inductive http_request := DELETE (url : string) | POST (url : string) (o : Order).

Definition req_url (req : http_request) : string :=
  match req with DELETE url => url | POST url _ => url end.

Definition Do (req : http_request) : Bot http_reply :=
  match req with
  | DELETE url => perform (DeleteOrder url)
  | POST url o => perform (PostOrder url o)
  end.

Definition failed (now : Z) (err : string) : Bot (Ack * option string) :=
  atomic AddErrors;; atomic (TickErr (unix now));; mret (zeroAck, Some err).

(** With a body, the header of the request is set before its error is looked
    at: a bad URL is a nil dereference. *)
Definition send (req : http_request) : Bot (Ack * option string) :=
  match bad_url (req_url req), req with
  | Some _, POST _ _ => panic
  | Some err, DELETE _ => mret (zeroAck, Some err)
  | None, _ =>
      atomic AddSent;;
      t0 ← perform Now;
      resp ← Do req;
      now ← perform Now;
      match resp with
      | HttpErr err => failed now err
      | HttpResp code body =>
          if negb (code =? 200) then failed now ("http " +:+ itoa code)%string
          else match body with
               | inr err => failed now err
               | inl ack =>
                   t1 ← perform Now;
                   atomic (RecordLat (Int64.sub t1 t0));;
                   atomic AddAcked;;
                   atomic (TickAck (unix now));;
                   mret (ack, None)
               end
      end
  end.

Definition sendOrder (target : string) (o : Order) : Bot (Ack * option string) :=
  '(ack, err) ← send (POST (target +:+ "/orders") o);
  match err with
  | None =>
      if negb (String.eqb (a_order ack) (o_id o))
      then violate ("ack order_id " +:+ quote (a_order ack) +:+ " for order " +:+ quote (o_id o));;
           mret (ack, err)
      else mret (ack, err)
  | Some _ => mret (ack, err)
  end.

(** ** The behaviour of a bot *)

(** The variables of the goroutine. *)
Record bot_vars := mkBot {
  bot_mid : Z;
  bot_resting : list string;
  bot_lastSeq : Z;
  bot_n : Z
}.

Definition side : Bot Side := i ← perform (Intn 2); mret (if i =? 0 then Buy else Sell).

Definition bot_id (shard : LoadShard) (idx n : Z) : string :=
  ("b" +:+ itoa (ls_shard shard) +:+ "-" +:+ itoa idx +:+ "-" +:+ itoa n)%string.

Fixpoint violate_all (verdicts : list string) : Bot () :=
  match verdicts with [] => mret () | v :: vs => violate v;; violate_all vs end.

(** The three cases of the [switch]. Each ends the turn: [continue] on an error. *)
Definition cancel_turn (shard : LoadShard) (b : bot_vars) : Bot bot_vars :=
  i ← perform (Intn (Z.of_nat (length (bot_resting b))));
  let k := Z.to_nat i in
  id ← index (bot_resting b) k;
  let resting := take k (bot_resting b) ++ drop (k + 1) (bot_resting b) in
  let b := mkBot (bot_mid b) resting (bot_lastSeq b) (bot_n b) in
  '(ack, err) ← send (DELETE (ls_target shard +:+ "/orders/" +:+ id));
  match err with
  | Some _ => mret b
  | None =>
      let v1 := if negb (String.eqb (a_status ack) StatusCanceled)
                   && negb (String.eqb (a_status ack) StatusUnknown)
                then [("cancel " +:+ id +:+ " got status " +:+ quote (a_status ack))%string] else [] in
      let '(last, v2) := checkSeq (bot_lastSeq b) ack in
      violate_all (v1 ++ v2);;
      mret (mkBot (bot_mid b) (bot_resting b) last (bot_n b))
  end.

Definition market_turn (shard : LoadShard) (idx : Z) (b : bot_vars) : Bot bot_vars :=
  q ← perform (Intn 50);
  s ← side;
  let o := mkOrder (bot_id shard idx (bot_n b)) s Market 0 (1 + q) in
  let b := mkBot (bot_mid b) (bot_resting b) (bot_lastSeq b) (bot_n b + 1) in
  '(ack, err) ← sendOrder (ls_target shard) o;
  match err with
  | Some _ => mret b
  | None =>
      let v1 := validate o ack in
      let '(last, v2) := checkSeq (bot_lastSeq b) ack in
      violate_all (v1 ++ v2);;
      mret (mkBot (bot_mid b) (bot_resting b) last (bot_n b))
  end.

Definition limit_turn (shard : LoadShard) (idx : Z) (b : bot_vars) : Bot bot_vars :=
  s ← side;
  d ← perform (Intn 25);
  let price := bot_mid b - d + 5 in
  price ← (if String.eqb s Sell then d ← perform (Intn 25); mret (bot_mid b + d - 5) else mret price);
  let price := if price <? 1 then 1 else price in
  q ← perform (Intn 100);
  let o := mkOrder (bot_id shard idx (bot_n b)) s Limit price (1 + q) in
  let b := mkBot (bot_mid b) (bot_resting b) (bot_lastSeq b) (bot_n b + 1) in
  '(ack, err) ← sendOrder (ls_target shard) o;
  match err with
  | Some _ => mret b
  | None =>
      let resting :=
        if (String.eqb (a_status ack) StatusResting || String.eqb (a_status ack) StatusPartial)
           && (length (bot_resting b) <? 50)%nat
        then bot_resting b ++ [o_id o] else bot_resting b in
      let v1 := validate o ack in
      let '(last, v2) := checkSeq (bot_lastSeq b) ack in
      violate_all (v1 ++ v2);;
      mret (mkBot (bot_mid b) resting last (bot_n b))
  end.

(** [Duration.Seconds] *)
Definition seconds (ns : Z) : F64.t :=
  F64.add (F64.of_Z (Z.quot ns 1000000000))
          (F64.div (F64.of_Z (Z.rem ns 1000000000)) (F64.of_Z 1000000000)).

(** The request rate a bot aims at, [elapsed] after the start: a ramp from a
    tenth of its share of the budget, with a floor of one request in 2s. *)
Definition ramp (shard : LoadShard) (elapsed : Z) : F64.t :=
  let perBotMax := F64.div (F64.of_Z (ls_max_rps shard)) (F64.of_Z (ls_bots shard)) in
  let frac := F64.div (seconds elapsed) (F64.of_Z (ls_duration shard)) in
  let rate := F64.mul perBotMax (F64.add (F64.dec 10 2) (F64.mul (F64.dec 90 2) frac)) in
  if F64.ltb rate (F64.dec 5 1) then F64.dec 5 1 else rate.

(** The wait before a request: half to one and a half times the gap. *)
Definition pause (rate x : F64.t) : Z :=
  F64.to_int64 (F64.mul (F64.div (F64.of_Z 1000000000) rate) (F64.add (F64.dec 5 1) x)).

Definition bot_turn (shard : LoadShard) (idx start : Z) (b : bot_vars) : Bot bot_vars :=
  now ← perform Now;
  let rate := ramp shard (Int64.sub now start) in
  x ← perform Float64;
  perform (Sleep (pause rate x));;
  i ← perform (Intn 7);
  let mid := bot_mid b + i - 3 in
  let mid := if mid <? 9000 then 9000 else mid in
  let mid := if 11000 <? mid then 11000 else mid in
  let b := mkBot mid (bot_resting b) (bot_lastSeq b) (bot_n b) in
  p ← perform Float64;
  if F64.ltb p (F64.dec 20 2) && (0 <? length (bot_resting b))%nat then cancel_turn shard b
  else if F64.ltb p (F64.dec 40 2) then market_turn shard idx b
  else limit_turn shard idx b.

(** The goroutine: [fuel] bounds the turns. *)
Definition bot (fuel : nat) (shard : LoadShard) (idx start deadline : Z) : Bot bot_vars :=
  i ← perform (Intn 60);
  loop fuel (fun b =>
    now ← perform Now;
    if now <? deadline then b ← bot_turn shard idx start b; mret (inl b) else mret (inr b))
    (mkBot (10000 + i - 30) [] 0 0).
End bot.
End fleet.
