(* ===== verification/BotProps.v ===== *)
(** * The load generator: theorems about its checks

    The live checks flag exactly the acks that break the contract, and never an
    engine that keeps price-time priority. *)
From S2P Require Import Prelude Protocol Float64 Text IO Counters Hist.
From S2P Require Import Book PriorityBook PriorityFacts BookRefine BookProps Bot.
Local Open Scope Z_scope.

(** ** [validate] *)

Lemma check_fills_eq o fs filled v :
  in64 filled ->
  check_fills o fs filled v = (Int64.wrap (filled + sum_fills fs), v ++ concat (map (fill_verdicts o) fs)).
Proof.
  revert filled v. induction fs as [|f fs IH]; intros filled v Hin; simpl.
  - by rewrite Z.add_0_r, Int64.wrap_id, app_nil_r.
  - rewrite IH by apply Int64.add_in_range. rewrite <- app_assoc. f_equal.
    transitivity (Int64.add (Int64.wrap (filled + f_qty f)) (sum_fills fs)); [reflexivity|].
    rewrite Int64.add_wrap_l. unfold Int64.add. f_equal. lia.
Qed.

(** The total [validate] computes. *)
Definition filled_total (ack : Ack) : Z := Int64.wrap (sum_fills (a_fills ack)).

(** A fill is within the limit of a limit order. *)
Definition within_limit (o : Order) (f : Fill) : Prop :=
  o_type o = Limit ->
  (o_side o = Buy -> f_price f <= o_price o) /\ (o_side o = Sell -> o_price o <= f_price f).

Lemma fill_verdicts_nil o f : fill_verdicts o f = [] <-> within_limit o f.
Proof.
  unfold fill_verdicts, within_limit.
  destruct (String.eqb_spec (o_type o) Limit) as [Ht|]; [|by split; [intros _ ?|]].
  destruct (String.eqb_spec (o_side o) Buy) as [Hb|], (String.eqb_spec (o_side o) Sell) as [Hs|];
    simpl; try (rewrite Hb in Hs; discriminate);
    destruct (Z.ltb_spec (o_price o) (f_price f)), (Z.ltb_spec (f_price f) (o_price o)); simpl;
    split; intros Hn; try done; try (intros _; split; intros; done || lia);
    exfalso; destruct (Hn ltac:(done)) as [H1 H2];
    first [specialize (H1 ltac:(done)); lia|specialize (H2 ltac:(done)); lia].
Qed.

Lemma concat_nil {A B} (f : A -> list B) l : concat (map f l) = [] <-> Forall (fun x => f x = []) l.
Proof.
  induction l as [|x l IH]; [by split|]. simpl. rewrite Forall_cons, <- IH.
  split; [by intros [-> ->]%app_nil|by intros [-> ->]].
Qed.

Lemma validate_nil o ack :
  validate o ack = [] <->
  Forall (within_limit o) (a_fills ack) /\ filled_total ack <= o_qty o
  /\ (a_status ack = StatusFilled -> filled_total ack = o_qty o).
Proof.
  unfold validate. rewrite check_fills_eq by decide_now. rewrite Z.add_0_l. simpl.
  fold (filled_total ack). set (n := filled_total ack).
  assert (concat (map (fill_verdicts o) (a_fills ack)) = [] <-> Forall (within_limit o) (a_fills ack)) as Hc.
  { rewrite concat_nil. apply Forall_iff. intros f. apply fill_verdicts_nil. }
  rewrite <- Hc. destruct (Z.ltb_spec (o_qty o) n).
  - split; [|lia]. case_match; intros H'; by repeat apply app_nil in H' as [H' ?].
  - destruct (String.eqb_spec (a_status ack) StatusFilled); simpl; [|naive_solver].
    destruct (Z.eqb_spec n (o_qty o)); simpl; [naive_solver|].
    split; [by intros [_ ?]%app_nil|naive_solver].
Qed.

(** ** What one observer reports *)

(** The violations a bot reports for one request and its ack: the id echo, the
    checks of [validate], the status of a cancel. *)
Definition ack_verdicts `{!Strconv} (q : request) (a : Ack) : list string :=
  match q with
  | ReqSubmit o =>
      (if negb (String.eqb (a_order a) (o_id o))
       then [("ack order_id " +:+ quote (a_order a) +:+ " for order " +:+ quote (o_id o))%string] else [])
      ++ validate o a
  | ReqCancel id =>
      if negb (String.eqb (a_status a) StatusCanceled) && negb (String.eqb (a_status a) StatusUnknown)
      then [("cancel " +:+ id +:+ " got status " +:+ quote (a_status a))%string] else []
  end.

(** The violations over a serial run of requests, from [*last]. *)
Fixpoint observe `{!Strconv} (last : Z) (l : list (request * Ack)) : list string :=
  match l with
  | [] => []
  | (q, a) :: l' => let '(last', v) := checkSeq last a in ack_verdicts q a ++ v ++ observe last' l'
  end.

Lemma checkSeq_last last a : (checkSeq last a).1 = a_seq a.
Proof. unfold checkSeq. by case_match. Qed.

Lemma checkSeq_nil last a : (checkSeq last a).2 = [] <-> last < a_seq a.
Proof. unfold checkSeq. destruct (Z.leb_spec (a_seq a) last); simpl; split; try done; lia. Qed.

Lemma observe_nil `{!Strconv} last l :
  observe last l = [] <->
  Forall (fun qa => ack_verdicts qa.1 qa.2 = []) l /\ StronglySorted Z.lt (last :: map (fun qa => a_seq qa.2) l).
Proof.
  revert last. induction l as [|[q a] l IH]; intros last; simpl.
  - split; [|done]. split; [done|]. repeat constructor.
  - pose proof (checkSeq_last last a) as H1. pose proof (checkSeq_nil last a) as H2.
    destruct (checkSeq last a) as [last' v]. simpl in H1, H2. subst last'.
    rewrite Forall_cons. simpl. split.
    + intros Hn. apply app_nil in Hn as [Ha Hn]. apply app_nil in Hn as [Hv Hn]. apply IH in Hn as [Hf Hs].
      split; [done|]. constructor; [done|]. apply H2 in Hv. pose proof (StronglySorted_inv Hs) as [_ Hall].
      constructor; [done|]. eapply Forall_impl; [exact Hall|]. simpl. lia.
    + intros [[Ha Hf] Hs]. apply StronglySorted_inv in Hs as [Hs Hall]. apply Forall_cons in Hall as [Hlt _].
      rewrite Ha, (proj2 H2 Hlt). simpl. by apply IH.
Qed.

(** ** An engine that keeps the contract *)

(** The acks of the priority book are never flagged. *)
Lemma pb_handle_verdicts `{!Strconv} q pb :
  pb_wf pb -> req_ok q -> (forall o, q = ReqSubmit o -> 0 <= o_qty o) ->
  ack_verdicts q (pb_handle q pb).1 = [].
Proof.
  intros Hwf Hok Hq. destruct q as [o|id]; simpl.
  - destruct (pb_submit o pb) as [a pb'] eqn:Hsub. simpl.
    destruct (pb_submit_cases o pb a pb' (fun f => wf_qty pb f Hwf) Hsub) as (-> & _ & _ & Hcase).
    rewrite String.eqb_refl. simpl. apply validate_nil. unfold filled_total.
    specialize (Hq o eq_refl). simpl in Hok.
    destruct Hcase as [(_ & Hs & -> & _)|(u & [_ _ Hex _ Hst])].
    + rewrite Hs. simpl. rewrite Int64.wrap_id by decide_now. split_and!; [constructor|lia|done].
    + destruct (executed_sums _ _ _ _ _ Hex) as [Hsum _]. pose proof (executed_unfilled _ _ _ _ _ Hex).
      assert (forall f, f ∈ a_fills a -> 0 < f_qty f /\ willing o (f_price f)) as Hf.
      { intros f Hin. by destruct (executed_fills _ _ _ _ _ f (wf_qty _ _ Hwf) Hex Hin) as (? & ? & _). }
      pose proof (sum_fills_nonneg _ (fun f Hin => proj1 (Hf f Hin))) as Hpos.
      rewrite Int64.wrap_id.
      2: { unfold Int64.in_range, Int64.min_val, Int64.max_val in *. lia. }
      split_and!; [|lia|].
      * apply Forall_forall. intros f Hin. by destruct (Hf f Hin).
      * rewrite Hst. unfold outcome. repeat case_decide; try done. lia.
  - unfold pb_cancel. by case_decide.
Qed.

Lemma pb_run_verdicts `{!Strconv} qs pb :
  pb_wf pb -> Forall (fun q => req_ok q /\ forall o, q = ReqSubmit o -> 0 <= o_qty o) qs ->
  Forall (fun qa => ack_verdicts qa.1 qa.2 = []) (zip qs (pb_run qs pb).1).
Proof.
  intros Hwf Hqs. revert pb Hwf. induction Hqs as [|q qs [Hok Hq] _ IH]; intros pb Hwf; simpl; [constructor|].
  pose proof (pb_handle_verdicts q pb Hwf Hok Hq) as H1. pose proof (pb_handle_wf q pb Hwf Hok) as H2.
  destruct (pb_handle q pb) as [a pb1]. simpl in *. pose proof (IH pb1 H2) as H3.
  destruct (pb_run qs pb1) as [acks pb2]. simpl in *. by constructor.
Qed.

Lemma StronglySorted_sublist {A} (R : relation A) l l' :
  sublist l l' -> StronglySorted R l' -> StronglySorted R l.
Proof.
  induction 1 as [|x l l' Hsub IH|x l l' Hsub IH]; intros Hs; [done|..];
    apply StronglySorted_inv in Hs as [Hs Hall]; [|by apply IH].
  constructor; [by apply IH|]. rewrite Forall_forall in Hall |- *. intros y Hy. apply Hall.
  by eapply sublist_subseteq.
Qed.

Lemma map_zip_snd {A B C} (f : B -> C) (l : list A) (k : list B) :
  length k = length l -> map (fun qa => f qa.2) (zip l k) = map f k.
Proof. revert k. induction l as [|x l IH]; intros [|y k]; simpl; intros; try done. f_equal. apply IH. lia. Qed.

Lemma seqZ_sorted n m : StronglySorted Z.lt (seqZ n m).
Proof.
  destruct (decide (0 <= m)); [|rewrite seqZ_nil by lia; constructor].
  revert n. pattern m. apply natlike_ind; [| |done]; clear m l.
  - intros n. rewrite seqZ_nil by lia. constructor.
  - intros m Hm IH n. rewrite seqZ_cons by lia. constructor.
    + replace (Z.pred (Z.succ m)) with m by lia. apply IH.
    + apply Forall_forall. intros x Hx%elem_of_seqZ. lia.
Qed.

(** A request a client may make: its quantity an [int64] that is not negative. *)
Definition sane (q : request) : Prop := req_ok q /\ forall o, q = ReqSubmit o -> 0 <= o_qty o.

Lemma sane_all qs : Forall req_ok qs -> (forall o, ReqSubmit o ∈ qs -> 0 <= o_qty o) -> Forall sane qs.
Proof.
  intros Hok Hpos. apply Forall_forall. intros q Hq. rewrite Forall_forall in Hok. split; [by apply Hok|].
  intros o ->. by apply Hpos.
Qed.

Lemma pb_run_length qs pb : length (pb_run qs pb).1 = length qs.
Proof.
  revert pb. induction qs as [|q qs IH]; intros pb; [done|]. simpl. destruct (pb_handle q pb) as [a pb1].
  pose proof (IH pb1). destruct (pb_run qs pb1). simpl in *. lia.
Qed.

(** An observer of some of the requests of an honest run reports nothing. *)
Lemma honest_observer `{!Strconv} qs seen :
  Forall sane qs -> Z.of_nat (length qs) <= Int64.max_val -> sublist seen (zip qs (pb_run qs pb_empty).1) -> observe 0 seen = [].
Proof.
  intros Hqs Hlen Hsub. apply observe_nil. split.
  - pose proof (pb_run_verdicts qs pb_empty pb_empty_wf Hqs) as Hall.
    rewrite Forall_forall in Hall |- *. intros qa Hqa. apply Hall. by eapply sublist_subseteq.
  - apply (StronglySorted_sublist _ _ (0 :: map (fun qa => a_seq qa.2) (zip qs (pb_run qs pb_empty).1))).
    { apply sublist_skip. by apply (fmap_sublist (fun qa => a_seq qa.2)). }
    pose proof (pb_run_seqs qs pb_empty ltac:(done) ltac:(done)) as Hseq.
    rewrite map_zip_snd by apply pb_run_length.
    rewrite Hseq. change (pb_seq pb_empty + 1) with 1.
    pose proof (seqZ_sorted 0 (Z.of_nat (length qs) + 1)) as Hs.
    rewrite seqZ_cons in Hs by lia. by replace (Z.pred (Z.of_nat (length qs) + 1)) with (Z.of_nat (length qs)) in Hs by lia.
Qed.

(** ** Claims *)

(** C29. [validate] reports nothing exactly when the ack keeps the contract: every
    fill of a limit order is within its limit, the fills (added up in [int64])
    do not exceed the quantity, and [filled] means filled. *)
Theorem validate_flags_exactly_bad_acks (o : Order) (ack : Ack) :
  validate o ack = [] <->
  Forall (within_limit o) (a_fills ack) /\ filled_total ack <= o_qty o
  /\ (a_status ack = StatusFilled -> filled_total ack = o_qty o).
Proof. apply validate_nil. Qed.

(** No false alarm: whatever requests a number of clients interleave on a
    book that keeps price-time priority, a client that sees only its own
    requests, in order, reports no violation at all: not an id, not a limit,
    not an overfill, not a status, not a sequence number. *)
Theorem honest_engine_is_never_flagged `{!Strconv} (qs : list request) :
  Forall req_ok qs -> (forall o, ReqSubmit o ∈ qs -> 0 <= o_qty o) ->
  Z.of_nat (length qs) <= Int64.max_val ->
  exists acks s, run_book qs New = Ok (acks, s)
  /\ forall seen, sublist seen (zip qs acks) -> observe 0 seen = [].
Proof.
  intros Hok Hpos Hlen. destruct (run_refines qs New Inv_New Hok) as (s & Hrun & _).
  exists (pb_run qs pb_empty).1, s. split; [done|]. intros seen. apply honest_observer; [by apply sane_all|done].
Qed.

#[local] Instance plain_text : Strconv := {| other_float := fun _ => F64.zero; quote := fun s => s |}.

Lemma honest_engine_is_never_flagged_witness :
  exists acks s, run_book demo_requests New = Ok (acks, s)
  /\ forall seen, sublist seen (zip demo_requests acks) -> observe 0 seen = [].
Proof.
  apply (honest_engine_is_never_flagged demo_requests).
  - decide_now.
  - intros o Ho. unfold demo_requests in Ho.
    repeat (apply elem_of_cons in Ho as [Ho|Ho]; [injection Ho as ->; simpl; lia|]).
    by apply not_elem_of_nil in Ho.
  - vm_compute. discriminate.
Defined.
