(* ===== verification/Chaos.v ===== *)
(** * The example engine in its chaos mode

    Its book is still the matching book, but some acks are meddled with before
    they are sent: what the checks of a bot report of that. *)
From S2P Require Import Prelude Protocol Float64 Text IO Counters Hist Book PriorityBook PriorityFacts BookRefine BookProps.
From S2P Require Import ConformanceProps RefEngine RefEngineProps Bot BotProps.
Import RefEngine.
Local Open Scope Z_scope.

(** What was done to an ack: its first price raised, its number lowered. *)
Record mark := mkMark { mk_price : bool; mk_seq : bool }.

Definition meddle (m : mark) (a : Ack) : Ack :=
  mkAck (a_order a) (if mk_seq m then Int64.sub (a_seq a) 5 else a_seq a) (a_status a)
        (if mk_price m then bump_price (a_fills a) else a_fills a) (a_ts a).

Section chaos.
Context {G : Type} (rand_float : G -> F64.t * G) (tick_clock : Z -> Z) (delayMs : Z).

(** What one request is answered, and a series of them. *)
Definition respond_to (chaos : bool) (q : request) : M (Server G) http_reply :=
  match q with
  | ReqSubmit o => post_orders rand_float tick_clock delayMs chaos (inl o)
  | ReqCancel id => delete_order rand_float tick_clock delayMs chaos id
  end.

Fixpoint respond_all (chaos : bool) (qs : list request) : M (Server G) (list http_reply) :=
  match qs with
  | [] => mret []
  | q :: qs' => r ← respond_to chaos q; rs ← respond_all chaos qs'; mret (r :: rs)
  end.

Lemma mangle_marks a s :
  exists m g, mangle rand_float true a s = Ok (meddle m a, mkServer (sv_book s) g (sv_clock s)).
Proof.
  destruct s as [st g clk]. unfold mangle, rand, meddle. simpl. destruct a as [id n status fs ts].
  unfold mbind, M_bind. simpl. case_bool_decide as Hfs; simpl.
  - destruct (rand_float g) as [x g1]. simpl. destruct (F64.ltb x (F64.dec 2 2)).
    + by exists (mkMark false true), g1.
    + by exists (mkMark false false), g1.
  - destruct (rand_float g) as [x g1]. simpl.
    destruct (F64.ltb x (F64.dec 5 2)); simpl; destruct (rand_float g1) as [y g2]; simpl;
      destruct (F64.ltb y (F64.dec 2 2)).
    + by exists (mkMark true true), g2.
    + by exists (mkMark true false), g2.
    + by exists (mkMark false true), g2.
    + by exists (mkMark false false), g2.
Qed.

(** The server's book stands for [pb]. *)
Abbreviation serves := (@serves G).

Lemma reply_chaos a pb (s : Server G) :
  serves pb s -> exists m s', reply_ack rand_float delayMs true a s = Ok (HttpResp 200 (inl (meddle m a)), s') /\ serves pb s'.
Proof.
  intros Hs. unfold reply_ack.
  assert (exists s1, (if 0 <? delayMs then sleep (Int64.mul delayMs 1000000) else mret ()) s = Ok (tt, s1) /\ sv_book s1 = sv_book s)
    as (s1 & Hp & Hb) by (destruct (0 <? delayMs); by eexists).
  erewrite bind_ok by exact Hp. destruct (mangle_marks a s1) as (m & g & Hm).
  erewrite bind_ok by exact Hm. eexists m, _. split; [done|]. unfold RefEngineProps.serves in *. simpl. by rewrite Hb.
Qed.

Definition stamped (ts : Z) (m : mark) (a : Ack) : Ack := meddle m (with_ts ts a).

Lemma respond_chaos q pb (s : Server G) :
  serves pb s -> req_ok q -> plain_request q ->
  exists ts m s', respond_to true q s = Ok (HttpResp 200 (inl (stamped ts m (pb_handle q pb).1)), s')
  /\ serves (pb_handle q pb).2 s'.
Proof.
  intros [Hinv <-] Hok Hplain. destruct (handle_refines q (sv_book s) Hinv Hok) as (st & Hrun & Hv & Hinv').
  exists (sv_clock s). unfold stamped. destruct q as [o|id]; simpl in *.
  - destruct (reply_chaos (with_ts (sv_clock s) (pb_submit o (view (sv_book s))).1) (pb_submit o (view (sv_book s))).2
      (mkServer st (sv_rng s) (tick_clock (sv_clock s))) (conj Hinv' Hv)) as (m & s' & Hr & Hs').
    exists m, s'. split; [|done]. unfold post_orders. erewrite bind_ok by (unfold on_book; by rewrite submit_eq, Hrun). exact Hr.
  - destruct (reply_chaos (with_ts (sv_clock s) (pb_cancel id (view (sv_book s))).1) (pb_cancel id (view (sv_book s))).2
      (mkServer st (sv_rng s) (tick_clock (sv_clock s))) (conj Hinv' Hv)) as (m & s' & Hr & Hs').
    exists m, s'. split; [|done]. unfold delete_order. erewrite bind_ok by (unfold on_book; by rewrite Hplain, cancel_eq, Hrun). exact Hr.
Qed.

(** The acks that are sent, from those of the priority book. *)
Definition sent_for (ms : list mark) (wants gots : list Ack) : Prop :=
  Forall3 (fun m want got => exists ts, got = stamped ts m want) ms wants gots.

Lemma respond_all_chaos qs pb (s : Server G) :
  serves pb s -> Forall (fun q => req_ok q /\ plain_request q) qs ->
  exists ms acks s', respond_all true qs s = Ok (map (fun a => HttpResp 200 (inl a)) acks, s')
  /\ sent_for ms (pb_run qs pb).1 acks.
Proof.
  intros Hs Hqs. revert pb s Hs. induction Hqs as [|q qs [Hok Hplain] _ IH]; intros pb s Hs; simpl.
  { exists [], [], s. split; [done|constructor]. }
  destruct (respond_chaos q pb s Hs Hok Hplain) as (ts & m & s1 & Hr & Hs1).
  destruct (pb_handle q pb) as [a pb1]. simpl in Hr, Hs1.
  destruct (IH pb1 s1 Hs1) as (ms & acks & s2 & Hrs & Hsent). destruct (pb_run qs pb1) as [wants pb2]. simpl in *.
  exists (m :: ms), (stamped ts m a :: acks), s2. split.
  - erewrite bind_ok by exact Hr. by erewrite bind_ok by exact Hrs.
  - constructor; [by exists ts|done].
Qed.
End chaos.

(** ** What is reported *)

Lemma sum_fills_bump fs : sum_fills (bump_price fs) = sum_fills fs.
Proof. by destruct fs. Qed.

(** Raising a price changes only what [validate] says of the limit. *)
Lemma meddled_verdicts `{!Strconv} q ts m a :
  ack_verdicts q a = [] ->
  ack_verdicts q (stamped ts m a) = [] <-> forall o, q = ReqSubmit o -> Forall (within_limit o) (a_fills (stamped ts m a)).
Proof.
  destruct q as [o|id]; simpl; intros Ha; [|split; [done|]; intros _; exact Ha].
  apply app_nil in Ha as [Hid Hv]. apply validate_nil in Hv as (_ & Hq & Hst).
  assert (filled_total (stamped ts m a) = filled_total a) as Htot.
  { unfold filled_total, stamped, meddle. simpl. destruct (mk_price m); [by rewrite sum_fills_bump|done]. }
  change (a_order (stamped ts m a)) with (a_order a). rewrite Hid. simpl. rewrite validate_nil, Htot.
  change (a_status (stamped ts m a)) with (a_status a). naive_solver.
Qed.

(** Numbers that increase strictly leave no room. *)
Lemma sorted_above last (l : list Z) i x : StronglySorted Z.lt (last :: l) -> l !! i = Some x -> last + Z.of_nat i < x.
Proof.
  revert last i. induction l as [|y l IH]; intros last i Hs Hi; [done|].
  apply StronglySorted_inv in Hs as [Hs Hall]. apply Forall_cons in Hall as [Hy _].
  destruct i as [|i]; simpl in Hi; [injection Hi as <-; lia|]. pose proof (IH y i Hs Hi). lia.
Qed.

(** The numbers answered to requests numbered from [n + 1] increase strictly
    from [n] exactly when none was lowered. *)
Lemma lowered_seqs (ms : list mark) (wants gots : list Ack) n :
  sent_for ms wants gots -> map a_seq wants = seqZ (n + 1) (Z.of_nat (length wants)) ->
  0 <= n -> n + Z.of_nat (length wants) <= Int64.max_val ->
  StronglySorted Z.lt (n :: map a_seq gots) <-> Forall (fun m => mk_seq m = false) ms.
Proof.
  intros Hsent Hseq Hn Hmax. split.
  - intros Hs. apply Forall_lookup. intros i m Hm. destruct (Forall3_lookup_l _ _ _ _ _ _ Hsent Hm) as (want & got & Hw & Hg & ts & ->).
    assert (a_seq want = n + 1 + Z.of_nat i) as Hwant.
    { assert (map a_seq wants !! i = Some (a_seq want)) as Hl by (by rewrite list_lookup_fmap, Hw).
      rewrite Hseq in Hl. apply lookup_seqZ in Hl as [-> _]. done. }
    assert (map a_seq gots !! i = Some (a_seq (stamped ts m want))) as Hgot by (by rewrite list_lookup_fmap, Hg).
    pose proof (sorted_above n _ i _ Hs Hgot) as Hlt. unfold stamped, meddle in Hlt. simpl in Hlt.
    destruct (mk_seq m); [|done]. exfalso. apply lookup_lt_Some in Hw. revert Hlt. rewrite Hwant.
    unfold Int64.sub. rewrite Int64.wrap_id; [lia|]. unfold Int64.in_range, Int64.min_val, Int64.max_val in *. lia.
  - intros Hm. assert (map a_seq gots = map a_seq wants) as ->.
    { clear Hseq Hmax. induction Hsent as [|m want got ms wants gots (ts & ->) _ IH]; [done|].
      apply Forall_cons in Hm as [Hm Hms]. simpl. rewrite IH by done. by rewrite Hm. }
    rewrite Hseq. pose proof (seqZ_sorted n (Z.of_nat (length wants) + 1)) as Hs.
    rewrite seqZ_cons in Hs by lia. replace (Z.pred (Z.of_nat (length wants) + 1)) with (Z.of_nat (length wants)) in Hs by lia.
    by replace (Z.succ n) with (n + 1) in Hs by lia.
Qed.

Lemma meddled_run `{!Strconv} qs ms wants gots :
  sent_for ms wants gots -> length wants = length qs -> Forall (fun qa => ack_verdicts qa.1 qa.2 = []) (zip qs wants) ->
  Forall (fun qa => ack_verdicts qa.1 qa.2 = []) (zip qs gots)
  <-> forall o a, (ReqSubmit o, a) ∈ zip qs gots -> Forall (within_limit o) (a_fills a).
Proof.
  intros Hsent. revert qs. induction Hsent as [|m want got ms wants gots (ts & ->) _ IH]; intros [|q qs] Hl Hall; try done.
  { simpl. split; [|constructor]. intros _ o a Hin. by apply not_elem_of_nil in Hin. }
  simpl in *. apply Forall_cons in Hall as [Hq Hall]. rewrite Forall_cons, (IH qs) by (done || lia).
  simpl. rewrite (meddled_verdicts q ts m want Hq). split.
  - intros [H1 H2] o a [[= <- ->]|Hin]%elem_of_cons; [by apply H1|by apply H2].
  - intros Hin. split; [|intros o a Ha; apply Hin; by right]. intros o ->. apply Hin. left.
Qed.

(** C26. The chaos mode is seen for what it is. An engine in that mode, whatever
    its random numbers and its delay, answers every request with the ack of the
    price-time priority book, except that it may raise the price of the first
    fill by 3 and lower the number by 5. A client that sends all requests, one
    after the other, reports nothing exactly when no number was lowered and no
    price that was answered is beyond the limit of its order: no lowered number
    goes unnoticed, and no raised price that breaks a limit. *)
Theorem chaos_is_reported `{!Strconv} {G : Type} (rand_float : G -> F64.t * G) (tick_clock : Z -> Z) (delayMs : Z)
    (qs : list request) (s : Server G) :
  sv_book s = newBook -> Forall (fun q => req_ok q /\ plain_request q) qs ->
  (forall o, ReqSubmit o ∈ qs -> 0 <= o_qty o) -> Z.of_nat (length qs) <= Int64.max_val ->
  exists ms acks s', respond_all rand_float tick_clock delayMs true qs s = Ok (map (fun a => HttpResp 200 (inl a)) acks, s')
  /\ sent_for ms (pb_run qs pb_empty).1 acks
  /\ (observe 0 (zip qs acks) = [] <->
      Forall (fun m => mk_seq m = false) ms
      /\ forall o a, (ReqSubmit o, a) ∈ zip qs acks -> Forall (within_limit o) (a_fills a)).
Proof.
  intros Hnew Hqs Hpos Hlen.
  destruct (respond_all_chaos rand_float tick_clock delayMs qs pb_empty s) as (ms & acks & s' & Hrun & Hsent); [|done|].
  { unfold serves. rewrite Hnew. split; [apply Inv_New|done]. }
  exists ms, acks, s'. split; [done|]. split; [done|].
  pose proof (pb_run_seqs qs pb_empty ltac:(done) ltac:(done)) as Hseq.
  pose proof (pb_run_length qs pb_empty) as Hl.
  rewrite observe_nil, map_zip_snd by (rewrite <- (Forall3_length_lr _ _ _ _ Hsent), (Forall3_length_lm _ _ _ _ Hsent); lia).
  rewrite (meddled_run qs ms _ acks Hsent Hl).
  - rewrite (lowered_seqs ms _ acks 0 Hsent); [tauto|by rewrite Hl|done|lia].
  - apply pb_run_verdicts; [apply pb_empty_wf|]. apply sane_all; [|done]. eapply Forall_impl; [exact Hqs|]. by intros q [].
Qed.

(** ** Witness: a buy whose fill is raised beyond its limit *)

(** A generator that replays a list. *)
Definition replay (g : list F64.t) : F64.t * list F64.t :=
  match g with [] => (F64.of_Z 1, []) | x :: g' => (x, g') end.

Definition demo_talk : list request :=
  [ReqSubmit (limit "A" Sell 10000 10); ReqSubmit (limit "B" Buy 10000 4)].

#[local] Existing Instance RefEngineProps.plain_text.

Lemma chaos_is_reported_witness :
  exists acks s', respond_all replay Z.succ 0 true demo_talk (mkServer newBook [F64.of_Z 1; F64.zero; F64.of_Z 1] 0)
      = Ok (map (fun a => HttpResp 200 (inl a)) acks, s')
  /\ observe 0 (zip demo_talk acks) <> [].
Proof.
  destruct (chaos_is_reported replay Z.succ 0 demo_talk (mkServer newBook [F64.of_Z 1; F64.zero; F64.of_Z 1] 0))
    as (ms & acks & s' & Hrun & _ & Hobs); [done|decide_now| |vm_compute; discriminate|].
  - intros o Ho. unfold demo_talk in Ho.
    repeat (apply elem_of_cons in Ho as [Ho|Ho]; [injection Ho as ->; simpl; lia|]). by apply not_elem_of_nil in Ho.
  - exists acks, s'. split; [exact Hrun|]. intros Hnil. apply Hobs in Hnil as [_ Hin].
    vm_compute in Hrun. destruct acks as [|a1 [|a2 [|]]]; try discriminate Hrun. injection Hrun as <- <- _.
    specialize (Hin (limit "B" Buy 10000 4) _ ltac:(right; left)). apply Forall_inv in Hin.
    destruct (Hin eq_refl) as [Hb _]. specialize (Hb eq_refl). vm_compute in Hb. by apply Hb.
Defined.
