(* ===== verification/BotPace.v ===== *)
(** * The pace of a bot: theorems

    The rate a bot aims at and how long it waits, in binary64. *)
From S2P Require Import Prelude Protocol Float64 Text IO Score Bot.
Local Open Scope Z_scope.

Section pace.

(** The units of 1.0, and of the constants 0.10, 0.90 and 1.5. *)
Abbreviation U := F64.one_u.
Definition tenth : Z := F64.rne (10 * U) 100.
Definition nine_tenths : Z := F64.rne (90 * U) 100.

Lemma tenth_num : F64.num (F64.dec 10 2) tenth.
Proof. apply F64.dec_num; [done..|vm_compute; discriminate]. Qed.
Lemma nine_tenths_num : F64.num (F64.dec 90 2) nine_tenths.
Proof. apply F64.dec_num; [done..|vm_compute; discriminate]. Qed.
Lemma nine_tenths_repr : F64.repr nine_tenths.
Proof. apply F64.rne_repr; [vm_compute; discriminate|done]. Qed.
Lemma repr_one : F64.repr U.
Proof. exact (F64.repr_units 1 ltac:(lia)). Qed.

Lemma pace_constants :
  2 * half = U /\ 0 <= tenth <= U /\ 0 <= nine_tenths <= U /\ F64.srne (tenth + nine_tenths) 1 = U
  /\ U + U <= F64.big_u /\ 2 ^ 32 * U <= F64.big_u /\ F64.repr (3 * half).
Proof.
  repeat (split; [vm_compute; first [reflexivity|discriminate|split; discriminate]|]).
  exists 3, 1073. split_and!; [lia..|]. vm_compute. reflexivity.
Qed.

Lemma div_units a b : 0 <= a -> 0 < b -> F64.srne (a * U * U) (b * U) = F64.srne (a * U) b.
Proof.
  intros Ha Hb. pose proof F64.one_u_pos.
  replace (a * U * U) with (U * (a * U)) by lia. replace (b * U) with (U * b) by lia. by apply F64.srne_scale.
Qed.

(** A quotient of integers. *)
Lemma quotient_num a b :
  0 <= a <= 2 ^ 32 -> 1 <= b <= 2 ^ 32 ->
  F64.num (F64.div (F64.of_Z a) (F64.of_Z b)) (F64.srne (a * U) b).
Proof.
  intros Ha Hb. pose proof F64.one_u_pos as HU. destruct pace_constants as (_ & _ & _ & _ & _ & Hbig & _).
  rewrite <- div_units by lia.
  apply F64.div_num; [apply F64.of_Z_num_exact; lia..|nia|].
  rewrite Z.abs_eq by (apply Z.mul_nonneg_nonneg; nia).
  rewrite Z.mul_assoc. apply Z.mul_le_mono_nonneg_r; [lia|]. transitivity (2 ^ 32 * U); [nia|].
  transitivity F64.big_u; [done|]. generalize dependent F64.big_u. intros. nia.
Qed.

Lemma srne_zero d : 0 < d -> F64.srne 0 d = 0.
Proof. intros Hd. pose proof (F64.srne_exact 0 d Hd F64.repr_0) as Hz. by rewrite Z.mul_0_l in Hz. Qed.

(** A rounded fraction of a representable amount. *)
Lemma part_of g f : F64.repr g -> 0 <= f <= U -> 0 <= F64.srne (g * f) U <= g.
Proof.
  intros Hg Hf. pose proof (F64.repr_nonneg g Hg). pose proof F64.one_u_pos. split.
  - apply F64.srne_nonneg; [apply Z.mul_nonneg_nonneg|]; lia.
  - apply F64.srne_le; [done|done|]. apply Z.mul_le_mono_nonneg_l; lia.
Qed.

Lemma seconds_num e d :
  1 <= d <= 2 ^ 31 -> 0 <= e <= d * 1000000000 -> exists s, F64.num (seconds e) s /\ 0 <= s <= d * U.
Proof.
  intros Hd He. pose proof F64.one_u_pos as HU. destruct pace_constants as (_ & _ & _ & _ & _ & Hbig & _).
  pose proof (Z.quot_rem' e 1000000000). pose proof (Z.rem_bound_pos e 1000000000 ltac:(lia) ltac:(lia)).
  set (q := Z.quot e 1000000000) in *. set (r := Z.rem e 1000000000) in *.
  pose proof (quotient_num r 1000000000 ltac:(lia) ltac:(lia)) as Hr.
  assert (0 <= F64.srne (r * U) 1000000000) as Hnn by (apply F64.srne_nonneg; [apply Z.mul_nonneg_nonneg|]; lia).
  assert (q * U + F64.srne (r * U) 1000000000 <= d * U) as Hsum.
  { destruct (Z.eq_dec r 0) as [->|Hne].
    - rewrite Z.mul_0_l, srne_zero by lia.
      pose proof (Z.mul_le_mono_nonneg_r q d U ltac:(lia) ltac:(lia)). lia.
    - assert (F64.srne (r * U) 1000000000 <= U) by (apply F64.srne_le; [lia|apply repr_one|nia]).
      pose proof (Z.mul_le_mono_nonneg_r (q + 1) d U ltac:(lia) ltac:(lia)). lia. }
  assert (0 <= q * U) by (apply Z.mul_nonneg_nonneg; lia).
  exists (F64.srne (q * U + F64.srne (r * U) 1000000000) 1). split; [|split].
  - apply F64.add_num; [apply F64.of_Z_num_exact; lia|exact Hr|]. rewrite Z.abs_eq by lia.
    transitivity (d * U); [done|]. transitivity (2 ^ 32 * U); [nia|done].
  - apply F64.srne_nonneg; lia.
  - apply F64.srne_le; [lia|apply F64.repr_units; lia|lia].
Qed.

(** The part of the budget that is due: 0.10 + 0.90 times the part of the time gone. *)
Lemma due_num e d :
  1 <= d <= 2 ^ 31 -> 0 <= e <= d * 1000000000 ->
  exists f, F64.num (F64.add (F64.dec 10 2) (F64.mul (F64.dec 90 2) (F64.div (seconds e) (F64.of_Z d)))) f /\ 0 <= f <= U.
Proof.
  intros Hd He. pose proof F64.one_u_pos as HU. destruct pace_constants as (_ & Ht & Hn & Hone & Hbig & Hbig2 & _).
  destruct (seconds_num e d Hd He) as (s & Hs & Hsd).
  assert (F64.num (F64.div (seconds e) (F64.of_Z d)) (F64.srne (s * U) (d * U))) as Hf.
  { apply F64.div_num; [done|apply F64.of_Z_num_exact; lia|nia|].
    rewrite Z.abs_eq by (apply Z.mul_nonneg_nonneg; lia). rewrite Z.mul_assoc. apply Z.mul_le_mono_nonneg_r; [lia|].
    transitivity (d * U); [lia|]. rewrite (Z.mul_comm _ d). apply Z.mul_le_mono_nonneg_l; lia. }
  set (f := F64.srne (s * U) (d * U)) in *.
  assert (0 <= f <= U) as Hfr.
  { split; [apply F64.srne_nonneg; [apply Z.mul_nonneg_nonneg|]; nia|].
    apply F64.srne_le; [nia|apply repr_one|]. nia. }
  pose proof (part_of _ f nine_tenths_repr Hfr) as Hp.
  assert (F64.num (F64.mul (F64.dec 90 2) (F64.div (seconds e) (F64.of_Z d))) (F64.srne (nine_tenths * f) U)) as Hm.
  { apply F64.mul_num; [apply nine_tenths_num|done|]. rewrite Z.abs_eq by (apply Z.mul_nonneg_nonneg; lia).
    transitivity (U * U); [apply Z.mul_le_mono_nonneg; lia|]. apply Z.mul_le_mono_nonneg_r; lia. }
  eexists. split; [apply F64.add_num; [apply tenth_num|exact Hm|]; lia|]. split; [apply F64.srne_nonneg; lia|].
  transitivity (F64.srne (tenth + nine_tenths) 1); [apply F64.srne_mono; lia|lia].
Qed.

(** The rate: half a request per second, or the part of the budget that is due. *)
Lemma ramp_num shard e :
  0 <= ls_max_rps shard <= 2 ^ 32 -> 1 <= ls_bots shard <= 2 ^ 32 ->
  1 <= ls_duration shard <= 2 ^ 31 -> 0 <= e <= ls_duration shard * 1000000000 ->
  exists r, F64.num (ramp shard e) (Z.max half r)
    /\ 0 <= r <= F64.srne (ls_max_rps shard * U) (ls_bots shard).
Proof.
  intros Hr Hb Hd He. pose proof F64.one_u_pos as HU. destruct pace_constants as (_ & _ & _ & _ & _ & Hbig & _).
  destruct (due_num e (ls_duration shard) Hd He) as (f & Hf & Hfr).
  pose proof (quotient_num _ _ Hr Hb) as Hp. set (p := F64.srne (ls_max_rps shard * U) (ls_bots shard)) in *.
  assert (0 <= ls_max_rps shard * U) as Hnn by (apply Z.mul_nonneg_nonneg; lia).
  assert (F64.repr p) as Hrep by (unfold p; rewrite F64.srne_rne by done; apply F64.rne_repr; lia).
  assert (p <= ls_max_rps shard * U) as Hple by (apply F64.srne_le; [lia|apply F64.repr_units; lia|nia]).
  pose proof (part_of p f Hrep Hfr) as Hm. pose proof (F64.repr_nonneg p Hrep).
  exists (F64.srne (p * f) U). split; [|done].
  assert (F64.num (F64.mul (F64.div (F64.of_Z (ls_max_rps shard)) (F64.of_Z (ls_bots shard)))
     (F64.add (F64.dec 10 2) (F64.mul (F64.dec 90 2) (F64.div (seconds e) (F64.of_Z (ls_duration shard)))))) (F64.srne (p * f) U)) as Hrate.
  { apply F64.mul_num; [done..|]. rewrite Z.abs_eq by (apply Z.mul_nonneg_nonneg; lia).
    apply Z.mul_le_mono_nonneg; [lia| |lia|lia]. nia. }
  unfold ramp. rewrite (F64.ltb_num _ _ _ _ Hrate half_num).
  destruct (Z.ltb_spec (F64.srne (p * f) U) half).
  - rewrite Z.max_l by lia. apply half_num.
  - by rewrite Z.max_r by lia.
Qed.

(** The integer part of a number of nanoseconds. *)
Lemma to_int64_between y n :
  0 <= n <= Int64.max_val -> (exists w, F64.num y w /\ 0 <= w <= n * U) -> 0 <= F64.to_int64 y <= n.
Proof.
  intros Hn (w & (s & z & -> & Hz & <-) & Hw). pose proof F64.one_u_pos.
  assert (F64.to_int64 (F64.Fin s z) = z / U) as ->.
  { unfold F64.to_int64. assert (F64.units s (z / U) = z / U) as ->.
    { destruct s; [|done]. simpl in *. replace z with 0 by lia. by rewrite Z.div_0_l by lia. }
    apply decide_True. assert (z <= n * U) by (destruct s; simpl in *; lia).
    assert (0 <= z / U <= n) by (split; [apply Z.div_pos; lia|apply Z.div_le_upper_bound; lia]).
    unfold in64, Int64.in_range, Int64.min_val. lia. }
  assert (z <= n * U) by (destruct s; simpl in *; lia).
  split; [apply Z.div_pos; lia|apply Z.div_le_upper_bound; lia].
Qed.

Lemma three_seconds : 0 <= 3000000000 <= Int64.max_val.
Proof. vm_compute. split; discriminate. Qed.

(** A bot keeps its pace. For a shard with at most 2^32 bots and requests
    per second, at any moment of its time, the rate a bot aims at is at least
    half a request per second and, unless it is exactly this floor, at most
    its share of the budget; and for any random number in [0, 1) it waits
    between 0 and 3 seconds before its request. *)
Theorem pace_stays_in_band (shard : LoadShard) (elapsed : Z) (x : F64.t) (u : Z) :
  0 <= ls_max_rps shard <= 2 ^ 32 -> 1 <= ls_bots shard <= 2 ^ 32 ->
  1 <= ls_duration shard <= 2 ^ 31 -> 0 <= elapsed <= ls_duration shard * 1000000000 ->
  F64.num x u -> 0 <= u < U ->
  let rate := ramp shard elapsed in
  let share := F64.div (F64.of_Z (ls_max_rps shard)) (F64.of_Z (ls_bots shard)) in
  F64.leb (F64.dec 5 1) rate = true
  /\ F64.leb rate (F64.dec 5 1) || F64.leb rate share = true
  /\ 0 <= pause rate x <= 3000000000.
Proof.
  intros Hr Hb Hd He Hx Hu rate share. pose proof F64.one_u_pos as HU.
  destruct pace_constants as (Hhalf & _ & _ & _ & Hbig & Hbig2 & H3).
  destruct (ramp_num shard elapsed Hr Hb Hd He) as (r & Hrate & Hrange). fold rate in Hrate.
  pose proof (quotient_num _ _ Hr Hb) as Hshare. fold share in Hshare.
  rewrite (F64.leb_num _ _ _ _ half_num Hrate), (F64.leb_num _ _ _ _ Hrate half_num), (F64.leb_num _ _ _ _ Hrate Hshare).
  split; [lia|]. split; [lia|].
  set (v := Z.max half r) in *. assert (half <= v) as Hv by lia. clearbody v rate.
  assert (F64.num (F64.div (F64.of_Z 1000000000) rate) (F64.srne (1000000000 * U * U) v)) as Hg.
  { apply F64.div_num; [apply F64.of_Z_num_exact; lia|done|lia|]. rewrite Z.abs_eq by (apply Z.mul_nonneg_nonneg; nia).
    transitivity (2000000000 * U * half); [nia|]. apply Z.mul_le_mono_nonneg; nia. }
  set (g := F64.srne (1000000000 * U * U) v) in *.
  assert (0 <= g <= 2000000000 * U) as Hgr.
  { split; [apply F64.srne_nonneg; [apply Z.mul_nonneg_nonneg|]; nia|].
    apply F64.srne_le; [lia|apply F64.repr_units; lia|nia]. }
  set (h := F64.srne (half + u) 1).
  assert (0 <= h <= 3 * half) as Hh.
  { split; [apply F64.srne_nonneg; lia|]. apply F64.srne_le; [lia|done|lia]. }
  assert (F64.num (F64.add (F64.dec 5 1) x) h) as Hhn by (apply F64.add_num; [apply half_num|done|lia]).
  assert (g * h <= 3000000000 * U * U) as Hgh by nia.
  assert (0 <= g * h) as Hgh0 by (apply Z.mul_nonneg_nonneg; lia).
  assert (F64.num (F64.mul (F64.div (F64.of_Z 1000000000) rate) (F64.add (F64.dec 5 1) x)) (F64.srne (g * h) U)) as Hm.
  { apply F64.mul_num; [done..|]. rewrite Z.abs_eq by done.
    transitivity (3000000000 * U * U); [done|]. apply Z.mul_le_mono_nonneg_r; [lia|]. nia. }
  assert (0 <= F64.srne (g * h) U <= 3000000000 * U) as Hw.
  { split; [apply F64.srne_nonneg; lia|]. apply F64.srne_le; [done|apply F64.repr_units; lia|nia]. }
  unfold pause. apply to_int64_between; [exact three_seconds|]. exists (F64.srne (g * h) U). exact (conj Hm Hw).
Qed.

Lemma pace_stays_in_band_witness :
  let shard := mkLoadShard "run1" "http://sub:8080" 0 20 250 300 500 7 in
  F64.leb (ramp shard 150000000000) (F64.dec 5 1) = false /\
  0 <= pause (ramp shard 150000000000) (F64.Fin false 0) <= 3000000000.
Proof.
  split; [vm_compute; reflexivity|].
  refine (proj2 (proj2 (pace_stays_in_band (mkLoadShard "run1" "http://sub:8080" 0 20 250 300 500 7) 150000000000
    (F64.Fin false 0) 0 _ _ _ _ _ _))); [simpl; lia|simpl; lia|simpl; lia|simpl; lia|apply F64.zero_num|].
  split; [lia|exact F64.one_u_pos].
Defined.

(** The floor can exceed the share: 250 bots that share 25 requests per second
    aim at half a request each, 125 in all. *)
Theorem rate_floor_exceeds_budget :
  let shard := mkLoadShard "run1" "http://sub:8080" 0 20 250 300 25 7 in
  ramp shard 150000000000 = F64.dec 5 1
  /\ F64.ltb (F64.div (F64.of_Z (ls_max_rps shard)) (F64.of_Z (ls_bots shard))) (ramp shard 150000000000) = true.
Proof. vm_compute. split; reflexivity. Qed.
End pace.
