(* ===== verification/BotTurn.v ===== *)
(** * The load generator: theorems about a bot's turns

    Whatever the engine answers, a bot sends only well-formed orders with ids
    it has never used, accounts for every request exactly once, and keeps its
    own variables in bounds. *)
From S2P Require Import Prelude Protocol Float64 Text IO Counters Hist.
From S2P Require Import Book PriorityBook PriorityFacts Bot BotProps.
Local Open Scope Z_scope.

(** ** Accounting *)

Definition count (P : bot_op -> bool) (ops : list bot_op) : Z :=
  Z.of_nat (length (List.filter P ops)).

Lemma count_app P l l' : count P (l ++ l') = count P l + count P l'.
Proof. unfold count. rewrite List.filter_app, length_app. lia. Qed.

Lemma count_cons P op l : count P (op :: l) = (if P op then 1 else 0) + count P l.
Proof. unfold count. simpl. destruct (P op); simpl; lia. Qed.

Lemma count_perm P l l' : l ≡ₚ l' -> count P l = count P l'.
Proof. induction 1; rewrite ?count_cons; lia. Qed.

Definition is_sent op := match op with AddSent => true | _ => false end.
Definition is_acked op := match op with AddAcked => true | _ => false end.
Definition is_error op := match op with AddErrors => true | _ => false end.
Definition is_violation op := match op with AddViolations => true | _ => false end.
Definition is_tick_ack op := match op with TickAck _ => true | _ => false end.
Definition is_tick_err op := match op with TickErr _ => true | _ => false end.
Definition is_record op := match op with RecordLat _ => true | _ => false end.

(** Every request sent is acked or an error; an ack is timed and ticked once,
    an error is ticked once. *)
Record balanced (ops : list bot_op) : Prop := mkBalanced {
  bal_sent : count is_sent ops = count is_acked ops + count is_error ops;
  bal_record : count is_record ops = count is_acked ops;
  bal_ack : count is_tick_ack ops = count is_acked ops;
  bal_err : count is_tick_err ops = count is_error ops
}.

Lemma balanced_nil : balanced [].
Proof. done. Qed.

Lemma balanced_app l l' : balanced l -> balanced l' -> balanced (l ++ l').
Proof. intros [] []. split; rewrite !count_app; lia. Qed.

Lemma balanced_perm l l' : l ≡ₚ l' -> balanced l -> balanced l'.
Proof.
  intros Hp []. split; rewrite <- !(count_perm _ l l' Hp); done.
Qed.

(** The operations of one request. *)
Definition request_ops (ops : list bot_op) (err : option string) : Prop :=
  match err with
  | Some _ => exists sec, ops = [AddSent; AddErrors; TickErr sec]
  | None => exists lat sec, ops = [AddSent; RecordLat lat; AddAcked; TickAck sec]
  end.

Lemma request_ops_balanced ops err : request_ops ops err -> balanced ops.
Proof. destruct err; [intros (? & ->)|intros (? & ? & ->)]; done. Qed.

(** Each violation is counted and its message kept as a sample. *)
Definition reported (vs : list string) : list bot_op := concat (map (fun v => [AddViolations; AddSample v]) vs).

Lemma reported_app vs vs' : reported (vs ++ vs') = reported vs ++ reported vs'.
Proof. unfold reported. by rewrite map_app, concat_app. Qed.

Lemma reported_balanced vs : balanced (reported vs).
Proof. induction vs as [|v vs IH]; [done|]. by apply (balanced_app [AddViolations; AddSample v]). Qed.

Definition complaint (op : bot_op) : option string := match op with AddSample msg => Some msg | _ => None end.
Definition complaints (ops : list bot_op) : list string := omap complaint ops.

Lemma complaints_reported vs : complaints (reported vs) = vs.
Proof.
  induction vs as [|v vs IH]; [done|]. change (complaints (reported (v :: vs))) with (v :: complaints (reported vs)).
  by rewrite IH.
Qed.

Lemma count_reported vs : count is_violation (reported vs) = Z.of_nat (length vs).
Proof.
  induction vs as [|v vs IH]; [done|]. change (reported (v :: vs)) with (AddViolations :: AddSample v :: reported vs).
  rewrite !count_cons, IH. simpl. lia.
Qed.

Lemma request_ops_quiet ops err : request_ops ops err -> complaints ops = [] /\ count is_violation ops = 0.
Proof. destruct err; [intros (? & ->)|intros (? & ? & ->)]; done. Qed.

(** The ack a reply brings, when it does. *)
Definition good_ack (resp : http_reply) : option Ack :=
  match resp with HttpResp code (inl ack) => if code =? 200 then Some ack else None | _ => None end.

(** What [send] makes of a reply. *)
Definition understood (resp : http_reply) (ack : Ack) (err : option string) : Prop :=
  good_ack resp = match err with None => Some ack | Some _ => None end.

(** ** The actions of a turn *)

Section turn.
Context `{!Math} {W : Type} `{!Env W, !Strconv}.
Context (bad_url : string -> option string).

(** What the code relies on of [rand.Intn]. *)
Class RandLaws : Prop :=
  intn_range n (e : W) r e' : 0 < n -> env_step (Intn n) e = (r, e') -> 0 <= r < n.

(** From [w] to [w'], [ops] were executed and the calls [tr] made. *)
Definition did (w w' : World W shardState) (ops : list bot_op) (tr : list event) : Prop :=
  local w' = exec_ops ops (local w) /\ trace w' = trace w ++ tr /\ runs (env w) tr (env w').

Lemma did_refl w : did w w [] [].
Proof. split_and!; [done|by rewrite app_nil_r|constructor]. Qed.

Lemma did_ops w ops : did w (mkWorld (env w) (exec_ops ops (local w)) (trace w)) ops [].
Proof. split_and!; [done|by rewrite app_nil_r|constructor]. Qed.

Lemma did_trans w1 w2 w3 ops ops' tr tr' :
  did w1 w2 ops tr -> did w2 w3 ops' tr' -> did w1 w3 (ops ++ ops') (tr ++ tr').
Proof.
  intros (H1 & H2 & H3) (H4 & H5 & H6). split_and!.
  - unfold exec_ops in *. by rewrite foldl_app, <- H1.
  - by rewrite H5, H2, app_assoc.
  - by eapply runs_app.
Qed.

(** A call or an atomic step extends what was done since [w]. *)
Lemma wp_call w ops tr c Q w1 :
  did w w1 ops tr -> (forall r w2, did w w2 ops (tr ++ [ev c r]) -> Q r w2) -> wp (perform c) Q w1.
Proof.
  intros Hd HQ. apply wp_perform. intros r e He. apply HQ.
  destruct Hd as (D1 & D2 & D3). split_and!; simpl; [done|by rewrite D2, app_assoc|].
  by eapply runs_app, runs_one.
Qed.

Lemma wp_atomic w ops tr op Q w1 :
  did w w1 ops tr -> (forall w2, did w w2 (ops ++ [op]) tr -> Q () w2) -> wp (atomic op) Q w1.
Proof.
  intros (D1 & D2 & D3) HQ. apply wp_modify_local, HQ. split_and!; simpl; [|done|done].
  unfold exec_ops in *. by rewrite foldl_app, D1.
Qed.

Ltac do_call D := lazymatch goal with |- wp (perform ?c) _ _ => eapply (wp_call _ _ _ c); [exact D|] end.

(** The request a trace sends, when it sends one. *)
Definition is_request (e : event) : bool :=
  match called e with PostOrder _ _ | DeleteOrder _ => true | _ => false end.

Definition request_event (req : http_request) (resp : http_reply) : event :=
  match req with
  | DELETE url => ev (DeleteOrder url) resp
  | POST url o => ev (PostOrder url o) resp
  end.

(** [send] makes one request and accounts for it once. *)
Lemma send_ok req (w : World W shardState) :
  bad_url (req_url req) = None ->
  wp (send bad_url req) (fun '(ack, err) w' =>
    exists ops tr, did w w' ops tr /\ request_ops ops err
    /\ exists resp, List.filter is_request tr = [request_event req resp] /\ understood resp ack err) w.
Proof.
  intros Hurl. unfold send. rewrite Hurl.
  assert (forall w0 now err resp tr, did w w0 [AddSent] tr ->
    List.filter is_request tr = [request_event req resp] -> good_ack resp = None ->
    wp (failed now err) (fun '(ack, err) w' =>
      exists ops tr, did w w' ops tr /\ request_ops ops err
      /\ exists resp, List.filter is_request tr = [request_event req resp] /\ understood resp ack err) w0) as Hfail.
  { intros w0 now err resp tr D Htr Hbad. unfold failed.
    apply wp_bind. eapply wp_atomic; [exact D|]. clear D. intros w1 D.
    apply wp_bind. eapply wp_atomic; [exact D|]. clear D. intros w2 D. apply wp_ret.
    eexists _, _. split_and!; [exact D|by eexists|by eexists]. }
  apply wp_bind. eapply wp_atomic; [apply did_refl|]. intros w1 D1.
  apply wp_bind. do_call D1. intros t0 w2 D2.
  assert (forall Q w0 ops tr, did w w0 ops tr ->
    (forall resp w', did w w' ops (tr ++ [request_event req resp]) -> Q resp w') -> wp (Do req) Q w0) as Hdo.
  { intros Q w0 ops tr D HQ. unfold Do. destruct req; do_call D; exact HQ. }
  apply wp_bind. eapply Hdo; [exact D2|]. intros resp w3 D3.
  apply wp_bind. do_call D3. intros now w4 D4. simpl in D4.
  assert (List.filter is_request [ev Now t0; request_event req resp; ev Now now] = [request_event req resp]) as Hflt
    by (by destruct req).
  destruct resp as [err|code body]; [by eapply Hfail|]. destruct (Z.eqb_spec code 200) as [->|Hcode]; simpl.
  2:{ eapply Hfail; [exact D4|exact Hflt|]. unfold good_ack. destruct body; [|done]. by rewrite (proj2 (Z.eqb_neq _ _) Hcode). }
  destruct body as [ack|err]; [|by eapply Hfail].
  apply wp_bind. do_call D4. intros t1 w5 D5.
  apply wp_bind. eapply wp_atomic; [exact D5|]. intros w6 D6.
  apply wp_bind. eapply wp_atomic; [exact D6|]. intros w7 D7.
  apply wp_bind. eapply wp_atomic; [exact D7|]. intros w8 D8. apply wp_ret.
  eexists _, _. split_and!; [exact D8|by eexists _, _|]. exists (HttpResp 200 (inl ack)). split; [|done]. simpl. by destruct req.
Qed.

(** The complaint about an id that is not echoed. *)
Definition echo_verdicts (o : Order) (ack : Ack) : list string :=
  if negb (String.eqb (a_order ack) (o_id o))
  then [("ack order_id " +:+ quote (a_order ack) +:+ " for order " +:+ quote (o_id o))%string] else [].

Lemma violate_ok v w ops tr Q (w1 : World W shardState) :
  did w w1 ops tr -> (forall w2, did w w2 (ops ++ reported [v]) tr -> Q () w2) -> wp (violate v) Q w1.
Proof.
  intros D HQ. unfold violate. apply wp_bind.
  eapply wp_atomic; [exact D|]. clear D. intros w2 D. eapply wp_atomic; [exact D|]. clear D. intros w3 D.
  apply HQ. by rewrite <- app_assoc in D.
Qed.

Lemma sendOrder_ok target o (w : World W shardState) :
  bad_url (target +:+ "/orders") = None ->
  wp (sendOrder bad_url target o) (fun '(ack, err) w' =>
    exists base tr, request_ops base err
    /\ did w w' (base ++ match err with None => reported (echo_verdicts o ack) | Some _ => [] end) tr
    /\ exists resp, List.filter is_request tr = [ev (PostOrder (target +:+ "/orders") o) resp] /\ understood resp ack err) w.
Proof.
  intros Hurl. unfold sendOrder. apply wp_bind. eapply wp_mono; [by apply send_ok|].
  intros [ack err] w1 (ops & tr & D & Hops & resp & Htr & Hack).
  destruct err as [err|]; simpl.
  { apply wp_ret. exists ops, tr. rewrite app_nil_r. eauto 10. }
  destruct (negb (String.eqb (a_order ack) (o_id o))) eqn:He.
  - apply wp_bind. eapply violate_ok; [exact D|]. intros w2 D2. apply wp_ret. unfold echo_verdicts. rewrite He. eauto 10.
  - apply wp_ret. exists ops, tr. unfold echo_verdicts, reported. rewrite He, app_nil_r. eauto 10.
Qed.

Lemma violate_all_ok vs w ops tr (w1 : World W shardState) :
  did w w1 ops tr -> wp (violate_all vs) (fun _ w' => did w w' (ops ++ reported vs) tr) w1.
Proof.
  revert ops w1. induction vs as [|v vs IH]; intros ops w1 D; simpl; [apply wp_ret; by rewrite app_nil_r|].
  apply wp_bind. eapply violate_ok; [exact D|]. intros w2 D2.
  eapply wp_mono; [by apply IH|]. intros [] w3 D3. by rewrite <- app_assoc in D3.
Qed.

(** ** The invariant of a bot's variables *)

Definition own_id (shard : LoadShard) (idx n : Z) (id : string) : Prop :=
  exists k, 0 <= k < n /\ id = bot_id shard idx k.

Record bot_ok (shard : LoadShard) (idx : Z) (b : bot_vars) : Prop := mkBotOk {
  ok_mid : 9000 <= bot_mid b <= 11000;
  ok_cap : (length (bot_resting b) <= 50)%nat;
  ok_ids : Forall (own_id shard idx (bot_n b)) (bot_resting b);
  ok_nodup : NoDup (bot_resting b);
  ok_n : 0 <= bot_n b
}.

Lemma app_string_inj (a b c : string) : a +:+ b = a +:+ c -> b = c.
Proof. induction a as [|x a IH]; [done|]. intros Heq. injection Heq. apply IH. Qed.

(** A bot never makes the same id twice. *)
Lemma bot_id_inj shard idx k k' : bot_id shard idx k = bot_id shard idx k' -> k = k'.
Proof.
  unfold bot_id, itoa. intros Hid. do 5 apply app_string_inj in Hid. by apply (inj pretty.pretty) in Hid.
Qed.

(** The one request of a turn: a valid order under the bot's next id, or the
    cancel of one of its resting orders. *)
Definition request_ok (shard : LoadShard) (idx : Z) (b b' : bot_vars) (e : event) : Prop :=
  exists resp,
    (exists o, e = ev (PostOrder (ls_target shard +:+ "/orders") o) resp
     /\ valid o /\ o_qty o <= 100 /\ o_id o = bot_id shard idx (bot_n b) /\ bot_n b' = bot_n b + 1)
    \/ (exists id, e = ev (DeleteOrder (ls_target shard +:+ "/orders/" +:+ id)) resp
        /\ id ∈ bot_resting b /\ (id ∉ bot_resting b') /\ bot_n b' = bot_n b).

(** A request to [target] that brought an ack, and the ack. *)
Definition exchange (target : string) (e : event) : option (request * Ack) :=
  match e with
  | existT (PostOrder _ o) resp => a ← good_ack resp; Some (ReqSubmit o, a)
  | existT (DeleteOrder url) resp =>
      id ← strip_prefix (target +:+ "/orders/") url; a ← good_ack resp; Some (ReqCancel id, a)
  | _ => None
  end.

(** What a turn executes, from the one event that is a request: an ack is
    judged and its violations are reported, and its number is remembered. *)
Definition judged (shard : LoadShard) (b b' : bot_vars) (e : event) (ops : list bot_op) : Prop :=
  match exchange (ls_target shard) e with
  | Some (q, a) => exists base, request_ops base None
      /\ ops = base ++ reported (ack_verdicts q a ++ (checkSeq (bot_lastSeq b) a).2) /\ bot_lastSeq b' = a_seq a
  | None => (exists err, request_ops ops (Some err)) /\ bot_lastSeq b' = bot_lastSeq b
  end.

Lemma judged_balanced shard b b' e ops : judged shard b b' e ops -> balanced ops.
Proof.
  unfold judged. destruct (exchange _ e) as [[q a]|].
  - intros (base & Hb & -> & _). apply balanced_app; [by eapply request_ops_balanced|apply reported_balanced].
  - intros [[err Hops] _]. by eapply request_ops_balanced.
Qed.

Definition turn_ok (shard : LoadShard) (idx : Z) (b : bot_vars) (w : World W shardState)
    (b' : bot_vars) (w' : World W shardState) : Prop :=
  bot_ok shard idx b'
  /\ exists ops tr e, did w w' ops tr /\ List.filter is_request tr = [e]
     /\ request_ok shard idx b b' e /\ judged shard b b' e ops.

(** URLs of the target are well formed. *)
Definition urls_ok (shard : LoadShard) (idx : Z) : Prop :=
  bad_url (ls_target shard +:+ "/orders") = None
  /\ forall k, bad_url (ls_target shard +:+ "/orders/" +:+ bot_id shard idx k) = None.

(** Violations after the request. *)
Lemma judge_turn shard idx b b1 w w1 q ack base vs0 vs tr e :
  bot_ok shard idx b1 -> did w w1 (base ++ reported vs0) tr -> request_ops base None ->
  List.filter is_request tr = [e] -> request_ok shard idx b b1 e -> exchange (ls_target shard) e = Some (q, ack) ->
  vs0 ++ vs = ack_verdicts q ack ++ (checkSeq (bot_lastSeq b) ack).2 -> bot_lastSeq b1 = a_seq ack ->
  wp (violate_all vs;; mret b1) (turn_ok shard idx b w) w1.
Proof.
  intros Hok Hdid Hbase Htr Hreq He Hvs Hlast. apply wp_bind. eapply wp_mono; [by eapply violate_all_ok|].
  intros [] w2 Hdid2. apply wp_ret. rewrite <- app_assoc, <- reported_app, Hvs in Hdid2.
  split; [done|]. eexists _, tr, e. split_and!; [exact Hdid2|done|done|]. unfold judged. rewrite He. by exists base.
Qed.

(** A request without an ack. *)
Lemma failed_turn shard idx b b1 w w1 err base tr e :
  bot_ok shard idx b1 -> did w w1 base tr -> request_ops base (Some err) ->
  List.filter is_request tr = [e] -> request_ok shard idx b b1 e -> exchange (ls_target shard) e = None ->
  bot_lastSeq b1 = bot_lastSeq b -> wp (mret b1) (turn_ok shard idx b w) w1.
Proof.
  intros Hok Hdid Hbase Htr Hreq He Hlast. apply wp_ret. split; [done|]. eexists base, tr, e.
  split_and!; [done|done|done|]. unfold judged. rewrite He. eauto.
Qed.

Lemma take_drop_perm {A} (l : list A) k x :
  l !! k = Some x -> l ≡ₚ x :: (take k l ++ drop (k + 1) l).
Proof.
  intros Hk. rewrite <- (take_drop_middle l k x Hk) at 1. rewrite Nat.add_1_r. by rewrite <- Permutation_middle.
Qed.

(** A random number below [n]. *)
Lemma wp_intn `{!RandLaws} n w ops tr Q (w1 : World W shardState) :
  0 < n -> did w w1 ops tr ->
  (forall r w2, 0 <= r < n -> did w w2 ops (tr ++ [ev (Intn n) r]) -> Q r w2) ->
  wp (perform (Intn n)) Q w1.
Proof.
  intros Hn (D1 & D2 & D3) HQ. apply (wp_perform (Intn n)). intros r e He.
  apply HQ; [by eapply intn_range|]. split_and!; simpl; [done|by rewrite D2, app_assoc|].
  eapply runs_app; [exact D3|]. by apply runs_one.
Qed.

Lemma cancel_turn_ok `{!RandLaws} shard idx b w w0 tr0 :
  urls_ok shard idx -> bot_ok shard idx b ->
  did w w0 [] tr0 -> List.filter is_request tr0 = [] -> bot_resting b <> [] ->
  wp (cancel_turn bad_url shard b) (turn_ok shard idx b w) w0.
Proof.
  intros [_ Hurl] [Hmid Hcap Hids Hnd Hn] D0 Htr0 Hne. unfold cancel_turn.
  assert (0 < Z.of_nat (length (bot_resting b))) as Hlen by (destruct (bot_resting b); [done|simpl; lia]).
  apply wp_bind. eapply wp_intn; [done|exact D0|]. intros i w1 Hi D1.
  set (k := Z.to_nat i). destruct (lookup_lt_is_Some_2 (bot_resting b) k) as [id Hid]; [lia|].
  apply wp_bind. eexists id, _. split; [by apply index_ok|]. cbn beta.
  pose proof (take_drop_perm _ _ _ Hid) as Hperm. set (resting := take k (bot_resting b) ++ drop (k + 1) (bot_resting b)) in *.
  rewrite Hperm in Hids, Hnd. apply Forall_cons in Hids as [(j & Hj & ->) Hids].
  apply NoDup_cons in Hnd as [Hout Hnd].
  assert (forall last, bot_ok shard idx (mkBot (bot_mid b) resting last (bot_n b))) as Hok.
  { intros last. split; simpl; try done. apply Permutation_length in Hperm. simpl in Hperm. lia. }
  apply wp_bind. eapply wp_mono; [by apply send_ok; simpl|].
  intros [ack err] w2 (ops & tr & D2 & Hops & resp & Htr & Hack).
  pose proof (did_trans _ _ _ _ _ _ _ D1 D2) as D3. simpl in D3.
  assert (List.filter is_request ((tr0 ++ [ev (Intn (Z.of_nat (length (bot_resting b)))) i]) ++ tr)
          = [request_event (DELETE (ls_target shard +:+ "/orders/" +:+ bot_id shard idx j)) resp]) as Htr3.
  { by rewrite !List.filter_app, Htr0, Htr. }
  assert (forall last, request_ok shard idx b (mkBot (bot_mid b) resting last (bot_n b))
            (request_event (DELETE (ls_target shard +:+ "/orders/" +:+ bot_id shard idx j)) resp)) as Hreq.
  { intros last. exists resp. right. eexists. split_and!; [done| |done|done].
    rewrite Hperm. left. }
  assert (exchange (ls_target shard) (request_event (DELETE (ls_target shard +:+ "/orders/" +:+ bot_id shard idx j)) resp)
          = a ← good_ack resp; Some (ReqCancel (bot_id shard idx j), a)) as He.
  { simpl. by rewrite string_app_assoc, strip_prefix_app. }
  destruct err as [err|]; unfold understood in Hack; rewrite Hack in He.
  - by eapply failed_turn.
  - pose proof (checkSeq_last (bot_lastSeq b) ack) as Hlast. cbn [bot_lastSeq].
    destruct (checkSeq (bot_lastSeq b) ack) as [last v2] eqn:Hseq. simpl in Hlast.
    eapply (judge_turn _ _ _ _ _ _ _ ack ops []); [apply Hok| |done|exact Htr3|apply Hreq|exact He| |done].
    + unfold reported. simpl. by rewrite app_nil_r.
    + by rewrite Hseq.
Qed.

Lemma bot_id_fresh shard idx b :
  bot_ok shard idx b -> bot_id shard idx (bot_n b) ∉ bot_resting b.
Proof.
  intros [_ _ Hids _ _] Hin. rewrite Forall_forall in Hids.
  destruct (Hids _ Hin) as (k & Hk & Heq). apply bot_id_inj in Heq. lia.
Qed.

(** After sending the bot's next order: its id may join the resting ones. *)
Lemma bot_ok_next shard idx b (keep : bool) last :
  bot_ok shard idx b ->
  bot_ok shard idx (mkBot (bot_mid b)
    (if keep && (length (bot_resting b) <? 50)%nat then bot_resting b ++ [bot_id shard idx (bot_n b)]
     else bot_resting b) last (bot_n b + 1)).
Proof.
  intros Hok. pose proof (bot_id_fresh _ _ _ Hok) as Hfresh. destruct Hok as [Hmid Hcap Hids Hnd Hn].
  assert (Forall (own_id shard idx (bot_n b + 1)) (bot_resting b)) as Hids'.
  { eapply Forall_impl; [exact Hids|]. intros id (k & ? & ?). exists k. split; [lia|done]. }
  split; simpl; [done| | | |lia].
  - destruct keep; simpl; [|done]. destruct (Nat.ltb_spec (length (bot_resting b)) 50); [|done].
    rewrite length_app. simpl. lia.
  - case_match; [|done]. apply Forall_app. split; [done|]. repeat constructor. exists (bot_n b). split; [lia|done].
  - case_match; [|done]. apply NoDup_app. split_and!; [done| |apply NoDup_singleton].
    intros x Hx ->%list_elem_of_singleton. done.
Qed.

(** Sending an order under the next id and judging the ack. *)
Lemma order_turn_ok shard idx b o (w w0 : World W shardState) tr0 (keep : Ack -> bool) :
  urls_ok shard idx -> bot_ok shard idx b ->
  did w w0 [] tr0 -> List.filter is_request tr0 = [] ->
  valid o -> o_qty o <= 100 -> o_id o = bot_id shard idx (bot_n b) ->
  wp ('(ack, err) ← sendOrder bad_url (ls_target shard) o;
      match err with
      | Some _ => mret (mkBot (bot_mid b) (bot_resting b) (bot_lastSeq b) (bot_n b + 1))
      | None =>
          let v1 := validate o ack in
          let '(last, v2) := checkSeq (bot_lastSeq b) ack in
          violate_all (v1 ++ v2);;
          mret (mkBot (bot_mid b)
                  (if keep ack && (length (bot_resting b) <? 50)%nat then bot_resting b ++ [o_id o]
                   else bot_resting b) last (bot_n b + 1))
      end) (turn_ok shard idx b w) w0.
Proof.
  intros [Hurl _] Hok Hdid0 Htr0 Hvalid Hqty Hid. apply wp_bind.
  eapply wp_mono; [by apply sendOrder_ok|]. intros [ack err] w1 (base & tr & Hbase & Hdid & resp & Htr & Hack).
  pose proof (did_trans _ _ _ _ _ _ _ Hdid0 Hdid) as Hdid1.
  assert (List.filter is_request (tr0 ++ tr) = [ev (PostOrder (ls_target shard +:+ "/orders") o) resp]) as Htr1.
  { by rewrite List.filter_app, Htr0. }
  assert (forall resting last, request_ok shard idx b (mkBot (bot_mid b) resting last (bot_n b + 1))
            (ev (PostOrder (ls_target shard +:+ "/orders") o) resp)) as Hreq.
  { intros resting last. exists resp. left. eauto 10. }
  assert (exchange (ls_target shard) (ev (PostOrder (ls_target shard +:+ "/orders") o) resp)
          = a ← good_ack resp; Some (ReqSubmit o, a)) as He by done.
  destruct err as [err|]; unfold understood in Hack; rewrite Hack in He.
  - rewrite app_nil_r in Hdid1. eapply failed_turn; [by apply (bot_ok_next shard idx b false)|exact Hdid1|done|exact Htr1|apply Hreq|done|done].
  - pose proof (checkSeq_last (bot_lastSeq b) ack) as Hlast.
    destruct (checkSeq (bot_lastSeq b) ack) as [last v2] eqn:Hseq. simpl in Hlast. rewrite Hid.
    eapply judge_turn; [by apply bot_ok_next|exact Hdid1|done|exact Htr1|apply Hreq|exact He| |done].
    rewrite Hseq. unfold echo_verdicts. simpl. by rewrite app_assoc.
Qed.

Definition is_side (s : Side) : Prop := s = Buy \/ s = Sell.

Lemma wp_side `{!RandLaws} w ops tr Q (w1 : World W shardState) :
  did w w1 ops tr -> (forall s r w2, is_side s -> did w w2 ops (tr ++ [ev (Intn 2) r]) -> Q s w2) ->
  wp side Q w1.
Proof.
  intros D HQ. unfold side. apply wp_bind. eapply wp_intn; [done|exact D|]. intros r w2 _ D2.
  apply wp_ret. apply (HQ _ r); [|done]. case_match; [by left|by right].
Qed.

Lemma market_turn_ok `{!RandLaws} shard idx b w w0 tr0 :
  urls_ok shard idx -> bot_ok shard idx b -> did w w0 [] tr0 -> List.filter is_request tr0 = [] ->
  wp (market_turn bad_url shard idx b) (turn_ok shard idx b w) w0.
Proof.
  intros Hurl Hok D0 Htr0. unfold market_turn.
  apply wp_bind. eapply wp_intn; [done|exact D0|]. intros q w1 Hq D1.
  apply wp_bind. eapply wp_side; [exact D1|]. intros s r w2 Hs D2.
  eapply (order_turn_ok shard idx b _ w w2 _ (fun _ => false)); [done|done|exact D2| | |simpl; lia|done].
  - by rewrite !List.filter_app, Htr0.
  - split_and!; simpl; [lia|done|by left].
Qed.

Lemma limit_turn_ok `{!RandLaws} shard idx b w w0 tr0 :
  urls_ok shard idx -> bot_ok shard idx b -> did w w0 [] tr0 -> List.filter is_request tr0 = [] ->
  wp (limit_turn bad_url shard idx b) (turn_ok shard idx b w) w0.
Proof.
  intros Hurl Hok D0 Htr0. unfold limit_turn.
  apply wp_bind. eapply wp_side; [exact D0|]. intros s r w1 Hs D1.
  apply wp_bind. eapply wp_intn; [done|exact D1|]. intros d w2 Hd D2.
  assert (forall price w3 tr3, did w w3 [] tr3 -> List.filter is_request tr3 = [] ->
    wp (let price := if price <? 1 then 1 else price in
        q ← perform (Intn 100);
        let o := mkOrder (bot_id shard idx (bot_n b)) s Limit price (1 + q) in
        let b := mkBot (bot_mid b) (bot_resting b) (bot_lastSeq b) (bot_n b + 1) in
        '(ack, err) ← sendOrder bad_url (ls_target shard) o;
        match err with
        | Some _ => mret b
        | None =>
            let resting :=
              if (String.eqb (a_status ack) StatusResting || String.eqb (a_status ack) StatusPartial)
                 && (length (bot_resting b) <? 50)%nat
              then bot_resting b ++ [o_id o] else bot_resting b in
            let v1 := validate o ack in
            let '(last, v2) := checkSeq (bot_lastSeq b) ack in
            violate_all (v1 ++ v2);;
            mret (mkBot (bot_mid b) resting last (bot_n b))
        end) (turn_ok shard idx b w) w3) as Hsend.
  { intros price w3 tr3 D3 Htr3. cbv zeta. apply wp_bind. eapply wp_intn; [done|exact D3|]. intros q w4 Hq D4.
    eapply (order_turn_ok shard idx b _ w w4 _
             (fun ack => String.eqb (a_status ack) StatusResting || String.eqb (a_status ack) StatusPartial));
      [done|done|exact D4| | |simpl; lia|done].
    - by rewrite List.filter_app, Htr3.
    - split_and!; simpl; [lia|done|right]. split; [done|]. case_match; lia. }
  assert (List.filter is_request ((tr0 ++ [ev (Intn 2) r]) ++ [ev (Intn 25) d]) = []) as Htr2
    by (by rewrite !List.filter_app, Htr0).
  apply wp_bind. case_match; [|apply wp_ret; by eapply Hsend].
  apply wp_bind. eapply wp_intn; [done|exact D2|]. intros d' w3 Hd' D3. apply wp_ret.
  eapply Hsend; [exact D3|]. by rewrite List.filter_app, Htr2.
Qed.

Lemma bot_turn_ok `{!RandLaws} shard idx start b w :
  urls_ok shard idx -> bot_ok shard idx b ->
  wp (bot_turn bad_url shard idx start b) (turn_ok shard idx b w) w.
Proof.
  intros Hurl Hok. unfold bot_turn. pose proof (did_refl w) as D.
  apply wp_bind. do_call D. intros now w1 D1.
  apply wp_bind. do_call D1. intros x w2 D2.
  apply wp_bind. do_call D2. intros [] w3 D3.
  apply wp_bind. eapply wp_intn; [done|exact D3|]. intros i w4 Hi D4.
  apply wp_bind. do_call D4. intros p w5 D5.
  set (mid := if 11000 <? _ then 11000 else _).
  assert (9000 <= mid <= 11000) as Hmid by (unfold mid; repeat case_match; lia).
  set (b1 := mkBot mid (bot_resting b) (bot_lastSeq b) (bot_n b)).
  assert (bot_ok shard idx b1) as Hok1 by (destruct Hok; by split).
  assert (forall m, wp m (turn_ok shard idx b1 w) w5 -> wp m (turn_ok shard idx b w) w5) as Hsame.
  { intros m Hm. eapply wp_mono; [exact Hm|]. intros b' w' Ht. exact Ht. }
  apply Hsame. destruct (F64.ltb p (F64.dec 20 2) && (0 <? length (bot_resting b1))%nat) eqn:Hc.
  - apply andb_prop in Hc as [_ Hlen%Nat.ltb_lt].
    eapply cancel_turn_ok; [done|done|exact D5|done|]. intros He. rewrite He in Hlen. simpl in Hlen. lia.
  - case_match; [by eapply market_turn_ok|by eapply limit_turn_ok].
Qed.

(** ** The goroutine *)

(** What the loop relies on of the clock: a reading is between the times
    before and after it, no call goes back in time, and an exchange with an
    engine takes time. *)
Class ClockLaws (clock : W -> Z) : Prop := {
  clock_now (e : W) r e' : env_step Now e = (r, e') -> clock e <= r <= clock e';
  clock_mono c (e : W) r e' : env_step c e = (r, e') -> clock e <= clock e';
  clock_request c (e : W) r e' :
    is_request (ev c r) = true -> env_step c e = (r, e') -> clock e < clock e'
}.

Lemma runs_clock clock `{!ClockLaws clock} e tr e' :
  runs e tr e' -> clock e + Z.of_nat (length (List.filter is_request tr)) <= clock e'.
Proof.
  induction 1 as [|e c r e1 tr e2 He _ IH]; simpl; [lia|].
  destruct (is_request (ev c r)) eqn:Hr; simpl.
  - pose proof (clock_request c e r e1 Hr He). lia.
  - pose proof (clock_mono c e r e1 He). lia.
Qed.

(** The id an event submits. *)
Definition submitted (e : event) : option string :=
  match called e with PostOrder _ o => Some (o_id o) | _ => None end.

Lemma submitted_cons e tr :
  omap submitted (e :: tr)
  = match submitted e with Some id => id :: omap submitted tr | None => omap submitted tr end.
Proof. reflexivity. Qed.

(** A request of a bot that numbers its orders from [n] to [n']. *)
Definition event_ok (shard : LoadShard) (idx n n' : Z) (e : event) : Prop :=
  match called e with
  | PostOrder url o => url = ls_target shard +:+ "/orders" /\ valid o /\ o_qty o <= 100
                       /\ exists k, n <= k < n' /\ o_id o = bot_id shard idx k
  | DeleteOrder url => exists k, 0 <= k < n' /\ url = ls_target shard +:+ "/orders/" +:+ bot_id shard idx k
  | _ => True
  end.

(** The number of the last ack. *)
Definition last_seen (last : Z) (l : list (request * Ack)) : Z := foldl (fun _ qa => a_seq qa.2) last l.

(** What is reported over a trace is what an observer of its exchanges
    reports, each violation counted once. *)
Definition observed (shard : LoadShard) (b b' : bot_vars) (tr : list event) (ops : list bot_op) : Prop :=
  let seen := omap (exchange (ls_target shard)) tr in
  complaints ops = observe (bot_lastSeq b) seen
  /\ count is_violation ops = Z.of_nat (length (complaints ops))
  /\ bot_lastSeq b' = last_seen (bot_lastSeq b) seen.

Lemma observe_app last l l' : observe last (l ++ l') = observe last l ++ observe (last_seen last l) l'.
Proof.
  revert last. induction l as [|[q a] l IH]; intros last; [done|]. simpl.
  pose proof (checkSeq_last last a) as Hl. destruct (checkSeq last a) as [last' v]. simpl in Hl. subst last'.
  rewrite IH. by rewrite !app_assoc.
Qed.

Lemma observed_app shard b b1 b2 tr tr' ops ops' :
  observed shard b b1 tr ops -> observed shard b1 b2 tr' ops' -> observed shard b b2 (tr ++ tr') (ops ++ ops').
Proof.
  intros (H1 & H2 & H3) (H4 & H5 & H6). unfold observed, complaints in *. rewrite !omap_app, observe_app, count_app, length_app.
  split_and!; [by rewrite H1, H4, H3|lia|]. unfold last_seen in *. by rewrite foldl_app, <- H3.
Qed.

Lemma exchange_cons target e tr :
  omap (exchange target) (e :: tr)
  = match exchange target e with Some x => x :: omap (exchange target) tr | None => omap (exchange target) tr end.
Proof. reflexivity. Qed.

Lemma exchange_quiet target tr : omap (exchange target) tr = omap (exchange target) (List.filter is_request tr).
Proof.
  induction tr as [|e tr IH]; [done|]. cbn [List.filter]. rewrite exchange_cons. destruct (is_request e) eqn:Hr.
  - by rewrite exchange_cons, IH.
  - assert (exchange target e = None) as ->; [|exact IH].
    destruct e as [c r]. unfold is_request, called in Hr. simpl in Hr. by destruct c.
Qed.

Lemma judged_observed shard b b' e tr ops :
  List.filter is_request tr = [e] -> judged shard b b' e ops -> observed shard b b' tr ops.
Proof.
  unfold observed, judged. rewrite exchange_quiet. intros ->. rewrite exchange_cons. destruct (exchange _ e) as [[q a]|].
  - intros (base & Hb & -> & Hl). destruct (request_ops_quiet _ None Hb) as [Hc Hv].
    set (vs := ack_verdicts q a ++ (checkSeq (bot_lastSeq b) a).2).
    assert (complaints (base ++ reported vs) = vs) as ->.
    { unfold complaints in *. rewrite omap_app, Hc. exact (complaints_reported vs). }
    rewrite count_app, Hv, count_reported. split_and!; [|done|done].
    unfold vs. simpl. destruct (checkSeq (bot_lastSeq b) a) as [l v]. simpl. by rewrite app_nil_r.
  - intros [[err Hops] Hl]. by destruct (request_ops_quiet _ (Some err) Hops) as [-> ->].
Qed.

(** Any number of turns. *)
Definition turns_ok (shard : LoadShard) (idx : Z) (b : bot_vars) (w : World W shardState)
    (b' : bot_vars) (w' : World W shardState) : Prop :=
  bot_ok shard idx b' /\ bot_n b <= bot_n b'
  /\ exists ops tr, did w w' ops tr /\ balanced ops
     /\ Forall (event_ok shard idx (bot_n b) (bot_n b')) tr /\ NoDup (omap submitted tr)
     /\ observed shard b b' tr ops.

Lemma event_ok_weaken shard idx n n1 m m1 e :
  m <= n -> n1 <= m1 -> event_ok shard idx n n1 e -> event_ok shard idx m m1 e.
Proof.
  intros Hl Hr. unfold event_ok. destruct (called e); try done.
  - intros (? & ? & ? & k & ? & ?). split_and!; try done. exists k. split; [lia|done].
  - intros (k & ? & ?). exists k. split; [lia|done].
Qed.

Lemma one_request shard idx b b' tr e :
  bot_ok shard idx b -> List.filter is_request tr = [e] -> request_ok shard idx b b' e ->
  bot_n b <= bot_n b' /\ Forall (event_ok shard idx (bot_n b) (bot_n b')) tr
  /\ omap submitted tr = match submitted e with Some id => [id] | None => [] end.
Proof.
  intros Hok Htr Hreq.
  assert (bot_n b <= bot_n b' /\ event_ok shard idx (bot_n b) (bot_n b') e) as [Hn He].
  { destruct Hreq as (resp & [(o & -> & Hv & Hq & Hid & ->)|(id & -> & Hin & _ & ->)]).
    - split; [lia|]. simpl. split_and!; try done. exists (bot_n b). split; [lia|done].
    - split; [lia|]. simpl. destruct Hok as [_ _ Hids _ _]. rewrite Forall_forall in Hids.
      destruct (Hids id Hin) as (k & ? & ->). exists k. split; [lia|done]. }
  split; [done|]. split.
  - apply Forall_forall. intros e' Hin. destruct (is_request e') eqn:Hr.
    + assert (e' ∈ List.filter is_request tr) as Hin'.
      { apply list_elem_of_In, filter_In. split; [by apply list_elem_of_In|done]. }
      rewrite Htr in Hin'. by apply list_elem_of_singleton in Hin' as ->.
    + unfold event_ok, is_request in *. by destruct (called e').
  - transitivity (omap submitted (List.filter is_request tr)).
    + clear. induction tr as [|e' tr IH]; [done|]. cbn [List.filter]. rewrite submitted_cons.
      destruct (is_request e') eqn:Hr.
      * rewrite submitted_cons. by rewrite IH.
      * assert (submitted e' = None) as -> by (unfold submitted, is_request in *; by destruct (called e')).
        exact IH.
    + rewrite Htr. done.
Qed.

Lemma turns_ok_refl shard idx b w : bot_ok shard idx b -> turns_ok shard idx b w b w.
Proof.
  intros Hok. split; [done|]. split; [lia|]. exists [], []. split_and!; [apply did_refl|done|constructor|constructor|done].
Qed.

(** Calls without a request do not matter. *)
Lemma turns_ok_quiet shard idx b w b1 w1 w2 tr :
  turns_ok shard idx b w b1 w1 -> did w1 w2 [] tr -> List.filter is_request tr = [] ->
  turns_ok shard idx b w b1 w2.
Proof.
  intros (Hok & Hn & ops & tr1 & D & Hbal & Hev & Hnd & Hobs) D2 Htr. split; [done|]. split; [done|].
  exists ops, (tr1 ++ tr).
  assert (Forall (fun e => is_request e = false) tr) as Hq.
  { clear -Htr. induction tr as [|e tr IH]; [constructor|]. simpl in Htr.
    destruct (is_request e) eqn:Hr; [done|]. constructor; auto. }
  split_and!.
  - pose proof (did_trans _ _ _ _ _ _ _ D D2) as D3. by rewrite app_nil_r in D3.
  - done.
  - apply Forall_app. split; [done|]. eapply Forall_impl; [exact Hq|]. intros e He.
    unfold event_ok, is_request in *. by destruct (called e).
  - rewrite omap_app. assert (omap submitted tr = []) as ->; [|by rewrite app_nil_r].
    clear -Hq. induction Hq as [|e tr He _ IH]; [done|]. rewrite submitted_cons.
    assert (submitted e = None) as -> by (unfold submitted, is_request in *; by destruct (called e)). done.
  - unfold observed. by rewrite omap_app, (exchange_quiet _ tr), Htr, app_nil_r.
Qed.

Lemma turns_ok_step shard idx b w b1 w1 b2 w2 :
  turns_ok shard idx b w b1 w1 -> turn_ok shard idx b1 w1 b2 w2 -> turns_ok shard idx b w b2 w2.
Proof.
  intros (Hok & Hn & ops & tr & D & Hbal & Hev & Hnd & Hobs) (Hok2 & ops2 & tr2 & e & D2 & Htr & Hreq & Hj).
  destruct (one_request _ _ _ _ _ _ Hok Htr Hreq) as (Hn2 & Hev2 & Hids).
  split; [done|]. split; [lia|]. exists (ops ++ ops2), (tr ++ tr2). split_and!.
  - by eapply did_trans.
  - apply balanced_app; [done|by eapply judged_balanced].
  - apply Forall_app. split; (eapply Forall_impl; [done|]; intros ? ?; eapply event_ok_weaken; [| |done]; lia).
  - rewrite omap_app. apply NoDup_app. split_and!; [done| |].
    + intros id Hid Hid2. rewrite Hids in Hid2.
      destruct Hreq as (resp & [(o & -> & _ & _ & Ho & _)|(? & -> & _)]); simpl in Hid2; [|by apply not_elem_of_nil in Hid2].
      apply list_elem_of_singleton in Hid2 as ->.
      apply list_elem_of_omap in Hid as (e & He & Hs). rewrite Forall_forall in Hev. specialize (Hev e He).
      unfold event_ok, submitted in *. destruct (called e); try done.
      injection Hs as Hs. destruct Hev as (_ & _ & _ & k & Hk & Hid). rewrite Hid, Ho in Hs.
      apply bot_id_inj in Hs. lia.
    + rewrite Hids. destruct (submitted e); [apply NoDup_singleton|constructor].
  - eapply observed_app; [exact Hobs|by eapply judged_observed].
Qed.

Lemma bot_ok_start shard idx i : 0 <= i < 60 -> bot_ok shard idx (mkBot (10000 + i - 30) [] 0 0).
Proof. intros Hi. split; simpl; [lia|lia|constructor|constructor|lia]. Qed.

(** The loop, by the time left: every turn takes some of it. *)
Lemma bot_loop_ok `{!RandLaws} clock `{!ClockLaws clock} shard idx start deadline fuel b0 w0 b w :
  urls_ok shard idx -> turns_ok shard idx b0 w0 b w ->
  Z.max 0 (deadline - clock (env w)) < Z.of_nat fuel ->
  wp (loop fuel (fun b =>
        now ← perform Now;
        if now <? deadline then b ← bot_turn bad_url shard idx start b; mret (inl b) else mret (inr b)) b)
     (fun b' w' => turns_ok shard idx b0 w0 b' w' /\ deadline <= clock (env w')) w.
Proof.
  intros Hurl. revert b w. induction fuel as [|fuel IH]; intros b w Hok Hfuel; [lia|].
  assert (forall Q, wp (x ← (now ← perform Now;
      if now <? deadline then b ← bot_turn bad_url shard idx start b; mret (inl b) else mret (inr b));
      match x with
      | inl b => loop fuel (fun b => now ← perform Now;
          if now <? deadline then b ← bot_turn bad_url shard idx start b; mret (inl b) else mret (inr b)) b
      | inr r => mret r
      end) Q w -> wp (loop (S fuel) (fun b => now ← perform Now;
          if now <? deadline then b ← bot_turn bad_url shard idx start b; mret (inl b) else mret (inr b)) b) Q w)
    as Hunfold by done.
  apply Hunfold. clear Hunfold. apply wp_bind, wp_bind, (wp_perform Now). intros now e He.
  pose proof (clock_now _ _ _ He) as Hnow.
  assert (turns_ok shard idx b0 w0 b (mkWorld e (local w) (trace w ++ [ev Now now]))) as Hok1.
  { eapply turns_ok_quiet; [exact Hok| |].
    - split_and!; [done|done|]. by apply runs_one.
    - done. }
  destruct (Z.ltb_spec now deadline); [|apply wp_ret, wp_ret; split; [done|simpl; lia]].
  apply wp_bind. eapply wp_mono; [apply bot_turn_ok; [done|apply Hok1]|].
  intros b1 w1 Hturn. apply wp_ret. apply IH; [by eapply turns_ok_step|].
  destruct Hturn as (_ & ops & tr & e1 & (_ & _ & Hruns) & Htr & _).
  apply (runs_clock clock) in Hruns. rewrite Htr in Hruns. simpl in Hruns. lia.
Qed.

Lemma bot_to_deadline `{!RandLaws} (clock : W -> Z) `{!ClockLaws clock}
    (shard : LoadShard) (idx start deadline : Z) (fuel : nat) (w : World W shardState) :
  urls_ok shard idx -> Z.max 0 (deadline - clock (env w)) < Z.of_nat fuel ->
  wp (bot bad_url fuel shard idx start deadline) (fun b' w' =>
    deadline <= clock (env w')
    /\ exists i, 0 <= i < 60 /\ turns_ok shard idx (mkBot (10000 + i - 30) [] 0 0) w b' w') w.
Proof.
  intros Hurl Hfuel. unfold bot. apply wp_bind, (wp_perform (Intn 60)). intros i e He.
  pose proof (intn_range 60 _ _ _ ltac:(lia) He) as Hi. pose proof (clock_mono _ _ _ _ He) as Hc.
  eapply wp_mono.
  - eapply (bot_loop_ok clock); [done| |simpl; lia].
    eapply turns_ok_quiet; [by apply turns_ok_refl, (bot_ok_start shard idx i)| |].
    + split_and!; [done|done|]. by apply runs_one.
    + done.
  - intros b' w' [Hok Hd]. split; [done|]. by exists i.
Qed.
(** ** Claims *)

(** A turn of a bot, whatever the engine answers and whatever the random
    numbers are, sends exactly one request: a valid order of at most 100 units
    under the bot's next id, or the cancel of an order it believes to rest,
    which it then forgets. It does not panic, counts the request once as sent
    and once as acked or failed, reports of an ack exactly the violations of
    the contract, and keeps its price between 9000 and 11000 and at most 50
    ids. *)
Theorem bot_turn_sends_one_request `{!RandLaws} (shard : LoadShard) (idx start : Z)
    (b : bot_vars) (w : World W shardState) :
  urls_ok shard idx -> bot_ok shard idx b ->
  wp (bot_turn bad_url shard idx start b) (turn_ok shard idx b w) w.
Proof. apply bot_turn_ok. Qed.

(** C39. A bot stops: with a turn of fuel for every tick of the clock up to the
    deadline it runs to the deadline, every order it sent is valid, no order
    id was used twice, every request is accounted for, and what it reported is
    what an observer of its acks reports, violation by violation. *)
Theorem bot_runs_to_deadline `{!RandLaws} (clock : W -> Z) `{!ClockLaws clock}
    (shard : LoadShard) (idx start deadline : Z) (fuel : nat) (w : World W shardState) :
  urls_ok shard idx -> Z.max 0 (deadline - clock (env w)) < Z.of_nat fuel ->
  wp (bot bad_url fuel shard idx start deadline) (fun b' w' =>
    deadline <= clock (env w')
    /\ exists i, 0 <= i < 60 /\ turns_ok shard idx (mkBot (10000 + i - 30) [] 0 0) w b' w') w.
Proof. by apply bot_to_deadline. Qed.
End turn.

(** ** Witnesses: an engine that never answers, on a clock that ticks *)

#[local] Instance plain_text : Strconv := {| other_float := fun _ => F64.zero; quote := fun s => s |}.
#[local] Instance still_math : Math := {| Log := fun x => x; Log10 := fun x => x; Pow := fun _ y => y |}.

Definition dead_engine : Env Z := fun c t =>
  match c return reply c * Z with
  | Now => (t, t + 1)
  | c => (default_reply c, t + 1)
  end.

#[local] Existing Instance dead_engine.

Lemma dead_engine_ticks c t r t' : env_step c t = (r, t') -> t' = t + 1.
Proof. destruct c; simpl; intros Heq; injection Heq; done. Qed.

#[local] Instance dead_rand : RandLaws (W := Z).
Proof. intros n e r e' Hn Heq. injection Heq as <- _. lia. Qed.

#[local] Instance dead_clock : ClockLaws (W := Z) (fun t => t).
Proof.
  split.
  - intros e r e' Heq. injection Heq as <- <-. lia.
  - intros c e r e' Heq. apply dead_engine_ticks in Heq. lia.
  - intros c e r e' _ Heq. apply dead_engine_ticks in Heq. lia.
Qed.

Definition demo_shard : LoadShard := mkLoadShard "run1" "http://sub:8080" 0 1 10 30 100 42.
Definition demo_bot : bot_vars := mkBot 10000 ["b0-3-0"; "b0-3-2"] 17 4.
Definition demo_start : World Z shardState := mkWorld 0 newShard [].

Lemma demo_bot_ok : bot_ok demo_shard 3 demo_bot.
Proof.
  split; simpl; [lia|lia| |decide_now|lia].
  repeat constructor; [exists 0|exists 2]; split; try lia; reflexivity.
Qed.

Lemma demo_urls_ok : urls_ok (fun _ => None) demo_shard 3.
Proof. by split. Qed.

Lemma bot_turn_sends_one_request_witness :
  wp (bot_turn (fun _ => None) demo_shard 3 0 demo_bot) (turn_ok demo_shard 3 demo_bot demo_start) demo_start.
Proof.
  apply (bot_turn_sends_one_request (fun _ => None) demo_shard 3 0 demo_bot demo_start).
  - exact demo_urls_ok.
  - exact demo_bot_ok.
Defined.

Lemma bot_runs_to_deadline_witness :
  wp (bot (fun _ => None) 101 demo_shard 3 0 100) (fun b' w' =>
    100 <= env w'
    /\ exists i, 0 <= i < 60 /\ turns_ok demo_shard 3 (mkBot (10000 + i - 30) [] 0 0) demo_start b' w') demo_start.
Proof.
  apply (bot_runs_to_deadline (fun _ => None) (fun t => t) demo_shard 3 0 100 101 demo_start).
  - exact demo_urls_ok.
  - vm_compute. reflexivity.
Defined.
