(* ===== verification/HonestBots.v ===== *)
(** * Bots in front of an engine that is shared

    What a bot of [src/cmd/botfleet/main.go] reports when other clients send
    orders to the same engine, replies are lost, and the engine keeps
    price-time priority: nothing. The example engine is such an engine. *)
From S2P Require Import Prelude Protocol Float64 Text TextProps IO Counters Hist Book PriorityBook PriorityFacts BookRefine BookProps.
From S2P Require Import Conformance ConformanceProps RefEngine RefEngineProps Bot BotProps BotTurn.
Local Open Scope Z_scope.

(** ** Histories *)

(** The book after a history, and each request with its ack. *)
Definition after (qs : list request) : PBook := (pb_run qs pb_empty).2.
Definition replies (pb : PBook) (qs : list request) : list (request * Ack) := zip qs (pb_run qs pb).1.

Lemma pb_run_app qs qs' pb :
  pb_run (qs ++ qs') pb = ((pb_run qs pb).1 ++ (pb_run qs' (pb_run qs pb).2).1, (pb_run qs' (pb_run qs pb).2).2).
Proof.
  revert pb. induction qs as [|q qs IH]; intros pb; simpl; [by destruct (pb_run qs' pb)|].
  destruct (pb_handle q pb) as [a pb1]. rewrite IH. by destruct (pb_run qs pb1).
Qed.

Lemma after_app qs qs' : after (qs ++ qs') = (pb_run qs' (after qs)).2.
Proof. unfold after. by rewrite pb_run_app. Qed.

Lemma replies_app pb qs qs' : replies pb (qs ++ qs') = replies pb qs ++ replies (pb_run qs pb).2 qs'.
Proof. unfold replies. rewrite pb_run_app. cbn [fst]. apply zip_with_app. symmetry. apply pb_run_length. Qed.

Lemma replies_cons pb q qs : replies pb (q :: qs) = (q, (pb_handle q pb).1) :: replies (pb_handle q pb).2 qs.
Proof.
  unfold replies. cbn [pb_run]. destruct (pb_handle q pb) as [a pb1]. cbn [fst snd].
  by destruct (pb_run qs pb1) as [l pb2].
Qed.

(** An ack with all but the time stamp of another. *)
Definition faithful (want got : Ack) : Prop :=
  a_order got = a_order want /\ a_seq got = a_seq want /\ a_status got = a_status want /\ a_fills got = a_fills want.

Definition same_exchange (x y : request * Ack) : Prop := x.1 = y.1 /\ faithful y.2 x.2.

(** The checks do not look at the time stamp. *)
Lemma observe_same `{!Strconv} last l l' : Forall2 same_exchange l l' -> observe last l = observe last l'.
Proof.
  intros Hs. revert last. induction Hs as [|[q a] [q' a'] l l' [Hq (Ho & Hseq & Hst & Hf)] _ IH]; intros last; [done|].
  simpl in *. subst q'. unfold checkSeq. rewrite Hseq.
  assert (ack_verdicts q a = ack_verdicts q a') as -> by (unfold ack_verdicts, validate; by rewrite Ho, Hst, Hf).
  destruct (a_seq a' <=? last); by rewrite IH.
Qed.

(** ** Engines *)

Section honest.
Context {W : Type} `{!Env W} (target : string) (log : list request -> W -> Prop).

(** The engine heard of request [q] in the history [qs]: it brings no ack, and
    may or may not have been served; or it was served at some point among the
    requests of others, and brings the ack of the priority book at that point. *)
Definition heard (q : request) (qs : list request) (r : http_reply) (e' : W) : Prop :=
  (good_ack r = None /\ exists more, Forall sane more /\ log (qs ++ more) e')
  \/ exists before later got, Forall sane before /\ Forall sane later /\ log (qs ++ before ++ q :: later) e'
     /\ good_ack r = Some got /\ faithful (pb_handle q (after (qs ++ before))).1 got.

(** An engine that keeps price-time priority and serves one request after the
    other, of this client and of others at any time: [log qs e] says that in
    the state [e] of the world it has served [qs]. *)
Class SharedEngine : Prop := {
  shared_quiet c qs e r e' :
    log qs e -> is_request (ev c r) = false -> env_step c e = (r, e') -> exists more, Forall sane more /\ log (qs ++ more) e';
  shared_request q qs e r e' :
    log qs e -> sane q -> plain_request q -> answers target q e r e' -> heard q qs r e'
}.

(** A request that one may send to the target. *)
Definition addressed (e : event) : Prop :=
  match called e with
  | PostOrder url o => url = target +:+ "/orders" /\ sane (ReqSubmit o)
  | DeleteOrder url => exists id, url = target +:+ "/orders/" +:+ id /\ plain_request (ReqCancel id)
  | _ => True
  end.

(** What is added to the history [qs], up to the state [e'], and what is seen
    of it in the exchanges [l]. *)
Definition witnessed (qs : list request) (e' : W) (l : list (request * Ack)) : Prop :=
  exists more seen, Forall sane more /\ log (qs ++ more) e' /\ sublist seen (replies (after qs) more)
  /\ Forall2 same_exchange l seen.

Lemma witnessed_none qs e' more : Forall sane more -> log (qs ++ more) e' -> witnessed qs e' [].
Proof. intros Hm Hl. exists more, []. split_and!; [done|done|apply sublist_nil_l|constructor]. Qed.

Lemma heard_witnessed q qs r e' :
  sane q -> heard q qs r e' -> witnessed qs e' (option_list (a ← good_ack r; Some (q, a))).
Proof.
  intros Hq [(Hr & more & Hm & Hl)|(before & later & got & Hb & Ht & Hl & Hr & Hf)]; rewrite Hr; simpl.
  - by eapply witnessed_none.
  - exists (before ++ q :: later), [(q, (pb_handle q (after (qs ++ before))).1)]. split_and!.
    + apply Forall_app. split; [done|]. by constructor.
    + exact Hl.
    + rewrite replies_app, replies_cons, <- after_app. apply sublist_inserts_l, sublist_skip, sublist_nil_l.
    + constructor; [done|constructor].
Qed.

Lemma event_witnessed `{!SharedEngine} c qs e r e' :
  log qs e -> env_step c e = (r, e') -> addressed (ev c r) -> witnessed qs e' (option_list (exchange target (ev c r))).
Proof.
  intros Hl He Ha. destruct (is_request (ev c r)) eqn:Hreq.
  - unfold is_request, addressed, called in *. simpl in *. destruct c; try discriminate Hreq.
    + destruct Ha as [-> Hs]. apply heard_witnessed; [done|]. by eapply (shared_request (ReqSubmit o)).
    + destruct Ha as (id & -> & Hp). simpl. rewrite string_app_assoc, strip_prefix_app.
      apply (heard_witnessed (ReqCancel id)); [by split|]. by eapply (shared_request (ReqCancel id)).
  - assert (exchange target (ev c r) = None) as -> by (unfold is_request, called in Hreq; simpl in Hreq; by destruct c).
    destruct (shared_quiet c qs e r e' Hl Hreq He) as (more & Hm & Hl'). by eapply witnessed_none.
Qed.

Lemma runs_witnessed `{!SharedEngine} qs e tr e' :
  runs e tr e' -> log qs e -> Forall addressed tr -> witnessed qs e' (omap (exchange target) tr).
Proof.
  intros Hr. revert qs. induction Hr as [e|e c r e1 tr e2 He _ IH]; intros qs Hl Ha.
  { apply (witnessed_none qs e []); [constructor|by rewrite app_nil_r]. }
  apply Forall_cons in Ha as [Ha1 Ha]. destruct (event_witnessed c qs e r e1 Hl He Ha1) as (m1 & s1 & Hm1 & Hl1 & Hs1 & Hx1).
  destruct (IH (qs ++ m1) Hl1 Ha) as (m2 & s2 & Hm2 & Hl2 & Hs2 & Hx2).
  exists (m1 ++ m2), (s1 ++ s2). split_and!.
  - by apply Forall_app.
  - by rewrite app_assoc.
  - rewrite replies_app, <- after_app. by apply sublist_app.
  - rewrite exchange_cons. replace (match exchange target (ev c r) with Some x => x :: omap (exchange target) tr | None => omap (exchange target) tr end)
      with (option_list (exchange target (ev c r)) ++ omap (exchange target) tr) by (by destruct (exchange target (ev c r))).
    by apply Forall2_app.
Qed.

(** An observer of all its exchanges reports nothing. *)
Lemma witnessed_nothing `{!Strconv} qs e' l :
  Forall sane qs -> witnessed qs e' l ->
  exists more, log (qs ++ more) e' /\ (Z.of_nat (length (qs ++ more)) <= Int64.max_val -> observe 0 l = []).
Proof.
  intros Hqs (more & seen & Hm & Hl & Hsub & Hsame). exists more. split; [done|]. intros Hlen.
  rewrite (observe_same _ _ _ Hsame). apply (honest_observer (qs ++ more)); [by apply Forall_app|done|].
  fold (replies pb_empty (qs ++ more)). rewrite replies_app. by apply sublist_inserts_l.
Qed.
End honest.

(** The ids of a bot have no white space. *)
Lemma bot_id_plain shard idx k : plain_request (ReqCancel (bot_id shard idx k)).
Proof. apply trimSpace_plain. unfold bot_id. by rewrite !plain_app, !plain_itoa. Qed.

Lemma event_addressed shard idx n n' e : event_ok shard idx n n' e -> addressed (ls_target shard) e.
Proof.
  unfold event_ok, addressed. destruct (called e); try done.
  - intros (-> & (Hq & _) & Hle & _). split; [done|]. split.
    + simpl. unfold Int64.in_range, Int64.min_val, Int64.max_val. lia.
    + intros o' [= <-]. lia.
  - intros (k & _ & ->). eexists. split; [done|apply bot_id_plain].
Qed.

Lemma honest_bot `{!Math} {W : Type} `{!Env W, !Strconv} (bad_url : string -> option string)
    (clock : W -> Z) (log : list request -> W -> Prop)
    (shard : LoadShard) (idx start deadline : Z) (fuel : nat) (qs : list request) (w : World W shardState) :
  RandLaws -> ClockLaws clock -> SharedEngine (ls_target shard) log ->
  urls_ok bad_url shard idx -> Z.max 0 (deadline - clock (env w)) < Z.of_nat fuel ->
  log qs (env w) -> Forall sane qs ->
  wp (bot bad_url fuel shard idx start deadline) (fun _ w' => exists ops tr more,
    did w w' ops tr /\ deadline <= clock (env w') /\ log (qs ++ more) (env w')
    /\ (Z.of_nat (length (qs ++ more)) <= Int64.max_val -> complaints ops = [] /\ count is_violation ops = 0)) w.
Proof.
  intros Hrand Hclock Heng Hurl Hfuel Hlog Hqs. eapply wp_mono; [by apply (bot_to_deadline bad_url clock)|].
  intros b' w' (Hd & i & _ & _ & _ & ops & tr & D & _ & Hev & _ & Hobs & Hcnt & _).
  assert (Forall (addressed (ls_target shard)) tr) as Haddr.
  { eapply Forall_impl; [exact Hev|]. intros e. apply event_addressed. }
  destruct (witnessed_nothing log qs _ _ Hqs (runs_witnessed (ls_target shard) log qs _ _ _ (proj2 (proj2 D)) Hlog Haddr)) as (more & Hl & Hnil).
  exists ops, tr, more. split_and!; [done|done|done|]. intros Hlen. simpl in Hobs. rewrite Hcnt, Hobs, (Hnil Hlen). done.
Qed.

(** C23. No false alarm, in operation. A bot runs to its deadline against an
    engine that keeps price-time priority and that other clients use at the
    same time, in any way and between any two of its calls; replies may be
    lost, whether or not the request was served. As long as the engine has
    served less than 2^63 requests, the bot reports no violation. *)
Theorem honest_engine_clears_bot `{!Math} {W : Type} `{!Env W, !Strconv} (bad_url : string -> option string)
    (clock : W -> Z) (log : list request -> W -> Prop)
    (shard : LoadShard) (idx start deadline : Z) (fuel : nat) (qs : list request) (w : World W shardState) :
  RandLaws -> ClockLaws clock -> SharedEngine (ls_target shard) log ->
  urls_ok bad_url shard idx -> Z.max 0 (deadline - clock (env w)) < Z.of_nat fuel ->
  log qs (env w) -> Forall sane qs ->
  wp (bot bad_url fuel shard idx start deadline) (fun _ w' => exists ops tr more,
    did w w' ops tr /\ deadline <= clock (env w') /\ log (qs ++ more) (env w')
    /\ (Z.of_nat (length (qs ++ more)) <= Int64.max_val -> complaints ops = [] /\ count is_violation ops = 0)) w.
Proof. by apply honest_bot. Qed.

(** ** The example engine is one *)

Section bench.
Context {G : Type} (rand_float : G -> F64.t * G) (tick_clock : Z -> Z) (delayMs : Z) (target : string).

(** The engine, without chaos, on a bench with a clock that ticks at every call. *)
Definition engine : Env (RefEngine.Server G) := serve rand_float tick_clock delayMs false target.
Definition bench : Env (RefEngine.Server G * Z) := fun c w =>
  match c return reply c * (RefEngine.Server G * Z) with
  | Now => (w.2, (w.1, w.2 + 1))
  | c => ((engine c w.1).1, ((engine c w.1).2, w.2 + 1))
  end.

#[local] Existing Instance bench.

Lemma bench_ticks c w r w' : env_step c w = (r, w') -> w'.2 = w.2 + 1.
Proof. unfold env_step, bench. destruct c; intros Heq; injection Heq as _ <-; reflexivity. Qed.

Lemma bench_quiet c w r w' : env_step c w = (r, w') -> is_request (ev c r) = false -> w'.1 = w.1.
Proof.
  unfold is_request, called. simpl. unfold env_step, bench.
  destruct c; intros Heq Hc; try discriminate Hc; injection Heq as _ <-; reflexivity.
Qed.

Lemma bench_request c w r w' :
  env_step c w = (r, w') -> is_request (ev c r) = true -> env_step (Env := engine) c w.1 = (r, w'.1).
Proof.
  unfold is_request, called. simpl. unfold env_step, bench.
  destruct c; intros Heq Hc; try discriminate Hc; injection Heq as <- <-; apply surjective_pairing.
Qed.

#[local] Instance bench_clock : ClockLaws snd.
Proof.
  split.
  - intros e r e' He. pose proof (bench_ticks _ _ _ _ He). unfold env_step, bench in He. injection He as <- <-. simpl. lia.
  - intros c e r e' He. pose proof (bench_ticks _ _ _ _ He). lia.
  - intros c e r e' _ He. pose proof (bench_ticks _ _ _ _ He). lia.
Qed.

#[local] Instance bench_rand : RandLaws.
Proof. intros n e r e' Hn He. unfold env_step, bench, engine, serve in He. injection He as <- _. simpl. lia. Qed.

(** It has served [qs] when its book stands for the book after [qs]; it serves
    at most one request per tick. *)
Definition served (qs : list request) (w : RefEngine.Server G * Z) : Prop :=
  serves (after qs) w.1 /\ Z.of_nat (length qs) <= w.2.

#[local] Instance bench_shared : SharedEngine target served.
Proof.
  split.
  - intros c qs e r e' [Hl Hlen] Hc He. exists []. split; [constructor|]. rewrite app_nil_r. unfold served.
    rewrite (bench_quiet _ _ _ _ He Hc), (bench_ticks _ _ _ _ He). split; [done|lia].
  - intros q qs e r e' [Hl Hlen] [Hok _] Hplain Ha.
    assert (answers (Env0 := engine) target q e.1 r e'.1 /\ e'.2 = e.2 + 1) as [Ha1 Ht].
    { destruct q as [o|id].
      - split; [exact (bench_request (PostOrder _ o) _ _ _ Ha eq_refl)|exact (bench_ticks (PostOrder _ o) _ _ _ Ha)].
      - split; [exact (bench_request (DeleteOrder _) _ _ _ Ha eq_refl)|exact (bench_ticks (DeleteOrder _) _ _ _ Ha)]. }
    destruct (serve_answers rand_float tick_clock delayMs target q (after qs) e.1 Hl Hok Hplain) as (s & Ha2 & Hs).
    destruct (answers_fun (Env0 := engine) _ _ _ _ _ _ _ Ha1 Ha2) as [-> He1].
    right. eexists [], [], _. split_and!; [constructor|constructor| |done|by rewrite app_nil_r].
    simpl. unfold served. rewrite after_app, He1, Ht, length_app. simpl. split; [by destruct (pb_handle q (after qs))|lia].
Qed.
End bench.

(** ** Witness: a bot against the example engine *)

#[local] Existing Instances BotTurn.plain_text BotTurn.still_math.

Definition demo_bench : World (RefEngine.Server unit * Z) shardState :=
  mkWorld (RefEngine.mkServer RefEngine.newBook tt 0, 0) newShard [].

Lemma honest_engine_clears_bot_witness :
  wp (bot (Env0 := bench (fun g => (F64.zero, g)) Z.succ 20 "http://sub:8080") (fun _ => None) 101 demo_shard 3 0 100)
    (fun _ w' => exists ops more, st_violations (local w') = st_violations (exec_ops ops newShard) /\ served more (env w')
       /\ (Z.of_nat (length more) <= Int64.max_val -> count is_violation ops = 0)) demo_bench.
Proof.
  eapply wp_mono.
  - apply (honest_engine_clears_bot (Env0 := bench (fun g => (F64.zero, g)) Z.succ 20 "http://sub:8080") (fun _ => None) snd
      served demo_shard 3 0 100 101 [] demo_bench).
    + exact (bench_rand _ _ _ _).
    + exact (bench_clock _ _ _ _).
    + exact (bench_shared _ _ _ _).
    + exact demo_urls_ok.
    + vm_compute. reflexivity.
    + split; [split; [exact Inv_New|reflexivity]|discriminate].
    + constructor.
  - simpl. intros b' w' (ops & tr & more & (Hl & _) & _ & Hlog & Hnone). exists ops, more. rewrite Hl. split; [reflexivity|].
    split; [exact Hlog|]. intros Hm. exact (proj2 (Hnone Hm)).
Defined.
