(* ===== verification/Fleet.v ===== *)
(** * Telemetry of a shard: [flush] and [runShard] of [src/cmd/botfleet/main.go]

    The flusher runs beside the bots. It reads the shared state in several
    atomic accesses; between any two of them the bots may do anything. [others
    i] is what they do just before the [i]-th access of a flush, so that a
    schedule of the shard is a list of such functions. *)
From S2P Require Import Prelude Protocol Float64 Text IO Consumer Counters Hist HistProps Bot BotTurn.
Local Open Scope Z_scope.

Section fleet.
Context `{!Math} {W : Type} `{!Env W}.

Definition interleave (ops : list bot_op) : Bot (W := W) () := modify_local (exec_ops ops).

(** The critical section: the per-second maps and the samples are taken and replaced. *)
Definition take_secs : Bot (W := W) (gmap Z Z * gmap Z Z * list string) :=
  st ← get_local;
  put_local (mkShard (st_sent st) (st_acked st) (st_errors st) (st_violations st) (st_hist st) ∅ ∅ []);;
  mret (st_secAcks st, st_secErrs st, st_samples st).

Definition load (f : shardState -> Z) : Bot (W := W) Z := st ← get_local; mret (f st).

(** [st.hist.TakeDelta()] *)
Definition take_hist : Bot (W := W) (gmap Z Z) :=
  st ← get_local;
  match TakeDelta (st_hist st) with
  | Ok (d, h) =>
      put_local (mkShard (st_sent st) (st_acked st) (st_errors st) (st_violations st) h
                         (st_secAcks st) (st_secErrs st) (st_samples st));;
      mret d
  | Panic => panic
  | OutOfFuel => fun _ => OutOfFuel
  end.

Definition streamTele : string := "telemetry.raw".

Definition zeroBatch : TelemetryBatch := mkBatch "" 0 0 false 0 0 0 0 ∅ ∅ ∅ [].

(** [delta := cur], with the counters since [prev]. *)
Definition delta_of (cur prev : TelemetryBatch) : TelemetryBatch :=
  mkBatch (tb_run cur) (tb_shard cur) (tb_total cur) (tb_final cur)
    (Int64.sub (tb_sent cur) (tb_sent prev)) (Int64.sub (tb_acked cur) (tb_acked prev))
    (Int64.sub (tb_errors cur) (tb_errors prev)) (Int64.sub (tb_violations cur) (tb_violations prev))
    (tb_hist cur) (tb_sec_acks cur) (tb_sec_errs cur) (tb_samples cur).

(** Ships the delta; returns the new [*prev]. An [XAdd] that fails is only logged. *)
Definition flush (others : nat -> list bot_op) (shard : LoadShard) (prev : TelemetryBatch)
    (final : bool) : Bot (W := W) TelemetryBatch :=
  interleave (others 0%nat);;
  '(secAcks, secErrs, samples) ← take_secs;
  interleave (others 1%nat);; sent ← load st_sent;
  interleave (others 2%nat);; acked ← load st_acked;
  interleave (others 3%nat);; errors ← load st_errors;
  interleave (others 4%nat);; violations ← load st_violations;
  interleave (others 5%nat);; hist ← take_hist;
  let cur := mkBatch (ls_run shard) (ls_shard shard) (ls_total shard) final
                     sent acked errors violations hist secAcks secErrs samples in
  perform (XAdd streamTele (MBatch (delta_of cur prev)));;
  mret cur.

Fixpoint ticks (sched : list (nat -> list bot_op)) (shard : LoadShard) (prev : TelemetryBatch)
    : Bot (W := W) TelemetryBatch :=
  match sched with
  | [] => mret prev
  | others :: sched' => prev ← flush others shard prev false; ticks sched' shard prev
  end.

(** A shard: a flush at every tick, and the final one when all bots are done,
    [rest] being what they did since the last tick. *)
Definition runShard (sched : list (nat -> list bot_op)) (rest : list bot_op) (shard : LoadShard)
    : Bot (W := W) () :=
  put_local newShard;;
  prev ← ticks sched shard zeroBatch;
  flush (fun i => match i with O => rest | _ => [] end) shard prev true;;
  mret ().

(** ** The stream of shards *)

Definition streamLoad : string := "load.jobs".
Definition group : string := "fleet".

(** What [main] does first: the group starts at the oldest message, unless it
    exists already, when the error is dropped. *)
Definition joinGroup : Bot (W := W) () := perform (XGroupCreateMkStream streamLoad group "0").

(** One message of [main]: acknowledged when claimed, then run if it decodes;
    [plan] is how the bots and the flusher of a message's shard interleave. *)
Definition take_shard (plan : string -> list (nat -> list bot_op) * list bot_op)
    (m : delivery LoadShard) : Bot (W := W) () :=
  perform (XAck streamLoad group m.1);;
  payload ← orPanic m.2;
  match payload with
  | inl shard => runShard (plan m.1).1 (plan m.1).2 shard
  | inr _ => mret ()
  end.

(** The first [n] turns of [main]. *)
Definition fleet_main (plan : string -> list (nat -> list bot_op) * list bot_op) (n : nat) : Bot (W := W) () :=
  turns n (consume (perform (ReadShards streamLoad group 1)) (take_shard plan)).

(** Everything the bots did, in order. *)
Definition gaps (others : nat -> list bot_op) : list bot_op :=
  others 0%nat ++ others 1%nat ++ others 2%nat ++ others 3%nat ++ others 4%nat ++ others 5%nat.
Definition all_ops (sched : list (nat -> list bot_op)) (rest : list bot_op) : list bot_op :=
  concat (map gaps sched) ++ rest.
End fleet.
