(* ===== verification/FleetProps.v ===== *)
(** * Telemetry of a shard: theorems

    The batches of a shard add up to exactly what its bots did, for every
    interleaving of the bots with the flusher's accesses. *)
From S2P Require Import Prelude Protocol Float64 Text IO Consumer Counters Hist HistProps Bot BotTurn Fleet.
Local Open Scope Z_scope.

(** ** The four counters and the three counter maps, uniformly *)

Inductive counter := CSent | CAcked | CErrors | CViolations.

Definition op_is (c : counter) : bot_op -> bool :=
  match c with CSent => is_sent | CAcked => is_acked | CErrors => is_error | CViolations => is_violation end.
Definition st_count (c : counter) : shardState -> Z :=
  match c with CSent => st_sent | CAcked => st_acked | CErrors => st_errors | CViolations => st_violations end.
Definition tb_count (c : counter) : TelemetryBatch -> Z :=
  match c with CSent => tb_sent | CAcked => tb_acked | CErrors => tb_errors | CViolations => tb_violations end.

Inductive table := THist | TAcks | TErrs.

Definition st_table (t : table) : shardState -> gmap Z Z :=
  match t with THist => st_hist | TAcks => st_secAcks | TErrs => st_secErrs end.
Definition tb_table (t : table) : TelemetryBatch -> gmap Z Z :=
  match t with THist => tb_hist | TAcks => tb_sec_acks | TErrs => tb_sec_errs end.

Section fleet.
Context `{!Math}.

(** The key an operation counts in a table: a latency bucket or a second. *)
Definition op_key (t : table) (op : bot_op) : option Z :=
  match t, op with
  | THist, RecordLat ns => Some (bucketOf ns)
  | TAcks, TickAck sec => Some sec
  | TErrs, TickErr sec => Some sec
  | _, _ => None
  end.
Definition keys (t : table) (ops : list bot_op) : list Z := omap (op_key t) ops.

Lemma keys_app t l l' : keys t (l ++ l') = keys t l ++ keys t l'.
Proof. apply omap_app. Qed.

Lemma keys_cons t op l : keys t (op :: l) = match op_key t op with Some k => k :: keys t l | None => keys t l end.
Proof. done. Qed.

Lemma keys_length t ops : (length (keys t ops) <= length ops)%nat.
Proof.
  induction ops as [|op ops IH]; [done|]. rewrite keys_cons. destruct (op_key t op); simpl; lia.
Qed.

Lemma count_range P ops : 0 <= count P ops <= Z.of_nat (length ops).
Proof.
  unfold count. induction ops as [|op ops IH]; simpl; [lia|]. destruct (P op); simpl; lia.
Qed.

Lemma exec_op_count c op st :
  st_count c (exec_op op st) = if op_is c op then Int64.add (st_count c st) 1 else st_count c st.
Proof. by destruct st, c, op. Qed.

Lemma exec_op_table t op st :
  st_table t (exec_op op st)
  = match op_key t op with Some k => bump (st_table t st) k 1 | None => st_table t st end.
Proof. by destruct st, t, op. Qed.

(** Few enough operations for [int64] and for a double. *)
Definition bounded (ops : list bot_op) : Prop := Z.of_nat (length ops) <= 2 ^ 53.

Lemma bounded_app l l' : bounded (l ++ l') -> bounded l /\ bounded l'.
Proof. unfold bounded. rewrite length_app. lia. Qed.

Lemma bounded_few t ops : bounded ops -> few (keys t ops).
Proof. unfold bounded, few. pose proof (keys_length t ops). lia. Qed.

Lemma exec_ops_app l l' st : exec_ops (l ++ l') st = exec_ops l' (exec_ops l st).
Proof. apply foldl_app. Qed.

Lemma exec_ops_count c n ops st :
  st_count c st = n -> 0 <= n -> n + Z.of_nat (length ops) <= 2 ^ 53 ->
  st_count c (exec_ops ops st) = n + count (op_is c) ops.
Proof.
  revert st n. induction ops as [|op ops IH]; intros st n Hn Hpos Hb; [unfold count; simpl; lia|].
  simpl. simpl in Hb. rewrite count_cons.
  rewrite (IH (exec_op op st) (n + (if op_is c op then 1 else 0))); [lia| |case_match; lia|case_match; lia].
  rewrite exec_op_count, Hn. case_match; [|lia]. apply Int64.wrap_id.
  unfold Int64.in_range, Int64.min_val, Int64.max_val. lia.
Qed.

Lemma exec_ops_table t bs ops st :
  few (bs ++ keys t ops) -> hist_of bs (st_table t st) ->
  exists bs', hist_of bs' (st_table t (exec_ops ops st)) /\ bs' ≡ₚ bs ++ keys t ops.
Proof.
  revert bs st. induction ops as [|op ops IH]; intros bs st Hf Hh.
  - exists bs. split; [done|]. by rewrite app_nil_r.
  - rewrite keys_cons in *. destruct (op_key t op) as [k|] eqn:Hk.
    + destruct (IH (k :: bs) (exec_op op st)) as (bs' & H1 & H2).
      * unfold few in *. rewrite length_app in *. simpl in *. lia.
      * rewrite exec_op_table, Hk. apply hist_of_bump; [|done].
        unfold few in *. rewrite length_app in *. simpl in *. lia.
      * exists bs'. split; [done|]. rewrite H2. simpl. by rewrite Permutation_middle.
    + destruct (IH bs (exec_op op st)) as (bs' & H1 & H2); [done|by rewrite exec_op_table, Hk|].
      by exists bs'.
Qed.

(** ** What has been shipped *)

Definition total (c : counter) (bs : list TelemetryBatch) : Z := foldr (fun b n => tb_count c b + n) 0 bs.

Lemma total_snoc c bs b : total c (bs ++ [b]) = total c bs + tb_count c b.
Proof. induction bs as [|x bs IH]; simpl; [lia|]. unfold total in *. lia. Qed.

(** After the operations [ops], the batches [bs] have been shipped and [prev]
    is the last absolute reading. *)
Record shipped (shard : LoadShard) (ops : list bot_op) (bs : list TelemetryBatch)
    (prev : TelemetryBatch) (st : shardState) : Prop := mkShipped {
  sh_count c : st_count c st = count (op_is c) ops;
  sh_prev c : 0 <= tb_count c prev <= count (op_is c) ops;
  sh_total c : total c bs = tb_count c prev;
  sh_pos c : Forall (fun b => 0 <= tb_count c b) bs;
  sh_table t : exists parts left, Forall2 hist_of parts (map (tb_table t) bs)
    /\ hist_of left (st_table t st) /\ concat parts ++ left ≡ₚ keys t ops;
  sh_meta : Forall (fun b => tb_run b = ls_run shard /\ tb_shard b = ls_shard shard
                             /\ tb_total b = ls_total shard) bs
}.

Lemma shipped_new shard : shipped shard [] [] zeroBatch newShard.
Proof.
  split; try (by intros []); try constructor.
  intros t. exists [], []. split_and!; [constructor| |done]. destruct t; apply hist_of_empty.
Qed.

(** The bots move on. *)
Lemma shipped_exec shard ops bs prev st more :
  bounded (ops ++ more) -> shipped shard ops bs prev st ->
  shipped shard (ops ++ more) bs prev (exec_ops more st).
Proof.
  intros Hb [H1 H2 H3 H4 H5 H6]. split; try done.
  - intros c. rewrite (exec_ops_count c (count (op_is c) ops)); [by rewrite count_app|done|apply count_range|].
    unfold bounded in Hb. rewrite length_app in Hb. pose proof (count_range (op_is c) ops). lia.
  - intros c. rewrite count_app. pose proof (H2 c). pose proof (count_range (op_is c) more). lia.
  - intros t. destruct (H5 t) as (parts & lft & Hp & Hl & Hperm).
    destruct (exec_ops_table t lft more st) as (lft' & Hl' & Hperm').
    + pose proof (bounded_few t _ Hb) as Hf. unfold few in *. rewrite keys_app, <- Hperm, !length_app in Hf.
      rewrite length_app. lia.
    + done.
    + exists parts, lft'. split_and!; [done|done|].
      by rewrite Hperm', keys_app, <- Hperm, app_assoc.
Qed.

(** ** One flush *)

Section flush.
Context {W : Type} `{!Env W}.

Lemma wp_interleave ops Q (w : World W shardState) :
  Q () (mkWorld (env w) (exec_ops ops (local w)) (trace w)) -> wp (interleave ops) Q w.
Proof. apply wp_modify_local. Qed.

Lemma wp_load f Q (w : World W shardState) : Q (f (local w)) w -> wp (load f) Q w.
Proof. intros HQ. unfold load. wp_step. by apply wp_ret. Qed.

(** The states of a flush: [st1] once the per-second maps are taken, [st2] at
    the end. *)
Definition without_secs (st : shardState) : shardState :=
  mkShard (st_sent st) (st_acked st) (st_errors st) (st_violations st) (st_hist st) ∅ ∅ [].
Definition without_hist (st : shardState) : shardState :=
  mkShard (st_sent st) (st_acked st) (st_errors st) (st_violations st) ∅
          (st_secAcks st) (st_secErrs st) (st_samples st).

(** What the bots do after the per-second maps were taken, the state it starts
    from, and the reading that a flush ships. *)
Definition later (others : nat -> list bot_op) : list bot_op :=
  others 1%nat ++ others 2%nat ++ others 3%nat ++ others 4%nat ++ others 5%nat.
Definition cut (others : nat -> list bot_op) (st : shardState) : shardState :=
  without_secs (exec_ops (others 0%nat) st).
Definition reading (others : nat -> list bot_op) (shard : LoadShard) (final : bool) (st : shardState) : TelemetryBatch :=
  let st0 := exec_ops (others 0%nat) st in
  let st1 := exec_ops (others 1%nat) (without_secs st0) in
  let st2 := exec_ops (others 2%nat) st1 in
  let st3 := exec_ops (others 3%nat) st2 in
  let st4 := exec_ops (others 4%nat) st3 in
  let st5 := exec_ops (others 5%nat) st4 in
  mkBatch (ls_run shard) (ls_shard shard) (ls_total shard) final
    (st_sent st1) (st_acked st2) (st_errors st3) (st_violations st4)
    (st_hist st5) (st_secAcks st0) (st_secErrs st0) (st_samples st0).
Definition left_over (others : nat -> list bot_op) (st : shardState) : shardState :=
  without_hist (exec_ops (later others) (cut others st)).

Lemma gaps_later others : gaps others = others 0%nat ++ later others.
Proof. done. Qed.

Lemma flush_runs (others : nat -> list bot_op) shard prev final (w : World W shardState) :
  let cur := reading others shard final (local w) in
  wp (flush others shard prev final) (fun cur' w' =>
    cur' = cur /\ exists r, acted w w' (left_over others (local w)) [ev (XAdd streamTele (MBatch (delta_of cur prev))) r]) w.
Proof.
  intros cur. unfold flush.
  apply wp_bind, wp_interleave. apply wp_bind. unfold take_secs. do 3 wp_step.
  do 4 (apply wp_bind, wp_interleave; apply wp_bind, wp_load).
  apply wp_bind, wp_interleave. apply wp_bind. unfold take_hist. wp_step. simpl. do 2 wp_step.
  wp_step. wp_step. split; [done|]. exists r. split_and!; [|done|by apply runs_one].
  unfold left_over, cut, later. by rewrite !exec_ops_app.
Qed.

(** The state after the per-second maps were taken still has every count. *)
Lemma cut_count others shard ops bs prev st c l l' :
  bounded (ops ++ gaps others) -> shipped shard ops bs prev st -> l ++ l' = later others ->
  st_count c (exec_ops l (cut others st)) = count (op_is c) (ops ++ others 0%nat) + count (op_is c) l.
Proof.
  intros Hb Hsh Hl. rewrite gaps_later, app_assoc in Hb. destruct (bounded_app _ _ Hb) as [Hb0 _].
  pose proof (sh_count _ _ _ _ _ (shipped_exec shard ops bs prev st (others 0%nat) Hb0 Hsh) c) as Hc.
  apply exec_ops_count; [rewrite <- Hc; by destruct c|apply count_range|].
  unfold bounded in Hb. rewrite <- Hl in Hb. rewrite !length_app in *.
  pose proof (count_range (op_is c) (ops ++ others 0%nat)) as Hr. rewrite length_app in Hr. lia.
Qed.

(** A counter is read at some moment of the flush. *)
Lemma reading_count others shard final ops bs prev st c :
  bounded (ops ++ gaps others) -> shipped shard ops bs prev st ->
  exists l l', l ++ l' = later others
  /\ tb_count c (reading others shard final st) = count (op_is c) (ops ++ others 0%nat) + count (op_is c) l.
Proof.
  intros Hb Hsh. unfold later. set (o1 := others 1%nat). set (o2 := others 2%nat). set (o3 := others 3%nat).
  set (o4 := others 4%nat). set (o5 := others 5%nat).
  assert (exists l l', l ++ l' = o1 ++ o2 ++ o3 ++ o4 ++ o5
    /\ tb_count c (reading others shard final st) = st_count c (exec_ops l (cut others st))) as (l & l' & Hl & ->).
  { destruct c.
    - by exists o1, (o2 ++ o3 ++ o4 ++ o5).
    - exists (o1 ++ o2), (o3 ++ o4 ++ o5). by rewrite !exec_ops_app, <- !app_assoc.
    - exists (o1 ++ o2 ++ o3), (o4 ++ o5). by rewrite !exec_ops_app, <- !app_assoc.
    - exists (o1 ++ o2 ++ o3 ++ o4), o5. by rewrite !exec_ops_app, <- !app_assoc. }
  exists l, l'. split; [done|]. by eapply cut_count.
Qed.

Lemma reading_range others shard final ops bs prev st c :
  bounded (ops ++ gaps others) -> shipped shard ops bs prev st ->
  let cur := reading others shard final st in
  0 <= tb_count c prev <= tb_count c cur /\ tb_count c cur <= count (op_is c) (ops ++ gaps others)
  /\ count (op_is c) (ops ++ others 0%nat) <= tb_count c cur.
Proof.
  intros Hb Hsh cur. destruct (reading_count others shard final ops bs prev st c Hb Hsh) as (l & l' & Hl & Hc).
  unfold cur. rewrite Hc, gaps_later, app_assoc, <- Hl, (count_app _ (ops ++ others 0%nat)), (count_app _ l l'), (count_app _ ops).
  pose proof (sh_prev _ _ _ _ _ Hsh c). pose proof (count_range (op_is c) l). pose proof (count_range (op_is c) l').
  pose proof (count_range (op_is c) (others 0%nat)). lia.
Qed.

Lemma delta_count others shard final ops bs prev st c :
  bounded (ops ++ gaps others) -> shipped shard ops bs prev st ->
  let cur := reading others shard final st in tb_count c (delta_of cur prev) = tb_count c cur - tb_count c prev.
Proof.
  intros Hb Hsh cur. destruct (reading_range others shard final ops bs prev st c Hb Hsh) as (Hr1 & Hr2 & _). fold cur in Hr1, Hr2.
  assert (tb_count c (delta_of cur prev) = Int64.sub (tb_count c cur) (tb_count c prev)) as -> by (by destruct c).
  apply Int64.sub_small; [done|].
  pose proof (count_range (op_is c) (ops ++ gaps others)). unfold bounded in Hb.
  unfold Int64.in_range, Int64.min_val, Int64.max_val. lia.
Qed.

(** A table is taken once; what comes later stays for the next flush. *)
Lemma reading_table others shard final ops bs prev st t :
  bounded (ops ++ gaps others) -> shipped shard ops bs prev st ->
  exists parts p lft, Forall2 hist_of parts (map (tb_table t) bs)
  /\ hist_of p (tb_table t (reading others shard final st)) /\ hist_of lft (st_table t (left_over others st))
  /\ (length lft <= length (later others))%nat
  /\ concat parts ++ p ++ lft ≡ₚ keys t (ops ++ gaps others).
Proof.
  intros Hb Hsh. rewrite gaps_later, app_assoc in Hb |- *. destruct (bounded_app _ _ Hb) as [Hb0 Hb1].
  destruct (sh_table _ _ _ _ _ (shipped_exec shard ops bs prev st (others 0%nat) Hb0 Hsh) t) as (parts & lft0 & Hp & Hl & Hperm).
  pose proof (keys_length t (later others)) as Hkl. destruct t; simpl in Hl.
  - destruct (exec_ops_table THist lft0 (later others) (cut others st)) as (lft' & Hl' & Hperm'); [|exact Hl|].
    { pose proof (bounded_few THist _ Hb) as Hf. unfold few in *. rewrite keys_app, <- Hperm, !length_app in Hf.
      rewrite length_app. lia. }
    exists parts, lft', []. split_and!; [exact Hp| |apply hist_of_empty|simpl; lia|].
    + unfold later in Hl'. by rewrite !exec_ops_app in Hl'.
    + rewrite app_nil_r, Hperm', (keys_app _ (ops ++ _)), <- Hperm. by rewrite app_assoc.
  - destruct (exec_ops_table TAcks [] (later others) (cut others st)) as (lft' & Hl' & Hperm');
      [exact (bounded_few TAcks _ Hb1)|apply hist_of_empty|].
    exists parts, lft0, lft'. split_and!; [exact Hp|exact Hl|exact Hl'|by rewrite Hperm'|].
    by rewrite Hperm', (keys_app _ (ops ++ _)), <- Hperm, app_assoc.
  - destruct (exec_ops_table TErrs [] (later others) (cut others st)) as (lft' & Hl' & Hperm');
      [exact (bounded_few TErrs _ Hb1)|apply hist_of_empty|].
    exists parts, lft0, lft'. split_and!; [exact Hp|exact Hl|exact Hl'|by rewrite Hperm'|].
    by rewrite Hperm', (keys_app _ (ops ++ _)), <- Hperm, app_assoc.
Qed.

(** What one flush ships, and what it leaves. *)
Lemma flush_ok (others : nat -> list bot_op) shard final ops bs prev (w : World W shardState) :
  bounded (ops ++ gaps others) -> shipped shard ops bs prev (local w) ->
  wp (flush others shard prev final) (fun cur w' =>
    exists b r, acted w w' (local w') [ev (XAdd streamTele (MBatch b)) r] /\ tb_final b = final
    /\ shipped shard (ops ++ gaps others) (bs ++ [b]) cur (local w')
    /\ (forall c, count (op_is c) (ops ++ others 0%nat) <= tb_count c cur)
    /\ (forall t, exists lft, hist_of lft (st_table t (local w'))
        /\ (length lft + length (others 0%nat) <= length (gaps others))%nat)) w.
Proof.
  intros Hb Hsh. eapply wp_mono; [apply flush_runs|]. intros cur w' (-> & r & (Hloc & Htr & Hruns)).
  set (cur := reading others shard final (local w)) in *.
  pose proof (fun c => reading_range others shard final ops bs prev (local w) c Hb Hsh) as Hrange.
  pose proof (fun c => delta_count others shard final ops bs prev (local w) c Hb Hsh) as Hdelta.
  pose proof (fun t => reading_table others shard final ops bs prev (local w) t Hb Hsh) as Htable.
  cbv zeta in Hrange, Hdelta. fold cur in Hrange, Hdelta, Htable.  pose proof Hsh as [_ _ H3 H4 _ H6].
  exists (delta_of cur prev), r. split; [by split_and!|]. split; [done|]. split; [split|split].
  - intros c. rewrite Hloc. transitivity (st_count c (exec_ops (later others) (cut others (local w)))); [by destruct c|].
    rewrite (cut_count others shard ops bs prev _ c (later others) [] Hb Hsh (app_nil_r _)).
    by rewrite gaps_later, app_assoc, <- count_app.
  - intros c. destruct (Hrange c). lia.
  - intros c. rewrite total_snoc, H3, Hdelta. lia.
  - intros c. apply Forall_app. split; [done|]. constructor; [|done]. rewrite Hdelta. destruct (Hrange c). lia.
  - intros t. destruct (Htable t) as (parts & p & lft & Hparts & Hp & Hl & _ & Hperm).
    exists (parts ++ [p]), lft. rewrite map_app, Hloc. split_and!; [|done|].
    + apply Forall2_app; [done|]. constructor; [|done]. by destruct t.
    + rewrite concat_app. simpl. by rewrite app_nil_r, <- app_assoc.
  - apply Forall_app. split; [done|]. by constructor.
  - intros c. by destruct (Hrange c) as (_ & _ & ?).
  - intros t. destruct (Htable t) as (_ & _ & lft & _ & _ & Hl & Hlen & _). exists lft. rewrite Hloc. split; [done|].
    rewrite gaps_later, length_app. lia.
Qed.

(** ** The whole shard *)

Definition batch_event (b : TelemetryBatch) (r : option string) : event :=
  ev (XAdd streamTele (MBatch b)) r.

Lemma ticks_ok sched shard ops bs prev (w : World W shardState) :
  bounded (ops ++ concat (map gaps sched)) -> shipped shard ops bs prev (local w) ->
  wp (ticks sched shard prev) (fun prev' w' =>
    exists bs' rs, acted w w' (local w') (zip_with batch_event bs' rs) /\ length rs = length bs'
    /\ map tb_final bs' = replicate (length sched) false
    /\ shipped shard (ops ++ concat (map gaps sched)) (bs ++ bs') prev' (local w')) w.
Proof.
  revert ops bs prev w. induction sched as [|others sched IH]; intros ops bs prev w Hb Hsh; simpl.
  - apply wp_ret. exists [], []. rewrite !app_nil_r in *. split_and!; [apply acted_refl|done..].
  - simpl in Hb. rewrite app_assoc in Hb. apply wp_bind. eapply wp_mono.
    { apply flush_ok; [|exact Hsh]. by apply bounded_app in Hb as [Hb _]. }
    intros cur w1 (b & r & Htr & Hfin & Hsh1 & _). eapply wp_mono; [by eapply IH|].
    intros prev' w2 (bs' & rs & Htr2 & Hlen & Hfin2 & Hsh2). exists (b :: bs'), (r :: rs). simpl. split_and!.
    + exact (acted_trans _ _ _ _ _ _ _ Htr Htr2).
    + by rewrite Hlen.
    + by rewrite Hfin, Hfin2.
    + rewrite app_assoc, (cons_middle b), app_assoc. done.
Qed.

Lemma last_gaps (rest : list bot_op) : gaps (fun i => match i with O => rest | _ => [] end) = rest.
Proof. unfold gaps. by rewrite !app_nil_r. Qed.

Lemma hist_of_nil_inv lft : hist_of lft ∅ -> lft = [].
Proof.
  intros Hh. destruct lft as [|k lft]; [done|]. destruct (Hh k) as [_ Hk].
  destruct (proj2 Hk) as [v Hv]; [left|]. by rewrite lookup_empty in Hv.
Qed.

(** The batches [bs] of a whole shard: the last one marked final, all labelled,
    and adding up to what the bots did. *)
Record shipment (sched : list (nat -> list bot_op)) (rest : list bot_op) (shard : LoadShard)
    (bs : list TelemetryBatch) : Prop := mkShipment {
  sp_final : map tb_final bs = replicate (length sched) false ++ [true];
  sp_meta : Forall (fun b => tb_run b = ls_run shard /\ tb_shard b = ls_shard shard
                             /\ tb_total b = ls_total shard) bs;
  sp_pos c : Forall (fun b => 0 <= tb_count c b) bs;
  sp_total c : total c bs = count (op_is c) (all_ops sched rest);
  sp_table t : exists parts, Forall2 hist_of parts (map (tb_table t) bs)
    /\ concat parts ≡ₚ keys t (all_ops sched rest)
}.

Lemma shard_ok sched rest shard (w : World W shardState) :
  bounded (all_ops sched rest) ->
  wp (runShard sched rest shard) (fun _ w' => exists bs rs,
    acted w w' (local w') (zip_with batch_event bs rs) /\ length rs = length bs /\ shipment sched rest shard bs) w.
Proof.
  intros Hb. unfold runShard. wp_step. set (w0 := mkWorld _ _ _). apply wp_bind. eapply wp_mono.
  { eapply (ticks_ok sched shard [] []); [|apply shipped_new]. by apply (bounded_app _ rest). }
  intros prev w1 (bs & rs & Htr & Hlen & Hfin & Hsh). simpl in Hsh, Htr. apply wp_bind. eapply wp_mono.
  { eapply flush_ok; [|exact Hsh]. rewrite last_gaps. done. }
  intros cur w2 (b & r & Htr2 & Hfin2 & [_ H2 H3 H4 H5 H6] & Hcur & Hleft). apply wp_ret.
  rewrite last_gaps in *. change (concat (map gaps sched) ++ rest) with (all_ops sched rest) in *.
  exists (bs ++ [b]), (rs ++ [r]). split; [|split; [|split; [|done|done| |]]].
  - rewrite zip_with_app by done. exact (acted_trans w0 _ _ _ _ _ _ Htr Htr2).
  - rewrite !length_app. simpl. lia.
  - by rewrite map_app, Hfin, <- Hfin2.
  - intros c. rewrite H3. pose proof (H2 c). pose proof (Hcur c). lia.
  - intros t. destruct (H5 t) as (parts & lft & Hp & Hl & Hperm). destruct (Hleft t) as (lft' & Hl' & Hlen').
    assert (lft' = []) as -> by (destruct lft'; [done|simpl in Hlen'; lia]).
    rewrite (hist_of_unique _ _ ∅ Hl' hist_of_empty) in Hl. apply hist_of_nil_inv in Hl as ->.
    rewrite app_nil_r in Hperm. by exists parts.
Qed.

(** C11. A shard ships exactly what its bots did. For every interleaving of the
    bots with the accesses of the flusher, the run makes one batch per tick
    and a last one, the only one marked final; all are labelled with the
    shard; no delta is negative; the deltas of each counter add up to the
    number of its increments; and folding the histograms, or the per-second
    maps, of the batches in any order counts every latency, or every second,
    exactly as often as it was recorded. *)
Theorem shard_ships_what_happened (sched : list (nat -> list bot_op)) (rest : list bot_op)
    (shard : LoadShard) (w : World W shardState) :
  bounded (all_ops sched rest) ->
  wp (runShard sched rest shard) (fun _ w' =>
    exists bs rs, trace w' = trace w ++ zip_with batch_event bs rs /\ length rs = length bs
    /\ map tb_final bs = replicate (length sched) false ++ [true]
    /\ Forall (fun b => tb_run b = ls_run shard /\ tb_shard b = ls_shard shard
                        /\ tb_total b = ls_total shard) bs
    /\ (forall c, Forall (fun b => 0 <= tb_count c b) bs)
    /\ (forall c, total c bs = count (op_is c) (all_ops sched rest))
    /\ forall t orders arrival, Forall2 ranges (map (tb_table t) bs) orders -> arrival ≡ₚ orders ->
         hist_of (keys t (all_ops sched rest)) (merge_all ∅ arrival)) w.
Proof.
  intros Hb. eapply wp_mono; [by apply shard_ok|].
  intros [] w' (bs & rs & (_ & Htr & _) & Hlen & [Hfin Hmeta Hpos Htot Htab]). exists bs, rs. split_and!; [done..|].
  intros t orders arrival Ho Ha. rewrite (merge_all_perm _ _ _ Ha).
  destruct (Htab t) as (parts & Hp & Hperm). eapply hist_of_perm; [exact Hperm|].
  eapply (merge_all_ok parts _ orders []); [done|done| |apply hist_of_empty].
  pose proof (bounded_few t _ Hb) as Hf. unfold few in *. simpl. by rewrite Hperm.
Qed.

(** ** The loop of the fleet *)

Section main.
Context (plan : string -> list (nat -> list bot_op) * list bot_op).
Context (Hplan : forall id, bounded (all_ops (plan id).1 (plan id).2)).

Definition shard_event (res : fetched LoadShard) : event := ev (ReadShards streamLoad group 1) res.
Definition ack_shard (id : string) : event := ev (XAck streamLoad group id) tt.

(** A message taken: acknowledged first, then the whole shipment of its shard. *)
Definition loaded (m : delivery LoadShard) (tr : list event) : Prop :=
  match m with
  | (id, Some (inl shard)) => exists bs rs, tr = ack_shard id :: zip_with batch_event bs rs
      /\ length rs = length bs /\ shipment (plan id).1 (plan id).2 shard bs
  | (id, _) => tr = [ack_shard id]
  end.

(** Every message of the stream has a text payload: the orchestrator gives it one. *)
Class ShardLaws : Prop := shard_payload e r e' :
  env_step (ReadShards streamLoad group 1) e = (r, e') ->
  match r with Fetched msgs => Forall (fun m => is_Some m.2) msgs | _ => True end.

Lemma take_shard_ok m (w w1 : World W shardState) i tr :
  is_Some m.2 -> acted w w1 i tr ->
  wp (take_shard plan m) (fun _ w2 => exists i' tr', acted w w2 i' (tr ++ tr') /\ loaded m tr') w1.
Proof.
  intros [p Hm] D. destruct m as [id q]. simpl in Hm. subst q. unfold take_shard. apply wp_bind. do_call D.
  intros [] w2 D2. apply wp_bind, wp_ret. simpl. destruct p as [shard|err].
  - eapply wp_mono; [by apply shard_ok|]. intros [] w3 (bs & rs & D3 & Hlen & Hs).
    pose proof (acted_trans _ _ _ _ _ _ _ D2 D3) as D4. rewrite <- app_assoc in D4.
    eexists _, _. split; [exact D4|]. by exists bs, rs.
  - apply wp_ret. eexists _, _. split; [exact D2|]. done.
Qed.

(** The fleet runs a shard at most once. In any number of turns of the
    loop of [main] every message is acknowledged, once and before any of its
    load, so that it is never delivered again; then the shard it decodes to
    is run and ships exactly what its bots did; what does not decode is
    skipped. Nothing else is done, and nothing panics. *)
Theorem shards_run_at_most_once `{!ShardLaws} (n : nat) (w : World W shardState) :
  wp (fleet_main plan n) (fun _ w' => exists msgs tr,
    trace w' = trace w ++ tr /\ session shard_event loaded n msgs tr) w.
Proof.
  unfold fleet_main. eapply wp_mono.
  { eapply (turns_session _ _ shard_event loaded (fun m => is_Some m.2) _ (fun _ _ _ => True) _ _ n [] (local w) [] w w);
      [done|apply acted_refl].
    Unshelve.
    - intros w0 i tr Q w1 D HQ. eapply (acted_call_law _ _ _ (ReadShards streamLoad group 1)); [exact shard_payload|exact D|exact HQ].
    - done.
    - intros pre i tr m w0 w1 Hm _ D. eapply wp_mono; [by eapply take_shard_ok|].
      intros [] w2 (i' & tr' & D' & Hw). by exists i', tr'. }
  intros [] w' (i' & msgs & tr & (_ & Ht & _) & Hs & _). by exists msgs, tr.
Qed.
End main.
End flush.
End fleet.

(** ** Witness: two ticks, with the bots between the accesses *)

Definition demo_others : nat -> list bot_op := fun i =>
  match i with
  | 0%nat => [AddSent; RecordLat 1500; AddAcked]
  | 1%nat => [TickAck 7; AddSent]
  | 3%nat => [AddErrors]
  | 5%nat => [TickErr 8]
  | _ => []
  end.

Lemma shard_ships_what_happened_witness :
  let rest := [AddSent; RecordLat 90; AddAcked; TickAck 9] in
  wp (runShard (H := still_math) (Env0 := dead_engine) [demo_others; demo_others] rest demo_shard) (fun _ w' =>
    exists bs rs, trace w' = zip_with batch_event bs rs /\ length rs = length bs
    /\ map tb_final bs = [false; false; true]
    /\ Forall (fun b => tb_run b = "run1" /\ tb_shard b = 0 /\ tb_total b = 1) bs
    /\ (forall c, Forall (fun b => 0 <= tb_count c b) bs)
    /\ (forall c, total c bs = count (op_is c) (all_ops [demo_others; demo_others] rest))
    /\ forall t orders arrival, Forall2 ranges (map (tb_table t) bs) orders -> arrival ≡ₚ orders ->
         hist_of (keys (H := still_math) t (all_ops [demo_others; demo_others] rest)) (merge_all ∅ arrival)) demo_start.
Proof.
  intros rest. apply (shard_ships_what_happened (H := still_math) (Env0 := dead_engine)
    [demo_others; demo_others] rest demo_shard demo_start).
  vm_compute. discriminate.
Defined.

(** A stream of given messages, one list per read. *)
Definition shard_queue : Type := list (list (string * (LoadShard + string))).
Definition loading : Env shard_queue := fun c w =>
  match c return reply c * shard_queue with
  | ReadShards _ _ _ =>
      match w with [] => (FetchNil, []) | ms :: w' => (Fetched (map (fun m => (m.1, Some m.2)) ms), w') end
  | c => (default_reply c, w)
  end.

#[local] Instance loading_text : ShardLaws (Env0 := loading).
Proof.
  intros e r e'. unfold env_step, loading. destruct e as [|ms e]; intros Heq; injection Heq as <- _; [done|].
  apply Forall_forall. intros m (x & -> & _)%list_elem_of_fmap. by eexists.
Qed.

Definition demo_plan (id : string) : list (nat -> list bot_op) * list bot_op :=
  if String.eqb id "1" then ([demo_others; demo_others], [AddSent; TickAck 9]) else ([], []).
Definition demo_loading : World shard_queue shardState :=
  mkWorld [[("1", inl demo_shard)]; [("2", inr "unexpected end of JSON input")]] newShard [].

Lemma shards_run_at_most_once_witness :
  wp (fleet_main (H := still_math) (Env0 := loading) demo_plan 3) (fun _ w' => exists msgs tr,
    trace w' = tr /\ session shard_event (loaded (H := still_math) demo_plan) 3 msgs tr) demo_loading.
Proof.
  apply (shards_run_at_most_once (H := still_math) (Env0 := loading) demo_plan).
  - intros id. unfold demo_plan. destruct (String.eqb id "1"); vm_compute; discriminate.
  - exact loading_text.
Defined.
