(* ===== verification/Replicas.v ===== *)
(** * Replicas of a service on one stream

    Any number of replicas of the fleet ([src/cmd/botfleet/main.go]) claim
    messages of one stream through a consumer group, while others write to it,
    more of them join, and any of them may crash at any time. A step is one
    claim, one message taken, a crash, the start of one more replica, or what
    others do: between replicas only the stream is shared, and only a read of
    it claims. *)
From stdpp Require Import relations.
From S2P Require Import Prelude Protocol Float64 Text IO Consumer Counters Hist Bot BotTurn Fleet FleetProps.
Local Open Scope Z_scope.

(** The calls that claim messages. *)
Definition is_claim (c : call) : bool :=
  match c with ReadJobs _ _ _ | ReadShards _ _ _ | ReadBatches _ _ _ => true | _ => false end.

Section replicas.
Context {A W L : Type} `{!Env W}.
Context (start : M (World W L) ()) (read : M (World W L) (fetched A)) (handle : delivery A -> M (World W L) ()) (boot : L).

(** What the consumer group is: all messages ever written, and how many of
    them, the oldest, were claimed. *)
Context (stream : W -> list (delivery A)) (claimed : W -> nat).

Definition grows (e e' : W) : Prop := claimed e' = claimed e /\ stream e `prefix_of` stream e'.

(** What Redis promises of a read of new messages: it claims the next of them. *)
Definition read_from (e : W) (res : fetched A) (e' : W) : Prop :=
  stream e `prefix_of` stream e' /\
  match res with
  | Fetched msgs => claimed e' = (claimed e + length msgs)%nat
      /\ msgs = take (length msgs) (drop (claimed e) (stream e'))
  | _ => claimed e' = claimed e
  end.

(** The read of a turn of [consume], and what it leaves to do. *)
Definition claim : M (World W L) (list (delivery A)) :=
  res ← read;
  match res with
  | FetchNil => mret []
  | FetchErr _ => perform (Sleep (2 * 1000000000));; mret []
  | Fetched msgs => mret msgs
  end.

Lemma consume_claim w : consume read handle w = (msgs ← claim; for_each msgs handle) w.
Proof.
  unfold consume, claim, mbind, M_bind. destruct (read w) as [[res w1]| |]; [|done|done].
  destruct res as [|err|msgs]; [done| |done]. by destruct (perform _ w1) as [[[] w2]| |].
Qed.

(** A replica: the messages it claimed and has yet to take. *)
Record replica := mkReplica { rp_hand : list (delivery A); rp_local : L; rp_trace : list event }.

(** The replicas, and for the theorems what was taken, by whom, with the calls
    made for it, and what was claimed by a replica that crashed. *)
Record fleet := mkFleet {
  fl_env : W;
  fl_replicas : list replica;
  fl_taken : list (nat * delivery A * list event);
  fl_lost : list (delivery A)
}.

Definition world_of (e : W) (r : replica) : World W L := mkWorld e (rp_local r) (rp_trace r).
Definition replica_of (hand : list (delivery A)) (w : World W L) : replica := mkReplica hand (local w) (trace w).
Definition started : replica := mkReplica [] boot [].

Inductive work : fleet -> fleet -> Prop :=
| work_claim e rs tk ls k r msgs w :
    rs !! k = Some r -> rp_hand r = [] -> claim (world_of e r) = Ok (msgs, w) ->
    work (mkFleet e rs tk ls) (mkFleet (env w) (<[k := replica_of msgs w]> rs) tk ls)
| work_take e rs tk ls k r m rest w tr :
    rs !! k = Some r -> rp_hand r = m :: rest -> handle m (world_of e r) = Ok ((), w) -> trace w = rp_trace r ++ tr ->
    work (mkFleet e rs tk ls) (mkFleet (env w) (<[k := replica_of rest w]> rs) (tk ++ [(k, m, tr)]) ls)
| work_crash e rs tk ls k r tr e' :
    rs !! k = Some r -> runs e tr e' -> Forall (fun x => is_claim (called x) = false) tr ->
    work (mkFleet e rs tk ls) (mkFleet e' (<[k := started]> rs) tk (ls ++ rp_hand r))
| work_join e rs tk ls w :
    start (mkWorld e boot []) = Ok ((), w) -> work (mkFleet e rs tk ls) (mkFleet (env w) (rs ++ [replica_of [] w]) tk ls)
| work_other e rs tk ls e' :
    grows e e' -> work (mkFleet e rs tk ls) (mkFleet e' rs tk ls).

(** ** What every state satisfies *)

Context (ok : delivery A -> Prop) (did : delivery A -> list event -> Prop).

Context (Hok : forall e, Forall ok (stream e)).
Context (Hread : forall w, wp read (fun res w' => read_from (env w) res (env w')) w).
Context (Hother : forall c e r e', is_claim c = false -> env_step c e = (r, e') -> grows e e').
Context (Hhandle : forall m w, ok m -> wp (handle m) (fun _ w' => exists tr, trace w' = trace w ++ tr /\ did m tr /\ grows (env w) (env w')) w).

Context (Hstart : forall w, wp start (fun _ w' => grows (env w) (env w')) w).

Lemma grows_trans e1 e2 e3 : grows e1 e2 -> grows e2 e3 -> grows e1 e3.
Proof. intros [C1 P1] [C2 P2]. split; [congruence|by etrans]. Qed.

Lemma runs_grow e tr e' : runs e tr e' -> Forall (fun x => is_claim (called x) = false) tr -> grows e e'.
Proof.
  induction 1 as [e|e c r e1 tr e2 He _ IH]; intros Ha; [by split|]. apply Forall_cons in Ha as [Hc Ha].
  eapply grows_trans; [by eapply (Hother c)|by apply IH].
Qed.

Definition hands (s : fleet) : list (delivery A) := concat (map rp_hand (fl_replicas s)).
Definition taken (s : fleet) : list (delivery A) := map (fun x => x.1.2) (fl_taken s).

(** Every claimed message is in one place. *)
Record fleet_ok (s : fleet) : Prop := mkFleetOk {
  fk_claimed : (claimed (fl_env s) <= length (stream (fl_env s)))%nat;
  fk_places : hands s ++ taken s ++ fl_lost s ≡ₚ take (claimed (fl_env s)) (stream (fl_env s));
  fk_did : Forall (fun x => did x.1.2 x.2) (fl_taken s)
}.

Lemma prefix_take {B} (l l' : list B) n : l `prefix_of` l' -> (n <= length l)%nat -> take n l' = take n l.
Proof. intros [k ->] Hn. by rewrite take_app_le. Qed.

Lemma fleet_grows s s' :
  fleet_ok s -> grows (fl_env s) (fl_env s') -> hands s' ++ taken s' ++ fl_lost s' ≡ₚ hands s ++ taken s ++ fl_lost s ->
  Forall (fun x => did x.1.2 x.2) (fl_taken s') -> fleet_ok s'.
Proof.
  intros [Fc Fp Fd] [Hc Hp] Hperm Hd. split; [|by rewrite Hperm, Fp, Hc, (prefix_take _ _ _ Hp)|done].
  rewrite Hc. etrans; [exact Fc|]. by apply prefix_length.
Qed.

Lemma hands_insert rs k (r r' : replica) :
  rs !! k = Some r -> rp_hand r ++ concat (map rp_hand (<[k := r']> rs)) ≡ₚ rp_hand r' ++ concat (map rp_hand rs).
Proof.
  revert k. induction rs as [|x rs IH]; intros [|k] Hk; try done; simpl in *.
  - injection Hk as ->. by rewrite !app_assoc, (Permutation_app_comm (rp_hand r)).
  - rewrite (Permutation_app_swap_app (rp_hand r)), (IH k Hk). apply Permutation_app_swap_app.
Qed.

(** A replica lets go of [d]. *)
Lemma hands_release rs k (r r' : replica) d :
  rs !! k = Some r -> rp_hand r = d ++ rp_hand r' -> concat (map rp_hand rs) ≡ₚ d ++ concat (map rp_hand (<[k := r']> rs)).
Proof.
  intros Hk Hd. pose proof (hands_insert rs k r r' Hk) as Hi. rewrite Hd in Hi. apply (Permutation_app_inv_l (rp_hand r')).
  rewrite <- Hi, <- app_assoc. apply Permutation_app_swap_app.
Qed.

Lemma claim_ok w :
  wp claim (fun msgs w' => stream (env w) `prefix_of` stream (env w')
    /\ claimed (env w') = (claimed (env w) + length msgs)%nat
    /\ msgs = take (length msgs) (drop (claimed (env w)) (stream (env w')))) w.
Proof.
  unfold claim. apply wp_bind. eapply wp_mono; [apply Hread|]. intros res w1 [Hp Hres]. destruct res as [|err|msgs].
  - apply wp_ret. rewrite Nat.add_0_r. done.
  - apply wp_bind, (wp_perform (Sleep _)). intros [] e He. apply wp_ret. simpl.
    destruct (Hother (Sleep _) _ _ _ eq_refl He) as [Hc Hp']. rewrite Nat.add_0_r, Hc. split; [by etrans|done].
  - by apply wp_ret.
Qed.

Lemma hand_ok s k r m : fleet_ok s -> fl_replicas s !! k = Some r -> m ∈ rp_hand r -> ok m.
Proof.
  intros Hs Hk Hm. pose proof (Hok (fl_env s)) as Hall. rewrite Forall_forall in Hall. apply Hall.
  apply (elem_of_submseteq (take (claimed (fl_env s)) (stream (fl_env s)))); [|apply sublist_submseteq, sublist_take].
  rewrite <- (fk_places _ Hs). apply elem_of_app. left. apply list_elem_of_In, in_concat. exists (rp_hand r).
  split; [|by apply list_elem_of_In]. apply list_elem_of_In, list_elem_of_fmap. exists r. split; [done|by eapply list_elem_of_lookup_2].
Qed.

Lemma work_ok s s' : work s s' -> fleet_ok s -> fleet_ok s'.
Proof.
  destruct 1 as [e rs tk ls k r msgs w Hk Hh Hrun|e rs tk ls k r m rest w tr Hk Hh Hrun Htr|e rs tk ls k r tr e' Hk Hrun Htr|e rs tk ls w Hrun|e rs tk ls e' He];
    intros Hs.
  - destruct (claim_ok (world_of e r)) as (msgs' & w' & Hrun' & Hp & Hc & Hm). rewrite Hrun in Hrun'. injection Hrun' as <- <-.
    simpl in Hp, Hc, Hm. destruct Hs as [Fc Fp Fd]. unfold hands, taken in *. simpl in *.
    pose proof (hands_insert rs k r (replica_of msgs w) Hk) as Hi. rewrite Hh in Hi. simpl in Hi.
    pose proof (prefix_length _ _ Hp). assert (length msgs <= length (stream (env w)) - claimed e)%nat as Hlen.
    { rewrite Hm, length_take, length_drop. lia. }
    split; simpl; [lia| |done]. rewrite Hi, <- app_assoc, Fp, Hc, <- (prefix_take _ _ _ Hp Fc), Permutation_app_comm.
    rewrite Hm at 1. by rewrite <- take_take_drop.
  - assert (ok m) as Hm by (eapply hand_ok; [exact Hs|exact Hk|]; rewrite Hh; by left).
    destruct (Hhandle m (world_of e r) Hm) as ([] & w' & Hrun' & tr' & Htr' & Hd & Hg). rewrite Hrun in Hrun'.
    injection Hrun' as <-. simpl in Htr', Hg. rewrite Htr in Htr'. apply app_inv_head in Htr' as <-.
    eapply (fleet_grows _ _ Hs); [done| |].
    + unfold hands, taken. simpl. rewrite (hands_release rs k r (replica_of rest w) [m] Hk Hh), map_app. simpl.
      rewrite <- app_assoc. simpl. by rewrite (app_assoc _ (map _ tk)), <- Permutation_middle, <- app_assoc.
    + apply Forall_app. split; [apply Hs|]. by constructor.
  - eapply (fleet_grows _ _ Hs); [by eapply runs_grow| |apply Hs]. unfold hands, taken. simpl.
    rewrite (hands_release rs k r started (rp_hand r) Hk (eq_sym (app_nil_r _))).
    by rewrite <- (app_assoc (rp_hand r)), (Permutation_app_comm (rp_hand r)), <- !app_assoc.
  - destruct (Hstart (mkWorld e boot [])) as ([] & w' & Hrun' & Hg). rewrite Hrun in Hrun'. injection Hrun' as <-.
    apply (fleet_grows _ _ Hs); [done| |apply Hs]. unfold hands, taken. simpl. by rewrite map_app, concat_app, !app_nil_r.
  - by apply (fleet_grows _ _ Hs); [| |apply Hs].
Qed.

(** Replicas that have claimed nothing, in front of a stream of which nothing
    was claimed. *)
Definition fresh (s : fleet) : Prop :=
  Forall (fun r => rp_hand r = []) (fl_replicas s) /\ claimed (fl_env s) = 0%nat /\ fl_taken s = [] /\ fl_lost s = [].

Lemma idle_hands s : Forall (fun r => rp_hand r = []) (fl_replicas s) -> hands s = [].
Proof. unfold hands. induction 1 as [|r rs Hr _ IH]; [done|]. simpl. by rewrite Hr. Qed.

Lemma fresh_ok s : fresh s -> fleet_ok s.
Proof.
  intros (Hh & Hc & Ht & Hl). apply idle_hands in Hh. split; rewrite ?Hc; [lia| |by rewrite Ht].
  unfold taken. by rewrite Hh, Ht, Hl.
Qed.

Lemma works_ok s s' : rtc work s s' -> fleet_ok s -> fleet_ok s'.
Proof. induction 1; [done|]. intros. eauto using work_ok. Qed.

(** What is lost stays lost. *)
Lemma work_lost s s' : work s s' -> fl_lost s `prefix_of` fl_lost s'.
Proof. destruct 1; simpl; [done|done|by apply prefix_app_r|done|done]. Qed.

Lemma works_lost s s' : rtc work s s' -> fl_lost s `prefix_of` fl_lost s'.
Proof. induction 1; [done|]. etrans; [by eapply work_lost|done]. Qed.

(** When the ids of the stream differ, no message is in two places. *)
Lemma places_once s :
  fleet_ok s -> NoDup (map fst (stream (fl_env s))) -> NoDup (map fst (hands s ++ taken s ++ fl_lost s)).
Proof.
  intros Hs Hnd. eapply (NoDup_Permutation_proper _ _ (Permutation_map fst (fk_places _ Hs))).
  eapply sublist_NoDup; [exact Hnd|]. apply (fmap_sublist fst), sublist_take.
Qed.

(** Every replica can go on: it claims, or takes what it has claimed. *)
Lemma replica_goes_on s k r :
  fleet_ok s -> fl_replicas s !! k = Some r ->
  exists s', work s s' /\ match rp_hand r with
    | [] => fl_taken s' = fl_taken s /\ (claimed (fl_env s) <= claimed (fl_env s'))%nat
    | m :: _ => exists tr, fl_taken s' = fl_taken s ++ [(k, m, tr)]
    end.
Proof.
  destruct s as [e rs tk ls]. intros Hs Hk. simpl in *. destruct (rp_hand r) as [|m rest] eqn:Hh.
  - destruct (claim_ok (world_of e r)) as (msgs & w & Hrun & _ & Hc & _). eexists.
    split; [by eapply work_claim|]. simpl in *. split; [done|lia].
  - assert (ok m) as Hm by (eapply hand_ok; [exact Hs|exact Hk|]; rewrite Hh; by left).
    destruct (Hhandle m (world_of e r) Hm) as ([] & w & Hrun & tr & Htr & _). eexists.
    split; [by eapply work_take|]. by exists tr.
Qed.

(** Where the messages of the stream are, whatever the replicas did. *)
Lemma stream_shared s0 s :
  fresh s0 -> rtc work s0 s ->
  hands s ++ taken s ++ fl_lost s ≡ₚ take (claimed (fl_env s)) (stream (fl_env s))
  /\ (NoDup (map fst (stream (fl_env s))) -> NoDup (map fst (hands s ++ taken s ++ fl_lost s)))
  /\ Forall (fun x => did x.1.2 x.2) (fl_taken s)
  /\ (fl_lost s = [] -> hands s = [] -> claimed (fl_env s) = length (stream (fl_env s)) -> taken s ≡ₚ stream (fl_env s))
  /\ (forall s', rtc work s s' -> NoDup (map fst (stream (fl_env s'))) -> forall m, m ∈ fl_lost s -> m.1 ∉ map fst (taken s')).
Proof.
  intros H0 Hr. pose proof (works_ok _ _ Hr (fresh_ok _ H0)) as Hs. split_and!.
  - apply Hs.
  - by apply places_once.
  - apply Hs.
  - intros Hl Hh Hc. pose proof (fk_places _ Hs) as Hp. rewrite Hl, Hh, Hc, app_nil_r, firstn_all in Hp. exact Hp.
  - intros s' Hr' Hnd m Hm Ht. pose proof (places_once _ (works_ok _ _ Hr' Hs) Hnd) as Hn.
    rewrite !map_app in Hn. apply NoDup_app in Hn as (_ & _ & Hn). apply NoDup_app in Hn as (_ & Hn & _).
    apply (Hn _ Ht). destruct (works_lost _ _ Hr') as [k ->]. rewrite map_app. apply elem_of_app. left.
    by apply list_elem_of_fmap_2.
Qed.
(** The messages are shared: each one claimed is in one place, none in two; one
    that is taken was handled, one that is lost never is; with no crash and
    nothing left, every message was taken once; and every replica can go on. *)
Definition well_shared (s : fleet) : Prop :=
  (hands s ++ taken s ++ fl_lost s ≡ₚ take (claimed (fl_env s)) (stream (fl_env s))
   /\ (NoDup (map fst (stream (fl_env s))) -> NoDup (map fst (hands s ++ taken s ++ fl_lost s)))
   /\ Forall (fun x => did x.1.2 x.2) (fl_taken s)
   /\ (fl_lost s = [] -> hands s = [] -> claimed (fl_env s) = length (stream (fl_env s)) -> taken s ≡ₚ stream (fl_env s))
   /\ (forall s', rtc work s s' -> NoDup (map fst (stream (fl_env s'))) -> forall m, m ∈ fl_lost s -> m.1 ∉ map fst (taken s')))
  /\ forall k r, fl_replicas s !! k = Some r -> exists s', work s s' /\ match rp_hand r with
       | [] => fl_taken s' = fl_taken s /\ (claimed (fl_env s) <= claimed (fl_env s'))%nat
       | m :: _ => exists tr, fl_taken s' = fl_taken s ++ [(k, m, tr)]
       end.

Lemma replicas_share s0 s : fresh s0 -> rtc work s0 s -> well_shared s.
Proof.
  intros H0 Hr. split; [by eapply stream_shared|]. intros k r Hk. eapply replica_goes_on; [|exact Hk].
  by eapply works_ok, fresh_ok.
Qed.
End replicas.

(** ** The replicas of the fleet *)

Section fleet.
Context `{!Math} {W : Type} `{!Env W} (stream : W -> list (delivery LoadShard)) (claimed : W -> nat).

(** What Redis promises of a consumer group: a read of new messages claims the
    next of them, nothing else does, messages are only added, and the
    orchestrator gives each a payload. *)
Class GroupLaws : Prop := {
  group_read e r e' : env_step (ReadShards streamLoad group 1) e = (r, e') -> read_from stream claimed e r e';
  group_other c e r e' : is_claim c = false -> env_step c e = (r, e') -> grows stream claimed e e';
  group_payload e : Forall (fun m => is_Some m.2) (stream e)
}.

Context (plan : string -> list (nat -> list bot_op) * list bot_op).

Lemma loaded_claims_nothing m tr : loaded plan m tr -> Forall (fun x => is_claim (called x) = false) tr.
Proof.
  destruct m as [id [[shard|err]|]]; simpl; [|intros ->; by repeat constructor..].
  intros (bs & rs & -> & _ & _). constructor; [done|]. revert rs. induction bs as [|b bs IH]; intros [|r rs]; simpl; by constructor.
Qed.

Lemma take_shard_shared `{!GroupLaws} (Hplan : forall id, bounded (all_ops (plan id).1 (plan id).2)) m (w : World W shardState) :
  is_Some m.2 ->
  wp (take_shard plan m) (fun _ w' => exists tr, trace w' = trace w ++ tr /\ loaded plan m tr
    /\ grows stream claimed (env w) (env w')) w.
Proof.
  intros Hm. eapply wp_mono; [eapply (take_shard_ok plan Hplan m w w _ [] Hm), acted_refl|].
  intros [] w' (i & tr & (_ & Ht & Hr) & Hl). exists tr. split_and!; [done|done|].
  eapply runs_grow; [exact group_other|exact Hr|by eapply loaded_claims_nothing].
Qed.

(** C17. The load is shared. Any number of replicas of the fleet claim shards
    from one stream, in any interleaving, while the orchestrator adds shards,
    further replicas join and any replica crashes at any time, even in the middle of a shard. Every
    shard that was claimed is in exactly one place: with one replica, run by
    one replica, or lost with one that crashed; no shard is run twice; one that
    is run ships exactly what its bots did; one that is lost is never run. When
    no replica crashed and all is claimed and taken, every shard of the stream
    was run exactly once. A replica that has claimed a shard can run it, and
    one that has not can claim. *)
Theorem replicas_share_the_load `{!GroupLaws} (Hplan : forall id, bounded (all_ops (plan id).1 (plan id).2))
    (s0 s : fleet) :
  let step := work joinGroup (perform (ReadShards streamLoad group 1)) (take_shard plan) newShard stream claimed in
  fresh claimed s0 -> rtc step s0 s ->
  (hands s ++ taken s ++ fl_lost s ≡ₚ take (claimed (fl_env s)) (stream (fl_env s))
   /\ (NoDup (map fst (stream (fl_env s))) -> NoDup (map fst (hands s ++ taken s ++ fl_lost s)))
   /\ Forall (fun x => loaded plan x.1.2 x.2) (fl_taken s)
   /\ (fl_lost s = [] -> hands s = [] -> claimed (fl_env s) = length (stream (fl_env s)) -> taken s ≡ₚ stream (fl_env s))
   /\ (forall s', rtc step s s' -> NoDup (map fst (stream (fl_env s'))) -> forall m, m ∈ fl_lost s -> m.1 ∉ map fst (taken s')))
  /\ forall k r, fl_replicas s !! k = Some r -> exists s', step s s' /\ match rp_hand r with
       | [] => fl_taken s' = fl_taken s /\ (claimed (fl_env s) <= claimed (fl_env s'))%nat
       | m :: _ => exists tr, fl_taken s' = fl_taken s ++ [(k, m, tr)]
       end.
Proof.
  intros step Hfresh Hr. apply (replicas_share _ _ _ _ stream claimed (fun m => is_Some m.2) (loaded plan)) with s0; [| | | | |done..].
  - exact group_payload.
  - intros w. apply (wp_perform (ReadShards _ _ _)). intros r e He. exact (group_read _ _ _ He).
  - exact group_other.
  - exact (take_shard_shared Hplan).
  - intros w. apply (wp_perform (XGroupCreateMkStream _ _ _)). intros r e He. by eapply (group_other (XGroupCreateMkStream _ _ _)); [|exact He].
Qed.
End fleet.

(** ** Witness: a second replica joins, and crashes with its shard *)

(** A stream of given messages, and how many of them were claimed. *)
Definition shared_queue : Type := list (string * (LoadShard + string)) * nat.
Definition all_shards (w : shared_queue) : list (delivery LoadShard) := map (fun m => (m.1, Some m.2)) w.1.
Definition sharing : Env shared_queue := fun c w =>
  match c return reply c * shared_queue with
  | ReadShards _ _ _ =>
      match drop w.2 (all_shards w) with [] => (FetchNil, w) | m :: _ => (Fetched [m], (w.1, S w.2)) end
  | c => (default_reply c, w)
  end.

#[local] Existing Instances sharing still_math.

#[local] Instance sharing_laws : GroupLaws all_shards snd.
Proof.
  split.
  - intros e r e'. unfold env_step, sharing. destruct (drop e.2 (all_shards e)) as [|m ms] eqn:Hd;
      intros Heq; injection Heq as <- <-; [done|]. split; [done|]. simpl. split; [lia|].
    change (all_shards (e.1, S e.2)) with (all_shards e). by rewrite Hd.
  - intros c e r e' Hc. unfold env_step, sharing. destruct c; try discriminate Hc; intros Heq; injection Heq as _ <-; by split.
  - intros e. apply Forall_forall. intros m (x & -> & _)%list_elem_of_fmap. by eexists.
Qed.

Definition demo_state : Type := fleet (A := LoadShard) (W := shared_queue) (L := shardState).
Definition demo_fleet : demo_state :=
  mkFleet ([("1", inl demo_shard); ("2", inl demo_shard)], 0%nat) [started newShard] [] [].

Lemma replicas_share_the_load_witness : exists s : demo_state,
  map fst (taken s) = ["1"] /\ map fst (fl_lost s) = ["2"] /\ NoDup (map fst (hands s ++ taken s ++ fl_lost s)).
Proof.
  assert (exists s, rtc (work joinGroup (perform (ReadShards streamLoad group 1)) (take_shard demo_plan) newShard all_shards snd) demo_fleet s
    /\ map fst (taken s) = ["1"] /\ map fst (fl_lost s) = ["2"] /\ NoDup (map fst (all_shards (fl_env s)))) as (s & Hr & Ht & Hl & Hn).
  { eexists. split.
    - eapply rtc_l; [eapply work_join; vm_compute; reflexivity|].
      eapply rtc_l; [eapply (work_claim _ _ _ _ _ _ _ _ _ _ 0); [reflexivity|reflexivity|vm_compute; reflexivity]|].
      eapply rtc_l; [eapply (work_claim _ _ _ _ _ _ _ _ _ _ 1); [reflexivity|reflexivity|vm_compute; reflexivity]|].
      eapply rtc_l; [eapply (work_crash _ _ _ _ _ _ _ _ _ _ 1 _ []); [reflexivity|apply runs_nil|constructor]|].
      eapply rtc_l; [eapply (work_take _ _ _ _ _ _ _ _ _ _ 0); [reflexivity|reflexivity|vm_compute; reflexivity|reflexivity]|].
      apply rtc_refl.
    - split; [reflexivity|]. split; [reflexivity|]. vm_compute. decide_now. }
  exists s. split; [exact Ht|]. split; [exact Hl|].
  assert (forall id, bounded (all_ops (demo_plan id).1 (demo_plan id).2)) as Hplan.
  { intros id. unfold demo_plan. destruct (String.eqb id "1"); vm_compute; discriminate. }
  assert (fresh snd demo_fleet) as Hfresh by (split; [repeat constructor|repeat split]).
  exact (proj1 (proj2 (proj1 (replicas_share_the_load all_shards snd demo_plan Hplan demo_fleet s Hfresh Hr))) Hn).
Defined.
