(* ===== verification/Ingester.v ===== *)
(** * The ingester: [src/cmd/ingester/main.go]

    Batches are folded into one aggregate per run; a run whose shards have all
    sent their final batch, or that has gone silent, is finalized: its metrics
    and its score are computed, written to Redis, and the leaderboard keeps
    the best run of each submission.

    The aggregates are heap objects: the map [runs] points at them, and
    [live] and [finalize] work on the pointer they are given. *)
From S2P Require Import Prelude Protocol Float64 Text IO Consumer Counters Hist Score.
Local Open Scope Z_scope.

Definition second : Z := 1000000000.
Definition streamTele : string := "telemetry.raw".
Definition group : string := "ingest".
Definition staleAfter : Z := 60 * second.
Definition keySnapshot : string := "leaderboard:snapshot".
Definition chanEvents : string := "events.leaderboard".

Record runAgg := mkAgg {
  ag_hist : gmap Z Z;
  ag_secAcks : gmap Z Z;
  ag_secErrs : gmap Z Z;
  ag_sent : Z;
  ag_acked : Z;
  ag_errors : Z;
  ag_violations : Z;
  ag_samples : list string;
  ag_totalShards : Z;
  ag_finalShards : gset Z; (* the keys of the Go map: its values are all true *)
  ag_lastSeen : Z;
  ag_finalized : bool
}.

Definition newAgg : runAgg := mkAgg ∅ ∅ ∅ 0 0 0 0 [] 0 ∅ 0 false.

Definition set_finalized (a : runAgg) : runAgg :=
  mkAgg (ag_hist a) (ag_secAcks a) (ag_secErrs a) (ag_sent a) (ag_acked a) (ag_errors a)
        (ag_violations a) (ag_samples a) (ag_totalShards a) (ag_finalShards a) (ag_lastSeen a) true.

(** The process: [runs] with the objects it points at, and [liveThrottle]. *)
Record ingester := mkIngester {
  ing_runs : gmap string N;
  ing_aggs : gmap N runAgg;
  ing_next : N;
  ing_throttle : gmap string Z
}.

Definition set_runs (m : gmap string N) (i : ingester) : ingester :=
  mkIngester m (ing_aggs i) (ing_next i) (ing_throttle i).
Definition set_agg (p : N) (a : runAgg) (i : ingester) : ingester :=
  mkIngester (ing_runs i) (<[p := a]> (ing_aggs i)) (ing_next i) (ing_throttle i).
Definition set_throttle (run : string) (t : Z) (i : ingester) : ingester :=
  mkIngester (ing_runs i) (ing_aggs i) (ing_next i) (<[run := t]> (ing_throttle i)).

(** The aggregate of a run, made when it is missing. *)
Definition find_agg (run : string) (i : ingester) : N * ingester :=
  match ing_runs i !! run with
  | Some p => (p, i)
  | None =>
      let p := ing_next i in
      (p, mkIngester (<[run := p]> (ing_runs i)) (<[p := newAgg]> (ing_aggs i))
                     (N.succ p) (ing_throttle i))
  end.

(** The order in which a [range] visits a map. *)
Class RangeOrder := {
  range_counts : gmap Z Z -> list (Z * Z);
  range_runs : gmap string N -> list (string * N)
}.

Class RangeLaws `{!RangeOrder} : Prop := {
  range_counts_ok m : range_counts m ≡ₚ map_to_list m;
  range_runs_ok m : range_runs m ≡ₚ map_to_list m
}.

Section ingester.
Context `{!Math, !RangeOrder}.

(** ** Folding a batch *)

(** What [absorb] does to the aggregate of a run that is not finalized. *)
Definition fold_batch (now : Z) (b : TelemetryBatch) (a : runAgg) : runAgg :=
  mkAgg
    (Merge (ag_hist a) (range_counts (tb_hist b)))
    (fold_into (ag_secAcks a) (range_counts (tb_sec_acks b)))
    (fold_into (ag_secErrs a) (range_counts (tb_sec_errs b)))
    (Int64.add (ag_sent a) (tb_sent b))
    (Int64.add (ag_acked a) (tb_acked b))
    (Int64.add (ag_errors a) (tb_errors b))
    (Int64.add (ag_violations a) (tb_violations b))
    (if (length (ag_samples a) <? 10)%nat then ag_samples a ++ tb_samples b else ag_samples a)
    (tb_total b)
    (if tb_final b then {[tb_shard b]} ∪ ag_finalShards a else ag_finalShards a)
    now
    (ag_finalized a).

(** [complete] *)
Definition complete (a : runAgg) : bool :=
  (0 <? ag_totalShards a) && (ag_totalShards a <=? Z.of_nat (size (ag_finalShards a))).

(** ** Metrics *)

Record metrics := mkMetrics {
  m_p50 : Z;
  m_p90 : Z;
  m_p99 : Z;
  m_tps : F64.t;
  m_correctness : F64.t;
  m_errRate : F64.t
}.

(** One turn of the loop over the seconds. *)
Definition tps_step (a : runAgg) (tps : F64.t) (s : Z) : F64.t :=
  let acks := F64.of_Z (at_key (ag_secAcks a) s) in
  let errs := F64.of_Z (at_key (ag_secErrs a) s) in
  if F64.eqb (F64.add acks errs) (F64.of_Z 0)
     || F64.leb (F64.dec 1 2) (F64.div errs (F64.add acks errs)) then tps
  else if F64.ltb tps acks then acks else tps.

Definition max_tps (a : runAgg) : F64.t :=
  foldl (tps_step a) F64.zero (merge_sort Z.le (range_counts (ag_secAcks a)).*1).

Definition correctness_of (a : runAgg) : F64.t :=
  if 0 <? ag_acked a then
    let c := F64.sub (F64.of_Z 1) (F64.div (F64.of_Z (ag_violations a)) (F64.of_Z (ag_acked a))) in
    if F64.ltb c (F64.of_Z 0) then F64.of_Z 0 else c
  else F64.zero.

Definition errRate_of (a : runAgg) : F64.t :=
  if 0 <? ag_sent a then F64.div (F64.of_Z (ag_errors a)) (F64.of_Z (ag_sent a)) else F64.zero.

(** [None] is a panic of [Quantile]. *)
Definition compute (a : runAgg) : option metrics :=
  p50 ← Quantile (ag_hist a) (range_counts (ag_hist a)) (F64.dec 50 2);
  p90 ← Quantile (ag_hist a) (range_counts (ag_hist a)) (F64.dec 90 2);
  p99 ← Quantile (ag_hist a) (range_counts (ag_hist a)) (F64.dec 99 2);
  Some (mkMetrics p50 p90 p99 (max_tps a) (correctness_of a) (errRate_of a)).

(** ** The handlers *)

Section handlers.
Context {W : Type} `{!Env W, !Strconv} (pgDSN : string).

Definition Ing (A : Type) : Type := M (World W ingester) A.

Definition load_agg (p : N) : Ing runAgg := i ← get_local; orPanic (ing_aggs i !! p).

(** The fields written for a run; a map in the code, so in no order. *)
Definition result_fields (m : metrics) (a : runAgg) (sc : F64.t) (final : bool) : list (string * value) :=
  [("p50_us", VInt (Z.quot (m_p50 m) 1000)); ("p90_us", VInt (Z.quot (m_p90 m) 1000));
   ("p99_us", VInt (Z.quot (m_p99 m) 1000));
   ("tps", VStr (fixed 0 (m_tps m)));
   ("correctness", VStr (fixed 4 (m_correctness m)));
   ("err_rate", VStr (fixed 4 (m_errRate m)));
   ("sent", VInt (ag_sent a)); ("acked", VInt (ag_acked a));
   ("errors", VInt (ag_errors a)); ("violations", VInt (ag_violations a))]
  ++ (match ag_samples a with [] => [] | l => [("violation_samples", VStr (join " | " l))] end)
  ++ (if final then [("score", VStr (fixed 2 sc))] else []).

Definition writeResult (runID : string) (m : metrics) (a : runAgg) (sc : F64.t) (final : bool) : Ing () :=
  perform (HSet ("result:" +:+ runID) (result_fields m a sc final)).

Definition live (runID : string) (p : N) : Ing () :=
  i ← get_local;
  recent ← (match ing_throttle i !! runID with
            | Some t => now ← perform Now; mret (Int64.sub now t <? second)
            | None => mret false
            end);
  if recent : bool then mret ()
  else
    now ← perform Now;
    modify_local (set_throttle runID now);;
    a ← load_agg p;
    m ← orPanic (compute a);
    a ← load_agg p;
    writeResult runID m a F64.zero false.

(** [HGetAll] of a row of the board. *)
Definition board_row (rank : Z) (sub_id : string) (score : F64.t) : Ing boardRow :=
  sub ← perform (HGetAll ("submission:" +:+ sub_id));
  runID ← perform (GetKey ("best:" +:+ sub_id));
  let runID := default "" runID in
  res ← perform (HGetAll ("result:" +:+ runID));
  let get (m : gmap string string) k := default "" (m !! k) in
  mret (mkRow rank sub_id (get sub "team") (get sub "name") runID score
          (parseInt (get res "p50_us")) (parseInt (get res "p99_us"))
          (parseFloat (get res "tps")) (parseFloat (get res "correctness"))).

Fixpoint board_rows (rank : Z) (members : list (string * F64.t)) : Ing (list boardRow) :=
  match members with
  | [] => mret []
  | (sub_id, score) :: members' =>
      row ← board_row rank sub_id score;
      rows ← board_rows (rank + 1) members';
      mret (row :: rows)
  end.

Definition publishSnapshot : Ing () :=
  members ← perform (ZRevRange "leaderboard" 0 24);
  match members with
  | None => mret ()
  | Some members =>
      rows ← board_rows 1 members;
      perform (SetBoard keySnapshot rows);;
      perform (Publish chanEvents rows)
  end.

(** The row handed to TimescaleDB; the connection, the schema and the insert
    are best-effort and their errors only logged. *)
Definition persist (runID subID : string) (m : metrics) (sc : F64.t) (a : runAgg) : Ing () :=
  if String.eqb pgDSN "" then mret ()
  else perform (Archive
    [("run_id", VStr runID); ("submission_id", VStr subID);
     ("p50_us", VInt (Z.quot (m_p50 m) 1000)); ("p90_us", VInt (Z.quot (m_p90 m) 1000));
     ("p99_us", VInt (Z.quot (m_p99 m) 1000));
     ("tps", VFloat (m_tps m)); ("correctness", VFloat (m_correctness m)); ("score", VFloat sc);
     ("sent", VInt (ag_sent a)); ("acked", VInt (ag_acked a));
     ("errors", VInt (ag_errors a)); ("violations", VInt (ag_violations a))]).

(** The leaderboard keeps each submission's best run. *)
Definition update_board (runID subID : string) (sc : F64.t) : Ing () :=
  if String.eqb subID "" then mret ()
  else
    cur ← perform (ZScore "leaderboard" subID);
    if (match cur with None => true | Some c => F64.leb c sc end) then
      perform (ZAdd "leaderboard" sc subID);;
      perform (SetKey ("best:" +:+ subID) runID)
    else mret ().

Definition finalize (runID : string) (p : N) : Ing () :=
  a ← load_agg p;
  m ← orPanic (compute a);
  v ← perform (HGet ("run:" +:+ runID) "conformance_score");
  let conf := match v with Some s => parseFloat s | None => F64.zero end in
  let sc := Composite (m_p99 m) (m_tps m) (m_correctness m) conf in
  a ← load_agg p;
  writeResult runID m a sc true;;
  now ← perform Now;
  perform (HSet ("run:" +:+ runID) [("status", VStr "done"); ("finished", VInt (now / second))]);;
  subID ← perform (HGet ("run:" +:+ runID) "submission_id");
  let subID := default "" subID in
  update_board runID subID sc;;
  publishSnapshot;;
  a ← load_agg p;
  persist runID subID m sc a;;
  modify_local (fun i => set_runs (delete runID (ing_runs i)) i).

(** The critical section of [absorb]: the aggregate the batch was folded into
    and whether that completed it, or nothing for a finalized run. *)
Definition absorb_locked (b : TelemetryBatch) : Ing (option (N * bool)) :=
  i ← get_local;
  let '(p, i) := find_agg (tb_run b) i in
  put_local i;;
  a ← load_agg p;
  if ag_finalized a then mret None
  else
    now ← perform Now;
    let a := fold_batch now b a in
    if complete a then modify_local (set_agg p (set_finalized a));; mret (Some (p, true))
    else modify_local (set_agg p a);; mret (Some (p, false)).

Definition absorb (b : TelemetryBatch) : Ing () :=
  r ← absorb_locked b;
  match r with
  | None => mret ()
  | Some (p, complete) => if complete : bool then finalize (tb_run b) p else live (tb_run b) p
  end.

(** The critical section of a tick of [sweep]: the runs found stale, marked. *)
Fixpoint mark_stale (entries : list (string * N)) : Ing (list string) :=
  match entries with
  | [] => mret []
  | (id, p) :: entries' =>
      a ← load_agg p;
      stale ← (if ag_finalized a then mret false
               else now ← perform Now; mret (staleAfter <? Int64.sub now (ag_lastSeen a)));
      if stale : bool then
        modify_local (set_agg p (set_finalized a));;
        ids ← mark_stale entries';
        mret (id :: ids)
      else mark_stale entries'
  end.

Fixpoint finalize_all (ids : list string) : Ing () :=
  match ids with
  | [] => mret ()
  | id :: ids' =>
      i ← get_local;
      p ← orPanic (ing_runs i !! id);
      finalize id p;;
      finalize_all ids'
  end.

Definition sweep_tick : Ing () :=
  i ← get_local;
  stale ← mark_stale (range_runs (ing_runs i));
  finalize_all stale.

(** ** The stream of batches *)

(** What [main] does first: the group starts at the oldest message, unless it
    exists already, when the error is dropped. *)
Definition joinGroup : Ing () := perform (XGroupCreateMkStream streamTele group "0").

(** One message of [main]: a payload that is no text panics, one that does not
    decode is skipped, and the message is acknowledged. *)
Definition ingest (m : delivery TelemetryBatch) : Ing () :=
  payload ← orPanic m.2;
  (match payload with inl b => absorb b | inr _ => mret () end);;
  perform (XAck streamTele group m.1).

(** The first [n] turns of [main]. *)
Definition ingester_main (n : nat) : Ing () := turns n (consume (perform (ReadBatches streamTele group 64)) ingest).
End handlers.
End ingester.
