(* ===== verification/IngesterMetrics.v ===== *)
(** * The ingester's metrics: theorems

    [compute] in exact terms: which second the throughput is of, where the
    three percentiles lie among the observations, when the correctness is
    perfect. *)
From S2P Require Import Prelude Protocol Float64 Counters Hist HistProps Ingester.
Local Open Scope Z_scope.

(** A count that a double, and a hundred times it, holds exactly. *)
Definition small_count (z : Z) : Prop := 0 <= z <= 2 ^ 50.

(** ** The error rate test of a second *)

(** The double 0.01, and the one below it. *)
Definition one_percent : Z := F64.rne F64.one_u 100.
Definition below_one_percent : Z := one_percent - 2 ^ 1015.

Lemma below_one_percent_repr : F64.repr below_one_percent.
Proof. exists 5764607523034234, 1015. split_and!; [vm_compute; discriminate..|by vm_compute]. Qed.

Lemma below_one_percent_lower : F64.one_u * (2 ^ 51 - 1) <= 100 * below_one_percent * 2 ^ 51.
Proof. vm_compute. discriminate. Qed.

Lemma one_percent_num : F64.num (F64.dec 1 2) one_percent.
Proof.
  pose proof (F64.dec_num 1 2 ltac:(lia) ltac:(lia)) as Hn. rewrite Z.mul_1_l in Hn. apply Hn.
  vm_compute. discriminate.
Qed.

(** The rounding of a rate is at least 0.01 exactly when the rate is. *)
Lemma rate_at_least_one_percent e n :
  0 <= e -> 0 < n <= 2 ^ 51 -> one_percent <= F64.srne (e * F64.one_u) n <-> n <= 100 * e.
Proof.
  intros He Hn. pose proof F64.one_u_pos as H1. split.
  - intros Hle. apply Znot_gt_le. intros Hlt.
    pose proof (F64.srne_le (e * F64.one_u) n below_one_percent ltac:(lia) below_one_percent_repr) as Hsr.
    assert (below_one_percent < one_percent) by (unfold below_one_percent; pose proof (Z.pow_pos_nonneg 2 1015); lia).
    pose proof below_one_percent_lower as Hlow. generalize dependent below_one_percent. intros g Hsr Hg Hlow.
    set (u := F64.one_u) in *. assert (e * u <= g * n); [|lia].
    assert (100 * (e * u) <= 100 * (g * n)); [|lia].
    assert (n * (u * (2 ^ 51 - 1)) <= n * (100 * g * 2 ^ 51)) as Hlow' by (apply Z.mul_le_mono_nonneg_l; lia).
    assert ((n - 1) * u * 2 ^ 51 <= n * (u * (2 ^ 51 - 1))) by nia.
    assert (100 * (e * u) <= (n - 1) * u) by nia. nia.
  - intros Hle. unfold one_percent.
    rewrite <- (F64.srne_scale 100 (e * F64.one_u) n), <- (F64.rne_scale n F64.one_u 100) by lia.
    rewrite F64.srne_rne by nia. rewrite (Z.mul_comm n 100).
    apply F64.rne_mono; nia.
Qed.

Lemma eqb_units u a b : 0 < u -> (a * u =? b * u) = (a =? b).
Proof.
  intros Hu. destruct (Z.eqb_spec a b) as [->|Hne]; [apply Z.eqb_refl|]. apply Z.eqb_neq.
  intros Heq. by apply Z.mul_cancel_r in Heq; [|lia].
Qed.

Lemma ltb_units u a b : 0 < u -> (a * u <? b * u) = (a <? b).
Proof.
  intros Hu. destruct (Z.ltb_spec a b); [apply Z.ltb_lt|apply Z.ltb_ge].
  - by apply Z.mul_lt_mono_pos_r.
  - by apply Z.mul_le_mono_pos_r.
Qed.

(** The quotient of two counts. *)
Lemma count_ratio_num X N y n :
  F64.num X (y * F64.one_u) -> F64.num N (n * F64.one_u) -> 0 <= y <= 2 ^ 53 -> 0 < n ->
  F64.num (F64.div X N) (F64.srne (y * F64.one_u) n).
Proof.
  intros HX HN Hy Hn. pose proof F64.one_u_pos as H1.
  rewrite <- (F64.srne_scale F64.one_u) by lia.
  replace (F64.one_u * (y * F64.one_u)) with (y * F64.one_u * F64.one_u) by ring.
  rewrite (Z.mul_comm F64.one_u n). apply F64.div_num; [done|done|nia|].
  assert (y * F64.one_u <= F64.big_u) as Hb.
  { transitivity (2 ^ 53 * F64.one_u); [nia|vm_compute; discriminate]. }
  revert Hb H1. generalize F64.one_u F64.big_u. intros u b Hb Hu. rewrite Z.abs_eq by nia.
  transitivity (b * u); [nia|]. assert (0 <= b) by nia. apply Z.mul_le_mono_nonneg_l; nia.
Qed.

(** ** Throughput *)

Section metrics.
Context `{!Math, !RangeOrder}.

Definition acks_at (a : runAgg) (s : Z) : Z := at_key (ag_secAcks a) s.
Definition errs_at (a : runAgg) (s : Z) : Z := at_key (ag_secErrs a) s.

(** Fewer than one request in a hundred failed in the second [s]. *)
Definition clean (a : runAgg) (s : Z) : Prop :=
  0 < acks_at a s + errs_at a s /\ 100 * errs_at a s < acks_at a s + errs_at a s.

Definition seconds_small (a : runAgg) : Prop :=
  forall s, small_count (acks_at a s) /\ small_count (errs_at a s).

(** The dirty seconds are skipped, the clean ones compared. *)
Lemma tps_step_ok a s t :
  seconds_small a -> small_count t ->
  exists t', tps_step a (F64.of_Z t) s = F64.of_Z t' /\ small_count t'
  /\ (clean a s -> t' = Z.max t (acks_at a s)) /\ (~ clean a s -> t' = t).
Proof.
  intros Hs Ht. destruct (Hs s) as [Ha He]. unfold tps_step. fold (acks_at a s) (errs_at a s).
  unfold small_count in *. set (x := acks_at a s) in *. set (y := errs_at a s) in *.
  pose proof F64.one_u_pos as H1.
  assert (F64.num (F64.add (F64.of_Z x) (F64.of_Z y)) ((x + y) * F64.one_u)) as Hsum.
  { pose proof (F64.add_num _ _ _ _ (F64.of_Z_num_exact x ltac:(lia)) (F64.of_Z_num_exact y ltac:(lia))) as Hn.
    rewrite <- Z.mul_add_distr_r in Hn.
    pose proof (F64.srne_exact ((x + y) * F64.one_u) 1 ltac:(lia) (F64.repr_units (x + y) ltac:(lia))) as Hx.
    rewrite Z.mul_1_r in Hx. rewrite Hx in Hn. apply Hn.
    rewrite Z.abs_eq by nia. transitivity (2 ^ 51 * F64.one_u); [nia|vm_compute; discriminate]. }
  rewrite (F64.eqb_num _ _ _ _ Hsum (F64.of_Z_num_exact 0 ltac:(lia))).
  rewrite (F64.ltb_num _ _ _ _ (F64.of_Z_num_exact t ltac:(lia)) (F64.of_Z_num_exact x ltac:(lia))).
  rewrite eqb_units, ltb_units by done. unfold clean. fold x y.
  destruct (Z.eqb_spec (x + y) 0) as [Hz|Hz]; simpl.
  { exists t. split_and!; [done|lia|lia|lia|lia]. }
  rewrite (F64.leb_num _ _ _ _ one_percent_num
             (count_ratio_num _ _ _ _ (F64.of_Z_num_exact y ltac:(lia)) Hsum ltac:(lia) ltac:(lia))).
  pose proof (rate_at_least_one_percent y (x + y) ltac:(lia) ltac:(lia)) as Hrate.
  destruct (Z.leb_spec one_percent (F64.srne (y * F64.one_u) (x + y))) as [Hle|Hgt].
  - exists t. apply Hrate in Hle. split_and!; done || lia.
  - assert (~ x + y <= 100 * y) by (intros ?%Hrate; lia).
    destruct (Z.ltb_spec t x); [exists x|exists t]; split_and!; done || lia.
Qed.

Lemma tps_loop_ok a keys t :
  seconds_small a -> small_count t ->
  exists t', foldl (tps_step a) (F64.of_Z t) keys = F64.of_Z t'
  /\ small_count t' /\ t <= t'
  /\ (t' = t \/ exists s, s ∈ keys /\ clean a s /\ t' = acks_at a s)
  /\ forall s, s ∈ keys -> clean a s -> acks_at a s <= t'.
Proof.
  intros Hs. revert t. induction keys as [|s keys IH]; intros t Ht.
  - exists t. split_and!; [done|done|done|by left|]. by intros s ?%elem_of_nil.
  - simpl. destruct (tps_step_ok a s t Hs Ht) as (t1 & -> & Ht1 & Hc & Hd).
    destruct (IH t1 Ht1) as (t2 & -> & Ht2 & Hle & Hor & Hall).
    assert (t1 = t /\ ~ clean a s \/ t1 = Z.max t (acks_at a s) /\ clean a s) as Hcase.
    { destruct (decide (clean a s)); naive_solver. }
    exists t2. split_and!; [done|done|lia| |].
    + destruct Hor as [->|(s' & ? & ? & ->)]; [|right; exists s'; set_solver].
      destruct Hcase as [[-> _]|[-> Hcl]]; [by left|].
      destruct (Z.max_spec t (acks_at a s)) as [[_ ->]|[_ ->]]; [|by left].
      right. exists s. split_and!; [by left|done|done].
    + intros s' [->|Hin]%elem_of_cons Hcl; [|by apply Hall].
      destruct Hcase as [[_ ?]|[? _]]; [done|lia].
Qed.

(** ** Correctness *)

(** [1 - v/n], rounded twice, in units. *)
Definition correct_u (v n : Z) : Z := Z.max 0 (F64.srne (F64.one_u - F64.srne (v * F64.one_u) n) 1).

Lemma ratio_u_bounds v n : 0 <= v <= 2 ^ 53 -> 0 < n -> 0 <= F64.srne (v * F64.one_u) n <= 2 ^ 53 * F64.one_u.
Proof.
  intros Hv Hn. pose proof F64.one_u_pos as H1. split; [apply F64.srne_nonneg; nia|].
  apply F64.srne_le; [lia|apply F64.repr_units; lia|]. revert H1. generalize F64.one_u. intros u Hu.
  transitivity (2 ^ 53 * u); [nia|]. assert (0 < 2 ^ 53 * u) by lia. nia.
Qed.

Lemma correctness_of_num a :
  0 < ag_acked a <= 2 ^ 53 -> 0 <= ag_violations a <= 2 ^ 53 ->
  F64.num (correctness_of a) (correct_u (ag_violations a) (ag_acked a)).
Proof.
  intros Hn Hv. unfold correctness_of, correct_u. rewrite (proj2 (Z.ltb_lt 0 _)) by lia. cbv zeta.
  pose proof (count_ratio_num _ _ _ _ (F64.of_Z_num_exact (ag_violations a) Hv)
                (F64.of_Z_num_exact (ag_acked a) ltac:(lia)) Hv ltac:(lia)) as Hr.
  pose proof (ratio_u_bounds _ _ Hv (proj1 Hn)) as Hb. set (r := F64.srne _ (ag_acked a)) in *.
  pose proof (F64.sub_num _ _ _ _ (F64.of_Z_num_exact 1 ltac:(lia)) Hr) as Hs.
  rewrite Z.mul_1_l in Hs. specialize (Hs ltac:(transitivity (2 ^ 53 * F64.one_u); [lia|vm_compute; discriminate])).
  pose proof (F64.of_Z_num_exact 0 ltac:(lia)) as Hz. rewrite Z.mul_0_l in Hz.
  rewrite (F64.ltb_num _ _ _ _ Hs Hz). set (c := F64.srne (F64.one_u - r) 1) in *.
  destruct (Z.ltb_spec c 0); [by rewrite Z.max_l by lia|by rewrite Z.max_r by lia].
Qed.

Lemma correct_u_range v n : 0 <= v -> 0 < n -> 0 <= correct_u v n <= F64.one_u.
Proof.
  intros Hv Hn. unfold correct_u. pose proof F64.one_u_pos as H1.
  pose proof (F64.srne_nonneg (v * F64.one_u) n ltac:(nia) Hn) as H2. split; [lia|].
  apply Z.max_lub; [lia|]. apply F64.srne_le; [lia| |lia].
  rewrite <- (Z.mul_1_l F64.one_u). apply F64.repr_units. lia.
Qed.

(** The distance from 1 to the double below it. *)
Definition last_place : Z := 2 ^ 1021.

Lemma last_place_split : F64.one_u = last_place * 2 ^ 53.
Proof. vm_compute. reflexivity. Qed.

Lemma last_place_pos : 0 < last_place.
Proof. done. Qed.

Lemma below_one_repr : F64.repr ((2 ^ 53 - 1) * last_place).
Proof. exists (2 ^ 53 - 1), 1021. done. Qed.

Lemma ratio_at_least_last_place v n :
  0 < v -> 0 < n <= 2 ^ 53 -> last_place <= F64.srne (v * F64.one_u) n.
Proof.
  intros Hv Hn. pose proof (F64.repr_pow 1021 ltac:(lia)) as Hrep. fold last_place in Hrep.
  rewrite last_place_split. pose proof last_place_pos as Hp. revert Hp Hrep. generalize last_place. intros p Hp Hrep.
  rewrite F64.srne_rne by nia. apply F64.rne_ge; [nia|lia|done|].
  transitivity (p * 2 ^ 53); [apply Z.mul_le_mono_nonneg_l; lia|].
  assert (0 <= p * 2 ^ 53) by lia. nia.
Qed.

Lemma correct_u_perfect v n :
  0 <= v -> 0 < n <= 2 ^ 53 -> correct_u v n = F64.one_u <-> v = 0.
Proof.
  intros Hv Hn. unfold correct_u. split.
  - intros Heq. destruct (decide (v = 0)) as [|Hne]; [done|exfalso].
    pose proof (ratio_at_least_last_place v n ltac:(lia) Hn) as Hr.
    pose proof (F64.srne_le (F64.one_u - F64.srne (v * F64.one_u) n) 1 _ ltac:(lia) below_one_repr) as Hle.
    pose proof last_place_split. pose proof last_place_pos. lia.
  - intros ->. rewrite Z.mul_0_l. pose proof (F64.srne_exact 0 n ltac:(lia) F64.repr_0) as Hzero.
    rewrite Z.mul_0_l in Hzero. rewrite Hzero, Z.sub_0_r.
    pose proof (F64.srne_exact F64.one_u 1 ltac:(lia)) as Hx. rewrite Z.mul_1_r in Hx.
    pose proof F64.one_u_pos.
    rewrite Hx; [lia|]. rewrite <- (Z.mul_1_l F64.one_u). apply F64.repr_units. lia.
Qed.

Lemma correct_u_antitone v v' n : v <= v' -> 0 < n -> correct_u v' n <= correct_u v n.
Proof.
  intros Hle Hn. unfold correct_u. apply Z.max_le_compat_l, F64.srne_mono; [|lia].
  pose proof F64.one_u_pos. pose proof (F64.srne_mono (v * F64.one_u) (v' * F64.one_u) n). nia.
Qed.

Lemma correct_u_none v n : n <= v -> 0 < n -> correct_u v n = 0.
Proof.
  intros Hle Hn. apply Z.le_antisymm; [|unfold correct_u; lia].
  etrans; [by apply (correct_u_antitone n v n)|]. unfold correct_u.
  pose proof (F64.srne_exact F64.one_u n Hn) as Hx. rewrite (Z.mul_comm n), Hx.
  - rewrite Z.sub_diag. pose proof (F64.srne_exact 0 1 ltac:(lia) F64.repr_0) as Hzero. rewrite Z.mul_0_l in Hzero. lia.
  - rewrite <- (Z.mul_1_l F64.one_u). apply F64.repr_units. lia.
Qed.

(** ** Percentiles *)

Definition rounded_product (u n : Z) : Z := F64.srne (u * (n * F64.one_u)) F64.one_u.

Lemma rank_of_eq u n :
  0 < u <= F64.one_u -> F64.repr u -> 0 < n <= 2 ^ 53 ->
  rank_of (F64.Fin false u) n = (rounded_product u n + F64.one_u - 1) / F64.one_u.
Proof.
  intros Hu Hrep Hn. unfold rank_of. rewrite F64.of_Z_exact by lia. pose proof F64.one_u_pos as H1.
  destruct (F64.mul_between 0 (n * F64.one_u) u (n * F64.one_u)) as (w & Hw & Hb & _).
  - apply F64.repr_0.
  - apply F64.repr_units. lia.
  - apply F64.units_lt_inf. lia.
  - revert H1 Hu. generalize F64.one_u. intros; nia.
  - pose proof (F64.mul_num (F64.Fin false u) (F64.Fin false (n * F64.one_u)) u (n * F64.one_u)) as Hm.
    rewrite Hw in Hm.
    assert (w = rounded_product u n) as ->.
    { eapply F64.num_inj; [apply F64.num_Fin; lia|]. apply Hm.
      - apply F64.num_Fin. lia.
      - apply F64.num_Fin. nia.
      - assert (n * F64.one_u <= F64.big_u) as Hbig.
        { transitivity (2 ^ 53 * F64.one_u); [nia|vm_compute; discriminate]. }
        revert Hbig Hu H1. generalize F64.one_u F64.big_u. intros o b Hbig Hu H1.
        rewrite Z.abs_eq by nia. rewrite (Z.mul_comm b o). apply Z.mul_le_mono_nonneg; nia. }
    rewrite Hw. simpl F64.ceil. clear Hw Hm. rewrite F64.to_int64_units; [done|].
    set (o := F64.one_u) in *. set (w := rounded_product u n) in *. split.
    + apply Z.div_pos; lia.
    + unfold Int64.max_val. assert ((w + o - 1) / o < n + 1); [|lia]. apply Z.div_lt_upper_bound; lia.
Qed.

Lemma rank_of_mono u u' n :
  0 < u <= u' -> u' <= F64.one_u -> F64.repr u -> F64.repr u' -> 0 < n <= 2 ^ 53 ->
  rank_of (F64.Fin false u) n <= rank_of (F64.Fin false u') n.
Proof.
  intros Hu Hu' Hr Hr' Hn. rewrite !rank_of_eq by (done || lia). pose proof F64.one_u_pos as H1.
  apply Z.div_le_mono; [lia|].
  assert (rounded_product u n <= rounded_product u' n); [|lia].
  apply F64.srne_mono; [|lia]. apply Z.mul_le_mono_nonneg_r; [nia|lia].
Qed.

(** A quantile of a larger fraction lies in no lower bucket. *)
Lemma ranks_ordered bs r r' b b' :
  r <= r' -> tally (fun x => x < b) bs < r -> r' <= tally (fun x => x <= b') bs -> b <= b'.
Proof.
  intros Hr Hb Hb'. apply Znot_gt_le. intros Hlt.
  assert (tally (fun x => x <= b') bs <= tally (fun x => x < b) bs) by (apply tally_mono; lia). lia.
Qed.

(** ** [compute] *)

Lemma quantile_total c q : is_Some (Quantile c (range_counts c) q).
Proof.
  unfold Quantile. case_match; [by eexists|].
  destruct (scan_rank _ _ _ _); [by eexists|]. apply fmap_is_Some, last_is_Some.
  intros Hnil. pose proof (merge_sort_Permutation Z.le (range_counts c).*1) as Hp.
  rewrite Hnil in Hp. apply Permutation_nil_l in Hp. symmetry in Hp. apply fmap_nil_inv in Hp. by rewrite Hp in *.
Qed.

Lemma compute_total a : is_Some (compute a).
Proof.
  unfold compute.
  destruct (quantile_total (ag_hist a) (F64.dec 50 2)) as [p50 ->]. simpl.
  destruct (quantile_total (ag_hist a) (F64.dec 90 2)) as [p90 ->]. simpl.
  destruct (quantile_total (ag_hist a) (F64.dec 99 2)) as [p99 ->]. simpl. by eexists.
Qed.

(** The three fractions. *)
Definition u50 : Z := F64.rne (50 * F64.one_u) (10 ^ 2).
Definition u90 : Z := F64.rne (90 * F64.one_u) (10 ^ 2).
Definition u99 : Z := F64.rne (99 * F64.one_u) (10 ^ 2).

Lemma fractions_ok :
  F64.dec 50 2 = F64.Fin false u50 /\ F64.dec 90 2 = F64.Fin false u90 /\ F64.dec 99 2 = F64.Fin false u99
  /\ 0 < u50 <= F64.one_u /\ 0 < u90 <= F64.one_u /\ 0 < u99 <= F64.one_u
  /\ u50 <= u90 /\ u90 <= u99.
Proof. split_and!; [vm_compute; (reflexivity || discriminate)..]. Qed.

Lemma u50_repr : F64.repr u50 /\ F64.repr u90 /\ F64.repr u99.
Proof.
  pose proof F64.one_u_pos. unfold u50, u90, u99. split_and!; apply F64.rne_repr; try done; lia.
Qed.

#[local] Opaque u50 u90 u99.

Lemma few_length bs : few bs -> bs <> [] -> 0 < Z.of_nat (length bs) <= 2 ^ 53.
Proof. unfold few. destruct bs; [done|simpl; lia]. Qed.

Lemma quantile_empty `{!RangeLaws} c q : hist_of [] c -> Quantile c (range_counts c) q = Some 0.
Proof.
  intros Hc. rewrite (hist_of_unique _ _ _ Hc hist_of_empty).
  pose proof (range_counts_ok ∅) as Hp. rewrite map_to_list_empty in Hp.
  apply Permutation_nil_r in Hp. unfold Quantile. by rewrite Hp.
Qed.

Lemma compute_percentiles a p50 p90 p99 :
  Quantile (ag_hist a) (range_counts (ag_hist a)) (F64.dec 50 2) = Some p50 ->
  Quantile (ag_hist a) (range_counts (ag_hist a)) (F64.dec 90 2) = Some p90 ->
  Quantile (ag_hist a) (range_counts (ag_hist a)) (F64.dec 99 2) = Some p99 ->
  compute a = Some (mkMetrics p50 p90 p99 (max_tps a) (correctness_of a) (errRate_of a)).
Proof. unfold compute. by intros -> -> ->. Qed.

(** The percentiles of a run. From the aggregate of any observations
    [compute] takes, without panic and for every range order, the values of
    the buckets of three of those observations: the ranks of 50, 90 and 99
    percent lie there, so that p50, p90 and p99 come from buckets in
    ascending order. Without observations all three are 0. *)
Theorem percentiles_are_ordered `{!RangeLaws} (a : runAgg) (bs : list Z) :
  few bs -> hist_of bs (ag_hist a) ->
  exists m, compute a = Some m
  /\ (bs = [] -> m_p50 m = 0 /\ m_p90 m = 0 /\ m_p99 m = 0)
  /\ (bs <> [] -> exists b50 b90 b99,
       [m_p50 m; m_p90 m; m_p99 m] = map bucketValue [b50; b90; b99]
       /\ b50 ∈ bs /\ b90 ∈ bs /\ b99 ∈ bs /\ b50 <= b90 <= b99
       /\ forall q b, (q, b) ∈ [(F64.dec 50 2, b50); (F64.dec 90 2, b90); (F64.dec 99 2, b99)] ->
            tally (fun x => x < b) bs < rank_of q (Z.of_nat (length bs)) <= tally (fun x => x <= b) bs).
Proof.
  intros Hf Hc. destruct fractions_ok as (E50 & E90 & E99 & B50 & B90 & B99 & H59 & H99). destruct u50_repr as (R50 & R90 & R99).
  destruct (decide (bs = [])) as [->|Hne].
  - eexists. split; [|split].
    + apply compute_percentiles; apply quantile_empty, Hc.
    + intros _. split_and!; reflexivity.
    + intros Hx. destruct Hx. reflexivity.
  - pose proof (range_counts_ok (ag_hist a)) as Hr. set (n := Z.of_nat (length bs)).
    pose proof (few_length bs Hf Hne) as Hn. fold n in Hn.
    destruct (quantile_scan bs _ _ u50 Hf Hne Hc Hr B50 R50) as (b50 & Q50 & I50 & L50).
    destruct (quantile_scan bs _ _ u90 Hf Hne Hc Hr B90 R90) as (b90 & Q90 & I90 & L90).
    destruct (quantile_scan bs _ _ u99 Hf Hne Hc Hr B99 R99) as (b99 & Q99 & I99 & L99).
    fold n in L50, L90, L99. rewrite <- E50 in Q50. rewrite <- E90 in Q90. rewrite <- E99 in Q99.
    eexists. split; [apply compute_percentiles; [apply Q50|apply Q90|apply Q99]|]. split; [intros Hx; destruct (Hne Hx)|].
    intros _. exists b50, b90, b99. split_and!; [reflexivity|exact I50|exact I90|exact I99|..].
    + eapply (ranks_ordered bs); [|apply L50|apply L90].
      exact (rank_of_mono _ _ n (conj (proj1 B50) H59) (proj2 B90) R50 R90 Hn).
    + eapply (ranks_ordered bs); [|apply L90|apply L99].
      exact (rank_of_mono _ _ n (conj (proj1 B90) H99) (proj2 B99) R90 R99 Hn).
    + intros q b Hin. rewrite !elem_of_cons, elem_of_nil in Hin. rewrite E50, E90, E99 in Hin.
      destruct Hin as [[= -> ->]|[[= -> ->]|[[= -> ->]|[]]]]; assumption.
Qed.

(** C32. The throughput of a run is the largest number of acks in one clean
    second: one in which fewer than 1 percent of the requests failed. The
    rounding of the error rate never decides. *)
Theorem throughput_is_best_clean_second `{!RangeLaws} (a : runAgg) :
  seconds_small a ->
  exists t, max_tps a = F64.of_Z t
  /\ (t = 0 \/ exists s, clean a s /\ t = acks_at a s)
  /\ forall s, clean a s -> acks_at a s <= t.
Proof.
  intros Hs. destruct (tps_loop_ok a (merge_sort Z.le (range_counts (ag_secAcks a)).*1) 0 Hs ltac:(done))
    as (t & Ht & Hsm & Hle & Hor & Hall).
  exists t. unfold max_tps. rewrite F64.of_Z_exact, Z.mul_0_l in Ht by done. unfold F64.zero. rewrite Ht. split_and!; [done|naive_solver|].
  intros s Hc. destruct (ag_secAcks a !! s) as [v|] eqn:Hv.
  - apply Hall; [|done]. rewrite merge_sort_Permutation. by eapply ranges_keys; [apply range_counts_ok|].
  - unfold acks_at, at_key. by rewrite Hv.
Qed.

(** The live correctness of a run is a number between 0 and 1, 1 exactly
    when not one violation was seen, 0 when there are as many as acks or no
    acks at all, and more violations never give a better one. *)
Theorem correctness_counts_violations (a a' : runAgg) :
  0 < ag_acked a <= 2 ^ 53 -> 0 <= ag_violations a <= ag_violations a' -> ag_violations a' <= 2 ^ 53 -> ag_acked a' = ag_acked a ->
  exists c c', F64.num (correctness_of a) c /\ F64.num (correctness_of a') c'
  /\ 0 <= c' <= c /\ c <= F64.one_u
  /\ (c = F64.one_u <-> ag_violations a = 0)
  /\ (ag_acked a <= ag_violations a -> c = 0).
Proof.
  intros Hn Hv Hv' Heq. exists (correct_u (ag_violations a) (ag_acked a)), (correct_u (ag_violations a') (ag_acked a)).
  pose proof (correct_u_range (ag_violations a) (ag_acked a) ltac:(lia) ltac:(lia)).
  pose proof (correct_u_range (ag_violations a') (ag_acked a) ltac:(lia) ltac:(lia)).
  pose proof (correct_u_antitone (ag_violations a) (ag_violations a') (ag_acked a) ltac:(lia) ltac:(lia)).
  split_and!; try lia.
  - apply correctness_of_num; lia.
  - rewrite <- Heq. apply correctness_of_num; lia.
  - apply correct_u_perfect; lia.
  - intros. apply correct_u_none; lia.
Qed.
End metrics.

(** ** Witnesses: a run of three seconds, the last of them bad *)

Definition plain_order : RangeOrder :=
  {| range_counts := map_to_list; range_runs := map_to_list |}.

Lemma plain_laws : RangeLaws (H := plain_order).
Proof. split; done. Qed.

Definition demo_secs : gmap Z Z := <[10 := 400]> (<[11 := 700]> (<[12 := 900]> ∅)).
Definition demo_errs : gmap Z Z := <[11 := 3]> (<[12 := 80]> ∅).
Definition demo_agg : runAgg :=
  mkAgg demo_hist demo_secs demo_errs 2083 2000 83 7 ["x: overfill 9 > qty 3"] 2 {[0]} 0 false.

Lemma percentiles_are_ordered_witness :
  exists m, compute (H := toy_math) (H0 := plain_order) demo_agg = Some m
  /\ exists b50 b90 b99,
       [m_p50 m; m_p90 m; m_p99 m] = map (bucketValue (H := toy_math)) [b50; b90; b99]
       /\ b50 <= b90 <= b99.
Proof.
  destruct (percentiles_are_ordered (H := toy_math) (H0 := plain_order) (H1 := plain_laws)
              demo_agg demo_buckets) as (m & Hm & _ & Hb).
  - unfold few. simpl. lia.
  - apply demo_hist_of.
  - exists m. split; [exact Hm|]. destruct (Hb ltac:(discriminate)) as (b50 & b90 & b99 & Heq & _ & _ & _ & Hle & _).
    exists b50, b90, b99. split; assumption.
Defined.

Lemma demo_seconds_small : seconds_small demo_agg.
Proof.
  intros s. unfold small_count, acks_at, errs_at, at_key, demo_agg, demo_secs, demo_errs. simpl.
  rewrite !lookup_insert, !lookup_empty. split; repeat case_decide; simpl; lia.
Qed.

Lemma throughput_is_best_clean_second_witness :
  exists t, max_tps (H0 := plain_order) demo_agg = F64.of_Z t /\ 700 <= t.
Proof.
  destruct (throughput_is_best_clean_second (H0 := plain_order) (H1 := plain_laws)
              demo_agg demo_seconds_small) as (t & Ht & _ & Hall).
  exists t. split; [exact Ht|]. apply (Hall 11). split; vm_compute; reflexivity.
Defined.

Lemma correctness_counts_violations_witness :
  exists c, F64.num (correctness_of demo_agg) c /\ 0 <= c <= F64.one_u.
Proof.
  destruct (correctness_counts_violations demo_agg demo_agg) as (c & c' & Hc & _ & Hle & Hle' & _).
  - vm_compute. split; [reflexivity|discriminate].
  - vm_compute. split; discriminate.
  - vm_compute. discriminate.
  - reflexivity.
  - exists c. split; [exact Hc|]. split; [|exact Hle']. transitivity c'; apply Hle.
Defined.
