(* ===== verification/IngesterProps.v ===== *)
(** * The ingester's verdicts: theorems

    What [finalize] writes, whatever the store answers, and how the handlers
    act on the map of runs and the aggregates it points at. *)
From S2P Require Import Prelude Protocol Float64 Text IO Counters Hist HistProps Score Bot BotTurn Ingester IngesterMetrics.
Local Open Scope Z_scope.

Section ingester.
Context `{!Math, !RangeOrder} {W : Type} `{!Env W, !Strconv} (pgDSN : string).

Lemma ing_load w i tr p a Q w1 :
  acted w w1 i tr -> ing_aggs i !! p = Some a -> Q a w1 -> wp (load_agg p) Q w1.
Proof.
  intros Hd Hp HQ. apply wp_bind. eapply acted_get; [exact Hd|]. rewrite Hp. by apply wp_ret.
Qed.

Lemma ing_compute a Q (w1 : World W ingester) :
  (forall m, compute a = Some m -> Q m w1) -> wp (orPanic (compute a)) Q w1.
Proof.
  intros HQ. destruct (compute_total a) as [m Hm]. specialize (HQ m Hm). rewrite Hm. by apply wp_ret.
Qed.

(** ** Reading rows *)

Lemma board_row_ok w i tr rank sub sc w1 :
  acted w w1 i tr ->
  wp (board_row rank sub sc) (fun _ w2 => exists tr', acted w w2 i (tr ++ tr') /\ writes tr' = []) w1.
Proof.
  intros D. unfold board_row. apply wp_bind. do_call D. intros r1 w2 D2. apply wp_bind. do_call D2.
  intros r2 w3 D3. apply wp_bind. do_call D3. intros r3 w4 D4. apply wp_ret.
  rewrite <- !app_assoc in D4. eexists. split; [exact D4|]. done.
Qed.

Lemma board_rows_ok w i tr rank members w1 :
  acted w w1 i tr ->
  wp (board_rows rank members) (fun _ w2 => exists tr', acted w w2 i (tr ++ tr') /\ writes tr' = []) w1.
Proof.
  revert tr rank w1. induction members as [|[sub sc] members IH]; intros tr rank w1 D; simpl.
  - apply wp_ret. exists []. by rewrite app_nil_r.
  - apply wp_bind. eapply wp_mono; [by apply board_row_ok|]. intros row w2 (tr1 & D1 & W1).
    apply wp_bind. eapply wp_mono; [by apply IH|]. intros rows w3 (tr2 & D2 & W2). apply wp_ret.
    exists (tr1 ++ tr2). by rewrite app_assoc, writes_app, W1, W2.
Qed.

(** What a snapshot writes: the same rows to the key and to the channel. *)
Definition snapshot_writes (rows : option (list boardRow)) : list call :=
  match rows with None => [] | Some rows => [SetBoard keySnapshot rows; Publish chanEvents rows] end.

Lemma publishSnapshot_ok w i tr w1 :
  acted w w1 i tr ->
  wp publishSnapshot (fun _ w2 => exists tr' rows, acted w w2 i (tr ++ tr') /\ writes tr' = snapshot_writes rows) w1.
Proof.
  intros D. unfold publishSnapshot. apply wp_bind. do_call D. intros [members|] w2 D2.
  - apply wp_bind. eapply wp_mono; [by apply board_rows_ok|]. intros rows w3 (tr3 & D3 & W3).
    apply wp_bind. do_call D3. intros [] w4 D4. do_call D4. intros [] w5 D5.
    rewrite <- !app_assoc in D5. eexists _, (Some rows). split; [exact D5|]. rewrite !writes_app, W3. done.
  - apply wp_ret. eexists _, None. split; [exact D2|]. done.
Qed.

(** ** The verdict *)

(** The board takes a score that no better one holds back. *)
Definition taken (sc : F64.t) (cur : option F64.t) : bool :=
  match cur with None => true | Some c => F64.leb c sc end.

Definition board_writes (run sub : string) (sc : F64.t) (cur : option F64.t) : list call :=
  if String.eqb sub "" then []
  else if taken sc cur then [ZAdd "leaderboard" sc sub; SetKey ("best:" +:+ sub) run] else [].

Lemma update_board_ok w i tr run sub sc w1 :
  acted w w1 i tr ->
  wp (update_board run sub sc) (fun _ w2 => exists tr' cur, acted w w2 i (tr ++ tr')
    /\ writes tr' = board_writes run sub sc cur
    /\ (sub <> ""%string -> ev (ZScore "leaderboard" sub) cur ∈ tr')) w1.
Proof.
  intros D. unfold update_board, board_writes. destruct (String.eqb_spec sub "") as [->|Hne].
  - apply wp_ret. exists [], None. rewrite app_nil_r. by split_and!.
  - apply wp_bind. do_call D. intros cur w2 D2. fold (taken sc cur). destruct (taken sc cur) eqn:Ht.
    + apply wp_bind. do_call D2. intros [] w3 D3. do_call D3. intros [] w4 D4.
      rewrite <- !app_assoc in D4. eexists _, cur. split; [exact D4|]. rewrite Ht. split; [done|]. intros _. left.
    + apply wp_ret. eexists _, cur. split; [exact D2|]. rewrite Ht. split; [done|]. intros _. left.
Qed.

Definition archive_fields (run sub : string) (m : metrics) (sc : F64.t) (a : runAgg) : list (string * value) :=
  [("run_id", VStr run); ("submission_id", VStr sub);
   ("p50_us", VInt (Z.quot (m_p50 m) 1000)); ("p90_us", VInt (Z.quot (m_p90 m) 1000));
   ("p99_us", VInt (Z.quot (m_p99 m) 1000));
   ("tps", VFloat (m_tps m)); ("correctness", VFloat (m_correctness m)); ("score", VFloat sc);
   ("sent", VInt (ag_sent a)); ("acked", VInt (ag_acked a));
   ("errors", VInt (ag_errors a)); ("violations", VInt (ag_violations a))].

Definition archive_writes (run sub : string) (m : metrics) (sc : F64.t) (a : runAgg) : list call :=
  if String.eqb pgDSN "" then [] else [Archive (archive_fields run sub m sc a)].

Lemma persist_ok w i tr run sub m sc a w1 :
  acted w w1 i tr ->
  wp (persist pgDSN run sub m sc a) (fun _ w2 => exists tr', acted w w2 i (tr ++ tr')
    /\ writes tr' = archive_writes run sub m sc a) w1.
Proof.
  intros D. unfold persist, archive_writes. destruct (String.eqb pgDSN "").
  - apply wp_ret. exists []. by rewrite app_nil_r.
  - do_call D. intros [] w2 D2. eexists. split; [exact D2|]. done.
Qed.

(** [sc] is the composite score of the metrics with the conformance that the
    store answered. *)
Definition score_with (m : metrics) (conf : option string) : F64.t :=
  Composite (m_p99 m) (m_tps m) (m_correctness m) (match conf with Some s => parseFloat s | None => F64.zero end).
Definition scored_from (run : string) (m : metrics) (sc : F64.t) (tr : list event) : Prop :=
  exists conf, ev (HGet ("run:" +:+ run) "conformance_score") conf ∈ tr /\ sc = score_with m conf.

Lemma scored_from_more run m sc tr tr1 tr2 : scored_from run m sc tr -> scored_from run m sc (tr1 ++ tr ++ tr2).
Proof. intros (conf & Hin & ->). exists conf. rewrite !elem_of_app. auto. Qed.

Lemma scored_from_last run m sc tr tr1 tr2 : scored_from run m sc tr -> scored_from run m sc (tr1 ++ tr2 ++ tr).
Proof. intros Hs. pose proof (scored_from_more run m sc tr (tr1 ++ tr2) [] Hs) as Hm. by rewrite app_nil_r, <- app_assoc in Hm. Qed.

(** The calls [tr] are the verdict on the run: everything written, in order,
    with the replies it depends on. *)
Record verdict (run : string) (a : runAgg) (m : metrics) (tr : list event) : Prop := mkVerdict {
  vd_writes : exists conf sub cur rows t,
    let sc := score_with m conf in
    ev (HGet ("run:" +:+ run) "conformance_score") conf ∈ tr
    /\ ev (HGet ("run:" +:+ run) "submission_id") sub ∈ tr
    /\ ev Now t ∈ tr
    /\ (default "" sub <> ""%string -> ev (ZScore "leaderboard" (default "" sub)) cur ∈ tr)
    /\ writes tr =
         [HSet ("result:" +:+ run) (result_fields m a sc true);
          HSet ("run:" +:+ run) [("status", VStr "done"); ("finished", VInt (t / second))]]
         ++ board_writes run (default "" sub) sc cur
         ++ snapshot_writes rows
         ++ archive_writes run (default "" sub) m sc a
}.

Lemma finalize_ok w i tr run p a w1 :
  acted w w1 i tr -> ing_aggs i !! p = Some a ->
  wp (finalize pgDSN run p) (fun _ w2 => exists m tr', compute a = Some m
    /\ acted w w2 (set_runs (delete run (ing_runs i)) i) (tr ++ tr') /\ verdict run a m tr') w1.
Proof.
  intros D Hp. unfold finalize. apply wp_bind. eapply ing_load; [exact D|exact Hp|].
  apply wp_bind. apply ing_compute. intros m Hm. apply wp_bind. do_call D. intros conf w2 D2. cbv zeta.
  set (sc := Composite _ _ _ _). apply wp_bind. eapply ing_load; [exact D2|exact Hp|].
  apply wp_bind. unfold writeResult. do_call D2. intros [] w3 D3. apply wp_bind. do_call D3. intros t w4 D4.
  apply wp_bind. do_call D4. intros [] w5 D5. apply wp_bind. do_call D5. intros sub w6 D6.
  rewrite <- !app_assoc in D6. simpl in D6.
  apply wp_bind. eapply wp_mono; [by apply update_board_ok|]. intros [] w7 (tr7 & cur & D7 & W7 & E7).
  apply wp_bind. eapply wp_mono; [by apply publishSnapshot_ok|]. intros [] w8 (tr8 & rows & D8 & W8).
  apply wp_bind. eapply ing_load; [exact D8|exact Hp|].
  apply wp_bind. eapply wp_mono; [by apply persist_ok|]. intros [] w9 (tr9 & D9 & W9).
  eapply acted_modify; [exact D9|]. intros w10 D10. rewrite <- !app_assoc in D10.
  exists m. eexists. split; [done|]. split; [exact D10|]. split.
  exists conf, sub, cur, rows, t. split_and!; [set_solver..|].
  rewrite !writes_app, W7, W8, W9. done.
Qed.

(** ** Absorbing a batch *)

(** Runs point at aggregates, no two at the same one. *)
Record ing_ok (i : ingester) : Prop := mkIngOk {
  io_agg r p : ing_runs i !! r = Some p -> is_Some (ing_aggs i !! p);
  io_next p : is_Some (ing_aggs i !! p) -> (p < ing_next i)%N;
  io_inj r r' p : ing_runs i !! r = Some p -> ing_runs i !! r' = Some p -> r = r'
}.

(** The aggregate a batch of the run is folded into: its own or a new one. *)
Definition current (run : string) (i : ingester) (p : N) (a : runAgg) : Prop :=
  match ing_runs i !! run with
  | Some q => p = q /\ ing_aggs i !! q = Some a
  | None => p = ing_next i /\ a = newAgg
  end.

Lemma find_agg_current run i :
  ing_ok i -> exists p a, current run i p a /\ (find_agg run i).1 = p
  /\ ing_aggs (find_agg run i).2 !! p = Some a.
Proof.
  intros [Hagg _ _]. unfold find_agg, current. destruct (ing_runs i !! run) as [p|] eqn:Hr.
  - destruct (Hagg run p Hr) as [a Ha]. by exists p, a.
  - exists (ing_next i), newAgg. simpl. by rewrite lookup_insert_eq.
Qed.

Lemma find_agg_ok run i : ing_ok i -> ing_ok (find_agg run i).2.
Proof.
  intros [Hagg Hnext Hinj]. unfold find_agg. destruct (ing_runs i !! run) as [p|] eqn:Hr; [by split|].
  assert (forall r q, ing_runs i !! r = Some q -> q <> ing_next i) as Hfresh.
  { intros r q Hq ->. pose proof (Hnext _ (Hagg _ _ Hq)). lia. }
  split; simpl.
  - intros r q. rewrite !lookup_insert_Some, lookup_insert_is_Some. naive_solver.
  - intros q. rewrite lookup_insert_is_Some. intros [->|[_ Hq]]; [lia|]. pose proof (Hnext q Hq). lia.
  - intros r r' q. rewrite !lookup_insert_Some. naive_solver.
Qed.

Lemma set_agg_ok p a i : is_Some (ing_aggs i !! p) -> ing_ok i -> ing_ok (set_agg p a i).
Proof.
  intros Hp [Hagg Hnext Hinj]. split; simpl; [|intros q|done].
  - intros r q Hq. rewrite lookup_insert_is_Some. destruct (decide (p = q)); [by left|]. right. eauto.
  - rewrite lookup_insert_is_Some. intros [->|[_ Hq]]; eauto.
Qed.

Lemma delete_run_ok run i : ing_ok i -> ing_ok (set_runs (delete run (ing_runs i)) i).
Proof.
  intros [Hagg Hnext Hinj]. split; simpl; [|done|].
  - intros r p. rewrite lookup_delete_Some. naive_solver.
  - intros r r' p. rewrite !lookup_delete_Some. naive_solver.
Qed.

(** The aggregate after the batch, and whether it is complete. *)
Definition folded (now : Z) (b : TelemetryBatch) (a : runAgg) : runAgg :=
  let a' := fold_batch now b a in if complete a' then set_finalized a' else a'.

Lemma absorb_locked_ok w i tr b w1 :
  ing_ok i -> acted w w1 i tr ->
  wp (absorb_locked b) (fun r w2 => exists p a, current (tb_run b) i p a
    /\ if ag_finalized a then r = None /\ acted w w2 (find_agg (tb_run b) i).2 tr
       else exists now, r = Some (p, complete (fold_batch now b a))
            /\ acted w w2 (set_agg p (folded now b a) (find_agg (tb_run b) i).2) (tr ++ [ev Now now])) w1.
Proof.
  intros Hi D. destruct (find_agg_current (tb_run b) i Hi) as (p & a & Hc & Hp & Ha).
  unfold absorb_locked. apply wp_bind. eapply acted_get; [exact D|].
  destruct (find_agg (tb_run b) i) as [p' i1] eqn:Hf. simpl in Hp, Ha. subst p'.
  apply wp_bind. eapply acted_put; [exact D|]. intros w2 D2. apply wp_bind. eapply ing_load; [exact D2|exact Ha|].
  destruct (ag_finalized a) eqn:Hfin.
  - apply wp_ret. exists p, a. rewrite Hfin. by split.
  - apply wp_bind. do_call D2. intros now w3 D3. cbv zeta. destruct (complete (fold_batch now b a)) eqn:Hco;
      (apply wp_bind; eapply acted_modify; [exact D3|]; intros w4 D4; apply wp_ret; exists p, a;
       rewrite Hfin; split; [done|]; exists now; unfold folded; rewrite Hco; by split).
Qed.

(** ** The live figures *)

Lemma live_ok w i tr run p a w1 :
  acted w w1 i tr -> ing_aggs i !! p = Some a ->
  wp (live run p) (fun _ w2 => exists tr',
    (acted w w2 i (tr ++ tr') /\ writes tr' = [])
    \/ exists now m, compute a = Some m /\ acted w w2 (set_throttle run now i) (tr ++ tr')
       /\ writes tr' = [HSet ("result:" +:+ run) (result_fields m a F64.zero false)]) w1.
Proof.
  intros D Hp. unfold live. apply wp_bind. eapply acted_get; [exact D|]. apply wp_bind.
  assert (wp (match ing_throttle i !! run with
              | Some t => now ← perform Now; mret (Int64.sub now t <? second)
              | None => mret false end)
             (fun _ w2 => exists tr', acted w w2 i (tr ++ tr') /\ writes tr' = []) w1) as Hrecent.
  { destruct (ing_throttle i !! run).
    - apply wp_bind. do_call D. intros now w2 D2. apply wp_ret. eexists. split; [exact D2|]. done.
    - apply wp_ret. exists []. by rewrite app_nil_r. }
  eapply wp_mono; [exact Hrecent|]. intros recent w2 (tr2 & D2 & W2). destruct recent.
  - apply wp_ret. exists tr2. by left.
  - apply wp_bind. do_call D2. intros now w3 D3. apply wp_bind. eapply acted_modify; [exact D3|]. intros w4 D4.
    apply wp_bind. eapply ing_load; [exact D4|exact Hp|]. apply wp_bind. apply ing_compute. intros m Hm.
    apply wp_bind. eapply ing_load; [exact D4|exact Hp|]. unfold writeResult. do_call D4. intros [] w5 D5.
    rewrite <- !app_assoc in D5. eexists. right. exists now, m. split; [done|]. split; [exact D5|].
    by rewrite writes_app, W2.
Qed.

(** C15. The verdict on a run. Whatever Redis and the database answer,
    [finalize] of an aggregate does not panic, and it writes exactly, in this
    order: the result with the computed metrics and the composite score, the
    state [done], the board entry with the best run when the submission is
    known and no better score holds it, a snapshot when the board can be
    read, and the archive row when a database is configured. Then it forgets
    the run, and only that run. *)
Theorem finalize_writes_verdict (w : World W ingester) (run : string) (p : N) (a : runAgg) :
  ing_aggs (local w) !! p = Some a ->
  wp (finalize pgDSN run p) (fun _ w' => exists m tr,
    compute a = Some m /\ verdict run a m tr
    /\ trace w' = trace w ++ tr /\ runs (env w) tr (env w')
    /\ local w' = set_runs (delete run (ing_runs (local w))) (local w)) w.
Proof.
  intros Hp. eapply wp_mono; [eapply finalize_ok; [apply acted_refl|exact Hp]|].
  intros [] w' (m & tr & Hm & (Hl & Ht & Hr) & Hv). exists m, tr. by split_and!.
Qed.
End ingester.

(** ** Witness *)

#[local] Instance plain_text : Strconv := {| other_float := fun _ => F64.zero; quote := fun s => s |}.
#[local] Existing Instances toy_math plain_order dead_engine.

Definition demo_judged : World Z ingester :=
  mkWorld 0 (mkIngester (<["run1" := 0%N]> ∅) (<[0%N := demo_agg]> ∅) 1 ∅) [].

Lemma finalize_writes_verdict_witness :
  wp (finalize "postgres://db" "run1" 0) (fun _ w' => ing_runs (local w') !! "run1"%string = None) demo_judged.
Proof.
  eapply wp_mono.
  { apply (finalize_writes_verdict "postgres://db" demo_judged "run1" 0 demo_agg). reflexivity. }
  intros [] w' (m & tr & _ & _ & _ & _ & Hl). rewrite Hl. reflexivity.
Defined.
