(* ===== verification/IngesterStream.v ===== *)
(** * A whole run through the ingester

    The batches of a run's shards arrive in one stream with those of other
    runs, interleaved in any way that keeps each shard's own order. The main
    loop folds every one of them, judges the run at the last and not before. *)
From S2P Require Import Prelude Protocol Float64 Text IO Consumer Counters Hist HistProps Score Bot BotTurn Fleet FleetProps.
From S2P Require Import Ingester IngesterMetrics IngesterProps.
Local Open Scope Z_scope.

Definition ag_count (c : counter) : runAgg -> Z :=
  match c with CSent => ag_sent | CAcked => ag_acked | CErrors => ag_errors | CViolations => ag_violations end.
Definition ag_table (t : table) : runAgg -> gmap Z Z :=
  match t with THist => ag_hist | TAcks => ag_secAcks | TErrs => ag_secErrs end.

(** The shards whose last batch is in [l]. *)
Definition finals (l : list TelemetryBatch) : gset Z :=
  list_to_set (map tb_shard (List.filter tb_final l)).

(** The batches of one shard. *)
Definition of_shard (k : Z) (l : list TelemetryBatch) : list TelemetryBatch :=
  filter (fun b => tb_shard b = k) l.

(** A stream of all batches of a run of [n] shards. *)
Record run_stream (run : string) (n : Z) (l : list TelemetryBatch) : Prop := mkStream {
  rs_pos : 0 < n;
  rs_meta : Forall (fun b => tb_run b = run /\ tb_total b = n /\ 0 <= tb_shard b < n) l;
  rs_shard k : 0 <= k < n -> exists j, map tb_final (of_shard k l) = replicate j false ++ [true]
}.

Lemma elem_finals k l : k ∈ finals l <-> exists b, b ∈ l /\ tb_shard b = k /\ tb_final b = true.
Proof.
  unfold finals. rewrite elem_of_list_to_set, list_elem_of_fmap. split.
  - intros (b & -> & Hb). apply list_elem_of_In, filter_In in Hb as [Hb Hf]. exists b.
    split_and!; [by apply list_elem_of_In|done|done].
  - intros (b & Hb & <- & Hf). exists b. split; [done|]. apply list_elem_of_In, filter_In.
    split; [by apply list_elem_of_In|done].
Qed.

Lemma final_iff k l : k ∈ finals l <-> true ∈ map tb_final (of_shard k l).
Proof.
  rewrite elem_finals, list_elem_of_fmap. unfold of_shard. split.
  - intros (b & Hb & Hk & Hf). exists b. split; [done|]. by apply list_elem_of_filter.
  - intros (b & Hf & Hb). apply list_elem_of_filter in Hb as [Hk Hb]. by exists b.
Qed.

(** The shards of a run, as a set. *)
Definition shards (n : Z) : gset Z := list_to_set (seqZ 0 n).

Lemma elem_shards k n : k ∈ shards n <-> 0 <= k < n.
Proof. unfold shards. rewrite elem_of_list_to_set, elem_of_seqZ. lia. Qed.

Lemma size_shards n : 0 <= n -> Z.of_nat (size (shards n)) = n.
Proof.
  intros Hn. unfold shards. rewrite size_list_to_set by apply NoDup_seqZ. rewrite length_seqZ. lia.
Qed.

Lemma true_not_before_last j (x y : list bool) (b : bool) :
  true ∈ x -> x ++ b :: y = replicate j false ++ [true] -> False.
Proof.
  intros Hx Heq. destruct (exists_last (l := b :: y)) as (y' & b' & Hy); [done|].
  rewrite Hy, app_assoc in Heq. apply app_inj_tail in Heq as [Heq _].
  assert (true ∈ replicate j false) as Hr by (rewrite <- Heq; apply elem_of_app; by left).
  by apply elem_of_replicate in Hr as [??].
Qed.

(** All shards have ended exactly when the stream has. *)
Lemma finals_all run n l l1 l2 :
  run_stream run n l -> l = l1 ++ l2 -> n <= Z.of_nat (size (finals l1)) <-> l2 = [].
Proof.
  intros [Hpos Hmeta Hsh] ->. apply Forall_app in Hmeta as [Hm1 Hm2]. rewrite Forall_forall in Hm1.
  assert (finals l1 ⊆ shards n) as Hsub.
  { intros k. rewrite elem_finals, elem_shards. intros (b & Hb & <- & _). by apply Hm1. }
  pose proof (size_shards n ltac:(lia)) as Hsz. split.
  - intros Hle. destruct l2 as [|b l2]; [done|exfalso].
    assert (finals l1 = shards n) as Heq.
    { apply leibniz_equiv, (set_subseteq_size_equiv _ _ Hsub). lia. }
    apply Forall_cons in Hm2 as [(_ & _ & Hb) _].
    assert (tb_shard b ∈ finals l1) as Hin by (by rewrite Heq, elem_shards).
    destruct (Hsh _ Hb) as [j Hj]. unfold of_shard in Hj. rewrite filter_app, filter_cons_True, map_app in Hj by done.
    apply final_iff in Hin. by eapply true_not_before_last.
  - intros ->. rewrite app_nil_r in Hsh.
    assert (shards n ⊆ finals l1) as Hsup.
    { intros k. rewrite elem_shards. intros Hk. destruct (Hsh k Hk) as [j Hj]. apply final_iff. rewrite Hj.
      apply elem_of_app. right. by left. }
    apply subseteq_size in Hsup. lia.
Qed.

Section stream.
Context `{!Math, !RangeOrder} {W : Type} `{!Env W, !Strconv} (pgDSN : string).

(** The aggregate [a] holds exactly the batches [l]. *)
Record aggregated (n : Z) (l : list TelemetryBatch) (a : runAgg) : Prop := mkAggregated {
  gd_count c : ag_count c a = Int64.wrap (total c l);
  gd_table t : ag_table t a = merge_all ∅ (map (fun b => range_counts (tb_table t b)) l);
  gd_final : ag_finalShards a = finals l;
  gd_shards : l <> [] -> ag_totalShards a = n;
  gd_open : ag_finalized a = false
}.

Lemma aggregated_new n : aggregated n [] newAgg.
Proof. split; try done; by intros []. Qed.

Lemma count_snoc c l b a now :
  ag_count c a = Int64.wrap (total c l) ->
  ag_count c (fold_batch now b a) = Int64.wrap (total c (l ++ [b])).
Proof.
  intros Hc. rewrite total_snoc. destruct c; simpl in *; rewrite Hc; apply Int64.add_wrap_l.
Qed.

Lemma finals_snoc l b : finals (l ++ [b]) = if tb_final b then {[tb_shard b]} ∪ finals l else finals l.
Proof.
  unfold finals. rewrite List.filter_app, map_app, list_to_set_app_L. simpl.
  destruct (tb_final b); simpl; set_solver.
Qed.

Lemma aggregated_fold n l a b now :
  tb_total b = n -> aggregated n l a -> aggregated n (l ++ [b]) (fold_batch now b a).
Proof.
  intros Hn [Hc Ht Hf Hs Ho]. split.
  - intros c. by apply count_snoc.
  - intros t. rewrite map_app. unfold merge_all. rewrite foldl_app. specialize (Ht t).
    unfold merge_all in Ht. rewrite <- Ht. by destruct t.
  - rewrite finals_snoc. simpl. by rewrite Hf.
  - by intros _.
  - done.
Qed.

(** The final results written by the calls of a trace. *)
Definition is_verdict (c : call) : bool :=
  match c with HSet _ fields => existsb (fun f => String.eqb f.1 "score") fields | _ => false end.
Definition verdicts (tr : list event) : list call := List.filter is_verdict (writes tr).

Lemma verdicts_app tr tr' : verdicts (tr ++ tr') = verdicts tr ++ verdicts tr'.
Proof. unfold verdicts. by rewrite writes_app, List.filter_app. Qed.

Lemma is_verdict_result run m a sc final :
  is_verdict (HSet ("result:" +:+ run) (result_fields m a sc final)) = final.
Proof. unfold is_verdict, result_fields. by destruct (ag_samples a), final. Qed.

Lemma verdict_verdicts run a m tr :
  verdict pgDSN run a m tr ->
  exists sc, scored_from run m sc tr /\ verdicts tr = [HSet ("result:" +:+ run) (result_fields m a sc true)].
Proof.
  intros [(conf & sub & cur & rows & t & Hconf & _ & _ & _ & Hw)]. eexists. split; [exists conf; by split|].
  unfold verdicts. rewrite Hw. set (sc := score_with _ _). rewrite !List.filter_app.
  assert (List.filter is_verdict (board_writes run (default "" sub) sc cur) = []) as ->.
  { unfold board_writes. by destruct (String.eqb _ ""), (taken sc cur). }
  assert (List.filter is_verdict (snapshot_writes rows) = []) as -> by (by destruct rows).
  assert (List.filter is_verdict (archive_writes pgDSN run (default "" sub) m sc a) = []) as ->.
  { unfold archive_writes. by destruct (String.eqb pgDSN ""). }
  unfold List.filter. rewrite is_verdict_result. reflexivity.
Qed.

Lemma current_find run i p a : current run i p a -> (find_agg run i).1 = p.
Proof. unfold current, find_agg. destruct (ing_runs i !! run); simpl; naive_solver. Qed.

Lemma current_unique run i p a p' a' : current run i p a -> current run i p' a' -> p = p' /\ a = a'.
Proof. unfold current. destruct (ing_runs i !! run); naive_solver. Qed.

Lemma find_agg_runs run i : ing_runs (find_agg run i).2 = <[run := (find_agg run i).1]> (ing_runs i).
Proof. unfold find_agg. destruct (ing_runs i !! run) eqn:Hr; simpl; [by rewrite insert_id|done]. Qed.

Lemma complete_iff run n l pre b post a now :
  run_stream run n l -> l = pre ++ b :: post -> aggregated n pre a -> tb_total b = n ->
  complete (fold_batch now b a) = bool_decide (post = []).
Proof.
  intros Hs Hl Ha Hb. pose proof (aggregated_fold _ _ _ _ now Hb Ha) as [_ _ Hf Hn _].
  unfold complete. rewrite Hf, Hn by (by destruct pre).
  rewrite (proj2 (Z.ltb_lt 0 n)) by apply Hs. simpl. rewrite cons_middle, app_assoc in Hl.
  pose proof (finals_all run n l (pre ++ [b]) post Hs Hl) as Hall.
  destruct (Z.leb_spec n (Z.of_nat (size (finals (pre ++ [b]))))); symmetry.
  - apply bool_decide_eq_true. by apply Hall.
  - apply bool_decide_eq_false. intros Hp. apply Hall in Hp. lia.
Qed.

(** The final results of one run, and what is done to the consumer group,
    among the calls of a trace. *)
Definition has_key (key : string) (c : call) : bool :=
  match c with HSet k _ => String.eqb k key | _ => false end.
Definition verdicts_of (run : string) (tr : list event) : list call :=
  List.filter (has_key ("result:" +:+ run)) (verdicts tr).
Definition is_group_call (c : call) : bool := match c with XAck _ _ _ | ReadBatches _ _ _ => true | _ => false end.
Definition group_calls (tr : list event) : list call := List.filter is_group_call (writes tr).

Lemma verdicts_of_app run tr tr' : verdicts_of run (tr ++ tr') = verdicts_of run tr ++ verdicts_of run tr'.
Proof. unfold verdicts_of. by rewrite verdicts_app, List.filter_app. Qed.

Lemma group_calls_app tr tr' : group_calls (tr ++ tr') = group_calls tr ++ group_calls tr'.
Proof. unfold group_calls. by rewrite writes_app, List.filter_app. Qed.

Lemma verdicts_of_one run run' fields tr :
  verdicts tr = [HSet ("result:" +:+ run') fields] ->
  verdicts_of run tr = if String.eqb run' run then [HSet ("result:" +:+ run') fields] else [].
Proof.
  intros Hv. unfold verdicts_of. rewrite Hv. simpl. destruct (String.eqb_spec run' run) as [->|Hne].
  - by rewrite String.eqb_refl.
  - by rewrite (proj2 (String.eqb_neq _ _)).
Qed.

Lemma verdict_acks run a m tr : verdict pgDSN run a m tr -> group_calls tr = [].
Proof.
  intros [(conf & sub & cur & rows & t & _ & _ & _ & _ & Hw)]. unfold group_calls. rewrite Hw.
  set (sc := score_with _ _). rewrite !List.filter_app.
  assert (List.filter is_group_call (board_writes run (default "" sub) sc cur) = []) as ->.
  { unfold board_writes. by destruct (String.eqb _ ""), (taken sc cur). }
  assert (List.filter is_group_call (snapshot_writes rows) = []) as -> by (by destruct rows).
  unfold archive_writes. by destruct (String.eqb pgDSN "").
Qed.

(** ** One batch *)

(** What the batches of other runs leave of a run. *)
Lemma current_set_agg run i p a q a' :
  ing_ok i -> (forall r, ing_runs i !! r = Some q -> r <> run) ->
  current run i p a -> current run (set_agg q a' i) p a.
Proof.
  intros Hok Hq. unfold current, set_agg. simpl. destruct (ing_runs i !! run) as [p'|] eqn:Hr; [|done].
  intros [-> Ha]. split; [done|]. rewrite lookup_insert_ne; [done|]. intros ->. by eapply Hq.
Qed.

Lemma current_find_other run run' i p a :
  ing_ok i -> run' <> run -> current run i p a ->
  exists p', current run (find_agg run' i).2 p' a.
Proof.
  intros [Hagg Hnext Hinj] Hne. unfold current, find_agg. destruct (ing_runs i !! run') as [q|] eqn:Hr'.
  - destruct (ing_runs i !! run) eqn:Hr; simpl; rewrite Hr; naive_solver.
  - simpl. rewrite lookup_insert_ne by done. destruct (ing_runs i !! run) as [q|] eqn:Hr.
    + intros [-> Ha]. exists q. split; [done|]. rewrite lookup_insert_ne; [done|].
      intros Heq. pose proof (Hnext _ (Hagg _ _ Hr)). lia.
    + intros [-> ->]. by eexists.
Qed.

Lemma current_delete run run' i p a :
  run' <> run -> current run i p a -> current run (set_runs (delete run' (ing_runs i)) i) p a.
Proof. intros Hne. unfold current, set_runs. simpl. by rewrite lookup_delete_ne. Qed.

(** Any batch keeps the ingester in order and acknowledges nothing; one of
    another run leaves this run alone. *)
Lemma absorb_frame run b w i tr w1 :
  ing_ok i -> acted w w1 i tr ->
  wp (absorb pgDSN b) (fun _ w2 => exists i' tr', acted w w2 i' (tr ++ tr') /\ ing_ok i' /\ group_calls tr' = []
    /\ (tb_run b <> run -> verdicts_of run tr' = []
        /\ (ing_runs i !! run = None -> ing_runs i' !! run = None)
        /\ forall p a, current run i p a -> exists p', current run i' p' a)) w1.
Proof.
  intros Hok D. unfold absorb. apply wp_bind. eapply wp_mono; [by apply (absorb_locked_ok w i tr)|].
  intros r w2 (p & a & Hc & Hres). pose proof (find_agg_ok (tb_run b) i Hok) as Hok1.
  pose proof (find_agg_runs (tb_run b) i) as Hfr.
  rewrite (current_find _ _ _ _ Hc) in Hfr. destruct (find_agg_current (tb_run b) i Hok) as (p2 & a2 & Hc2 & Hp2 & Hl2).
  destruct (current_unique _ _ _ _ _ _ Hc Hc2) as [<- <-].
  pose proof (fun p0 a0 (Hne : tb_run b <> run) => current_find_other run (tb_run b) i p0 a0 Hok Hne) as Hother.
  set (i1 := (find_agg (tb_run b) i).2) in *.
  assert (tb_run b <> run -> ing_runs i !! run = None -> ing_runs i1 !! run = None) as Hnone.
  { intros Hne Hr. rewrite Hfr. by rewrite lookup_insert_ne. }
  destruct (ag_finalized a).
  { destruct Hres as [-> D2]. apply wp_ret. exists i1, []. rewrite app_nil_r. by split_and!; [..|intros ?; split_and!; eauto]. }
  destruct Hres as (now & -> & D2). set (i2 := set_agg p (folded now b a) i1) in *.
  assert (ing_ok i2) as Hok2 by (apply set_agg_ok; [by eexists|done]).
  assert (ing_aggs i2 !! p = Some (folded now b a)) as Hp by (by apply lookup_insert_eq).
  assert (tb_run b <> run -> forall p0 a0, current run i p0 a0 -> exists p', current run i2 p' a0) as Hkeep.
  { intros Hne p0 a0 Hcur. destruct (Hother p0 a0 Hne Hcur) as [p' H']. exists p'. apply current_set_agg; [done| |done].
    intros r Hr ->. apply Hne. eapply (io_inj _ Hok1); [|exact Hr]. rewrite Hfr. by apply lookup_insert_eq. }
  destruct (complete (fold_batch now b a)).
  - eapply wp_mono; [by eapply finalize_ok|]. intros [] w3 (m & tr3 & Hm & D3 & Hv). rewrite <- app_assoc in D3.
    eexists _, _. split; [exact D3|]. split; [by apply delete_run_ok|]. split; [by rewrite group_calls_app, (verdict_acks _ _ _ _ Hv)|].
    intros Hne. destruct (verdict_verdicts _ _ _ _ Hv) as (sc & Hscored & Hsc). split_and!.
    + rewrite verdicts_of_app, (verdicts_of_one run _ _ tr3 Hsc). by rewrite (proj2 (String.eqb_neq _ _)).
    + intros Hr. simpl. rewrite lookup_delete_ne by done. by apply Hnone.
    + intros p0 a0 Hcur. destruct (Hkeep Hne p0 a0 Hcur) as [p' H']. exists p'. by apply current_delete.
  - eapply wp_mono; [by eapply live_ok|].
    intros [] w3 (tr3 & [[D3 W3]|(now' & m & Hm & D3 & W3)]); rewrite <- app_assoc in D3;
      (eexists _, _; split; [exact D3|]; split; [by destruct Hok2; split|]);
      (split; [rewrite group_calls_app; unfold group_calls at 2; by rewrite W3|]); intros Hne;
      (split; [rewrite verdicts_of_app; unfold verdicts_of at 2, verdicts; rewrite W3|split; [by apply Hnone|by apply Hkeep]]).
    + done.
    + unfold List.filter. by rewrite is_verdict_result.
Qed.

(** ** The messages of the stream *)

(** What the messages decode to, and the batches of one run. *)
Definition batches (msgs : list (delivery TelemetryBatch)) : list TelemetryBatch :=
  omap (fun m => match m.2 with Some (inl b) => Some b | _ => None end) msgs.
Definition of_run (run : string) (l : list TelemetryBatch) : list TelemetryBatch :=
  filter (fun b => tb_run b = run) l.
Definition ack_of (m : delivery TelemetryBatch) : call := XAck streamTele group m.1.

(** How far a run with the batches [l] is after the batches [pre]: still open,
    or judged. *)
Definition open_run (run : string) (n : Z) (pre : list TelemetryBatch) (i : ingester) (tr : list event) : Prop :=
  verdicts_of run tr = [] /\ exists p a, current run i p a /\ aggregated n pre a.
Definition judged_run (run : string) (n : Z) (l : list TelemetryBatch) (i : ingester) (tr : list event) : Prop :=
  ing_runs i !! run = None /\ exists a m sc, aggregated n l a /\ compute a = Some m /\ scored_from run m sc tr
  /\ verdicts_of run tr = [HSet ("result:" +:+ run) (result_fields m a sc true)].
Definition progress (run : string) (n : Z) (l pre : list TelemetryBatch) (i : ingester) (tr : list event) : Prop :=
  ing_ok i /\ forall post, l = pre ++ post ->
    if decide (post = []) then judged_run run n l i tr else open_run run n pre i tr.

Lemma absorb_own run n l pre b post w i tr w1 :
  run_stream run n l -> l = pre ++ b :: post -> ing_ok i ->
  open_run run n pre i tr -> acted w w1 i tr ->
  wp (absorb pgDSN b) (fun _ w2 => exists i' tr', acted w w2 i' (tr ++ tr') /\ ing_ok i' /\ group_calls tr' = []
    /\ if decide (post = []) then judged_run run n l i' (tr ++ tr') else open_run run n (pre ++ [b]) i' (tr ++ tr')) w1.
Proof.
  intros Hs Hl Hok (Hv0 & p & a & Hc & Ha) D.
  assert (tb_run b = run /\ tb_total b = n) as [Hrun Hn].
  { destruct Hs as [_ Hm _]. rewrite Forall_forall in Hm. destruct (Hm b) as (? & ? & _); [|done].
    subst l. apply elem_of_app. right. left. }
  unfold absorb. apply wp_bind. eapply wp_mono; [by apply (absorb_locked_ok w i tr)|].
  intros r w2 (p' & a' & Hc' & Hres). rewrite Hrun in Hc', Hres.
  destruct (current_unique _ _ _ _ _ _ Hc Hc') as [<- <-]. rewrite (gd_open _ _ _ Ha) in Hres.
  destruct Hres as (now & -> & D2). rewrite Hrun. pose proof (aggregated_fold _ _ _ _ now Hn Ha) as Hag.
  pose proof (find_agg_ok run i Hok) as Hok'. pose proof (find_agg_runs run i) as Hfr.
  rewrite (current_find _ _ _ _ Hc) in Hfr. destruct (find_agg_current run i Hok) as (p2 & a2 & Hc2 & Hp2 & Hl2).
  destruct (current_unique _ _ _ _ _ _ Hc Hc2) as [<- <-].
  set (i1 := (find_agg run i).2) in *. set (i2 := set_agg p (folded now b a) i1) in *.
  assert (ing_ok i2) as Hok2 by (apply set_agg_ok; [by eexists|done]).
  assert (ing_aggs i2 !! p = Some (folded now b a)) as Hp by (by apply lookup_insert_eq).
  pose proof (complete_iff run n l pre b post a now Hs Hl Ha Hn) as Hco. unfold folded in Hp.
  rewrite Hco in Hp |- *. destruct (decide (post = [])) as [->|Hne].
  - rewrite bool_decide_true in Hp |- * by done. eapply wp_mono; [by eapply finalize_ok|].
    intros [] w3 (m & tr3 & Hm & D3 & Hv). rewrite <- app_assoc in D3. eexists _, _.
    split; [exact D3|]. split; [by apply delete_run_ok|]. split; [by rewrite group_calls_app, (verdict_acks _ _ _ _ Hv)|].
    split; [simpl; by rewrite lookup_delete_eq|]. destruct (verdict_verdicts _ _ _ _ Hv) as (sc & Hscored & Hsc).
    exists (fold_batch now b a), m, sc. rewrite Hl. split; [done|]. split; [exact Hm|].
    split; [by apply scored_from_last|]. rewrite !verdicts_of_app, Hv0, (verdicts_of_one run _ _ tr3 Hsc), String.eqb_refl. done.
  - rewrite bool_decide_false in Hp |- * by done. eapply wp_mono; [by eapply live_ok|].
    assert (forall th, current run (mkIngester (ing_runs i2) (ing_aggs i2) (ing_next i2) th) p (fold_batch now b a)) as Hcur.
    { intros th. unfold current. simpl. change (ing_runs i2) with (ing_runs i1). by rewrite Hfr, lookup_insert_eq. }
    intros [] w3 (tr3 & [[D3 W3]|(now' & m & Hm & D3 & W3)]); rewrite <- app_assoc in D3;
      (eexists _, _; split; [exact D3|]; split; [by destruct Hok2; split|]);
      (split; [rewrite group_calls_app; unfold group_calls at 2; by rewrite W3|]);
      (split; [rewrite !verdicts_of_app, Hv0; unfold verdicts_of at 2, verdicts; rewrite W3|exists p, (fold_batch now b a); split; [apply Hcur|done]]).
    + done.
    + unfold List.filter. by rewrite is_verdict_result.
Qed.

Lemma progress_other run n l pre i i' tr tr' :
  progress run n l pre i tr -> ing_ok i' -> verdicts_of run tr' = [] ->
  (ing_runs i !! run = None -> ing_runs i' !! run = None) ->
  (forall p a, current run i p a -> exists p', current run i' p' a) ->
  progress run n l pre i' (tr ++ tr').
Proof.
  intros [Hok Hp] Hok' Hv Hn Hc. split; [done|]. intros post Hl. specialize (Hp post Hl). case_decide.
  - destruct Hp as (Hr & a & m & sc & Ha & Hm & Hfrom & Hsc). split; [by apply Hn|]. exists a, m, sc.
    split_and!; [done|done|by apply (scored_from_more run m sc tr [])|]. by rewrite verdicts_of_app, Hv, app_nil_r.
  - destruct Hp as (Hv0 & p & a & Hcur & Ha). split; [by rewrite verdicts_of_app, Hv0, Hv|].
    destruct (Hc _ _ Hcur) as [p' Hcur']. by exists p', a.
Qed.

Lemma absorb_progress run n l pre b w i tr w1 :
  run_stream run n l -> progress run n l pre i tr -> acted w w1 i tr ->
  wp (absorb pgDSN b) (fun _ w2 => exists i' tr', acted w w2 i' (tr ++ tr') /\ group_calls tr' = []
    /\ progress run n l (pre ++ of_run run [b]) i' (tr ++ tr')) w1.
Proof.
  intros Hs Hp D. unfold of_run. destruct (decide (tb_run b = run)) as [Hrun|Hrun].
  - rewrite filter_cons_True by done. change (filter _ []) with (@nil TelemetryBatch).
    destruct (decide (pre ++ [b] `prefix_of` l)) as [[post Hl]|Hnot].
    + rewrite <- app_assoc in Hl. simpl in Hl. destruct Hp as [Hok Hp]. pose proof (Hp _ Hl) as Hopen.
      rewrite decide_False in Hopen by done.
      eapply wp_mono; [by eapply absorb_own|]. intros [] w2 (i' & tr' & D' & Hok' & Hac & Hres).
      exists i', tr'. split_and!; [done..|]. split; [done|]. intros post' Hl'. rewrite <- app_assoc in Hl'. simpl in Hl'.
      assert (post' = post) as -> by (rewrite Hl in Hl'; apply app_inv_head in Hl'; congruence). done.
    + eapply wp_mono; [by eapply (absorb_frame run); [apply Hp|]|].
      intros [] w2 (i' & tr' & D' & Hok' & Hac & _). exists i', tr'. split_and!; [done..|]. split; [done|].
      intros post Hl. destruct Hnot. by exists post.
  - rewrite filter_cons_False by done. change (filter _ []) with (@nil TelemetryBatch). rewrite app_nil_r.
    eapply wp_mono; [by eapply (absorb_frame run); [apply Hp|]|].
    intros [] w2 (i' & tr' & D' & Hok' & Hac & Hfr). destruct (Hfr Hrun) as (Hv & Hn & Hc).
    exists i', tr'. split_and!; [done..|]. by eapply progress_other.
Qed.

Lemma ingest_progress run n l pre m w i tr w1 :
  run_stream run n l -> is_Some m.2 -> progress run n l pre i tr -> acted w w1 i tr ->
  wp (ingest pgDSN m) (fun _ w2 => exists i' tr', acted w w2 i' (tr ++ tr') /\ group_calls tr' = [ack_of m]
    /\ progress run n l (pre ++ of_run run (batches [m])) i' (tr ++ tr')) w1.
Proof.
  intros Hs [payload Hm] Hp D. destruct m as [id p]. simpl in Hm. subst p. unfold ingest. simpl.
  apply wp_bind. apply wp_ret. apply wp_bind.
  assert (forall i' tr' w2, acted w w2 i' (tr ++ tr') -> group_calls tr' = [] ->
    progress run n l (pre ++ of_run run (batches [(id, Some payload)])) i' (tr ++ tr') ->
    wp (perform (XAck streamTele group id)) (fun _ w3 => exists i' tr', acted w w3 i' (tr ++ tr')
      /\ group_calls tr' = [ack_of (id, Some payload)]
      /\ progress run n l (pre ++ of_run run (batches [(id, Some payload)])) i' (tr ++ tr')) w2) as Hack.
  { intros i' tr' w2 D2 Hac Hp2. do_call D2. intros [] w3 D3. rewrite <- app_assoc in D3. eexists _, _.
    split; [exact D3|]. split; [by rewrite group_calls_app, Hac|]. rewrite app_assoc.
    eapply progress_other; [exact Hp2|apply Hp2|done|done|eauto]. }
  destruct payload as [b|err].
  - eapply wp_mono; [by eapply absorb_progress|]. intros [] w2 (i' & tr' & D2 & Hac & Hp2). by eapply Hack.
  - apply wp_ret. apply (Hack i []); [by rewrite app_nil_r|done|]. by rewrite !app_nil_r.
Qed.

Lemma of_run_app run msgs msgs' :
  of_run run (batches (msgs ++ msgs')) = of_run run (batches msgs) ++ of_run run (batches msgs').
Proof. unfold of_run, batches. by rewrite omap_app, filter_app. Qed.

(** Each message is acknowledged, and nothing else is done to the group. *)
Definition read_event (res : fetched TelemetryBatch) : event := ev (ReadBatches streamTele group 64) res.
Definition acked_once (m : delivery TelemetryBatch) (tr : list event) : Prop := group_calls tr = [ack_of m].

(** The messages delivered in a trace. *)
Definition delivered_by (e : event) : list (delivery TelemetryBatch) :=
  match e with
  | existT (ReadBatches _ _ _) (Fetched msgs) => msgs
  | _ => []
  end.
Definition delivered (tr : list event) : list (delivery TelemetryBatch) := concat (map delivered_by tr).

Lemma delivered_none tr : (forall s g n, ~ (ReadBatches s g n ∈ group_calls tr)) -> delivered tr = [].
Proof.
  unfold delivered, group_calls, writes. induction tr as [|[c r] tr IH]; intros Hn; [done|]. simpl in *.
  rewrite IH; [by destruct c; try done; exfalso; eapply Hn; left|].
  intros s g n Hin. apply (Hn s g n). destruct (is_write c); [|done]. simpl. destruct (is_group_call c); [by right|done].
Qed.

Lemma each_acked msgs tr : each_did acked_once msgs tr -> group_calls tr = map ack_of msgs.
Proof. induction 1 as [|m msgs tr tr' Hd _ IH]; [done|]. by rewrite group_calls_app, Hd, IH. Qed.

Lemma session_delivered n msgs tr : session read_event acked_once n msgs tr -> delivered tr = msgs.
Proof.
  induction 1 as [|n msgs tr _ IH|n msgs tr err _ IH|n new msgs tr tr' Hc%each_acked _ IH]; [done|exact IH|exact IH|].
  change (new ++ delivered (tr ++ tr') = new ++ msgs). f_equal. unfold delivered in *. rewrite map_app, concat_app, IH.
  fold (delivered tr). rewrite delivered_none; [done|]. rewrite Hc. intros s g k (m & Hm & _)%list_elem_of_fmap. done.
Qed.

(** Every message of the stream has a text payload: [flush] gives it one. *)
Class TextLaws : Prop := text_payload e r e' :
  env_step (ReadBatches streamTele group 64) e = (r, e') ->
  match r with Fetched msgs => Forall (fun m => is_Some m.2) msgs | _ => True end.

Lemma main_progress `{!TextLaws} run n l k (w : World W ingester) :
  run_stream run n l -> progress run n l [] (local w) [] ->
  wp (ingester_main pgDSN k) (fun _ w' => exists i' msgs tr, acted w w' i' tr
    /\ session read_event acked_once k msgs tr /\ progress run n l (of_run run (batches msgs)) i' tr) w.
Proof.
  intros Hs Hp. unfold ingester_main.
  eapply (turns_session _ _ read_event acked_once (fun m => is_Some m.2) _
    (fun pre i tr => progress run n l (of_run run (batches pre)) i tr) _ _ k [] (local w) [] w w);
    [exact Hp|apply acted_refl].
  Unshelve.
  - intros w0 i tr Q w1 D HQ. eapply (acted_call_law _ _ _ (ReadBatches streamTele group 64)); [exact text_payload|exact D|exact HQ].
  - intros pre i tr e Hpre He. eapply progress_other; [exact Hpre|apply Hpre| |done|eauto].
    by destruct He as [->|[res ->]].
  - intros pre i tr m w0 w1 Hm Hpre D. eapply wp_mono; [exact (ingest_progress run n l _ m w0 i tr w1 Hs Hm Hpre D)|].
    intros [] w2 (i' & tr' & D' & Hac & Hp'). exists i', tr'. by rewrite of_run_app.
Qed.

Lemma range_all `{!RangeLaws} t (l : list TelemetryBatch) :
  Forall2 ranges (map (tb_table t) l) (map (fun b => range_counts (tb_table t b)) l).
Proof. induction l as [|b l IH]; [constructor|]. constructor; [apply range_counts_ok|done]. Qed.

Lemma progress_start run n l i :
  ing_ok i -> ing_runs i !! run = None -> run_stream run n l -> progress run n l [] i [].
Proof.
  intros Hok Hnone Hs. split; [done|]. intros post Hl. simpl in Hl. subst post. case_decide as Hl.
  - subst l. destruct (rs_shard _ _ _ Hs 0) as [j Hj]; [split; [done|apply Hs]|]. by destruct j.
  - split; [done|]. exists (ing_next i), newAgg. split; [unfold current; by rewrite Hnone|apply aggregated_new].
Qed.

Lemma aggregated_hist `{!RangeLaws} n l a t parts :
  aggregated n l a -> Forall2 hist_of parts (map (tb_table t) l) -> few (concat parts) ->
  hist_of (concat parts) (ag_table t a).
Proof.
  intros Ha Hparts Hfew. rewrite (gd_table _ _ _ Ha t).
  apply (merge_all_ok parts (map (tb_table t) l) _ [] ∅); [done| |done|apply hist_of_empty]. apply range_all.
Qed.

(** C4. A run is aggregated completely and judged exactly once. The ingester
    runs for any number of turns, whatever Redis and the database answer, on a
    stream of messages of any runs, in any order that keeps each shard's own,
    some of them undecodable; it does not panic and acknowledges every message
    once. For a run whose batches are [l]: as long as some of them are missing
    no final result is written. When all have come, exactly one was written,
    computed from an aggregate that counts exactly what the batches count,
    whatever orders the maps are ranged over in, with the score of its metrics
    and of the conformance recorded for the run, and the run is forgotten. *)
Theorem run_is_aggregated_and_judged_once `{!RangeLaws, !TextLaws} (w : World W ingester) (run : string) (n : Z)
    (l : list TelemetryBatch) (k : nat) :
  ing_ok (local w) -> ing_runs (local w) !! run = None -> run_stream run n l ->
  wp (ingester_main pgDSN k) (fun _ w' => exists tr, let msgs := delivered tr in
    trace w' = trace w ++ tr /\ session read_event acked_once k msgs tr /\ ing_ok (local w')
    /\ (forall post, post <> [] -> l = of_run run (batches msgs) ++ post -> verdicts_of run tr = [])
    /\ (l = of_run run (batches msgs) -> ing_runs (local w') !! run = None /\ exists a m sc,
         verdicts_of run tr = [HSet ("result:" +:+ run) (result_fields m a sc true)] /\ compute a = Some m
         /\ scored_from run m sc tr
         /\ (forall c, ag_count c a = Int64.wrap (total c l))
         /\ forall t parts, Forall2 hist_of parts (map (tb_table t) l) -> few (concat parts) ->
              hist_of (concat parts) (ag_table t a))) w.
Proof.
  intros Hok Hnone Hs. eapply wp_mono; [by eapply main_progress, progress_start|].
  intros [] w' (i' & msgs & tr & (L & T & R) & Hses & Hok' & Hpro). exists tr. rewrite L.
  rewrite (session_delivered _ _ _ Hses). split_and!; [done..| |].
  - intros post Hne Hl. specialize (Hpro post Hl). rewrite decide_False in Hpro by done. apply Hpro.
  - intros Hl. specialize (Hpro []). rewrite app_nil_r, decide_True in Hpro by done.
    destruct (Hpro Hl) as (Hr & a & m & sc & Ha & Hm & Hfrom & Hv). split; [done|]. exists a, m, sc.
    split_and!; [done|done|done|apply Ha|]. intros t parts Hparts Hfew. by eapply aggregated_hist.
Qed.
End stream.

(** ** Witness: two shards, their batches interleaved *)

Definition demo_batch (shard : Z) (final : bool) (sent : Z) : TelemetryBatch :=
  mkBatch "run1" shard 2 final sent sent 0 0 (<[3 := sent]> ∅) (<[100 := sent]> ∅) ∅ [].

Definition demo_stream : list TelemetryBatch :=
  [demo_batch 1 false 4; demo_batch 0 false 5; demo_batch 1 true 2; demo_batch 0 false 7; demo_batch 0 true 1].

Lemma demo_run_stream : run_stream "run1" 2 demo_stream.
Proof.
  split; [done| |].
  - decide_now.
  - intros k Hk. assert (k = 0 \/ k = 1) as [-> | ->] by lia.
    + by exists 2%nat.
    + by exists 1%nat.
Qed.

Definition idle_ingester : ingester := mkIngester ∅ ∅ 0%N ∅.

Lemma idle_ingester_ok : ing_ok idle_ingester.
Proof. split; simpl; intros *; rewrite ?lookup_empty; try done. Qed.

#[local] Instance plain_text : Strconv := {| other_float := fun _ => F64.zero; quote := fun s => s |}.

(** A store that delivers given messages, one list per read. *)
Definition feed : Type := list (list (string * (TelemetryBatch + string))).
Definition feeding : Env feed := fun c w =>
  match c return reply c * feed with
  | ReadBatches _ _ _ =>
      match w with [] => (FetchNil, []) | ms :: w' => (Fetched (map (fun m => (m.1, Some m.2)) ms), w') end
  | c => (default_reply c, w)
  end.
#[local] Existing Instances toy_math plain_order plain_laws feeding.

#[local] Instance feeding_text : TextLaws.
Proof.
  intros e r e'. unfold env_step, feeding. destruct e as [|ms e]; intros Heq; injection Heq as <- _; [done|].
  apply Forall_forall. intros m (x & -> & _)%list_elem_of_fmap. by eexists.
Qed.

(** The two shards of run1, another run and noise, over three reads. *)
Definition demo_feed : feed :=
  [[("1", inl (demo_batch 1 false 4)); ("2", inl (mkBatch "run2" 0 3 true 9 9 0 0 ∅ ∅ ∅ [])); ("3", inl (demo_batch 0 false 5))];
   [("4", inr "unexpected end of JSON input"); ("5", inl (demo_batch 1 true 2))];
   [("6", inl (demo_batch 0 false 7)); ("7", inl (demo_batch 0 true 1))]].
Definition demo_fed : World feed ingester := mkWorld demo_feed idle_ingester [].

Lemma run_is_aggregated_and_judged_once_witness :
  wp (ingester_main "" 3) (fun _ w' => ing_runs (local w') !! "run2" = Some 1%N /\ exists a m sc,
    verdicts_of "run1" (trace w') = [HSet "result:run1" (result_fields m a sc true)] /\ ag_sent a = 19) demo_fed.
Proof.
  destruct (run_is_aggregated_and_judged_once "" demo_fed "run1" 2 demo_stream 3 idle_ingester_ok eq_refl demo_run_stream)
    as ([] & w' & Hrun & tr & Ht & _ & _ & _ & Hdone).
  exists tt, w'. split; [exact Hrun|]. simpl in Ht. subst tr.
  set (end_of := fun {A} (f : World feed ingester -> A) (d : A) =>
    match ingester_main "" 3 demo_fed with Ok (_, w) => f w | _ => d end).
  assert (forall A (f : World feed ingester -> A) d, f w' = end_of A f d) as Hend
    by (intros A f d; unfold end_of; rewrite Hrun; reflexivity).
  split; [rewrite (Hend _ (fun w => ing_runs (local w) !! "run2") None); vm_compute; reflexivity|].
  destruct Hdone as (_ & a & m & sc & Hv & _ & _ & Hc & _).
  - rewrite (Hend _ (fun w => of_run "run1" (batches (delivered (trace w)))) []). vm_compute. reflexivity.
  - exists a, m, sc. split; [exact Hv|]. exact (Hc CSent).
Defined.
