(* ===== verification/Leaderboard.v ===== *)
(** * The leaderboard keeps the best run

    [update_board] of [src/cmd/ingester/main.go] against a Redis that answers:
    a sorted set of submissions by score, and the key of each one's best run. *)
From S2P Require Import Prelude Protocol Float64 Text IO Store Ingester IngesterMetrics IngesterProps.
Local Open Scope Z_scope.

(** What the ingester relies on of Redis: [board] is the sorted set, [best] the
    runs kept beside it. *)
Class BoardLaws {W : Type} `{!Env W} (board : W -> gmap string F64.t) (best : W -> string -> option string) : Prop := {
  bl_score sub (e : W) r e' :
    env_step (ZScore "leaderboard" sub) e = (r, e') ->
    r = board e !! sub /\ board e' = board e /\ best e' = best e;
  bl_add sc sub (e : W) r e' :
    env_step (ZAdd "leaderboard" sc sub) e = (r, e') ->
    board e' = <[sub := sc]> (board e) /\ best e' = best e;
  bl_set sub run (e : W) r e' :
    env_step (SetKey ("best:" +:+ sub) run) e = (r, e') ->
    board e' = board e /\ best e' sub = Some run /\ forall sub', sub' <> sub -> best e' sub' = best e sub'
}.

(** A finished run: its id, its submission, its score. *)
Record finished := mkFinished { fn_run : string; fn_sub : string; fn_score : F64.t }.

(** The score is a number, not a NaN or an infinity. *)
Definition scored_run (f : finished) : Prop := exists z, F64.num (fn_score f) z.

Section board.
Context {W : Type} `{!Env W} (board : W -> gmap string F64.t) (best : W -> string -> option string).
Context `{!BoardLaws board best}.

(** Of the runs [fs], the board shows of every submission one whose score no
    other exceeds, and the key names that run. *)
Definition shows_best (fs : list finished) (e : W) : Prop :=
  forall sub,
    (board e !! sub = None /\ best e sub = None /\ Forall (fun f => fn_sub f <> sub) fs)
    \/ exists f, f ∈ fs /\ fn_sub f = sub
       /\ board e !! sub = Some (fn_score f) /\ best e sub = Some (fn_run f)
       /\ Forall (fun g => fn_sub g = sub -> F64.leb (fn_score g) (fn_score f) = true) fs.

Definition update (f : finished) : Ing (W := W) () := update_board (fn_run f) (fn_sub f) (fn_score f).

(** The board takes a run. *)
Definition took (f : finished) (e e' : W) : Prop :=
  board e' = <[fn_sub f := fn_score f]> (board e)
  /\ best e' (fn_sub f) = Some (fn_run f) /\ forall sub, sub <> fn_sub f -> best e' sub = best e sub.

Lemma update_board_effect (w : World W ingester) f :
  fn_sub f <> ""%string ->
  wp (update f) (fun _ w' =>
    if taken (fn_score f) (board (env w) !! fn_sub f) then took f (env w) (env w')
    else board (env w') = board (env w) /\ best (env w') = best (env w)) w.
Proof.
  intros Hne. unfold update, update_board. rewrite (proj2 (String.eqb_neq _ _) Hne).
  wp_step. apply bl_score in Henv as (-> & Hb & Hk).
  fold (taken (fn_score f) (board (env w) !! fn_sub f)). destruct (taken _ _).
  - wp_step. apply bl_add in Henv as [Hb1 Hk1]. wp_step. apply bl_set in Henv as (Hb2 & Hk2 & Hk3). simpl in *.
    split_and!; simpl; [by rewrite Hb2, Hb1, Hb|done|]. intros sub Hs. by rewrite Hk3, Hk1, Hk.
  - by apply wp_ret.
Qed.

Lemma leb_total x y a b : F64.num x a -> F64.num y b -> F64.leb x y = false -> F64.leb y x = true.
Proof. intros Hx Hy. rewrite (F64.leb_num x y a b), (F64.leb_num y x b a) by done. lia. Qed.

Lemma leb_trans x y z : scored_run x -> scored_run y -> scored_run z ->
  F64.leb (fn_score x) (fn_score y) = true -> F64.leb (fn_score y) (fn_score z) = true ->
  F64.leb (fn_score x) (fn_score z) = true.
Proof.
  intros [a Ha] [b Hb] [c Hc].
  rewrite (F64.leb_num _ _ a b), (F64.leb_num _ _ b c), (F64.leb_num _ _ a c) by done. lia.
Qed.

Lemma leb_refl x : scored_run x -> F64.leb (fn_score x) (fn_score x) = true.
Proof. intros [a Ha]. rewrite (F64.leb_num _ _ a a) by done. lia. Qed.

Lemma shows_best_step fs f e e' :
  Forall scored_run (fs ++ [f]) -> shows_best fs e ->
  (if taken (fn_score f) (board e !! fn_sub f)
   then took f e e'
   else board e' = board e /\ best e' = best e) ->
  shows_best (fs ++ [f]) e'.
Proof using Type.
  clear BoardLaws0.
  intros [Hfs [Hf _]%Forall_cons]%Forall_app Hshow Heff sub. rewrite Forall_forall in Hfs.
  destruct (decide (sub = fn_sub f)) as [->|Hne].
  - right. destruct (Hshow (fn_sub f)) as [(Hb & Hk & Hall)|(g & Hg & Hsub & Hb & Hk & Hall)].
    + rewrite Hb in Heff. destruct Heff as (Hb' & Hk' & _). exists f. rewrite Hb', lookup_insert_eq.
      split_and!; [set_solver|done..|]. apply Forall_app. split; [|by repeat constructor; intros _; apply leb_refl].
      eapply Forall_impl; [exact Hall|]. by intros g Hg Hs.
    + rewrite Hb in Heff. simpl in Heff. destruct (F64.leb (fn_score g) (fn_score f)) eqn:Hle.
      * destruct Heff as (Hb' & Hk' & _). exists f. rewrite Hb', lookup_insert_eq. split_and!; [set_solver|done..|].
        apply Forall_app. split; [|by repeat constructor; intros _; apply leb_refl].
        rewrite Forall_forall in Hall |- *. intros h Hh Hs. eapply (leb_trans h g f); eauto.
      * destruct Heff as [-> ->]. exists g. split_and!; [set_solver|done..|]. apply Forall_app.
        split; [done|]. repeat constructor. intros _. destruct (Hfs g Hg), Hf. by eapply leb_total.
  - assert (board e' !! sub = board e !! sub /\ best e' sub = best e sub) as [-> ->].
    { destruct (taken _ _); [destruct Heff as (-> & _ & Hk'); by rewrite lookup_insert_ne, Hk'|by destruct Heff as [-> ->]]. }
    destruct (Hshow sub) as [(Hb & Hk & Hall)|(g & Hg & Hsub & Hb & Hk & Hall)].
    + left. split_and!; [done..|]. apply Forall_app. split; [done|]. by repeat constructor.
    + right. exists g. split_and!; [set_solver|done..|]. apply Forall_app. split; [done|].
      repeat constructor. congruence.
Qed.

(** C14. The leaderboard keeps the best run. However many runs finish, in
    whatever order, on a board that was empty: every submission with a finished
    run is on the board with a score that none of its runs exceeds, its key
    names a run with that score, and no other submission is there. *)
Theorem leaderboard_keeps_best_run (w : World W ingester) (fs : list finished) :
  board (env w) = ∅ -> (forall sub, best (env w) sub = None) ->
  Forall scored_run fs -> Forall (fun f => fn_sub f <> ""%string) fs ->
  wp (for_each fs update) (fun _ w' => shows_best fs (env w')) w.
Proof.
  intros Hb Hk Hs Hne. apply (wp_for_each fs update (fun done w' => shows_best done (env w'))).
  - intros sub. left. by rewrite Hb, Hk, lookup_empty.
  - intros done f rest w1 Hl Hdone. subst fs. rewrite cons_middle, app_assoc in Hs.
    apply Forall_app in Hs as [Hs _]. apply Forall_app in Hne as [_ [Hf _]%Forall_cons].
    eapply wp_mono; [by apply update_board_effect|]. intros [] w2 Heff. by eapply shows_best_step.
Qed.
End board.

(** ** The store keeps such a board *)

Definition board_of (s : store) : gmap string F64.t := zset s "leaderboard".
Definition best_of (s : store) (sub : string) : option string := st_str s !! ("best:" +:+ sub)%string.

#[export] Instance store_board {W} `{!Env W, !FloatText} (view : W -> store) `{!StoreLaws view} :
  BoardLaws (fun e => board_of (view e)) (fun e => best_of (view e)).
Proof.
  split; intros *; intros [Ha Hv]%store_law; cbv beta; rewrite Hv.
  - done.
  - unfold board_of, zset. simpl. by rewrite lookup_insert_eq.
  - unfold best_of. simpl. split_and!; [done|by rewrite lookup_insert_eq|]. intros sub' Hne.
    rewrite lookup_insert_ne; [done|]. intros Heq. apply Hne. by apply (inj (String.append "best:")) in Heq.
Qed.

(** ** Witness *)

Definition demo_finished : list finished :=
  [mkFinished "r1" "alpha" (F64.of_Z 40); mkFinished "r2" "beta" (F64.of_Z 70);
   mkFinished "r3" "alpha" (F64.of_Z 90); mkFinished "r4" "beta" (F64.of_Z 10)].

#[local] Instance no_floats : FloatText := fun _ => ""%string.
#[local] Existing Instance redis.

Lemma leaderboard_keeps_best_run_witness :
  wp (for_each demo_finished update) (fun _ w' => shows_best board_of best_of demo_finished (env w'))
     (mkWorld (mkStore ∅ ∅ ∅ ∅) (mkIngester ∅ ∅ 0%N ∅) []).
Proof.
  apply (leaderboard_keeps_best_run board_of best_of).
  - reflexivity.
  - reflexivity.
  - unfold demo_finished. repeat (apply Forall_cons; split); try apply Forall_nil_2;
      (eexists; apply F64.of_Z_num_exact; lia).
  - unfold demo_finished. repeat (apply Forall_cons; split); try apply Forall_nil_2; discriminate.
Defined.
