(* ===== verification/Snapshot.v ===== *)
(** * The published board shows the verdicts

    [finalize] and [publishSnapshot] of [src/cmd/ingester/main.go] against the
    store: the numbers of a row travel as text through the hash of the best
    run, and arrive. *)
From S2P Require Import Prelude Protocol Float64 Text TextProps IO Store Counters Hist HistProps Score Ingester IngesterMetrics IngesterProps Leaderboard.
Local Open Scope Z_scope.

(** ** The numbers of an aggregate, as text and back *)

(** Acks and violations that are counts. *)
Definition verdict_small (a : runAgg) : Prop :=
  seconds_small a /\ ag_acked a <= 2 ^ 53 /\ 0 <= ag_violations a <= 2 ^ 53.

Section numbers.
Context `{!Math, !RangeOrder}.

Lemma max_tps_count a : seconds_small a -> exists t, 0 <= t <= 2 ^ 53 /\ max_tps a = F64.of_Z t.
Proof.
  intros Hs. destruct (tps_loop_ok a (merge_sort Z.le (range_counts (ag_secAcks a)).*1) 0 Hs ltac:(done)) as (t & Ht & Hsm & _).
  exists t. unfold max_tps. rewrite F64.of_Z_exact, Z.mul_0_l in Ht by done. unfold F64.zero. rewrite Ht.
  split; [unfold small_count in Hsm; lia|done].
Qed.

Lemma correctness_unsigned a : verdict_small a -> exists c, 0 <= c <= F64.one_u /\ correctness_of a = F64.Fin false c.
Proof.
  intros (_ & Hn & Hv). pose proof F64.one_u_pos as H1. destruct (decide (0 < ag_acked a)) as [Hpos|Hneg].
  - pose proof (correctness_of_num a ltac:(lia) Hv) as Hnum. pose proof (correct_u_range (ag_violations a) (ag_acked a) ltac:(lia) Hpos) as Hr.
    set (c := correct_u _ _) in *. exists c. split; [done|]. unfold correctness_of in *. rewrite (proj2 (Z.ltb_lt 0 _)) in * by done.
    cbv zeta in *. destruct (F64.ltb _ (F64.of_Z 0)).
    + rewrite F64.of_Z_exact in Hnum |- * by lia. f_equal. apply (F64.num_inj _ _ _ (F64.num_Fin (0 * F64.one_u) ltac:(lia)) Hnum).
    + rewrite (F64.of_Z_exact 1) in Hnum |- * by lia. apply F64.sub_positive; [exact Hnum|lia].
  - exists 0. split; [lia|]. unfold correctness_of. by rewrite (proj2 (Z.ltb_ge 0 _)) by lia.
Qed.

(** A double and the decimal it is rounded to when it is printed with four digits. *)
Definition four_decimals (x y : F64.t) : Prop :=
  exists c n, x = F64.Fin false c /\ 2 * Z.abs (n * F64.one_u - c * 10 ^ 4) <= F64.one_u /\ y = F64.dec n 4.

Context `{!Strconv}.

Lemma tps_reads a : seconds_small a -> parseFloat (fixed 0 (max_tps a)) = max_tps a.
Proof.
  intros (t & Ht & ->)%max_tps_count. rewrite F64.of_Z_exact by done. pose proof F64.one_u_pos.
  rewrite parseFloat_fixed by (apply Z.mul_nonneg_nonneg; lia). rewrite decimals_int by lia.
  rewrite F64.dec_int by lia. by apply F64.of_Z_exact.
Qed.

Lemma correctness_reads a : verdict_small a -> four_decimals (correctness_of a) (parseFloat (fixed 4 (correctness_of a))).
Proof.
  intros (c & Hc & ->)%correctness_unsigned. exists c, (decimals 4 c). split_and!; [done|apply (decimals_nearest 4)|].
  by rewrite parseFloat_fixed by lia.
Qed.

Lemma to_int64_range x : Int64.in_range (F64.to_int64 x).
Proof. destruct x as [| |s u]; simpl; [decide_now..|]. case_decide; [done|decide_now]. Qed.

Lemma Quantile_range c kvs q v : Quantile c kvs q = Some v -> Int64.in_range v.
Proof.
  assert (forall b, Int64.in_range (bucketValue b)) as Hb.
  { intros b. unfold bucketValue. case_match; [decide_now|apply to_int64_range]. }
  unfold Quantile. case_match; [intros [= <-]; decide_now|]. destruct (scan_rank _ _ _ _); [by intros [= <-]|].
  destruct (last _); [by intros [= <-]|done].
Qed.

Lemma micros_read v : Int64.in_range v -> parseInt (itoa (Z.quot v 1000)) = Z.quot v 1000.
Proof. intros Hv. apply parseInt_itoa. unfold Int64.in_range, Int64.min_val, Int64.max_val in *. Z.to_euclidean_division_equations; lia. Qed.
End numbers.

(** ** What the store says after a verdict *)

(** The rows published on a channel. *)
Definition published (tr : list event) : list (list boardRow) :=
  omap (fun c => match c with Publish _ rows => Some rows | _ => None end) (map called tr).

Lemma published_app tr tr' : published (tr ++ tr') = published tr ++ published tr'.
Proof. unfold published. by rewrite map_app, omap_app. Qed.

Lemma published_quiet tr e : published [e] = [] -> published (tr ++ [e]) = published tr.
Proof. intros He. by rewrite published_app, He, app_nil_r. Qed.

Section verdicts.
Context `{!Math, !RangeOrder, !Strconv, !FloatText} {W : Type} `{!Env W} (view : W -> store) `{!StoreLaws view} (pgDSN : string).

Definition field (h : gmap string string) (k : string) : string := default "" (h !! k).

(** The row of a member of the board. *)
Definition row_of (s : store) (rank : Z) (x : string * F64.t) : boardRow :=
  let run := default "" (best_of s x.1) in
  let res := hash s ("result:" +:+ run) in
  let sub := hash s ("submission:" +:+ x.1) in
  mkRow rank x.1 (field sub "team") (field sub "name") run x.2
        (parseInt (field res "p50_us")) (parseInt (field res "p99_us"))
        (parseFloat (field res "tps")) (parseFloat (field res "correctness")).

Fixpoint rows_of (s : store) (rank : Z) (members : list (string * F64.t)) : list boardRow :=
  match members with [] => [] | x :: members' => row_of s rank x :: rows_of s (rank + 1) members' end.

(** The names of the best runs are text, not boards. *)
Definition plain_best (s : store) : Prop := forall sub, st_snap s !! ("best:" +:+ sub)%string = None.

Definition unheard (w w' : World W ingester) : Prop :=
  view (env w') = view (env w) /\ local w' = local w /\ published (trace w') = published (trace w).

Lemma unheard_refl w : unheard w w.
Proof. done. Qed.

Lemma wp_read c Q (w w1 : World W ingester) :
  unheard w w1 -> effect c (view (env w)) = view (env w) -> (forall r, published [ev c r] = []) ->
  (forall r w2, answers c (view (env w)) r -> unheard w w2 -> Q r w2) -> wp (perform c) Q w1.
Proof.
  intros (Hv & Hl & Hp) Heff Hq HQ. apply (wp_store view). intros r e Ha He. rewrite Hv in Ha, He. apply HQ; [done|].
  split_and!; simpl; [by rewrite He|done|by rewrite published_quiet].
Qed.

Ltac do_read U := lazymatch goal with |- wp (perform ?c) _ _ => eapply (wp_read c); [exact U|done|done|] end.

Ltac do_store := lazymatch goal with |- wp (perform ?c) _ _ => apply (wp_store view c) end.

Lemma board_row_view rank x (w w1 : World W ingester) :
  plain_best (view (env w)) -> unheard w w1 ->
  wp (board_row rank x.1 x.2) (fun row w2 => row = row_of (view (env w)) rank x /\ unheard w w2) w1.
Proof.
  intros Hb U1. unfold board_row. apply wp_bind. do_read U1. intros sub w2 -> U2.
  apply wp_bind. do_read U2. intros run w3 Hrun U3. specialize (Hrun (Hb x.1)). subst run.
  apply wp_bind. do_read U3. intros res w4 -> U4. apply wp_ret. by split.
Qed.

Lemma board_rows_view rank members (w w1 : World W ingester) :
  plain_best (view (env w)) -> unheard w w1 ->
  wp (board_rows rank members) (fun rows w2 => rows = rows_of (view (env w)) rank members /\ unheard w w2) w1.
Proof.
  intros Hb. revert rank w1. induction members as [|x members IH]; intros rank w1 U1; [apply wp_ret; by split|].
  destruct x as [sub sc]. apply wp_bind. eapply wp_mono; [by apply (board_row_view rank (sub, sc))|]. intros row w2 [-> U2].
  apply wp_bind. eapply wp_mono; [by apply IH|]. intros rows w3 [-> U3]. apply wp_ret. by split.
Qed.

(** The first 25 members of a numeric board are published. *)
Lemma publishSnapshot_view (w : World W ingester) :
  plain_best (view (env w)) -> numeric (board_of (view (env w))) ->
  wp publishSnapshot (fun _ w' => exists members, highest 25 (board_of (view (env w))) members
    /\ let rows := rows_of (view (env w)) 1 members in
       view (env w') = effect (SetBoard keySnapshot rows) (view (env w)) /\ local w' = local w
       /\ published (trace w') = published (trace w) ++ [rows]) w.
Proof.
  intros Hb Hn. unfold publishSnapshot. apply wp_bind. assert (unheard w w) as U0 by done. do_read U0.
  intros r w2 Hr U2. destruct (Hr eq_refl ltac:(lia) Hn) as (members & -> & Htop). clear Hr.
  apply wp_bind. eapply wp_mono; [by apply board_rows_view|]. intros rows w3 [-> (Hv & Hl & Hp)].
  apply wp_bind. do_store. intros [] e _ He. do_store. intros [] e' _ He'. exists members.
  cbv zeta. split_and!; simpl in *; [done|by rewrite He', He, Hv|done|].
  by rewrite !published_app, Hp, app_nil_r.
Qed.

(** A run whose verdict is due: its aggregate, with its metrics, and what the
    hash of the run says. *)
Record judged := mkJudged {
  jd_run : string;
  jd_ptr : N;
  jd_agg : runAgg;
  jd_metrics : metrics;
  jd_sub : string;
  jd_score : F64.t
}.

Definition jd_finished (j : judged) : finished := mkFinished (jd_run j) (jd_sub j) (jd_score j).

Record due (s : store) (i : ingester) (j : judged) : Prop := {
  due_agg : ing_aggs i !! jd_ptr j = Some (jd_agg j);
  due_metrics : compute (jd_agg j) = Some (jd_metrics j);
  due_sub : hash s ("run:" +:+ jd_run j) !! "submission_id"%string = Some (jd_sub j);
  due_known : jd_sub j <> ""%string;
  due_score : jd_score j = Composite (m_p99 (jd_metrics j)) (m_tps (jd_metrics j)) (m_correctness (jd_metrics j))
    (match hash s ("run:" +:+ jd_run j) !! "conformance_score"%string with Some v => parseFloat v | None => F64.zero end);
  due_number : scored_run (jd_finished j);
  due_small : verdict_small (jd_agg j)
}.

(** What the verdict on [j] does to the store, up to the snapshot. *)
Definition verdict_fields (j : judged) : list (string * value) := result_fields (jd_metrics j) (jd_agg j) (jd_score j) true.
Definition done_fields (t : Z) : list (string * value) := [("status", VStr "done"); ("finished", VInt (t / second))].
Definition board_step (j : judged) (s : store) : store :=
  if taken (jd_score j) (board_of s !! jd_sub j)
  then effect (SetKey ("best:" +:+ jd_sub j) (jd_run j)) (effect (ZAdd "leaderboard" (jd_score j) (jd_sub j)) s) else s.
Definition written_store (j : judged) (t : Z) (s : store) : store :=
  effect (HSet ("run:" +:+ jd_run j) (done_fields t)) (effect (HSet ("result:" +:+ jd_run j) (verdict_fields j)) s).
Definition judged_store (j : judged) (t : Z) (s : store) : store := board_step j (written_store j t s).

Lemma update_board_view j (w w1 : World W ingester) :
  jd_sub j <> ""%string -> unheard w w1 ->
  wp (update_board (jd_run j) (jd_sub j) (jd_score j)) (fun _ w2 => view (env w2) = board_step j (view (env w))
    /\ local w2 = local w /\ published (trace w2) = published (trace w)) w1.
Proof.
  intros Hne U1. unfold update_board, board_step. rewrite (proj2 (String.eqb_neq _ _) Hne). apply wp_bind. do_read U1.
  intros cur w2 Hcur (Hv & Hl & Hp). simpl in Hcur. subst cur. fold (board_of (view (env w))).
  fold (taken (jd_score j) (board_of (view (env w)) !! jd_sub j)). destruct (taken _ _).
  - apply wp_bind. do_store. intros [] e _ He. do_store. intros [] e' _ He'. split_and!; simpl in *; [by rewrite He', He, Hv|done|].
    by rewrite !published_app, Hp, !app_nil_r.
  - by apply wp_ret.
Qed.

Lemma plain_best_written j t s : plain_best s -> plain_best (judged_store j t s).
Proof.
  intros Hb sub. unfold judged_store, board_step, written_store. destruct (taken _ _); simpl; [|apply Hb].
  rewrite lookup_delete_None. right. apply Hb.
Qed.

Lemma numeric_written j t s : scored_run (jd_finished j) -> numeric (board_of s) -> numeric (board_of (judged_store j t s)).
Proof.
  intros Hj Hn. unfold judged_store, board_step, written_store. destruct (taken _ _); [|done].
  intros m sc. unfold board_of, zset. simpl. rewrite lookup_insert_eq. simpl. rewrite lookup_insert_Some.
  intros [[<- <-]|[_ Hm]]; [done|by eapply Hn].
Qed.

Lemma wp_load_agg p a Q (w1 : World W ingester) : ing_aggs (local w1) !! p = Some a -> Q a w1 -> wp (load_agg p) Q w1.
Proof. intros Hp HQ. apply wp_bind, wp_get_local. rewrite Hp. by apply wp_ret. Qed.

Lemma persist_view run sub m sc a (w w1 : World W ingester) :
  unheard w w1 -> wp (persist pgDSN run sub m sc a) (fun _ w2 => unheard w w2) w1.
Proof.
  intros U1. unfold persist. destruct (String.eqb pgDSN ""); [by apply wp_ret|]. do_read U1. intros [] w2 _ U2. exact U2.
Qed.

(** The hash of the run still says where it was submitted when its state and
    its result are written. *)
Lemma written_sub j t s :
  hash (written_store j t s) ("run:" +:+ jd_run j) !! "submission_id"%string = hash s ("run:" +:+ jd_run j) !! "submission_id"%string.
Proof.
  unfold written_store. rewrite hash_hset, decide_True by done. rewrite set_fields_other by (simpl; set_solver).
  rewrite hash_hset, decide_False; [done|]. by intros [=].
Qed.

(** [finalize] of a run whose verdict is due. *)
Lemma finalize_view j (w : World W ingester) :
  due (view (env w)) (local w) j -> plain_best (view (env w)) -> numeric (board_of (view (env w))) ->
  wp (finalize pgDSN (jd_run j) (jd_ptr j)) (fun _ w' => exists t members,
    let s := judged_store j t (view (env w)) in
    let rows := rows_of s 1 members in
    highest 25 (board_of s) members /\ view (env w') = effect (SetBoard keySnapshot rows) s
    /\ ing_aggs (local w') = ing_aggs (local w) /\ published (trace w') = published (trace w) ++ [rows]) w.
Proof.
  intros [Hagg Hm Hsub Hne Hsc Hnum _] Hb Hn. unfold finalize.
  apply wp_bind. eapply wp_load_agg; [exact Hagg|]. apply wp_bind. rewrite Hm. apply wp_ret.
  pose proof (unheard_refl w) as U0. apply wp_bind. do_read U0. intros conf w1 Hconf (V1 & L1 & P1). cbv zeta.
  simpl in Hconf. subst conf. rewrite <- Hsc. clear Hsc.
  apply wp_bind. eapply wp_load_agg; [by rewrite L1|].
  apply wp_bind. unfold writeResult. do_store. intros [] e1 _ E1. apply wp_bind. do_store. intros t e2 _ E2.
  apply wp_bind. do_store. intros [] e3 _ E3. simpl env in *.
  set (w3 := mkWorld e3 _ _). assert (view e3 = written_store j t (view (env w))) as V3 by (by rewrite E3, E2, E1, V1).
  pose proof (unheard_refl w3) as U3. apply wp_bind. do_read U3. intros sub w4 Hs U4. simpl in Hs.
  rewrite V3, written_sub, Hsub in Hs. subst sub. simpl default.
  apply wp_bind. eapply wp_mono; [by apply update_board_view|]. intros [] w5 (V5 & L5 & P5).
  simpl env in V5. rewrite V3 in V5. fold (judged_store j t (view (env w))) in V5.
  apply wp_bind. eapply wp_mono; [apply publishSnapshot_view; rewrite V5; [by apply plain_best_written|by apply numeric_written]|].
  intros [] w6 (members & Htop & V6 & L6 & P6). rewrite V5 in *.
  apply wp_bind. eapply wp_load_agg; [by rewrite L6, L5; simpl; rewrite L1|].
  apply wp_bind. eapply wp_mono; [by apply persist_view|]. intros [] w7 (V7 & L7 & P7). apply wp_modify_local.
  exists t, members. cbv zeta. split_and!; simpl; [done|by rewrite V7, V6|by rewrite L7, L6, L5; simpl; rewrite L1|].
  rewrite P7, P6, P5. unfold w3. simpl trace. by rewrite !published_app, P1, !app_nil_r.
Qed.

(** ** After any number of verdicts *)

(** The result of a run is there to be read. *)
Definition result_ok (s : store) (j : judged) : Prop :=
  forall k v, (k, v) ∈ verdict_fields j -> hash s ("result:" +:+ jd_run j) !! k = Some (text_of v).

Lemma verdict_fields_NoDup j : NoDup (verdict_fields j).*1.
Proof. unfold verdict_fields, result_fields. destruct (ag_samples (jd_agg j)); apply (bool_decide_unpack _); vm_compute; exact I. Qed.

Lemma result_written j t s : result_ok (judged_store j t s) j.
Proof.
  intros k v Hin. unfold judged_store, board_step, written_store. destruct (taken _ _);
    (change (hash (effect (HSet ("run:" +:+ jd_run j) (done_fields t)) (effect (HSet ("result:" +:+ jd_run j) (verdict_fields j)) s))
              ("result:" +:+ jd_run j) !! k = Some (text_of v));
     rewrite hash_hset, decide_False by (by intros [=]); rewrite hash_hset, decide_True by done;
     apply set_fields_lookup; [apply verdict_fields_NoDup|done]).
Qed.

(** Another run's hashes are not touched. *)
Lemma other_hash j t s k :
  k <> ("run:" +:+ jd_run j)%string -> k <> ("result:" +:+ jd_run j)%string -> hash (judged_store j t s) k = hash s k.
Proof.
  intros Hk1 Hk2. transitivity (hash (written_store j t s) k); [unfold judged_store, board_step; by destruct (taken _ _)|].
  unfold written_store. by rewrite !hash_hset, !decide_False.
Qed.

Lemma result_kept j j' t s : jd_run j' <> jd_run j -> result_ok s j' -> result_ok (judged_store j t s) j'.
Proof.
  intros Hne Hr k v Hin. rewrite other_hash; [by apply Hr|by intros [=]|]. by intros ?%(inj (String.append "result:")).
Qed.

Lemma due_kept j j' t s i i' :
  jd_run j' <> jd_run j -> ing_aggs i' = ing_aggs i -> due s i j' -> due (judged_store j t s) i' j'.
Proof.
  intros Hne Hi Hdue.
  assert (hash (judged_store j t s) ("run:" +:+ jd_run j') = hash s ("run:" +:+ jd_run j')) as Hh.
  { apply other_hash; [|by intros [=]]. by intros ?%(inj (String.append "run:")). }
  destruct Hdue as [Hagg Hm Hsub Hk Hsc Hn Hs].
  split; rewrite ?Hh, ?Hi; [exact Hagg|exact Hm|exact Hsub|exact Hk|exact Hsc|exact Hn|exact Hs].
Qed.

(** Publishing changes neither the board, nor the best runs, nor a hash. *)
Lemma snap_best rows s sub : best_of (effect (SetBoard keySnapshot rows) s) sub = best_of s sub.
Proof. unfold best_of. simpl. apply lookup_delete_ne. by intros [=]. Qed.

Lemma rows_of_ext s s' rank members :
  (forall sub, best_of s' sub = best_of s sub) -> (forall k, hash s' k = hash s k) -> rows_of s' rank members = rows_of s rank members.
Proof.
  intros Hb Hh. revert rank. induction members as [|x members IH]; intros rank; [done|]. simpl. rewrite IH. f_equal.
  unfold row_of. by rewrite Hb, !Hh.
Qed.

Record shown (js : list judged) (s : store) : Prop := {
  sh_plain : plain_best s;
  sh_numeric : numeric (board_of s);
  sh_best : shows_best board_of best_of (map jd_finished js) s;
  sh_results : Forall (result_ok s) js
}.

(** The last snapshot is that of the store. *)
Definition snapped (w : World W ingester) : Prop :=
  let s := view (env w) in
  exists members, highest 25 (board_of s) members
  /\ st_snap s !! keySnapshot = Some (rows_of s 1 members) /\ last (published (trace w)) = Some (rows_of s 1 members).

Lemma board_step_took j s : (if taken (jd_score j) (board_of s !! jd_sub j)
  then took board_of best_of (jd_finished j) s (board_step j s)
  else board_of (board_step j s) = board_of s /\ best_of (board_step j s) = best_of s).
Proof.
  unfold board_step. destruct (taken _ _); [|done]. unfold took, board_of, best_of, zset. simpl.
  split_and!; [by rewrite lookup_insert_eq|by rewrite lookup_insert_eq|]. intros sub Hne.
  rewrite lookup_insert_ne; [done|]. intros ?%(inj (String.append "best:")). congruence.
Qed.

Lemma shown_judged js j t s : 
  shown js s -> scored_run (jd_finished j) -> Forall scored_run (map jd_finished js) -> ~ (jd_run j ∈ map jd_run js) ->
  shown (js ++ [j]) (judged_store j t s).
Proof.
  intros [Hp Hn Hb Hr] Hj Hjs Hnew. split; [by apply plain_best_written|by apply numeric_written| |].
  - rewrite map_app. simpl. apply (shows_best_step board_of best_of _ _ (written_store j t s)); [apply Forall_app; split; [done|by constructor]|exact Hb|].
    exact (board_step_took j (written_store j t s)).
  - apply Forall_app. split; [|by repeat constructor; apply result_written]. rewrite Forall_forall in Hr |- *. intros j' Hj'.
    apply result_kept; [|by apply Hr]. intros Heq. apply Hnew. rewrite <- Heq. by apply list_elem_of_fmap_2.
Qed.

(** ** What a row shows *)

(** The row [r] shows the verdict [j]: the team and the name of the submission,
    the run and its score, its percentiles in microseconds, its throughput,
    and its correctness to four decimals. *)
Record row_shows (s : store) (r : boardRow) (j : judged) : Prop := {
  rs_submission : br_submission r = jd_sub j;
  rs_team : br_team r = field (hash s ("submission:" +:+ jd_sub j)) "team";
  rs_name : br_name r = field (hash s ("submission:" +:+ jd_sub j)) "name";
  rs_run : br_run r = jd_run j;
  rs_score : br_score r = jd_score j;
  rs_p50 : br_p50 r = Z.quot (m_p50 (jd_metrics j)) 1000;
  rs_p99 : br_p99 r = Z.quot (m_p99 (jd_metrics j)) 1000;
  rs_tps : br_tps r = m_tps (jd_metrics j);
  rs_correctness : four_decimals (m_correctness (jd_metrics j)) (br_correctness r)
}.

Lemma compute_parts a m : compute a = Some m ->
  Int64.in_range (m_p50 m) /\ Int64.in_range (m_p99 m) /\ m_tps m = max_tps a /\ m_correctness m = correctness_of a.
Proof.
  unfold compute. destruct (Quantile _ _ (F64.dec 50 2)) as [p50|] eqn:E50; [|done]. simpl.
  destruct (Quantile _ _ (F64.dec 90 2)) as [p90|]; [|done]. simpl.
  destruct (Quantile _ _ (F64.dec 99 2)) as [p99|] eqn:E99; [|done]. intros [= <-]. simpl.
  split_and!; [by eapply Quantile_range|by eapply Quantile_range|done|done].
Qed.

Lemma result_field s j k v : result_ok s j -> (k, v) ∈ verdict_fields j -> field (hash s ("result:" +:+ jd_run j)) k = text_of v.
Proof. intros Hr Hin. unfold field. by rewrite (Hr k v Hin). Qed.

Lemma row_shows_ok s j rank :
  result_ok s j -> compute (jd_agg j) = Some (jd_metrics j) -> verdict_small (jd_agg j) ->
  best_of s (jd_sub j) = Some (jd_run j) -> row_shows s (row_of s rank (jd_sub j, jd_score j)) j.
Proof.
  intros Hr Hm Hsm Hb. destruct (compute_parts _ _ Hm) as (R50 & R99 & Htps & Hcor).
  unfold row_of. simpl. rewrite Hb. simpl default. split; simpl; [done..| | | |].
  - rewrite (result_field s j _ (VInt (Z.quot (m_p50 (jd_metrics j)) 1000)) Hr) by (left). by apply micros_read.
  - rewrite (result_field s j _ (VInt (Z.quot (m_p99 (jd_metrics j)) 1000)) Hr) by (right; right; left). by apply micros_read.
  - rewrite (result_field s j _ (VStr (fixed 0 (m_tps (jd_metrics j)))) Hr) by (right; right; right; left).
    simpl. rewrite Htps. apply tps_reads, Hsm.
  - rewrite (result_field s j _ (VStr (fixed 4 (m_correctness (jd_metrics j)))) Hr) by (right; right; right; right; left).
    simpl. rewrite Hcor. by apply correctness_reads.
Qed.

(** ** The snapshot of a board *)

(** The rows of a snapshot: a ranked extract [js0] of the verdicts [js]. *)
Record snapshot_of (js : list judged) (s : store) (rows : list boardRow) (js0 : list judged) : Prop := {
  so_rows : Forall2 (row_shows s) rows js0;
  so_ranks i r : rows !! i = Some r -> br_rank r = Z.of_nat i + 1;
  so_one : NoDup (map jd_sub js0);
  so_from j : j ∈ js0 -> j ∈ js;
  so_sorted : StronglySorted (fun a b => F64.leb (jd_score b) (jd_score a) = true) js0;
  so_bound : (length js0 <= 25)%nat;
  so_best j : j ∈ js -> (exists b, b ∈ js0 /\ jd_sub b = jd_sub j /\ F64.leb (jd_score j) (jd_score b) = true)
    \/ length js0 = 25%nat /\ Forall (fun b => F64.leb (jd_score j) (jd_score b) = true) js0
}.

Lemma rows_of_lookup s rank members i r :
  rows_of s rank members !! i = Some r -> exists x, members !! i = Some x /\ r = row_of s (rank + Z.of_nat i) x.
Proof.
  revert rank i. induction members as [|x members IH]; intros rank i; [done|]. destruct i as [|i]; simpl.
  - intros [= <-]. exists x. by rewrite Z.add_0_r.
  - intros (y & Hy & ->)%IH. exists y. split; [done|]. f_equal. lia.
Qed.

(** A choice for every element of a list. *)
Lemma Forall_choice {A B} (R : A -> B -> Prop) (l : list A) :
  Forall (fun x => exists y, R x y) l -> exists k, Forall2 R l k.
Proof.
  induction 1 as [|x l (y & Hy) _ (k & Hk)]; [by exists []|]. exists (y :: k). by constructor.
Qed.

(** The run a member of the board stands for. *)
Definition stands_for (s : store) (js : list judged) (x : string * F64.t) (j : judged) : Prop :=
  j ∈ js /\ jd_sub j = x.1 /\ jd_score j = x.2 /\ best_of s x.1 = Some (jd_run j).

Lemma member_stands js s x : shown js s -> x ∈ map_to_list (board_of s) -> exists j, stands_for s js x j.
Proof.
  intros Hs Hx. destruct x as [sub sc]. apply elem_of_map_to_list in Hx.
  destruct (sh_best js s Hs sub) as [(Hb & _ & _)|(f & Hf & Hsub & Hb & Hk & _)]; [congruence|].
  apply list_elem_of_fmap in Hf as (j & -> & Hj). exists j. simpl in *. split_and!; [done|done| |done]. simpl. congruence.
Qed.

Lemma stands_rows s js members js0 rank :
  Forall (fun j => result_ok s j /\ compute (jd_agg j) = Some (jd_metrics j) /\ verdict_small (jd_agg j)) js ->
  Forall2 (stands_for s js) members js0 -> Forall2 (row_shows s) (rows_of s rank members) js0.
Proof.
  intros Hjs Hst. revert rank. induction Hst as [|x j members js0 (Hj & Hsub & Hsc & Hb) _ IH]; intros rank; simpl; constructor; [|done].
  rewrite Forall_forall in Hjs. destruct (Hjs j Hj) as (Hr & Hm & Hsm). destruct x as [sub sc]. simpl in *. subst sub sc.
  by apply row_shows_ok.
Qed.

Lemma stands_sorted s js members js0 :
  Forall2 (stands_for s js) members js0 -> StronglySorted (fun x y => F64.leb y.2 x.2 = true) members ->
  StronglySorted (fun a b => F64.leb (jd_score b) (jd_score a) = true) js0.
Proof.
  induction 1 as [|x j members js0 (_ & _ & Hsc & _) Hst IH]; intros Hs; [constructor|].
  apply StronglySorted_inv in Hs as [Hs Hall]. constructor; [by apply IH|]. clear IH Hs.
  induction Hst as [|y k members js0 (_ & _ & Hsc' & _) Hst IH]; [constructor|].
  apply Forall_cons in Hall as [Hy Hall]. constructor; [by rewrite Hsc, Hsc'|by apply IH].
Qed.

Lemma stands_subs s js members js0 : Forall2 (stands_for s js) members js0 -> map jd_sub js0 = members.*1.
Proof. induction 1 as [|x j members js0 (_ & Hsub & _) _ IH]; [done|]. simpl. by rewrite Hsub, IH. Qed.

(** The best verdict of a submission is on the board, in the extract or below it. *)
Lemma best_shown s js members js0 j :
  shown js s -> Forall scored_run (map jd_finished js) -> highest 25 (board_of s) members ->
  Forall2 (stands_for s js) members js0 -> j ∈ js ->
  (exists b, b ∈ js0 /\ jd_sub b = jd_sub j /\ F64.leb (jd_score j) (jd_score b) = true)
    \/ length js0 = 25%nat /\ Forall (fun b => F64.leb (jd_score j) (jd_score b) = true) js0.
Proof.
  intros Hs Hsc (rest & Hperm & Hlen & _ & Hrest) Hst Hj. rewrite Forall_forall in Hsc.
  assert (jd_finished j ∈ map jd_finished js) as Hjf by (by apply list_elem_of_fmap_2).
  destruct (sh_best js s Hs (jd_sub j)) as [(_ & _ & Hno)|(f & Hf & Hsub & Hb & _ & Hall)].
  { rewrite Forall_forall in Hno. by destruct (Hno _ Hjf). }
  rewrite Forall_forall in Hall. pose proof (Hall _ Hjf eq_refl) as Hle. simpl in Hle.
  apply elem_of_map_to_list in Hb. rewrite <- Hperm in Hb. apply elem_of_app in Hb as [Hin|Hin].
  - left. apply list_elem_of_lookup in Hin as [i Hi]. destruct (Forall2_lookup_l _ _ _ _ _ Hst Hi) as (b & Hbi & _ & Hbs & Hbc & _).
    exists b. simpl in *. split_and!; [by eapply list_elem_of_lookup_2|done|by rewrite Hbc].
  - right. split.
    + rewrite <- (Forall2_length _ _ _ Hst), Hlen. pose proof (Permutation_length Hperm) as Hl.
      rewrite length_app, length_map_to_list in Hl. destruct rest; [by apply elem_of_nil in Hin|]. simpl in Hl. lia.
    + apply Forall_forall. intros b Hb'. apply list_elem_of_lookup in Hb' as [i Hi].
      destruct (Forall2_lookup_r _ _ _ _ _ Hst Hi) as (x & Hx & Hbjs & _ & Hbc & _).
      pose proof (proj1 (Forall_forall _ _) Hrest x (list_elem_of_lookup_2 _ _ _ Hx)) as Hall'.
      pose proof (proj1 (Forall_forall _ _) Hall' _ Hin) as Hle'.
      simpl in Hle'. rewrite <- Hbc in Hle'. apply (leb_trans (jd_finished j) f (jd_finished b)); [by apply Hsc|by apply Hsc| |exact Hle|exact Hle'].
      apply Hsc. by apply list_elem_of_fmap_2.
Qed.

Lemma snapshot_ok s js members :
  shown js s -> Forall (fun j => compute (jd_agg j) = Some (jd_metrics j) /\ verdict_small (jd_agg j)) js ->
  Forall scored_run (map jd_finished js) -> highest 25 (board_of s) members ->
  exists js0, snapshot_of js s (rows_of s 1 members) js0.
Proof.
  intros Hs Hjs Hsc Htop. pose proof Htop as (rest & Hperm & Hlen & Hsorted & _).
  assert (Forall (fun x => exists j, stands_for s js x j) members) as Hall.
  { rewrite Forall_forall. intros x Hx. apply member_stands; [done|]. rewrite <- Hperm. apply elem_of_app. by left. }
  destruct (Forall_choice _ _ Hall) as [js0 Hst]. exists js0. split.
  - apply (stands_rows s js); [|done]. apply Forall_and. split; [apply (sh_results js s Hs)|done].
  - intros i r (x & _ & ->)%rows_of_lookup. simpl. lia.
  - rewrite (stands_subs s js members js0 Hst). pose proof (NoDup_fst_map_to_list (board_of s)) as Hnd.
    rewrite <- Hperm, fmap_app in Hnd. by apply NoDup_app in Hnd as (? & _).
  - intros j Hj. apply list_elem_of_lookup in Hj as [i Hi]. by destruct (Forall2_lookup_r _ _ _ _ _ Hst Hi) as (x & _ & ? & _).
  - by eapply stands_sorted.
  - rewrite <- (Forall2_length _ _ _ Hst), Hlen. lia.
  - intros j Hj. by eapply best_shown.
Qed.

Lemma shown_snap js rows s : shown js s -> shown js (effect (SetBoard keySnapshot rows) s).
Proof.
  intros [Hp Hn Hb Hr]. split; [|exact Hn| |exact Hr].
  - intros sub. simpl. rewrite lookup_insert_ne; [apply Hp|]. by intros [=].
  - intros sub. rewrite snap_best. apply Hb.
Qed.

Lemma due_snap rows s i j : due s i j -> due (effect (SetBoard keySnapshot rows) s) i j.
Proof. intros [Hagg Hm Hsub Hk Hsc Hn Hs]. split; [exact Hagg|exact Hm|exact Hsub|exact Hk|exact Hsc|exact Hn|exact Hs]. Qed.

(** What holds after the verdicts [done] of [js]. *)
Definition judging (js done : list judged) (w : World W ingester) : Prop :=
  shown done (view (env w))
  /\ (forall j, j ∈ js -> ~ (jd_run j ∈ map jd_run done) -> due (view (env w)) (local w) j)
  /\ (done <> [] -> snapped w).

Lemma judging_step js done j (w : World W ingester) :
  Forall scored_run (map jd_finished js) -> (forall j', j' ∈ done -> j' ∈ js) -> j ∈ js -> ~ (jd_run j ∈ map jd_run done) ->
  judging js done w -> wp (finalize pgDSN (jd_run j) (jd_ptr j)) (fun _ w' => judging js (done ++ [j]) w') w.
Proof.
  intros Hsc Hsub Hj Hnew (Hs & Hdue & _). pose proof (Hdue j Hj Hnew) as Hdj. rewrite Forall_forall in Hsc.
  assert (forall j', j' ∈ js -> scored_run (jd_finished j')) as Hnum by (intros j' Hj'; by apply Hsc, list_elem_of_fmap_2).
  eapply wp_mono; [apply finalize_view; [exact Hdj|apply (sh_plain _ _ Hs)|apply (sh_numeric _ _ Hs)]|].
  intros [] w' (t & members & Htop & Hv & Ha & Hp). unfold judging, snapped. rewrite Hv. split_and!.
  - apply shown_snap, shown_judged; [done|by apply Hnum| |done]. apply Forall_forall. intros f Hf.
    apply list_elem_of_fmap in Hf as (j' & -> & Hj'). auto.
  - intros j' Hj' Hn. rewrite map_app, elem_of_app in Hn. apply due_snap.
    apply (due_kept _ _ _ _ (local w)); [set_solver|exact Ha|]. apply Hdue; [done|tauto].
  - intros _. exists members.
    rewrite (rows_of_ext (judged_store j t (view (env w))) (effect _ _)) by (done || apply snap_best). split_and!; [exact Htop| |].
    + simpl. by rewrite lookup_insert_eq.
    + rewrite Hp. apply last_snoc.
Qed.

(** C9. The published board shows the verdicts. However many runs are judged,
    in whatever order, on a board that was empty: the snapshot that is stored
    and the one that is published last are the same rows, numbered from 1, the
    highest scores first, at most 25. Each shows the best verdict of a
    submission of its own: its team, name, run and score, its percentiles to
    the microsecond, exactly the throughput that was computed, and the
    correctness to four decimals, although all of them went through the text of
    a hash. No verdict scores above the row of its submission, or, when
    there is none, above any of the 25 rows. *)
Theorem snapshot_shows_verdicts (w : World W ingester) (js : list judged) :
  js <> [] -> NoDup (map jd_run js) -> Forall (due (view (env w)) (local w)) js ->
  board_of (view (env w)) = ∅ -> (forall sub, best_of (view (env w)) sub = None) -> plain_best (view (env w)) ->
  wp (for_each js (fun j => finalize pgDSN (jd_run j) (jd_ptr j))) (fun _ w' => exists rows js0,
    st_snap (view (env w')) !! keySnapshot = Some rows /\ last (published (trace w')) = Some rows
    /\ snapshot_of js (view (env w')) rows js0) w.
Proof.
  intros Hne Hnd Hdue Hempty Hnone Hplain. rewrite Forall_forall in Hdue.
  assert (Forall scored_run (map jd_finished js)) as Hsc.
  { apply Forall_forall. intros f (j & -> & Hj)%list_elem_of_fmap. apply (due_number _ _ _ (Hdue j Hj)). }
  eapply wp_mono; [apply (wp_for_each js _ (fun done w' => judging js done w'))|].
  - split_and!; [|by intros j Hj _; apply Hdue|done]. split; [done| | |constructor].
    + intros m sc. by rewrite Hempty, lookup_empty.
    + intros sub. left. by rewrite Hempty, lookup_empty, Hnone.
  - intros done j rest w1 Hl Hd. assert (j ∈ js) as Hj by (rewrite Hl; set_solver).
    apply judging_step; [done|rewrite Hl; set_solver|done| |done].
    rewrite Hl, map_app in Hnd. apply NoDup_app in Hnd as (_ & Hx & _). intros Hin. apply (Hx _ Hin). left.
  - intros [] w' (Hs & _ & Hsnap). destruct (Hsnap Hne) as (members & Htop & Hst & Hp).
    destruct (snapshot_ok (view (env w')) js members Hs) as [js0 Hso]; [|done|done|by exists (rows_of (view (env w')) 1 members), js0].
    apply Forall_forall. intros j Hj. destruct (Hdue j Hj) as [_ Hm _ _ _ _ Hsm]. by split.
Qed.
End verdicts.

(** ** Witness: one run judged on an empty board *)

#[local] Instance no_floats : FloatText := fun _ => ""%string.
#[local] Existing Instances redis toy_math plain_order plain_text.

Definition demo_metrics : metrics :=
  match compute demo_agg with Some m => m | None => mkMetrics 0 0 0 F64.zero F64.zero F64.zero end.

Definition demo_due : judged :=
  mkJudged "run1" 0 demo_agg demo_metrics "alpha"
    (Composite (m_p99 demo_metrics) (m_tps demo_metrics) (m_correctness demo_metrics) (parseFloat "0.90")).

Definition demo_store : store :=
  mkStore {["run:run1" := <["submission_id" := "alpha"]> {["conformance_score" := "0.90"]}]} ∅ ∅ ∅.

Definition demo_stored : World store ingester :=
  mkWorld demo_store (mkIngester {["run1" := 0%N]} {[0%N := demo_agg]} 1 ∅) [].

Definition is_number (x : F64.t) : bool := match x with F64.Fin _ u => 0 <=? u | _ => false end.

Lemma is_number_num x : is_number x = true -> exists z, F64.num x z.
Proof. destruct x as [| |s u]; [done|done|]. intros Hu%Z.leb_le. by exists (F64.units s u), s, u. Qed.

Lemma demo_is_due : due demo_store (local demo_stored) demo_due.
Proof.
  split.
  - reflexivity.
  - vm_compute. reflexivity.
  - reflexivity.
  - discriminate.
  - reflexivity.
  - apply is_number_num. vm_compute. reflexivity.
  - split; [apply demo_seconds_small|]. simpl. lia.
Qed.

Lemma snapshot_shows_verdicts_witness :
  wp (for_each [demo_due] (fun j => finalize "" (jd_run j) (jd_ptr j)))
     (fun _ w' => exists rows js0, last (published (trace w')) = Some rows /\ Forall2 (row_shows (env w')) rows js0) demo_stored.
Proof.
  eapply wp_mono.
  { apply (snapshot_shows_verdicts (fun s => s) "" demo_stored [demo_due]).
    - discriminate.
    - apply NoDup_singleton.
    - apply Forall_singleton, demo_is_due.
    - reflexivity.
    - reflexivity.
    - intros sub. reflexivity. }
  intros [] w' (rows & js0 & _ & Hp & Hso). exists rows, js0. exact (conj Hp (so_rows _ _ _ _ Hso)).
Defined.
