(* ===== verification/IngesterSteps.v ===== *)
(** * The two goroutines of the ingester

    The stream reader ([absorb]) and the sweeper ([sweep]) share the map of
    runs. Here each is followed on its own: which runs a tick of the sweeper
    judges, and what a batch does that comes after its run was judged. Their
    interleavings are in [IngesterSched]. *)
From stdpp Require Import relations.
From S2P Require Import Prelude Protocol Float64 Text IO Counters Hist HistProps Score Bot BotTurn.
From S2P Require Import Ingester IngesterMetrics IngesterProps IngesterStream.
Local Open Scope Z_scope.

(** ** The sweeper's critical section *)

Section sweep.
Context `{!Math, !RangeOrder} {W : Type} `{!Env W, !Strconv}.

(** What is known of a run that a tick leaves alone. *)
Definition spared (a : runAgg) (tr : list event) : Prop :=
  ag_finalized a = true \/ exists t, ev Now t ∈ tr /\ Int64.sub t (ag_lastSeen a) <= staleAfter.

(** What is known of a run that a tick marks. *)
Definition silent (a : runAgg) (tr : list event) : Prop :=
  ag_finalized a = false /\ exists t, ev Now t ∈ tr /\ staleAfter < Int64.sub t (ag_lastSeen a).

(** The aggregates of the runs [marked] are finalized, the others unchanged. *)
Record swept (i i' : ingester) (entries marked : list (string * N)) (tr : list event) : Prop := mkSwept {
  sw_runs : ing_runs i' = ing_runs i;
  sw_next : ing_next i' = ing_next i;
  sw_sub : marked `sublist_of` entries;
  sw_aggs p : ing_aggs i' !! p = if decide (p ∈ marked.*2) then set_finalized <$> ing_aggs i !! p
                                 else ing_aggs i !! p;
  sw_marked id p a : (id, p) ∈ marked -> ing_aggs i !! p = Some a -> silent a tr;
  sw_spared id p a : (id, p) ∈ entries -> (id, p) ∉ marked -> ing_aggs i !! p = Some a -> spared a tr;
  sw_reads : writes tr = []
}.

Lemma swept_nil i : swept i i [] [] [].
Proof.
  split; [done|done|constructor| | | |done].
  - intros p. by destruct (decide (p ∈ [].*2)) as [Hp%elem_of_nil|].
  - by intros id p a Hin%elem_of_nil.
  - by intros id p a Hin%elem_of_nil.
Qed.

Lemma silent_mono a tr tr' : silent a tr -> silent a (tr' ++ tr).
Proof. intros (? & t & ? & ?). split; [done|]. exists t. split; [|done]. apply elem_of_app. by right. Qed.

Lemma spared_mono a tr tr' : spared a tr -> spared a (tr' ++ tr).
Proof. intros [?|(t & ? & ?)]; [by left|right]. exists t. split; [|done]. apply elem_of_app. by right. Qed.

Lemma swept_skip i i' entries marked tr tr0 id p a :
  ing_aggs i !! p = Some a -> spared a tr0 -> writes tr0 = [] ->
  swept i i' entries marked tr -> swept i i' ((id, p) :: entries) marked (tr0 ++ tr).
Proof.
  intros Ha Hsp Hw [E1 E2 E3 E4 E5 E6 E7]. split; try done.
  - by constructor.
  - intros id' p' a' Hin Ha'. by eapply silent_mono, E5.
  - intros id' p' a' [[= -> ->]|Hin]%elem_of_cons Hnot Ha'.
    + rewrite Ha in Ha'. injection Ha' as <-. destruct Hsp as [?|(t & ? & ?)]; [by left|right].
      exists t. split; [|done]. apply elem_of_app. by left.
    + by eapply spared_mono, E6.
  - by rewrite writes_app, Hw, E7.
Qed.

Lemma swept_mark i i' entries marked tr tr0 id p a :
  ing_aggs i !! p = Some a -> silent a tr0 -> writes tr0 = [] -> p ∉ entries.*2 ->
  swept (set_agg p (set_finalized a) i) i' entries marked tr ->
  swept i i' ((id, p) :: entries) ((id, p) :: marked) (tr0 ++ tr).
Proof.
  intros Ha Hsi Hw Hp [E1 E2 E3 E4 E5 E6 E7]. simpl in *.
  assert (p ∉ marked.*2) as Hpm.
  { intros Hin. apply Hp. eapply sublist_subseteq; [|exact Hin]. by apply fmap_sublist. }
  assert (forall id' p', (id', p') ∈ entries -> p <> p') as Hne.
  { intros id' p' Hin ->. apply Hp, list_elem_of_fmap. by exists (id', p'). }
  split; try done.
  - by constructor.
  - intros q. rewrite E4. simpl. destruct (decide (q = p)) as [->|Hq].
    + rewrite decide_False by done. rewrite decide_True by left. by rewrite lookup_insert_eq, Ha.
    + rewrite lookup_insert_ne by done.
      assert (q ∈ marked.*2 <-> q ∈ p :: marked.*2) as Hiff by (rewrite elem_of_cons; intuition).
      by rewrite (decide_ext _ _ _ _ Hiff).
  - intros id' p' a' [[= -> ->]|Hin]%elem_of_cons Ha'.
    + rewrite Ha in Ha'. injection Ha' as <-. destruct Hsi as (? & t & ? & ?). split; [done|].
      exists t. split; [|done]. apply elem_of_app. by left.
    + eapply silent_mono, E5; [done|]. rewrite lookup_insert_ne; [done|].
      eapply (Hne id'), sublist_subseteq; done.
  - intros id' p' a' [[= -> ->]|Hin]%elem_of_cons Hnot Ha'; [exfalso; apply Hnot; left|].
    eapply spared_mono, E6; [done| |by rewrite lookup_insert_ne by by eapply Hne]. set_solver.
  - by rewrite writes_app, Hw, E7.
Qed.

Lemma mark_stale_ok entries w i tr w1 :
  NoDup entries.*2 -> (forall p, p ∈ entries.*2 -> is_Some (ing_aggs i !! p)) -> acted w w1 i tr ->
  wp (mark_stale entries) (fun ids w2 => exists i' tr' marked,
    acted w w2 i' (tr ++ tr') /\ ids = marked.*1 /\ swept i i' entries marked tr') w1.
Proof.
  revert i tr w1. induction entries as [|[id p] entries IH]; intros i tr w1 Hnd Hag D.
  { apply wp_ret. exists i, [], []. rewrite app_nil_r. split_and!; [done|done|apply swept_nil]. }
  rewrite fmap_cons in Hnd, Hag. apply NoDup_cons in Hnd as [Hp Hnd]. simpl in Hp.
  destruct (Hag p) as [a Ha]; [left|].
  assert (forall q, q ∈ entries.*2 -> is_Some (ing_aggs i !! q)) as Hag' by (intros; apply Hag; by right).
  simpl. apply wp_bind. eapply ing_load; [exact D|exact Ha|]. apply wp_bind.
  assert (forall tr0 w2, acted w w2 i (tr ++ tr0) -> spared a tr0 -> writes tr0 = [] ->
    wp (mark_stale entries) (fun ids w3 => exists i' tr' marked, acted w w3 i' (tr ++ tr') /\ ids = marked.*1
      /\ swept i i' ((id, p) :: entries) marked tr') w2) as Hskip.
  { intros tr0 w2 D2 Hsp Hw. eapply wp_mono; [by eapply IH|]. intros ids w3 (i' & tr' & marked & D3 & Hids & Hs).
    exists i', (tr0 ++ tr'), marked. rewrite app_assoc. split_and!; [done|done|]. by eapply swept_skip. }
  destruct (ag_finalized a) eqn:Hfin.
  - apply wp_ret. apply (Hskip []); [by rewrite app_nil_r|by left|done].
  - apply wp_bind. eapply (acted_call _ _ _ Now); [exact D|]. intros now w2 D2. apply wp_ret.
    destruct (Z.ltb_spec staleAfter (Int64.sub now (ag_lastSeen a))) as [Hlt|Hge].
    + apply wp_bind. eapply acted_modify; [exact D2|]. intros w3 D3. apply wp_bind.
      eapply wp_mono; [eapply IH; [done| |exact D3]|].
      { intros q Hq. simpl. rewrite lookup_insert_is_Some. destruct (Hag' q Hq). by destruct (decide (p = q)); [left|right]. }
      intros ids w4 (i' & tr' & marked & D4 & -> & Hs). apply wp_ret. rewrite <- app_assoc in D4.
      eexists i', _, ((id, p) :: marked). split; [exact D4|]. split; [done|].
      eapply swept_mark; [done| |done|done|done]. split; [done|]. exists now. split; [left|done].
    + apply (Hskip [ev Now now]); [done| |done]. right. exists now. split; [left|done].
Qed.

Lemma range_entries `{!RangeLaws} i :
  ing_ok i ->
  NoDup (range_runs (ing_runs i)).*2
  /\ (forall id p, (id, p) ∈ range_runs (ing_runs i) <-> ing_runs i !! id = Some p).
Proof.
  intros [_ _ Hinj]. pose proof (range_runs_ok (ing_runs i)) as Hp. split.
  - rewrite Hp. apply NoDup_fmap_2_strong; [|apply NoDup_map_to_list].
    intros [r p] [r' p'] Hr Hr' Heq. simpl in Heq. subst p'.
    apply elem_of_map_to_list in Hr, Hr'. by rewrite (Hinj _ _ _ Hr Hr').
  - intros id p. rewrite Hp. apply elem_of_map_to_list.
Qed.

Lemma sweep_marks `{!RangeLaws} w i tr w1 :
  ing_ok i -> acted w w1 i tr ->
  wp (mark_stale (range_runs (ing_runs i))) (fun ids w2 => exists i' tr' marked,
    acted w w2 i' (tr ++ tr') /\ ids = marked.*1 /\ swept i i' (range_runs (ing_runs i)) marked tr') w1.
Proof.
  intros Hok D. destruct (range_entries i Hok) as [Hnd Hin]. apply mark_stale_ok; [done| |done].
  intros p Hp. apply list_elem_of_fmap in Hp as ([id q] & -> & Hp). apply Hin in Hp. by eapply io_agg.
Qed.

Lemma swept_ok i i' entries marked tr : ing_ok i -> swept i i' entries marked tr -> ing_ok i'.
Proof.
  intros [Hagg Hnext Hinj] [Hr Hn _ Ha _ _ _].
  assert (forall p, is_Some (ing_aggs i' !! p) <-> is_Some (ing_aggs i !! p)) as Hdom.
  { intros p. rewrite Ha. destruct (decide (p ∈ marked.*2)); [apply fmap_is_Some|done]. }
  split; rewrite ?Hr, ?Hn; intros *; rewrite ?Hdom; eauto.
Qed.

Lemma marked_NoDup (runs : gmap string N) (entries marked : list (string * N)) :
  NoDup entries.*2 -> marked `sublist_of` entries -> (forall id p, (id, p) ∈ marked -> runs !! id = Some p) ->
  NoDup marked.*1.
Proof.
  intros Hnd Hsub Hmk. apply NoDup_fmap_2_strong.
  - intros [r p] [r' p'] Hr%Hmk Hr'%Hmk Heq. simpl in *. by simplify_eq.
  - apply (NoDup_fmap_1 snd). eapply sublist_NoDup; [exact Hnd|]. by apply fmap_sublist.
Qed.

(** ** A whole tick of the sweeper *)

Lemma finalize_all_ok pgDSN marked w i tr w1 :
  NoDup marked.*1 ->
  (forall id p, (id, p) ∈ marked -> ing_runs i !! id = Some p /\ is_Some (ing_aggs i !! p)) ->
  acted w w1 i tr ->
  wp (finalize_all pgDSN marked.*1) (fun _ w2 => exists i' tr', acted w w2 i' (tr ++ tr')
    /\ ing_aggs i' = ing_aggs i
    /\ (forall id, ing_runs i' !! id = if decide (id ∈ marked.*1) then None else ing_runs i !! id)
    /\ Forall2 (fun idp c => exists a m sc, ing_aggs i !! idp.2 = Some a /\ compute a = Some m
         /\ c = HSet ("result:" +:+ idp.1) (result_fields m a sc true)) marked (verdicts tr')) w1.
Proof.
  revert i tr w1. induction marked as [|[id p] marked IH]; intros i tr w1 Hnd Hin D.
  { apply wp_ret. exists i, []. rewrite app_nil_r. split_and!; [done|done| |constructor].
    intros id. by destruct (decide (id ∈ [].*1)) as [Hx%elem_of_nil|]. }
  rewrite fmap_cons in Hnd. apply NoDup_cons in Hnd as [Hid Hnd]. simpl in Hid.
  destruct (Hin id p) as [Hr [a Ha]]; [left|]. simpl.
  apply wp_bind. eapply acted_get; [exact D|]. apply wp_bind. rewrite Hr. apply wp_ret.
  apply wp_bind. eapply wp_mono; [by eapply finalize_ok|]. intros [] w2 (m & tr1 & Hm & D2 & Hv).
  destruct (verdict_verdicts _ _ _ _ _ Hv) as (sc & _ & Hsc).
  eapply wp_mono; [eapply IH; [done| |exact D2]|].
  - intros id' p' Hin'. simpl. rewrite lookup_delete_ne; [by apply Hin; right|].
    intros ->. apply Hid, list_elem_of_fmap. by exists (id', p').
  - intros [] w3 (i' & tr2 & D3 & Hag & Hru & HF). exists i', (tr1 ++ tr2). rewrite app_assoc.
    split_and!; [done|done| |].
    + intros id'. rewrite Hru. simpl. destruct (decide (id' = id)) as [->|Hne].
      * rewrite (decide_False (P := id ∈ marked.*1)) by done. rewrite decide_True by left. apply lookup_delete_eq.
      * rewrite lookup_delete_ne by done.
        assert (id' ∈ marked.*1 <-> id' ∈ id :: marked.*1) as Hiff by (rewrite elem_of_cons; intuition).
        by rewrite (decide_ext _ _ _ _ Hiff).
    + rewrite verdicts_app, Hsc. simpl. constructor; [by exists a, m, sc|done].
Qed.

Definition now_of (e : event) : option Z :=
  match e with existT Now t => Some t | _ => None end.

Lemma runs_now clock `{!ClockLaws clock} (e : W) tr e' t :
  runs e tr e' -> ev Now t ∈ tr -> clock e <= t <= clock e'.
Proof.
  induction 1 as [|e c r e1 tr e2 He Hrun IH]; [by intros ?%elem_of_nil|].
  pose proof (runs_clock clock _ _ _ Hrun) as Hc. pose proof (clock_mono c e r e1 He) as Hm.
  intros [Heq|Hin]%elem_of_cons.
  - apply (f_equal now_of) in Heq. destruct c; simplify_eq/=. pose proof (clock_now e _ e1 He). lia.
  - specialize (IH Hin). lia.
Qed.

(** C35. The sweeper judges exactly the silent runs. A tick marks every
    unfinalized run that was silent for more than 60 seconds when the tick
    began, and no run that was not silent that long when it ended; each marked
    run gets one final result, computed from its partial aggregate, and is
    forgotten; the other runs stay. *)
Theorem sweep_judges_exactly_silent_runs `{!RangeLaws} (pgDSN : string) (clock : W -> Z) `{!ClockLaws clock}
    (w : World W ingester) :
  ing_ok (local w) -> 0 <= clock (env w) ->
  (forall p a, ing_aggs (local w) !! p = Some a -> 0 <= ag_lastSeen a <= clock (env w)) ->
  wp (sweep_tick pgDSN) (fun _ w' => clock (env w') <= Int64.max_val -> exists marked tr,
    trace w' = trace w ++ tr /\ NoDup marked.*1
    /\ (forall id, ing_runs (local w') !! id = if decide (id ∈ marked.*1) then None else ing_runs (local w) !! id)
    /\ Forall2 (fun idp c => exists a m sc, ing_aggs (local w) !! idp.2 = Some a /\ compute a = Some m
         /\ c = HSet ("result:" +:+ idp.1) (result_fields m a sc true)) marked (verdicts tr)
    /\ forall id p a, ing_runs (local w) !! id = Some p -> ing_aggs (local w) !! p = Some a ->
         (id ∈ marked.*1 -> ag_finalized a = false /\ staleAfter < clock (env w') - ag_lastSeen a)
         /\ (ag_finalized a = false -> staleAfter < clock (env w) - ag_lastSeen a -> id ∈ marked.*1)) w.
Proof.
  intros Hok Hpos Hseen. unfold sweep_tick. apply wp_bind, wp_get_local. apply wp_bind.
  destruct (range_entries (local w) Hok) as [Hnd2 Hin].
  eapply wp_mono; [apply sweep_marks; [done|apply acted_refl]|].
  intros ids w2 (i2 & tr2 & marked & D2 & -> & [Sr Sn Ss Sa Sm Sp Sw]). simpl in D2.
  assert (forall id p, (id, p) ∈ marked -> ing_runs (local w) !! id = Some p) as Hmk.
  { intros id p Hm. apply Hin. by eapply sublist_subseteq. }
  assert (NoDup marked.*1) as Hnd by (by eapply marked_NoDup).
  eapply wp_mono; [eapply finalize_all_ok; [done| |exact D2]|].
  - intros id p Hm. rewrite Sr. split; [by apply Hmk|]. rewrite Sa.
    destruct (io_agg _ Hok id p (Hmk _ _ Hm)) as [a Ha]. destruct (decide _); rewrite Ha; by eexists.
  - intros [] w3 (i3 & tr3 & (L3 & T3 & R3) & Hag & Hru & HF) Hmax.
    exists marked, (tr2 ++ tr3). rewrite L3. split_and!; [done|done| | |].
    + intros id. by rewrite Hru, Sr.
    + rewrite verdicts_app. unfold verdicts at 1. rewrite Sw. simpl.
      eapply Forall2_impl; [exact HF|]. intros [id p] c (a & m & sc & Ha & Hm & ->). simpl in *.
      rewrite Sa in Ha. destruct (decide (p ∈ marked.*2)); [|by exists a, m, sc].
      apply fmap_Some in Ha as (a0 & Ha0 & ->). by exists a0, m, sc.
    + intros id p a Hr Ha. pose proof (Hseen p a Ha) as Hls.
      assert (forall t : Z, ev Now t ∈ tr2 -> clock (env w) <= t <= clock (env w3)) as Hnow.
      { intros t Ht. eapply (runs_now clock); [exact R3|]. apply elem_of_app. by left. }
      assert (forall t : Z, ev Now t ∈ tr2 -> Int64.sub t (ag_lastSeen a) = t - ag_lastSeen a) as Hsub.
      { intros t Ht%Hnow. apply Int64.sub_small; [lia|]. unfold Int64.in_range, Int64.min_val. lia. }
      split.
      * intros Hm. apply list_elem_of_fmap in Hm as ([id' p'] & Heq & Hm). simpl in Heq. subst id'.
        pose proof (Hmk _ _ Hm) as Hr'. simplify_eq.
        destruct (Sm _ _ _ Hm Ha) as (Ho & t & Ht & Hlt). split; [done|]. rewrite Hsub in Hlt by done.
        specialize (Hnow t Ht). lia.
      * intros Ho Hst. destruct (decide ((id, p) ∈ marked)) as [Hm|Hm]; [apply list_elem_of_fmap; by exists (id, p)|].
        exfalso. destruct (Sp id p a) as [Hf|(t & Ht & Hle)]; [by apply Hin|done|done|congruence|].
        rewrite Hsub in Hle by done. specialize (Hnow t Ht). lia.
Qed.

(** ** After the verdict *)

Lemma one_batch_incomplete now b : 1 < tb_total b -> complete (fold_batch now b newAgg) = false.
Proof.
  intros Ht. unfold complete. simpl. rewrite (proj2 (Z.leb_gt _ _)); [apply andb_false_r|].
  destruct (tb_final b); [|rewrite size_empty; lia]. rewrite union_empty_r_L, size_singleton. lia.
Qed.

(** A late batch reopens the run. [finalize] forgets the run, and with it
    that it was judged: when a batch of a run of several shards arrives
    afterwards, the ingester tracks the run again with an aggregate of this
    batch alone, not finalized, which the live figures may write over the
    final result and the sweeper judges once more. *)
Theorem late_batch_reopens_run (pgDSN : string) (w : World W ingester) (b : TelemetryBatch) :
  ing_ok (local w) -> ing_runs (local w) !! tb_run b = None -> 1 < tb_total b ->
  wp (absorb pgDSN b) (fun _ w' => exists p now tr, let a := fold_batch now b newAgg in
    trace w' = trace w ++ tr
    /\ ing_runs (local w') = <[tb_run b := p]> (ing_runs (local w))
    /\ ing_aggs (local w') !! p = Some a /\ ag_finalized a = false
    /\ (writes tr = []
        \/ exists m, compute a = Some m
            /\ writes tr = [HSet ("result:" +:+ tb_run b) (result_fields m a F64.zero false)])) w.
Proof.
  intros Hok Hnone Ht. unfold absorb. apply wp_bind.
  eapply wp_mono; [apply (absorb_locked_ok w (local w) [] b w Hok (acted_refl w))|].
  intros r w1 (p & a & Hc & Hres). unfold current in Hc. rewrite Hnone in Hc. destruct Hc as [-> ->]. simpl in Hres.
  destruct Hres as (now & -> & D1). unfold folded in D1. rewrite one_batch_incomplete in D1 |- * by done.
  set (i1 := set_agg _ _ _) in D1. set (a := fold_batch now b newAgg) in *.
  assert (ing_aggs i1 !! ing_next (local w) = Some a) as Ha by apply lookup_insert_eq.
  assert (ing_runs i1 = <[tb_run b := ing_next (local w)]> (ing_runs (local w))) as Hr.
  { unfold i1, find_agg. by rewrite Hnone. }
  eapply wp_mono; [by eapply live_ok|].
  intros [] w2 (tr & [[(L & T & _) Hw]|(t & m & Hm & (L & T & _) & Hw)]);
    (eexists _, now, _; split; [exact T|]); rewrite L; (split; [exact Hr|]); (split; [exact Ha|]);
    (split; [done|]); [left|right; exists m; split; [done|]]; by rewrite writes_app, Hw.
Qed.
End sweep.

(** ** Witnesses *)

#[local] Instance plain_text : Strconv := {| other_float := fun _ => F64.zero; quote := fun s => s |}.
#[local] Existing Instances toy_math plain_order plain_laws dead_engine dead_clock.

(** Two minutes after the last batch of [run1], one second after that of [run2]. *)
Definition seen_at (t : Z) : runAgg := fold_batch t (demo_batch 0 false 5) newAgg.
Definition demo_tracking : ingester :=
  mkIngester (<["run1" := 0%N]> (<["run2" := 1%N]> ∅))
             (<[0%N := seen_at 1000000000]> (<[1%N := seen_at 120000000000]> ∅)) 2 ∅.
Definition demo_later : World Z ingester := mkWorld 121000000000 demo_tracking [].

Lemma demo_tracking_ok : ing_ok demo_tracking.
Proof.
  split; unfold demo_tracking; simpl; intros *; rewrite ?lookup_insert_Some, ?lookup_insert_is_Some, ?lookup_empty.
  - naive_solver.
  - intros [<-|[_ [<-|[_ []]]]]; [done|done|discriminate].
  - naive_solver.
Qed.

Lemma sweep_judges_exactly_silent_runs_witness :
  wp (sweep_tick "") (fun _ w' => env w' <= Int64.max_val ->
    ing_runs (local w') !! "run1"%string = None) demo_later.
Proof.
  eapply wp_mono.
  { apply (sweep_judges_exactly_silent_runs "" (fun t => t) demo_later).
    - exact demo_tracking_ok.
    - vm_compute. discriminate.
    - intros p a. unfold demo_later, demo_tracking. simpl. rewrite !lookup_insert_Some, lookup_empty.
      intros [[_ <-]|[_ [[_ <-]|[_ Hx]]]]; [..|discriminate]; simpl; lia. }
  intros [] w' Hpost Hmax. destruct (Hpost Hmax) as (marked & tr & _ & _ & Hruns & _ & Hall).
  rewrite Hruns. destruct (decide ("run1"%string ∈ marked.*1)) as [|Hno]; [reflexivity|].
  exfalso. apply Hno. destruct (Hall "run1"%string 0%N (seen_at 1000000000)) as [_ Hm]; [reflexivity..|].
  apply Hm; [reflexivity|]. vm_compute. reflexivity.
Defined.

Lemma late_batch_reopens_run_witness :
  wp (absorb "" (demo_batch 1 true 3)) (fun _ w' => is_Some (ing_runs (local w') !! "run1"%string))
     (mkWorld 0 idle_ingester []).
Proof.
  eapply wp_mono.
  { apply (late_batch_reopens_run "" (mkWorld 0 idle_ingester []) (demo_batch 1 true 3)).
    - exact idle_ingester_ok.
    - reflexivity.
    - reflexivity. }
  intros [] w' (p & now & tr & _ & Hr & _). exists p. rewrite Hr. reflexivity.
Defined.
