(* ===== verification/IngesterSched.v ===== *)
(** * The interleavings of the ingester's goroutines

    [absorb] and [sweep] run concurrently and share the map of runs. A step of
    the system is one critical section, or what happens between two of them:
    the read of [ing.runs] in [sweep], a refresh of the live figures, and a
    whole [finalize], which reads only a finalized aggregate and ends by
    deleting the run. Any number of verdicts may be due at a time, so the
    steps allow more interleavings than the two goroutines have. *)
From stdpp Require Import relations.
From S2P Require Import Prelude Protocol Float64 Text IO Counters Hist HistProps Score Bot BotTurn.
From S2P Require Import Ingester IngesterMetrics IngesterProps IngesterStream IngesterSteps.
Local Open Scope Z_scope.

(** A call of [finalize] that is due: marked by the sweeper, which has yet to
    read the map, or with its aggregate at hand. [Crashed] is a read that found
    no entry: [finalize] of a nil pointer. *)
Inductive due :=
| Marked (run : string)
| Ready (run : string) (p : N)
| Crashed.

Definition due_run (d : due) : option string :=
  match d with Marked r | Ready r _ => Some r | Crashed => None end.

Section sched.
Context `{!Math, !RangeOrder, !RangeLaws} {W : Type} `{!Env W, !Strconv} (pgDSN : string).

(** The world, the verdicts due, and the aggregates judged. *)
Record sys := mkSys { sy_world : World W ingester; sy_due : list due; sy_judged : list N }.

Definition sy_ing (s : sys) : ingester := local (sy_world s).

Definition read_run (run : string) (i : ingester) : due :=
  match ing_runs i !! run with Some p => Ready run p | None => Crashed end.

Inductive ing_step : sys -> sys -> Prop :=
| step_absorb b w r w' ds js :
    absorb_locked b w = Ok (r, w') ->
    ing_step (mkSys w ds js)
             (mkSys w' (ds ++ match r with Some (p, true) => [Ready (tb_run b) p] | _ => [] end) js)
| step_live run p w w' ds js :
    is_Some (ing_aggs (local w) !! p) -> live run p w = Ok ((), w') -> ing_step (mkSys w ds js) (mkSys w' ds js)
| step_sweep w ids w' ds js :
    mark_stale (range_runs (ing_runs (local w))) w = Ok (ids, w') ->
    ing_step (mkSys w ds js) (mkSys w' (ds ++ map Marked ids) js)
| step_read w ds1 run ds2 js :
    ing_step (mkSys w (ds1 ++ Marked run :: ds2) js)
             (mkSys w (ds1 ++ read_run run (local w) :: ds2) js)
| step_finalize run p w w' ds1 ds2 js :
    finalize pgDSN run p w = Ok ((), w') ->
    ing_step (mkSys w (ds1 ++ Ready run p :: ds2) js) (mkSys w' (ds1 ++ ds2) (js ++ [p])).

(** The run [r] is registered with the finalized aggregate [p]. *)
Definition closing (i : ingester) (r : string) (p : N) : Prop :=
  ing_runs i !! r = Some p /\ exists a, ing_aggs i !! p = Some a /\ ag_finalized a = true.

Definition due_ok (i : ingester) (d : due) : Prop :=
  match d with
  | Marked r => exists p, closing i r p
  | Ready r p => closing i r p
  | Crashed => False
  end.

(** The invariant: the verdicts due are those of the runs being closed, each
    once, and the aggregates judged are no run's any more. *)
Record sched_ok (s : sys) : Prop := mkSchedOk {
  so_ing : ing_ok (sy_ing s);
  so_due : Forall (due_ok (sy_ing s)) (sy_due s);
  so_once : NoDup (map due_run (sy_due s));
  so_all r p : closing (sy_ing s) r p -> Some r ∈ map due_run (sy_due s);
  so_judged : NoDup (sy_judged s);
  so_gone p : p ∈ sy_judged s -> (exists a, ing_aggs (sy_ing s) !! p = Some a /\ ag_finalized a = true)
                               /\ forall r, ing_runs (sy_ing s) !! r <> Some p;
  so_closed p a : ing_aggs (sy_ing s) !! p = Some a -> ag_finalized a = true ->
                  p ∈ sy_judged s \/ exists r, ing_runs (sy_ing s) !! r = Some p
}.

Lemma wp_ok {A} (m : M (World W ingester) A) Q w a w' : wp m Q w -> m w = Ok (a, w') -> Q a w'.
Proof. intros (a' & w'' & Hm & HQ) Heq. rewrite Heq in Hm. by simplify_eq. Qed.

(** Finalized aggregates stay as they are. *)
Definition frozen (i i' : ingester) : Prop :=
  forall p a, ing_aggs i !! p = Some a -> ag_finalized a = true -> ing_aggs i' !! p = Some a.

(** From [i] to [i'] exactly the runs [new] began to close. *)
Record extends (i i' : ingester) (new : list (string * N)) : Prop := mkExtends {
  ex_ok : ing_ok i';
  ex_closing r q : closing i' r q <-> closing i r q \/ (r, q) ∈ new;
  ex_new : NoDup new.*1;
  ex_fresh r q q' : (r, q) ∈ new -> ~ closing i r q';
  ex_frozen : frozen i i';
  ex_kept r q : ing_runs i !! r = Some q -> ing_runs i' !! r = Some q;
  ex_gone q : is_Some (ing_aggs i !! q) -> (forall r, ing_runs i !! r <> Some q) -> forall r, ing_runs i' !! r <> Some q;
  ex_closed q a : ing_aggs i' !! q = Some a -> ag_finalized a = true ->
                  ing_aggs i !! q = Some a \/ exists r, ing_runs i' !! r = Some q
}.

Lemma sched_extend w w' ds ds' js new :
  sched_ok (mkSys w ds js) -> extends (local w) (local w') new ->
  Forall (due_ok (local w')) ds' -> map due_run ds' = map Some new.*1 ->
  sched_ok (mkSys w' (ds ++ ds') js).
Proof.
  intros [Si Sd So Sa Sj Sg Sc] [Xo Xc Xn Xf Xz Xk Xg Xd] Hds' Hrun. unfold sy_ing in *. simpl in *.
  assert (forall d, due_ok (local w) d -> due_ok (local w') d) as Hmono.
  { intros [r|r p|]; simpl; [intros [p Hp]; exists p|..]; try (intros; apply Xc; by left). done. }
  split; unfold sy_ing; simpl; try done.
  - apply Forall_app. split; [|done]. by eapply Forall_impl.
  - rewrite map_app, Hrun. apply NoDup_app. split; [done|]. split.
    + intros o Ho Hnew. apply list_elem_of_fmap in Hnew as (r & -> & Hr).
      apply list_elem_of_fmap in Hr as ([r' q] & Heq & Hr). simpl in Heq. subst r'.
      apply list_elem_of_fmap in Ho as (d & Hd & Hin). rewrite Forall_forall in Sd. specialize (Sd d Hin).
      destruct d as [r0|r0 p0|]; simpl in Hd, Sd; simplify_eq.
      * destruct Sd as [p Hp]. by eapply Xf.
      * by eapply Xf.
    + apply NoDup_fmap_2; [apply _|done].
  - intros r q. rewrite map_app, Hrun, elem_of_app. intros [Hc|Hn]%Xc; [left; by eapply Sa|right].
    apply list_elem_of_fmap. exists r. split; [done|]. apply list_elem_of_fmap. by exists (r, q).
  - intros p Hp. destruct (Sg p Hp) as [(a & Ha & Hf) Hr]. split; [exists a; split; [by apply Xz|done]|].
    apply Xg; [by exists a|done].
  - intros q a Ha Hf. destruct (Xd q a Ha Hf) as [Ha'|Hr]; [|by right].
    destruct (Sc q a Ha' Hf) as [Hj|[r Hr]]; [by left|right; exists r; by apply Xk].
Qed.

Lemma extends_throttle i th : ing_ok i -> extends i (mkIngester (ing_runs i) (ing_aggs i) (ing_next i) th) [].
Proof.
  intros [O1 O2 O3]. split; try done.
  - intros r q. unfold closing. simpl. split; [by left|]. by intros [?|?%elem_of_nil].
  - constructor.
  - by intros r q q' ?%elem_of_nil.
  - by intros p a.
  - intros q a Ha _. by left.
Qed.

Lemma extends_sweep i i' entries marked tr :
  ing_ok i -> NoDup marked.*1 -> (forall r q, (r, q) ∈ marked -> ing_runs i !! r = Some q) ->
  swept i i' entries marked tr -> extends i i' marked.
Proof.
  intros Hok Hnd Hmk Hsw. pose proof (swept_ok _ _ _ _ _ Hok Hsw) as Hok'. destruct Hsw as [Wr Wn _ Wa Wm _ _].
  assert (forall r q, (r, q) ∈ marked -> q ∈ marked.*2) as Hin2.
  { intros r q Hin. apply list_elem_of_fmap. by exists (r, q). }
  assert (forall r q, ing_runs i !! r = Some q -> q ∈ marked.*2 -> (r, q) ∈ marked) as Hpair.
  { intros r q Hr Hq. apply list_elem_of_fmap in Hq as ([r' q'] & -> & Hin). simpl in *.
    by rewrite (io_inj _ Hok _ _ _ Hr (Hmk _ _ Hin)). }
  assert (forall r q q', (r, q) ∈ marked -> ~ closing i r q') as Hfresh.
  { intros r q q' Hin (Hr & a & Ha & Hf). rewrite (Hmk _ _ Hin) in Hr. simplify_eq.
    destruct (Wm _ _ _ Hin Ha) as [? _]. congruence. }
  assert (frozen i i') as Hfro.
  { intros p a Ha Hf. rewrite Wa. destruct (decide (p ∈ marked.*2)) as [Hp|]; [|done].
    apply list_elem_of_fmap in Hp as ([r q] & -> & Hin). destruct (Wm r q a Hin Ha). simpl in *. congruence. }
  split; try done.
  - intros r q. unfold closing. rewrite Wr. split.
    + intros (Hr & a & Ha & Hf). rewrite Wa in Ha. destruct (decide (q ∈ marked.*2)); [right; by apply Hpair|].
      left. split; [done|]. by exists a.
    + intros [(Hr & a & Ha & Hf)|Hin]; [split; [done|]; exists a; split; [by apply Hfro|done]|].
      split; [by apply Hmk|]. destruct (io_agg _ Hok r q) as [a Ha]; [by apply Hmk|].
      exists (set_finalized a). rewrite Wa, decide_True by eauto. by rewrite Ha.
  - intros r q. by rewrite Wr.
  - intros q _. by rewrite Wr.
  - intros q a Ha Hf. rewrite Wa in Ha. rewrite Wr. destruct (decide (q ∈ marked.*2)) as [Hq|]; [|by left].
    right. apply list_elem_of_fmap in Hq as ([r q'] & -> & Hin). exists r. by apply Hmk.
Qed.

(** Replacing the aggregate of a batch's run. *)
Lemma extends_absorb i run p a a' :
  ing_ok i -> current run i p a -> ag_finalized a = false ->
  extends i (set_agg p a' (find_agg run i).2) (if ag_finalized a' then [(run, p)] else []).
Proof.
  intros Hok Hc Hf. pose proof (find_agg_runs run i) as Hr. rewrite (current_find _ _ _ _ Hc) in Hr.
  assert (ing_aggs (set_agg p a' (find_agg run i).2) = <[p := a']> (ing_aggs i)) as Ha.
  { unfold current in Hc. unfold find_agg. destruct (ing_runs i !! run); [done|]. destruct Hc as [-> _]. simpl.
    apply insert_insert_eq. }
  assert (is_Some (ing_aggs (find_agg run i).2 !! p)) as Hp.
  { destruct (find_agg_current run i Hok) as (p2 & a2 & Hc2 & _ & Hp). 
    destruct (current_unique _ _ _ _ _ _ Hc Hc2) as [-> _]. by eexists. }
  assert (forall r q, ing_runs i !! r = Some q -> q = p -> r = run) as Hown.
  { intros r q Hq ->. unfold current in Hc. destruct (ing_runs i !! run) as [p'|] eqn:Hrun.
    - destruct Hc as [-> _]. by eapply io_inj.
    - destruct Hc as [-> _]. pose proof (io_next _ Hok _ (io_agg _ Hok _ _ Hq)). lia. }
  assert (forall q, ~ closing i run q) as Hopen.
  { intros q (Hq & b & Hb & Hfb). unfold current in Hc. rewrite Hq in Hc. destruct Hc as [-> Hc]. congruence. }
  assert (forall r q, ing_runs i !! r = Some q -> <[run := p]> (ing_runs i) !! r = Some q) as Hkept.
  { intros r q Hq. destruct (decide (r = run)) as [->|]; [|by rewrite lookup_insert_ne].
    rewrite lookup_insert_eq. unfold current in Hc. rewrite Hq in Hc. f_equal. apply Hc. }
  assert (forall b, ing_aggs i !! p = Some b -> ag_finalized b = false \/ False) as Hnotf.
  { intros b Hb. left. unfold current in Hc. destruct (ing_runs i !! run); [destruct Hc; congruence|].
    destruct Hc as [-> _]. assert (ing_next i < ing_next i)%N by (by eapply io_next, mk_is_Some). lia. }
  change (ing_runs (find_agg run i).2) with (ing_runs (set_agg p a' (find_agg run i).2)) in Hr.
  pose proof (set_agg_ok p a' _ Hp (find_agg_ok run i Hok)) as Hok'.
  set (i' := set_agg p a' (find_agg run i).2) in *. split; [done|..].
  - intros r q. unfold closing. rewrite Hr, Ha. rewrite lookup_insert_Some. split.
    + intros ([[<- <-]|[Hne Hq]] & b & Hb & Hfb).
      * rewrite lookup_insert_eq in Hb. injection Hb as <-. right. rewrite Hfb. left.
      * left. rewrite lookup_insert_ne in Hb by (intros ->; apply Hne; symmetry; by eapply Hown). split; [done|]. by exists b.
    + intros [Hcl|Hin].
      * assert (r <> run) as Hne by (intros ->; by eapply Hopen). destruct Hcl as (Hq & b & Hb & Hfb).
        split; [by right|]. exists b. split; [|done].
        rewrite lookup_insert_ne; [done|]. intros ->. by eapply Hne, Hown.
      * destruct (ag_finalized a') eqn:Hf'; [|by apply elem_of_nil in Hin].
        apply list_elem_of_singleton in Hin. simplify_eq. split; [by left|]. exists a'. by rewrite lookup_insert_eq.
  - destruct (ag_finalized a'); [apply NoDup_singleton|constructor].
  - intros r q q' Hin. destruct (ag_finalized a'); [|by apply elem_of_nil in Hin].
    apply list_elem_of_singleton in Hin. simplify_eq. apply Hopen.
  - intros q b Hb Hfb. rewrite Ha, lookup_insert_ne; [done|]. intros ->. destruct (Hnotf b Hb); congruence.
  - intros r q Hq. rewrite Hr. by apply Hkept.
  - intros q Hq Hno r. rewrite Hr, lookup_insert_Some. intros [[<- <-]|[_ ?]]; [|by eapply Hno].
    unfold current in Hc. destruct (ing_runs i !! run) as [p'|] eqn:Hrun; [destruct Hc as [-> _]; by eapply Hno|].
    destruct Hc as [-> _]. pose proof (io_next _ Hok _ Hq). lia.
  - intros q b. rewrite Ha, Hr, lookup_insert_Some. intros [[<- <-]|[_ ?]] _; [right; exists run; apply lookup_insert_eq|by left].
Qed.

Lemma sched_finalize w w' ds1 ds2 js run p :
  sched_ok (mkSys w (ds1 ++ Ready run p :: ds2) js) ->
  local w' = set_runs (delete run (ing_runs (local w))) (local w) ->
  sched_ok (mkSys w' (ds1 ++ ds2) (js ++ [p])).
Proof.
  intros [Si Sd So Sa Sj Sg Sc] Hw. unfold sy_ing in *. simpl in *.
  assert (closing (local w) run p) as Hcl.
  { rewrite Forall_forall in Sd. apply (Sd (Ready run p)). apply elem_of_app. right. left. }
  rewrite map_app in So. simpl in So.
  assert (Permutation (map due_run ds1 ++ Some run :: map due_run ds2) (Some run :: map due_run (ds1 ++ ds2))) as Hperm.
  { by rewrite map_app, Permutation_middle. }
  rewrite Hperm in So. apply NoDup_cons in So as [Hnot So].
  assert (forall r q, r <> run -> closing (local w') r q <-> closing (local w) r q) as Hsame.
  { intros r q Hne. unfold closing. rewrite Hw. simpl. by rewrite lookup_delete_ne. }
  assert (forall r q, ing_runs (local w') !! r = Some q <-> r <> run /\ ing_runs (local w) !! r = Some q) as Hruns.
  { intros r q. rewrite Hw. simpl. rewrite lookup_delete_Some. naive_solver. }
  assert (ing_aggs (local w') = ing_aggs (local w)) as Haggs by (by rewrite Hw).
  destruct Hcl as (Hrun & a & Ha & Hf).
  split; unfold sy_ing; simpl.
  - rewrite Hw. by apply delete_run_ok.
  - rewrite Forall_forall in Sd |- *. intros d Hd.
    assert (due_run d <> Some run) as Hne.
    { intros Heq. apply Hnot. rewrite <- Heq. by apply list_elem_of_fmap_2. }
    assert (due_ok (local w) d) as Hok by (apply Sd; set_solver).
    destruct d as [r|r q|]; simpl in *; [|by apply Hsame; [congruence|]|done].
    destruct Hok as [q Hq]. exists q. apply Hsame; [congruence|done].
  - done.
  - intros r q Hq. pose proof (proj1 (Hruns r q) (proj1 Hq)) as [Hne _]. apply Hsame in Hq; [|done].
    apply Sa in Hq. rewrite map_app in Hq. simpl in Hq. rewrite Hperm, elem_of_cons in Hq.
    destruct Hq as [[= ->]|]; done.
  - apply NoDup_app. split; [done|]. split; [|apply NoDup_singleton].
    intros q Hq ->%list_elem_of_singleton. destruct (Sg p Hq) as [_ Hno]. by eapply Hno.
  - rewrite Haggs. intros q [Hq| ->%list_elem_of_singleton]%elem_of_app.
    + destruct (Sg q Hq) as [Hx Hno]. split; [done|]. intros r [_ Hr]%Hruns. by eapply Hno.
    + split; [by exists a|]. intros r [Hne Hr]%Hruns. by apply Hne, (io_inj _ Si r run p).
  - intros q b. rewrite Haggs. intros Hb Hfb. destruct (Sc q b Hb Hfb) as [Hj|[r Hr]].
    + left. apply elem_of_app. by left.
    + destruct (decide (r = run)) as [->|Hne].
      { rewrite Hrun in Hr. injection Hr as ->. left. apply elem_of_app. right. left. }
      right. exists r. by apply Hruns.
Qed.

Lemma sched_read w ds1 ds2 js run :
  sched_ok (mkSys w (ds1 ++ Marked run :: ds2) js) ->
  sched_ok (mkSys w (ds1 ++ read_run run (local w) :: ds2) js).
Proof.
  intros [Si Sd So Sa Sj Sg Sc]. unfold sy_ing in *. simpl in *.
  apply Forall_app in Sd as [Sd1 [[p Hp] Sd2]%Forall_cons].
  assert (read_run run (local w) = Ready run p) as -> by (unfold read_run; by rewrite (proj1 Hp)).
  rewrite map_app in So, Sa. simpl in So, Sa. split; unfold sy_ing; simpl; try done.
  - apply Forall_app. split; [done|]. by constructor.
  - by rewrite map_app.
  - rewrite map_app. done.
Qed.

(** Every step keeps the invariant and every finalized aggregate. *)
Lemma ing_step_ok s s' : ing_step s s' -> sched_ok s -> sched_ok s' /\ frozen (sy_ing s) (sy_ing s').
Proof.
  intros Hstep Hs. pose proof (so_ing _ Hs) as Hok. unfold sy_ing in *.
  destruct Hstep as [b w r w' ds js Hr|run p w w' ds js [a Ha] Hr|w ids w' ds js Hr|w ds1 run ds2 js|run p w w' ds1 ds2 js Hr];
    simpl in *.
  - pose proof (absorb_locked_ok w (local w) [] b w Hok (acted_refl w)) as Hwp.
    destruct (wp_ok _ _ _ _ _ Hwp Hr) as (p & a & Hc & Hres). destruct (ag_finalized a) eqn:Hf.
    + destruct Hres as [-> (Hl & _)].
      assert ((find_agg (tb_run b) (local w)).2 = local w) as Heq.
      { unfold current in Hc. unfold find_agg. destruct (ing_runs (local w) !! tb_run b); [done|].
        destruct Hc as [_ ->]. done. }
      rewrite Heq in Hl. rewrite app_nil_r.
      pose proof (extends_throttle (local w) (ing_throttle (local w)) Hok) as Hex.
      assert (mkIngester (ing_runs (local w)) (ing_aggs (local w)) (ing_next (local w)) (ing_throttle (local w)) = local w')
        as Heq' by (rewrite Hl; by destruct (local w)).
      rewrite Heq' in Hex. split; [|apply Hex]. rewrite <- (app_nil_r ds). by eapply sched_extend.
    + destruct Hres as (now & -> & (Hl & _)).
      pose proof (extends_absorb (local w) (tb_run b) p a (folded now b a) Hok Hc Hf) as Hex. rewrite <- Hl in Hex.
      split; [|apply Hex]. unfold folded in Hex. destruct (complete (fold_batch now b a)) eqn:Hco; simpl in Hex.
      * eapply sched_extend; [done|done| |done]. constructor; [|constructor]. apply Hex. right. left.
      * assert (ag_finalized (fold_batch now b a) = false) as Hff by done. rewrite Hf in Hex.
        eapply sched_extend; [done|exact Hex|constructor|done].
  - destruct (wp_ok _ _ _ _ _ (live_ok w (local w) [] run p a w (acted_refl w) Ha) Hr) as (tr & Hcase).
    assert (exists th, local w' = mkIngester (ing_runs (local w)) (ing_aggs (local w)) (ing_next (local w)) th) as [th Hl].
    { destruct Hcase as [[(-> & _) _]|(now & m & _ & (-> & _) & _)]; [exists (ing_throttle (local w)); by destruct (local w)|].
      by eexists. }
    pose proof (extends_throttle (local w) th Hok) as Hex. rewrite <- Hl in Hex. split; [|apply Hex].
    rewrite <- (app_nil_r ds). by eapply sched_extend.
  - destruct (wp_ok _ _ _ _ _ (sweep_marks w (local w) [] w Hok (acted_refl w)) Hr)
      as (i' & tr & marked & (Hl & _) & -> & Hsw).
    destruct (range_entries (local w) Hok) as [Hnd2 Hin].
    assert (forall r q, (r, q) ∈ marked -> ing_runs (local w) !! r = Some q) as Hmk.
    { intros r q Hm. apply Hin. eapply sublist_subseteq; [apply Hsw|done]. }
    pose proof (marked_NoDup (ing_runs (local w)) _ marked Hnd2 (sw_sub _ _ _ _ _ Hsw) Hmk) as Hnd.
    pose proof (extends_sweep _ _ _ _ _ Hok Hnd Hmk Hsw) as Hex. rewrite <- Hl in Hex. split; [|apply Hex].
    eapply sched_extend; [done|exact Hex| |by rewrite map_map].
    apply Forall_forall. intros d Hd. apply list_elem_of_fmap in Hd as (r & -> & Hd).
    apply list_elem_of_fmap in Hd as ([r' q] & Heq & Hd). simpl in Heq. subst r'. exists q. apply Hex. by right.
  - split; [by apply sched_read|]. by intros p a.
  - assert (closing (local w) run p) as (_ & a & Ha & _).
    { pose proof (so_due _ Hs) as Hd. rewrite Forall_forall in Hd. apply (Hd (Ready run p)). apply elem_of_app. right. left. }
    destruct (wp_ok _ _ _ _ _ (finalize_ok pgDSN w (local w) [] run p a w (acted_refl w) Ha) Hr) as (m & tr & _ & (Hl & _) & _).
    split; [by eapply sched_finalize|]. rewrite Hl. by intros q b.
Qed.

Lemma rtc_ok s s' : rtc ing_step s s' -> sched_ok s -> sched_ok s' /\ frozen (sy_ing s) (sy_ing s').
Proof.
  induction 1 as [s|s s1 s2 Hstep _ IH]; intros Hs; [split; [done|by intros p a]|].
  destruct (ing_step_ok _ _ Hstep Hs) as [Hs1 Hf1]. destruct (IH Hs1) as [Hs2 Hf2].
  split; [done|]. intros p a Ha Hf. by apply Hf2; [apply Hf1|].
Qed.

(** The ingester when it starts. *)
Definition starts (s : sys) : Prop :=
  ing_runs (sy_ing s) = ∅ /\ ing_aggs (sy_ing s) = ∅ /\ sy_due s = [] /\ sy_judged s = [].

Lemma starts_ok s : starts s -> sched_ok s.
Proof.
  destruct s as [w ds js]. unfold starts, sy_ing. simpl. intros (Hr & Ha & -> & ->).
  split; unfold sy_ing, closing; simpl.
  - split; intros *; rewrite ?Hr, ?Ha, ?lookup_empty; try done.
  - constructor.
  - constructor.
  - intros r p [Hx _]. by rewrite Hr, lookup_empty in Hx.
  - constructor.
  - by intros p Hp%elem_of_nil.
  - intros p a Hx. by rewrite Ha, lookup_empty in Hx.
Qed.

(** The verdict on the aggregate [p] is due. *)
Definition is_due (s : sys) (p : N) : Prop :=
  exists r, ing_runs (sy_ing s) !! r = Some p /\ (Marked r ∈ sy_due s \/ Ready r p ∈ sy_due s).

Lemma finalized_due s p a :
  sched_ok s -> ing_aggs (sy_ing s) !! p = Some a -> ag_finalized a = true -> p ∈ sy_judged s \/ is_due s p.
Proof.
  intros Hs Ha Hf. destruct (so_closed _ Hs p a Ha Hf) as [|[r Hr]]; [by left|right].
  assert (closing (sy_ing s) r p) as Hcl by (split; [done|by exists a]).
  pose proof (so_all _ Hs r p Hcl) as Hin. apply list_elem_of_fmap in Hin as (d & Hd & Hin).
  pose proof (so_due _ Hs) as Hdue. rewrite Forall_forall in Hdue. specialize (Hdue d Hin).
  exists r. split; [done|]. destruct d as [r'|r' q|]; simpl in *; simplify_eq; [by left|right].
  destruct Hdue as [Hq _]. by simplify_eq.
Qed.

(** C16. One verdict per run. In every interleaving of the stream reader and
    the sweeper: no aggregate is judged twice; the unsynchronised read of the
    map of runs always finds its entry; an aggregate once finalized is judged
    or its verdict is due, it is never lost; and nothing changes it any
    more. *)
Theorem aggregates_are_judged_at_most_once (s0 s s' : sys) :
  starts s0 -> rtc ing_step s0 s -> rtc ing_step s s' ->
  NoDup (sy_judged s) /\ ~ (Crashed ∈ sy_due s)
  /\ (forall p a, ing_aggs (sy_ing s) !! p = Some a -> ag_finalized a = true ->
        (p ∈ sy_judged s \/ is_due s p) /\ ing_aggs (sy_ing s') !! p = Some a).
Proof.
  intros Hst%starts_ok Hr Hr'. destruct (rtc_ok _ _ Hr Hst) as [Hs _]. destruct (rtc_ok _ _ Hr' Hs) as [_ Hf].
  split_and!; [apply Hs| |].
  - intros Hin. pose proof (so_due _ Hs) as Hd. rewrite Forall_forall in Hd. by apply (Hd Crashed).
  - intros p a Ha Hfin. split; [by eapply finalized_due|by apply Hf].
Qed.

Lemma settle_first w run p ds js :
  sched_ok (mkSys w (Ready run p :: ds) js) ->
  exists w1, ing_step (mkSys w (Ready run p :: ds) js) (mkSys w1 ds (js ++ [p]))
  /\ sched_ok (mkSys w1 ds (js ++ [p])) /\ ing_aggs (local w1) = ing_aggs (local w).
Proof.
  intros Hs. pose proof (so_due _ Hs) as Hd. apply Forall_cons in Hd as [(_ & a & Ha & _) _].
  pose proof (finalize_ok pgDSN w (local w) [] run p a w (acted_refl w) Ha) as ([] & w1 & Hrun & Hpost).
  destruct Hpost as (m & tr & _ & (Hl & _) & _). exists w1.
  split; [by apply (step_finalize run p w w1 [] ds js)|].
  split; [by apply (sched_finalize w w1 [] ds js run p)|]. by rewrite Hl.
Qed.

Lemma settle_read w run ds js :
  sched_ok (mkSys w (Marked run :: ds) js) ->
  exists p, ing_step (mkSys w (Marked run :: ds) js) (mkSys w (Ready run p :: ds) js)
  /\ sched_ok (mkSys w (Ready run p :: ds) js).
Proof.
  intros Hs. pose proof (so_due _ Hs) as Hd. apply Forall_cons in Hd as [[p Hp] _].
  pose proof (step_read w [] run ds js) as Hstep. pose proof (sched_read w [] ds js run Hs) as Hs1.
  assert (read_run run (local w) = Ready run p) as Heq by (unfold read_run; unfold sy_ing in Hp; simpl in Hp; by rewrite (proj1 Hp)).
  simpl in Hstep, Hs1. rewrite Heq in Hstep, Hs1. by exists p.
Qed.

Lemma settle ds w js :
  sched_ok (mkSys w ds js) ->
  exists w' js', rtc ing_step (mkSys w ds js) (mkSys w' [] (js ++ js')) /\ ing_aggs (local w') = ing_aggs (local w).
Proof.
  revert w js. induction ds as [|d ds IH]; intros w js Hs; [exists w, []; rewrite app_nil_r; by split; [constructor|]|].
  assert (forall run p, sched_ok (mkSys w (Ready run p :: ds) js) -> exists w' js',
    rtc ing_step (mkSys w (Ready run p :: ds) js) (mkSys w' [] (js ++ js')) /\ ing_aggs (local w') = ing_aggs (local w))
    as Hready.
  { intros run p (w1 & Hstep & Hs1 & Hag1)%settle_first. destruct (IH w1 (js ++ [p]) Hs1) as (w' & js' & Hrtc & Hag).
    exists w', (p :: js'). rewrite <- app_assoc in Hrtc. split; [by eapply rtc_l|by rewrite Hag]. }
  destruct d as [run|run p|]; [|by apply Hready|].
  - destruct (settle_read w run ds js Hs) as (p & Hstep & Hs1). destruct (Hready run p Hs1) as (w' & js' & Hrtc & Hag).
    exists w', js'. split; [by eapply rtc_l|done].
  - pose proof (so_due _ Hs) as Hd. by apply Forall_cons in Hd as [[] _].
Qed.

(** C40. No verdict gets stuck. From every reachable state the verdicts that
    are due can all be given, without any further batch, tick or error, and
    then every aggregate finalized so far has been judged. *)
Theorem due_verdicts_can_be_given (s0 s : sys) :
  starts s0 -> rtc ing_step s0 s ->
  exists s', rtc ing_step s s' /\ sy_due s' = []
  /\ forall p a, ing_aggs (sy_ing s) !! p = Some a -> ag_finalized a = true -> p ∈ sy_judged s'.
Proof.
  intros Hst%starts_ok Hr. destruct (rtc_ok _ _ Hr Hst) as [Hs _]. destruct s as [w ds js].
  destruct (settle ds w js Hs) as (w' & js' & Hrtc & Hag). eexists. split; [exact Hrtc|]. split; [done|].
  intros p a Ha Hf. destruct (rtc_ok _ _ Hrtc Hs) as [Hs' _]. unfold sy_ing in *. simpl in *. rewrite <- Hag in Ha.
  destruct (finalized_due _ p a Hs' Ha Hf) as [Hj|(r & _ & [Hd|Hd])]; [done|by apply elem_of_nil in Hd..].
Qed.
End sched.

(** ** Witnesses: a run of one shard, complete at its only batch *)

#[local] Instance plain_text : Strconv := {| other_float := fun _ => F64.zero; quote := fun s => s |}.
#[local] Existing Instances toy_math plain_order plain_laws dead_engine.

Definition lone_batch : TelemetryBatch := mkBatch "run1" 0 1 true 4 4 0 0 (<[3 := 4]> ∅) (<[100 := 4]> ∅) ∅ [].

Definition demo_first : World Z ingester := mkWorld 0 idle_ingester [].
Definition demo_second : World Z ingester :=
  match absorb_locked lone_batch demo_first with Ok (_, w) => w | _ => demo_first end.
Definition demo_started : sys := mkSys demo_first [] [].
Definition demo_closing : sys := mkSys demo_second [Ready "run1" 0] [].

Lemma demo_sys_reachable : rtc (ing_step "") demo_started demo_closing.
Proof.
  apply rtc_once. refine (step_absorb "" lone_batch demo_first (Some (0%N, true)) demo_second [] [] _).
  vm_compute. reflexivity.
Qed.

Lemma demo_starts : starts demo_started.
Proof. by split_and!. Qed.

Lemma aggregates_are_judged_at_most_once_witness :
  NoDup (sy_judged demo_closing) /\ ~ (Crashed ∈ sy_due demo_closing).
Proof.
  destruct (aggregates_are_judged_at_most_once "" demo_started demo_closing demo_closing) as (Hn & Hc & _).
  - exact demo_starts.
  - exact demo_sys_reachable.
  - constructor.
  - split; assumption.
Defined.

Lemma due_verdicts_can_be_given_witness :
  exists s', rtc (ing_step "") demo_closing s' /\ 0%N ∈ sy_judged s'.
Proof.
  destruct (due_verdicts_can_be_given "" demo_started demo_closing) as (s' & Hr & _ & Hj).
  - exact demo_starts.
  - exact demo_sys_reachable.
  - exists s'. split; [exact Hr|].
    destruct (ing_aggs (sy_ing demo_closing) !! 0%N) as [a|] eqn:Ha; [|vm_compute in Ha; discriminate].
    apply (Hj 0%N a Ha). vm_compute in Ha. injection Ha as <-. reflexivity.
Defined.
