(* ===== verification/Orchestrator.v ===== *)
(** * The orchestrator: [src/cmd/orchestrator/main.go]

    One queued run becomes one sandbox: build, start, wait until healthy,
    probe, hand the load to the fleet in shards, wait for the verdict, tear
    down. The probe is in [Conformance]; contexts and their timeouts are part
    of what a docker call may answer. *)
From S2P Require Import Prelude Protocol Float64 Text IO Consumer Book Conformance.
Local Open Scope Z_scope.

Definition streamRuns : string := "runs.jobs".
Definition group : string := "orch".
Definition streamLoad : string := "load.jobs".

(** [time.Second] and its fellows. *)
Definition Second : Z := 1000000000.
Definition Minute : Z := 60 * Second.
Definition Millisecond : Z := 1000000.

Definition unix_seconds (ns : Z) : Z := ns / Second.

Record orch := mkOrch {
  dataDir : string;
  arenaNet : string;
  cpus : string;
  mem : string;
  pids : string;
  cores : Z;
  botsPerShard : Z
}.

(** ** Pure parts *)

Definition newline : string := String (Ascii.ascii_of_nat 10) "".

Definition tail (s : string) (n : nat) : string :=
  let lines := split (Ascii.ascii_of_nat 10) (trimSpace s) in
  let lines := if (n <? length lines)%nat then drop (length lines - n) lines else lines in
  join newline lines.

Definition pin_step (h c : Z) : Z := Z.land (Int64.add (Int64.mul h 31) c) 2147483647.

(** [None] is the panic of a division by zero cores. *)
Definition pinCore (submissionID : string) (cores : Z) : option string :=
  h ← Int64.rem (foldl pin_step 0 (runes submissionID)) cores; Some (itoa h).

(** The number of shards of a job. *)
Definition shard_count (o : orch) (job : RunJob) : Z :=
  F64.to_int64 (F64.ceil (F64.div (F64.of_Z (rj_bots job)) (F64.of_Z (botsPerShard o)))).

Definition img_of (job : RunJob) : string := "arena/sub:" +:+ rj_run job.
Definition name_of (job : RunJob) : string := "arena-sub-" +:+ rj_run job.
Definition target_of (job : RunJob) : string := "http://" +:+ name_of job +:+ ":8080".
Definition bundle_of (o : orch) (job : RunJob) : string :=
  join_path (dataDir o) (rj_submission job +:+ ".tar.gz").

(** The body of the loop over the shards; [now] is the clock reading. It runs
    for [i] below [shards] only, so that the divisions are by no zero. *)
Definition shard_of (job : RunJob) (shards i now : Z) : LoadShard :=
  let bots := Z.quot (rj_bots job) shards in
  let bots := if i <? Z.rem (rj_bots job) shards then bots + 1 else bots in
  mkLoadShard (rj_run job) (target_of job) i shards bots (rj_duration job)
              (Z.quot (rj_max_rps job) shards) (Int64.add now (Int64.mul i 7919)).

Definition build_args (job : RunJob) : list string := ["build"; "-t"; img_of job; "-"].
Definition run_args (o : orch) (job : RunJob) (pin : string) : list string :=
  ["run"; "-d"; "--name"; name_of job; "--network"; arenaNet o; "--cpus"; cpus o;
   "--cpuset-cpus"; pin; "--memory"; mem o; "--pids-limit"; pids o;
   "--cap-drop"; "ALL"; "--security-opt"; "no-new-privileges:true"; "--read-only";
   "--tmpfs"; "/tmp:rw,size=64m"; "--label"; "arena.run=" +:+ rj_run job; img_of job].

Section orch.
Context {W L : Type} `{!Env W, !Strconv}.

Definition Orch (A : Type) : Type := M (World W L) A.

Definition setRun (runID : string) (kv : list (string * value)) : Orch () :=
  perform (HSet ("run:" +:+ runID) kv).

Definition fail (runID msg : string) : Orch () :=
  now ← perform Now;
  setRun runID [("status", VStr "failed"); ("error", VStr msg); ("finished", VInt (unix_seconds now))].

(** The output, and whether there was an error. *)
Definition docker (stdin : option string) (args : list string) : Orch (string * bool) :=
  perform (Docker stdin args).

Definition teardown (name img : string) : Orch () :=
  docker None ["rm"; "-f"; name];;
  docker None ["rmi"; "-f"; img];;
  mret ().

Definition health_step (target : string) (deadline : Z) (_ : unit) : Orch (unit + bool) :=
  now ← perform Now;
  if now <? deadline then
    resp ← perform (HttpGet (target +:+ "/health"));
    if (match resp with Some code => code =? 200 | None => false end) then mret (inr true)
    else perform (Sleep (500 * Millisecond));; mret (inl ())
  else mret (inr false).

Definition waitHealthy (fuel : nat) (target : string) (timeout : Z) : Orch bool :=
  now ← perform Now;
  loop fuel (health_step target (now + timeout)) ().

(** The loop that dispatches the shards from [i] on. *)
Fixpoint dispatch (job : RunJob) (shards : Z) (n : nat) (i : Z) : Orch () :=
  match n with
  | O => mret ()
  | S n' =>
      now ← perform Now;
      perform (XAdd streamLoad (MShard (shard_of job shards i now)));;
      dispatch job shards n' (i + 1)
  end.

(** Waiting for the verdict: [true] when it came. *)
Definition babysit_step (runID : string) (deadline : Z) (_ : unit) : Orch (unit + bool) :=
  now ← perform Now;
  if now <? deadline then
    perform (Sleep (2 * Second));;
    status ← perform (HGet ("run:" +:+ runID) "status");
    let status := default "" status in
    if String.eqb status "done" || String.eqb status "failed" then mret (inr true) else mret (inl ())
  else mret (inr false).

(** From the start of the sandbox on: what runs before the deferred teardown. *)
Definition benchmark (fuel : nat) (o : orch) (job : RunJob) (started : string * bool) : Orch () :=
  let runID := rj_run job in
  let '(out, err) := started in
  if err : bool then fail runID ("sandbox start failed:" +:+ newline +:+ tail out 15)
  else
    healthy ← waitHealthy fuel (target_of job) (45 * Second);
    if negb healthy then
      '(logs, _) ← docker None ["logs"; "--tail"; "15"; name_of job];
      fail runID ("engine never became healthy" +:+ newline +:+ tail logs 15)
    else
      setRun runID [("status", VStr "conformance")];;
      '(confScore, detail) ← conformance (target_of job);
      setRun runID [("conformance_score", VStr (fixed 4 confScore)); ("conformance_detail", VStr detail)];;
      let shards := shard_count o job in
      setRun runID [("status", VStr "load"); ("total_shards", VInt shards)];;
      dispatch job shards (Z.to_nat shards) 0;;
      now ← perform Now;
      verdict ← loop fuel
        (babysit_step runID (now + Int64.add (Int64.mul (rj_duration job) Second) (2 * Minute))) ();
      if verdict : bool then mret () else fail runID "run timed out waiting for telemetry verdict".

Definition handle (fuel : nat) (o : orch) (job : RunJob) : Orch () :=
  let runID := rj_run job in
  now ← perform Now;
  setRun runID [("status", VStr "building"); ("started", VInt (unix_seconds now))];;
  err ← perform (OpenFile (bundle_of o job));
  match err with
  | Some msg => fail runID ("bundle missing: " +:+ msg)
  | None =>
      '(out, err) ← docker (Some (bundle_of o job)) (build_args job);
      if err : bool then fail runID ("image build failed:" +:+ newline +:+ tail out 15)
      else
        pin ← orPanic (pinCore (rj_submission job) (cores o));
        started ← docker None (run_args o job pin);
        benchmark fuel o job started;;
        teardown (name_of job) (img_of job)
  end.

(** ** The stream of jobs *)

(** What [main] does first: the group starts at the oldest message, unless it
    exists already, when the error is dropped. *)
Definition joinGroup : Orch () := perform (XGroupCreateMkStream streamRuns group "0").

(** One message of [main]: the job is handled, then acknowledged, handled or
    not; a payload that is no text panics. *)
Definition take_job (fuel : nat) (o : orch) (m : delivery RunJob) : Orch () :=
  payload ← orPanic m.2;
  (match payload with inl job => handle fuel o job | inr _ => mret () end);;
  perform (XAck streamRuns group m.1).

(** The first [n] turns of [main]. *)
Definition orch_main (fuel : nat) (o : orch) (n : nat) : Orch () :=
  turns n (consume (perform (ReadJobs streamRuns group 1)) (take_job fuel o)).
End orch.
