(* ===== verification/OrchestratorProps.v ===== *)
(** * The orchestrator: theorems

    How a job is cut into shards, and which core its sandbox is pinned to. *)
From S2P Require Import Prelude Protocol Float64 Text Utf8 IO Book PriorityBook BookHeap BookMatch BookRest BookRefine.
From S2P Require Import Conformance ConformanceProps Orchestrator.
Local Open Scope Z_scope.

(** ** Shards *)

(** Dividing by a positive integer and rounding up is exact. *)
Lemma ceil_div_exact b d k :
  0 <= k <= 2 ^ 40 -> 0 < d <= 512 -> k * d < b <= (k + 1) * d ->
  F64.to_int64 (F64.ceil (F64.div (F64.of_Z b) (F64.of_Z d))) = k + 1.
Proof.
  intros Hk Hd Hb. assert (F64.one_u = 512 * 2 ^ 1065) as Hsplit by (vm_compute; reflexivity).
  assert (0 < 2 ^ 1065) as Hp by done.
  assert (F64.repr ((512 * k + 1) * 2 ^ 1065)) as Hlo by (exists (512 * k + 1), 1065; lia).
  pose proof (F64.repr_units (k + 1) ltac:(lia)) as Hhi. pose proof (F64.units_lt_inf (k + 1) ltac:(lia)) as Hinf.
  rewrite !F64.of_Z_exact by nia.
  revert Hsplit Hp Hlo. generalize (2 ^ 1065). intros p Hsplit Hp Hlo.
  destruct (F64.div_between ((512 * k + 1) * p) ((k + 1) * F64.one_u) (b * F64.one_u) (d * F64.one_u))
    as (w & -> & Hw & _); [done|done|done|nia| |].
  - clear Hlo Hhi Hinf. rewrite !Hsplit. generalize dependent F64.one_u. intros o ->. split.
    + assert ((512 * k + 1) * d <= 512 * b) as Hle by nia.
      replace ((512 * k + 1) * p * (d * (512 * p))) with ((512 * k + 1) * d * (512 * p * p)) by ring.
      replace (b * (512 * p) * (512 * p)) with (512 * b * (512 * p * p)) by ring.
      apply Z.mul_le_mono_nonneg_r; nia.
    + replace (b * (512 * p) * (512 * p)) with (b * (512 * p * (512 * p))) by ring.
      replace ((k + 1) * (512 * p) * (d * (512 * p))) with ((k + 1) * d * (512 * p * (512 * p))) by ring.
      apply Z.mul_le_mono_nonneg_r; nia.
  - rewrite (F64.ceil_int w k) by nia. apply F64.to_int64_units. unfold Int64.max_val. lia.
Qed.

Lemma shard_count_exact o job :
  botsPerShard o = 250 -> 1 <= rj_bots job <= 2 ^ 47 ->
  250 * (shard_count o job - 1) < rj_bots job <= 250 * shard_count o job.
Proof.
  intros Ho Hb. unfold shard_count. rewrite Ho. set (k := (rj_bots job - 1) / 250).
  pose proof (Z.div_mod (rj_bots job - 1) 250 ltac:(lia)) as Hdm.
  pose proof (Z.mod_pos_bound (rj_bots job - 1) 250 ltac:(lia)) as Hmod.
  rewrite (ceil_div_exact _ 250 k); fold k in Hdm; lia.
Qed.

(** The shards of a job, given the clock readings. *)
Definition shards_of (job : RunJob) (n : Z) (nows : list Z) : list LoadShard :=
  zip_with (shard_of job n) (seqZ 0 n) nows.

Definition sum (l : list Z) : Z := foldr Z.add 0 l.

Lemma sum_app l l' : sum (l ++ l') = sum l + sum l'.
Proof. unfold sum. induction l as [|x l IH]; simpl; lia. Qed.

Lemma map_shards {A} (f : LoadShard -> A) (g : Z -> A) job n nows :
  (forall i now, f (shard_of job n i now) = g i) -> length nows = Z.to_nat n ->
  map f (shards_of job n nows) = map g (seqZ 0 n).
Proof.
  intros Hf Hlen. unfold shards_of. assert (length (seqZ 0 n) = length nows) as Hl by (rewrite length_seqZ; lia).
  revert nows Hl Hlen. generalize (seqZ 0 n). intros l nows Hl _. revert nows Hl.
  induction l as [|i l IH]; intros [|now nows] Hl; try done. simpl in *. f_equal; [apply Hf|apply IH; lia].
Qed.

(** The bots of the shard [i]. *)
Definition bots_at (b n i : Z) : Z := b / n + (if i <? b mod n then 1 else 0).

Lemma shard_bots job n i now :
  0 < n -> 0 <= rj_bots job -> ls_bots (shard_of job n i now) = bots_at (rj_bots job) n i.
Proof.
  intros Hn Hb. unfold shard_of, bots_at. simpl. rewrite Z.quot_div_nonneg, Z.rem_mod_nonneg by lia.
  destruct (i <? rj_bots job mod n); lia.
Qed.

Lemma bots_at_bounds b n i :
  1 <= b -> 250 * (n - 1) < b <= 250 * n -> 0 <= i -> 1 <= bots_at b n i <= 250.
Proof.
  intros Hb Hn Hi. unfold bots_at.
  pose proof (Z.div_mod b n ltac:(lia)) as Hdm. pose proof (Z.mod_pos_bound b n ltac:(lia)) as Hmod.
  pose proof (Z.div_le_lower_bound b n 1 ltac:(lia) ltac:(lia)) as Hlo.
  pose proof (Z.div_le_upper_bound b n 250 ltac:(lia) ltac:(lia)) as Hhi.
  destruct (Z.ltb_spec i (b mod n)); [|lia]. split; [lia|].
  assert (b / n <> 250) by (intros Heq; rewrite Heq in Hdm; lia). lia.
Qed.

Lemma sum_bots b n m :
  sum (map (bots_at b n) (seqZ 0 (Z.of_nat m))) = Z.of_nat m * (b / n) + Z.max 0 (Z.min (Z.of_nat m) (b mod n)).
Proof.
  induction m as [|m IH]; [simpl; lia|].
  replace (Z.of_nat (S m)) with (Z.of_nat m + 1) by lia. rewrite seqZ_app, map_app, sum_app, IH by lia.
  change (seqZ (0 + Z.of_nat m) 1) with [Z.of_nat m]. cbn [map]. unfold sum at 1. cbn [foldr]. unfold bots_at.
  rewrite Z.mul_add_distr_r. destruct (Z.ltb_spec (Z.of_nat m) (b mod n)); lia.
Qed.

Lemma sum_const c m : sum (map (fun _ => c) (seqZ 0 (Z.of_nat m))) = Z.of_nat m * c.
Proof.
  induction m as [|m IH]; [done|].
  replace (Z.of_nat (S m)) with (Z.of_nat m + 1) by lia. rewrite seqZ_app, map_app, sum_app, IH by lia.
  change (seqZ (0 + Z.of_nat m) 1) with [Z.of_nat m]. cbn. lia.
Qed.

(** C24. The load of a job is split exactly. A job of [b] bots is cut into the
    least number [n] of shards of at most 250 bots, the rounding of the float
    division notwithstanding. The shards are numbered from 0 to [n - 1], know
    [n], and carry the job's run, target and duration; their bots add up to
    [b], every shard has at least one and at most 250, and no two differ by
    more than one; their request budgets add up to at most the job's. *)
Theorem shards_partition_job (o : orch) (job : RunJob) (nows : list Z) :
  botsPerShard o = 250 -> 1 <= rj_bots job <= 2 ^ 47 -> 0 <= rj_max_rps job ->
  length nows = Z.to_nat (shard_count o job) ->
  let n := shard_count o job in
  let l := shards_of job n nows in
  250 * (n - 1) < rj_bots job <= 250 * n
  /\ map ls_shard l = seqZ 0 n
  /\ Forall (fun s => ls_run s = rj_run job /\ ls_target s = target_of job /\ ls_duration s = rj_duration job
                      /\ ls_total s = n /\ 1 <= ls_bots s <= 250
                      /\ rj_bots job / n <= ls_bots s <= rj_bots job / n + 1) l
  /\ sum (map ls_bots l) = rj_bots job
  /\ sum (map ls_max_rps l) <= rj_max_rps job.
Proof.
  intros Ho Hb Hr Hlen n l. pose proof (shard_count_exact o job Ho Hb) as Hn. fold n in Hn.
  assert (0 < n) as Hpos by lia. set (b := rj_bots job) in *.
  pose proof (Z.div_mod b n ltac:(lia)) as Hdm. pose proof (Z.mod_pos_bound b n Hpos) as Hmod.
  split_and!; [lia|lia| | | |].
  - unfold l. rewrite (map_shards ls_shard (fun i => i) job n nows); [by rewrite map_id|done|done].
  - apply Forall_forall. intros s Hs. unfold l, shards_of in Hs. apply elem_of_lookup_zip_with in Hs as (k & i & now & -> & Hi & _).
    apply lookup_seqZ in Hi as [Hi _]. rewrite shard_bots by lia. fold b.
    pose proof (bots_at_bounds b n i ltac:(lia) Hn ltac:(lia)). unfold bots_at in *.
    split_and!; try done; destruct (i <? b mod n); lia.
  - unfold l. rewrite (map_shards ls_bots (bots_at b n) job n nows); [|intros; apply shard_bots; lia|done].
    replace (seqZ 0 n) with (seqZ 0 (Z.of_nat (Z.to_nat n))) by (f_equal; lia).
    rewrite sum_bots. rewrite Z2Nat.id by lia. lia.
  - unfold l. rewrite (map_shards ls_max_rps (fun _ => rj_max_rps job / n) job n nows); [| |done].
    + replace (seqZ 0 n) with (seqZ 0 (Z.of_nat (Z.to_nat n))) by (f_equal; lia).
    rewrite sum_const, Z2Nat.id by lia. by apply Z.mul_div_le.
    + intros i now. simpl. apply Z.quot_div_nonneg; lia.
Qed.

(** ** Pinning *)

Definition is_rune (c : Z) : Prop := 0 <= c < 2 ^ 21.

Lemma runes_ok s : Forall is_rune (runes s).
Proof.
  unfold runes. apply Forall_fmap. pose proof (bytes_ok s) as Hb. revert Hb. generalize (bytes s). intros l.
  induction l as [|c rest Hc Hd IH] using utf8_ind; [constructor|]. rewrite Hd, Forall_app. intros [Hb Hrest].
  constructor; [|by apply IH]. clear IH Hd Hrest. revert Hb. unfold is_byte, is_rune.
  destruct Hc as [[b0 H0|b0 b1 H2|b0 b1 b2 H3|b0 b1 b2 b3 H4]|[]]; simpl; intros Hb; [| | | |done].
  - rewrite Forall_singleton in Hb. lia.
  - apply two_bytes_true in H2. lia.
  - apply three_bytes_true in H3. lia.
  - apply four_bytes_true in H4. lia.
Qed.

(** The polynomial in 31 of the code points. *)
Definition poly31 (cs : list Z) : Z := foldl (fun h c => h * 31 + c) 0 cs.

Lemma pin_step_mod h h' c :
  0 <= h' -> is_rune c -> h = h' mod 2 ^ 31 -> pin_step h c = (h' * 31 + c) mod 2 ^ 31.
Proof.
  intros Hh' Hc ->. pose proof (Z.mod_pos_bound h' (2 ^ 31) ltac:(done)) as Hb. unfold is_rune in Hc.
  assert (Int64.add (Int64.mul (h' mod 2 ^ 31) 31) c = h' mod 2 ^ 31 * 31 + c) as Hadd.
  { unfold Int64.add, Int64.mul. rewrite (Int64.wrap_id (_ * 31)), Int64.wrap_id;
      unfold Int64.in_range, Int64.min_val, Int64.max_val; lia. }
  unfold pin_step. rewrite Hadd. change 2147483647 with (Z.ones 31). rewrite Z.land_ones by lia.
  rewrite <- Zplus_mod_idemp_l, Zmult_mod_idemp_l, Zplus_mod_idemp_l. done.
Qed.

Lemma pin_hash cs h h' :
  0 <= h' -> Forall is_rune cs -> h = h' mod 2 ^ 31 ->
  foldl pin_step h cs = foldl (fun h c => h * 31 + c) h' cs mod 2 ^ 31.
Proof.
  intros Hh' Hcs. revert h h' Hh'. induction Hcs as [|c cs Hc _ IH]; intros h h' Hh' Hh; [done|]. simpl.
  apply IH; [unfold is_rune in Hc; lia|]. by apply pin_step_mod.
Qed.

(** The pinned core. It is a function of the submission id alone: the
    polynomial in 31 of its code points modulo 2^31, and that modulo the
    number of cores, without any overflow on the way; so it is one of the
    cores, and the same submission always gets the same one. Without cores
    there is a panic, and nowhere else. *)
Theorem pin_core_is_polynomial_hash (id : string) (cores : Z) :
  (pinCore id cores = None <-> cores = 0)
  /\ (0 < cores -> pinCore id cores = Some (itoa (poly31 (runes id) mod 2 ^ 31 mod cores))
      /\ 0 <= poly31 (runes id) mod 2 ^ 31 mod cores < cores).
Proof.
  unfold pinCore, Int64.rem. rewrite (pin_hash (runes id) 0 0 ltac:(lia) (runes_ok id) ltac:(done)). fold (poly31 (runes id)). split.
  { destruct (Z.eqb_spec cores 0); [done|]. split; [discriminate|done]. }
  intros Hc. split; [|by apply Z.mod_pos_bound].
  rewrite (proj2 (Z.eqb_neq cores 0)) by lia. rewrite Z.rem_mod_nonneg; [done|by apply Z.mod_pos_bound|done].
Qed.

(** ** Witnesses *)

Lemma shards_partition_job_witness :
  let o := mkOrch "/data/submissions" "arena-net" "1.0" "512m" "256" 4 250 in
  let job := mkRunJob "run1" "sub1" 620 30 4000 in
  shard_count o job = 3 /\ sum (map ls_bots (shards_of job 3 [11; 12; 13])) = 620.
Proof.
  intros o job. assert (shard_count o job = 3) as Hn by (vm_compute; reflexivity). split; [exact Hn|].
  destruct (shards_partition_job o job [11; 12; 13]) as (_ & _ & _ & Hsum & _).
  - reflexivity.
  - vm_compute. split; discriminate.
  - vm_compute. discriminate.
  - rewrite Hn. reflexivity.
  - rewrite Hn in Hsum. exact Hsum.
Defined.

Lemma pin_core_is_polynomial_hash_witness : pinCore "9f3ac0" 8 = Some "0"%string.
Proof.
  destruct (proj2 (pin_core_is_polynomial_hash "9f3ac0" 8)) as [Hp _]; [reflexivity|]. rewrite Hp. vm_compute. reflexivity.
Defined.
