(* ===== verification/Lifecycle.v ===== *)
(** * The life of a run in the orchestrator: theorems

    Every run ends, after the calls of one of six stories, and no sandbox
    outlives its run. *)
From S2P Require Import Prelude Protocol Float64 Text IO Book PriorityBook BookHeap BookMatch BookRest BookRefine.
From S2P Require Import Conformance ConformanceProps Orchestrator OrchestratorProps.
Local Open Scope Z_scope.

(** What the waiting loops rely on of the clock: readings lie between the times
    before and after, no call goes back in time, and a sleep takes its time. *)
Class SleepLaws {W : Type} `{!Env W} (clock : W -> Z) : Prop := {
  sl_now (e : W) r e' : env_step Now e = (r, e') -> clock e <= r <= clock e';
  sl_mono c (e : W) r e' : env_step c e = (r, e') -> clock e <= clock e';
  sl_sleep n (e : W) r e' : 0 <= n -> env_step (Sleep n) e = (r, e') -> clock e + n <= clock e'
}.

Section life.
Context {W : Type} `{!Env W, !Strconv} (clock : W -> Z) `{!SleepLaws clock}.

Lemma timed_call (w w1 : World W ()) tr c (Q : reply c -> World W () -> Prop) :
  acted w w1 () tr ->
  (forall r w2, env_step c (env w1) = (r, env w2) -> acted w w2 () (tr ++ [ev c r]) -> Q r w2) ->
  wp (perform c) Q w1.
Proof.
  intros (D1 & D2 & D3) HQ. apply wp_perform. intros r e He. apply HQ; [done|].
  split_and!; simpl; [done|by rewrite D2, app_assoc|]. by eapply runs_app, runs_one.
Qed.

Ltac timed D := lazymatch goal with |- wp (perform ?c) _ _ => eapply (timed_call _ _ _ c); [exact D|] end.

(** ** The two waiting loops *)

(** One turn of a loop that sleeps [d]: if it goes round, [d] has passed before
    the deadline. *)
Definition turn_ok (d deadline : Z) (P : bool -> list event -> Prop) (w w1 : World W ()) tr (x : unit + bool) (w2 : World W ()) : Prop :=
  exists tr', acted w w2 () (tr ++ tr') /\ writes tr' = []
  /\ match x with
     | inl _ => clock (env w1) + d <= clock (env w2) /\ clock (env w1) < deadline
     | inr b => P b tr'
     end.

Lemma waiting_loop d deadline P (body : unit -> M (World W ()) (unit + bool)) fuel w w1 tr :
  0 < d -> deadline - clock (env w1) <= d * Z.of_nat fuel ->
  (forall b tr1 tr2, P b tr2 -> P b (tr1 ++ tr2)) ->
  (forall w1 tr, acted w w1 () tr -> wp (body ()) (turn_ok d deadline P w w1 tr) w1) ->
  acted w w1 () tr ->
  wp (loop (S fuel) body ()) (fun b w2 => exists tr', acted w w2 () (tr ++ tr') /\ writes tr' = [] /\ P b tr') w1.
Proof.
  intros Hd Hfuel HP Hbody. revert w1 tr Hfuel. induction fuel as [|fuel IH]; intros w1 tr Hfuel D.
  - destruct (Hbody w1 tr D) as (x & w2 & Hx & tr2 & D2 & W2 & Hres). destruct x as [[]|b].
    + lia.
    + exists b, w2. split; [by apply loop_exit|]. by exists tr2.
  - destruct (Hbody w1 tr D) as (x & w2 & Hx & tr2 & D2 & W2 & Hres). destruct x as [[]|b].
    + destruct (IH w2 (tr ++ tr2) ltac:(lia) D2) as (b & w3 & Hl & tr3 & D3 & W3 & H3).
      exists b, w3. split; [by rewrite (loop_next _ _ _ _ _ _ Hx)|].
      exists (tr2 ++ tr3). rewrite app_assoc. split; [done|]. split; [by rewrite writes_app, W2, W3|by apply HP].
    + exists b, w2. split; [by apply loop_exit|]. by exists tr2.
Qed.

(** Healthy means that the last thing heard was a 200. *)
Definition heard_health (target : string) (healthy : bool) (tr : list event) : Prop :=
  if healthy then exists tr0, tr = tr0 ++ [ev (HttpGet (target +:+ "/health")) (Some 200)] else True.

Lemma health_turn target deadline w w1 tr :
  acted w w1 () tr ->
  wp (health_step target deadline ()) (turn_ok (500 * Millisecond) deadline (heard_health target) w w1 tr) w1.
Proof.
  intros D. unfold health_step. apply wp_bind. timed D. intros now w2 E2 D2.
  pose proof (sl_now _ _ _ E2) as C2. destruct (Z.ltb_spec now deadline).
  - apply wp_bind. timed D2. intros resp w3 E3 D3. pose proof (sl_mono _ _ _ _ E3) as C3.
    destruct (match resp with Some code => code =? 200 | None => false end) eqn:Hok.
    + apply wp_ret. rewrite <- app_assoc in D3. eexists. split; [exact D3|]. split; [done|].
      destruct resp as [code|]; [|done]. apply Z.eqb_eq in Hok as ->. by exists [ev Now now].
    + apply wp_bind. timed D3. intros [] w4 E4 D4. apply sl_sleep in E4; [|done]. apply wp_ret.
      rewrite <- !app_assoc in D4. eexists. split; [exact D4|]. split; [done|]. lia.
  - apply wp_ret. eexists. by split; [exact D2|].
Qed.

(** The verdict is what the store says. *)
Definition heard_verdict (runID : string) (verdict : bool) (tr : list event) : Prop :=
  if verdict then exists tr0 s, tr = tr0 ++ [ev (HGet ("run:" +:+ runID) "status") (Some s)]
                                /\ (s = "done" \/ s = "failed")%string
  else True.

Lemma babysit_turn runID deadline w w1 tr :
  acted w w1 () tr ->
  wp (babysit_step runID deadline ()) (turn_ok (2 * Second) deadline (heard_verdict runID) w w1 tr) w1.
Proof.
  intros D. unfold babysit_step. apply wp_bind. timed D. intros now w2 E2 D2.
  pose proof (sl_now _ _ _ E2) as C2. destruct (Z.ltb_spec now deadline).
  - apply wp_bind. timed D2. intros [] w3 E3 D3. apply sl_sleep in E3; [|done]. apply wp_bind. timed D3.
    intros status w4 E4 D4. pose proof (sl_mono _ _ _ _ E4) as C4. cbv zeta.
    destruct (String.eqb (default "" status) "done" || String.eqb (default "" status) "failed") eqn:Hs; apply wp_ret;
      rewrite <- !app_assoc in D4; (eexists; split; [exact D4|]; split; [done|]).
    + destruct status as [s|]; [|done]. simpl in Hs. exists [ev Now now; ev (Sleep (2 * Second)) ()], s.
      split; [done|]. apply orb_true_iff in Hs as [?%String.eqb_eq|?%String.eqb_eq]; auto.
    + lia.
  - apply wp_ret. eexists. by split; [exact D2|].
Qed.

Definition life_fuel (job : RunJob) : nat := S (Z.to_nat (90 + Z.max 0 (rj_duration job))).

Lemma waitHealthy_ok fuel job w w1 tr :
  (life_fuel job <= fuel)%nat -> acted w w1 () tr ->
  wp (waitHealthy fuel (target_of job) (45 * Second)) (fun b w2 => exists tr', acted w w2 () (tr ++ tr')
    /\ writes tr' = [] /\ heard_health (target_of job) b tr') w1.
Proof.
  intros Hf D. unfold life_fuel in Hf. destruct fuel as [|fuel]; [lia|]. unfold waitHealthy. apply wp_bind.
  timed D. intros now w2 E2 D2. apply sl_now in E2.
  eapply wp_mono.
  { eapply (waiting_loop (500 * Millisecond) (now + 45 * Second) (heard_health (target_of job))); [done| | | |exact D2].
    - unfold Second, Millisecond in *. lia.
    - intros [] tr1 tr2; [|done]. intros [tr0 ->]. exists (tr1 ++ tr0). by rewrite app_assoc.
    - intros. by apply health_turn. }
  intros b w3 (tr3 & D3 & W3 & Hh). rewrite <- app_assoc in D3. eexists. split; [exact D3|]. split; [done|].
  destruct b; [|done]. destruct Hh as [tr0 ->]. by exists (ev Now now :: tr0).
Qed.

(** The wait for the verdict: the job's duration and two minutes. *)
Lemma babysit_ok fuel job deadline w w1 tr :
  (life_fuel job <= fuel)%nat -> 0 <= rj_duration job <= 2 ^ 32 ->
  deadline <= clock (env w1) + Int64.add (Int64.mul (rj_duration job) Second) (2 * Minute) ->
  acted w w1 () tr ->
  wp (loop fuel (babysit_step (rj_run job) deadline) ()) (fun b w2 => exists tr', acted w w2 () (tr ++ tr')
    /\ writes tr' = [] /\ heard_verdict (rj_run job) b tr') w1.
Proof.
  intros Hf Hd Hdl D. unfold life_fuel in Hf. destruct fuel as [|fuel]; [lia|].
  eapply (waiting_loop (2 * Second) deadline (heard_verdict (rj_run job))); [done| | | |exact D].
  - unfold Int64.add, Int64.mul in Hdl. rewrite (Int64.wrap_id (_ * _)), Int64.wrap_id in Hdl;
      unfold Minute, Second, Int64.in_range, Int64.min_val, Int64.max_val in *; lia.
  - intros [] tr1 tr2; [|done]. intros (tr0 & s & -> & Hs). exists (tr1 ++ tr0), s. by rewrite app_assoc.
  - intros. by apply babysit_turn.
Qed.

(** ** Dispatching and probing *)

Definition load_calls (l : list LoadShard) : list call := map (fun s => XAdd streamLoad (MShard s)) l.

Lemma dispatch_ok job n k i w w1 tr :
  acted w w1 () tr ->
  wp (dispatch job n k i) (fun _ w2 => exists tr' nows, acted w w2 () (tr ++ tr') /\ length nows = k
    /\ writes tr' = load_calls (zip_with (shard_of job n) (seqZ i (Z.of_nat k)) nows)) w1.
Proof.
  revert i w1 tr. induction k as [|k IH]; intros i w1 tr D.
  - apply wp_ret. exists [], []. rewrite app_nil_r. by split_and!.
  - simpl dispatch. apply wp_bind. timed D. intros now w2 E2 D2. apply wp_bind. timed D2. intros r w3 E3 D3.
    eapply wp_mono; [by apply IH|]. intros [] w4 (tr4 & nows & D4 & Hlen & W4).
    rewrite <- !app_assoc in D4. eexists _, (now :: nows). split; [exact D4|]. split; [simpl; lia|].
    rewrite !writes_app, W4. rewrite (seqZ_cons i (Z.of_nat (S k))) by lia.
    replace (Z.pred (Z.of_nat (S k))) with (Z.of_nat k) by lia. rewrite <- Z.add_1_r. reflexivity.
Qed.

Definition probe_call (target : string) (st : step) : call :=
  if negb (String.eqb (cancel st) "") then DeleteOrder (target +:+ "/orders/" +:+ cancel st)
  else PostOrder (target +:+ "/orders") (order st).

Lemma answered_runs target steps rs e e' :
  answered target steps rs e e' -> runs e (zip_with (probe_event target) steps rs) e'.
Proof.
  revert rs e. induction steps as [|st steps IH]; intros [|r rs] e; simpl; try done; [intros ->; constructor|].
  intros (e1 & Ha & Hrest). apply IH in Hrest. unfold answers, to_request, probe_event in *.
  destruct (negb (String.eqb (cancel st) "")); econstructor; done.
Qed.

Lemma probe_writes target steps rs :
  length rs = length steps -> writes (zip_with (probe_event target) steps rs) = map (probe_call target) steps.
Proof.
  revert rs. induction steps as [|st steps IH]; intros [|r rs] Hl; try done. simpl in Hl.
  change (writes (probe_event target st r :: zip_with (probe_event target) steps rs) = probe_call target st :: map (probe_call target) steps).
  rewrite <- (IH rs) by lia. unfold probe_event, probe_call. by destruct (negb (String.eqb (cancel st) "")).
Qed.

Lemma conformance_ok target w w1 tr :
  acted w w1 () tr ->
  wp (conformance target) (fun r w2 => exists rs, length rs = length scenario
    /\ acted w w2 () (tr ++ zip_with (probe_event target) scenario rs)
    /\ r.1 = F64.div (F64.of_Z (total_marks expected rs)) (F64.of_Z 30)
    /\ (r.2 = "all checks passed" <-> Forall2 agrees expected rs)) w1.
Proof.
  intros (D1 & D2 & D3). eapply wp_mono; [apply conformance_judges|].
  intros [score detail] w' (rs & Ha & Ht & Hs & _ & Hd). exists rs.
  pose proof (answered_length _ _ _ _ _ Ha) as Hlen. split; [done|]. split; [|by split].
  split; [by destruct (local w')|]. split; [by rewrite Ht, D2, app_assoc|].
  eapply runs_app; [exact D3|]. by apply answered_runs.
Qed.

(** ** The stories *)

Section story.
Context (o : orch) (job : RunJob).

Definition set_call (kv : list (string * value)) : call := HSet ("run:" +:+ rj_run job) kv.
Definition building (t : Z) : call := set_call [("status", VStr "building"); ("started", VInt (unix_seconds t))].
Definition failed (msg : string) (t : Z) : call :=
  set_call [("status", VStr "failed"); ("error", VStr msg); ("finished", VInt (unix_seconds t))].
Definition build_call : call := Docker (Some (bundle_of o job)) (build_args job).
(** The core the sandbox is pinned to. *)
Definition core_of : string := default "" (pinCore (rj_submission job) (cores o)).

Definition run_call : call := Docker None (run_args o job core_of).
Definition cleanup : list call :=
  [Docker None ["rm"; "-f"; name_of job]; Docker None ["rmi"; "-f"; img_of job]].

(** The store said that the verdict is in. *)
Definition told (tr : list event) : Prop :=
  exists s, ev (HGet ("run:" +:+ rj_run job) "status") (Some s) ∈ tr /\ (s = "done" \/ s = "failed")%string.

(** Right after its start the engine was probed, and answered [rs]. *)
Definition probed (tr : list event) (rs : list http_reply) : Prop :=
  exists tr1 out tr2 tr3,
    tr = tr1 ++ ev run_call (out, false) :: tr2 ++ zip_with (probe_event (target_of job)) scenario rs ++ tr3
    /\ writes tr2 = [set_call [("status", VStr "conformance")]].

Inductive story (tr : list event) : Prop :=
| story_no_bundle t msg t' :
    writes tr = [building t; failed ("bundle missing: " +:+ msg) t'] -> story tr
| story_build_failed t out t' :
    writes tr = [building t; build_call; failed ("image build failed:" +:+ newline +:+ tail out 15) t'] -> story tr
| story_start_failed t out t' :
    writes tr = [building t; build_call; run_call; failed ("sandbox start failed:" +:+ newline +:+ tail out 15) t']
                ++ cleanup -> story tr
| story_unhealthy t logs t' :
    writes tr = [building t; build_call; run_call; Docker None ["logs"; "--tail"; "15"; name_of job];
                 failed ("engine never became healthy" +:+ newline +:+ tail logs 15) t'] ++ cleanup -> story tr
| story_loaded t rs detail nows last :
    ev (HttpGet (target_of job +:+ "/health")) (Some 200) ∈ tr ->
    length rs = length scenario -> probed tr rs -> (detail = "all checks passed" <-> Forall2 agrees expected rs) ->
    length nows = Z.to_nat (shard_count o job) ->
    (last = [] /\ told tr \/ exists t', last = [failed "run timed out waiting for telemetry verdict" t']) ->
    writes tr =
      [building t; build_call; run_call; set_call [("status", VStr "conformance")]]
      ++ map (probe_call (target_of job)) scenario
      ++ [set_call [("conformance_score", VStr (fixed 4 (F64.div (F64.of_Z (total_marks expected rs)) (F64.of_Z 30))));
                    ("conformance_detail", VStr detail)];
          set_call [("status", VStr "load"); ("total_shards", VInt (shard_count o job))]]
      ++ load_calls (shards_of job (shard_count o job) nows)
      ++ last ++ cleanup -> story tr.
End story.

Lemma fail_ok job msg w w1 tr :
  acted w w1 () tr ->
  wp (fail (rj_run job) msg) (fun _ w2 => exists t tr', acted w w2 () (tr ++ tr') /\ writes tr' = [failed job msg t]) w1.
Proof.
  intros D. unfold fail, setRun. apply wp_bind. timed D. intros now w2 _ D2. timed D2. intros [] w3 _ D3.
  rewrite <- app_assoc in D3. exists now. eexists. by split; [exact D3|].
Qed.

(** What [benchmark] adds to the calls made before it. *)
Definition benchmark_post (o : orch) (job : RunJob) (err : bool) (tr : list event) : Prop :=
  exists calls, writes tr = calls /\
  ((exists out t, calls = [failed job ("sandbox start failed:" +:+ newline +:+ tail out 15) t])
   \/ (exists logs t, calls = [Docker None ["logs"; "--tail"; "15"; name_of job];
                               failed job ("engine never became healthy" +:+ newline +:+ tail logs 15) t])
   \/ err = false /\ exists rs detail nows last,
      ev (HttpGet (target_of job +:+ "/health")) (Some 200) ∈ tr
      /\ length rs = length scenario /\ (detail = "all checks passed" <-> Forall2 agrees expected rs)
      /\ (exists tr2 tr3, tr = tr2 ++ zip_with (probe_event (target_of job)) scenario rs ++ tr3
          /\ writes tr2 = [set_call job [("status", VStr "conformance")]])
      /\ length nows = Z.to_nat (shard_count o job)
      /\ (last = [] /\ told job tr \/ exists t', last = [failed job "run timed out waiting for telemetry verdict" t'])
      /\ calls = [set_call job [("status", VStr "conformance")]] ++ map (probe_call (target_of job)) scenario
         ++ [set_call job [("conformance_score", VStr (fixed 4 (F64.div (F64.of_Z (total_marks expected rs)) (F64.of_Z 30))));
                           ("conformance_detail", VStr detail)];
             set_call job [("status", VStr "load"); ("total_shards", VInt (shard_count o job))]]
         ++ load_calls (shards_of job (shard_count o job) nows) ++ last).

Lemma seqZ_nat n : seqZ 0 (Z.of_nat (Z.to_nat n)) = seqZ 0 n.
Proof.
  destruct (Z.le_gt_cases 0 n); [by rewrite Z2Nat.id|].
  by rewrite !seqZ_nil by lia.
Qed.

Lemma asked_between (tr0 z rest : list event) (e1 e2 : event) :
  writes (tr0 ++ [e1]) = [] -> is_write (called e2) = true ->
  exists tr2 tr3, tr0 ++ [e1] ++ [e2] ++ z ++ rest = tr2 ++ z ++ tr3 /\ writes tr2 = [called e2].
Proof.
  intros Hw He. exists ((tr0 ++ [e1]) ++ [e2]), rest. split; [by rewrite <- !app_assoc|].
  rewrite writes_app, Hw. unfold writes. simpl. by rewrite He.
Qed.

#[local] Opaque expected total_marks scenario.

Lemma benchmark_ok fuel o job started w w1 tr :
  (life_fuel job <= fuel)%nat -> 0 <= rj_duration job <= 2 ^ 32 -> acted w w1 () tr ->
  wp (benchmark fuel o job started) (fun _ w2 => exists tr',
    acted w w2 () (tr ++ tr') /\ benchmark_post o job started.2 tr') w1.
Proof.
  intros Hf Hdur D. destruct started as [out err]. unfold benchmark, docker, setRun. destruct err.
  { eapply wp_mono; [by apply fail_ok|]. intros [] w2 (t & tr2 & D2 & W2). exists tr2. split; [done|].
    eexists. split; [exact W2|]. left. by exists out, t. }
  apply wp_bind. eapply wp_mono; [by apply waitHealthy_ok|]. intros healthy w2 (tr2 & D2 & W2 & Hh).
  destruct healthy; simpl negb; cbv iota.
  2:{ apply wp_bind. timed D2. intros [logs e] w3 _ D3. eapply wp_mono; [by apply fail_ok|].
      intros [] w4 (t & tr4 & D4 & W4). rewrite <- !app_assoc in D4. eexists. split; [exact D4|].
      eexists. split; [rewrite !writes_app, W2, W4; reflexivity|]. right. left. by exists logs, t. }
  destruct Hh as [tr0 ->]. apply wp_bind. timed D2. intros [] w3 _ D3.
  apply wp_bind. eapply wp_mono; [by apply conformance_ok|]. intros [score detail] w4 (rs & Hrs & D4 & Hscore & Hdetail).
  cbn [fst snd] in Hscore, Hdetail. apply wp_bind. timed D4. intros [] w5 _ D5. cbv zeta. apply wp_bind. timed D5. intros [] w6 _ D6.
  apply wp_bind. eapply wp_mono; [by apply dispatch_ok|]. intros [] w7 (tr7 & nows & D7 & Hn & W7).
  rewrite seqZ_nat in W7. apply wp_bind. timed D7. intros now w8 E8 D8. apply sl_now in E8.
  apply wp_bind. eapply wp_mono; [eapply babysit_ok; [done|done| |exact D8]; lia|].
  intros verdict w9 (tr9 & D9 & W9 & Hv). set (health := ev (HttpGet (target_of job +:+ "/health")) (Some 200)) in *.
  destruct verdict.
  - apply wp_ret. rewrite <- !app_assoc in D9. eexists. split; [exact D9|]. eexists. split; [reflexivity|].
    right. right. split; [done|]. exists rs, detail, nows, []. rewrite app_nil_r. split_and!; [set_solver|done|done| |done| |].
    + by apply (asked_between tr0 _ _ health (ev (HSet _ _) tt)).
    + left. split; [done|]. destruct Hv as (tr10 & s & -> & Hs). exists s. split; [|done].
      rewrite !app_assoc. apply elem_of_app. right. left.
    + rewrite !writes_app, W7, W9. rewrite probe_writes by done.
      rewrite writes_app in W2. apply app_nil in W2 as [-> _]. rewrite <- Hscore. rewrite app_nil_r. done.
  - eapply wp_mono; [by apply fail_ok|]. intros [] w10 (t & tr10 & D10 & W10).
    rewrite <- !app_assoc in D10. eexists. split; [exact D10|]. eexists. split; [reflexivity|].
    right. right. split; [done|]. exists rs, detail, nows, [failed job "run timed out waiting for telemetry verdict" t].
    split_and!; [set_solver|done|done|by apply (asked_between tr0 _ _ health (ev (HSet _ _) tt))|done|right; by exists t|].
    rewrite !writes_app, W7, W9, W10. rewrite probe_writes by done.
    rewrite writes_app in W2. apply app_nil in W2 as [-> _]. rewrite <- Hscore. done.
Qed.

Lemma teardown_ok job w w1 tr :
  acted w w1 () tr ->
  wp (teardown (name_of job) (img_of job)) (fun _ w2 => exists tr', acted w w2 () (tr ++ tr') /\ writes tr' = cleanup job) w1.
Proof.
  intros D. unfold teardown, docker. apply wp_bind. timed D. intros r w2 _ D2. apply wp_bind. timed D2.
  intros r3 w3 _ D3. apply wp_ret. rewrite <- app_assoc in D3. eexists. by split; [exact D3|].
Qed.

Lemma told_mono job tr tr1 tr2 : told job tr -> told job (tr1 ++ tr ++ tr2).
Proof. intros (s & Hin & Hs). exists s. split; [|done]. rewrite !elem_of_app. auto. Qed.

Lemma regrouped (pre tr tr2 z tr3 : list event) (e : event) (post : list event) :
  tr = tr2 ++ z ++ tr3 -> ((pre ++ [e]) ++ tr) ++ post = pre ++ e :: tr2 ++ z ++ tr3 ++ post.
Proof. intros ->. by rewrite <- !app_assoc. Qed.

(** No container was started. *)
Definition unstarted (tr : list event) : Prop := forall args, Docker None args ∉ writes tr.

Lemma pinned o job : cores o <> 0 -> pinCore (rj_submission job) (cores o) = Some (core_of o job).
Proof.
  intros Hc. unfold core_of. destruct (pinCore _ _) as [pin|] eqn:Hp; [done|].
  by apply pin_core_is_polynomial_hash in Hp.
Qed.

Lemma unpinned id cs : cs = 0 -> pinCore id cs = None.
Proof. apply pin_core_is_polynomial_hash. Qed.

(** What [handle] does once the image is built. *)
Lemma handle_started fuel o job w w1 tr t :
  (life_fuel job <= fuel)%nat -> 0 <= rj_duration job <= 2 ^ 32 -> cores o <> 0 ->
  acted w w1 () tr -> writes tr = [building job t; build_call o job] ->
  wp (started ← docker None (run_args o job (core_of o job)); benchmark fuel o job started;; teardown (name_of job) (img_of job))
    (fun _ w' => exists tr, acted w w' () tr /\ story o job tr) w1.
Proof.
  intros Hf Hdur Hc D W0. unfold docker at 1. apply wp_bind. timed D. intros started w5 _ D5. apply wp_bind.
  eapply wp_mono; [by apply benchmark_ok|]. intros [] w6 (tr6 & D6 & Hpost).
  eapply wp_mono; [by apply teardown_ok|]. intros [] w7 (tr7 & D7 & W7). eexists. split; [exact D7|].
  destruct Hpost as (calls & Hcalls & [(out' & t' & ->)|[(logs & t' & ->)|[Herr Hl]]]).
  - eapply (story_start_failed _ _ _ t out' t'). by rewrite !writes_app, W0, Hcalls, W7.
  - eapply (story_unhealthy _ _ _ t logs t'). by rewrite !writes_app, W0, Hcalls, W7.
  - destruct Hl as (rs & detail & nows & last & Hh & Hrs & Hdetail & (tr7a & tr7b & Htr6 & Hasked) & Hn & Hlast & ->).
    destruct started as [out' err]. simpl in Herr. subst err.
    eapply (story_loaded _ _ _ t rs detail nows last); [by rewrite !elem_of_app; auto|done| |done|done| |].
    + eexists _, out', tr7a, _. split; [exact (regrouped _ _ _ _ _ _ _ Htr6)|exact Hasked].
    + destruct Hlast as [[-> Ht]|Hlast]; [left|by right]. split; [done|]. rewrite <- app_assoc. by apply told_mono.
    + rewrite !writes_app, W0, Hcalls, W7, <- !app_assoc. done.
Qed.

(** [handle] panics only when there are no cores to pin to, and then it never
    starts a container. *)
Lemma handle_or_panic fuel o job w :
  (life_fuel job <= fuel)%nat -> 0 <= rj_duration job <= 2 ^ 32 ->
  wp_or_panic (handle fuel o job) (cores o = 0)
    (fun _ w' => exists tr, acted w w' () tr /\ story o job tr /\ (cores o = 0 -> unstarted tr)) w.
Proof.
  intros Hf Hdur. unfold handle, docker, setRun.
  assert (acted w w () []) as D by (split_and!; [by destruct (local w)|by rewrite app_nil_r|constructor]).
  apply wp_or_panic_bind. timed D. intros t w1 _ D1. cbv zeta. apply wp_or_panic_bind. timed D1. intros [] w2 _ D2.
  apply wp_or_panic_bind. timed D2. intros err w3 _ D3. simpl in D3. destruct err as [msg|].
  { apply wp_no_panic. eapply wp_mono; [by apply fail_ok|]. intros [] w4 (t' & tr4 & D4 & W4). eexists. split; [exact D4|].
    split; [eapply (story_no_bundle _ _ _ t msg t')|intros _ args]; rewrite writes_app, W4; [done|].
    simpl. rewrite !elem_of_cons, elem_of_nil. unfold failed, set_call. naive_solver. }
  apply wp_or_panic_bind. timed D3. intros [out e] w4 _ D4. destruct e.
  { apply wp_no_panic. eapply wp_mono; [by apply fail_ok|]. intros [] w5 (t' & tr5 & D5 & W5). eexists. split; [exact D5|].
    split; [eapply (story_build_failed _ _ _ t out t')|intros _ args]; rewrite !writes_app, W5; [done|].
    simpl. rewrite !elem_of_cons, elem_of_nil. unfold failed, set_call. naive_solver. }
  destruct (decide (cores o = 0)) as [Hc|Hc]; [by rewrite unpinned|]. rewrite pinned by done. apply wp_no_panic, wp_bind, wp_ret.
  eapply wp_mono; [eapply (handle_started fuel o job w w4 _ t); [done|done|done|exact D4|reflexivity]|].
  intros [] w5 (tr & D5 & Hs). by exists tr.
Qed.

Lemma handle_ok fuel o job w :
  (life_fuel job <= fuel)%nat -> 0 <= rj_duration job <= 2 ^ 32 -> cores o <> 0 ->
  wp (handle fuel o job) (fun _ w' => exists tr, acted w w' () tr /\ story o job tr) w.
Proof.
  intros Hf Hdur Hc. eapply wp_mono; [by eapply no_panic_wp, handle_or_panic|]. intros [] w' (tr & D & Hs & _). by exists tr.
Qed.

(** ** Claims *)

(** C5. Every run ends, by one of six stories. Whatever docker, the engine and
    the store answer, and with fuel for one turn per half second of health
    checks and per two seconds of waiting, [handle] returns, and what it did
    outside is exactly: give up without a bundle, or after a failed build; or
    start the sandbox, pinned to its core, and then give up when it did not
    start or never answered 200 to a health check; or probe it, record as its
    conformance what the answers to the probe's requests say, dispatch every
    shard once, and end when the store says so or else as timed out; in the
    last four always tearing down. Its one panic is the division by the number
    of cores when that is 0, which [main] never lets happen: then it gives up
    by one of the first two stories, or panics, before it starts a container;
    with any other number it does not panic. *)
Theorem handle_ends_in_a_story (fuel : nat) (o : orch) (job : RunJob) (w : World W ()) :
  (life_fuel job <= fuel)%nat -> 0 <= rj_duration job <= 2 ^ 32 ->
  match handle fuel o job w with
  | Ok (_, w') => exists tr, trace w' = trace w ++ tr /\ runs (env w) tr (env w') /\ story o job tr
                             /\ (cores o = 0 -> unstarted tr)
  | Panic => cores o = 0
  | OutOfFuel => False
  end.
Proof.
  intros Hf Hdur. eapply wp_or_panic_mono; [by apply handle_or_panic|].
  intros [] w' (tr & (_ & Ht & Hr) & Hs). by exists tr.
Qed.

Fixpoint field (k : string) (fields : list (string * value)) : option value :=
  match fields with
  | [] => None
  | (k', v) :: fields' => if String.eqb k' k then Some v else field k fields'
  end.

(** The states a list of calls gives the run. *)
Definition status_of (run : string) (c : call) : list string :=
  match c with
  | HSet key fields =>
      if String.eqb key ("run:" +:+ run) then
        match field "status" fields with Some (VStr s) => [s] | _ => [] end
      else []
  | _ => []
  end.
Definition statuses (run : string) (calls : list call) : list string := concat (map (status_of run) calls).

Lemma statuses_app run l l' : statuses run (l ++ l') = statuses run l ++ statuses run l'.
Proof. unfold statuses. by rewrite map_app, concat_app. Qed.

Lemma statuses_cons run c l : statuses run (c :: l) = status_of run c ++ statuses run l.
Proof. done. Qed.

Lemma status_of_set job kv :
  status_of (rj_run job) (set_call job kv) = match field "status" kv with Some (VStr s) => [s] | _ => [] end.
Proof. unfold status_of, set_call. by rewrite String.eqb_refl. Qed.

Lemma statuses_probe run target steps : statuses run (map (probe_call target) steps) = [].
Proof.
  induction steps as [|st steps IH]; [done|]. simpl map. rewrite statuses_cons, IH.
  unfold probe_call. by destruct (negb (String.eqb (cancel st) "")).
Qed.

Lemma statuses_load run l : statuses run (load_calls l) = [].
Proof. by induction l. Qed.

(** C25. No sandbox is left, and the states are in order. Every run whose
    sandbox was started, whether or not the start succeeded, ends with the
    removal of its container and then of its image; the state of every run
    goes from [building] to [failed], or through [conformance] to [load] and
    stays there for the ingester to finish, or from there to [failed]; no
    other state is ever written, and load is dispatched only to an engine that
    answered a health check. There is some number of cores to pin to. *)
Theorem no_sandbox_is_left (fuel : nat) (o : orch) (job : RunJob) (w : World W ()) :
  (life_fuel job <= fuel)%nat -> 0 <= rj_duration job <= 2 ^ 32 -> cores o <> 0 ->
  wp (handle fuel o job) (fun _ w' => exists tr, trace w' = trace w ++ tr
    /\ (run_call o job ∈ writes tr -> exists pre, writes tr = pre ++ cleanup job)
    /\ statuses (rj_run job) (writes tr) ∈ [["building"; "failed"]; ["building"; "conformance"; "load"];
                                            ["building"; "conformance"; "load"; "failed"]]
    /\ forall s, XAdd streamLoad (MShard s) ∈ writes tr ->
         ev (HttpGet (target_of job +:+ "/health")) (Some 200) ∈ tr) w.
Proof.
  intros Hf Hdur Hc. eapply wp_mono; [by apply handle_ok|]. intros [] w' (tr & (_ & Ht & _) & Hs).
  exists tr. split; [done|].
  destruct Hs as [t msg t' Hw|t out t' Hw|t out t' Hw|t logs t' Hw|t rs detail nows last Hh _ _ _ _ Hlast Hw]; rewrite Hw.
  - split_and!; [|rewrite !statuses_cons; unfold building, failed; rewrite !status_of_set; simpl; left|].
    + rewrite !elem_of_cons, elem_of_nil. by intros [?|[?|[]]].
    + intros s. rewrite !elem_of_cons, elem_of_nil. by intros [?|[?|[]]].
  - split_and!; [|rewrite !statuses_cons; unfold building, failed; rewrite !status_of_set; simpl; left|].
    + rewrite !elem_of_cons, elem_of_nil. by intros [?|[?|[?|[]]]].
    + intros s. rewrite !elem_of_cons, elem_of_nil. by intros [?|[?|[?|[]]]].
  - split_and!; [intros _; by eexists| |].
    + rewrite statuses_app, !statuses_cons. unfold building, failed. rewrite !status_of_set. simpl. left.
    + intros s. unfold cleanup. simpl. rewrite !elem_of_cons, elem_of_nil. naive_solver.
  - split_and!; [intros _; by eexists| |].
    + rewrite statuses_app, !statuses_cons. unfold building, failed. rewrite !status_of_set. simpl. left.
    + intros s. unfold cleanup. simpl. rewrite !elem_of_cons, elem_of_nil. naive_solver.
  - split_and!; [intros _; eexists; by rewrite !app_assoc| |done].
    rewrite !statuses_app, statuses_probe, statuses_load, !statuses_cons. unfold building.
    rewrite !status_of_set. destruct Hlast as [[-> _]|[t' ->]].
    + simpl. right. left.
    + unfold failed. rewrite statuses_cons, status_of_set. simpl. do 2 right. left.
Qed.
End life.

(** ** Witnesses: the clock of [dead_engine] does not sleep; one that does *)

Definition sleepy_engine : Env Z := fun c t =>
  match c with
  | Sleep n => (tt, t + Z.max 0 n)
  | Now => (t, t)
  | c => (default_reply c, t)
  end.

Lemma sleepy_laws : SleepLaws (Env0 := sleepy_engine) (fun t => t).
Proof.
  split; unfold env_step, sleepy_engine.
  - intros e r e' [= <- <-]. lia.
  - intros c e r e' Heq. destruct c; injection Heq; intros; subst; lia.
  - intros n e r e' Hn [= <- <-]. lia.
Qed.

#[local] Instance plain_text : Strconv := {| other_float := fun _ => F64.zero; quote := fun s => s |}.
#[local] Existing Instances sleepy_engine sleepy_laws.

Definition demo_orch : orch := mkOrch "/data/submissions" "arena-net" "1.0" "512m" "256" 4 250.
Definition demo_job : RunJob := mkRunJob "run1" "sub1" 620 30 4000.
Definition demo_idle : World Z () := mkWorld 0 tt [].

(** Without cores, and with a docker that builds the image, [handle] panics. *)
Definition coreless : orch := mkOrch "/data/submissions" "arena-net" "1.0" "512m" "256" 0 250.
Definition building_engine : Env Z := fun c t =>
  match c with
  | Docker _ _ => ((""%string, false), t)
  | c => sleepy_engine c t
  end.

Lemma handle_ends_in_a_story_witness :
  wp (handle 200 demo_orch demo_job) (fun _ w' => story demo_orch demo_job (trace w')) demo_idle
  /\ handle (Env0 := building_engine) 200 coreless demo_job demo_idle = Panic.
Proof.
  split; [|vm_compute; reflexivity].
  pose proof (handle_ends_in_a_story (fun t => t) 200 demo_orch demo_job demo_idle) as Hend.
  destruct (handle 200 demo_orch demo_job demo_idle) as [[[] w']| |] eqn:Hrun.
  - exists tt, w'. split; [exact Hrun|]. destruct Hend as (tr & Ht & _ & Hs & _).
    + apply (bool_decide_unpack _). vm_compute. exact I.
    + vm_compute. split; discriminate.
    + simpl in Ht. rewrite Ht. exact Hs.
  - exfalso. assert (cores demo_orch = 0) as Hc; [apply Hend|discriminate Hc].
    + apply (bool_decide_unpack _). vm_compute. exact I.
    + vm_compute. split; discriminate.
  - exfalso. apply Hend.
    + apply (bool_decide_unpack _). vm_compute. exact I.
    + vm_compute. split; discriminate.
Defined.

Lemma no_sandbox_is_left_witness :
  wp (handle 200 demo_orch demo_job) (fun _ w' =>
    run_call demo_orch demo_job ∈ writes (trace w') -> exists pre, writes (trace w') = pre ++ cleanup demo_job) demo_idle.
Proof.
  eapply wp_mono.
  { apply (no_sandbox_is_left (fun t => t) 200 demo_orch demo_job demo_idle).
    - apply (bool_decide_unpack _). vm_compute. exact I.
    - vm_compute. split; discriminate.
    - discriminate. }
  intros [] w' (tr & Ht & Hrun & _). simpl in Ht. rewrite Ht. exact Hrun.
Defined.
