(* ===== verification/Gateway.v ===== *)
(** * The gateway: [src/cmd/gateway/main.go]

    The REST handlers, as functions of the decoded request, and the hub that
    fans events out to the WebSocket clients. *)
From S2P Require Import Prelude Protocol Float64 Text IO.
Local Open Scope Z_scope.

Definition streamRuns : string := "runs.jobs".
Definition keySnapshot : string := "leaderboard:snapshot".
Definition maxBots : Z := 5000.
Definition maxDuration : Z := 300.
Definition maxRPS : Z := 100000.

Definition unix_time (ns : Z) : Z := ns / 1000000000.

(** ** Requests and responses *)

(** A multipart form, parsed: the file is its name. *)
Record form := mkForm { f_team : string; f_name : string; f_bundle : option string }.

Record runReq := mkRunReq { rq_submission : string; rq_bots : Z; rq_duration : Z; rq_max_rps : Z }.

Inductive body :=
| BError (msg : string)
| BId (id : string)
| BRun (fields : gmap string string)
| BRuns (runs : list (gmap string string))
| BRaw (payload : string).

Record response := mkResponse { code : Z; content : body }.

(** The content type is always the same. *)
Definition writeJSON (c : Z) (v : body) : response := mkResponse c v.

Definition httpErr (c : Z) (msg : string) : response := writeJSON c (BError msg).

(** The order in which a [range] visits the fields of a hash. *)
Class FieldOrder := range_fields : gmap string string -> list (string * string).
Class FieldLaws `{!FieldOrder} : Prop := range_fields_ok m : range_fields m ≡ₚ map_to_list m.

Section gateway.
Context {W L : Type} `{!Env W, !FieldOrder} (dataDir : string).

Definition Gw (A : Type) : Type := M (World W L) A.

(** [rid] *)
Definition rid : Gw string := perform RandomId.

(** [POST /api/submissions]; [inr err] is a form that does not parse. *)
Definition createSubmission (r : form + string) : Gw response :=
  match r with
  | inr err => mret (httpErr 400 ("bad multipart form: " +:+ err))
  | inl f =>
      let team := trimSpace (f_team f) in
      let name := trimSpace (f_name f) in
      if String.eqb team "" || String.eqb name "" then
        mret (httpErr 400 "fields 'team' and 'name' are required")
      else
        match f_bundle f with
        | None => mret (httpErr 400 "field 'bundle' (tar.gz build context) is required")
        | Some filename =>
            if negb (hasSuffix filename ".tar.gz") && negb (hasSuffix filename ".tgz") then
              mret (httpErr 400 "bundle must be a .tar.gz docker build context")
            else
              id ← rid;
              err ← perform (CreateFile (join_path dataDir (id +:+ ".tar.gz")));
              match err with
              | Some msg => mret (httpErr 500 ("store bundle: " +:+ msg))
              | None =>
                  '(n, err) ← perform (WriteFile (join_path dataDir (id +:+ ".tar.gz")));
                  match err with
                  | Some msg => mret (httpErr 500 ("store bundle: " +:+ msg))
                  | None =>
                      now ← perform Now;
                      perform (HSet ("submission:" +:+ id)
                        [("id", VStr id); ("team", VStr team); ("name", VStr name);
                         ("bytes", VInt n); ("created", VInt (unix_time now))]);;
                      perform (LPush "submissions.index" id);;
                      perform (LTrim "submissions.index" 0 199);;
                      mret (writeJSON 201 (BId id))
                  end
              end
        end
  end.

(** The defaults and the caps of a request. *)
Definition normalize (req : runReq) : runReq :=
  let bots := if rq_bots req <=? 0 then 200 else rq_bots req in
  let duration := if rq_duration req <=? 0 then 45 else rq_duration req in
  let rps := if rq_max_rps req <=? 0 then 4000 else rq_max_rps req in
  mkRunReq (rq_submission req) (Z.min bots maxBots) (Z.min duration maxDuration) (Z.min rps maxRPS).

Definition job_of (id : string) (req : runReq) : RunJob :=
  mkRunJob id (rq_submission req) (rq_bots req) (rq_duration req) (rq_max_rps req).

Definition run_fields (job : RunJob) (now : Z) : list (string * value) :=
  [("id", VStr (rj_run job)); ("submission_id", VStr (rj_submission job));
   ("status", VStr "queued"); ("created", VInt (unix_time now));
   ("bots", VInt (rj_bots job)); ("duration_s", VInt (rj_duration job)); ("max_rps", VInt (rj_max_rps job))].

(** [POST /api/runs]; [inr err] is a body that does not decode. *)
Definition createRun (r : runReq + string) : Gw response :=
  match r with
  | inr err => mret (httpErr 400 ("bad json: " +:+ err))
  | inl req =>
      n ← perform (Exists ("submission:" +:+ rq_submission req));
      if n =? 0 then mret (httpErr 404 "unknown submission_id")
      else
        id ← rid;
        let job := job_of id (normalize req) in
        now ← perform Now;
        perform (HSet ("run:" +:+ rj_run job) (run_fields job now));;
        perform (LPush "runs.index" (rj_run job));;
        perform (LTrim "runs.index" 0 99);;
        err ← perform (XAdd streamRuns (MJob job));
        match err with
        | Some msg => mret (httpErr 500 ("enqueue: " +:+ msg))
        | None => mret (writeJSON 201 (BId (rj_run job)))
        end
  end.

(** [run["m_"+k] = v] for the fields [kvs]. *)
Definition add_metrics (run : gmap string string) (kvs : list (string * string)) : gmap string string :=
  foldl (fun m kv => <[("m_" +:+ kv.1)%string := kv.2]> m) run kvs.

Definition get_field (m : gmap string string) (k : string) : string := default "" (m !! k).

(** [None] is the nil map: there is no such run. *)
Definition runView (id : string) : Gw (option (gmap string string)) :=
  run ← perform (HGetAll ("run:" +:+ id));
  if decide (run = ∅) then mret None
  else
    res ← perform (HGetAll ("result:" +:+ id));
    let run := add_metrics run (range_fields res) in
    sub ← perform (HGetAll ("submission:" +:+ get_field run "submission_id"));
    if decide (sub = ∅) then mret (Some run)
    else mret (Some (<["name" := get_field sub "name"]> (<["team" := get_field sub "team"]> run))).

Fixpoint runViews (ids : list string) : Gw (list (gmap string string)) :=
  match ids with
  | [] => mret []
  | id :: ids' =>
      v ← runView id;
      vs ← runViews ids';
      mret (match v with Some run => run :: vs | None => vs end)
  end.

(** [GET /api/runs] *)
Definition listRuns : Gw response :=
  ids ← perform (LRange "runs.index" 0 49);
  out ← runViews ids;
  mret (writeJSON 200 (BRuns out)).

(** [GET /api/runs/{id}] *)
Definition getRun (id : string) : Gw response :=
  v ← runView id;
  match v with
  | None => mret (httpErr 404 "unknown run")
  | Some run => mret (writeJSON 200 (BRun run))
  end.

(** [GET /api/leaderboard] *)
Definition leaderboard : Gw response :=
  snap ← perform (GetKey keySnapshot);
  mret (mkResponse 200 (BRaw (default "[]" snap))).

(** [ws], once a connection is upgraded: the snapshot it is greeted with
    ([Hub.greet]), if there is one. *)
Definition readSnapshot : Gw (option string) := perform (GetKey keySnapshot).

(** ** The routes of [main] *)

(** A request: its method, the segments of its path, which is clean, and its
    body as a form or as JSON. *)
Record request := mkRequest { rq_method : string; rq_path : list string; rq_form : form + string; rq_json : runReq + string }.

(** What a request is for. The pattern of a method [GET] also takes [HEAD]; a
    wildcard takes one segment that is not empty; [GET /] takes every path. *)
Inductive route :=
| ToSubmissions | ToRuns | ToListRuns | ToRun (id : string) | ToLeaderboard | ToWs | ToHealth | ToFiles
| MethodNotAllowed.

Definition route_of (method : string) (path : list string) : route :=
  if String.eqb method "POST" then
    if decide (path = ["api"; "submissions"]) then ToSubmissions
    else if decide (path = ["api"; "runs"]) then ToRuns
    else MethodNotAllowed
  else if String.eqb method "GET" || String.eqb method "HEAD" then
    if decide (path = ["api"; "runs"]) then ToListRuns
    else if decide (path = ["api"; "leaderboard"]) then ToLeaderboard
    else if decide (path = ["ws"]) then ToWs
    else if decide (path = ["healthz"]) then ToHealth
    else
      match path with
      | [api; runs; id] =>
          if String.eqb api "api" && String.eqb runs "runs" && negb (String.eqb id "") then ToRun id else ToFiles
      | _ => ToFiles
      end
  else MethodNotAllowed.

(** The answer: of a handler, a bare status, or left to the file server or to
    the WebSocket of [Hub]. *)
Inductive answer := Answered (r : response) | Status (code : Z) | Files | Upgraded.

Definition handle_request (r : request) : Gw answer :=
  match route_of (rq_method r) (rq_path r) with
  | ToSubmissions => resp ← createSubmission (rq_form r); mret (Answered resp)
  | ToRuns => resp ← createRun (rq_json r); mret (Answered resp)
  | ToListRuns => resp ← listRuns; mret (Answered resp)
  | ToRun id => resp ← getRun id; mret (Answered resp)
  | ToLeaderboard => resp ← leaderboard; mret (Answered resp)
  | ToHealth => mret (Status 200)
  | MethodNotAllowed => mret (Status 405)
  | ToFiles => mret Files
  | ToWs => mret Upgraded
  end%string.
End gateway.

(** ** The hub *)

Module Hub.

(** A connection is a number. *)
Definition conn : Type := N.

(** The clients, with the messages already sent to each connection. The channel
    is the order of the broadcasts: [run] takes one message at a time. *)
Record hub := mkHub { clients : gset conn; sent : gmap conn (list string) }.

Definition newHub : hub := mkHub ∅ ∅.

Definition add (c : conn) (h : hub) : hub := mkHub ({[c]} ∪ clients h) (sent h).
Definition remove (c : conn) (h : hub) : hub := mkHub (clients h ∖ {[c]}) (sent h).

Definition received (h : hub) (c : conn) : list string := default [] (sent h !! c).

(** [WriteMessage] to one client: [ok] tells whether it succeeds. On an error
    the client is closed and dropped. *)
Definition write (ok : conn -> bool) (msg : string) (h : hub) (c : conn) : hub :=
  if ok c then mkHub (clients h) (<[c := received h c ++ [msg]]> (sent h))
  else remove c h.

(** One message of [run], the clients in the order [cs] of the [range]. *)
Definition broadcast (ok : conn -> bool) (msg : string) (cs : list conn) (h : hub) : hub :=
  foldl (write ok msg) h cs.

(** The first message [ws] sends to a new connection, before it joins: the
    snapshot, when there is one. An error is ignored. *)
Definition greet (ok : bool) (snap : option string) (c : conn) (h : hub) : hub :=
  match snap with
  | Some s => if ok then mkHub (clients h) (<[c := received h c ++ [s]]> (sent h)) else h
  | None => h
  end.

(** What happens to a hub, one critical section after the other: [run] ranges
    over the clients in any order, and any of the writes may fail. *)
Inductive op :=
| Greet (ok : bool) (snap : option string) (c : conn)
| Add (c : conn)
| Remove (c : conn)
| Broadcast (ok : conn -> bool) (msg : string).

Inductive step : op -> hub -> hub -> Prop :=
| step_greet ok snap c h : step (Greet ok snap c) h (greet ok snap c h)
| step_add c h : step (Add c) h (add c h)
| step_remove c h : step (Remove c) h (remove c h)
| step_broadcast ok msg cs h : cs ≡ₚ elements (clients h) -> step (Broadcast ok msg) h (broadcast ok msg cs h).

Inductive steps : list op -> hub -> hub -> Prop :=
| steps_nil h : steps [] h h
| steps_cons o ops h h1 h2 : step o h h1 -> steps ops h1 h2 -> steps (o :: ops) h h2.
End Hub.
