(* ===== verification/Config.v ===== *)
(** * The configuration of the services

    What the [main] functions make of the environment variables: [getenv] is
    [os.Getenv], which answers the empty text for a variable that is not set. *)
From S2P Require Import Prelude Protocol Float64 Text TextProps IO Orchestrator OrchestratorProps Gateway Ingester.
Local Open Scope Z_scope.

Section config.
Context (getenv : string -> string).

Definition env (k def : string) : string := if String.eqb (getenv k) "" then def else getenv k.

(** The orchestrator, on a host of [NumCPU] processors. *)
Definition orch_config (NumCPU : Z) : orch :=
  let cores := parseInt (env "SUB_CORES" (itoa NumCPU)) in
  mkOrch (env "DATA_DIR" "/data/submissions") (env "ARENA_NET" "arena-net") (env "SUB_CPUS" "1.0")
         (env "SUB_MEMORY" "512m") (env "SUB_PIDS" "256") (if cores <? 1 then 1 else cores) 250.

(** The gateway: its store, the directory of the bundles, the directory of the
    pages, and the address it listens on. *)
Record gateway_config := mkGateway { gw_redis : string; gw_dataDir : string; gw_web : string; gw_addr : string }.
Definition gateway_of : gateway_config :=
  mkGateway (env "REDIS_ADDR" "localhost:6379") (env "DATA_DIR" "/data/submissions") (env "WEB_DIR" "/web")
            (":" +:+ env "PORT" "8090").

(** The ingester archives when a database is named. *)
Definition ingester_pgDSN : string := env "PG_DSN" "".

(** The reference engine: its delay, whether it misbehaves, its port. *)
Definition refengine_delay : Z := parseInt (getenv "DELAY_MS").
Definition refengine_chaos : bool := String.eqb (getenv "CHAOS") "1".
Definition refengine_port : string := if String.eqb (getenv "PORT") "" then "8080" else getenv "PORT".

Lemma orch_config_cores NumCPU : 1 <= cores (orch_config NumCPU) <= Int64.max_val.
Proof.
  unfold orch_config. cbn [cores]. set (s := env _ _).
  assert (Int64.in_range (parseInt s)) as Hr.
  { unfold parseInt. destruct (signed s) as [neg t]. destruct t as [|c t]; [decide_now|].
    destruct (digits _ _) as [n|]; [|decide_now]. unfold Int64.in_range, Int64.min_val, Int64.max_val. lia. }
  unfold Int64.in_range in Hr. destruct (Z.ltb_spec (parseInt s) 1); [unfold Int64.max_val; lia|lia].
Qed.

(** The configuration cannot break a service. Whatever the environment
    variables say, the orchestrator pins to at least one core, so that pinning
    divides by no zero and answers the decimal number of one of them; without
    the variable, or with one that is the decimal number of a positive count,
    it pins to that many; its shards have 250 bots; and when both services see the same
    directory variable, a bundle is built from the file it was stored in. *)
Theorem configuration_is_safe (NumCPU : Z) :
  let o := orch_config NumCPU in
  1 <= cores o /\ botsPerShard o = 250
  /\ (forall id, exists c, 0 <= c < cores o /\ pinCore id (cores o) = Some (itoa c))
  /\ (forall n, 1 <= n <= Int64.max_val -> env "SUB_CORES" (itoa NumCPU) = itoa n -> cores o = n)
  /\ (forall job, bundle_of o job = join_path (gw_dataDir gateway_of) (rj_submission job +:+ ".tar.gz")).
Proof.
  cbv zeta. pose proof (orch_config_cores NumCPU) as Hc. split_and!; [lia|done| | |done].
  - intros id. destruct (pin_core_is_polynomial_hash id (cores (orch_config NumCPU))) as [_ [Hp Hr]]; [lia|]. eauto.
  - intros n Hn He. unfold orch_config. cbn [cores]. rewrite He, parseInt_itoa.
    + by rewrite (proj2 (Z.ltb_ge n 1)) by lia.
    + unfold Int64.in_range, Int64.min_val. lia.
Qed.
End config.

(** ** Witness: a host of eight processors, nothing set *)

Lemma configuration_is_safe_witness : cores (orch_config (fun _ => ""%string) 8) = 8.
Proof.
  destruct (configuration_is_safe (fun _ => ""%string) 8) as (_ & _ & _ & Hn & _). apply Hn; [split; vm_compute; discriminate|reflexivity].
Defined.
