(* ===== verification/Schema.v ===== *)
(** * The types of the shared store

    Redis types its keys when they are first written and refuses commands of
    another type; the fields of its hashes are text. The services share keys
    and fields by name only. Here is the schema they share, and that every
    command any of them can send respects it. *)
From S2P Require Import Prelude Protocol Float64 Text IO Consumer Calls Book Conformance Bot Fleet Ingester Orchestrator Gateway.
Local Open Scope Z_scope.

(** ** The schema *)

(** A field holds a number, text, or one of some words. *)
Inductive field_type := Number | Free | OneOf (words : list string).

Definition schema : Type := list (string * field_type).

Definition run_schema : schema :=
  [("id", Free); ("submission_id", Free); ("created", Number); ("bots", Number); ("duration_s", Number); ("max_rps", Number);
   ("status", OneOf ["queued"; "building"; "conformance"; "load"; "done"; "failed"]);
   ("started", Number); ("finished", Number); ("error", Free); ("total_shards", Number);
   ("conformance_score", Free); ("conformance_detail", Free)].

Definition result_schema : schema :=
  [("p50_us", Number); ("p90_us", Number); ("p99_us", Number); ("tps", Free); ("correctness", Free); ("err_rate", Free);
   ("sent", Number); ("acked", Number); ("errors", Number); ("violations", Number); ("violation_samples", Free); ("score", Free)].

Definition submission_schema : schema :=
  [("id", Free); ("team", Free); ("name", Free); ("bytes", Number); ("created", Number)].

(** The messages of a stream. *)
Inductive message_type := Jobs | Shards | Batches.

Inductive key_type :=
| Hash (fields : schema)
| Text
| SortedSet
| Names
| Stream (messages : message_type).

Definition has_prefix (p s : string) : bool := match strip_prefix p s with Some _ => true | None => false end.

(** The type of a key, by its name. *)
Definition type_of_key (key : string) : option key_type :=
  if has_prefix "run:" key then Some (Hash run_schema)
  else if has_prefix "result:" key then Some (Hash result_schema)
  else if has_prefix "submission:" key then Some (Hash submission_schema)
  else if has_prefix "best:" key then Some Text
  else if String.eqb key "leaderboard" then Some SortedSet
  else if String.eqb key "leaderboard:snapshot" then Some Text
  else if String.eqb key "runs.index" || String.eqb key "submissions.index" then Some Names
  else if String.eqb key "runs.jobs" then Some (Stream Jobs)
  else if String.eqb key "load.jobs" then Some (Stream Shards)
  else if String.eqb key "telemetry.raw" then Some (Stream Batches)
  else None.

Fixpoint type_of_field (s : schema) (f : string) : option field_type :=
  match s with
  | [] => None
  | (g, t) :: s' => if String.eqb g f then Some t else type_of_field s' f
  end.

Definition value_typed (t : field_type) (v : value) : bool :=
  match t, v with
  | Number, VInt _ | Free, VStr _ => true
  | OneOf words, VStr s => existsb (String.eqb s) words
  | _, _ => false
  end.

Definition field_typed (s : schema) (kv : string * value) : bool :=
  match type_of_field s kv.1 with Some t => value_typed t kv.2 | None => false end.

Definition is_hash (t : option key_type) : bool := match t with Some (Hash _) => true | _ => false end.
Definition is_text (t : option key_type) : bool := match t with Some Text => true | _ => false end.
Definition is_sorted (t : option key_type) : bool := match t with Some SortedSet => true | _ => false end.
Definition is_names (t : option key_type) : bool := match t with Some Names => true | _ => false end.
Definition is_stream (t : option key_type) : bool := match t with Some (Stream _) => true | _ => false end.

(** A command is of the type of its key: what is written to a hash are fields
    of its schema, what is read from one by name is in it, and a stream carries
    messages of one type. *)
Definition well_typed (c : call) : bool :=
  match c with
  | HSet key fields =>
      match type_of_key key with Some (Hash s) => forallb (field_typed s) fields | _ => false end
  | HGet key f =>
      match type_of_key key with
      | Some (Hash s) => match type_of_field s f with Some _ => true | None => false end
      | _ => false
      end
  | HGetAll key | Exists key => is_hash (type_of_key key)
  | LPush key _ | LTrim key _ _ | LRange key _ _ => is_names (type_of_key key)
  | XAdd key m =>
      match type_of_key key, m with
      | Some (Stream Jobs), MJob _ | Some (Stream Shards), MShard _ | Some (Stream Batches), MBatch _ => true
      | _, _ => false
      end
  | ReadJobs key _ _ => match type_of_key key with Some (Stream Jobs) => true | _ => false end
  | ReadShards key _ _ => match type_of_key key with Some (Stream Shards) => true | _ => false end
  | ReadBatches key _ _ => match type_of_key key with Some (Stream Batches) => true | _ => false end
  | XAck key _ _ | XGroupCreateMkStream key _ _ => is_stream (type_of_key key)
  | GetKey key | SetKey key _ | SetBoard key _ => is_text (type_of_key key)
  | ZScore key _ | ZAdd key _ _ | ZRevRange key _ _ => is_sorted (type_of_key key)
  | _ => true
  end.

(** Every command a program sends is well typed. *)
Definition typed {W L : Type} `{!Env W} {A} (m : M (World W L) A) : Prop := makes well_typed m.

(** Follows a program whose parts are known to be typed. *)
Ltac typed := unfold typed in *; makes.

(** ** The services *)

Section gateway.
Context {W L : Type} `{!Env W, !FieldOrder} (dataDir : string).

Lemma typed_createSubmission r : typed (W := W) (L := L) (createSubmission dataDir r).
Proof. unfold createSubmission, rid. typed. Qed.

Lemma typed_createRun r : typed (W := W) (L := L) (createRun r).
Proof. unfold createRun, rid. typed. Qed.

Lemma typed_runView id : typed (W := W) (L := L) (runView id).
Proof. unfold runView. typed. Qed.

Lemma typed_runViews ids : typed (W := W) (L := L) (runViews ids).
Proof. induction ids as [|id ids IH]; simpl; [typed|]. apply makes_bind; [apply typed_runView|intros v]. typed. Qed.

Lemma typed_queries id : typed (W := W) (L := L) (getRun id) /\ typed (W := W) (L := L) listRuns /\ typed (W := W) (L := L) leaderboard.
Proof.
  unfold getRun, listRuns, leaderboard. pose proof typed_runView. pose proof typed_runViews. split_and!; typed.
Qed.
End gateway.

Section orchestrator.
Context {W L : Type} `{!Env W, !Strconv}.

Lemma typed_on_ref {A} (m : M Book.Store A) ref : typed (W := W) (L := L) (on_ref m ref).
Proof. apply makes_silent. intros w a w'. unfold on_ref. by destruct (m ref) as [[b ref']| |]; [intros [= <- <-]|..]. Qed.

Lemma typed_conf_loop target i steps p : typed (W := W) (L := L) (conf_loop target i steps p).
Proof.
  revert i p. induction steps as [|st steps IH]; intros i p; simpl; [typed|]. apply makes_bind; [|intros ?; apply IH].
  pose proof @typed_on_ref. unfold conf_step, doCancel, doOrder. typed.
Qed.

Lemma typed_conformance target : typed (W := W) (L := L) (conformance target).
Proof. apply makes_bind; [apply typed_conf_loop|]. intros p. typed. Qed.

Lemma typed_dispatch job shards n i : typed (W := W) (L := L) (dispatch job shards n i).
Proof. revert i. induction n as [|n IH]; intros i; simpl; typed. Qed.

Lemma typed_handle fuel o job : typed (W := W) (L := L) (Orchestrator.handle fuel o job).
Proof.
  pose proof typed_conformance. pose proof typed_dispatch.
  unfold Orchestrator.handle, benchmark, waitHealthy, health_step, babysit_step, fail, setRun, teardown, docker. typed.
Qed.

Lemma typed_orch_main fuel o n : typed (W := W) (L := L) (orch_main fuel o n).
Proof. apply makes_turns; [done|typed|]. intros m. pose proof typed_handle. unfold take_job. typed. Qed.
End orchestrator.

Section fleet.
Context `{!Math} {W : Type} `{!Env W}.
Abbreviation typed := (typed (W := W) (L := shardState)).

Lemma typed_flush others shard prev final : typed (flush others shard prev final).
Proof. unfold flush, interleave, take_secs, load, take_hist. typed. Qed.

Lemma typed_ticks sched shard prev : typed (ticks sched shard prev).
Proof.
  revert prev. induction sched as [|others sched IH]; intros prev; simpl; [typed|].
  apply makes_bind; [apply typed_flush|intros b; apply IH].
Qed.

Lemma typed_runShard sched rest shard : typed (runShard sched rest shard).
Proof. pose proof typed_flush. pose proof typed_ticks. unfold runShard. typed. Qed.

Lemma typed_fleet_main plan n : typed (fleet_main plan n).
Proof. apply makes_turns; [done|typed|]. intros m. pose proof typed_runShard. unfold take_shard. typed. Qed.
End fleet.

Section ingester.
Context `{!Math, !RangeOrder} {W : Type} `{!Env W, !Strconv} (pgDSN : string).
Abbreviation typed := (typed (W := W) (L := ingester)).

Lemma typed_load p : typed (load_agg p).
Proof. unfold load_agg. typed. Qed.

Lemma typed_writeResult run m a sc final : typed (writeResult run m a sc final).
Proof. apply (makes_perform _ (HSet _ _)). unfold result_fields. by destruct (ag_samples a), final. Qed.

Lemma typed_board_rows rank members : typed (board_rows rank members).
Proof.
  revert rank. induction members as [|[sub sc] members IH]; intros rank; simpl; [typed|]. unfold board_row. typed.
Qed.

Lemma typed_finalize run p : typed (finalize pgDSN run p).
Proof.
  pose proof typed_load. pose proof typed_writeResult. pose proof typed_board_rows.
  unfold finalize, update_board, publishSnapshot, persist. typed.
Qed.

Lemma typed_live run p : typed (live run p).
Proof. pose proof typed_load. pose proof typed_writeResult. unfold live. typed. Qed.

Lemma typed_absorb b : typed (absorb pgDSN b).
Proof.
  pose proof typed_load. pose proof typed_finalize. pose proof typed_live. unfold absorb, absorb_locked. typed.
Qed.

Lemma typed_mark_stale entries : typed (mark_stale entries).
Proof. pose proof typed_load. induction entries as [|[id p] entries IH]; simpl; typed. Qed.

Lemma typed_finalize_all ids : typed (finalize_all pgDSN ids).
Proof. pose proof typed_finalize. induction ids as [|id ids IH]; simpl; typed. Qed.

Lemma typed_sweep_tick : typed (sweep_tick pgDSN).
Proof. pose proof typed_mark_stale. pose proof typed_finalize_all. unfold sweep_tick. typed. Qed.

Lemma typed_ingester_main n : typed (ingester_main pgDSN n).
Proof. apply makes_turns; [done|typed|]. intros m. pose proof typed_absorb. unfold ingest. typed. Qed.
End ingester.

Section bots.
Context `{!Math, !Strconv} {W : Type} `{!Env W} (bad_url : string -> option string).
Abbreviation typed := (typed (W := W) (L := shardState)).

Lemma typed_send req : typed (send bad_url req).
Proof. unfold send, Do, failed, atomic. typed. Qed.

Lemma typed_sendOrder target o : typed (sendOrder bad_url target o).
Proof. pose proof typed_send. unfold sendOrder, violate, atomic. typed. Qed.

Lemma typed_violate_all verdicts : typed (violate_all verdicts).
Proof. induction verdicts as [|v verdicts IH]; simpl; [typed|]. unfold violate, atomic. typed. Qed.

Lemma typed_turn shard idx start b : typed (bot_turn bad_url shard idx start b).
Proof.
  pose proof typed_send. pose proof typed_sendOrder. pose proof typed_violate_all.
  unfold bot_turn, cancel_turn, market_turn, limit_turn, side, index. typed.
Qed.

Lemma typed_bot fuel shard idx start deadline : typed (bot bad_url fuel shard idx start deadline).
Proof. pose proof typed_turn. unfold bot. typed. Qed.
End bots.

(** ** The schema is respected *)

(** C20. The services agree on the store. Whatever is answered, every command
    that a handler of the gateway, that of the WebSocket included, the
    orchestrator, a bot or a shard of the fleet, or the reader or the sweeper
    of the ingester sends is of the Redis type of its key; every field written
    to a hash is one of its schema and of the declared type, the state of a run
    one of six words; every field read by name is one of the schema; and each
    stream carries the messages its readers decode. *)
Theorem services_agree_on_store {W L : Type} `{!Env W, !Strconv, !Math, !RangeOrder, !FieldOrder} :
  (forall dir form req id, typed (W := W) (L := L) (createSubmission dir form) /\ typed (W := W) (L := L) (createRun req)
     /\ typed (W := W) (L := L) (getRun id) /\ typed (W := W) (L := L) listRuns /\ typed (W := W) (L := L) leaderboard
     /\ typed (W := W) (L := L) readSnapshot)
  /\ (forall fuel o n, typed (W := W) (L := L) Orchestrator.joinGroup /\ typed (W := W) (L := L) (orch_main fuel o n))
  /\ (forall plan n, typed (W := W) Fleet.joinGroup /\ typed (W := W) (fleet_main plan n))
  /\ (forall bad_url fuel shard idx start deadline, typed (W := W) (bot bad_url fuel shard idx start deadline))
  /\ (forall dsn n, typed (W := W) Ingester.joinGroup /\ typed (W := W) (ingester_main dsn n) /\ typed (W := W) (sweep_tick dsn)).
Proof.
  split_and!; intros.
  - destruct (typed_queries (W := W) (L := L) id) as (Hg & Hl & Hb).
    split_and!; [apply typed_createSubmission|apply typed_createRun|exact Hg|exact Hl|exact Hb|by apply (makes_perform _ (GetKey _))].
  - split; [by apply (makes_perform _ (XGroupCreateMkStream _ _ _))|apply typed_orch_main].
  - split; [by apply (makes_perform _ (XGroupCreateMkStream _ _ _))|apply typed_fleet_main].
  - apply typed_bot.
  - split; [by apply (makes_perform _ (XGroupCreateMkStream _ _ _))|split; [apply typed_ingester_main|apply typed_sweep_tick]].
Qed.
