(* ===== verification/Feed.v ===== *)
(** * The WebSocket feed of the gateway

    [pumpEvents], [run], and the handler and reader of every [ws] connection
    of [src/cmd/gateway/main.go], as goroutines that interleave. A step of
    [move] is one action between two points where another goroutine may run;
    the mutex of the hub is held exactly while [run] ranges over the clients,
    [add] and [remove] being one action each. *)
From S2P Require Import Prelude Gateway.
Import Hub.

(** The capacity of [bcast], as [newHub] makes it. *)
Definition bcastCap : nat := 64.

(** [pumpEvents]: reading its subscription, blocked on the channel with an
    event, or waiting to subscribe again. *)
Inductive pump := Relaying | Sending (msg : string) | Resubscribing.

(** [run]: waiting for a message; with one, waiting for the mutex; ranging,
    with the clients it has not visited yet; writing to a client. *)
Inductive runner :=
| Idle
| Locking (msg : string)
| Ranging (msg : string) (rest : list conn)
| Writing (msg : string) (c : conn) (rest : list conn).

(** A connection: upgraded, being sent the snapshot, about to join; then read
    by its goroutine, until a read fails, it is removed and closed. What it was
    greeted with, and how many messages had been broadcast when it joined, are
    kept for the theorems. *)
Inductive phase :=
| Opened
| Greeting (snap : string)
| Joining (greeted : option string)
| Reading (greeted : option string) (joined : nat)
| Leaving (greeted : option string) (joined : nat)
| Gone (greeted : option string) (joined : nat).

(** The processes and, for the theorems, every event the subscription
    delivered and every message [run] is done with. *)
Record feed := mkFeed {
  fd_hub : hub;
  fd_bcast : list string;
  fd_pump : pump;
  fd_run : runner;
  fd_conns : gmap conn phase;
  fd_relayed : list string;
  fd_done : list string
}.

Definition newFeed : feed := mkFeed newHub [] Relaying Idle ∅ [] [].

Definition set_hub (h : hub) (s : feed) : feed :=
  mkFeed h (fd_bcast s) (fd_pump s) (fd_run s) (fd_conns s) (fd_relayed s) (fd_done s).
Definition set_pump (p : pump) (s : feed) : feed :=
  mkFeed (fd_hub s) (fd_bcast s) p (fd_run s) (fd_conns s) (fd_relayed s) (fd_done s).
Definition set_bcast (q : list string) (s : feed) : feed :=
  mkFeed (fd_hub s) q (fd_pump s) (fd_run s) (fd_conns s) (fd_relayed s) (fd_done s).
Definition set_run (r : runner) (s : feed) : feed :=
  mkFeed (fd_hub s) (fd_bcast s) (fd_pump s) r (fd_conns s) (fd_relayed s) (fd_done s).
Definition set_conn (c : conn) (p : phase) (s : feed) : feed :=
  mkFeed (fd_hub s) (fd_bcast s) (fd_pump s) (fd_run s) (<[c := p]> (fd_conns s)) (fd_relayed s) (fd_done s).
Definition log_relayed (msg : string) (s : feed) : feed :=
  mkFeed (fd_hub s) (fd_bcast s) (fd_pump s) (fd_run s) (fd_conns s) (fd_relayed s ++ [msg]) (fd_done s).
Definition log_done (msg : string) (s : feed) : feed :=
  mkFeed (fd_hub s) (fd_bcast s) (fd_pump s) (fd_run s) (fd_conns s) (fd_relayed s) (fd_done s ++ [msg]).

(** Whether the mutex of the hub is free. *)
Definition unlocked (r : runner) : Prop :=
  match r with Ranging _ _ | Writing _ _ _ => False | _ => True end.

(** [pumpEvents] waiting for the channel, and [run]: the steps that need
    nothing from outside. *)
Inductive deliver : feed -> feed -> Prop :=
| deliver_send s msg :
    fd_pump s = Sending msg -> length (fd_bcast s) < bcastCap ->
    deliver s (set_bcast (fd_bcast s ++ [msg]) (set_pump Relaying s))
| deliver_receive s msg q :
    fd_run s = Idle -> fd_bcast s = msg :: q ->
    deliver s (set_bcast q (set_run (Locking msg) s))
| deliver_lock s msg cs :
    fd_run s = Locking msg -> cs ≡ₚ elements (clients (fd_hub s)) ->
    deliver s (set_run (Ranging msg cs) s)
| deliver_visit s msg c rest :
    fd_run s = Ranging msg (c :: rest) ->
    deliver s (set_run (Writing msg c rest) s)
| deliver_written s msg c rest (ok : bool) :
    fd_run s = Writing msg c rest ->
    deliver s (set_hub (write (fun _ => ok) msg (fd_hub s) c) (set_run (Ranging msg rest) s))
| deliver_unlock s msg :
    fd_run s = Ranging msg [] ->
    deliver s (log_done msg (set_run Idle s)).

(** What the subscription, Redis and the peers do. *)
Inductive arrive : feed -> feed -> Prop :=
| arrive_event s msg :
    fd_pump s = Relaying -> arrive s (log_relayed msg (set_pump (Sending msg) s))
| arrive_closed s : fd_pump s = Relaying -> arrive s (set_pump Resubscribing s)
| arrive_resubscribed s : fd_pump s = Resubscribing -> arrive s (set_pump Relaying s)
| arrive_upgrade s c : fd_conns s !! c = None -> arrive s (set_conn c Opened s)
(** The reply to [readSnapshot]. *)
| arrive_snapshot s c (snap : option string) :
    fd_conns s !! c = Some Opened ->
    arrive s (set_conn c (match snap with Some m => Greeting m | None => Joining None end) s)
| arrive_greeted s c m (ok : bool) :
    fd_conns s !! c = Some (Greeting m) ->
    arrive s (set_conn c (Joining (if ok then Some m else None))
               (set_hub (greet ok (Some m) c (fd_hub s)) s))
| arrive_add s c g :
    fd_conns s !! c = Some (Joining g) -> unlocked (fd_run s) ->
    arrive s (set_conn c (Reading g (length (fd_done s))) (set_hub (add c (fd_hub s)) s))
| arrive_read_error s c g j :
    fd_conns s !! c = Some (Reading g j) -> arrive s (set_conn c (Leaving g j) s)
| arrive_remove s c g j :
    fd_conns s !! c = Some (Leaving g j) -> unlocked (fd_run s) ->
    arrive s (set_conn c (Gone g j) (set_hub (remove c (fd_hub s)) s)).

Definition move (s s' : feed) : Prop := deliver s s' \/ arrive s s'.

Definition reachable (s : feed) : Prop := rtc move newFeed s.

(** ** What a state knows of a connection *)

#[local] Arguments greet : simpl never.

(** The message [run] has taken, and the clients it has still to write it to. *)
Definition current (r : runner) : list string :=
  match r with Idle => [] | Locking msg | Ranging msg _ | Writing msg _ _ => [msg] end.
Definition unvisited (r : runner) : list conn :=
  match r with Ranging _ rest => rest | Writing _ c rest => c :: rest | _ => [] end.
Definition written (r : runner) (c : conn) : list string :=
  match r with
  | Idle | Locking _ => []
  | Ranging msg rest => if decide (c ∈ rest) then [] else [msg]
  | Writing msg c' rest => if decide (c ∈ c' :: rest) then [] else [msg]
  end.

Definition pending (p : pump) : list string := match p with Sending msg => [msg] | _ => [] end.

(** The feed of a connection that was greeted with [g] and joined after [j]
    messages: a prefix of the later ones, all of them while it is a client. *)
Definition followed (s : feed) (c : conn) (g : option string) (j : nat) : Prop :=
  j <= length (fd_done s)
  /\ exists seg, received (fd_hub s) c = option_list g ++ seg
     /\ seg `prefix_of` drop j (fd_done s ++ current (fd_run s))
     /\ (c ∈ clients (fd_hub s) -> seg = drop j (fd_done s) ++ written (fd_run s) c).

Definition conn_ok (s : feed) (c : conn) : Prop :=
  match fd_conns s !! c with
  | None | Some Opened | Some (Greeting _) => ~ (c ∈ clients (fd_hub s)) /\ received (fd_hub s) c = []
  | Some (Joining g) => ~ (c ∈ clients (fd_hub s)) /\ received (fd_hub s) c = option_list g
  | Some (Reading g j) | Some (Leaving g j) => followed s c g j
  | Some (Gone g j) => ~ (c ∈ clients (fd_hub s)) /\ followed s c g j
  end.

Record feed_ok (s : feed) : Prop := {
  fo_bound : length (fd_bcast s) <= bcastCap;
  fo_order : fd_relayed s = fd_done s ++ current (fd_run s) ++ fd_bcast s ++ pending (fd_pump s);
  fo_unvisited : NoDup (unvisited (fd_run s));
  fo_members c : c ∈ unvisited (fd_run s) -> c ∈ clients (fd_hub s);
  fo_conns c : conn_ok s c
}.

Lemma received_write ok msg h c' c :
  received (write (fun _ => ok) msg h c') c = received h c ++ (if decide (c' = c) then (if ok then [msg] else []) else []).
Proof.
  unfold write, received, remove. destruct (decide (c' = c)) as [->|Hne], ok; simpl;
    rewrite ?app_nil_r, ?lookup_insert_eq, ?lookup_insert_ne by done; done.
Qed.

Lemma clients_write ok msg h c' c :
  c ∈ clients (write (fun _ => ok) msg h c') <-> c ∈ clients h /\ (c' = c -> ok = true).
Proof. unfold write, remove. destruct ok; simpl; set_solver. Qed.

Lemma received_greet ok m h c' c :
  received (greet ok (Some m) c' h) c = received h c ++ (if decide (c' = c) then (if ok then [m] else []) else []).
Proof.
  unfold greet, received. destruct (decide (c' = c)) as [->|Hne], ok; simpl;
    rewrite ?app_nil_r, ?lookup_insert_eq, ?lookup_insert_ne by done; done.
Qed.

Lemma clients_greet ok m h c : clients (greet ok (Some m) c h) = clients h.
Proof. by destruct ok. Qed.

(** A client has read its feed before and after a step of [run]. *)
Lemma followed_ext s s' c g j :
  fd_done s' = fd_done s -> received (fd_hub s') c = received (fd_hub s) c ->
  current (fd_run s) `prefix_of` current (fd_run s') ->
  (c ∈ clients (fd_hub s') -> c ∈ clients (fd_hub s) /\ written (fd_run s') c = written (fd_run s) c) ->
  followed s c g j -> followed s' c g j.
Proof.
  intros Hd Hr [tl Hc] Hw (Hj & seg & Hg & Hpre & Hcl). split; [by rewrite Hd|]. exists seg. rewrite Hr, Hd.
  split_and!; [done| |].
  - rewrite Hc, app_assoc, drop_app_le by (rewrite length_app; lia). by apply prefix_app_r.
  - intros [Hin ->]%Hw. auto.
Qed.

Lemma conn_ok_ext s s' c :
  fd_conns s' !! c = fd_conns s !! c -> fd_done s' = fd_done s ->
  received (fd_hub s') c = received (fd_hub s) c ->
  current (fd_run s) `prefix_of` current (fd_run s') ->
  (c ∈ clients (fd_hub s') -> c ∈ clients (fd_hub s) /\ written (fd_run s') c = written (fd_run s) c) ->
  conn_ok s c -> conn_ok s' c.
Proof.
  intros Hp Hd Hr Hc Hw. unfold conn_ok. rewrite Hp, Hr.
  assert (~ (c ∈ clients (fd_hub s)) -> ~ (c ∈ clients (fd_hub s'))) by naive_solver.
  destruct (fd_conns s !! c) as [[| |g|g j|g j|g j]|]; intros Hok; (try by destruct Hok; split; auto);
    try by eapply followed_ext.
  destruct Hok. split; [auto|by eapply followed_ext].
Qed.

(** Only the connection an action is about changes. *)
Lemma conn_ok_other s s' c c' :
  (exists p h, s' = set_conn c' p (set_hub h s)
     /\ (c' <> c -> received h c = received (fd_hub s) c /\ (c ∈ clients h <-> c ∈ clients (fd_hub s)))) ->
  c' <> c -> conn_ok s c -> conn_ok s' c.
Proof.
  intros (p & h & -> & Hh) Hne Hok. destruct (Hh Hne) as [Hr Hcl].
  apply (conn_ok_ext s); simpl; [by apply lookup_insert_ne|done|done|done| |done]. intros Hin. by rewrite <- Hcl.
Qed.

Lemma set_hub_same s : set_hub (fd_hub s) s = s.
Proof. by destruct s. Qed.

(** [run] has written its message to a client, or lost it. *)
Lemma written_conn s msg c' rest ok c :
  feed_ok s -> fd_run s = Writing msg c' rest ->
  conn_ok (set_hub (write (fun _ => ok) msg (fd_hub s) c') (set_run (Ranging msg rest) s)) c.
Proof.
  intros [Hbound Horder Hnd Hmem Hconns] Hrun. specialize (Hconns c). rewrite Hrun in *. simpl in Hnd.
  apply NoDup_cons in Hnd as [Hc' Hnd].
  destruct (decide (c' = c)) as [->|Hne].
  - assert (c ∈ clients (fd_hub s)) as Hin by (apply Hmem; left). unfold conn_ok in *. simpl.
    assert (forall g j, followed s c g j ->
      followed (set_hub (write (fun _ => ok) msg (fd_hub s) c) (set_run (Ranging msg rest) s)) c g j) as Hf.
    { intros g j (Hj & seg & Hg & Hpre & Hcl). split; [done|]. rewrite Hrun in *.
      specialize (Hcl Hin). simpl in Hcl. rewrite decide_True, app_nil_r in Hcl by left. subst seg. simpl in *.
      exists (drop j (fd_done s) ++ (if ok then [msg] else [])).
      rewrite received_write, decide_True, Hg, app_assoc by done. split_and!; [done| |].
      - rewrite drop_app_le by lia. apply prefix_app. destruct ok; [done|apply prefix_nil].
      - rewrite clients_write. intros [_ ->]; [by rewrite decide_False|done]. }
    destruct (fd_conns s !! c) as [[| |g|g j|g j|g j]|]; naive_solver.
  - apply (conn_ok_ext s); simpl; rewrite ?Hrun; [done|done| |done| |done].
    + by rewrite received_write, decide_False, app_nil_r.
    + rewrite clients_write. intros [Hin _]. split; [done|]. simpl.
      rewrite (decide_ext (c ∈ c' :: rest) (c ∈ rest)) by (rewrite elem_of_cons; naive_solver). done.
Qed.

Lemma unlock_conn s msg c :
  feed_ok s -> fd_run s = Ranging msg [] -> conn_ok (log_done msg (set_run Idle s)) c.
Proof.
  intros Hok Hrun. pose proof (fo_conns s Hok c) as Hc. unfold conn_ok in *. simpl.
  assert (forall g j, followed s c g j -> followed (log_done msg (set_run Idle s)) c g j) as Hf.
  { intros g j (Hj & seg & Hg & Hpre & Hcl). rewrite Hrun in *. simpl in *. split; [simpl; rewrite length_app; simpl; lia|].
    simpl. exists seg. rewrite app_nil_r. split_and!; [done|done|]. intros Hin. rewrite (Hcl Hin).
    by rewrite drop_app_le, app_nil_r. }
  destruct (fd_conns s !! c) as [[| |g|g j|g j|g j]|]; naive_solver.
Qed.

Lemma deliver_ok s s' : feed_ok s -> deliver s s' -> feed_ok s'.
Proof.
  intros Hok Hstep. pose proof Hok as [Hbound Horder Hnd Hmem Hconns].
  destruct Hstep as [s msg Hp Hlen|s msg q Hr Hq|s msg cs Hr Hcs|s msg c rest Hr|s msg c rest ok Hr|s msg Hr];
    rewrite ?Hr, ?Hp in *; simpl in *.
  - split; simpl; [rewrite length_app; simpl; lia| |done|done|done]. by rewrite Horder, app_nil_r.
  - rewrite Hq in *. split; simpl; [simpl in Hbound; lia|by rewrite Horder|by constructor|set_solver|].
    intros c. apply (conn_ok_ext s); simpl; rewrite ?Hr; [done..| |done|done]. apply prefix_nil.
  - split; simpl; [done|done|by rewrite Hcs; apply NoDup_elements|intros c; by rewrite Hcs, elem_of_elements|].
    intros c. apply (conn_ok_ext s); simpl; rewrite ?Hr; [done..| |done]. intros Hin.
    by rewrite decide_True by (rewrite Hcs; by apply elem_of_elements).
  - split; simpl; [done..|]. intros c'. apply (conn_ok_ext s); simpl; rewrite ?Hr; done.
  - split; simpl; [done|done|by apply NoDup_cons in Hnd as [_ ?]| |].
    + intros c' Hin. rewrite clients_write. split; [apply Hmem; by right|]. intros <-. by apply NoDup_cons in Hnd as [? _].
    + intros c'. by apply written_conn.
  - split; simpl; [done|by rewrite Horder, <- app_assoc|by constructor|set_solver|]. intros c. by apply unlock_conn.
Qed.

(** A step of a connection: it keeps the processes, changes what is known of
    this connection only, and leaves every unvisited client a client. *)
Lemma conn_step_ok s c p h :
  feed_ok s -> (forall c', c' <> c -> received h c' = received (fd_hub s) c' /\ (c' ∈ clients h <-> c' ∈ clients (fd_hub s))) ->
  (forall c', c' ∈ unvisited (fd_run s) -> c' ∈ clients h) ->
  conn_ok (set_conn c p (set_hub h s)) c -> feed_ok (set_conn c p (set_hub h s)).
Proof.
  intros [Hbound Horder Hnd Hmem Hconns] Hother Hun Hc. split; simpl; [done..|]. intros c'.
  destruct (decide (c' = c)) as [->|Hne]; [done|]. apply (conn_ok_other s _ c' c); [|done|done].
  exists p, h. auto.
Qed.

(** A step of a connection that leaves the hub alone. *)
Lemma phase_step_ok s c p :
  feed_ok s -> conn_ok (set_conn c p s) c -> feed_ok (set_conn c p s).
Proof.
  intros Hok Hc. rewrite <- (set_hub_same s). apply conn_step_ok; [done|done|apply (fo_members s Hok)|].
  by rewrite set_hub_same.
Qed.

Lemma unlocked_unvisited r : unlocked r -> unvisited r = [] /\ forall c, written r c = [].
Proof. by destruct r. Qed.

Lemma joins_alone h c c' : c' <> c ->
  received (add c h) c' = received h c' /\ (c' ∈ clients (add c h) <-> c' ∈ clients h).
Proof. split; [done|]. unfold add. simpl. set_solver. Qed.

Lemma leaves_alone h c c' : c' <> c ->
  received (remove c h) c' = received h c' /\ (c' ∈ clients (remove c h) <-> c' ∈ clients h).
Proof. split; [done|]. unfold remove. simpl. set_solver. Qed.

Lemma arrive_ok s s' : feed_ok s -> arrive s s' -> feed_ok s'.
Proof.
  intros Hok Hstep. pose proof (fo_conns s Hok) as Hconns. unfold conn_ok in Hconns.
  destruct Hstep as [s msg Hp|s Hp|s Hp|s c Hc|s c snap Hc|s c m ok Hc|s c g Hc Hr|s c g j Hc|s c g j Hc Hr];
    try (specialize (Hconns c); rewrite Hc in Hconns).
  - destruct Hok as [Hbound Horder Hnd Hmem _]. split; simpl; [done| |done|done|apply Hconns]. rewrite Horder, Hp. simpl. by rewrite app_nil_r, <- !app_assoc.
  - destruct Hok as [Hbound Horder Hnd Hmem _]. split; simpl; [done| |done|done|apply Hconns]. by rewrite Horder, Hp.
  - destruct Hok as [Hbound Horder Hnd Hmem _]. split; simpl; [done| |done|done|apply Hconns]. by rewrite Horder, Hp.
  - apply phase_step_ok; [done|]. unfold conn_ok. simpl. by rewrite lookup_insert_eq.
  - apply phase_step_ok; [done|]. unfold conn_ok. simpl. rewrite lookup_insert_eq. by destruct snap.
  - apply conn_step_ok; [done| | |].
    + intros c' Hne. by rewrite received_greet, decide_False, app_nil_r, clients_greet.
    + intros c'. rewrite clients_greet. by apply fo_members.
    + unfold conn_ok. simpl. rewrite lookup_insert_eq, received_greet, clients_greet, decide_True by done.
      destruct Hconns as [? ->]. by destruct ok.
  - destruct (unlocked_unvisited _ Hr) as [Hun Hw]. apply conn_step_ok; [done|by apply joins_alone|by rewrite Hun; intros c' ?%not_elem_of_nil|].
    unfold conn_ok. simpl. rewrite lookup_insert_eq. destruct Hconns as [_ Hg]. split; simpl; [done|].
    exists []. rewrite app_nil_r, drop_all, Hw. split_and!; [exact Hg|apply prefix_nil|done].
  - apply phase_step_ok; [done|]. unfold conn_ok. simpl. rewrite lookup_insert_eq. exact Hconns.
  - destruct (unlocked_unvisited _ Hr) as [Hun Hw]. apply conn_step_ok; [done|by apply leaves_alone|by rewrite Hun; intros c' ?%not_elem_of_nil|].
    unfold conn_ok. simpl. rewrite lookup_insert_eq. split; [set_solver|].
    destruct Hconns as (Hj & seg & Hg & Hpre & _). split; [done|]. exists seg. simpl. split_and!; [done|done|set_solver].
Qed.

Lemma newFeed_ok : feed_ok newFeed.
Proof. split; simpl; [unfold bcastCap; lia|done|constructor|set_solver|]. intros c. unfold conn_ok. simpl. rewrite lookup_empty. set_solver. Qed.

Lemma moves_ok s s' : rtc move s s' -> feed_ok s -> feed_ok s'.
Proof. induction 1 as [|s1 s2 s3 [Hd|Ha] _ IH]; eauto using deliver_ok, arrive_ok. Qed.

Lemma reachable_ok s : reachable s -> feed_ok s.
Proof. intros Hr. by eapply moves_ok, newFeed_ok. Qed.

(** What a connection that has joined knows. *)
Definition joined (s : feed) (c : conn) (g : option string) (j : nat) : Prop :=
  fd_conns s !! c = Some (Reading g j) \/ fd_conns s !! c = Some (Leaving g j) \/ fd_conns s !! c = Some (Gone g j).

Lemma joined_followed s c g j : conn_ok s c -> joined s c g j -> followed s c g j.
Proof. unfold conn_ok. by intros Hok [Hc|[Hc|Hc]]; rewrite Hc in Hok; [..|destruct Hok]. Qed.

(** Only connections that have joined and are not gone are clients. *)
Lemma client_joined s c :
  conn_ok s c -> c ∈ clients (fd_hub s) ->
  exists g j, fd_conns s !! c = Some (Reading g j) \/ fd_conns s !! c = Some (Leaving g j).
Proof. unfold conn_ok. destruct (fd_conns s !! c) as [[| |g|g j|g j|g j]|]; naive_solver. Qed.

(** C13. The feed of the gateway, whatever the interleaving of the relay, the
    hub and the connections. The channel never holds more than 64 messages;
    the events of the subscription are, in order, those broadcast, the one being
    broadcast, those in the channel and the one waiting for it: none is lost,
    duplicated or overtaken. [run] only writes to connections that have joined
    and whose reader has not closed them, so no two goroutines ever write to
    one. And what a connection has received is what it was greeted with and then
    an unbroken stretch of the events, which starts at the first message [run] was not done
    with when it joined. *)
Theorem feed_is_ordered (s : feed) :
  reachable s ->
  length (fd_bcast s) <= bcastCap
  /\ fd_relayed s = fd_done s ++ current (fd_run s) ++ fd_bcast s ++ pending (fd_pump s)
  /\ (forall msg c rest, fd_run s = Writing msg c rest ->
        exists g j, fd_conns s !! c = Some (Reading g j) \/ fd_conns s !! c = Some (Leaving g j))
  /\ (forall c g j, joined s c g j -> j <= length (fd_done s) /\ exists seg,
        received (fd_hub s) c = option_list g ++ seg /\ seg `prefix_of` drop j (fd_relayed s)).
Proof.
  intros [Hbound Horder Hnd Hmem Hconns]%reachable_ok. split_and!; [done|done| |].
  - intros msg c rest Hr. apply client_joined, Hmem; [done|]. rewrite Hr. left.
  - intros c g j Hj%joined_followed; [|done]. destruct Hj as (Hj & seg & Hg & Hpre & _). split; [done|].
    exists seg. split; [done|]. rewrite Horder, app_assoc, drop_app_le by (rewrite length_app; lia). by apply prefix_app_r.
Qed.

(** ** Delivery *)

(** What is left to do before everything relayed is delivered. *)
Definition work (s : feed) : nat :=
  let turn := 2 * size (clients (fd_hub s)) + 3 in
  length (pending (fd_pump s)) * (turn + 1) + length (fd_bcast s) * turn
  + match fd_run s with
    | Idle => 0
    | Locking _ => turn - 1
    | Ranging _ rest => 2 * length rest + 1
    | Writing _ _ rest => 2 * length rest + 2
    end.

Lemma clients_write_size ok msg h c : size (clients (write (fun _ => ok) msg h c)) <= size (clients h).
Proof. apply subseteq_size. intros c'. rewrite clients_write. tauto. Qed.

Lemma deliver_work s s' : deliver s s' -> work s' < work s.
Proof.
  destruct 1 as [s msg Hp Hlen|s msg q Hr Hq|s msg cs Hr Hcs|s msg c rest Hr|s msg c rest ok Hr|s msg Hr]; unfold work; simpl.
  - rewrite Hp, length_app. simpl. lia.
  - rewrite Hr, Hq. simpl. lia.
  - rewrite Hr, Hcs. unfold size, set_size. simpl. lia.
  - rewrite Hr. simpl. lia.
  - rewrite Hr. pose proof (clients_write_size ok msg (fd_hub s) c). simpl. nia.
  - rewrite Hr. simpl. lia.
Qed.

(** Nothing relayed is on its way. *)
Definition drained (s : feed) : Prop := fd_run s = Idle /\ fd_bcast s = [] /\ pending (fd_pump s) = [].

Lemma deliver_progress s : drained s \/ exists s', deliver s s'.
Proof.
  destruct (fd_run s) as [|msg|msg [|c rest]|msg c rest] eqn:Hr;
    [|right; eexists; by eapply deliver_lock|right; eexists; by eapply deliver_unlock
     |right; eexists; by eapply deliver_visit|right; eexists; by eapply (deliver_written _ _ _ _ true)].
  destruct (fd_bcast s) as [|msg q] eqn:Hq; [|right; eexists; by eapply deliver_receive].
  destruct (fd_pump s) as [|msg|] eqn:Hp; [left; unfold drained; by rewrite Hr, Hq, Hp| |left; unfold drained; by rewrite Hr, Hq, Hp].
  right. eexists. apply deliver_send; [done|]. rewrite Hq. unfold bcastCap. simpl. lia.
Qed.

Lemma deliver_stuck s : drained s -> ~ exists s', deliver s s'.
Proof. intros (Hr & Hq & Hp) [s' Hs]. destruct Hs as [? ? Hm|? ? ? ? Hm|? ? ? Hm|? ? ? ? Hm|? ? ? ? ? Hm|? ? Hm]; rewrite ?Hm in *; simpl in *; congruence. Qed.

Lemma deliver_keeps s s' : deliver s s' -> fd_relayed s' = fd_relayed s /\ fd_conns s' = fd_conns s.
Proof. by destruct 1. Qed.

Lemma deliver_steps_work n s s' : nsteps deliver n s s' -> n + work s' <= work s.
Proof. induction 1 as [|n s1 s2 s3 H%deliver_work _ IH]; lia. Qed.

Lemma delivers_keep s s' : rtc deliver s s' -> fd_relayed s' = fd_relayed s /\ fd_conns s' = fd_conns s.
Proof. induction 1 as [|s1 s2 s3 [H1 H2]%deliver_keeps _ [IH1 IH2]]; split; congruence. Qed.

Lemma deliver_drains s : exists s', rtc deliver s s' /\ drained s'.
Proof.
  remember (work s) as n eqn:Hn. revert s Hn. induction (lt_wf n) as [n _ IH]. intros s ->.
  destruct (deliver_progress s) as [Hd|[s1 H1]]; [by exists s|].
  destruct (IH (work s1) (deliver_work _ _ H1) s1 eq_refl) as (s' & Hs & Hd). exists s'. split; [by eapply rtc_l|done].
Qed.

(** C28. Every relayed event is delivered. From any state the relay and the hub,
    left to themselves, stop after a bounded number of steps, in whatever order
    these are taken, and only when nothing relayed is on its way: they cannot
    block each other. Every connection that is then still a client has received
    what it was greeted with and every event from where it joined on. *)
Theorem feed_drains (s : feed) :
  reachable s ->
  (forall n s', nsteps deliver n s s' -> n <= work s)
  /\ (exists s', rtc deliver s s' /\ drained s')
  /\ (forall s', rtc deliver s s' -> ~ (exists s'', deliver s' s'') <-> drained s')
  /\ (forall s', rtc deliver s s' -> drained s' -> fd_relayed s' = fd_relayed s /\ fd_done s' = fd_relayed s
      /\ forall c, c ∈ clients (fd_hub s') -> exists g j, joined s c g j
           /\ received (fd_hub s') c = option_list g ++ drop j (fd_relayed s)).
Proof.
  intros Hok%reachable_ok. split_and!.
  - intros n s' Hs%deliver_steps_work. lia.
  - apply deliver_drains.
  - intros s' _. split; [|apply deliver_stuck]. by destruct (deliver_progress s').
  - intros s' Hs (Hr & Hq & Hp). destruct (delivers_keep s s' Hs) as [Hrel Hcon].
    assert (feed_ok s') as Hok' by (eapply moves_ok, Hok; eapply (rtc_subrel deliver); [intros ? ? ?; by left|done]).
    assert (fd_done s' = fd_relayed s) as Hdone by (by rewrite <- Hrel, (fo_order s' Hok'), Hr, Hq, Hp, app_nil_r).
    split_and!; [done|done|]. intros c Hc. pose proof (fo_conns s' Hok' c) as Hcok.
    destruct (client_joined s' c Hcok Hc) as (g & j & Hj). exists g, j. unfold joined. rewrite <- Hcon. split; [tauto|].
    destruct (joined_followed s' c g j Hcok) as (_ & seg & -> & _ & Hseg); [unfold joined; tauto|].
    by rewrite (Hseg Hc), Hr, Hdone, app_nil_r.
Qed.

(** An event broadcast between the greeting of a connection and its joining
    never reaches it: nothing is on its way, and the client still shows the
    snapshot it was greeted with. *)
Lemma event_missed_while_joining :
  exists s, reachable s /\ drained s /\ fd_relayed s = ["new"] /\ 1%N ∈ clients (fd_hub s) /\ received (fd_hub s) 1%N = ["old"].
Proof.
  eexists. split.
  { unfold reachable.
    eapply rtc_l; [right; by apply (arrive_upgrade _ 1%N)|].
    eapply rtc_l; [right; by apply (arrive_snapshot _ 1%N (Some "old"))|].
    eapply rtc_l; [right; by apply (arrive_greeted _ 1%N "old" true)|].
    eapply rtc_l; [right; by apply (arrive_event _ "new")|].
    eapply rtc_l; [left; apply (deliver_send _ "new"); [done|unfold bcastCap; simpl; lia]|].
    eapply rtc_l; [left; by apply (deliver_receive _ "new" [])|].
    eapply rtc_l; [left; by apply (deliver_lock _ "new" [])|].
    eapply rtc_l; [left; by apply (deliver_unlock _ "new")|].
    eapply rtc_l; [right; by apply (arrive_add _ 1%N (Some "old"))|].
    constructor. }
  by split_and!.
Qed.

(** ** Witnesses: a client joins while an event waits in the channel *)

Definition demo_joined : feed :=
  mkFeed (add 1%N (greet true (Some "s0") 1%N newHub)) ["a"] Relaying Idle {[1%N := Reading (Some "s0") 0]} ["a"] [].

Definition demo_writing : feed :=
  mkFeed (add 1%N (greet true (Some "s0") 1%N newHub)) [] Relaying (Writing "a" 1%N []) {[1%N := Reading (Some "s0") 0]} ["a"] [].

Lemma demo_joined_reachable : reachable demo_joined.
Proof.
  unfold reachable.
  eapply rtc_l; [right; by apply (arrive_upgrade _ 1%N)|].
  eapply rtc_l; [right; by apply (arrive_snapshot _ 1%N (Some "s0"))|].
  eapply rtc_l; [right; by apply (arrive_event _ "a")|].
  eapply rtc_l; [right; by apply (arrive_greeted _ 1%N "s0" true)|].
  eapply rtc_l; [left; apply (deliver_send _ "a"); [done|unfold bcastCap; simpl; lia]|].
  eapply rtc_l; [right; by apply (arrive_add _ 1%N (Some "s0"))|].
  vm_compute. constructor.
Qed.

Lemma demo_writing_reachable : reachable demo_writing.
Proof.
  unfold reachable. etrans; [apply demo_joined_reachable|].
  eapply rtc_l; [left; by apply (deliver_receive _ "a" [])|].
  eapply rtc_l; [left; by apply (deliver_lock _ "a" [1%N])|].
  eapply rtc_l; [left; by apply (deliver_visit _ "a" 1%N [])|].
  constructor.
Qed.

Lemma feed_is_ordered_witness :
  length (fd_bcast demo_writing) <= bcastCap
  /\ exists g j, fd_conns demo_writing !! 1%N = Some (Reading g j) \/ fd_conns demo_writing !! 1%N = Some (Leaving g j).
Proof.
  destruct (feed_is_ordered demo_writing demo_writing_reachable) as (Hb & _ & Hw & _).
  exact (conj Hb (Hw "a" 1%N [] eq_refl)).
Defined.

Lemma feed_drains_witness : exists s, rtc deliver demo_joined s /\ drained s /\ fd_done s = ["a"].
Proof.
  destruct (feed_drains demo_joined demo_joined_reachable) as (_ & (s & Hs & Hd) & _ & Hall).
  exact (ex_intro _ s (conj Hs (conj Hd (proj1 (proj2 (Hall s Hs Hd)))))).
Defined.
