(* ===== verification/FeedRefine.v ===== *)
(** * The WebSocket feed refines the atomic hub

    Between two broadcasts the hub is as if every broadcast, greeting, add and
    remove had been one atomic operation: what [Gateway.Hub] specifies. *)
From S2P Require Import Prelude Gateway Feed.
Import Hub.

#[local] Arguments greet : simpl never.
#[local] Arguments write : simpl never.

(** The messages broadcast by a sequence of operations. *)
Definition broadcasts (ops : list op) : list string :=
  omap (fun o => match o with Broadcast _ msg => Some msg | _ => None end) ops.

Lemma steps_snoc ops o h h1 h2 : steps ops h h1 -> step o h1 h2 -> steps (ops ++ [o]) h h2.
Proof. induction 1; intros Hs; simpl; econstructor; eauto. constructor. Qed.

Lemma broadcasts_snoc ops o : broadcasts (ops ++ [o]) = broadcasts ops ++ broadcasts [o].
Proof. apply omap_app. Qed.

(** Greeting one connection and writing to another commute. *)
Lemma write_greet ok msg ok' m c c' h :
  c <> c' -> write ok msg (greet ok' (Some m) c h) c' = greet ok' (Some m) c (write ok msg h c').
Proof.
  intros Hne. unfold write, greet, remove, received. destruct ok', (ok c'); simpl; try done.
  - by rewrite lookup_insert_ne, insert_insert_ne, (lookup_insert_ne _ c') by done.
Qed.

Lemma broadcast_greet ok msg ok' m c cs h :
  ~ (c ∈ cs) -> broadcast ok msg cs (greet ok' (Some m) c h) = greet ok' (Some m) c (broadcast ok msg cs h).
Proof.
  unfold broadcast. revert h. induction cs as [|c' cs IH]; intros h Hin; [done|].
  apply not_elem_of_cons in Hin as [Hne Hin]. simpl. by rewrite write_greet, IH.
Qed.

(** One more client is visited. *)
Definition outcome (ok : conn -> bool) (c : conn) (b : bool) : conn -> bool :=
  fun c' => if decide (c' = c) then b else ok c'.

Lemma write_ext ok ok' msg h c : ok c = ok' c -> write ok msg h c = write ok' msg h c.
Proof. unfold write. by intros ->. Qed.

Lemma broadcast_visit ok msg cs h c b :
  ~ (c ∈ cs) ->
  broadcast (outcome ok c b) msg (cs ++ [c]) h = write (fun _ => b) msg (broadcast ok msg cs h) c.
Proof.
  unfold broadcast. revert h. induction cs as [|c' cs IH]; intros h Hin; simpl.
  - apply write_ext. unfold outcome. by rewrite decide_True.
  - apply not_elem_of_cons in Hin as [Hne Hin]. rewrite IH by done. do 2 f_equal.
    apply write_ext. unfold outcome. by rewrite decide_False.
Qed.

(** ** The simulation *)

(** [run] has visited [visited] of the clients of [h0], and those are still
    being read. *)
Definition underway (s : feed) (h0 : hub) (msg : string) (rest : list conn) : Prop :=
  exists ok visited, visited ++ rest ≡ₚ elements (clients h0) /\ fd_hub s = broadcast ok msg visited h0
  /\ forall c, c ∈ visited ++ rest -> exists g j, fd_conns s !! c = Some (Reading g j) \/ fd_conns s !! c = Some (Leaving g j).

Definition simulated (s : feed) : Prop :=
  exists ops h0, steps ops newHub h0 /\ broadcasts ops = fd_done s
  /\ match fd_run s with
     | Ranging msg rest => underway s h0 msg rest
     | Writing msg c rest => underway s h0 msg (c :: rest)
     | _ => fd_hub s = h0
     end.

Lemma deliver_simulated s s' : feed_ok s -> deliver s s' -> simulated s -> simulated s'.
Proof.
  intros Hok Hstep (ops & h0 & Hs & Hb & Hsim).
  destruct Hstep as [s msg Hp Hlen|s msg q Hr Hq|s msg cs Hr Hcs|s msg c rest Hr|s msg c rest b Hr|s msg Hr];
    try rewrite Hr in Hsim; simpl in *.
  - by exists ops, h0.
  - by exists ops, h0.
  - exists ops, h0. split_and!; [done|done|]. simpl. subst h0. exists (fun _ => true), []. split_and!; [done|done|].
    intros c. simpl. rewrite Hcs, elem_of_elements. apply client_joined, Hok.
  - by exists ops, h0.
  - exists ops, h0. split_and!; [done|done|]. simpl. destruct Hsim as (ok & visited & Hperm & Hhub & Hread).
    exists (outcome ok c b), (visited ++ [c]). rewrite <- app_assoc. split_and!; [done| |done]. simpl.
    rewrite Hhub, broadcast_visit; [done|]. intros Hin.
    assert (NoDup (visited ++ c :: rest)) as Hnd by (rewrite Hperm; apply NoDup_elements).
    apply NoDup_app in Hnd as (_ & Hdisj & _). apply (Hdisj c Hin). left.
  - destruct Hsim as (ok & visited & Hperm & Hhub & _). exists (ops ++ [Broadcast ok msg]), (fd_hub s).
    rewrite app_nil_r in Hperm. split_and!; [|by rewrite broadcasts_snoc, Hb|done].
    eapply steps_snoc; [done|]. rewrite Hhub. by constructor.
Qed.

(** Whether a connection is being read. *)
Definition being_read (s : feed) (c : conn) : Prop :=
  exists g j, fd_conns s !! c = Some (Reading g j) \/ fd_conns s !! c = Some (Leaving g j).

(** A connection that is not read yet moves on, and perhaps is greeted. *)
Lemma underway_conn (F : hub -> hub) s c p h0 msg rest :
  (forall ok visited, ~ (c ∈ visited) -> broadcast ok msg visited (F h0) = F (broadcast ok msg visited h0)) ->
  clients (F h0) = clients h0 -> ~ being_read s c ->
  underway s h0 msg rest -> underway (set_conn c p (set_hub (F (fd_hub s)) s)) (F h0) msg rest.
Proof.
  intros HF Hcl Hc (ok & visited & Hperm & Hhub & Hread). exists ok, visited.
  assert (~ (c ∈ visited ++ rest)) as Hout by naive_solver.
  rewrite Hcl. split_and!; [done| |]; simpl.
  - rewrite HF, Hhub; [done|]. set_solver.
  - intros c' Hin. rewrite lookup_insert_ne by set_solver. auto.
Qed.

Lemma underway_leaves s c g j h0 msg rest :
  underway s h0 msg rest -> underway (set_conn c (Leaving g j) s) h0 msg rest.
Proof.
  intros (ok & visited & Hperm & Hhub & Hread). exists ok, visited. split_and!; [done|done|]. intros c' Hin. simpl.
  destruct (decide (c = c')) as [->|Hne]; [rewrite lookup_insert_eq; eauto|rewrite lookup_insert_ne by done; auto].
Qed.

Lemma unread s c p : fd_conns s !! c = p -> (forall g j, p <> Some (Reading g j) /\ p <> Some (Leaving g j)) -> ~ being_read s c.
Proof. intros Hc Hp (g & j & Hr). destruct (Hp g j). naive_solver congruence. Qed.

(** Adding and removing need the mutex: no broadcast is underway. *)
Lemma simulated_unlocked ops h0 s :
  unlocked (fd_run s) -> steps ops newHub h0 -> broadcasts ops = fd_done s -> fd_hub s = h0 -> simulated s.
Proof. intros Hu Hs Hb Hh. exists ops, h0. split_and!; [done|done|]. by destruct (fd_run s). Qed.

Lemma arrive_simulated s s' : arrive s s' -> simulated s -> simulated s'.
Proof.
  intros Hstep (ops & h0 & Hs & Hb & Hsim).
  destruct Hstep as [s msg Hp|s Hp|s Hp|s c Hc|s c snap Hc|s c m ok Hc|s c g Hc Hr|s c g j Hc|s c g j Hc Hr];
    try by (exists ops, h0).
  - exists ops, h0. split_and!; [done|done|]. rewrite <- (set_hub_same s). simpl.
    destruct (fd_run s); [done|done|..]; (eapply (underway_conn (fun h => h)); [done|done|by eapply unread|done]).
  - exists ops, h0. split_and!; [done|done|]. rewrite <- (set_hub_same s). simpl.
    destruct (fd_run s); [done|done|..]; (eapply (underway_conn (fun h => h)); [done|done|by eapply unread|done]).
  - exists (ops ++ [Greet ok (Some m) c]), (greet ok (Some m) c h0).
    split_and!; [by eapply steps_snoc; [|constructor]|by rewrite broadcasts_snoc, app_nil_r|]. simpl.
    destruct (fd_run s); [by rewrite Hsim|by rewrite Hsim|..];
      (apply underway_conn; [intros; by apply broadcast_greet|apply clients_greet|by eapply unread|done]).
  - apply (simulated_unlocked (ops ++ [Add c]) (add c h0)); simpl; [done|by eapply steps_snoc; [|constructor]| |].
    + by rewrite broadcasts_snoc, app_nil_r.
    + by destruct (fd_run s); rewrite ?Hsim.
  - exists ops, h0. split_and!; [done|done|]. simpl. destruct (fd_run s); [done|done|..]; by apply underway_leaves.
  - apply (simulated_unlocked (ops ++ [Remove c]) (remove c h0)); simpl; [done|by eapply steps_snoc; [|constructor]| |].
    + by rewrite broadcasts_snoc, app_nil_r.
    + by destruct (fd_run s); rewrite ?Hsim.
Qed.

Lemma moves_simulated s s' : rtc move s s' -> feed_ok s -> simulated s -> simulated s'.
Proof.
  induction 1 as [|s1 s2 s3 [Hd|Ha] _ IH]; eauto using deliver_ok, arrive_ok, deliver_simulated, arrive_simulated.
Qed.

(** C27. The hub is a shared object with atomic operations. However the relay,
    the hub and the connections interleave, whenever the mutex of the hub is
    free its state, the clients and all that was sent to each of them, is the
    one that some sequence of atomic greetings, adds, removes and broadcasts
    leads to, whose broadcasts are the messages [run] is done with, in order. *)
Theorem feed_refines_hub (s : feed) :
  reachable s -> unlocked (fd_run s) ->
  exists ops, steps ops newHub (fd_hub s) /\ broadcasts ops = fd_done s.
Proof.
  intros Hr Hu. destruct (moves_simulated newFeed s Hr newFeed_ok) as (ops & h0 & Hs & Hb & Hsim).
  - exists [], newHub. split_and!; [constructor|done|done].
  - exists ops. by destruct (fd_run s); rewrite ?Hsim.
Qed.

Lemma feed_refines_hub_witness : exists ops, steps ops newHub (fd_hub demo_joined) /\ broadcasts ops = [].
Proof. exact (feed_refines_hub demo_joined demo_joined_reachable I). Defined.
