(* ===== verification/GatewayProps.v ===== *)
(** * The gateway: theorems

    What the handlers answer and change, and what each WebSocket client
    receives. *)
From S2P Require Import Prelude Protocol Float64 Text IO Conformance ConformanceProps Orchestrator OrchestratorProps Lifecycle Gateway.
Local Open Scope Z_scope.

Section gateway.
Context {W L : Type} `{!Env W, !FieldOrder} (dataDir : string).

Lemma acted_start (w : World W L) l : local w = l -> acted w w l [].
Proof. intros <-. apply acted_refl. Qed.

(** ** Creating a run *)

Lemma normalize_bounds req :
  1 <= rq_bots (normalize req) <= maxBots /\ 1 <= rq_duration (normalize req) <= maxDuration
  /\ 1 <= rq_max_rps (normalize req) <= maxRPS.
Proof.
  unfold normalize, maxBots, maxDuration, maxRPS. simpl.
  destruct (Z.leb_spec (rq_bots req) 0), (Z.leb_spec (rq_duration req) 0), (Z.leb_spec (rq_max_rps req) 0); lia.
Qed.

Lemma normalize_id req :
  1 <= rq_bots req <= maxBots -> 1 <= rq_duration req <= maxDuration -> 1 <= rq_max_rps req <= maxRPS ->
  normalize req = req.
Proof.
  intros Hb Hd Hr. destruct req as [s b d r]. unfold normalize. simpl in *.
  rewrite !(proj2 (Z.leb_gt _ _)) by lia. f_equal; lia.
Qed.

(** C36. Creating a run. A body that does not decode is refused without a
    single call, an unknown submission without a single write. Otherwise the
    run is recorded as [queued] under a fresh id, put at the head of the index
    of 100, and queued with the request's parameters, each replaced by its
    default when not positive and capped; values in range are kept. The answer
    is 201 with the id exactly when the queue took the job. *)
Theorem createRun_queues_capped_job (w : World W L) (r : runReq + string) :
  wp (createRun r) (fun resp w' => exists tr, trace w' = trace w ++ tr /\ local w' = local w /\
    match r with
    | inr err => tr = [] /\ resp = httpErr 400 ("bad json: " +:+ err)
    | inl req => exists n, ev (Exists ("submission:" +:+ rq_submission req)) n ∈ tr /\
        if n =? 0 then writes tr = [] /\ resp = httpErr 404 "unknown submission_id"
        else exists id now err, let job := job_of id (normalize req) in
          ev RandomId id ∈ tr /\ ev (XAdd streamRuns (MJob job)) err ∈ tr
          /\ writes tr = [HSet ("run:" +:+ id) (run_fields job now); LPush "runs.index" id;
                          LTrim "runs.index" 0 99; XAdd streamRuns (MJob job)]
          /\ resp = match err with Some msg => httpErr 500 ("enqueue: " +:+ msg) | None => mkResponse 201 (BId id) end
          /\ 1 <= rj_bots job <= 5000 /\ 1 <= rj_duration job <= 300 /\ 1 <= rj_max_rps job <= 100000
          /\ (1 <= rq_bots req <= 5000 -> 1 <= rq_duration req <= 300 -> 1 <= rq_max_rps req <= 100000 ->
              normalize req = req)
    end) w.
Proof.
  pose proof (acted_refl w) as D. destruct r as [req|err]; unfold createRun.
  - apply wp_bind. do_call D. intros n w1 D1. simpl in D1. destruct (n =? 0) eqn:Hn.
    + apply wp_ret. destruct D1 as (Hl & Ht & _). eexists. split; [exact Ht|]. split; [done|]. exists n.
      split; [left|]. by rewrite Hn.
    + apply wp_bind. unfold rid. do_call D1. intros id w2 D2. cbv zeta. apply wp_bind. do_call D2. intros now w3 D3.
      apply wp_bind. do_call D3. intros [] w4 D4. apply wp_bind. do_call D4. intros [] w5 D5.
      apply wp_bind. do_call D5. intros [] w6 D6. apply wp_bind. do_call D6. intros err w7 D7. simpl in D7.
      destruct (normalize_bounds req) as (Hb & Hd & Hr).
      assert (forall resp (Q : response -> World W L -> Prop), Q resp w7 -> wp (mret resp) Q w7) as Hret by (intros; by apply wp_ret).
      destruct D7 as (Hl & Ht & _).
      destruct err as [msg|]; apply Hret; (eexists; split; [exact Ht|]; split; [done|]; exists n; split; [left|]; rewrite Hn;
        exists id, now; eexists; split; [do 1 right; left|]; split; [do 6 right; left|]; split; [done|]; split; [done|];
        split; [exact Hb|]; split; [exact Hd|]; split; [exact Hr|]; apply normalize_id).
  - apply wp_ret. exists []. by rewrite app_nil_r.
Qed.

(** ** Storing a submission *)

(** The form names a team, a submission and a file that may be a build context. *)
Definition acceptable (f : form) (team name : string) : Prop :=
  team = trimSpace (f_team f) /\ name = trimSpace (f_name f) /\ team <> ""%string /\ name <> ""%string
  /\ exists file, f_bundle f = Some file /\ hasSuffix file ".tar.gz" || hasSuffix file ".tgz" = true.

(** What is done for an acceptable form, and the answer: [e1] and [e2] are the
    errors of creating and of writing the file. *)
Definition stored (id team name path : string) (n now : Z) (e1 e2 : option string) : list call * response :=
  match e1, e2 with
  | Some msg, _ => ([CreateFile path], httpErr 500 ("store bundle: " +:+ msg))
  | None, Some msg => ([CreateFile path; WriteFile path], httpErr 500 ("store bundle: " +:+ msg))
  | None, None =>
      ([CreateFile path; WriteFile path;
        HSet ("submission:" +:+ id) [("id", VStr id); ("team", VStr team); ("name", VStr name);
                                     ("bytes", VInt n); ("created", VInt (unix_time now))];
        LPush "submissions.index" id; LTrim "submissions.index" 0 199],
       mkResponse 201 (BId id))
  end.

(** C37. Storing a submission. A form that does not parse, lacks a team, a name
    or a file, or whose file is no gzipped tar is answered 400 without a
    single call. Any other is stored under a fresh id, in the file the
    orchestrator opens for this id, and only then registered with its trimmed
    team and name and put at the head of the index of 200; when the file
    cannot be created or written the answer is 500 and nothing is
    registered. *)
Theorem createSubmission_stores_or_refuses (w : World W L) (r : form + string) :
  wp (createSubmission dataDir r) (fun resp w' => exists tr, trace w' = trace w ++ tr /\ local w' = local w /\
    ((tr = [] /\ code resp = 400
      /\ match r with inl f => forall team name, ~ acceptable f team name | inr _ => True end)
     \/ exists f team name id n now e1 e2, r = inl f /\ acceptable f team name /\ ev RandomId id ∈ tr
        /\ (writes tr, resp) = stored id team name (join_path dataDir (id +:+ ".tar.gz")) n now e1 e2
        /\ forall o run, dataDir = Orchestrator.dataDir o ->
             bundle_of o (job_of run (mkRunReq id 0 0 0)) = join_path dataDir (id +:+ ".tar.gz"))) w.
Proof.
  pose proof (acted_refl w) as D. destruct r as [f|err]; unfold createSubmission.
  2:{ apply wp_ret. exists []. rewrite app_nil_r. split_and!; [done|done|by left]. }
  assert (forall msg (R : response -> list event -> Prop), (forall team name, ~ acceptable f team name) -> wp (mret (httpErr 400 msg) : Gw (W := W) (L := L) response)
    (fun resp w' => exists tr, trace w' = trace w ++ tr /\ local w' = local w /\
    ((tr = [] /\ code resp = 400 /\ forall team name, ~ acceptable f team name) \/ R resp tr)) w) as Hrefuse.
  { intros msg R Hno. apply wp_ret. exists []. rewrite app_nil_r. split_and!; [done|done|]. by left. }
  cbv zeta. destruct (String.eqb (trimSpace (f_team f)) "" || String.eqb (trimSpace (f_name f)) "") eqn:He.
  { apply Hrefuse. intros team name (-> & -> & Ht & Hn & _).
    apply orb_true_iff in He as [?%String.eqb_eq|?%String.eqb_eq]; done. }
  apply orb_false_iff in He as [Ht%String.eqb_neq Hn%String.eqb_neq].
  destruct (f_bundle f) as [file|] eqn:Hfile.
  2:{ apply Hrefuse. intros team name (_ & _ & _ & _ & file & Hf & _). congruence. }
  destruct (negb (hasSuffix file ".tar.gz") && negb (hasSuffix file ".tgz")) eqn:Hsuf.
  { apply Hrefuse. intros team name (_ & _ & _ & _ & file' & Hf & Hs). rewrite Hfile in Hf. injection Hf as <-.
    rewrite <- negb_orb in Hsuf. by rewrite Hs in Hsuf. }
  assert (acceptable f (trimSpace (f_team f)) (trimSpace (f_name f))) as Hacc.
  { split_and!; [done|done|done|done|]. exists file. split; [done|]. rewrite <- negb_orb in Hsuf.
    by apply negb_false_iff in Hsuf. }
  assert (forall id o run, dataDir = Orchestrator.dataDir o ->
    bundle_of o (job_of run (mkRunReq id 0 0 0)) = join_path dataDir (id +:+ ".tar.gz")) as Hpath by (by intros id o run ->).
  clear Hrefuse. apply wp_bind. unfold rid. do_call D. intros id w1 D1. apply wp_bind. do_call D1. intros e1 w2 D2.
  destruct e1 as [msg|].
  { apply wp_ret. destruct D2 as (Hl & Htr & _). eexists. split; [exact Htr|]. split; [done|]. right.
    exists f, (trimSpace (f_team f)), (trimSpace (f_name f)), id, 0, 0, (Some msg), None.
    split_and!; [done|done|left|done|by apply Hpath]. }
  apply wp_bind. do_call D2. intros [n e2] w3 D3. destruct e2 as [msg|].
  { apply wp_ret. destruct D3 as (Hl & Htr & _). eexists. split; [exact Htr|]. split; [done|]. right.
    exists f, (trimSpace (f_team f)), (trimSpace (f_name f)), id, n, 0, None, (Some msg).
    split_and!; [done|done|left|done|by apply Hpath]. }
  apply wp_bind. do_call D3. intros now w4 D4. apply wp_bind. do_call D4. intros [] w5 D5.
  apply wp_bind. do_call D5. intros [] w6 D6. apply wp_bind. do_call D6. intros [] w7 D7. apply wp_ret.
  destruct D7 as (Hl & Htr & _). eexists. split; [exact Htr|]. split; [done|]. right.
  exists f, (trimSpace (f_team f)), (trimSpace (f_name f)), id, n, now, None, None.
  split_and!; [done|done|left|done|by apply Hpath].
Qed.

(** ** Viewing runs *)

Lemma add_metrics_other run kvs k : (forall k', k <> ("m_" +:+ k')%string) -> add_metrics run kvs !! k = run !! k.
Proof.
  intros Hk. unfold add_metrics. revert run. induction kvs as [|[k' v] kvs IH]; intros run; [done|]. simpl.
  rewrite IH. by rewrite lookup_insert_ne by (intros Heq; by apply (Hk k')).
Qed.

Lemma prefix_inj k k' : ("m_" +:+ k)%string = ("m_" +:+ k')%string -> k = k'.
Proof. intros Heq. by injection Heq. Qed.

Lemma add_metrics_metric run kvs k :
  NoDup kvs.*1 -> add_metrics run kvs !! ("m_" +:+ k)%string =
  match (list_to_map kvs : gmap string string) !! k with Some v => Some v | None => run !! ("m_" +:+ k)%string end.
Proof.
  unfold add_metrics. revert run. induction kvs as [|[k' v] kvs IH]; intros run Hnd; [done|].
  rewrite fmap_cons in Hnd. apply NoDup_cons in Hnd as [Hk' Hnd]. simpl. rewrite IH by done.
  destruct (decide (k = k')) as [->|Hne].
  - rewrite lookup_insert_eq. rewrite (not_elem_of_list_to_map_1 kvs k') by done. by rewrite lookup_insert_eq.
  - rewrite (lookup_insert_ne (list_to_map kvs : gmap string string)) by done. destruct ((list_to_map kvs : gmap string string) !! k); [done|].
    by rewrite lookup_insert_ne by (intros ?%prefix_inj; done).
Qed.

(** The view of a run, field by field, from its three hashes. *)
Definition merged (run res sub view : gmap string string) : Prop :=
  (forall k v, res !! k = Some v -> view !! ("m_" +:+ k)%string = Some v)
  /\ (sub <> ∅ -> view !! "team"%string = Some (get_field sub "team") /\ view !! "name"%string = Some (get_field sub "name"))
  /\ (forall k, (sub = ∅ \/ k <> "team"%string /\ k <> "name"%string) ->
       (forall k' v, res !! k' = Some v -> k <> ("m_" +:+ k')%string) -> view !! k = run !! k).

Lemma add_metrics_merged `{!FieldLaws} run res :
  (forall k v, res !! k = Some v -> add_metrics run (range_fields res) !! ("m_" +:+ k)%string = Some v)
  /\ forall k, (forall k' v, res !! k' = Some v -> k <> ("m_" +:+ k')%string) ->
       add_metrics run (range_fields res) !! k = run !! k.
Proof.
  pose proof (range_fields_ok res) as Hp.
  assert (NoDup (range_fields res).*1) as Hnd by (rewrite Hp; apply NoDup_fst_map_to_list).
  assert ((list_to_map (range_fields res) : gmap string string) = res) as Hmap.
  { rewrite <- (list_to_map_to_list res) at 2. by apply list_to_map_proper. }
  split.
  - intros k v Hk. rewrite add_metrics_metric, Hmap, Hk by done. done.
  - intros k Hk. unfold add_metrics.
    assert (forall k' v, (k', v) ∈ range_fields res -> k <> ("m_" +:+ k')%string) as Hne.
    { intros k' v Hin. eapply Hk. rewrite <- Hmap. by apply elem_of_list_to_map_1. }
    clear Hp Hnd Hmap Hk. revert run. induction (range_fields res) as [|[k' v] kvs IH]; intros run; [done|]. simpl.
    rewrite IH by (intros; eapply Hne; by right).
    rewrite lookup_insert_ne; [done|]. intros Heq. eapply Hne; [left|done].
Qed.

(** The calls of a view of a run, and what it is. *)
Definition viewed (id : string) (v : option (gmap string string)) (tr : list event) : Prop :=
  exists run, match v with
  | None => run = ∅ /\ tr = [ev (HGetAll ("run:" +:+ id)) run]
  | Some view => run <> ∅ /\ exists res sub,
      tr = [ev (HGetAll ("run:" +:+ id)) run; ev (HGetAll ("result:" +:+ id)) res;
            ev (HGetAll ("submission:" +:+ get_field run "submission_id")) sub]
      /\ merged run res sub view
  end.

Lemma runView_ok `{!FieldLaws} id (w w1 : World W L) l tr :
  acted w w1 l tr ->
  wp (runView id) (fun v w2 => exists tr', acted w w2 l (tr ++ tr') /\ viewed id v tr') w1.
Proof.
  intros D. unfold runView. apply wp_bind. do_call D. intros run w2 D2. case_decide as Hrun.
  { apply wp_ret. eexists. split; [exact D2|]. by exists run. }
  apply wp_bind. do_call D2. intros res w3 D3. cbv zeta. apply wp_bind. do_call D3. intros sub w4 D4.
  rewrite <- !app_assoc in D4. destruct (add_metrics_merged run res) as [Hm Ho].
  assert (get_field (add_metrics run (range_fields res)) "submission_id" = get_field run "submission_id") as Hid
    by (unfold get_field; by rewrite Ho).
  rewrite Hid in D4. clear Hid. set (base := add_metrics run (range_fields res)) in *.
  case_decide as Hsub; apply wp_ret; (eexists; split; [exact D4|]; exists run; split; [done|]; exists res, sub; split; [done|]);
    split_and!.
  - done.
  - done.
  - intros k _ Hk. by apply Ho.
  - intros k v Hk. rewrite !lookup_insert_ne by done. by apply Hm.
  - intros _. by rewrite lookup_insert_eq, lookup_insert_ne, lookup_insert_eq.
  - intros k [?|[Ht Hn]] Hk; [done|]. rewrite !lookup_insert_ne by congruence. by apply Ho.
Qed.

(** One view per listed id, in the order of the index. *)
Inductive views : list string -> list (gmap string string) -> list event -> Prop :=
| views_nil : views [] [] []
| views_gone id ids out tr tr' : viewed id None tr -> views ids out tr' -> views (id :: ids) out (tr ++ tr')
| views_run id ids run out tr tr' :
    viewed id (Some run) tr -> views ids out tr' -> views (id :: ids) (run :: out) (tr ++ tr').

Lemma runViews_ok `{!FieldLaws} ids (w w1 : World W L) l tr :
  acted w w1 l tr ->
  wp (runViews ids) (fun out w2 => exists tr', acted w w2 l (tr ++ tr') /\ views ids out tr') w1.
Proof.
  revert w1 tr. induction ids as [|id ids IH]; intros w1 tr D; simpl.
  { apply wp_ret. exists []. rewrite app_nil_r. by split; [|constructor]. }
  apply wp_bind. eapply wp_mono; [by eapply runView_ok|]. intros v w2 (tr1 & D2 & Hv).
  apply wp_bind. eapply wp_mono; [by eapply IH|]. intros out w3 (tr2 & D3 & Hvs). apply wp_ret.
  exists (tr1 ++ tr2). rewrite app_assoc. split; [done|]. destruct v; by constructor.
Qed.

Lemma viewed_reads id v tr : viewed id v tr -> writes tr = [].
Proof. intros (run & Hv). destruct v as [view|]; [by destruct Hv as (_ & res & sub & -> & _)|by destruct Hv as [_ ->]]. Qed.

Lemma views_reads ids out tr : views ids out tr -> writes tr = [].
Proof. induction 1 as [|? ? ? ? ? Hv%viewed_reads|? ? ? ? ? ? Hv%viewed_reads]; rewrite ?writes_app, ?Hv; done. Qed.

Lemma getRun_ok `{!FieldLaws} id (w : World W L) :
  wp (getRun id) (fun resp w' => exists tr v, acted w w' (local w) tr /\ viewed id v tr /\
    resp = match v with Some view => mkResponse 200 (BRun view) | None => httpErr 404 "unknown run" end) w.
Proof.
  unfold getRun. apply wp_bind. eapply wp_mono; [eapply (runView_ok id w w _ []), acted_refl|].
  intros v w2 (tr & D & Hv). destruct v; apply wp_ret; eexists _, _; (split_and!; [exact D|exact Hv|done]).
Qed.

Lemma listRuns_ok `{!FieldLaws} (w : World W L) :
  wp listRuns (fun resp w' => exists ids out tr, acted w w' (local w) (ev (LRange "runs.index" 0 49) ids :: tr)
    /\ views ids out tr /\ resp = mkResponse 200 (BRuns out)) w.
Proof.
  pose proof (acted_refl w) as D. unfold listRuns. apply wp_bind. do_call D. intros ids w1 D1. apply wp_bind.
  eapply wp_mono; [by eapply runViews_ok|]. intros out w2 (tr & D2 & Hv). apply wp_ret. by exists ids, out, tr.
Qed.

Lemma leaderboard_ok (w : World W L) :
  wp leaderboard (fun resp w' => exists snap, acted w w' (local w) [ev (GetKey keySnapshot) snap]
    /\ resp = mkResponse 200 (BRaw (default "[]" snap))) w.
Proof.
  pose proof (acted_refl w) as D. unfold leaderboard. apply wp_bind. do_call D. intros snap w1 D1. apply wp_ret.
  by exists snap.
Qed.

(** ** Every request *)

(** What a request that reads is answered, and the calls made for it. *)
Definition answers (r : route) (a : answer) (tr : list event) : Prop :=
  match r with
  | ToRun id => exists v, viewed id v tr
      /\ a = Answered (match v with Some view => mkResponse 200 (BRun view) | None => httpErr 404 "unknown run" end)
  | ToListRuns => exists ids out tr', tr = ev (LRange "runs.index" 0 49) ids :: tr' /\ views ids out tr'
      /\ a = Answered (mkResponse 200 (BRuns out))
  | ToLeaderboard => exists snap, tr = [ev (GetKey keySnapshot) snap]
      /\ a = Answered (mkResponse 200 (BRaw (default "[]" snap)))
  | ToHealth => tr = [] /\ a = Status 200
  | MethodNotAllowed => tr = [] /\ a = Status 405
  | ToFiles => tr = [] /\ a = Files
  | ToWs => tr = [] /\ a = Upgraded
  | ToSubmissions | ToRuns => False
  end.

Lemma answers_reads r a tr : answers r a tr -> writes tr = [].
Proof.
  destruct r; simpl; try (by intros []); try (by intros [-> _]).
  - intros (ids & out & tr' & -> & Hv & _). exact (views_reads _ _ _ Hv).
  - intros (v & Hv & _). by eapply viewed_reads.
  - by intros (snap & -> & _).
Qed.

Lemma answers_405 r a tr : answers r a tr -> (a = Status 405 <-> r = MethodNotAllowed).
Proof.
  destruct r; simpl; try (by intros []); try (by intros [_ ->]); intros Ha; split; try done; intros ->; naive_solver.
Qed.

Lemma route_get p : route_of "GET" p <> ToSubmissions /\ route_of "GET" p <> ToRuns /\ route_of "GET" p <> MethodNotAllowed.
Proof. unfold route_of. cbn [String.eqb orb]. simpl. repeat (case_decide; [done|]). destruct p as [|a [|b [|id [|]]]]; try done. by case_match. Qed.

Lemma route_head p : route_of "HEAD" p = route_of "GET" p.
Proof. reflexivity. Qed.

Lemma route_cases m p :
  match route_of m p with
  | ToSubmissions => m = "POST"%string /\ p = ["api"; "submissions"]%string
  | ToRuns => m = "POST"%string /\ p = ["api"; "runs"]%string
  | MethodNotAllowed => m <> "GET"%string /\ m <> "HEAD"%string
      /\ (m = "POST"%string -> p <> ["api"; "submissions"]%string /\ p <> ["api"; "runs"]%string)
  | _ => m = "GET"%string \/ m = "HEAD"%string
  end.
Proof.
  destruct (decide (m = "GET"%string)) as [->|Hg].
  { pose proof (route_get p). destruct (route_of "GET" p); tauto. }
  destruct (decide (m = "HEAD"%string)) as [->|Hh].
  { rewrite route_head. pose proof (route_get p). destruct (route_of "GET" p); tauto. }
  unfold route_of. destruct (String.eqb_spec m "POST") as [Hm|Hm].
  - case_decide; [done|]. case_decide; [done|]. done.
  - rewrite (proj2 (String.eqb_neq m "GET") Hg), (proj2 (String.eqb_neq m "HEAD") Hh). done.
Qed.

(** C38. Only a [POST] to one of the two collections writes: every other
    request is answered without a write. A method other than [GET] and [HEAD]
    is 405. A run is 404 exactly when its hash is empty; else 200 with its own
    fields, every metric of its result under [m_], and the team and name of its
    submission, all other fields untouched. The list shows, in the order of the
    index, the view of each of its first 50 ids that still has a hash. The
    leaderboard is the stored snapshot, or the empty list. *)
Theorem only_posts_write `{!FieldLaws} (r : request) (w : World W L) :
  ~ (rq_method r = "POST" /\ (rq_path r = ["api"; "submissions"] \/ rq_path r = ["api"; "runs"]))%string ->
  wp (handle_request dataDir r) (fun a w' => exists tr, trace w' = trace w ++ tr /\ local w' = local w
    /\ writes tr = [] /\ answers (route_of (rq_method r) (rq_path r)) a tr
    /\ (a = Status 405 <-> rq_method r <> "GET"%string /\ rq_method r <> "HEAD"%string)) w.
Proof.
  intros Hpost. set (rt := route_of (rq_method r) (rq_path r)).
  pose proof (route_cases (rq_method r) (rq_path r)) as Hrt. fold rt in Hrt.
  assert (rt = MethodNotAllowed <-> rq_method r <> "GET"%string /\ rq_method r <> "HEAD"%string) as H405
    by (destruct rt; intuition congruence).
  assert (forall a w' tr, acted w w' (local w) tr -> answers rt a tr -> exists tr, trace w' = trace w ++ tr
    /\ local w' = local w /\ writes tr = [] /\ answers rt a tr
    /\ (a = Status 405 <-> rq_method r <> "GET"%string /\ rq_method r <> "HEAD"%string)) as Hok.
  { intros a w' tr (Hl & Ht & _) Ha. exists tr. split_and!; [done|done|by eapply answers_reads|done|].
    rewrite (answers_405 _ _ _ Ha). exact H405. }
  unfold handle_request. fold rt. clear H405.
  pose proof (acted_refl w) as D. destruct rt as [| | |id| | | | |].
  1: by destruct Hpost; destruct Hrt; auto.
  1: by destruct Hpost; destruct Hrt; auto.
  - apply wp_bind. eapply wp_mono; [apply listRuns_ok|]. intros resp w' (ids & out & tr & D' & Hv & ->).
    apply wp_ret. eapply Hok; [exact D'|]. by exists ids, out, tr.
  - apply wp_bind. eapply wp_mono; [apply getRun_ok|]. intros resp w' (tr & v & D' & Hv & ->).
    apply wp_ret. eapply Hok; [exact D'|]. by exists v.
  - apply wp_bind. eapply wp_mono; [apply leaderboard_ok|]. intros resp w' (snap & D' & ->).
    apply wp_ret. eapply Hok; [exact D'|]. by exists snap.
  - apply wp_ret. by eapply Hok.
  - apply wp_ret. by eapply Hok.
  - apply wp_ret. by eapply Hok.
  - apply wp_ret. by eapply Hok.
Qed.
End gateway.

(** ** The hub *)

Import Hub.

(** What one client sees of an operation: whether it is connected, and the
    messages it got. *)
Definition client (c : conn) (st : bool * list string) (o : op) : bool * list string :=
  let '(alive, got) := st in
  match o with
  | Greet ok snap c' =>
      if decide (c' = c) then (alive, if ok then got ++ option_list snap else got) else st
  | Add c' => if decide (c' = c) then (true, got) else st
  | Remove c' => if decide (c' = c) then (false, got) else st
  | Broadcast ok msg => if alive then (if ok c then (true, got ++ [msg]) else (false, got)) else st
  end.

Definition view (h : hub) (c : conn) : bool * list string := (bool_decide (c ∈ clients h), received h c).

Lemma view_write ok msg h c' c :
  view (write ok msg h c') c =
  if decide (c' = c) then (if ok c then (bool_decide (c ∈ clients h), received h c ++ [msg]) else (false, received h c))
  else view h c.
Proof.
  unfold write, view, received, remove. destruct (decide (c' = c)) as [->|Hne].
  - destruct (ok c); simpl; [by rewrite lookup_insert_eq|].
    by rewrite bool_decide_eq_false_2 by set_solver.
  - destruct (ok c'); simpl; [by rewrite lookup_insert_ne|].
    f_equal. apply bool_decide_ext. set_solver.
Qed.

Lemma view_broadcast ok msg cs h c :
  NoDup cs -> view (broadcast ok msg cs h) c =
  if decide (c ∈ cs) then (if ok c then ((view h c).1, received h c ++ [msg]) else (false, received h c)) else view h c.
Proof.
  revert h. induction cs as [|c' cs IH]; intros h Hnd; [done|].
  apply NoDup_cons in Hnd as [Hc' Hnd]. unfold broadcast in *. simpl. rewrite IH by done.
  pose proof (view_write ok msg h c' c) as Hw. destruct (decide (c' = c)) as [->|Hne].
  - rewrite decide_False, decide_True by (done || left). rewrite Hw. by destruct (ok c).
  - rewrite (decide_ext (c ∈ c' :: cs) (c ∈ cs)) by (rewrite elem_of_cons; naive_solver).
    assert (received (write ok msg h c') c = received h c) as Hgot by exact (f_equal snd Hw). by rewrite Hw, Hgot.
Qed.

Lemma step_client o h h' c : step o h h' -> view h' c = client c (view h c) o.
Proof.
  destruct 1 as [ok snap c' h|c' h|c' h|ok msg cs h Hcs].
  - unfold view, received, greet. simpl. destruct snap as [s|], ok; simpl;
      destruct (decide (c' = c)) as [->|Hne]; rewrite ?app_nil_r; try done.
    + by rewrite lookup_insert_eq.
    + by rewrite lookup_insert_ne.
  - unfold view, received. simpl. destruct (decide (c' = c)) as [->|Hne].
    + by rewrite bool_decide_eq_true_2 by set_solver.
    + f_equal. apply bool_decide_ext. set_solver.
  - unfold view, received. simpl. destruct (decide (c' = c)) as [->|Hne].
    + by rewrite bool_decide_eq_false_2 by set_solver.
    + f_equal. apply bool_decide_ext. set_solver.
  - rewrite view_broadcast by (rewrite Hcs; apply NoDup_elements). unfold view. simpl.
    destruct (decide (c ∈ cs)) as [Hin|Hin]; rewrite Hcs, elem_of_elements in Hin.
    + by rewrite bool_decide_eq_true_2.
    + by rewrite bool_decide_eq_false_2.
Qed.

(** The hub is one independent machine per client. Operations can always
    be carried out, and whatever the order in which [run] visits the clients
    and whichever writes fail, a client's connection and what it received
    depend only on its own greeting, adds, removes and writes: it gets the
    snapshot it is greeted with and, while connected, every broadcast message, once and in order, and it is dropped at its first
    failed write, which no other client notices. *)
Theorem hub_serves_clients_independently (ops : list op) (h : hub) :
  (exists h', steps ops h h')
  /\ forall h', steps ops h h' -> forall c, view h' c = foldl (client c) (view h c) ops.
Proof.
  split.
  - revert h. induction ops as [|o ops IH]; intros h; [eexists; constructor|].
    assert (exists h1, step o h h1) as [h1 H1] by (destruct o as [ok snap c|c|c|ok msg]; eexists; by econstructor).
    destruct (IH h1) as [h' H']. exists h'. by econstructor.
  - intros h' Hs c. induction Hs as [|o ops h h1 h2 H1 _ IH]; [done|]. rewrite IH. simpl. by rewrite (step_client _ _ _ _ H1).
Qed.

(** ** Witnesses *)

#[local] Instance listed_fields : FieldOrder := map_to_list.
#[local] Instance listed_laws : FieldLaws.
Proof. intros m. reflexivity. Qed.
#[local] Existing Instances sleepy_engine sleepy_laws Lifecycle.plain_text.

Lemma only_posts_write_witness :
  ~ ("GET" = "POST" /\ (["api"; "leaderboard"] = ["api"; "submissions"] \/ ["api"; "leaderboard"] = ["api"; "runs"]))%string
  /\ wp (handle_request "/data" (mkRequest "GET" ["api"; "leaderboard"] (inr "") (inr "")))
    (fun a w' => exists snap, trace w' = [ev (GetKey keySnapshot) snap]
      /\ a = Answered (mkResponse 200 (BRaw (default "[]" snap)))) demo_idle.
Proof.
  assert (~ ("GET" = "POST" /\ (["api"; "leaderboard"] = ["api"; "submissions"] \/ ["api"; "leaderboard"] = ["api"; "runs"])))%string
    as Hread by (intros [Hp _]; discriminate Hp).
  split; [exact Hread|].
  eapply wp_mono; [apply (only_posts_write "/data" (mkRequest "GET" ["api"; "leaderboard"] (inr "") (inr "")) demo_idle Hread)|].
  simpl. intros a w' (tr & Ht & _ & _ & (snap & -> & ->) & _). by exists snap.
Defined.

Lemma hub_serves_clients_independently_witness :
  exists h, steps [Greet true (Some "s") 2%N; Add 1%N; Add 2%N; Broadcast (fun _ => true) "a"; Broadcast (fun c => bool_decide (c = 2%N)) "b";
                   Broadcast (fun _ => true) "c"] newHub h
    /\ view h 1%N = (false, ["a"]) /\ view h 2%N = (true, ["s"; "a"; "b"; "c"]).
Proof.
  destruct (hub_serves_clients_independently [Greet true (Some "s") 2%N; Add 1%N; Add 2%N; Broadcast (fun _ => true) "a";
    Broadcast (fun c => bool_decide (c = 2%N)) "b"; Broadcast (fun _ => true) "c"] newHub) as [[h Hs] Hv].
  exists h. split; [exact Hs|]. rewrite !(Hv h Hs). split; reflexivity.
Defined.
