(* ===== verification/Interleave.v ===== *)
(** * Interleavings

    Several sequences merged into one: what the order of arrival may be when
    each sender's own order is kept. *)
From S2P Require Import Prelude.
Local Open Scope Z_scope.

Section interleave.
Context {A : Type}.

Inductive interleaved : list (list A) -> list A -> Prop :=
| interleaved_end ls : Forall (.= []) ls -> interleaved ls []
| interleaved_next ls k x xs l :
    ls !! k = Some (x :: xs) -> interleaved (<[k := xs]> ls) l -> interleaved ls (x :: l).

Lemma concat_nils (ls : list (list A)) : Forall (.= []) ls -> concat ls = [].
Proof. induction 1 as [|xs ls -> _ IH]; [done|exact IH]. Qed.

Lemma concat_pop ls k (x : A) xs :
  ls !! k = Some (x :: xs) -> concat ls ≡ₚ x :: concat (<[k := xs]> ls).
Proof.
  revert k. induction ls as [|ys ls IH]; intros [|k] Hk; try done; simpl in *.
  - by injection Hk as ->.
  - rewrite (IH k Hk). by rewrite Permutation_middle.
Qed.

(** Nothing is lost and nothing is added. *)
Lemma interleaved_perm ls l : interleaved ls l -> l ≡ₚ concat ls.
Proof.
  induction 1 as [ls Hls|ls k x xs l Hk _ IH]; [by rewrite concat_nils|]. by rewrite IH, <- concat_pop.
Qed.

(** Each sender's sequence can be read off when its elements carry its number. *)
Definition labelled (f : A -> Z) (ls : list (list A)) : Prop :=
  forall k xs, ls !! k = Some xs -> Forall (fun x => f x = Z.of_nat k) xs.

Lemma interleaved_filter f ls l (k : nat) :
  interleaved ls l -> labelled f ls ->
  filter (fun x => f x = Z.of_nat k) l = default [] (ls !! k).
Proof.
  induction 1 as [ls Hls|ls j x xs l Hj _ IH]; intros Hlab.
  - destruct (ls !! k) as [xs|] eqn:Hk; [|done]. rewrite Forall_lookup in Hls. by rewrite (Hls _ _ Hk).
  - pose proof (Hlab _ _ Hj) as Hx. apply Forall_cons in Hx as [Hx Hxs].
    assert (labelled f (<[j := xs]> ls)) as Hlab'.
    { intros i ys Hi. apply list_lookup_insert_Some in Hi as [(-> & <- & _)|[_ Hi]]; [done|by apply Hlab]. }
    specialize (IH Hlab'). destruct (decide (k = j)) as [->|Hne].
    + rewrite filter_cons_True by done. rewrite IH, list_lookup_insert_eq by (by eapply lookup_lt_Some). by rewrite Hj.
    + rewrite filter_cons_False by lia. by rewrite IH, list_lookup_insert_ne.
Qed.
End interleave.
