(* ===== verification/Pipeline.v ===== *)
(** * The services together

    What one service hands to the next: every job the gateway queues is
    brought to an end by the orchestrator, and the verdict the ingester gives
    on a run counts exactly what the bots of all its shards did. *)
From S2P Require Import Prelude Protocol Float64 Text IO Consumer Counters Hist HistProps Bot BotTurn Fleet FleetProps.
From S2P Require Import Ingester IngesterMetrics IngesterProps IngesterStream.
From S2P Require Import Orchestrator OrchestratorProps Lifecycle Gateway GatewayProps Config Interleave.
Local Open Scope Z_scope.

(** ** From the gateway to the orchestrator *)

Lemma accepted_bounds id req :
  let job := job_of id (normalize req) in 1 <= rj_bots job <= 5000 /\ 1 <= rj_duration job <= 300.
Proof. destruct (normalize_bounds req) as (Hb & Hd & _). exact (conj Hb Hd). Qed.

Section jobs.
Context {W : Type} `{!Env W, !Strconv} (clock : W -> Z) `{!SleepLaws clock} (o : orch).

(** A message the gateway put on the stream, or noise that does not decode. *)
Definition from_gateway (m : delivery RunJob) : Prop :=
  match m.2 with
  | Some (inl job) => exists id req, job = job_of id (normalize req)
  | Some (inr _) => True
  | None => False
  end.

(** Only the gateway writes to the stream of jobs. *)
Class JobLaws : Prop := jobs_from_gateway e r e' :
  env_step (ReadJobs Orchestrator.streamRuns Orchestrator.group 1) e = (r, e') ->
  match r with Fetched msgs => Forall from_gateway msgs | _ => True end.

Definition job_event (res : fetched RunJob) : event := ev (ReadJobs Orchestrator.streamRuns Orchestrator.group 1) res.
Definition ack_job (id : string) : event := ev (XAck Orchestrator.streamRuns Orchestrator.group id) tt.

(** A message taken: the story of its job, of 1 to 20 shards, and then the
    acknowledgement; noise is only acknowledged. *)
Definition worked (m : delivery RunJob) (tr : list event) : Prop :=
  match m with
  | (id, Some (inl job)) => 1 <= shard_count o job <= 20 /\ shard_count o job <= rj_bots job
      /\ exists tr', tr = tr' ++ [ack_job id] /\ story o job tr'
  | (id, _) => tr = [ack_job id]
  end.

Lemma take_job_ok m (w : World W ()) i tr w1 :
  botsPerShard o = 250 -> cores o <> 0 -> from_gateway m -> acted w w1 i tr ->
  wp (take_job 391 o m) (fun _ w2 => exists i' tr', acted w w2 i' (tr ++ tr') /\ worked m tr') w1.
Proof.
  intros Ho Hc Hm D. destruct i, m as [id [[job|err]|]]; [| |done]; unfold take_job; simpl; apply wp_bind, wp_ret, wp_bind.
  - destruct Hm as (rid & req & ->). pose proof (accepted_bounds rid req) as [Hb Hd].
    set (job := job_of rid (normalize req)) in *. pose proof (shard_count_exact o job Ho ltac:(lia)) as Hn.
    eapply wp_mono; [apply (handle_ok clock); [unfold life_fuel; lia|lia|done]|]. intros [] w2 (tr2 & D2 & Hs).
    pose proof (acted_trans _ _ _ _ _ _ _ D D2) as D2'. do_call D2'. intros [] w3 D3.
    rewrite <- app_assoc in D3. exists (), (tr2 ++ [ack_job id]). split; [exact D3|]. split; [lia|]. split; [lia|]. by exists tr2.
  - apply wp_ret. do_call D. intros [] w3 D3. by exists (), [ack_job id].
Qed.

Lemma main_finishes_jobs `{!JobLaws} (n : nat) (w : World W ()) :
  botsPerShard o = 250 -> cores o <> 0 ->
  wp (orch_main 391 o n) (fun _ w' => exists msgs tr,
    trace w' = trace w ++ tr /\ session job_event worked n msgs tr) w.
Proof.
  intros Ho Hc. unfold orch_main. eapply wp_mono.
  { eapply (turns_session _ _ job_event worked from_gateway _ (fun _ _ _ => True) _ _ n [] (local w) [] w w);
      [done|apply acted_refl].
    Unshelve.
    - intros w0 i tr Q w1 D HQ. eapply (acted_call_law _ _ _ (ReadJobs Orchestrator.streamRuns Orchestrator.group 1)); [exact jobs_from_gateway|exact D|exact HQ].
    - done.
    - intros pre i tr m w0 w1 Hm _ D. eapply wp_mono; [by eapply take_job_ok|].
      intros [] w2 (i' & tr' & D' & Hw). by exists i', tr'. }
  intros [] w' (i' & msgs & tr & (_ & Ht & _) & Hs & _). by exists msgs, tr.
Qed.
End jobs.

(** C8. Whatever the gateway queues, the orchestrator finishes. Whatever its
    configuration, its main loop runs for any number of turns without a panic and takes the messages one
    after the other: every job is cut into 1 to 20 shards, no more than it has
    bots, is brought to the end of one of its stories, with 391 turns of fuel
    for each of its two loops, and only then acknowledged; noise on the stream
    is acknowledged and has no other effect. *)
Theorem queued_jobs_are_finished {W : Type} `{!Env W, !Strconv} (clock : W -> Z) `{!SleepLaws clock, !JobLaws}
    (getenv : string -> string) (NumCPU : Z) (n : nat) (w : World W ()) :
  let o := orch_config getenv NumCPU in
  wp (orch_main 391 o n) (fun _ w' => exists msgs tr,
    trace w' = trace w ++ tr /\ session job_event (worked o) n msgs tr) w.
Proof.
  intros o. pose proof (orch_config_cores getenv NumCPU). apply (main_finishes_jobs clock o n w); [done|].
  unfold o. lia.
Qed.

(** ** From the bots to the verdict *)

Section verdict.
Context `{!Math, !RangeOrder, !RangeLaws}.

(** How the bots and the flusher of a shard interleave. *)
Definition plan : Type := list (nat -> list bot_op) * list bot_op.
Definition done_by (p : plan) : list bot_op := all_ops p.1 p.2.

Definition shipped_by (s : LoadShard) (p : plan) (bs : list TelemetryBatch) : Prop := shipment p.1 p.2 s bs.

(** A run of a shard whose calls are the shipping of [bs]. *)
Definition ran {V} `{!Env V} (s : LoadShard) (p : plan) (bs : list TelemetryBatch) : Prop :=
  exists (v v' : World V shardState) rs,
    runShard p.1 p.2 s v = Ok ((), v') /\ trace v' = trace v ++ zip_with batch_event bs rs /\ length rs = length bs.

Lemma called_batches bs rs :
  length rs = length bs -> map called (zip_with batch_event bs rs) = map (fun b => XAdd Fleet.streamTele (MBatch b)) bs.
Proof. revert rs. induction bs as [|b bs IH]; intros [|r rs] Hl; try done. simpl in *. rewrite IH; [done|lia]. Qed.

Lemma ran_shipped {V} `{!Env V} s p bs : bounded (done_by p) -> ran (V := V) s p bs -> shipped_by s p bs.
Proof.
  intros Hb (v & v' & rs & Hrun & Ht & Hl). destruct (shard_ok p.1 p.2 s v Hb) as (u & v1 & Hrun1 & bs1 & rs1 & (_ & Ht1 & _) & Hl1 & Hs).
  rewrite Hrun in Hrun1. injection Hrun1 as _ <-. rewrite Ht in Ht1. apply app_inv_head in Ht1.
  apply (f_equal (map called)) in Ht1. rewrite !called_batches in Ht1 by done.
  assert (Inj (=) (=) (fun b => XAdd Fleet.streamTele (MBatch b))) as Hinj by (intros b b' Heq; by injection Heq).
  assert (bs = bs1) as ->; [|exact Hs]. exact (inj (fmap (fun b => XAdd Fleet.streamTele (MBatch b))) _ _ Ht1).
Qed.

Lemma bounded_member (p : plan) plans : bounded (concat (map done_by plans)) -> p ∈ plans -> bounded (done_by p).
Proof.
  intros Hb (ps & ps' & ->)%list_elem_of_split. rewrite map_app, concat_app in Hb. apply bounded_app in Hb as [_ Hb].
  apply bounded_app in Hb as [Hb _]. exact Hb.
Qed.

Lemma all_shipped {V} `{!Env V} shards plans bss :
  bounded (concat (map done_by plans)) -> Forall3 (ran (V := V)) shards plans bss -> Forall3 shipped_by shards plans bss.
Proof.
  intros Hb Hr. assert (forall p, p ∈ plans -> bounded (done_by p)) as Hm by (intros; by eapply bounded_member).
  clear Hb. induction Hr as [|s p bs shards plans bss Hs _ IH]; constructor.
  - eapply ran_shipped; [apply Hm; left|exact Hs].
  - apply IH. intros. apply Hm. by right.
Qed.

Lemma total_app c l l' : total c (l ++ l') = total c l + total c l'.
Proof. induction l as [|b l IH]; [done|]. unfold total in *. simpl. lia. Qed.

Lemma total_perm c l l' : l ≡ₚ l' -> total c l = total c l'.
Proof. induction 1; unfold total in *; simpl; lia. Qed.

Lemma shipments_total c shards plans bss :
  Forall3 shipped_by shards plans bss ->
  total c (concat bss) = count (op_is c) (concat (map done_by plans)).
Proof.
  induction 1 as [|s p bs shards plans bss Hs _ IH]; [done|]. simpl. rewrite total_app, count_app, IH.
  by rewrite (sp_total _ _ _ _ Hs).
Qed.

Lemma shipments_table t shards plans bss :
  Forall3 shipped_by shards plans bss ->
  exists parts, Forall2 hist_of parts (map (tb_table t) (concat bss))
    /\ concat parts ≡ₚ keys t (concat (map done_by plans)).
Proof.
  induction 1 as [|s p bs shards plans bss Hs _ (parts & Hp & Hperm)]; [by exists []|].
  destruct (sp_table _ _ _ _ Hs t) as (parts0 & Hp0 & Hperm0). exists (parts0 ++ parts). simpl. split.
  - rewrite map_app. by apply Forall2_app.
  - by rewrite concat_app, keys_app, Hperm0, Hperm.
Qed.

Lemma shard_labels job n nows k s :
  shards_of job n nows !! k = Some s ->
  ls_run s = rj_run job /\ ls_shard s = Z.of_nat k /\ ls_total s = n /\ Z.of_nat k < n.
Proof.
  unfold shards_of. intros Hs. apply lookup_zip_with_Some in Hs as (i & now & -> & Hi & _).
  apply lookup_seqZ in Hi as [-> Hk]. by split_and!.
Qed.

Lemma shards_length job n nows : length nows = Z.to_nat n -> length (shards_of job n nows) = Z.to_nat n.
Proof. intros Hl. unfold shards_of. rewrite length_zip_with, length_seqZ. lia. Qed.

(** Whatever order they arrive in, the shipments are the whole stream of the run. *)
Lemma shipments_stream job n nows plans bss l :
  0 < n -> length nows = Z.to_nat n -> Forall3 shipped_by (shards_of job n nows) plans bss -> interleaved bss l ->
  run_stream (rj_run job) n l.
Proof.
  intros Hn Hlen Hs Hl. pose proof (interleaved_perm _ _ Hl) as Hperm.
  assert (forall k bs, bss !! k = Some bs -> exists s p, shards_of job n nows !! k = Some s /\ shipment p.1 p.2 s bs) as Hget.
  { intros k bs Hk. destruct (Forall3_lookup_r _ _ _ _ _ _ Hs Hk) as (s & p & Hsk & _ & Hsp). by exists s, p. }
  assert (labelled tb_shard bss) as Hlab.
  { intros k bs Hk. destruct (Hget k bs Hk) as (s & p & Hsk & Hsp). destruct (shard_labels _ _ _ _ _ Hsk) as (_ & <- & _).
    eapply Forall_impl; [exact (sp_meta _ _ _ _ Hsp)|]. naive_solver. }
  split; [done| |].
  - rewrite Hperm. apply Forall_concat, Forall_lookup. intros k bs Hk. destruct (Hget k bs Hk) as (s & p & Hsk & Hsp).
    destruct (shard_labels _ _ _ _ _ Hsk) as (Hr & Hsh & Ht & Hlt).
    eapply Forall_impl; [exact (sp_meta _ _ _ _ Hsp)|]. intros b (-> & -> & ->). rewrite Hr, Hsh, Ht. split_and!; [done|done|lia|lia].
  - intros k Hk. assert (is_Some (bss !! Z.to_nat k)) as [bs Hbs].
    { apply lookup_lt_is_Some. rewrite <- (Forall3_length_lr _ _ _ _ Hs), shards_length by done. lia. }
    destruct (Hget _ _ Hbs) as (s & p & _ & Hsp). exists (length p.1). unfold of_shard.
    pose proof (interleaved_filter tb_shard bss l (Z.to_nat k) Hl Hlab) as Hf. rewrite Z2Nat.id, Hbs in Hf by lia.
    rewrite Hf. exact (sp_final _ _ _ _ Hsp).
Qed.

(** The correctness of a run is 1 exactly when its bots saw an ack and no violation. *)
Lemma perfect_run a m ops :
  compute a = Some m -> (forall c, ag_count c a = count (op_is c) ops) -> Z.of_nat (length ops) <= 2 ^ 53 ->
  exists c, F64.num (m_correctness m) c /\ (c = F64.one_u <-> 0 < count is_acked ops /\ count is_violation ops = 0).
Proof.
  intros Hm Hc Hlen. pose proof (count_range (op_is CAcked) ops) as Ha. pose proof (count_range (op_is CViolations) ops) as Hv.
  rewrite <- !Hc in Ha, Hv. pose proof (Hc CAcked) as Hack. pose proof (Hc CViolations) as Hvio. simpl in *.
  assert (m_correctness m = correctness_of a) as ->.
  2:{ destruct (Z.ltb_spec 0 (ag_acked a)) as [Hpos|Hnil].
      - destruct (correctness_counts_violations a a) as (c & _ & Hnum & _ & _ & _ & Hone & _); [lia|lia|lia|done|].
        exists c. rewrite <- Hvio, Hone. split; [done|]. split; [intros ->|intros [_ ->]]; [split; [lia|done]|done].
      - exists 0. unfold correctness_of. rewrite (proj2 (Z.ltb_ge _ _)) by done. split; [exact F64.zero_num|]. pose proof F64.one_u_pos. lia. }
  revert Hm. unfold compute. destruct (Quantile _ _ (F64.dec 50 2)) as [p50|]; [|done]. simpl.
  destruct (Quantile _ _ (F64.dec 90 2)) as [p90|]; [|done]. simpl.
  destruct (Quantile _ _ (F64.dec 99 2)) as [p99|]; [|done]. by intros [= <-].
Qed.

(** The one verdict on a run, from an aggregate that counts exactly [ops]. *)
Record whole_verdict `{!Strconv} (run : string) (ops : list bot_op) (tr : list event) (a : runAgg) (m : metrics) (sc : F64.t) : Prop := mkWhole {
  wv_written : verdicts_of run tr = [HSet ("result:" +:+ run) (result_fields m a sc true)];
  wv_metrics : compute a = Some m;
  wv_scored : scored_from run m sc tr;
  wv_counts c : ag_count c a = count (op_is c) ops;
  wv_tables t : hist_of (keys t ops) (ag_table t a)
}.

Lemma job_verdict {V W} `{!Env V} `{!Env W, !Strconv, !TextLaws} (pgDSN : string) (o : orch)
    (job : RunJob) (nows : list Z) (plans : list plan) (bss : list (list TelemetryBatch))
    (l : list TelemetryBatch) (k : nat) (w : World W ingester) :
  botsPerShard o = 250 -> 1 <= rj_bots job <= 2 ^ 47 -> length nows = Z.to_nat (shard_count o job) ->
  bounded (concat (map done_by plans)) ->
  Forall3 (ran (V := V)) (shards_of job (shard_count o job) nows) plans bss -> interleaved bss l ->
  ing_ok (local w) -> ing_runs (local w) !! rj_run job = None ->
  wp (ingester_main pgDSN k) (fun _ w' => exists tr, trace w' = trace w ++ tr
    /\ (l = of_run (rj_run job) (batches (delivered tr)) ->
        exists a m sc, whole_verdict (rj_run job) (concat (map done_by plans)) tr a m sc)) w.
Proof.
  intros Ho Hb Hlen Hops Hship Hl Hok Hnone. pose proof (shard_count_exact o job Ho ltac:(lia)) as Hn.
  set (n := shard_count o job) in *. apply all_shipped in Hship; [|done].
  pose proof (shipments_stream job n nows plans bss l ltac:(lia) Hlen Hship Hl) as Hs.
  pose proof (interleaved_perm _ _ Hl) as Hperm.
  eapply wp_mono; [by eapply main_progress, progress_start|].
  intros [] w' (i' & msgs & tr & (_ & T & _) & Hses & _ & Hpro). exists tr. split; [exact T|].
  rewrite (session_delivered _ _ _ Hses). intros Heq. specialize (Hpro []). rewrite app_nil_r, decide_True in Hpro by done.
  destruct (Hpro Heq) as (_ & a & m & sc & Ha & Hm & Hfrom & Hv). exists a, m, sc.
  assert (forall c, ag_count c a = count (op_is c) (concat (map done_by plans))) as Hcount.
  { intros c. rewrite (gd_count _ _ _ Ha), (total_perm c _ _ Hperm), (shipments_total c _ _ _ Hship).
    apply Int64.wrap_id. pose proof (count_range (op_is c) (concat (map done_by plans))). unfold bounded in Hops.
    unfold Int64.in_range, Int64.min_val, Int64.max_val. lia. }
  split; [done|done|done|done|].
  intros t. destruct (shipments_table t _ _ _ Hship) as (parts & Hp & Hc).
  pose proof (Permutation_map (tb_table t) Hperm) as Hmap. apply Forall2_flip in Hp.
  destruct (Permutation_Forall2 (symmetry Hmap) Hp) as (parts' & Hpp & Hp'). apply Forall2_flip in Hp'.
  pose proof (bounded_few t _ Hops) as Hfew.
  assert (concat parts' ≡ₚ keys t (concat (map done_by plans))) as Hc' by (by rewrite <- Hpp).
  eapply hist_of_perm; [exact Hc'|]. eapply aggregated_hist; [exact Ha|exact Hp'|].
  unfold few in *. by rewrite Hc'.
Qed.

(** C6. The verdict counts what the bots did. Take a job of the orchestrator,
    run each of its shards on the fleet under any schedule of its bots and its
    flusher, and let their batches arrive at the ingester in any order that
    keeps each shard's own, between batches of other runs. When all have
    arrived, the ingester has given exactly one verdict on the run, from an
    aggregate in which requests, acks, errors and violations are exactly those
    of all bots together, and the latency histogram and the per-second tallies
    count exactly the latencies and seconds they recorded; and, up to 2^53
    operations of the bots, its correctness is 1 exactly when some request was
    acked and no bot saw a violation: without any ack it is not 1. *)
Theorem verdict_counts_what_bots_did {V W} `{!Env V} `{!Env W, !Strconv, !TextLaws} (pgDSN : string) (o : orch)
    (job : RunJob) (nows : list Z) (plans : list plan) (bss : list (list TelemetryBatch))
    (l : list TelemetryBatch) (k : nat) (w : World W ingester) :
  botsPerShard o = 250 -> 1 <= rj_bots job <= 2 ^ 47 -> length nows = Z.to_nat (shard_count o job) ->
  bounded (concat (map done_by plans)) ->
  Forall3 (ran (V := V)) (shards_of job (shard_count o job) nows) plans bss -> interleaved bss l ->
  ing_ok (local w) -> ing_runs (local w) !! rj_run job = None ->
  wp (ingester_main pgDSN k) (fun _ w' => exists tr, trace w' = trace w ++ tr
    /\ (l = of_run (rj_run job) (batches (delivered tr)) -> exists a m sc,
         verdicts_of (rj_run job) tr = [HSet ("result:" +:+ rj_run job) (result_fields m a sc true)]
         /\ compute a = Some m
         /\ (forall c, ag_count c a = count (op_is c) (concat (map done_by plans)))
         /\ (forall t, hist_of (keys t (concat (map done_by plans))) (ag_table t a))
         /\ (Z.of_nat (length (concat (map done_by plans))) <= 2 ^ 53 ->
             exists c, F64.num (m_correctness m) c
             /\ (c = F64.one_u <-> 0 < count is_acked (concat (map done_by plans))
                                    /\ count is_violation (concat (map done_by plans)) = 0)))) w.
Proof.
  intros Ho Hb Hlen Hops Hship Hl Hok Hnone. eapply wp_mono; [by eapply (job_verdict (V := V))|].
  intros [] w' (tr & Ht & Hv). exists tr. split; [exact Ht|]. intros Heq.
  destruct (Hv Heq) as (a & m & sc & [Hw Hm _ Hc Htab]). exists a, m, sc. split_and!; [done..|]. by eapply perfect_run.
Qed.
End verdict.

(** ** Witness: a queue of two jobs and noise, on a clock that follows the sleeps *)

Definition queue_clock : Type := list (list (string * ((string * runReq) + string))) * Z.
Definition queueing : Env queue_clock := fun c w =>
  match c return reply c * queue_clock with
  | Now => (w.2, w)
  | Sleep ns => (tt, (w.1, w.2 + Z.max 0 ns))
  | ReadJobs _ _ _ =>
      match w.1 with
      | [] => (FetchNil, w)
      | ms :: q =>
          (Fetched (map (fun m => (m.1, Some (match m.2 with
             | inl (id, req) => inl (job_of id (normalize req)) | inr err => inr err end))) ms), (q, w.2))
      end
  | c => (default_reply c, w)
  end.

#[local] Existing Instances queueing Lifecycle.plain_text.

#[local] Instance queueing_sleeps : SleepLaws snd.
Proof.
  split; unfold env_step, queueing.
  - intros e r e' [= <- <-]. lia.
  - intros c e r e' Heq. destruct c; try (injection Heq; intros; subst; simpl; lia).
    destruct e.1; injection Heq; intros; subst; simpl; lia.
  - intros n e r e' Hn [= <- <-]. simpl. lia.
Qed.

#[local] Instance queueing_jobs : JobLaws.
Proof.
  intros e r e'. unfold env_step, queueing. destruct e.1 as [|ms q]; intros Heq; injection Heq as <- _; [done|].
  apply Forall_forall. intros m (x & -> & _)%list_elem_of_fmap. unfold from_gateway. simpl.
  destruct x as [i [[id req]|err]]; simpl; [by exists id, req|done].
Qed.

Definition demo_queue : World queue_clock () :=
  mkWorld ([[("1", inl ("run1", mkRunReq "sub1" 620 0 0))]; [("2", inr "unexpected end of JSON input");
            ("3", inl ("run2", mkRunReq "sub1" 1000000 (-3) 0))]], 0) tt [].

Lemma queued_jobs_are_finished_witness :
  let o := orch_config (fun _ => ""%string) 8 in
  wp (orch_main 391 o 3) (fun _ w' => exists msgs tr,
    trace w' = trace demo_queue ++ tr /\ session job_event (worked o) 3 msgs tr) demo_queue.
Proof. exact (queued_jobs_are_finished snd (fun _ => ""%string) 8 3 demo_queue). Defined.

(** ** Witness: two shards of a job on the fleet, and their verdict *)

#[local] Existing Instances toy_math plain_order plain_laws.

Definition two_shards : RunJob := mkRunJob "run1" "sub1" 300 30 4000.
Definition demo_plans : list plan :=
  [([demo_others], [AddSent; RecordLat 90; AddAcked; TickAck 9]); ([fun _ => []], [AddSent; AddErrors; TickErr 9])].

(** The batches a shard ships on an engine that is not asked. *)
Definition batch_of_event (e : event) : list TelemetryBatch :=
  match e with existT (XAdd _ (MBatch b)) _ => [b] | _ => [] end.
Definition shipped_on (s : LoadShard) (p : plan) : list TelemetryBatch :=
  match runShard (Env0 := dead_engine) p.1 p.2 s demo_start with
  | Ok (_, v) => concat (map batch_of_event (trace v))
  | _ => []
  end.
Definition demo_bss : list (list TelemetryBatch) := zip_with shipped_on (shards_of two_shards 2 [11; 12]) demo_plans.

(** The second shard's first batch overtakes the first shard's. *)
Definition demo_arrival : list TelemetryBatch :=
  match demo_bss with [[a; b]; [c; d]] => [c; a; d; b] | _ => [] end.

Lemma demo_ran : Forall3 (ran (Env0 := dead_engine)) (shards_of two_shards 2 [11; 12]) demo_plans demo_bss.
Proof.
  constructor; [|constructor; [|constructor]]; (exists demo_start; eexists _, [None; None]; split; [vm_compute; reflexivity|];
    split; vm_compute; reflexivity).
Qed.

Lemma demo_interleaved : interleaved demo_bss demo_arrival.
Proof.
  assert (exists a b c d, demo_bss = [[a; b]; [c; d]]) as (a & b & c & d & Hbss)
    by (do 4 eexists; vm_compute; reflexivity).
  unfold demo_arrival. rewrite Hbss.
  apply (interleaved_next _ 1%nat _ [d]); [done|]. apply (interleaved_next _ 0%nat _ [b]); [done|].
  apply (interleaved_next _ 1%nat _ []); [done|]. apply (interleaved_next _ 0%nat _ []); [done|].
  apply interleaved_end. repeat constructor.
Qed.

#[local] Existing Instances feeding feeding_text.

Definition demo_arriving : World feed ingester :=
  mkWorld [map (fun b => ("1", inl b)) (take 3 demo_arrival); map (fun b => ("2", inl b)) (drop 3 demo_arrival)] idle_ingester [].

Lemma verdict_counts_what_bots_did_witness :
  wp (ingester_main "" 2) (fun _ w' => exists a m sc,
    verdicts_of "run1" (trace w') = [HSet "result:run1" (result_fields m a sc true)]
    /\ ag_sent a = 4) demo_arriving.
Proof.
  destruct (verdict_counts_what_bots_did (Env0 := dead_engine) "" demo_orch two_shards [11; 12] demo_plans demo_bss demo_arrival 2
    demo_arriving eq_refl ltac:(done) ltac:(vm_compute; reflexivity) ltac:(vm_compute; discriminate)
    demo_ran demo_interleaved idle_ingester_ok eq_refl) as ([] & w' & Hrun & tr & Ht & Hdone).
  exists tt, w'. split; [exact Hrun|]. simpl in Ht. subst tr. destruct Hdone as (a & m & sc & Hv & _ & Hc & _).
  - assert (trace w' = match ingester_main "" 2 demo_arriving with Ok (_, w) => trace w | _ => [] end) as -> by (rewrite Hrun; reflexivity).
    vm_compute. reflexivity.
  - exists a, m, sc. split; [exact Hv|]. etransitivity; [exact (Hc CSent)|]. vm_compute. reflexivity.
Defined.
