(* ===== verification/FullMarks.v ===== *)
(** * What an honest engine earns

    The whole way of a run: the orchestrator starts an engine that keeps
    price-time priority and probes it, the bots of all shards fire at it, and
    the ingester judges. The engine gets every mark for correctness, and its
    score depends on nothing but its speed. *)
From S2P Require Import Prelude Protocol Float64 Text IO Consumer Calls Store Counters Hist HistProps Score ScoreProps.
From S2P Require Import Book PriorityBook PriorityFacts BookRefine BookProps Conformance ConformanceProps RefEngine RefEngineProps.
From S2P Require Import Bot BotProps BotTurn HonestBots Fleet FleetProps.
From S2P Require Import Ingester IngesterMetrics IngesterProps IngesterStream Snapshot.
From S2P Require Import Orchestrator OrchestratorProps Lifecycle Interleave Pipeline.
Local Open Scope Z_scope.

(** ** The probe of a sandbox *)

Definition is_docker (c : call) : bool := match c with Docker _ _ => true | _ => false end.

Section probe.
Context {W : Type} `{!Env W, !Strconv} (o : orch) (job : RunJob) (sim : PBook -> W -> Prop).

(** The image of the job holds an engine that keeps price-time priority: it
    has an empty book when its container has started, [sim pb e] saying that
    its book is [pb] in the state [e] of the world, and nobody but the
    orchestrator knows it yet, so that only requests to it change its book. *)
Class Sandbox : Prop := {
  sandbox_starts e out e' : env_step (run_call o job) e = ((out, false), e') -> sim pb_empty e';
  sandbox_quiet pb c e r e' :
    sim pb e -> is_docker c = false -> is_request (ev c r) = false -> env_step c e = (r, e') -> sim pb e';
  sandbox_engine :: PriorityEngine (target_of job) sim
}.

Lemma quiet_runs `{!Sandbox} pb e tr e' :
  runs e tr e' -> Forall (fun x => is_docker (called x) = false /\ is_request x = false) tr -> sim pb e -> sim pb e'.
Proof.
  induction 1 as [e|e c r e1 tr e2 He _ IH]; [done|]. intros [[Hd Hq] Hall]%Forall_cons Hs.
  apply IH; [done|]. by eapply sandbox_quiet.
Qed.

(** A stretch that writes one field of a hash leaves the engine alone. *)
Lemma hset_quiet key fields tr :
  writes tr = [HSet key fields] -> Forall (fun x => is_docker (called x) = false /\ is_request x = false) tr.
Proof.
  intros Hw. apply Forall_forall. intros x Hx.
  assert (is_write (called x) = true -> called x = HSet key fields) as Hc.
  { intros Hx'. apply list_elem_of_singleton. rewrite <- Hw. apply list_elem_of_In, filter_In.
    split; [|done]. apply in_map. by apply list_elem_of_In. }
  unfold is_request. destruct (called x); try done; exfalso; by discriminate Hc.
Qed.

Lemma runs_answered target steps rs e e' :
  length rs = length steps -> runs e (zip_with (probe_event target) steps rs) e' -> answered target steps rs e e'.
Proof.
  revert rs e. induction steps as [|st steps IH]; intros [|r rs] e Hlen Hr; try done; simpl in *.
  { remember [] as l eqn:Hl. by destruct Hr. }
  apply runs_inv in Hr as (e1 & He & Hr). exists e1. split; [|by apply IH; [lia|]].
  unfold answers, to_request. unfold probe_event in He. by destruct (negb (String.eqb (cancel st) "")).
Qed.

Lemma probe_agreed `{!Sandbox} e tr e' rs :
  runs e tr e' -> length rs = length scenario -> probed o job tr rs -> Forall2 agrees expected rs.
Proof.
  intros Hr Hlen (tr1 & out & tr2 & tr3 & -> & Hw). apply runs_split in Hr as (e1 & _ & Hr).
  apply runs_inv in Hr as (e2 & He & Hr). apply runs_split in Hr as (e3 & Hr2 & Hr). apply runs_split in Hr as (e4 & Hr & _).
  assert (sim pb_empty e3) as Hs by (eapply quiet_runs; [exact Hr2|by eapply hset_quiet|exact (sandbox_starts _ out _ He)]).
  eapply engine_agrees; [exact sandbox_engine|exact Hs|decide_now|exact (runs_answered _ _ _ _ _ Hlen Hr)].
Qed.

Definition recorded_call (score detail : string) : call :=
  set_call job [("conformance_score", VStr score); ("conformance_detail", VStr detail)].

Lemma full_text rs :
  length rs = length scenario -> Forall2 agrees expected rs ->
  fixed 4 (F64.div (F64.of_Z (total_marks expected rs)) (F64.of_Z 30)) = "1.0000"%string.
Proof. intros Hlen Hall. apply total_marks_full in Hall; [|by rewrite Hlen]. rewrite Hall. vm_compute. reflexivity. Qed.

(** Either no load was dispatched, or the shards were, after a perfect probe. *)
Definition passed (tr : list event) : Prop :=
  (forall s, XAdd Orchestrator.streamLoad (MShard s) ∉ writes tr)
  \/ exists nows pre post, length nows = Z.to_nat (shard_count o job)
     /\ writes tr = pre ++ load_calls (shards_of job (shard_count o job) nows) ++ post
     /\ recorded_call "1.0000" "all checks passed" ∈ pre
     /\ forall score detail, recorded_call score detail ∈ writes tr -> score = "1.0000"%string.

Lemma filter_probe f target steps : List.filter (sets f) (map (probe_call target) steps) = [].
Proof. induction steps as [|st steps IH]; [done|]. simpl. unfold probe_call at 1. by destruct (negb (String.eqb (cancel st) "")). Qed.

Lemma filter_load f l : List.filter (sets f) (load_calls l) = [].
Proof. by induction l. Qed.

Lemma story_passed `{!Sandbox} e tr e' : runs e tr e' -> story o job tr -> passed tr.
Proof.
  intros Hr Hs.
  destruct Hs as [t msg t' Hw|t out t' Hw|t out t' Hw|t logs t' Hw|t rs detail nows last _ Hlen Hp Hd Hn Hlast Hw];
    [left; intros s; rewrite Hw; simpl; set_solver..|right].
  pose proof (probe_agreed _ _ _ rs Hr Hlen Hp) as Hall. rewrite (proj2 Hd Hall), (full_text rs Hlen Hall) in Hw.
  eexists nows, _, (last ++ cleanup job). split; [done|]. split; [by rewrite Hw, !app_assoc|].
  split; [rewrite !elem_of_app; right; left|].
  intros score detail' Hin. assert (recorded_call score detail' ∈ List.filter (sets "conformance_score") (writes tr)) as Hf.
  { apply list_elem_of_In, filter_In. split; [by apply list_elem_of_In|reflexivity]. }
  rewrite Hw, !List.filter_app, filter_probe, filter_load in Hf.
  assert (List.filter (sets "conformance_score") (last ++ cleanup job) = []) as Hl.
  { by destruct Hlast as [[-> _]|[t' ->]]. }
  rewrite <- List.filter_app, Hl in Hf. apply list_elem_of_singleton in Hf. by injection Hf.
Qed.
End probe.

(** ** The bots in front of it *)

(** The counters after some operations, as the [int64] they are. *)
Lemma exec_ops_wrap `{!Math} c ops st :
  Int64.wrap (st_count c (exec_ops ops st)) = Int64.wrap (st_count c st + count (op_is c) ops).
Proof.
  revert st. induction ops as [|op ops IH]; intros st; [by rewrite Z.add_0_r|].
  simpl. rewrite (IH (exec_op op st)), exec_op_count, count_cons. case_match; [|f_equal; lia].
  etransitivity; [exact (Int64.add_wrap_l (st_count c st + 1) _)|]. unfold Int64.add. f_equal. lia.
Qed.

(** The violations are read off the counters. *)
Lemma same_violations `{!Math} ops ops' :
  exec_ops ops newShard = exec_ops ops' newShard -> bounded ops -> count is_violation ops' = 0 -> count is_violation ops = 0.
Proof.
  intros Heq Hb Hz. pose proof (exec_ops_wrap CViolations ops newShard) as H1.
  pose proof (exec_ops_wrap CViolations ops' newShard) as H2. rewrite Heq, H2 in H1. simpl in H1. rewrite Hz in H1.
  pose proof (count_range is_violation ops). unfold bounded in Hb.
  rewrite (Int64.wrap_id (0 + count _ _)) in H1; [by rewrite Z.add_0_l in H1|].
  unfold Int64.in_range, Int64.min_val, Int64.max_val. lia.
Qed.

Section bots.
Context `{!Math} {W : Type} `{!Env W, !Strconv} (bad_url : string -> option string) (clock : W -> Z)
  (log : list request -> W -> Prop).

(** A bot of the shard ran to its deadline, with counters of its own, and did
    [ops]; the engine served less than 2^63 requests. *)
Definition bot_ran (shard : LoadShard) (idx : Z) (ops : list bot_op) : Prop :=
  exists start deadline fuel qs b tr (w w' : World W shardState),
    urls_ok bad_url shard idx /\ Z.max 0 (deadline - clock (env w)) < Z.of_nat fuel
    /\ log qs (env w) /\ Forall sane qs /\ local w = newShard
    /\ bot bad_url fuel shard idx start deadline w = Ok (b, w') /\ did w w' ops tr
    /\ forall qs', log qs' (env w') -> Z.of_nat (length qs') <= Int64.max_val.

(** What the plan of a shard interleaves is what its bots did. *)
Definition fired_by (shard : LoadShard) (p : plan) : Prop :=
  exists opss, length opss = Z.to_nat (ls_bots shard) /\ done_by p ≡ₚ concat opss
  /\ forall i ops, opss !! i = Some ops -> bot_ran shard (Z.of_nat i) ops.

Context `{!RandLaws} `{!ClockLaws clock} (target : string) `{!SharedEngine target log}.

Lemma bot_ran_clean shard idx ops :
  ls_target shard = target -> bounded ops -> bot_ran shard idx ops -> count is_violation ops = 0.
Proof.
  intros <- Hb (start & deadline & fuel & qs & b & tr & w & w' & Hu & Hf & Hl & Hq & Hnew & Hrun & Hd & Hlen).
  destruct (honest_bot bad_url clock log shard idx start deadline fuel qs w) as (b' & w1 & Hrun' & Hpost); [done..|].
  rewrite Hrun in Hrun'. injection Hrun' as <- <-. destruct Hpost as (ops' & tr' & more & (Hd' & _) & _ & Hlog & Hnone).
  destruct (Hnone (Hlen _ Hlog)) as [_ Hz]. destruct Hd as [Hd _]. rewrite Hnew in Hd, Hd'.
  eapply same_violations; [|done|exact Hz]. by rewrite <- Hd, <- Hd'.
Qed.

Lemma count_concat_zero P (ls : list (list bot_op)) : Forall (fun l => count P l = 0) ls -> count P (concat ls) = 0.
Proof. induction 1 as [|l ls Hl _ IH]; [done|]. simpl. by rewrite count_app, Hl, IH. Qed.

Lemma bounded_part (l : list bot_op) ls : bounded (concat ls) -> l ∈ ls -> bounded l.
Proof.
  intros Hb (ls1 & ls2 & ->)%list_elem_of_split. rewrite concat_app in Hb. apply bounded_app in Hb as [_ Hb].
  simpl in Hb. by apply bounded_app in Hb as [Hb _].
Qed.

Lemma fired_by_clean shard p :
  ls_target shard = target -> bounded (done_by p) -> fired_by shard p -> count is_violation (done_by p) = 0.
Proof.
  intros Ht Hb (opss & _ & Hp & Hops). rewrite (count_perm _ _ _ Hp). unfold bounded in Hb. rewrite Hp in Hb.
  apply count_concat_zero, Forall_forall. intros ops Hin. pose proof Hin as [i Hi]%list_elem_of_lookup.
  eapply bot_ran_clean; [done|by eapply bounded_part|by apply (Hops i)].
Qed.

Lemma job_clean job n nows plans :
  target = target_of job -> bounded (concat (map done_by plans)) -> Forall2 fired_by (shards_of job n nows) plans ->
  count is_violation (concat (map done_by plans)) = 0.
Proof.
  intros Ht Hb Hf. apply count_concat_zero, Forall_forall. intros ops (p & -> & Hin)%list_elem_of_fmap.
  pose proof Hin as [k Hk]%list_elem_of_lookup. destruct (Forall2_lookup_r _ _ _ _ _ Hf Hk) as (s & Hs & Hfs).
  eapply fired_by_clean; [|by eapply bounded_member|exact Hfs]. rewrite Ht.
  unfold shards_of in Hs. by apply lookup_zip_with_Some in Hs as (i & now & -> & _).
Qed.
End bots.

(** ** The verdict on it *)

(** The ingester never sets the conformance of a run. *)
Section quiet.
Context `{!Math, !RangeOrder} {W : Type} `{!Env W, !Strconv} (pgDSN : string).

Definition leaves_conformance (c : call) : bool := negb (sets "conformance_score" c).
Abbreviation quiet := (makes (W := W) (L := ingester) leaves_conformance).

Lemma quiet_writeResult run m a sc final : quiet (writeResult run m a sc final).
Proof. apply (makes_perform _ (HSet _ _)). unfold result_fields. by destruct (ag_samples a), final. Qed.

Lemma quiet_load p : quiet (load_agg p).
Proof. unfold load_agg. makes. Qed.

Lemma quiet_board_rows rank members : quiet (board_rows rank members).
Proof. revert rank. induction members as [|[sub sc] members IH]; intros rank; simpl; [makes|]. unfold board_row. makes. Qed.

Lemma quiet_finalize run p : quiet (finalize pgDSN run p).
Proof.
  pose proof quiet_load. pose proof quiet_writeResult. pose proof quiet_board_rows.
  unfold finalize, update_board, publishSnapshot, persist. makes.
Qed.

Lemma quiet_live run p : quiet (live run p).
Proof. pose proof quiet_load. pose proof quiet_writeResult. unfold live. makes. Qed.

Lemma quiet_main n : quiet (ingester_main pgDSN n).
Proof.
  pose proof quiet_load. pose proof quiet_finalize. pose proof quiet_live.
  apply makes_turns; [done|makes|]. intros m. unfold ingest, absorb, absorb_locked. makes.
Qed.
End quiet.

Section verdict.
Context `{!Math, !Log10Laws, !RangeOrder, !Strconv}.

(** Full marks: the correctness is 1, and so is the conformance the score was
    computed with; the score is a number from 30 to 100. *)
Definition full_marks (m : metrics) (sc : F64.t) : Prop :=
  m_correctness m = F64.of_Z 1
  /\ sc = Composite (m_p99 m) (m_tps m) (F64.of_Z 1) (F64.of_Z 1)
  /\ exists z, F64.num sc z /\ 30 * F64.one_u <= z <= 100 * F64.one_u.

Lemma full_correctness x y a b : F64.num x a -> F64.num y b -> a = F64.one_u -> b = F64.one_u -> F64.num (correctness x y) F64.one_u.
Proof.
  intros Hx Hy -> ->. pose proof F64.one_u_pos. pose proof (correctness_num x y _ _ Hx Hy ltac:(lia) ltac:(lia)) as Hn.
  assert (cor_u F64.one_u F64.one_u = F64.one_u) as Heq by (vm_compute; reflexivity). by rewrite Heq in Hn.
Qed.

Lemma total_u_correct : total_u 0 0 F64.one_u = 30 * F64.one_u.
Proof. vm_compute. reflexivity. Qed.

(** Whatever the speed. *)
Lemma correct_score p tps t :
  Int64.in_range p -> F64.num tps t ->
  exists z, F64.num (Composite p tps (F64.of_Z 1) (F64.of_Z 1)) z /\ 30 * F64.one_u <= z <= 100 * F64.one_u.
Proof.
  intros Hp Ht. pose proof F64.one_u_pos. pose proof (F64.of_Z_num_exact 1 ltac:(lia)) as Hone1. rewrite Z.mul_1_l in Hone1.
  destruct (composite_num p tps (F64.of_Z 1) (F64.of_Z 1) t F64.one_u F64.one_u) as (x & y & c & _ & _ & Hc & Rx & Ry & Rc & Hn).
  { by split; try lia. }
  rewrite (F64.num_inj _ _ _ Hc (full_correctness _ _ _ _ Hone1 Hone1 eq_refl eq_refl)) in Hn.
  eexists. split; [exact Hn|]. rewrite <- total_u_correct, <- total_u_full. split; apply total_u_mono; lia.
Qed.

(** The counts of a run of few operations are small. *)
Lemma whole_small run ops tr a m sc :
  whole_verdict run ops tr a m sc -> Z.of_nat (length ops) <= 2 ^ 50 -> verdict_small a.
Proof.
  intros [_ _ _ Hc Ht] Hlen. pose proof (Hc CAcked) as Ha. pose proof (Hc CViolations) as Hv. simpl in Ha, Hv.
  pose proof (count_range is_acked ops). pose proof (count_range is_violation ops).
  assert (forall t s, small_count (at_key (ag_table t a) s)) as Hs.
  { intros t s. rewrite (proj1 (Ht t s)). pose proof (tally_bounds (s =.) (keys t ops)). pose proof (keys_length t ops).
    unfold small_count. lia. }
  split; [|lia]. intros s. split; [exact (Hs TAcks s)|exact (Hs TErrs s)].
Qed.

(** What the verdict on a run without violations says of it: it is computed
    from exactly what its bots did; its conformance is 1, and its correctness
    when anything was acked, which is all it takes. *)
Record clean_marks (run : string) (ops : list bot_op) (tr : list event) (a : runAgg) (m : metrics) (sc : F64.t) : Prop := mkClean {
  cm_written : verdicts_of run tr = [HSet ("result:" +:+ run) (result_fields m a sc true)];
  cm_metrics : compute a = Some m;
  cm_counts c : ag_count c a = count (op_is c) ops;
  cm_tables t : hist_of (keys t ops) (ag_table t a);
  cm_clean : count is_violation ops = 0;
  cm_score : sc = Composite (m_p99 m) (m_tps m) (m_correctness m) (F64.of_Z 1);
  cm_acked : 0 < count is_acked ops -> full_marks m sc;
  cm_silent : count is_acked ops = 0 -> m_correctness m = F64.zero
}.

Lemma clean_verdict run ops tr a m sc :
  whole_verdict run ops tr a m sc -> Z.of_nat (length ops) <= 2 ^ 50 -> count is_violation ops = 0 ->
  (forall r, ev (HGet ("run:" +:+ run) "conformance_score") r ∈ tr -> r = Some "1.0000"%string) ->
  clean_marks run ops tr a m sc.
Proof.
  intros Hw Hlen Hz Hconf. pose proof (whole_small _ _ _ _ _ _ Hw Hlen) as Hs.
  destruct Hw as [Hv Hm (conf & Hin & Hscore) Hc Htab]. rewrite (Hconf _ Hin) in Hscore.
  destruct (compute_parts a m Hm) as (_ & Hp & Htps & Hcor).
  assert (parseFloat "1.0000" = F64.of_Z 1) as Hpf by (vm_compute; reflexivity).
  unfold score_with in Hscore. rewrite Hpf in Hscore. split; [done|done|done|done|done|done| |].
  - intros Hpos. destruct (perfect_run a m ops Hm Hc ltac:(lia)) as (c & Hnum & [_ Hone]). rewrite (Hone (conj Hpos Hz)) in Hnum.
    destruct (correctness_unsigned a Hs) as (u & Hr & Heq). destruct (max_tps_count a (proj1 Hs)) as (t & Ht & Htp).
    rewrite Hcor, Heq in Hnum. pose proof (F64.num_inj _ _ _ Hnum (F64.num_Fin u (proj1 Hr))) as <-.
    assert (m_correctness m = F64.of_Z 1) as Hone1 by (rewrite Hcor, Heq, F64.of_Z_exact by lia; by rewrite Z.mul_1_l).
    rewrite Hone1 in Hscore. subst sc. unfold full_marks. split; [exact Hone1|]. split; [reflexivity|].
    eapply correct_score; [done|]. rewrite Htps, Htp. by apply F64.of_Z_num_exact.
  - intros Hnone. pose proof (Hc CAcked) as Hack. simpl in Hack. rewrite Hcor. unfold correctness_of. by rewrite Hack, Hnone.
Qed.
End verdict.

(** ** The whole way *)

Section honest.
Context `{!Math, !Log10Laws, !RangeOrder, !RangeLaws, !Strconv}.

(** What the worlds have in common is what the services hand on: the shards of
    the job, the batches they ship, and the conformance in the store. *)
Context {B V W : Type} `{!Env B} `{!Env V} `{!Env W}.
Context (bad_url : string -> option string) (clock : B -> Z) (log : list request -> B -> Prop)
  (says : string -> W -> Prop) (pgDSN : string).

(** Whatever the bots of the shards do in whatever order their batches arrive,
    when all have arrived there is one verdict, and it is without a blemish. *)
Definition earns_full_marks (job : RunJob) (shards : list LoadShard) (orchestrated : list call) : Prop :=
  forall (plans : list plan) (bss : list (list TelemetryBatch)) (l : list TelemetryBatch) (k : nat) (w : World W ingester),
    let ops := concat (map done_by plans) in
    Forall2 (fired_by bad_url clock log) shards plans -> Forall3 (ran (V := V)) shards plans bss -> interleaved bss l ->
    Z.of_nat (length ops) <= 2 ^ 50 ->
    ing_ok (local w) -> ing_runs (local w) !! rj_run job = None ->
    (forall score detail, recorded_call job score detail ∈ orchestrated -> says score (env w)) ->
    wp (ingester_main pgDSN k) (fun _ w' => exists tr, trace w' = trace w ++ tr
      /\ (l = of_run (rj_run job) (batches (delivered tr)) -> exists a m sc, clean_marks (rj_run job) ops tr a m sc)) w.

Lemma perfect_earns `{!RandLaws (W := B)} `{!ClockLaws clock} `{!TextLaws (W := W)} (o : orch) (job : RunJob) (nows : list Z) (orchestrated : list call) :
  SharedEngine (target_of job) log -> Recorded ("run:" +:+ rj_run job) "conformance_score" says ->
  botsPerShard o = 250 -> 1 <= rj_bots job <= 2 ^ 47 -> length nows = Z.to_nat (shard_count o job) ->
  recorded_call job "1.0000" "all checks passed" ∈ orchestrated ->
  earns_full_marks job (shards_of job (shard_count o job) nows) orchestrated.
Proof.
  intros Heng Hrec Ho Hb Hn Hin plans bss l k w ops Hfired Hran Hl Hlen Hok Hnone Hsays.
  assert (bounded ops) as Hops by (unfold bounded; lia).
  pose proof (job_clean bad_url clock log (target_of job) job _ _ plans eq_refl Hops Hfired) as Hz.
  pose proof (job_verdict (V := V) pgDSN o job nows plans bss l k w Ho Hb Hn Hops Hran Hl Hok Hnone) as Hv.
  destruct Hv as ([] & w' & Hrun & tr & Ht & Hv). exists tt, w'. split; [exact Hrun|]. exists tr. split; [exact Ht|].
  intros Hall. destruct (Hv Hall) as (a & m & sc & Hw). exists a, m, sc.
  eapply (clean_verdict _ _ _ _ _ _ Hw); [exact Hlen|exact Hz|].
  destruct (quiet_main pgDSN k w tt w' Hrun) as (tr2 & Ht2 & Hr & Hq). rewrite Ht in Ht2. apply app_inv_head in Ht2 as <-.
  eapply recorded_runs; [exact Hrec|exact Hr|by eapply Hsays|exact Hq].
Qed.

(** C7. An honest engine gets full marks. The orchestrator, with some number of
    cores to pin to, handles a job whose image holds an engine that keeps
    price-time priority, while every bot of the fleet meets it as an engine
    shared with all others, replies being lost or not. Either no load is
    dispatched, because the sandbox did not come up; or the probe is passed,
    recorded as 1.0000 with "all checks passed" before the shards are
    dispatched, and then, whatever the bots send, up to 2^50 operations of
    theirs, however bots and flushers interleave and in whatever order the
    batches arrive: no bot saw a violation, and the ingester gives one verdict
    on the run. Its counters, its latencies and its tallies of seconds count
    exactly what the bots did; its score is the composite of their p99 and
    throughput, of its correctness and of a conformance of 1. When any reply
    got through its correctness is 1 and its score a number from 30 to 100,
    which then depends on the engine's latency and throughput only; when all
    were lost its correctness is 0. *)
Theorem honest_engine_gets_full_marks {U : Type} `{!Env U} (timer : U -> Z) (sim : PBook -> U -> Prop)
    (o : orch) (job : RunJob) (fuel : nat) (u : World U ()) :
  SleepLaws timer -> Sandbox o job sim -> RandLaws (W := B) -> ClockLaws clock -> TextLaws (W := W) ->
  SharedEngine (target_of job) log -> Recorded ("run:" +:+ rj_run job) "conformance_score" says ->
  botsPerShard o = 250 -> cores o <> 0 -> 1 <= rj_bots job <= 5000 -> 0 <= rj_duration job <= 2 ^ 32 -> (life_fuel job <= fuel)%nat ->
  wp (Orchestrator.handle fuel o job) (fun _ u' => exists tr, trace u' = trace u ++ tr
    /\ ((forall s, XAdd Orchestrator.streamLoad (MShard s) ∉ writes tr)
        \/ exists nows pre post, length nows = Z.to_nat (shard_count o job)
           /\ writes tr = pre ++ load_calls (shards_of job (shard_count o job) nows) ++ post
           /\ recorded_call job "1.0000" "all checks passed" ∈ pre
           /\ (forall score detail, recorded_call job score detail ∈ writes tr -> score = "1.0000"%string)
           /\ earns_full_marks job (shards_of job (shard_count o job) nows) (writes tr))) u.
Proof.
  intros Hsleep Hsand Hrand Hclock Htext Heng Hrec Ho Hc Hb Hd Hf.
  eapply wp_mono; [by apply (handle_ok timer)|]. intros [] u' (tr & (_ & Ht & Hr) & Hs). exists tr. split; [exact Ht|].
  destruct (story_passed o job sim _ _ _ Hr Hs) as [Hno|(nows & pre & post & Hn & Hw & Hin & Hone)]; [by left|right].
  exists nows, pre, post. split; [exact Hn|]. split; [exact Hw|]. split; [exact Hin|]. split; [exact Hone|].
  apply perfect_earns; [done|done|done|lia|done|]. rewrite Hw. apply elem_of_app. by left.
Qed.
End honest.

(** ** Witness: the example engine, one bot, one shard *)

#[local] Existing Instances BotTurn.plain_text ScoreProps.rough_math ScoreProps.rough_laws plain_order plain_laws.

Definition honest_job : RunJob := mkRunJob "run1" "sub1" 1 1 4.
Definition zero_rand (g : unit) : F64.t * unit := (F64.zero, g).
Definition honest_engine : Env (RefEngine.Server unit) := serve zero_rand Z.succ 20 false (target_of honest_job).

(** A host whose docker starts the example engine afresh, and a clock. *)
Definition sandboxed : Env (RefEngine.Server unit * Z) := fun c w =>
  match c return reply c * (RefEngine.Server unit * Z) with
  | Docker _ _ => ((""%string, false), (RefEngine.mkServer RefEngine.newBook tt 0, w.2))
  | HttpGet _ => (Some 200, w)
  | HGet _ _ => (Some "done"%string, w)
  | Now => (w.2, w)
  | Sleep n => (tt, (w.1, w.2 + Z.max 0 n))
  | c => ((honest_engine c w.1).1, ((honest_engine c w.1).2, w.2))
  end.

Definition hosts (pb : PBook) (w : RefEngine.Server unit * Z) : Prop := serves pb w.1.

#[local] Instance sandboxed_sleeps : SleepLaws (Env0 := sandboxed) snd.
Proof.
  split; unfold env_step, sandboxed.
  - intros e r e' [= <- <-]. lia.
  - intros c e r e' Heq. destruct c; injection Heq as _ <-; simpl; lia.
  - intros n e r e' Hn [= <- <-]. simpl. lia.
Qed.

#[local] Instance sandboxed_sandbox : Sandbox (Env0 := sandboxed) demo_orch honest_job hosts.
Proof.
  split.
  - intros e out e' [= <- <-]. split; [exact Inv_New|reflexivity].
  - intros pb c e r e' Hs Hd Hq. unfold env_step, sandboxed, hosts.
    destruct c; try discriminate Hd; try discriminate Hq; intros [= _ <-]; exact Hs.
  - intros q pb e Hs Hok Hplain. destruct (serve_answers zero_rand Z.succ 20 (target_of honest_job) q pb e.1 Hs Hok Hplain) as (s & Ha & Hs').
    exists (with_ts (RefEngine.sv_clock e.1) (pb_handle q pb).1), (s, e.2). split; [|by split_and!].
    destruct q; exact (f_equal (fun x => (x.1, (x.2, e.2))) Ha).
Qed.

(** The bot sends one order. *)
Definition meeting : Env (RefEngine.Server unit * Z) := bench zero_rand Z.succ 20 (target_of honest_job).
Definition one_order : list bot_op := [AddSent; RecordLat 1; AddAcked; TickAck 0].
Definition one_plan : plan := ([], one_order).

Definition alone : World (RefEngine.Server unit * Z) shardState := mkWorld (RefEngine.mkServer RefEngine.newBook tt 0, 0) newShard [].

Lemma demo_served : served [] (env alone).
Proof. split; [split; [exact Inv_New|reflexivity]|discriminate]. Qed.

Definition one_shard (now : Z) : LoadShard := shard_of honest_job 1 0 now.

Lemma one_bot now : bot_ran (Env0 := meeting) (fun _ => None) snd served (one_shard now) 0 one_order.
Proof.
  destruct (honest_bot (Env0 := meeting) (fun _ => None) snd served (one_shard now) 0 0 8 101 [] alone)
    as (b & w' & Hrun & ops & tr & more & Hd & _ & _ & _).
  - exact (bench_rand _ _ _ _).
  - exact (bench_clock _ _ _ _).
  - exact (bench_shared _ _ _ _).
  - by split.
  - reflexivity.
  - exact demo_served.
  - constructor.
  - pose (result := final_world (bot (Env0 := meeting) (fun _ => None) 101 (one_shard now) 0 0 8) alone).
    pose proof (final_world_ok _ _ _ _ Hrun : w' = result) as Hw.
    assert (local result = exec_ops one_order newShard) as Hl by (vm_compute; reflexivity).
    assert ((env result).2 = 14) as Ht by (vm_compute; reflexivity).
    exists 0, 8, 101%nat, [], b, tr, alone, w'. split; [by split|]. split; [reflexivity|].
    split; [exact demo_served|]. split; [constructor|]. split; [reflexivity|]. split; [exact Hrun|]. split.
    + destruct Hd as (_ & Htr & Hr). rewrite Hw in Htr, Hr |- *. split_and!; [exact Hl|exact Htr|exact Hr].
    + intros qs' [_ Hlen]. rewrite Hw, Ht in Hlen. unfold Int64.max_val. lia.
Qed.

Lemma one_fired now : fired_by (Env0 := meeting) (fun _ => None) snd served (one_shard now) one_plan.
Proof.
  exists [one_order]. split; [reflexivity|]. split; [by vm_compute|].
  intros i ops [-> <-]%list_lookup_singleton_Some. apply one_bot.
Qed.

(** The telemetry of the shard, on a store that is not asked. *)
Definition one_shipment : list TelemetryBatch := shipped_on (one_shard 0) one_plan.

Lemma one_ran now : ran (Env0 := dead_engine) (one_shard now) one_plan one_shipment.
Proof. exists demo_start. eexists _, [None]. split; [vm_compute; reflexivity|]. split; vm_compute; reflexivity. Qed.

(** A store that delivers given messages and has recorded a perfect probe. *)
Definition recording : Env feed := fun c w =>
  match c return reply c * feed with
  | HGet _ f => (if String.eqb f "conformance_score" then Some "1.0000"%string else None, w)
  | ReadBatches _ _ _ =>
      match w with [] => (FetchNil, []) | ms :: w' => (Fetched (map (fun m => (m.1, Some m.2)) ms), w') end
  | c => (default_reply c, w)
  end.

#[local] Instance recording_text : TextLaws (Env0 := recording).
Proof.
  intros e r e'. unfold env_step, recording. destruct e as [|ms e]; intros Heq; injection Heq as <- _; [done|].
  apply Forall_forall. intros m (x & -> & _)%list_elem_of_fmap. by eexists.
Qed.

Definition says_perfect (v : string) (e : feed) : Prop := v = "1.0000"%string.

#[local] Instance recording_recorded : Recorded (Env0 := recording) "run:run1" "conformance_score" says_perfect.
Proof.
  split.
  - intros v e r e' -> Heq. unfold env_step, recording in Heq. injection Heq as <- _. reflexivity.
  - intros v c e r e' Hv _ _. exact Hv.
Qed.

Definition demo_up : World (RefEngine.Server unit * Z) () := mkWorld (RefEngine.mkServer RefEngine.newBook tt 0, 0) tt [].
Definition demo_reading : World feed ingester := mkWorld [map (fun b => ("1", inl b)) one_shipment] idle_ingester [].

Definition is_load (c : call) : bool := match c with XAdd s (MShard _) => String.eqb s Orchestrator.streamLoad | _ => false end.

Lemma is_load_shard c : is_load c = true -> exists s, c = XAdd Orchestrator.streamLoad (MShard s).
Proof.
  destruct c; try discriminate. match goal with msg : message |- _ => destruct msg as [|s|] end; try discriminate.
  intros ->%String.eqb_eq. by exists s.
Qed.

(** The load of this job is dispatched. *)
Lemma demo_dispatched u' :
  Orchestrator.handle (Env0 := sandboxed) 200 demo_orch honest_job demo_up = Ok ((), u') -> existsb is_load (writes (trace u')) = true.
Proof.
  intros Hrun%final_world_ok. subst u'. vm_compute. reflexivity.
Qed.

Lemma one_arrival : interleaved [one_shipment] one_shipment.
Proof.
  assert (exists b, one_shipment = [b]) as (b & ->) by (eexists; vm_compute; reflexivity).
  apply (interleaved_next _ 0%nat b []); [done|]. apply interleaved_end. repeat constructor.
Qed.

Lemma honest_engine_gets_full_marks_witness :
  exists u', Orchestrator.handle (Env0 := sandboxed) 200 demo_orch honest_job demo_up = Ok ((), u')
  /\ wp (ingester_main (Env0 := recording) "" 1) (fun _ w' => exists a m sc,
       verdicts_of "run1" (trace w') = [HSet "result:run1" (result_fields m a sc true)] /\ full_marks m sc) demo_reading.
Proof.
  destruct (honest_engine_gets_full_marks (Env0 := meeting) (Env1 := dead_engine) (Env2 := recording) (Env3 := sandboxed)
    (fun _ => None) snd served says_perfect "" snd hosts demo_orch honest_job 200 demo_up)
    as ([] & u' & Hrun & tr & Ht & Hor).
  - exact sandboxed_sleeps.
  - exact sandboxed_sandbox.
  - exact (bench_rand _ _ _ _).
  - exact (bench_clock _ _ _ _).
  - exact recording_text.
  - exact (bench_shared _ _ _ _).
  - exact recording_recorded.
  - reflexivity.
  - discriminate.
  - split; discriminate.
  - split; discriminate.
  - apply (bool_decide_unpack _). vm_compute. exact I.
  - exists u'. split; [exact Hrun|]. apply demo_dispatched in Hrun. simpl in Ht. rewrite Ht in Hrun.
    destruct Hor as [Hno|(nows & pre & post & Hn & _ & _ & Hone & Hearn)].
    { exfalso. apply existsb_exists in Hrun as (c & Hin & Hc). apply list_elem_of_In in Hin.
      apply is_load_shard in Hc as [s ->]. exact (Hno s Hin). }
    assert (shard_count demo_orch honest_job = 1) as Hcount by (vm_compute; reflexivity). rewrite Hcount in Hn, Hearn.
    destruct nows as [|now [|]]; try discriminate Hn.
    destruct (Hearn [one_plan] [one_shipment] one_shipment 1%nat demo_reading) as ([] & w' & Hread & tr' & Ht' & Hdone).
    + constructor; [apply one_fired|constructor].
    + constructor; [apply one_ran|constructor].
    + exact one_arrival.
    + vm_compute. discriminate.
    + exact idle_ingester_ok.
    + reflexivity.
    + exact Hone.
    + exists tt, w'. split; [exact Hread|]. simpl in Ht'. subst tr'. destruct Hdone as (a & m & sc & Hm).
      { apply final_world_ok in Hread. subst w'. vm_compute. reflexivity. }
      exists a, m, sc. split; [exact (cm_written _ _ _ _ _ _ Hm)|]. apply (cm_acked _ _ _ _ _ _ Hm). reflexivity.
Defined.
