(* ===== verification/Restart.v ===== *)
(** * Services that are replicated or restarted

    Orchestrators share the jobs as the replicas of the fleet share the shards.
    An ingester that is restarted has lost its aggregates: what its verdicts
    count from then on. *)
From stdpp Require Import relations.
From S2P Require Import Config.
From S2P Require Import Prelude Protocol Float64 Text IO Consumer Calls Counters Hist HistProps Conformance Bot BotTurn Fleet FleetProps Replicas.
From S2P Require Import Ingester IngesterMetrics IngesterProps IngesterStream.
From S2P Require Import Orchestrator OrchestratorProps Lifecycle Gateway Pipeline.
Local Open Scope Z_scope.

(** ** Orchestrators *)

Section claims.
Context {W L : Type} `{!Env W, !Strconv}.

Abbreviation claims_nothing := (makes (W := W) (L := L) (fun c => negb (is_claim c))).

Lemma claims_on_ref {A} (m : M Book.Store A) ref : claims_nothing (on_ref m ref).
Proof. apply makes_silent. intros w a w'. unfold on_ref. by destruct (m ref) as [[b ref']| |]; [intros [= <- <-]|..]. Qed.

Lemma claims_conformance target : claims_nothing (conformance target).
Proof.
  apply makes_bind; [|intros p; makes]. generalize scenario, 0, (mkProbe Book.New 0 0 []). intros steps.
  induction steps as [|st steps IH]; intros i p; simpl; [makes|]. apply makes_bind; [|intros ?; apply IH].
  pose proof @claims_on_ref. unfold conf_step, doCancel, doOrder. makes.
Qed.

Lemma claims_dispatch job shards n i : claims_nothing (dispatch job shards n i).
Proof. revert i. induction n as [|n IH]; intros i; simpl; makes. Qed.

Lemma claims_take_job fuel o m : claims_nothing (take_job fuel o m).
Proof.
  pose proof claims_conformance. pose proof claims_dispatch.
  unfold take_job, Orchestrator.handle, benchmark, waitHealthy, health_step, babysit_step, fail, setRun, teardown, docker. makes.
Qed.
End claims.

Section orchestrators.
Context {W : Type} `{!Env W, !Strconv} (clock : W -> Z) `{!SleepLaws clock}.
Context (stream : W -> list (delivery RunJob)) (claimed : W -> nat).

(** What Redis promises of the consumer group of the jobs; only the gateway
    writes to their stream. *)
Class JobGroup : Prop := {
  job_read e r e' : env_step (ReadJobs Orchestrator.streamRuns Orchestrator.group 1) e = (r, e') -> read_from stream claimed e r e';
  job_other c e r e' : is_claim c = false -> env_step c e = (r, e') -> grows stream claimed e e';
  job_queued e : Forall from_gateway (stream e)
}.

Lemma take_job_shared `{!JobGroup} o m (w : World W ()) :
  botsPerShard o = 250 -> cores o <> 0 -> from_gateway m ->
  wp (take_job 391 o m) (fun _ w' => exists tr, trace w' = trace w ++ tr /\ worked o m tr
    /\ grows stream claimed (env w) (env w')) w.
Proof.
  intros Ho Hc Hm. destruct (take_job_ok clock o m w _ [] w Ho Hc Hm (acted_refl w)) as ([] & w' & Hrun & i & tr & (_ & Ht & Hr) & Hw).
  exists tt, w'. split; [exact Hrun|]. exists tr. split; [exact Ht|]. split; [exact Hw|].
  destruct (claims_take_job 391 o m w tt w' Hrun) as (tr2 & Ht2 & _ & Hq). simpl in Ht. rewrite Ht in Ht2. apply app_inv_head in Ht2 as <-.
  eapply runs_grow; [exact job_other|exact Hr|]. apply Forall_forall. intros x Hx%list_elem_of_In.
  rewrite forallb_forall in Hq. apply negb_true_iff, Hq. by apply in_map.
Qed.

(** C18. The jobs are shared. Any number of orchestrators, with one
    configuration whatever it is, claim jobs from one stream, in any
    interleaving, while the gateway queues more, further ones join and any of
    them crashes at any time. Every job that was claimed is in exactly one place: with one orchestrator, handled by one, or lost with one
    that crashed; none is handled twice; one that is handled was brought to the
    end of one of its stories and then acknowledged; one that is lost is never
    handled. When none crashed and all is claimed and taken, every job was
    handled exactly once. An orchestrator can always go on. *)
Theorem orchestrators_share_the_jobs `{!JobGroup} (getenv : string -> string) (NumCPU : Z) (s0 s : fleet) :
  let o := orch_config getenv NumCPU in
  let read := perform (ReadJobs Orchestrator.streamRuns Orchestrator.group 1) in
  fresh claimed s0 -> rtc (work Orchestrator.joinGroup read (take_job 391 o) tt stream claimed) s0 s ->
  well_shared Orchestrator.joinGroup read (take_job 391 o) tt stream claimed (worked o) s.
Proof.
  intros o read Hfresh Hr. apply (replicas_share _ _ _ _ stream claimed from_gateway (worked o)) with s0; [| | | | |done..].
  - exact job_queued.
  - intros w. apply (wp_perform (ReadJobs _ _ _)). intros r e He. exact (job_read _ _ _ He).
  - exact job_other.
  - intros m w. apply take_job_shared; [done|]. pose proof (orch_config_cores getenv NumCPU). unfold o. lia.
  - intros w. apply (wp_perform (XGroupCreateMkStream _ _ _)). intros r e He. by eapply (job_other (XGroupCreateMkStream _ _ _)); [|exact He].
Qed.
End orchestrators.

(** ** An ingester that is restarted *)

Section restart.
Context `{!Math, !RangeOrder, !RangeLaws} {W : Type} `{!Env W, !Strconv} (pgDSN : string).

(** A last batch of a shard, with nothing in it. *)
Definition last_batch (run : string) (n k : Z) : TelemetryBatch := mkBatch run k n true 0 0 0 0 ∅ ∅ ∅ [].

(** The last batches of the shards that have sent none in [l]. *)
Definition missing_batches (run : string) (n : Z) (l : list TelemetryBatch) : list TelemetryBatch :=
  map (last_batch run n) (filter (fun k => k ∉ finals l) (seqZ 0 n)).

Lemma all_false (l : list bool) : true ∉ l -> l = replicate (length l) false.
Proof. intros Hl. symmetry. apply replicate_as_elem_of. split; [done|]. intros [|] Hin; [by destruct Hl|done]. Qed.

Lemma suffix_of_finals (x y : list bool) j : x ++ y = replicate j false ++ [true] -> true ∈ y -> exists j', y = replicate j' false ++ [true].
Proof.
  intros Heq Hin. destruct (exists_last (l := y)) as (y' & b & ->); [by intros ->; apply elem_of_nil in Hin|].
  rewrite app_assoc in Heq. apply app_inj_tail in Heq as [Heq ->]. exists (length y'). f_equal. apply all_false.
  intros Ht. assert (true ∈ replicate j false) as Hr by (rewrite <- Heq; apply elem_of_app; by right).
  by apply elem_of_replicate in Hr as [? _].
Qed.

Lemma of_shard_app k l l' : of_shard k (l ++ l') = of_shard k l ++ of_shard k l'.
Proof. apply filter_app. Qed.

Lemma last_batches run n k ks :
  NoDup ks -> of_shard k (map (last_batch run n) ks) = if decide (k ∈ ks) then [last_batch run n k] else [].
Proof.
  unfold of_shard. induction 1 as [|k' ks Hk _ IH]; [by rewrite decide_False by apply not_elem_of_nil|]. simpl map.
  destruct (decide (k' = k)) as [->|Hne].
  - rewrite filter_cons_True, IH, decide_False, decide_True by (done || left). done.
  - rewrite filter_cons_False, IH by done. apply decide_ext. rewrite elem_of_cons. naive_solver.
Qed.

Lemma missing_shard run n l k :
  of_shard k (missing_batches run n l) = if decide (0 <= k < n /\ k ∉ finals l) then [last_batch run n k] else [].
Proof.
  unfold missing_batches. rewrite last_batches by apply NoDup_filter, NoDup_seqZ. apply decide_ext.
  rewrite list_elem_of_filter, elem_of_seqZ. naive_solver lia.
Qed.

(** The end of a stream, completed. *)
Lemma suffix_stream run n l1 l2 :
  run_stream run n (l1 ++ l2) -> run_stream run n (l2 ++ missing_batches run n l2).
Proof.
  intros [Hpos Hmeta Hsh]. apply Forall_app in Hmeta as [_ Hm2]. split; [done| |].
  - apply Forall_app. split; [done|]. apply Forall_forall. intros b (k & -> & Hk)%list_elem_of_fmap.
    apply list_elem_of_filter in Hk as [_ Hk%elem_of_seqZ]. simpl. split_and!; [done|done|lia|lia].
  - intros k Hk. destruct (Hsh k Hk) as [j Hj]. rewrite of_shard_app, map_app in Hj |- *. rewrite missing_shard.
    destruct (decide (k ∈ finals l2)) as [Hin|Hout].
    + rewrite decide_False by tauto. rewrite app_nil_r. eapply suffix_of_finals; [exact Hj|by apply final_iff].
    + exists (length (map tb_final (of_shard k l2))). rewrite decide_True by done. f_equal. apply all_false. by rewrite <- final_iff.
Qed.
(** A shard that ended before does not end again, and one that did not does. *)
Lemma finals_rest run n l1 l2 k : run_stream run n (l1 ++ l2) -> 0 <= k < n -> k ∈ finals l2 <-> k ∉ finals l1.
Proof.
  intros [_ _ Hsh] Hk. destruct (Hsh k Hk) as [j Hj]. rewrite of_shard_app, map_app in Hj. rewrite !final_iff. split.
  - intros Hin2 Hin1. destruct (map tb_final (of_shard k l2)) as [|b y]; [by apply elem_of_nil in Hin2|].
    by eapply true_not_before_last.
  - intros Hn. assert (true ∈ replicate j false ++ [true]) as Ht by (apply elem_of_app; right; left).
    rewrite <- Hj in Ht. by apply elem_of_app in Ht as [|].
Qed.

Lemma missing_none run n l1 l2 : run_stream run n (l1 ++ l2) -> missing_batches run n l2 = [] <-> finals l1 = ∅.
Proof.
  intros Hs. unfold missing_batches. split.
  - intros Hm%map_eq_nil. apply elem_of_equiv_empty_L. intros k Hin1. pose proof Hin1 as (b & Hb & <- & _)%elem_finals.
    pose proof (rs_meta _ _ _ Hs) as Hmeta. rewrite Forall_forall in Hmeta.
    assert (0 <= tb_shard b < n) as Hk by (apply Hmeta, elem_of_app; by left).
    assert (tb_shard b ∈ filter (fun k => k ∉ finals l2) (seqZ 0 n)) as Hin; [|rewrite Hm in Hin; by apply elem_of_nil in Hin].
    apply list_elem_of_filter. rewrite elem_of_seqZ. split; [|lia].
    rewrite (finals_rest run n l1 l2) by done. tauto.
  - intros Hnone. destruct (filter _ _) as [|k ks] eqn:Hf; [done|exfalso].
    assert (k ∈ filter (fun k => k ∉ finals l2) (seqZ 0 n)) as Hin by (rewrite Hf; left).
    apply list_elem_of_filter in Hin as [Hk Hr%elem_of_seqZ].
    apply Hk. rewrite (finals_rest run n l1 l2), Hnone by (done || lia). apply not_elem_of_empty.
Qed.

(** C19. What a restart leaves. An ingester that has lost its memory, after the
    batches [l1] of a run had been delivered to it or to the one before, is
    delivered the rest [l2], in any order that keeps each shard's own, between
    batches of other runs. What [l1] counted is lost: when no shard had ended
    before, there is exactly one verdict on the run, from an aggregate that
    counts [l2] only; when some shard had, the run is never complete: no
    verdict is given when all has come, and an open aggregate of [l2] is left
    for the sweeper. *)
Theorem restart_counts_only_the_rest `{!TextLaws} (run : string) (n : Z) (l1 l2 : list TelemetryBatch) (k : nat)
    (w : World W ingester) :
  run_stream run n (l1 ++ l2) -> l2 <> [] -> ing_ok (local w) -> ing_runs (local w) !! run = None ->
  wp (ingester_main pgDSN k) (fun _ w' => exists tr, trace w' = trace w ++ tr
    /\ (l2 = of_run run (batches (delivered tr)) ->
        exists a, (forall c, ag_count c a = Int64.wrap (total c l2))
        /\ if decide (finals l1 = ∅)
           then exists m sc, compute a = Some m
                /\ verdicts_of run tr = [HSet ("result:" +:+ run) (result_fields m a sc true)]
           else verdicts_of run tr = [] /\ ag_finalized a = false
                /\ exists p, ing_runs (local w') !! run = Some p /\ ing_aggs (local w') !! p = Some a)) w.
Proof.
  intros Hs Hne Hok Hnone. pose proof (suffix_stream run n l1 l2 Hs) as Hs2. pose proof (missing_none run n l1 l2 Hs) as Hmiss.
  eapply wp_mono; [by eapply main_progress, progress_start|].
  intros [] w' (i' & msgs & tr & (<- & T & _) & Hses & _ & Hpro). exists tr. split; [exact T|].
  rewrite (session_delivered _ _ _ Hses). intros Heq. rewrite <- Heq in Hpro. specialize (Hpro _ eq_refl).
  rewrite (decide_ext _ _ _ _ Hmiss) in Hpro. destruct (decide (finals l1 = ∅)) as [Hnil|Hsome].
  - destruct Hpro as (_ & a & m & sc & Ha & Hm & _ & Hv). rewrite (proj2 Hmiss Hnil), app_nil_r in Ha.
    exists a. split; [apply Ha|]. by exists m, sc.
  - destruct Hpro as (Hv & p & a & Hc & Ha). exists a. split; [apply Ha|]. split; [exact Hv|]. split; [apply Ha|]. exists p.
    unfold current in Hc. destruct (ing_runs (local w') !! run) as [q|]; [by destruct Hc as [-> Hq]|].
    destruct Hc as [_ ->]. pose proof (gd_shards _ _ _ Ha Hne) as Hn. destruct Hs as [Hpos _ _]. simpl in Hn. lia.
Qed.
End restart.

(** ** Witness: a second orchestrator joins, and crashes with its job *)

#[local] Existing Instances Lifecycle.plain_text.

(** The jobs queued, how many of them were claimed, and a clock. *)
Definition job_queue : Type := list (string * (string * runReq)) * nat * Z.
Definition all_jobs (w : job_queue) : list (delivery RunJob) :=
  map (fun m => (m.1, Some (inl (job_of m.2.1 (normalize m.2.2))))) w.1.1.
Definition claimed_jobs (w : job_queue) : nat := w.1.2.
Definition job_clock (w : job_queue) : Z := w.2.

Definition dealing : Env job_queue := fun c w =>
  match c return reply c * job_queue with
  | Now => (w.2, w)
  | Sleep n => (tt, (w.1, w.2 + Z.max 0 n))
  | ReadJobs _ _ _ =>
      match drop w.1.2 (all_jobs w) with [] => (FetchNil, w) | m :: _ => (Fetched [m], (w.1.1, S w.1.2, w.2)) end
  | c => (default_reply c, w)
  end.

#[local] Existing Instance dealing.

#[local] Instance dealing_sleeps : SleepLaws job_clock.
Proof.
  split; unfold env_step, dealing, job_clock.
  - intros e r e' [= <- <-]. lia.
  - intros c e r e' Heq. destruct c; try (injection Heq; intros; subst; simpl; lia).
    destruct (drop _ _); injection Heq; intros; subst; simpl; lia.
  - intros n e r e' Hn [= <- <-]. simpl. lia.
Qed.

#[local] Instance dealing_group : JobGroup all_jobs claimed_jobs.
Proof.
  split.
  - intros e r e'. unfold env_step, dealing, read_from. destruct (drop e.1.2 (all_jobs e)) as [|m ms] eqn:Hd;
      intros Heq; injection Heq as <- <-; [done|]. split; [done|]. split; [unfold claimed_jobs; simpl; lia|].
    change (all_jobs (e.1.1, S e.1.2, e.2)) with (all_jobs e). unfold claimed_jobs. by rewrite Hd.
  - intros c e r e' Hc. unfold env_step, dealing. destruct c; try discriminate Hc; intros Heq; injection Heq as _ <-; by split.
  - intros e. apply Forall_forall. intros m (x & -> & _)%list_elem_of_fmap. simpl. by eexists _, _.
Qed.

Definition orchestrators : Type := fleet (A := RunJob) (W := job_queue) (L := ()).
Definition demo_orchestrators : orchestrators :=
  mkFleet ([("1", ("run1", mkRunReq "sub1" 620 0 0)); ("2", ("run2", mkRunReq "sub1" 10 0 0))], 0%nat, 0) [started tt] [] [].

Lemma orchestrators_share_the_jobs_witness : exists s : orchestrators,
  map fst (Replicas.taken s) = ["1"] /\ map fst (fl_lost s) = ["2"] /\ NoDup (map fst (hands s ++ Replicas.taken s ++ fl_lost s)).
Proof.
  pose (o := orch_config (fun _ => ""%string) 8).
  pose (read := perform (L := ()) (ReadJobs Orchestrator.streamRuns Orchestrator.group 1)).
  assert (exists s, rtc (work Orchestrator.joinGroup read (take_job 391 o) tt all_jobs claimed_jobs) demo_orchestrators s
    /\ map fst (Replicas.taken s) = ["1"] /\ map fst (fl_lost s) = ["2"] /\ NoDup (map fst (all_jobs (fl_env s)))) as (s & Hr & Ht & Hl & Hn).
  { eexists. split.
    - eapply rtc_l; [eapply work_join; vm_compute; reflexivity|].
      eapply rtc_l; [eapply (work_claim _ _ _ _ _ _ _ _ _ _ 0); [reflexivity|reflexivity|vm_compute; reflexivity]|].
      eapply rtc_l; [eapply (work_claim _ _ _ _ _ _ _ _ _ _ 1); [reflexivity|reflexivity|vm_compute; reflexivity]|].
      eapply rtc_l; [eapply (work_crash _ _ _ _ _ _ _ _ _ _ 1 _ []); [reflexivity|apply runs_nil|constructor]|].
      eapply rtc_l; [eapply (work_take _ _ _ _ _ _ _ _ _ _ 0); [reflexivity|reflexivity|vm_compute; reflexivity|reflexivity]|].
      apply rtc_refl.
    - split; [reflexivity|]. split; [reflexivity|]. vm_compute. decide_now. }
  exists s. split; [exact Ht|]. split; [exact Hl|].
  assert (fresh claimed_jobs demo_orchestrators) as Hfresh by (split; [repeat constructor|repeat split]).
  exact (proj1 (proj2 (proj1 (orchestrators_share_the_jobs job_clock all_jobs claimed_jobs (fun _ => ""%string) 8 demo_orchestrators s Hfresh Hr))) Hn).
Defined.

(** ** Witness: a restart after one of two shards has ended *)

#[local] Existing Instances toy_math plain_order plain_laws feeding feeding_text.

Definition demo_before : list TelemetryBatch := take 3 demo_stream.
Definition demo_after : list TelemetryBatch := drop 3 demo_stream.
Definition demo_restarted : World feed ingester := mkWorld [map (fun b => ("1", inl b)) demo_after] idle_ingester [].

Lemma restart_counts_only_the_rest_witness :
  wp (ingester_main "" 1) (fun _ w' => verdicts_of "run1" (trace w') = [] /\ exists p a,
    ing_runs (local w') !! "run1"%string = Some p /\ ing_aggs (local w') !! p = Some a /\ ag_sent a = 8) demo_restarted.
Proof.
  destruct (restart_counts_only_the_rest "" "run1" 2 demo_before demo_after 1 demo_restarted demo_run_stream)
    as ([] & w' & Hrun & tr & Ht & Hdone); [discriminate|exact idle_ingester_ok|reflexivity|].
  exists tt, w'. split; [exact Hrun|]. simpl in Ht. subst tr. destruct Hdone as (a & Hc & Hdone).
  - apply final_world_ok in Hrun. subst w'. vm_compute. reflexivity.
  - destruct (decide (finals demo_before = ∅)) as [Hnil|_]; [exfalso; vm_compute in Hnil; discriminate Hnil|].
    destruct Hdone as (Hv & _ & p & Hr & Ha). split; [exact Hv|]. exists p, a.
    split; [exact Hr|]. split; [exact Ha|]. exact (Hc CSent).
Defined.
